(* ===== verification/_CoqProject ===== *)
-Q . S2P
Prelude.v
Constants.v
Hdlc.v
Crypto.v
Packet.v
Identity.v
Announce.v
Link.v
Msgpack.v
Stamp.v
Message.v
ResourceWire.v
Resource.v
ResourceTransfer.v
Tables.v
Transport.v
TransportInv.v
TransportFlow.v
TransportSession.v
TransportCache.v
Field25519.v
X25519.v
Scalar25519.v
Sha512.v
Ed25519.v
Micron.v
MicronPage.v
AutoInterface.v
Outbox.v
OutboxProps.v
OutboxNet.v
Sync.v
SyncProps.v
Storage.v
StorageProps.v
Inbound.v
InboundProps.v
InboundChat.v
DocView.v
DocViewProps.v
Browser.v
BrowserProps.v
Dialogue.v
DialogueProps.v
Dispatch.v
DispatchProps.v
Hub.v
HubProps.v
ChatView.v
ChatViewProps.v
LocalTime.v
Actions.v
ActionsProps.v
Interfaces.v
HostClient.v
HostClientProps.v
