(* ===== verification/Prelude.v ===== *)
(** * A model of the LXMF chat client for the Precursor

    The repository is a Reticulum/LXMF client for the Precursor handheld: the protocol
    libraries [reticulum-core], [lxmf] and [micron], the application [lxmfchat] that
    drives them from its threads, and the [chat] library that shows conversations and pages
    (all under src/xous-core); src/host-client is a command-line client of the same
    libraries.  This development translates them into executable definitions and proves what
    makes them correct.

    ** The parts and how they interact

    Bytes arrive from the hub in HDLC frames, or as datagrams of local peers.  The transport
    takes one frame at a time, answers with an event and keeps its tables (known
    destinations, paths, links, receipts).  On links it carries LXMF messages as single
    packets or as Resource transfers.  The application packs and signs a message, mines its
    proof-of-work stamp if the recipient asks for one, and leaves it in the outbox, which a
    pump drives over links of the transport, or over a propagation node, until a proof
    arrives or its time is up.  A message that arrives is checked, and posted to the chat
    server if its conversation is open, else held and stored until it is.  Pages fetched over
    a link are micron markup, and are read and navigated in the document view.

    - [Prelude]: outcomes ([res]: a value, an error or a panic), slices that panic out of
      range, integers at their width, list and loop lemmas, tactics and the hint base [rns].
    - [Constants]: constants.rs.
    - [Hdlc]: hdlc.rs ([frame], [Deframer]).
    - [Crypto]: crypto.rs, over the interface [Crypto] to the primitives.
    - [Packet], [Identity], [Announce], [Link]: packet.rs, destination.rs and identity.rs,
      announce.rs, link.rs.
    - [Msgpack], [Stamp], [Message]: msgpack.rs, stamp.rs, message.rs of lxmf.
    - [ResourceWire], [Resource]: resource.rs; [ResourceTransfer] runs its receiver, as
      [inbound_resource] of net.rs drives it, against its sender.
    - [Tables], [Transport]: transport.rs, one definition per numbered branch of
      [handle_frame] and per outbound operation.  [TransportInv] (safety over every input),
      [TransportFlow] (routing, authenticity), [TransportSession] (two transports in
      conversation), [TransportCache] (reuse of links) prove its properties.
    - [Field25519], [X25519]: x25519.rs; [Scalar25519], [Sha512], [Ed25519]: ed25519.rs.
    - [Micron], [MicronPage]: micron/src/lib.rs and what its markup can express.
    - [AutoInterface]: autointerface.rs and the peer table of autoiface.rs.
    - [Outbox]: the delivery engine of net.rs ([pump_outbox], [enqueue_outbound],
      [mark_delivered], [compute_pending_delivery_stamp], [compute_pending_pn_blob]) written
      against the interface [NetOps]; [OutboxProps] proves it against the laws [NetOK], and
      [OutboxNet] implements both over the modelled transport.
    - [Sync], [SyncProps]: the synchronisation with a propagation node, from [start_sync] to
      [sync_finish] of net.rs, over the modelled transport and resource receiver.
    - [Storage], [StorageProps]: what lib.rs keeps across restarts, from [parse_addr] to
      [load_contacts], and [extract_addresses] of net.rs.
    - [Inbound]: the path of a message from the network to the user ([deliver_lxmf],
      [inbound_resource], the events that concern messages, [activate_peer], [post] and the
      other conversation actions of lib.rs), on the state [Shared]; [InboundProps] proves its
      invariant over every interleaving of its steps, [InboundChat] puts two devices together.
    - [DocView], [DocViewProps]: the document view of chat/src/ui.rs, its keys and layout.
    - [Browser], [BrowserProps]: the page browser of net.rs and its actions in lib.rs, against
      an abstract history.
    - [Dialogue], [DialogueProps]: chat/src/dialogue.rs and the requests of the chat server,
      against a store of conversations.
    - [Dispatch], [DispatchProps]: [handle_frame] of net.rs on the state of the whole
      application, composed from the parts above.
    - [Hub], [HubProps]: the connection to the hub ([connection_manager], [read_until_closed],
      [hub_write], [keepalive_thread], the reactions to a wake and to the wifi of net.rs,
      [connect], [toggle_hub] and [set_hub] of lib.rs), as steps that its threads take in any
      order on shared sockets.
    - [ChatView], [ChatViewProps]: the conversation view of chat/src/ui.rs ([layout],
      [post_select]): which posts are shown for a selection, and where.
    - [LocalTime]: the times in the headers of bubbles (chat/src/lib.rs, [civil_from_days],
      [tz_offset_secs], [format_when], [post_header]).
    - [Actions], [ActionsProps]: the loop of main.rs and the user's actions of lib.rs, from
      [LxmfChat::new] ([boot]) to every key and menu entry, on the state of [Dispatch].  The
      answers that the user gives in dialogs are arguments.
    - [Interfaces]: the interfaces menu of lib.rs ([toggle_hub], [toggle_local_peers],
      [set_hub_interactive], [connect]), over [Hub], [AutoInterface] and [Actions].
    - [HostClient], [HostClientProps]: host-client/src/main.rs, over [Transport], [Message] and
      [Resource].

    ** What the theorems show

    - Codecs: round trips of messages, packets, MessagePack values, announces, encrypted
      blobs, pages and link targets; the deframer refines an abstract reading of the
      stream for any split into reads; the decoder of MessagePack returns on every input.
    - Curves: X25519, signing and verification compute the functions of RFC 7748 and
      RFC 8032 on residues for all inputs; the 64-bit limbs never show a wrap-around.
    - Safety: no frame makes the transport panic; every table is bounded in every reachable
      state; delivery proofs, announces, routes, link handshakes and local datagrams are
      accepted only when authentic; a finished resource hashes to what was advertised.
    - Conversations: a link opens, carries data both ways and identifies its initiator; an
      opportunistic packet and a whole Resource transfer are delivered and confirmed; a
      propagation envelope opens for its recipient; local peering converges.
    - Delivery: a pass of the pump returns and conserves the outbox, and every message
      settles within its time budget whatever the network does.
    - Synchronisation: a run against a node downloads what it holds and confirms it; every
      run ends, whatever arrives.
    - Storage: after any history of writes a restart loads back what the application held
      ([storage_reload]).
    - Conversations on screen: a text typed on one device is shown once on the other
      ([chat_end_to_end]); messages are conserved by every interleaving ([inbox_conserves]) and
      by every run of the application ([app_conserves]); tickets are authentic; the chat server
      implements a store of conversations, and opening one shows what was held for it.
    - Pages: a page that arrives can be read to its last row and each of its links followed;
      the history is the abstract one whatever fails; every fetch ends; browsing is anonymous
      while the fetch lasts.
    - Hub: whatever the threads do, the hub reads the packets whose write succeeded, in order;
      a dead connection is redialled and a quiet but live one is kept.
    - The user: a restart resumes the state the device had ([restart_resumes]); the name given
      to a contact stays whatever arrives ([rename_sticks]); the entry chosen for a contact
      opens its conversation ([contact_opened]) and a bookmark its page ([bookmark_reopens]);
      an interface that is switched off is led around ([interface_off]); scrolling shows the
      post selected ([scroll_shows]), and panics in exactly two cases ([scroll_panics_iff]);
      dates are those of the calendar ([civil_is_gregorian]).
    - The host client: a text that one sends, another prints ([host_message_arrives]); pages
      are fetched without showing who asks ([fetch_anonymous]).
    - Defects the model shows: [msgpack_take_wraps_32], [hmu_gap_panics],
      [closed_link_keeps_resource], [leading_space_style], [restamp_drops],
      [parse_addr_panics], [future_message_buries_echo], [switch_misfiles],
      [line_down_jumps_back], [title_panics], [bookmark_panics], [oversized_lost],
      [me_impersonates], [late_link_identifies], [hub_change_lost], [hub_off_connects],
      [second_shot_misses], [stuck_write_wedges], [cut_post_stays_cut], [grown_canvas_panics],
      [first_post_panics], [announces_rename], [second_of_label_kept],
      [announced_nodes_hidden], [set_name_panics].

    ** Conventions

    A panic of the source (an index out of range, an [expect]) is the value [Panic], an
    error or [None] of a fallible function is [Err].  Random values, clocks and the
    iteration order of a [HashMap] are arguments.  Machine integers wrap where the source
    does: [usize] has a width [W] where a computation can reach it, the limbs and digits
    of the curves are 64-bit.  Assumptions on cryptography are the classes [HashOK],
    [KdfOK], [CipherOK], [DhOK], [SigOK]; [Toy] satisfies them all.

    Fuel: the mining loop runs as long as its fuel ([stamp_found] says which is enough; an
    exhausted one is a loop still running, not a result); the MessagePack decoder has three
    steps per byte ([msgpack_decode_total]); the scanner and page loops of [Micron] the length of
    theirs ([parse_wellformed] shows both end on every input); the pump two looks at a
    message ([pump_conserves] shows they are enough); the exchange of [resource_transfer]
    two rounds per part.

    ** Not modelled

    The start of the threads, their heartbeats and the status lines (net.rs); key hints and the
    plumbing of Xous messages (lib.rs, main.rs); drawing (ui.rs: the height of a bubble and of
    a wrapped line are arguments, as the graphics service measures them); the progress lines
    of the host client; the kernel and services of Xous and the vendored crates.  [to_lowercase]
    is an arbitrary function, by which lists are only sorted.  The PDDB is a map whose operations
    succeed.  SHA-256, HMAC, HKDF, AES, bzip2 and the rkyv archive are crates outside the
    repository, hence parameters with their laws.  Threads are modelled by the atomic steps
    they take: one pass of the pump, one handler of the synchronisation, the browser or an
    event is a step, and a delivery is two, between which the user may act ([Inbound]).  In
    [Dispatch] an event is handled as a whole, and what a synchronisation hands over is
    delivered when its handler has returned.  A panic ends a step; that a thread may catch it
    and go on is not modelled. *)
From stdpp Require Export base tactics numbers list gmap strings.
From Stdlib Require Export ZArith Lia.
Open Scope Z_scope.

(** ** Bytes

    A [u8] is a [Z] in [0, 256); a [Vec<u8>], [&[u8]] or [[u8; n]] is a list of
    them (the length of a fixed array is a side condition where it matters). *)

Abbreviation byte := Z (only parsing).
Abbreviation bytes := (list Z) (only parsing).

Definition is_byte (b : Z) : Prop := 0 ≤ b < 256.
Definition bytes_ok (l : bytes) : Prop := Forall is_byte l.

#[export] Instance is_byte_dec b : Decision (is_byte b) := _.
#[export] Instance bytes_ok_dec l : Decision (bytes_ok l) := _.

(** ** Outcomes

    [res A] is what a call of a Rust function can do: return ([Ok]), return the
    error value of its [Result]/[Option] type ([Err]), or panic ([Panic]).  An
    infallible function that may still panic never yields [Err]. *)

Inductive res (A : Type) : Type :=
  | Ok (a : A)
  | Err (e : string)
  | Panic.
Arguments Ok {_} _.
Arguments Err {_} _.
Arguments Panic {_}.

#[export] Instance res_ret : MRet res := @Ok.
#[export] Instance res_bind : MBind res := λ A B f m,
  match m with Ok a => f a | Err e => Err e | Panic => Panic end.
#[export] Instance res_fmap : FMap res := λ A B f m,
  match m with Ok a => Ok (f a) | Err e => Err e | Panic => Panic end.

#[export] Instance res_eq_dec `{EqDecision A} : EqDecision (res A).
Proof. solve_decision. Defined.

(** [.ok_or(e)?] and [.expect(..)]/[.unwrap()]. *)
Definition ok_or {A} (e : string) (o : option A) : res A :=
  match o with Some a => Ok a | None => Err e end.
Definition expect {A} (o : option A) : res A :=
  match o with Some a => Ok a | None => Panic end.
(** [Result::ok], a panic still propagates. *)
Definition res_ok {A} (m : res A) : res (option A) :=
  match m with Ok a => Ok (Some a) | Err _ => Ok None | Panic => Panic end.
(** Unwrapping a [Result]: an error is a panic. *)
Definition res_expect {A} (m : res A) : res A :=
  match m with Ok a => Ok a | _ => Panic end.

Definition no_panic {A} (m : res A) : Prop := m ≠ Panic.
#[export] Instance no_panic_dec {A} (m : res A) : Decision (no_panic m).
Proof. destruct m; unfold no_panic; [left|left|right]; naive_solver. Defined.

(** ** Indexing and slicing: out of range panics. *)
Section slices.
Context {A : Type}.
Implicit Types l : list A.

Definition index l (i : nat) : res A := expect (l !! i).
(** [&l[i..j]] *)
Definition slice l (i j : nat) : res (list A) :=
    if decide (i ≤ j ∧ j ≤ length l)%nat then Ok (take (j - i) (drop i l)) else Panic.
(** [&l[i..]] *)
Definition slice_from l (i : nat) : res (list A) :=
    if decide (i ≤ length l)%nat then Ok (drop i l) else Panic.
(** [&l[..j]] *)
Definition slice_to l (j : nat) : res (list A) :=
    if decide (j ≤ length l)%nat then Ok (take j l) else Panic.
(** [dst.copy_from_slice(src)] into an array of [n] elements. *)
Definition copy_exact (n : nat) l : res (list A) :=
    if decide (length l = n) then Ok l else Panic.

Lemma slice_ok l i j :
    (i ≤ j)%nat → (j ≤ length l)%nat → slice l i j = Ok (take (j - i) (drop i l)).
  Proof. intros. unfold slice. by rewrite decide_True. Qed.
Lemma slice_from_ok l i : (i ≤ length l)%nat → slice_from l i = Ok (drop i l).
  Proof. intros. unfold slice_from. by rewrite decide_True. Qed.
Lemma slice_to_ok l j : (j ≤ length l)%nat → slice_to l j = Ok (take j l).
  Proof. intros. unfold slice_to. by rewrite decide_True. Qed.
Lemma copy_exact_ok n l : length l = n → copy_exact n l = Ok l.
  Proof. intros. unfold copy_exact. by rewrite decide_True. Qed.
Lemma index_ok l i x : l !! i = Some x → index l i = Ok x.
  Proof. intros H. unfold index. by rewrite H. Qed.

(** Slices of an append, in the shapes the codecs produce. *)
Lemma slice_app_mid (a b c : list A) i j :
    length a = i → (j = i + length b)%nat → slice (a ++ b ++ c) i j = Ok b.
  Proof.
    intros <- ->. rewrite slice_ok by (rewrite ?length_app; lia).
    f_equal. rewrite drop_app_length.
    replace (length a + length b - length a)%nat with (length b) by lia.
    by rewrite take_app_length.
  Qed.
Lemma slice_from_app (a b : list A) i :
    length a = i → slice_from (a ++ b) i = Ok b.
  Proof.
    intros <-. rewrite slice_from_ok by (rewrite length_app; lia).
    by rewrite drop_app_length.
  Qed.
Lemma slice_to_app (a b : list A) j :
    length a = j → slice_to (a ++ b) j = Ok a.
  Proof.
    intros <-. rewrite slice_to_ok by (rewrite length_app; lia).
    by rewrite take_app_length.
  Qed.
Lemma index_app_mid (a : list A) x c i :
    length a = i → index (a ++ x :: c) i = Ok x.
  Proof. intros <-. unfold index. by rewrite list_lookup_middle. Qed.
(** The same with the list given up to associativity; see [app_norm]. *)
Lemma slice_at (a b c l : list A) i j :
  l = a ++ b ++ c → length a = i → (j = i + length b)%nat → slice l i j = Ok b.
Proof. intros -> ??. by apply slice_app_mid. Qed.
Lemma slice_from_at (a b l : list A) i :
  l = a ++ b → length a = i → slice_from l i = Ok b.
Proof. intros -> ?. by apply slice_from_app. Qed.
Lemma slice_to_at (a b l : list A) j :
  l = a ++ b → length a = j → slice_to l j = Ok a.
Proof. intros -> ?. by apply slice_to_app. Qed.
Lemma index_at (a c l : list A) x i :
  l = a ++ x :: c → length a = i → index l i = Ok x.
Proof. intros -> ?. by apply index_app_mid. Qed.
End slices.

(** [chunks_exact(n)]: full chunks only; [chunks(n)]: the last may be short. *)
Fixpoint chunks_fuel {A} (fuel n : nat) (l : list A) : list (list A) :=
  match fuel, l with
  | O, _ | _, [] => []
  | S f, _ => take n l :: chunks_fuel f n (drop n l)
  end.
Definition chunks {A} (n : nat) (l : list A) : list (list A) :=
  chunks_fuel (length l) n l.
Definition chunks_exact {A} (n : nat) (l : list A) : list (list A) :=
  filter (λ c, length c = n) (chunks n l).

(** [Iterator::position]. *)
Fixpoint position {A} (p : A → bool) (l : list A) : option nat :=
  match l with
  | [] => None
  | x :: l' => if p x then Some 0%nat else S <$> position p l'
  end.

(** ** Big-endian integers *)

(** [(v as uN).to_be_bytes()], [N = 8 * n]: the value is truncated to [n] bytes. *)
Fixpoint be_bytes (n : nat) (v : Z) : bytes :=
  match n with
  | O => []
  | S n' => (v / 256 ^ Z.of_nat n') mod 256 :: be_bytes n' v
  end.
(** [uN::from_be_bytes], as the shift-and-or loop. *)
Definition be_val (l : bytes) : Z :=
  fold_left (λ v b, Z.lor (Z.shiftl v 8) b) l 0.

(** Two's complement reading of an [n]-byte pattern ([as iN]). *)
Definition as_signed (bits : Z) (v : Z) : Z :=
  if decide (v mod 2 ^ bits < 2 ^ (bits - 1)) then v mod 2 ^ bits
  else v mod 2 ^ bits - 2 ^ bits.

(** ** The development's tactics and hint database *)

Create HintDb rns discriminated.

Lemma bind_Ok {A B} (a : A) (f : A → res B) : Ok a ≫= f = f a.
Proof. done. Qed.
Lemma bind_Err {A B} e (f : A → res B) : Err e ≫= f = Err e.
Proof. done. Qed.
Lemma bind_Panic {A B} (f : A → res B) : Panic ≫= f = Panic.
Proof. done. Qed.
Lemma mret_Ok {A} (a : A) : mret a = Ok a.
Proof. done. Qed.
Lemma fmap_Ok {A B} (f : A → B) a : f <$> Ok a = Ok (f a).
Proof. done. Qed.
Lemma fmap_Err {A B} (f : A → B) e : f <$> @Err A e = Err e.
Proof. done. Qed.
Lemma fmap_Panic {A B} (f : A → B) : f <$> @Panic A = Panic.
Proof. done. Qed.

Lemma Ok_inj {A} (x y : A) : Ok x = Ok y → x = y.
Proof. by intros [= ->]. Qed.

(** Reduce the monadic plumbing of [res] in the goal and the hypotheses. *)
Ltac res_simpl :=
  repeat (progress (rewrite ?mret_Ok, ?bind_Ok, ?bind_Err, ?bind_Panic, ?fmap_Ok, ?fmap_Err,
    ?fmap_Panic in *; cbv beta iota in *)).

(** Split a bind that is known to succeed, naming nothing: one step. *)
Ltac res_inv H :=
  match type of H with
  | context [match ?e with _ => _ end] => let E := fresh "E" in destruct e eqn:E
  end; res_simpl; try discriminate H.

(** Closes equalities of lists up to associativity of [++]. *)
Ltac app_norm := repeat (rewrite <-!app_assoc || cbn [app]); reflexivity.

(** Closes length goals: normalise [length] of the list operations, then [lia]. *)
Ltac len :=
  repeat (progress (cbn [length] in *; rewrite ?length_app, ?length_take, ?length_drop,
    ?length_replicate, ?length_fmap in *));
  try lia.

(** ** Lemmas on outcomes *)

Lemma res_bind_ok {A B} (m : res A) (f : A → res B) b :
  m ≫= f = Ok b ↔ ∃ a, m = Ok a ∧ f a = Ok b.
Proof.
  destruct m as [a| |]; res_simpl; split;
    [by exists a|by intros (?&[=->]&?)|done|by intros (?&?&?)|done|by intros (?&?&?)].
Qed.

Lemma res_bind_no_panic {A B} (m : res A) (f : A → res B) :
  no_panic m → (∀ a, m = Ok a → no_panic (f a)) → no_panic (m ≫= f).
Proof. unfold no_panic. destruct m; res_simpl; naive_solver. Qed.

Lemma no_panic_ok {A} (a : A) : no_panic (Ok a).
Proof. done. Qed.
Lemma no_panic_err {A} e : no_panic (@Err A e).
Proof. done. Qed.
#[export] Hint Resolve no_panic_ok no_panic_err : rns.

(** ** Lemmas on bytes *)

Lemma bytes_ok_app a b : bytes_ok (a ++ b) ↔ bytes_ok a ∧ bytes_ok b.
Proof. apply Forall_app. Qed.
Lemma bytes_ok_cons x l : bytes_ok (x :: l) ↔ is_byte x ∧ bytes_ok l.
Proof. apply Forall_cons. Qed.
Lemma bytes_ok_nil : bytes_ok [].
Proof. constructor. Qed.
Lemma bytes_ok_take n l : bytes_ok l → bytes_ok (take n l).
Proof. apply Forall_take. Qed.
Lemma bytes_ok_drop n l : bytes_ok l → bytes_ok (drop n l).
Proof. apply Forall_drop. Qed.
Lemma bytes_ok_lookup l i b : bytes_ok l → l !! i = Some b → is_byte b.
Proof. intros. by eapply Forall_lookup_1. Qed.
#[export] Hint Resolve bytes_ok_nil bytes_ok_take bytes_ok_drop : rns.

(** A decidable fact about bytes is checked by evaluating it on all of them. *)
Lemma byte_forall (P : Z → bool) :
  forallb P (seqZ 0 256) = true → ∀ b, is_byte b → P b = true.
Proof.
  intros H b [??]. rewrite forallb_forall in H. apply H.
  apply list_elem_of_In, elem_of_seqZ. lia.
Qed.

Lemma shiftl8_lor v b : is_byte b → Z.lor (Z.shiftl v 8) b = v * 256 + b.
Proof.
  intros [Hb0 Hb]. assert (Z.land (Z.shiftl v 8) b = 0) as Hd.
  { apply Z.bits_inj'. intros i Hi. rewrite Z.land_spec, Z.bits_0, Z.shiftl_spec by done.
    destruct (decide (i < 8)).
    - by rewrite Z.testbit_neg_r by lia.
    - rewrite <-(Z.mod_small b (2 ^ 8)) by lia.
      by rewrite Z.mod_pow2_bits_high, andb_false_r by lia. }
  rewrite <-Z.lxor_lor, <-Z.add_nocarry_lxor by done.
  rewrite Z.shiftl_mul_pow2 by lia. lia.
Qed.

Lemma be_bytes_length n v : length (be_bytes n v) = n.
Proof. induction n; cbn; congruence. Qed.
Lemma be_bytes_ok n v : bytes_ok (be_bytes n v).
Proof.
  induction n; cbn; [apply bytes_ok_nil|]. apply bytes_ok_cons; split; [|done].
  apply Z.mod_pos_bound. lia.
Qed.
#[export] Hint Resolve be_bytes_ok : rns.

Lemma be_bytes_snoc n v : be_bytes (S n) v = be_bytes n (v / 256) ++ [v mod 256].
Proof.
  revert v. induction n as [|n IH]; intros v.
  - cbn. by rewrite Z.div_1_r.
  - change (be_bytes (S (S n)) v) with ((v / 256 ^ Z.of_nat (S n)) mod 256 :: be_bytes (S n) v).
    rewrite IH. cbn [be_bytes app]. do 2 f_equal.
    rewrite Nat2Z.inj_succ, Z.pow_succ_r, Z.div_div by lia. done.
Qed.

Lemma be_val_snoc l b : is_byte b → be_val (l ++ [b]) = be_val l * 256 + b.
Proof. intros. unfold be_val. rewrite fold_left_app. cbn. by rewrite shiftl8_lor. Qed.

Lemma be_val_be_bytes n v : be_val (be_bytes n v) = v mod 256 ^ Z.of_nat n.
Proof.
  revert v. induction n as [|n IH]; intros v; [by rewrite Z.mod_1_r|].
  rewrite be_bytes_snoc, be_val_snoc by (apply Z.mod_pos_bound; lia).
  rewrite IH, Nat2Z.inj_succ, Z.pow_succ_r by lia.
  rewrite Z.rem_mul_r by (try lia; apply Z.pow_nonzero; lia). lia.
Qed.
Lemma be_val_be_bytes_small n v : 0 ≤ v < 256 ^ Z.of_nat n → be_val (be_bytes n v) = v.
Proof. intros. rewrite be_val_be_bytes. by apply Z.mod_small. Qed.

Lemma be_val_bound l : bytes_ok l → 0 ≤ be_val l < 256 ^ Z.of_nat (length l).
Proof.
  induction l as [|b l IH] using rev_ind; intros Hl; [cbn; lia|].
  apply bytes_ok_app in Hl as [Hl [[? ?] _]%bytes_ok_cons].
  specialize (IH Hl). rewrite be_val_snoc by done.
  rewrite length_app, Nat.add_comm, Nat2Z.inj_add, Z.pow_add_r by lia. cbn. lia.
Qed.

Lemma be_bytes_be_val l : bytes_ok l → be_bytes (length l) (be_val l) = l.
Proof.
  induction l as [|b l IH] using rev_ind; intros Hl; [done|].
  apply bytes_ok_app in Hl as [Hl [[? ?] _]%bytes_ok_cons].
  rewrite length_app, Nat.add_comm. cbn [length Nat.add].
  rewrite be_bytes_snoc, be_val_snoc by done.
  rewrite Z.div_add_l, Z.div_small, Z.add_0_r, IH by (done || lia).
  by rewrite Z.add_comm, Z.mod_add, Z.mod_small by lia.
Qed.

Lemma as_signed_id bits v : 0 < bits → - 2 ^ (bits - 1) ≤ v < 2 ^ (bits - 1) →
  as_signed bits (v mod 2 ^ bits) = v.
Proof.
  intros Hb Hv. unfold as_signed.
  assert (2 ^ bits = 2 * 2 ^ (bits - 1)) as E.
  { rewrite <-Z.pow_succ_r by lia. f_equal. lia. }
  rewrite Z.mod_mod by (rewrite E; lia).
  destruct (decide (0 ≤ v)).
  - rewrite Z.mod_small by lia. case_decide; lia.
  - replace (v mod 2 ^ bits) with (v + 2 ^ bits).
    + case_decide; lia.
    + rewrite <-(Z.mod_add v 1), Z.mul_1_l by lia. symmetry. apply Z.mod_small. lia.
Qed.

(** ** Lemmas on lists *)

Lemma removelast_fmap {A B} (f : A → B) l : removelast (f <$> l) = f <$> removelast l.
Proof.
  induction l as [|x [|y l] IH]; [done..|]. rewrite fmap_cons.
  change (f x :: removelast (f <$> y :: l) = f x :: (f <$> removelast (y :: l))).
  by rewrite IH.
Qed.

(** [chunks]: fuel, unfolding, and how it splits over an append. *)
Lemma chunks_fuel_enough {A} n (l : list A) f : (0 < n)%nat → (length l ≤ f)%nat →
  chunks_fuel f n l = chunks n l.
Proof.
  intros Hn. unfold chunks. remember (length l) as k eqn:Hk.
  revert l Hk f. induction k as [k IH] using lt_wf_ind. intros l -> f Hf.
  destruct l as [|x l], f as [|f]; cbn [length] in *; try done; [lia|].
  cbn [chunks_fuel]. f_equal. assert (length (drop n (x :: l)) ≤ length l)%nat as Hd
    by (rewrite length_drop; cbn; lia).
  rewrite (IH (length (drop n (x :: l)))) by (done || lia).
  symmetry. apply IH; (done || lia).
Qed.
Lemma chunks_cons {A} n (l : list A) : (0 < n)%nat → l ≠ [] →
  chunks n l = take n l :: chunks n (drop n l).
Proof.
  intros Hn Hl. destruct l as [|x l]; [done|]. unfold chunks at 1. cbn [length chunks_fuel].
  f_equal. apply chunks_fuel_enough; [done|]. rewrite length_drop. cbn. lia.
Qed.
Lemma chunks_single {A} n (l : list A) : (0 < length l ≤ n)%nat → chunks n l = [l].
Proof.
  intros Hl. rewrite chunks_cons; [|lia|by intros ->; cbn in Hl; lia].
  by rewrite take_ge, drop_ge by lia.
Qed.
Lemma chunks_app {A} n k (a b : list A) : (0 < n)%nat → length a = (k * n)%nat →
  chunks n (a ++ b) = chunks n a ++ chunks n b.
Proof.
  intros Hn. revert a. induction k as [|k IH]; intros a Ha.
  - by apply nil_length_inv in Ha as ->.
  - assert (a ≠ []) by (intros ->; cbn in Ha; lia).
    assert (n ≤ length a)%nat by lia.
    rewrite (chunks_cons n (a ++ b)), (chunks_cons n a); [|done..|by destruct a].
    rewrite take_app_le, drop_app_le, IH by (rewrite ?length_drop; lia). done.
Qed.
Lemma chunks_lengths {A} n k (l : list A) : (0 < n)%nat → length l = (k * n)%nat →
  length (chunks n l) = k ∧ Forall (λ c, length c = n) (chunks n l).
Proof.
  intros Hn. revert l. induction k as [|k IH]; intros l Hl.
  - by apply nil_length_inv in Hl as ->.
  - rewrite chunks_cons; [|done|by intros ->; cbn in Hl; lia].
    destruct (IH (drop n l)) as [E F]; [rewrite length_drop; lia|]. cbn [length]. rewrite E.
    split; [done|]. constructor; [|done]. rewrite length_take. lia.
Qed.
Lemma chunks_exact_multiple {A} n k (l : list A) : (0 < n)%nat → length l = (k * n)%nat →
  chunks_exact n l = chunks n l.
Proof.
  intros Hn Hl. unfold chunks_exact. destruct (chunks_lengths n k l Hn Hl) as [_ F].
  induction F as [|c cs Hc _ IH]; [done|]. rewrite filter_cons_True by done. by rewrite IH.
Qed.
Lemma concat_chunks {A} n (l : list A) : (0 < n)%nat → concat (chunks n l) = l.
Proof.
  intros Hn. induction l as [l IH] using (induction_ltof1 _ (@length A)). unfold ltof in IH.
  destruct (decide (l = [])) as [->|Hl]; [done|]. rewrite chunks_cons by done. cbn.
  rewrite IH; [apply take_drop|]. destruct l; [done|]. rewrite length_drop. cbn. lia.
Qed.
Lemma chunks_concat {A} n (ls : list (list A)) : (0 < n)%nat → Forall (λ l, length l = n) ls →
  chunks n (concat ls) = ls.
Proof.
  intros Hn. induction 1 as [|l ls Hl _ IH]; [done|]. cbn [concat].
  rewrite (chunks_app n 1) by lia. by rewrite IH, chunks_single by lia.
Qed.
Lemma concat_length {A} n (ls : list (list A)) : Forall (λ l, length l = n) ls →
  length (concat ls) = (length ls * n)%nat.
Proof. induction 1 as [|l ls Hl _ IH]; [done|]. cbn. rewrite length_app, IH. lia. Qed.
Lemma chunks_exact_concat {A} n (ls : list (list A)) : (0 < n)%nat → Forall (λ l, length l = n) ls →
  chunks_exact n (concat ls) = ls.
Proof.
  intros Hn Hls. rewrite (chunks_exact_multiple n (length ls)); [by apply chunks_concat|done|].
  by apply concat_length.
Qed.

(** [position] finds the only occurrence. *)
Lemma position_NoDup {A} `{EqDecision A} (l : list A) i x : NoDup l → l !! i = Some x →
  position (λ y, bool_decide (y = x)) l = Some i.
Proof.
  intros Hl. revert i. induction Hl as [|y l Hy _ IH]; intros i Hi; [done|]. cbn.
  destruct i as [|i]; cbn in Hi.
  - injection Hi as ->. by rewrite bool_decide_eq_true_2.
  - rewrite bool_decide_eq_false_2; [by rewrite (IH i Hi)|].
    intros ->. apply Hy. by eapply list_elem_of_lookup_2.
Qed.
Lemma concat_slot {A} n (ls : list (list A)) i x : Forall (λ l, length l = n) ls → ls !! i = Some x →
  take n (drop (i * n) (concat ls)) = x.
Proof.
  intros Hls. revert i. induction Hls as [|l ls Hl _ IH]; intros i Hi; [done|].
  destruct i as [|i]; cbn in Hi.
  - injection Hi as ->. cbn. rewrite <-Hl. apply take_app_length.
  - cbn [concat Nat.mul]. rewrite <-Hl at 2. rewrite drop_app_add'; [by apply IH|done].
Qed.
Lemma chunks_count {A} n (l : list A) : (0 < n)%nat →
  (length (chunks n l) * n < length l + n)%nat ∧ (l ≠ [] → 0 < length (chunks n l))%nat.
Proof.
  intros Hn. induction l as [l IH] using (induction_ltof1 _ (@length A)). unfold ltof in IH.
  destruct (decide (l = [])) as [->|Hl]; [by split; [cbn; lia|]|].
  rewrite chunks_cons by done. cbn [length]. split; [|lia].
  assert (0 < length l)%nat by (destruct l; cbn; [done|lia]).
  destruct (decide (n ≤ length l)%nat); [|rewrite drop_ge by lia; cbn; lia].
  destruct (IH (drop n l)) as [H1 _]; [rewrite length_drop; lia|].
  rewrite length_drop in H1. lia.
Qed.

(** ** Sums over indices *)
Fixpoint zsum (f : nat → Z) (l : list nat) : Z := match l with [] => 0 | j :: l => f j + zsum f l end.
Lemma zsum_app f a b : zsum f (a ++ b) = zsum f a + zsum f b.
Proof. induction a as [|j a IH]; cbn [app zsum]; [lia|rewrite IH; ring]. Qed.
Lemma zsum_ext f g js : (∀ j, j ∈ js → f j = g j) → zsum f js = zsum g js.
Proof.
  induction js as [|j js IH]; intros H; [done|]. cbn [zsum]. rewrite H by left. f_equal.
  apply IH. intros k Hk. apply H. by right.
Qed.
Lemma zsum_nonneg f l : (∀ i, 0 ≤ f i) → 0 ≤ zsum f l.
Proof. intros Hf. induction l as [|i l IH]; simpl; [lia|specialize (Hf i); lia]. Qed.
Lemma zsum_reverse f l : zsum f (reverse l) = zsum f l.
Proof. induction l as [|i l IH]; [done|]. rewrite reverse_cons, zsum_app, IH. simpl. lia. Qed.
