(* ===== verification/Constants.v ===== *)
(** Wire constants of [reticulum-core/src/constants.rs].  Lengths are [nat] (they
    index lists), header and context codes are byte values in [Z]. *)
From S2P Require Import Prelude.

Definition MTU : nat := 500%nat.
Definition TRUNCATED_HASHLENGTH_BITS : nat := 128%nat.
Definition TRUNCATED_HASHLENGTH : nat := (TRUNCATED_HASHLENGTH_BITS / 8)%nat.
Definition NAME_HASH_LENGTH : nat := 10%nat.
Definition KEYSIZE : nat := 64%nat.
Definition KEY_HALF : nat := 32%nat.
Definition SIG_LENGTH : nat := 64%nat.
Definition RATCHET_SIZE : nat := 32%nat.
Definition DERIVED_KEY_LENGTH : nat := 64%nat.
Definition TOKEN_OVERHEAD : nat := 48%nat.
Definition IV_LENGTH : nat := 16%nat.
Definition HMAC_LENGTH : nat := 32%nat.
Definition HEADER_1 : Z := 0x00.
Definition HEADER_2 : Z := 0x01.
Definition FLAG_UNSET : Z := 0x00.
Definition FLAG_SET : Z := 0x01.
Definition TRANSPORT_BROADCAST : Z := 0x00.
Definition TRANSPORT_TRANSPORT : Z := 0x01.
Definition DEST_SINGLE : Z := 0x00.
Definition DEST_GROUP : Z := 0x01.
Definition DEST_PLAIN : Z := 0x02.
Definition DEST_LINK : Z := 0x03.
Definition PACKET_DATA : Z := 0x00.
Definition PACKET_ANNOUNCE : Z := 0x01.
Definition PACKET_LINKREQUEST : Z := 0x02.
Definition PACKET_PROOF : Z := 0x03.
Definition CONTEXT_NONE : Z := 0x00.
Definition CONTEXT_RESOURCE : Z := 0x01.
Definition CONTEXT_RESOURCE_ADV : Z := 0x02.
Definition CONTEXT_RESOURCE_REQ : Z := 0x03.
Definition CONTEXT_RESOURCE_HMU : Z := 0x04.
Definition CONTEXT_RESOURCE_PRF : Z := 0x05.
Definition CONTEXT_RESOURCE_ICL : Z := 0x06.
Definition CONTEXT_RESOURCE_RCL : Z := 0x07.
Definition CONTEXT_CACHE_REQUEST : Z := 0x08.
Definition CONTEXT_REQUEST : Z := 0x09.
Definition CONTEXT_RESPONSE : Z := 0x0A.
Definition CONTEXT_PATH_RESPONSE : Z := 0x0B.
Definition CONTEXT_COMMAND : Z := 0x0C.
Definition CONTEXT_COMMAND_STATUS : Z := 0x0D.
Definition CONTEXT_CHANNEL : Z := 0x0E.
Definition CONTEXT_KEEPALIVE : Z := 0xFA.
Definition CONTEXT_LINKIDENTIFY : Z := 0xFB.
Definition CONTEXT_LINKCLOSE : Z := 0xFC.
Definition CONTEXT_LINKPROOF : Z := 0xFD.
Definition CONTEXT_LRRTT : Z := 0xFE.
Definition CONTEXT_LRPROOF : Z := 0xFF.
Definition IFAC_SALT : bytes :=
  [0xad; 0xf5; 0x4d; 0x88; 0x2c; 0x9a; 0x9b; 0x80;
   0x77; 0x1e; 0xb4; 0x99; 0x5d; 0x70; 0x2d; 0x4a;
   0x3e; 0x73; 0x33; 0x91; 0xb2; 0xa0; 0xf5; 0x3f;
   0x41; 0x6d; 0x9f; 0x90; 0x7e; 0x55; 0xcf; 0xf8].

(** Replace the length constants by their numerals (for [lia]). *)
Ltac unfold_lengths :=
  unfold MTU, TRUNCATED_HASHLENGTH, TRUNCATED_HASHLENGTH_BITS, NAME_HASH_LENGTH, KEYSIZE,
    KEY_HALF, SIG_LENGTH, RATCHET_SIZE, DERIVED_KEY_LENGTH, TOKEN_OVERHEAD, IV_LENGTH,
    HMAC_LENGTH in *;
  repeat match goal with
  | |- context [(128 / 8)%nat] => change (128 / 8)%nat with 16%nat
  | H : context [(128 / 8)%nat] |- _ => change (128 / 8)%nat with 16%nat in H
  end.

(** Length goals over the wire constants. *)
Ltac wlen := unfold_lengths; len.
