(* ===== verification/Hdlc.v ===== *)
(** HDLC framing of the hub TCP interface ([reticulum-core/src/hdlc.rs]): the
    [frame] encoder, the incremental [Deframer], the abstract specification of
    the byte stream it implements, and the round-trip theorems. *)
From S2P Require Import Prelude.

Definition FLAG : Z := 0x7E.
Definition ESC : Z := 0x7D.
Definition ESC_MASK : Z := 0x20.

(** ** Sender *)

(** The body of the [for &b in data] loop of [frame]. *)
Definition escape_byte (b : Z) : bytes :=
  if (b =? FLAG) || (b =? ESC) then [ESC; Z.lxor b ESC_MASK] else [b].

Definition frame (data : bytes) : bytes :=
  FLAG :: concat (escape_byte <$> data) ++ [FLAG].

(** ** Receiver *)

Record Deframer := mkDeframer { buf : bytes; in_frame : bool; escaped : bool }.

#[export] Instance Deframer_eq_dec : EqDecision Deframer.
Proof. solve_decision. Defined.

Definition new : Deframer := mkDeframer [] false false.

(** One iteration of the loop of [push]; [frames] is the result vector so far. *)
Definition push_byte (st : Deframer * list bytes) (b : Z) : Deframer * list bytes :=
  let '(d, frames) := st in
  if b =? FLAG then
    if in_frame d then
      (mkDeframer [] true false, if decide (buf d = []) then frames else frames ++ [buf d])
    else (mkDeframer [] true false, frames)
  else if (b =? ESC) && in_frame d then (mkDeframer (buf d) (in_frame d) true, frames)
  else if in_frame d then
    if escaped d then (mkDeframer (buf d ++ [Z.lxor b ESC_MASK]) (in_frame d) false, frames)
    else (mkDeframer (buf d ++ [b]) (in_frame d) (escaped d), frames)
  else (d, frames).

Definition push (d : Deframer) (bs : bytes) : Deframer * list bytes :=
  fold_left push_byte bs (d, []).

(** A sequence of socket reads, each pushed as it arrives. *)
Fixpoint push_reads (d : Deframer) (reads : list bytes) : Deframer * list bytes :=
  match reads with
  | [] => (d, [])
  | r :: rs =>
      let '(d1, fs1) := push d r in
      let '(d2, fs2) := push_reads d1 rs in (d2, fs1 ++ fs2)
  end.

(** ** Abstract specification: what a byte stream means

    Split the stream at the flag bytes; the text before the first flag and after
    the last one is not a frame; each remaining segment is unescaped and empty
    ones (shared or keep-alive flags) are dropped. *)

Fixpoint split_flags (s : bytes) : list bytes :=
  match s with
  | [] => [[]]
  | b :: s' =>
      if b =? FLAG then [] :: split_flags s'
      else match split_flags s' with
           | seg :: segs => (b :: seg) :: segs
           | [] => [[b]]
           end
  end.

Fixpoint unescape (esc : bool) (seg : bytes) : bytes :=
  match seg with
  | [] => []
  | b :: seg' =>
      if b =? ESC then unescape true seg'
      else (if esc then Z.lxor b ESC_MASK else b) :: unescape false seg'
  end.

Definition stream_frames (s : bytes) : list bytes :=
  filter (λ f, f ≠ []) (unescape false <$> removelast (tail (split_flags s))).

(** ** Lemmas *)

Lemma push_frames_acc bs d fs :
  fold_left push_byte bs (d, fs) = let '(d', gs) := push d bs in (d', fs ++ gs).
Proof.
  unfold push. revert d fs.
  induction bs as [|b bs IH] using rev_ind; intros d fs; [cbn; by rewrite app_nil_r|].
  rewrite !fold_left_app, IH. destruct (fold_left push_byte bs (d, [])) as [d' gs].
  cbn. repeat case_match; try done; by rewrite ?app_assoc.
Qed.

Lemma push_app d a b :
  push d (a ++ b) =
  let '(d1, f1) := push d a in let '(d2, f2) := push d1 b in (d2, f1 ++ f2).
Proof.
  unfold push at 1. rewrite fold_left_app. fold (push d a).
  destruct (push d a) as [d1 f1]. by rewrite push_frames_acc.
Qed.

Lemma push_reads_concat d reads : push_reads d reads = push d (concat reads).
Proof.
  revert d. induction reads as [|r rs IH]; intros d; [done|].
  cbn [push_reads concat]. rewrite push_app.
  destruct (push d r) as [d1 f1]. by rewrite IH.
Qed.

Lemma push_cons d b bs :
  push d (b :: bs) =
  let '(d1, f1) := push_byte (d, []) b in let '(d2, f2) := push d1 bs in (d2, f1 ++ f2).
Proof. change (b :: bs) with ([b] ++ bs). by rewrite push_app. Qed.

(** The escaped form of a payload: no flag inside, and it unescapes to the payload. *)
Lemma escape_byte_no_flag b : FLAG ∉ escape_byte b.
Proof.
  unfold escape_byte. destruct ((b =? FLAG) || (b =? ESC)) eqn:E.
  - apply orb_true_iff in E as [->%Z.eqb_eq| ->%Z.eqb_eq]; vm_compute; set_solver.
  - apply orb_false_iff in E as [?%Z.eqb_neq _]. set_solver.
Qed.

Lemma push_escape_byte pre b :
  push (mkDeframer pre true false) (escape_byte b) =
  (mkDeframer (pre ++ [b]) true false, []).
Proof.
  unfold escape_byte, push. destruct ((b =? FLAG) || (b =? ESC)) eqn:E.
  - apply orb_true_iff in E as [->%Z.eqb_eq| ->%Z.eqb_eq]; reflexivity.
  - apply orb_false_iff in E as [E1 E2]. cbn. by rewrite E1, E2.
Qed.

Lemma push_escaped pre data :
  push (mkDeframer pre true false) (concat (escape_byte <$> data)) =
  (mkDeframer (pre ++ data) true false, []).
Proof.
  revert pre. induction data as [|b data IH]; intros pre; [cbn; by rewrite app_nil_r|].
  rewrite fmap_cons. cbn [concat]. rewrite push_app, push_escape_byte, IH.
  by rewrite <-app_assoc.
Qed.

(** What is left in the buffer of a deframer when a flag closes its frame. *)
Definition flushed (d : Deframer) : list bytes :=
  if in_frame d then (if decide (buf d = []) then [] else [buf d]) else [].

Lemma push_flag d fs : push_byte (d, fs) FLAG = (mkDeframer [] true false, fs ++ flushed d).
Proof.
  unfold push_byte, flushed. rewrite Z.eqb_refl.
  destruct (in_frame d); [|by rewrite app_nil_r]. case_decide; by rewrite ?app_nil_r.
Qed.

Lemma push_frame d data :
  push d (frame data) =
  (mkDeframer [] true false, flushed d ++ (if decide (data = []) then [] else [data])).
Proof.
  unfold frame. rewrite push_cons, push_flag, push_app, push_escaped.
  cbn [app]. unfold push. cbn [fold_left]. rewrite push_flag. done.
Qed.

Lemma push_frames_synced pkts :
  Forall (λ p, p ≠ []) pkts →
  push (mkDeframer [] true false) (concat (frame <$> pkts)) =
  (mkDeframer [] true false, pkts).
Proof.
  induction 1 as [|p ps Hp _ IH]; [done|].
  rewrite fmap_cons. cbn [concat]. rewrite push_app, push_frame.
  rewrite decide_False, IH by done. done.
Qed.

Lemma split_flags_nonempty s : ∃ seg segs, split_flags s = seg :: segs.
Proof.
  destruct s as [|b s]; cbn; [eauto|]. case_match; [eauto|].
  destruct (split_flags s); eauto.
Qed.

(** The stream [s] read from inside a frame whose payload so far is [pre]. *)
Definition frames_from (pre : bytes) (e : bool) (s : bytes) : list bytes :=
  filter (λ f, f ≠ [])
    (removelast ((pre ++ unescape e (hd [] (split_flags s))) ::
                 (unescape false <$> tail (split_flags s)))).

Lemma push_in_frame s : ∀ pre e, (push (mkDeframer pre true e) s).2 = frames_from pre e s.
Proof.
  induction s as [|b s IH]; intros pre e; [done|].
  rewrite push_cons. unfold frames_from. cbn [split_flags].
  destruct (split_flags_nonempty s) as (seg & segs & Es).
  destruct (b =? FLAG) eqn:EF.
  - apply Z.eqb_eq in EF as ->. rewrite push_flag. specialize (IH [] false).
    destruct (push (mkDeframer [] true false) s) as [d2 f2]. cbn in *. subst f2.
    unfold frames_from, flushed. rewrite Es, app_nil_r. cbn.
    destruct (decide (pre = [])), (decide (pre ≠ [])); done.
  - rewrite Es. cbn [hd tail]. unfold push_byte. cbn [in_frame escaped buf].
    rewrite EF, andb_true_r. destruct (b =? ESC) eqn:EE.
    + specialize (IH pre true). destruct (push _ s) as [d2 f2]. cbn in *. subst f2.
      unfold frames_from. by rewrite Es, EE.
    + destruct e.
      * specialize (IH (pre ++ [Z.lxor b ESC_MASK]) false).
        destruct (push _ s) as [d2 f2]. cbn in *. subst f2.
        unfold frames_from. by rewrite Es, EE, <-app_assoc.
      * specialize (IH (pre ++ [b]) false).
        destruct (push _ s) as [d2 f2]. cbn in *. subst f2.
        unfold frames_from. by rewrite Es, EE, <-app_assoc.
Qed.

Lemma push_new_spec s : (push new s).2 = stream_frames s.
Proof.
  unfold stream_frames. induction s as [|b s IH]; [done|].
  rewrite push_cons. unfold new, push_byte. cbn [in_frame]. cbn [split_flags].
  destruct (split_flags_nonempty s) as (seg & segs & Es). rewrite andb_false_r.
  destruct (b =? FLAG).
  - pose proof (push_in_frame s [] false) as H.
    destruct (push (mkDeframer [] true false) s) as [d2 f2]. cbn [fst snd app tail] in H |- *.
    subst f2. unfold frames_from. rewrite Es. cbn [hd tail app].
    by rewrite <-fmap_cons, removelast_fmap.
  - rewrite Es in *. destruct (push (mkDeframer [] false false) s) as [d2 f2] eqn:E.
    cbn in *. change (mkDeframer [] false false) with new in E. by rewrite E in IH.
Qed.

(** ** Properties *)

(** C7: The incremental deframer implements the abstract reading of the byte stream:
    from a fresh deframer, any sequence of reads yields exactly the frames that
    the concatenated stream contains, so read boundaries are irrelevant. *)
Theorem deframer_refines_stream (reads : list bytes) :
  (push_reads new reads).2 = stream_frames (concat reads).
Proof. rewrite push_reads_concat. apply push_new_spec. Qed.

(** Whatever the deframer was fed before (any state [d]: mid-frame, mid-escape,
    never synchronised), the next complete frames are recovered exactly, however
    the socket splits them into reads; the only other output is the partial
    frame the first opening flag cuts off. *)
Theorem deframe_resync (d : Deframer) (pkts reads : list bytes)
  (Hne : Forall (λ p, p ≠ []) pkts) (Hpk : pkts ≠ [])
  (Hreads : concat reads = concat (frame <$> pkts)) :
  push_reads d reads = (mkDeframer [] true false, flushed d ++ pkts).
Proof.
  rewrite push_reads_concat, Hreads. destruct Hne as [|p ps Hp Hps]; [done|].
  rewrite fmap_cons. cbn [concat].
  by rewrite push_app, push_frame, decide_False, push_frames_synced, <-app_assoc by done.
Qed.

Lemma deframe_resync_witness :
  push_reads (mkDeframer [9] true true) [[0x7E; 1]; [0x7D; 0x5E]; [0x7E; 0x7E; 2; 0x7E]]
  = (mkDeframer [] true false, [[9]; [1; 0x7E]; [2]]).
Proof.
  apply (deframe_resync (mkDeframer [9] true true) [[1; 0x7E]; [2]]
    [[0x7E; 1]; [0x7D; 0x5E]; [0x7E; 0x7E; 2; 0x7E]]);
    [by repeat constructor|done|reflexivity].
Defined.

(** Between the two delimiters a frame carries no flag byte, so a receiver
    cannot mistake payload for a delimiter. *)
Theorem frame_interior_no_flag (data : bytes) :
  ∃ body, frame data = FLAG :: body ++ [FLAG] ∧ FLAG ∉ body
          ∧ (length data ≤ length body ≤ 2 * length data)%nat.
Proof.
  exists (concat (escape_byte <$> data)). split; [done|].
  induction data as [|b data [IH1 IH2]]; [cbn; split; [set_solver|lia]|].
  rewrite fmap_cons. cbn [concat]. split.
  - rewrite elem_of_app. pose proof (escape_byte_no_flag b). tauto.
  - assert (1 ≤ length (escape_byte b) ≤ 2)%nat.
    { unfold escape_byte. case_match; cbn; lia. }
    rewrite length_app. cbn [length]. lia.
Qed.
