(* ===== verification/Crypto.v ===== *)
(** The cryptographic layer ([reticulum-core/src/crypto.rs]).

    [Crypto] is the interface to the primitives: the SHA-2, HMAC, HKDF, AES-CBC
    and [ed25519-dalek] crates are outside the repository, and the two software
    curve routines ([x25519.rs], [ed25519.rs]) are reached through the same
    interface, so that everything above is proved for any implementation.  The
    [*OK] classes are the documented behaviour each client relies on; [Toy] is a
    small instance that satisfies all of them.  On top of it: hashes, HKDF and
    the [Token] authenticated-encryption format. *)
From S2P Require Import Prelude Constants.

Class Crypto := {
  sha256 : bytes → bytes;
  hmac_raw : bytes → bytes → bytes;
  hkdf_raw : nat → bytes → bytes → bytes → bytes;
  aes256_cbc_encrypt : bytes → bytes → bytes → bytes;
  aes256_cbc_decrypt : bytes → bytes → bytes → option bytes;
  ed25519_verifying_key : bytes → bytes;
  x25519 : bytes → bytes → bytes;
  ed25519_sign : bytes → bytes → bytes → bytes;
  ed25519_verify : bytes → bytes → bytes → bool;
}.

(** SHA-256 and HMAC-SHA256 return 32 bytes. *)
Class HashOK `{Crypto} : Prop := {
  sha256_length m : length (sha256 m) = 32%nat;
  sha256_bytes m : bytes_ok (sha256 m);
  hmac_length k m : length (hmac_raw k m) = 32%nat;
}.

(** HKDF fills the requested length. *)
Class KdfOK `{Crypto} : Prop := {
  hkdf_raw_length n salt ikm info : length (hkdf_raw n salt ikm info) = n;
}.

(** AES-256-CBC with PKCS#7 padding decrypts what it encrypted, and pads to the
    next full block. *)
Class CipherOK `{Crypto} : Prop := {
  aes_decrypt_encrypt k iv m : length k = 32%nat → length iv = 16%nat →
    aes256_cbc_decrypt k iv (aes256_cbc_encrypt k iv m) = Some m;
  aes_encrypt_length k iv m :
    length (aes256_cbc_encrypt k iv m) = (16 * (length m / 16 + 1))%nat;
}.

(** [x25519_base], defined as in [x25519.rs]: the base point is 9. *)
Definition x25519_base `{Crypto} (scalar : bytes) : bytes :=
  x25519 scalar (9 :: replicate 31 0).

(** X25519 returns 32 bytes and its Diffie-Hellman is symmetric. *)
Class DhOK `{Crypto} : Prop := {
  x25519_length s p : length s = 32%nat → length p = 32%nat → length (x25519 s p) = 32%nat;
  dh_symmetric a b : length a = 32%nat → length b = 32%nat →
    x25519 a (x25519_base b) = x25519 b (x25519_base a);
}.

(** Ed25519: sizes, and signatures made with a seed verify under its key. *)
Class SigOK `{Crypto} : Prop := {
  verifying_key_length s : length s = 32%nat → length (ed25519_verifying_key s) = 32%nat;
  sign_length s p m : length (ed25519_sign s p m) = 64%nat;
  sign_verifies s m : length s = 32%nat →
    ed25519_verify (ed25519_verifying_key s) m (ed25519_sign s (ed25519_verifying_key s) m) = true;
}.

Section crypto.
Context `{C : Crypto}.

(** ** Hashes and key derivation *)

Definition full_hash (data : bytes) : bytes := sha256 data.
Definition truncated_hash (data : bytes) : bytes := take TRUNCATED_HASHLENGTH (full_hash data).
Definition hmac_sha256 (key data : bytes) : bytes := hmac_raw key data.

(** The [expand] of the hkdf crate fails, and the code panics, beyond 255 blocks. *)
Definition hkdf (length : nat) (derive_from : bytes) (salt context : option bytes) : res bytes :=
  if decide (length ≤ 255 * 32)%nat
  then Ok (hkdf_raw length (default [] salt) derive_from (default [] context))
  else Panic.

(** ** Token *)

Record Token := mkToken { signing_key : bytes; encryption_key : bytes }.

Definition Token_new (key : bytes) : res Token :=
  if decide (length key ≠ 64%nat) then Err "Token requires a 64-byte key (AES-256 mode)"
  else
    sk ← slice_to key 32; ek ← slice_from key 32;
    signing_key ← copy_exact 32 sk; encryption_key ← copy_exact 32 ek;
    mret (mkToken signing_key encryption_key).

Definition encrypt_with_iv (t : Token) (plaintext iv : bytes) : bytes :=
  let ct := aes256_cbc_encrypt (encryption_key t) iv plaintext in
  let signed := iv ++ ct in
  let tag := hmac_raw (signing_key t) signed in
  signed ++ tag.

(** [split_at(n)]. *)
Definition split_at {A} (l : list A) (n : nat) : res (list A * list A) :=
  a ← slice_to l n; b ← slice_from l n; mret (a, b).

Definition decrypt (t : Token) (token : bytes) : res bytes :=
  if decide (length token < IV_LENGTH + HMAC_LENGTH)%nat then Err "token too short"
  else
    '(signed, recv_mac) ← split_at token (length token - HMAC_LENGTH);
    let expected := hmac_raw (signing_key t) signed in
    if decide (expected ≠ recv_mac) then Err "token HMAC verification failed"
    else
      '(iv, ct) ← split_at signed IV_LENGTH;
      ok_or "token padding error" (aes256_cbc_decrypt (encryption_key t) iv ct).

(** ** Lemmas *)

Lemma split_at_app {A} (a b : list A) n : length a = n → split_at (a ++ b) n = Ok (a, b).
Proof. intros. unfold split_at. by rewrite slice_to_app, slice_from_app. Qed.

Lemma split_at_ok {A} (l : list A) n : (n ≤ length l)%nat → split_at l n = Ok (take n l, drop n l).
Proof. intros. unfold split_at. by rewrite slice_to_ok, slice_from_ok. Qed.

Lemma truncated_hash_length `{!HashOK} m : length (truncated_hash m) = TRUNCATED_HASHLENGTH.
Proof. unfold truncated_hash, full_hash. rewrite length_take, sha256_length. wlen. Qed.

Lemma hkdf_key_ok `{!KdfOK} n ikm salt info : (n ≤ 255 * 32)%nat →
  ∃ k, hkdf n ikm salt info = Ok k ∧ length k = n.
Proof.
  intros. unfold hkdf. rewrite decide_True by lia. eexists; split; [done|].
  apply hkdf_raw_length.
Qed.

Lemma Token_new_ok key : length key = 64%nat →
  Token_new key = Ok (mkToken (take 32 key) (drop 32 key)).
Proof.
  intros H. unfold Token_new. rewrite decide_False by auto.
  rewrite slice_to_ok, slice_from_ok by lia. res_simpl.
  by rewrite !copy_exact_ok by len.
Qed.

Lemma Token_new_inv key t : Token_new key = Ok t →
  length key = 64%nat ∧ t = mkToken (take 32 key) (drop 32 key).
Proof.
  intros H. destruct (decide (length key = 64%nat)) as [E|E].
  - rewrite Token_new_ok in H by done. naive_solver.
  - unfold Token_new in H. by rewrite decide_True in H.
Qed.

Lemma Token_new_no_panic key : no_panic (Token_new key).
Proof.
  destruct (decide (length key = 64%nat)) as [E|E].
  - by rewrite Token_new_ok.
  - unfold Token_new. by rewrite decide_True.
Qed.

(** What [decrypt] accepts: a well-framed token whose tag is the HMAC of the rest. *)
Lemma decrypt_ok_iff `{!HashOK} t token pt :
  decrypt t token = Ok pt ↔
  ∃ iv ct, token = iv ++ ct ++ hmac_raw (signing_key t) (iv ++ ct) ∧
    length iv = IV_LENGTH ∧ aes256_cbc_decrypt (encryption_key t) iv ct = Some pt.
Proof.
  unfold decrypt. split.
  - destruct (decide _) as [|Hl]; [done|].
    rewrite split_at_ok by lia. res_simpl. case_decide as Hm; [done|].
    rewrite split_at_ok by wlen. res_simpl. intros Hd.
    set (s := take (length token - HMAC_LENGTH) token) in *.
    assert (length s = length token - HMAC_LENGTH)%nat by (unfold s; wlen).
    exists (take IV_LENGTH s), (drop IV_LENGTH s). split_and!.
    + rewrite app_assoc, take_drop, Hm.
      unfold s. by rewrite take_drop.
    + wlen.
    + by destruct (aes256_cbc_decrypt _ _ _); naive_solver.
  - intros (iv & ct & -> & Hiv & Hd). pose proof (hmac_length (signing_key t) (iv ++ ct)) as HH.
    rewrite app_assoc.
    rewrite decide_False by (rewrite !length_app, HH; wlen).
    rewrite (split_at_app (iv ++ ct)) by (rewrite !length_app, HH; wlen). res_simpl.
    rewrite decide_False by naive_solver.
    rewrite split_at_app by done. res_simpl. by rewrite Hd.
Qed.

Lemma token_decrypt_no_panic t token : no_panic (decrypt t token).
Proof.
  unfold decrypt. case_decide as Hl; [done|].
  rewrite split_at_ok by lia. res_simpl. case_decide; [done|].
  rewrite split_at_ok by wlen. res_simpl. by destruct (aes256_cbc_decrypt _ _ _).
Qed.

Lemma encrypt_with_iv_length `{!HashOK, !CipherOK} t pt iv : length iv = IV_LENGTH →
  length (encrypt_with_iv t pt iv) = (16 * (length pt / 16 + 1) + TOKEN_OVERHEAD)%nat.
Proof.
  intros. unfold encrypt_with_iv. rewrite !length_app, hmac_length, aes_encrypt_length. wlen.
Qed.

Lemma token_decrypt_encrypt `{!HashOK, !CipherOK} key t pt iv :
  Token_new key = Ok t → length iv = IV_LENGTH →
  decrypt t (encrypt_with_iv t pt iv) = Ok pt.
Proof.
  intros [Hk ->]%Token_new_inv Hiv. apply decrypt_ok_iff. exists iv. eexists. split_and!; [|done|].
  - unfold encrypt_with_iv. by rewrite <-app_assoc.
  - cbn. apply aes_decrypt_encrypt; wlen.
Qed.
End crypto.

#[export] Hint Resolve token_decrypt_no_panic Token_new_no_panic : rns.

(** ** A small instance that satisfies every law, used to exhibit the hypotheses *)
Module Toy.

Definition mix (seed : Z) (m : bytes) : Z :=
  fold_left (λ acc b, (acc * 257 + b + 1) mod (2 ^ 256 - 189)) m seed.
Definition sha (m : bytes) : bytes := be_bytes 32 (mix 7 m).
Definition hmac (k m : bytes) : bytes := sha (k ++ m).
Definition kdf (n : nat) (salt ikm info : bytes) : bytes := be_bytes n (mix 11 (salt ++ ikm ++ info)).

(** PKCS#7 padding alone stands in for the cipher. *)
Definition pad (m : bytes) : bytes :=
  let p := (16 - length m mod 16)%nat in m ++ replicate p (Z.of_nat p).
Definition unpad (c : bytes) : option bytes :=
  p ← last c; guard (1 ≤ p ≤ 16 ∧ p ≤ Z.of_nat (length c));;
  mret (take (length c - Z.to_nat p) c).

Definition vk (seed : bytes) : bytes := be_bytes 32 (mix 3 seed).
Definition sig (p m : bytes) : bytes := be_bytes 64 (mix 5 (p ++ m)).
Definition dh (s p : bytes) : bytes := zip_with (λ a b, (a + b) mod 256) s p.

#[local] Instance crypto : Crypto := {|
  sha256 := sha;
  hmac_raw := hmac;
  hkdf_raw := kdf;
  aes256_cbc_encrypt := λ _ _ m, pad m;
  aes256_cbc_decrypt := λ _ _ c, unpad c;
  ed25519_verifying_key := vk;
  x25519 := dh;
  ed25519_sign := λ _ p m, sig p m;
  ed25519_verify := λ p m s, bool_decide (s = sig p m);
|}.

Lemma unpad_pad m : unpad (pad m) = Some m.
Proof.
  unfold unpad, pad. pose proof (Nat.mod_upper_bound (length m) 16).
  remember (16 - length m mod 16)%nat as p. assert (1 ≤ p ≤ 16)%nat by lia.
  assert (last (m ++ replicate p (Z.of_nat p)) = Some (Z.of_nat p)) as ->.
  { destruct p as [|p]; [lia|]. rewrite replicate_S_end, app_assoc. apply last_snoc. }
  cbn. rewrite option_guard_True by (rewrite length_app, length_replicate; lia).
  cbn. f_equal. rewrite length_app, length_replicate, Nat2Z.id.
  replace (length m + p - p)%nat with (length m) by lia. apply take_app_length.
Qed.

Lemma dh_swap a b c : dh a (dh b c) = dh b (dh a c).
Proof.
  unfold dh. revert b c. induction a as [|x a IH]; intros [|y b] [|z c]; cbn; try done.
  f_equal; [|apply IH]. rewrite !Zplus_mod_idemp_r. f_equal. lia.
Qed.

#[local] Instance hash_ok : HashOK.
Proof. split; intros; apply be_bytes_length || apply be_bytes_ok. Qed.
#[local] Instance kdf_ok : KdfOK.
Proof. split. intros. apply be_bytes_length. Qed.
#[local] Instance cipher_ok : CipherOK.
Proof.
  split.
  - intros. apply unpad_pad.
  - intros k iv m. change (length (pad m) = (16 * (length m / 16 + 1))%nat).
    unfold pad. rewrite length_app, length_replicate.
    pose proof (Nat.mod_upper_bound (length m) 16). pose proof (Nat.div_mod_eq (length m) 16). lia.
Qed.
#[local] Instance dh_ok : DhOK.
Proof.
  split; [|intros; apply dh_swap].
  intros s p Hs Hp. cbn. unfold dh. rewrite length_zip_with. lia.
Qed.
#[local] Instance sig_ok : SigOK.
Proof.
  split; intros; [apply be_bytes_length..|]. by apply bool_decide_eq_true.
Qed.
End Toy.

(** Import this to have the toy instance found by instance search. *)
Module ToyInstances.
#[export] Existing Instances Toy.crypto Toy.hash_ok Toy.kdf_ok Toy.cipher_ok Toy.dh_ok Toy.sig_ok.
End ToyInstances.

(** ** Properties *)

(** A token sealed under a 64-byte key opens to the plaintext and is exactly 48
    bytes longer than the padded plaintext; conversely a blob opens only if its
    last 32 bytes are the HMAC of everything before them under the signing key. *)
Theorem token_seal_open `{C : Crypto} `{!HashOK, !CipherOK} (key pt iv : bytes) (t : Token)
  (Hk : Token_new key = Ok t) (Hiv : length iv = IV_LENGTH) :
  decrypt t (encrypt_with_iv t pt iv) = Ok pt ∧
  length (encrypt_with_iv t pt iv) = (16 * (length pt / 16 + 1) + TOKEN_OVERHEAD)%nat ∧
  (∀ blob pt', decrypt t blob = Ok pt' →
     ∃ signed, blob = signed ++ hmac_raw (take 32 key) signed).
Proof.
  split_and!.
  - by eapply token_decrypt_encrypt.
  - by apply encrypt_with_iv_length.
  - intros blob pt' (iv' & ct & -> & _)%decrypt_ok_iff. apply Token_new_inv in Hk as [_ ->].
    exists (iv' ++ ct). by rewrite app_assoc.
Qed.

Import ToyInstances.
Lemma token_seal_open_witness :
  decrypt (mkToken (replicate 32 1) (replicate 32 2))
    (encrypt_with_iv (mkToken (replicate 32 1) (replicate 32 2)) [5; 6] (replicate 16 0)) = Ok [5; 6].
Proof.
  refine (proj1 (token_seal_open (replicate 32 1 ++ replicate 32 2) [5; 6] (replicate 16 0)
    (mkToken (replicate 32 1) (replicate 32 2)) _ _)); vm_compute; reflexivity.
Defined.
