(* ===== verification/Packet.v ===== *)
(** The packet header codec ([reticulum-core/src/packet.rs]): [encode], [decode]
    and the hashes of the hashable part. *)
From S2P Require Import Prelude Constants Crypto.

Inductive HeaderType := One | Two.
#[export] Instance HeaderType_eq_dec : EqDecision HeaderType.
Proof. solve_decision. Defined.

Record Packet := mkPacket {
  header_type : HeaderType;
  context_flag : bool;
  transport_type : Z;
  destination_type : Z;
  packet_type : Z;
  hops : Z;
  context : Z;
  transport_id : option bytes;
  destination_hash : bytes;
  data : bytes;
}.
#[export] Instance Packet_eq_dec : EqDecision Packet.
Proof. solve_decision. Defined.

Definition header1 (destination_type packet_type context : Z) (destination_hash data : bytes) : Packet :=
  mkPacket One false TRANSPORT_BROADCAST destination_type packet_type 0 context None
    destination_hash data.

(** [x << k] on [u8]: the bits shifted out are lost. *)
Definition u8_shl (x k : Z) : Z := Z.shiftl x k mod 256.

Definition packed_flags (p : Packet) : Z :=
  let ht := match header_type p with One => HEADER_1 | Two => HEADER_2 end in
  let cf := if context_flag p then FLAG_SET else FLAG_UNSET in
  Z.lor (Z.lor (Z.lor (Z.lor (u8_shl ht 6) (u8_shl cf 5)) (u8_shl (transport_type p) 4))
           (u8_shl (destination_type p) 2)) (packet_type p).

(** [encode] panics for a HEADER_2 packet without a transport id. *)
Definition encode (p : Packet) : res bytes :=
  tid ← match header_type p with
        | Two => expect (transport_id p)
        | One => mret []
        end;
  mret ([packed_flags p; hops p] ++ tid ++ destination_hash p ++ [context p] ++ data p).

Definition decode (raw : bytes) : res Packet :=
  if decide (length raw < 2 + TRUNCATED_HASHLENGTH + 1)%nat then Err "packet too short"
  else
    flags ← index raw 0;
    hops ← index raw 1;
    let header_type :=
      if Z.shiftr (Z.land flags 0x40) 6 =? HEADER_2 then Two else One in
    let context_flag := Z.shiftr (Z.land flags 0x20) 5 =? FLAG_SET in
    let transport_type := Z.shiftr (Z.land flags 0x10) 4 in
    let destination_type := Z.shiftr (Z.land flags 0x0C) 2 in
    let packet_type := Z.land flags 0x03 in
    let dl := TRUNCATED_HASHLENGTH in
    '(transport_id, destination_hash, ctx_off) ←
      match header_type with
      | Two =>
          if decide (length raw < 2 + 2 * dl + 1)%nat then Err "HEADER_2 packet too short"
          else
            tid ← slice raw 2 (2 + dl); dest ← slice raw (2 + dl) (2 + 2 * dl);
            mret (Some tid, dest, (2 + 2 * dl)%nat)
      | One =>
          dest ← slice raw 2 (2 + dl);
          mret (None, dest, (2 + dl)%nat)
      end;
    context ← index raw ctx_off;
    data ← slice_from raw (ctx_off + 1);
    mret (mkPacket header_type context_flag transport_type destination_type packet_type hops
            context transport_id destination_hash data).

Definition HEADER_MAXSIZE : nat := (2 + 1 + TRUNCATED_HASHLENGTH * 2)%nat.

Definition hashable_part (p : Packet) : res bytes :=
  raw ← encode p;
  b0 ← index raw 0;
  let skip := match header_type p with One => 2%nat | Two => (TRUNCATED_HASHLENGTH + 2)%nat end in
  rest ← slice_from raw skip;
  mret (Z.land b0 0x0F :: rest).

Definition packet_hash `{Crypto} (p : Packet) : res bytes := full_hash <$> hashable_part p.

Definition packet_truncated_hash `{Crypto} (p : Packet) : res bytes :=
  full ← packet_hash p; slice_to full TRUNCATED_HASHLENGTH.

(** ** Well-formed packets: what [decode] produces and [encode] round-trips. *)
Definition tid_ok (p : Packet) : Prop :=
  match header_type p, transport_id p with
  | One, None => True
  | Two, Some tid => length tid = TRUNCATED_HASHLENGTH
  | _, _ => False
  end.
Definition flags_ok (p : Packet) : Prop :=
  transport_type p ∈ [0; 1] ∧ destination_type p ∈ [0; 1; 2; 3] ∧ packet_type p ∈ [0; 1; 2; 3].
Definition packet_ok (p : Packet) : Prop :=
  tid_ok p ∧ flags_ok p ∧ length (destination_hash p) = TRUNCATED_HASHLENGTH.

#[export] Instance tid_ok_dec p : Decision (tid_ok p).
Proof. unfold tid_ok. destruct (header_type p), (transport_id p); apply _. Defined.
#[export] Instance flags_ok_dec p : Decision (flags_ok p).
Proof. unfold flags_ok. apply _. Defined.
#[export] Instance packet_ok_dec p : Decision (packet_ok p).
Proof. unfold packet_ok. apply _. Defined.

(** ** Lemmas *)

Lemma header1_ok dt pt ctx dest d : dt ∈ [0; 1; 2; 3] → pt ∈ [0; 1; 2; 3] →
  length dest = TRUNCATED_HASHLENGTH → packet_ok (header1 dt pt ctx dest d).
Proof.
  intros Hd Hp Hl. split_and!; cbn; try done. by split_and!; cbn; [left|..].
Qed.

Lemma encode_ok p : tid_ok p → encode p =
  Ok ([packed_flags p; hops p] ++ default [] (transport_id p) ++ destination_hash p ++
      [context p] ++ data p).
Proof.
  unfold tid_ok, encode. destruct (header_type p), (transport_id p); done.
Qed.

(** Reading the five header fields back out of the flags byte. *)
Lemma packed_flags_fields p : flags_ok p →
  let f := packed_flags p in
  (if Z.shiftr (Z.land f 0x40) 6 =? HEADER_2 then Two else One) = header_type p ∧
  (Z.shiftr (Z.land f 0x20) 5 =? FLAG_SET) = context_flag p ∧
  Z.shiftr (Z.land f 0x10) 4 = transport_type p ∧
  Z.shiftr (Z.land f 0x0C) 2 = destination_type p ∧
  Z.land f 0x03 = packet_type p.
Proof.
  destruct p as [ht cf tt dt pt ? ? ? ? ?]. unfold flags_ok. cbn -[packed_flags].
  rewrite !elem_of_cons. intros (Ht & Hd & Hp).
  destruct ht, cf;
    destruct Ht as [-> |[-> |Ht]]; try (by apply not_elem_of_nil in Ht);
    destruct Hd as [-> |[-> |[-> |[-> |Hd]]]]; try (by apply not_elem_of_nil in Hd);
    destruct Hp as [-> |[-> |[-> |[-> |Hp]]]]; try (by apply not_elem_of_nil in Hp);
    vm_compute; split_and!; reflexivity.
Qed.

(** Encoding the five fields of a flags byte gives it back without bit 7 (IFAC). *)
Lemma packed_flags_of_byte f hp cx tid dh d : is_byte f →
  packed_flags (mkPacket (if Z.shiftr (Z.land f 0x40) 6 =? HEADER_2 then Two else One)
    (Z.shiftr (Z.land f 0x20) 5 =? FLAG_SET) (Z.shiftr (Z.land f 0x10) 4)
    (Z.shiftr (Z.land f 0x0C) 2) (Z.land f 0x03) hp cx tid dh d) = Z.land f 0x7F.
Proof.
  intros Hf. apply Z.eqb_eq. revert f Hf. apply byte_forall. vm_compute. reflexivity.
Qed.

Lemma byte_fields_ok f : is_byte f →
  bool_decide (Z.shiftr (Z.land f 0x10) 4 ∈ [0; 1]) &&
  (bool_decide (Z.shiftr (Z.land f 0x0C) 2 ∈ [0; 1; 2; 3]) &&
   bool_decide (Z.land f 0x03 ∈ [0; 1; 2; 3])) = true.
Proof. revert f. apply byte_forall. vm_compute. reflexivity. Qed.

(** The packet a flags byte and the fields behind it denote. *)
Definition packet_of (f hp : Z) (tid : option bytes) (dest : bytes) (cx : Z) (d : bytes) : Packet :=
  mkPacket (if Z.shiftr (Z.land f 0x40) 6 =? HEADER_2 then Two else One)
    (Z.shiftr (Z.land f 0x20) 5 =? FLAG_SET) (Z.shiftr (Z.land f 0x10) 4)
    (Z.shiftr (Z.land f 0x0C) 2) (Z.land f 0x03) hp cx tid dest d.

Lemma decode_shape f hp tid dest cx d :
  tid_ok (packet_of f hp tid dest cx d) → length dest = TRUNCATED_HASHLENGTH →
  decode ([f; hp] ++ default [] tid ++ dest ++ [cx] ++ d) = Ok (packet_of f hp tid dest cx d).
Proof.
  intros Ht Hd. unfold decode, packet_of, tid_ok in *. cbn [header_type transport_id] in Ht.
  rewrite decide_False by wlen.
  rewrite (index_at [] (hp :: default [] tid ++ dest ++ [cx] ++ d) _ f 0) by (app_norm || wlen).
  rewrite (index_at [f] (default [] tid ++ dest ++ [cx] ++ d) _ hp 1) by (app_norm || wlen).
  res_simpl.
  destruct (_ =? HEADER_2), tid as [tid|]; try done; cbn [from_option id app].
  - rewrite decide_False by wlen.
    rewrite (slice_at [f; hp] tid (dest ++ cx :: d) _ 2) by (app_norm || wlen). res_simpl.
    rewrite (slice_at ([f; hp] ++ tid) dest (cx :: d) _ (2 + TRUNCATED_HASHLENGTH)) by (app_norm || wlen). res_simpl.
    rewrite (index_at ([f; hp] ++ tid ++ dest) d _ cx) by (app_norm || wlen). res_simpl.
    by rewrite (slice_from_at ([f; hp] ++ tid ++ dest ++ [cx]) d) by (app_norm || wlen).
  - rewrite (slice_at [f; hp] dest (cx :: d) _ 2) by (app_norm || wlen). res_simpl.
    rewrite (index_at ([f; hp] ++ dest) d _ cx) by (app_norm || wlen). res_simpl.
    by rewrite (slice_from_at ([f; hp] ++ dest ++ [cx]) d) by (app_norm || wlen).
Qed.

(** Everything [decode] accepts has that shape; anything else is an error value. *)
Lemma decode_cases raw :
  (∃ f hp tid dest cx d, raw = [f; hp] ++ default [] tid ++ dest ++ [cx] ++ d ∧
     tid_ok (packet_of f hp tid dest cx d) ∧ length dest = TRUNCATED_HASHLENGTH) ∨
  (length raw < 19)%nat ∧ decode raw = Err "packet too short" ∨
  (length raw < 35)%nat ∧ decode raw = Err "HEADER_2 packet too short" ∧
    (∃ f, raw !! 0%nat = Some f ∧ Z.shiftr (Z.land f 0x40) 6 = HEADER_2).
Proof.
  destruct (decide (length raw < 19)%nat) as [Hs|Hs].
  { right; left. split; [done|]. unfold decode. by rewrite decide_True by wlen. }
  destruct raw as [|f [|hp rest]]; [cbn in Hs; lia..|].
  destruct (Z.shiftr (Z.land f 0x40) 6 =? HEADER_2) eqn:EH.
  - destruct (decide (length (f :: hp :: rest) < 35)%nat) as [H2|H2].
    { right; right. split_and!; [done| |exists f; by apply Z.eqb_eq in EH]. unfold decode. rewrite decide_False by wlen.
      unfold index. cbn [lookup list_lookup expect]. res_simpl. rewrite EH.
      by rewrite decide_True by wlen. }
    left. destruct (drop 32 rest) as [|cx d] eqn:ED.
    { apply (f_equal length) in ED. len. }
    exists f, hp, (Some (take 16 rest)), (take 16 (drop 16 rest)), cx, d.
    split_and!; [|unfold tid_ok, packet_of; cbn [header_type transport_id]; rewrite EH; wlen|wlen].
    rewrite <-(take_drop 16 rest) at 1. cbn [from_option id app]. do 3 f_equal.
    rewrite <-(take_drop 16 (drop 16 rest)) at 1. rewrite drop_drop. by change (16 + 16)%nat with 32%nat; rewrite ED.
  - left. destruct (drop 16 rest) as [|cx d] eqn:ED.
    { apply (f_equal length) in ED. len. }
    exists f, hp, None, (take 16 rest), cx, d.
    split_and!; [|unfold tid_ok, packet_of; cbn [header_type transport_id]; by rewrite EH|wlen].
    rewrite <-(take_drop 16 rest) at 1. by rewrite ED.
Qed.

Lemma decode_no_panic raw : no_panic (decode raw).
Proof.
  destruct (decode_cases raw) as [(f & hp & tid & dest & cx & d & -> & Ht & Hd)|[[_ ->]|(_ & -> & _)]];
    [|done..]. by rewrite decode_shape.
Qed.
#[export] Hint Resolve decode_no_panic : rns.

Lemma decode_inv raw p : decode raw = Ok p →
  ∃ f, raw = [f; hops p] ++ default [] (transport_id p) ++ destination_hash p ++ [context p] ++ data p ∧
    p = packet_of f (hops p) (transport_id p) (destination_hash p) (context p) (data p) ∧
    tid_ok p ∧ length (destination_hash p) = TRUNCATED_HASHLENGTH.
Proof.
  destruct (decode_cases raw) as [(f & hp & tid & dest & cx & d & -> & Ht & Hd)|[[_ ->]|(_ & -> & _)]];
    [|done..]. rewrite decode_shape by done. intros [= <-]. by exists f.
Qed.

Lemma decode_packet_ok raw p : bytes_ok raw → decode raw = Ok p → packet_ok p.
Proof.
  intros Hb (f & -> & E & Ht & Hd)%decode_inv. split_and!; [done| |done].
  apply bytes_ok_cons in Hb as [Hf _]. pose proof (byte_fields_ok f Hf) as H.
  rewrite !andb_true_iff, !bool_decide_eq_true in H. unfold flags_ok. rewrite E. by cbn.
Qed.

Lemma encode_no_panic p : tid_ok p → no_panic (encode p).
Proof. intros. by rewrite encode_ok. Qed.

(** The hashable part in closed form: it does not depend on the header type. *)
Lemma hashable_part_ok p : tid_ok p → hashable_part p =
  Ok (Z.land (packed_flags p) 0x0F :: destination_hash p ++ [context p] ++ data p).
Proof.
  intros Ht. unfold hashable_part. rewrite encode_ok by done. res_simpl.
  rewrite (index_at [] _ _ (packed_flags p)) by (app_norm || done). res_simpl.
  rewrite (slice_from_at ([packed_flags p; hops p] ++ default [] (transport_id p)) (destination_hash p ++ [context p] ++ data p)); [done|app_norm|].
  unfold tid_ok in Ht. destruct (header_type p), (transport_id p); try done; cbn [from_option id app]; wlen.
Qed.

Lemma packet_hash_ok `{Crypto} p : tid_ok p → packet_hash p =
  Ok (full_hash (Z.land (packed_flags p) 0x0F :: destination_hash p ++ [context p] ++ data p)).
Proof. intros. unfold packet_hash. by rewrite hashable_part_ok. Qed.

Lemma packet_roundtrip p : packet_ok p → ∃ raw, encode p = Ok raw ∧ decode raw = Ok p.
Proof.
  intros (Ht & Hf & Hd). eexists. split; [by apply encode_ok|].
  pose proof (packed_flags_fields p Hf) as (E1 & E2 & E3 & E4 & E5).
  assert (packet_of (packed_flags p) (hops p) (transport_id p) (destination_hash p) (context p)
            (data p) = p) as E.
  { unfold packet_of. rewrite E1, E2, E3, E4, E5. by destruct p. }
  rewrite decode_shape by (by rewrite ?E). by rewrite E.
Qed.


(** ** Properties *)

(** Decoding an encoded packet gives the packet back, for both header layouts. *)
Theorem decode_encode (p : Packet) (Hok : packet_ok p) :
  ∃ raw, encode p = Ok raw ∧ decode raw = Ok p.
Proof. by apply packet_roundtrip. Qed.

Lemma decode_encode_witness :
  ∃ raw, encode (header1 DEST_LINK PACKET_PROOF CONTEXT_LRPROOF (replicate 16 0x11) [1; 2]) = Ok raw
    ∧ decode raw = Ok (header1 DEST_LINK PACKET_PROOF CONTEXT_LRPROOF (replicate 16 0x11) [1; 2]).
Proof. apply decode_encode. apply (bool_decide_unpack _). vm_compute. exact I. Defined.

(** Re-encoding a received packet reproduces the bytes received, except for the
    IFAC bit (0x80) of the flags byte, which the codec does not represent. *)
Theorem encode_decode (raw : bytes) (p : Packet)
  (Hb : bytes_ok raw) (Hdec : decode raw = Ok p) :
  ∃ f rest, raw = f :: rest ∧ encode p = Ok (Z.land f 0x7F :: rest).
Proof.
  apply decode_inv in Hdec as (f & -> & E & Ht & Hd).
  exists f. eexists. split; [done|]. rewrite encode_ok by done. cbn [app]. do 2 f_equal.
  rewrite E. apply packed_flags_of_byte. by apply bytes_ok_cons in Hb as [? _].
Qed.

Lemma encode_decode_witness :
  ∃ f rest, 0x81 :: replicate 18 7 = f :: rest ∧
    encode (packet_of 0x81 7 None (replicate 16 7) 7 []) = Ok (Z.land f 0x7F :: rest).
Proof.
  apply (encode_decode _ _).
  - apply (bool_decide_unpack _). vm_compute. exact I.
  - vm_compute. reflexivity.
Defined.

(** [decode] is total on arbitrary network input: it never panics, and it rejects
    exactly the frames too short for the header their flags announce. *)
Theorem decode_total (raw : bytes) :
  no_panic (decode raw) ∧
  ((∃ p, decode raw = Ok p) ↔
    (19 ≤ length raw)%nat ∧
    (∀ f, raw !! 0%nat = Some f → Z.shiftr (Z.land f 0x40) 6 = HEADER_2 → (35 ≤ length raw)%nat)).
Proof.
  split; [apply decode_no_panic|]. split.
  - intros [p (f & -> & E & Ht & Hd)%decode_inv]. split; [wlen|].
    intros f' [= <-] Hf. unfold tid_ok in Ht. rewrite E in Ht. unfold packet_of in Ht.
    cbn [header_type transport_id] in Ht. rewrite Hf in Ht. cbn in Ht.
    destruct (transport_id p); [cbn [from_option id]; wlen|done].
  - intros [Hl H2]. destruct (decode_cases raw) as
      [(f & hp & tid & dest & cx & d & -> & Ht & Hd)|[[? _]|(? & _ & f & Hf & Hh)]]; [|lia|].
    + rewrite decode_shape by done. eauto.
    + specialize (H2 f Hf Hh). lia.
Qed.
