(* ===== verification/Identity.v ===== *)
(** Destinations and identities ([reticulum-core/src/destination.rs],
    [identity.rs]): destination naming and hashing, key material, and the
    per-recipient encrypt/decrypt and sign/validate operations. *)
From S2P Require Import Prelude Constants Crypto.

Section identity.
Context `{C : Crypto}.

(** ** destination.rs *)

(** [expand_name]: the names are UTF-8 byte strings; 46 is ['.']. *)
Definition expand_name (app_name : bytes) (aspects : list bytes) : bytes :=
  fold_left (λ s a, s ++ [46] ++ a) aspects app_name.

Definition name_hash (app_name : bytes) (aspects : list bytes) : bytes :=
  take NAME_HASH_LENGTH (full_hash (expand_name app_name aspects)).

Definition single_destination_hash (app_name : bytes) (aspects : list bytes)
    (identity_hash : bytes) : bytes :=
  take TRUNCATED_HASHLENGTH (full_hash (name_hash app_name aspects ++ identity_hash)).

Definition plain_destination_hash (app_name : bytes) (aspects : list bytes) : bytes :=
  take TRUNCATED_HASHLENGTH (full_hash (name_hash app_name aspects)).

(** ** Public identities *)

Record PublicIdentity := mkPublic { enc_pub : bytes; sig_pub : bytes; id_hash : bytes }.

#[export] Instance PublicIdentity_eq_dec : EqDecision PublicIdentity.
Proof. solve_decision. Defined.

Definition public_key (id : PublicIdentity) : bytes := enc_pub id ++ sig_pub id.

Definition from_public_key (bs : bytes) : res PublicIdentity :=
  if decide (length bs ≠ KEYSIZE) then Err "public key must be 64 bytes"
  else
    e ← slice_to bs KEY_HALF; s ← slice_from bs KEY_HALF;
    enc_pub ← copy_exact KEY_HALF e; sig_pub ← copy_exact KEY_HALF s;
    mret (mkPublic enc_pub sig_pub (truncated_hash bs)).

Definition validate (id : PublicIdentity) (signature message : bytes) : bool :=
  if decide (length signature = SIG_LENGTH) then ed25519_verify (sig_pub id) message signature
  else false.

(** The session key of a Diffie-Hellman exchange salted with the identity hash. *)
Definition derive_token (secret peer_pub salt : bytes) : res Token :=
  derived ← hkdf DERIVED_KEY_LENGTH (x25519 secret peer_pub) (Some salt) None;
  Token_new derived.

Definition encrypt (id : PublicIdentity) (plaintext ephemeral_secret iv : bytes)
    (ratchet_pub : option bytes) : res bytes :=
  let eph_pub := x25519_base ephemeral_secret in
  let target_pub := default (enc_pub id) ratchet_pub in
  token ← res_expect (derive_token ephemeral_secret target_pub (id_hash id));
  mret (eph_pub ++ encrypt_with_iv token plaintext iv).

(** ** Private identities *)

Record PrivateIdentity := mkPrivate {
  x25519_seed : bytes;
  ed25519_seed : bytes;
  public : PublicIdentity;
}.

Definition from_bytes (x25519_seed ed25519_seed : bytes) : PrivateIdentity :=
  let enc_pub := x25519_base x25519_seed in
  let sig_pub := ed25519_verifying_key ed25519_seed in
  mkPrivate x25519_seed ed25519_seed
    (mkPublic enc_pub sig_pub (truncated_hash (enc_pub ++ sig_pub))).

(** [generate]: [fill_bytes] is the random source, with its state. *)
Definition generate {R} (fill_bytes : R → nat → bytes * R) (rng : R) : PrivateIdentity * R :=
  let '(xs, rng1) := fill_bytes rng KEY_HALF in
  let '(es, rng2) := fill_bytes rng1 KEY_HALF in
  (from_bytes xs es, rng2).

Definition hash (id : PrivateIdentity) : bytes := id_hash (public id).
Definition private_bytes (id : PrivateIdentity) : bytes := x25519_seed id ++ ed25519_seed id.

Definition sign (id : PrivateIdentity) (message : bytes) : bytes :=
  ed25519_sign (ed25519_seed id) (sig_pub (public id)) message.

(** One attempt: derive the token for [secret] and open the ciphertext. *)
Definition try_secret (id : PrivateIdentity) (secret peer_pub ciphertext : bytes) : res bytes :=
  token ← derive_token secret peer_pub (id_hash (public id)); Crypto.decrypt token ciphertext.

(** The ratchet loop: the first ratchet that opens the blob wins. *)
Fixpoint try_ratchets (id : PrivateIdentity) (ratchets : list bytes)
    (peer_pub ciphertext : bytes) : res (option bytes) :=
  match ratchets with
  | [] => mret None
  | r :: rs =>
      o ← res_ok (try_secret id r peer_pub ciphertext);
      match o with
      | Some pt => mret (Some pt)
      | None => try_ratchets id rs peer_pub ciphertext
      end
  end.

Definition decrypt (id : PrivateIdentity) (blob : bytes) (ratchets : list bytes) : res bytes :=
  if decide (length blob ≤ KEY_HALF)%nat then Err "encrypted blob too short"
  else
    peer_pub ← slice_to blob KEY_HALF;
    ciphertext ← slice_from blob KEY_HALF;
    o ← try_ratchets id ratchets peer_pub ciphertext;
    match o with
    | Some pt => mret pt
    | None => try_secret id (x25519_seed id) peer_pub ciphertext
    end.

(** ** Lemmas *)

(** A private identity whose public half matches its seeds. *)
Definition private_ok (id : PrivateIdentity) : Prop :=
  length (x25519_seed id) = KEY_HALF ∧ length (ed25519_seed id) = KEY_HALF ∧
  id = from_bytes (x25519_seed id) (ed25519_seed id).

Lemma from_bytes_ok xs es :
  length xs = KEY_HALF → length es = KEY_HALF → private_ok (from_bytes xs es).
Proof. done. Qed.

Lemma public_lengths `{!DhOK, !SigOK} id : private_ok id →
  length (enc_pub (public id)) = KEY_HALF ∧ length (sig_pub (public id)) = KEY_HALF.
Proof.
  intros (Hx & He & ->). cbn. unfold x25519_base.
  by rewrite x25519_length, verifying_key_length.
Qed.

Lemma public_key_length `{!DhOK, !SigOK} id : private_ok id →
  length (public_key (public id)) = KEYSIZE.
Proof. intros [??]%public_lengths. unfold public_key. wlen. Qed.

Lemma private_hash id : private_ok id →
  id_hash (public id) = truncated_hash (public_key (public id)).
Proof. intros (_ & _ & ->). done. Qed.

Lemma from_public_key_ok bs : length bs = KEYSIZE →
  from_public_key bs = Ok (mkPublic (take 32 bs) (drop 32 bs) (truncated_hash bs)).
Proof.
  intros H. unfold from_public_key. rewrite decide_False by auto.
  rewrite slice_to_ok, slice_from_ok by wlen. res_simpl.
  by rewrite !copy_exact_ok by wlen.
Qed.

Lemma from_public_key_no_panic bs : no_panic (from_public_key bs).
Proof.
  destruct (decide (length bs = KEYSIZE)); [by rewrite from_public_key_ok|].
  unfold from_public_key. by rewrite decide_True.
Qed.

(** [load_public_key] inverts [get_public_key]. *)
Lemma from_public_key_public_key `{!DhOK, !SigOK} id : private_ok id →
  from_public_key (public_key (public id)) = Ok (public id).
Proof.
  intros Hok. rewrite from_public_key_ok by (by apply public_key_length).
  rewrite <-private_hash by done. destruct (public_lengths _ Hok) as [E1 E2].
  unfold public_key. change 32%nat with KEY_HALF. rewrite <-E1, take_app_length, drop_app_length.
  by destruct (public id).
Qed.

Lemma sign_verified `{!SigOK} id m : private_ok id →
  ed25519_verify (sig_pub (public id)) m (sign id m) = true.
Proof. intros (Hx & He & E). unfold sign. rewrite E. cbn. by apply sign_verifies. Qed.

Lemma sign_validates `{!SigOK} id m : private_ok id →
  validate (public id) (sign id m) m = true.
Proof.
  intros. unfold validate. rewrite decide_True by apply sign_length. by apply sign_verified.
Qed.

Lemma hash_length `{!HashOK} id : private_ok id → length (hash id) = TRUNCATED_HASHLENGTH.
Proof. intros (_ & _ & ->). apply truncated_hash_length. Qed.

Lemma single_destination_hash_length `{!HashOK} app aspects h :
  length (single_destination_hash app aspects h) = TRUNCATED_HASHLENGTH.
Proof. unfold single_destination_hash. rewrite length_take, sha256_length. wlen. Qed.
Lemma plain_destination_hash_length `{!HashOK} app aspects :
  length (plain_destination_hash app aspects) = TRUNCATED_HASHLENGTH.
Proof. unfold plain_destination_hash. rewrite length_take, sha256_length. wlen. Qed.
Lemma name_hash_length `{!HashOK} app aspects :
  length (name_hash app aspects) = NAME_HASH_LENGTH.
Proof. unfold name_hash. rewrite length_take, sha256_length. wlen. Qed.

Lemma derive_token_ok `{!KdfOK} secret pub salt : ∃ key t,
  length key = 64%nat ∧ Token_new key = Ok t ∧ derive_token secret pub salt = Ok t.
Proof.
  unfold derive_token. destruct (hkdf_key_ok DERIVED_KEY_LENGTH (x25519 secret pub) (Some salt) None)
    as (k & -> & Hk); [wlen|]. res_simpl. eexists k, _. split_and!; [done| |].
  all: by apply Token_new_ok.
Qed.

Lemma try_secret_no_panic `{!KdfOK} id secret pub ct : no_panic (try_secret id secret pub ct).
Proof.
  unfold try_secret. destruct (derive_token_ok secret pub (id_hash (public id)))
    as (k & t & _ & _ & ->). res_simpl. apply token_decrypt_no_panic.
Qed.

Lemma try_ratchets_no_panic `{!KdfOK} id rs pub ct : ∃ o, try_ratchets id rs pub ct = Ok o.
Proof.
  induction rs as [|r rs IH]; cbn; [eauto|].
  pose proof (try_secret_no_panic id r pub ct) as Hnp. destruct (try_secret id r pub ct); cbn; eauto.
  done.
Qed.

Lemma identity_decrypt_no_panic `{!KdfOK} id blob rs : no_panic (decrypt id blob rs).
Proof.
  unfold decrypt. case_decide; [done|]. rewrite slice_to_ok, slice_from_ok by lia. res_simpl.
  destruct (try_ratchets_no_panic id rs (take KEY_HALF blob) (drop KEY_HALF blob)) as [[pt|] ->];
    res_simpl; [done|]. apply try_secret_no_panic.
Qed.

(** Both ends of the exchange derive the same token. *)
Lemma derive_token_symmetric `{!DhOK} a b salt :
  length a = KEY_HALF → length b = KEY_HALF →
  derive_token a (x25519_base b) salt = derive_token b (x25519_base a) salt.
Proof. intros. unfold derive_token. by rewrite dh_symmetric. Qed.
End identity.

#[export] Hint Resolve from_public_key_no_panic identity_decrypt_no_panic : rns.

Lemma encrypt_opens `{C : Crypto} `{!HashOK, !KdfOK, !CipherOK, !DhOK}
  (id : PrivateIdentity) (pt eph iv : bytes) (ratchet : option bytes) (pre post : list bytes)
  (Hid : private_ok id) (He : length eph = KEY_HALF) (Hiv : length iv = IV_LENGTH)
  (Hr : ∀ r, ratchet = Some r → length r = KEY_HALF) :
  ∃ blob, encrypt (public id) pt eph iv (x25519_base <$> ratchet) = Ok blob ∧
    match ratchet with
    | None => decrypt id blob [] = Ok pt
    | Some r =>
        (∀ r', r' ∈ pre → ∃ e,
           try_secret id r' (take KEY_HALF blob) (drop KEY_HALF blob) = Err e) →
        decrypt id blob (pre ++ r :: post) = Ok pt
    end.
Proof.
  set (secret := default (x25519_seed id) ratchet).
  assert (length secret = KEY_HALF) as Hs.
  { unfold secret. destruct ratchet; cbn; [by apply Hr|apply Hid]. }
  assert (default (enc_pub (public id)) (x25519_base <$> ratchet) = x25519_base secret) as Ht.
  { unfold secret. destruct ratchet; cbn; [done|]. by destruct Hid as (_ & _ & ->). }
  destruct (derive_token_ok eph (x25519_base secret) (id_hash (public id)))
    as (key & t & Hkey & Htok & Hd).
  unfold encrypt. rewrite Ht, Hd. eexists. split; [done|].
  assert (length (x25519_base eph) = KEY_HALF) as Hl by (by apply x25519_length).
  set (blob := x25519_base eph ++ encrypt_with_iv t pt iv).
  assert (take KEY_HALF blob = x25519_base eph) as E1
    by (unfold blob; rewrite <-Hl; apply take_app_length).
  assert (drop KEY_HALF blob = encrypt_with_iv t pt iv) as E2
    by (unfold blob; rewrite <-Hl; apply drop_app_length).
  assert (KEY_HALF < length blob)%nat as Hlen.
  { unfold blob. rewrite length_app, encrypt_with_iv_length, Hl by done. wlen. }
  assert (try_secret id secret (take KEY_HALF blob) (drop KEY_HALF blob) = Ok pt) as Hopen.
  { unfold try_secret. rewrite E1, E2, derive_token_symmetric, Hd by done. res_simpl.
    by eapply token_decrypt_encrypt. }
  assert (∀ rs, decrypt id blob rs =
    o ← try_ratchets id rs (take KEY_HALF blob) (drop KEY_HALF blob);
    match o with Some p => mret p | None => try_secret id (x25519_seed id) (take KEY_HALF blob) (drop KEY_HALF blob) end) as Hdec.
  { intros rs. unfold decrypt. rewrite decide_False by lia.
    by rewrite slice_to_ok, slice_from_ok by lia. }
  destruct ratchet as [r|]; cbn in secret; rewrite ?Hdec; [|done].
  intros Hpre. clear -Hpre Hopen.
  induction pre as [|r' pre IH]; cbn [app try_ratchets].
  - unfold secret in Hopen. rewrite Hopen. done.
  - destruct (Hpre r') as [e ->]; [left|]. cbn [res_ok]. res_simpl. apply IH.
    intros r'' Hin. apply Hpre. by right.
Qed.

(** ** Properties *)

(** End-to-end encryption: a blob encrypted to an identity opens to the
    plaintext with the identity's own key; one encrypted to a ratchet public key
    opens with the list of ratchet secrets that contains it, provided no earlier
    ratchet of the list authenticates it. *)
Theorem encrypt_decrypt `{C : Crypto} `{!HashOK, !KdfOK, !CipherOK, !DhOK}
  (id : PrivateIdentity) (pt eph iv : bytes) (ratchet : option bytes) (pre post : list bytes)
  (Hid : private_ok id) (He : length eph = KEY_HALF) (Hiv : length iv = IV_LENGTH)
  (Hr : ∀ r, ratchet = Some r → length r = KEY_HALF) :
  ∃ blob, encrypt (public id) pt eph iv (x25519_base <$> ratchet) = Ok blob ∧
    match ratchet with
    | None => decrypt id blob [] = Ok pt
    | Some r =>
        (∀ r', r' ∈ pre → ∃ e,
           try_secret id r' (take KEY_HALF blob) (drop KEY_HALF blob) = Err e) →
        decrypt id blob (pre ++ r :: post) = Ok pt
    end.
Proof. by apply encrypt_opens. Qed.

Import ToyInstances.
Lemma encrypt_decrypt_witness :
  let id := from_bytes (replicate 32 5) (replicate 32 6) in
  ∃ blob, encrypt (public id) [1; 2; 3] (replicate 32 9) (replicate 16 2) None = Ok blob ∧
    decrypt id blob [] = Ok [1; 2; 3].
Proof.
  refine (encrypt_decrypt (from_bytes (replicate 32 5) (replicate 32 6)) [1; 2; 3]
    (replicate 32 9) (replicate 16 2) None [] [] _ _ _ _).
  - by apply from_bytes_ok.
  - done.
  - done.
  - done.
Defined.
