(* ===== verification/Announce.v ===== *)
(** Announces ([reticulum-core/src/announce.rs]): construction, and the parsing
    and cryptographic validation of inbound ones. *)
From S2P Require Import Prelude Constants Crypto Packet Identity.

Section announce.
Context `{C : Crypto}.

Record ParsedAnnounce := mkParsed {
  pa_destination_hash : bytes;
  pa_identity : PublicIdentity;
  pa_name_hash : bytes;
  pa_ratchet : option bytes;
  pa_app_data : bytes;
}.

(** [5 random bytes || low 5 bytes of the big-endian unix time]. *)
Definition random_hash (random5 : bytes) (unix_time : Z) : bytes :=
  random5 ++ drop 3 (be_bytes 8 unix_time).

Definition build_announce (identity : PrivateIdentity) (app_name : bytes) (aspects : list bytes)
    (app_data random_hash : bytes) (ratchet_pub : option bytes) : Packet :=
  let dest_hash := single_destination_hash app_name aspects (hash identity) in
  let name_hash := Identity.name_hash app_name aspects in
  let public_key := Identity.public_key (public identity) in
  let ratchet := default [] ratchet_pub in
  let signed := dest_hash ++ public_key ++ name_hash ++ random_hash ++ ratchet ++ app_data in
  let signature := sign identity signed in
  let data := public_key ++ name_hash ++ random_hash ++ ratchet ++ signature ++ app_data in
  let p := header1 DEST_SINGLE PACKET_ANNOUNCE CONTEXT_NONE dest_hash data in
  mkPacket (header_type p) (bool_decide (is_Some ratchet_pub)) (transport_type p)
    (destination_type p) (packet_type p) (hops p) (context p) (transport_id p)
    (Packet.destination_hash p) (Packet.data p).

(** The [None] of the source. *)
Definition reject {A} : res A := Err "None".

Definition announce_min : nat := (KEYSIZE + NAME_HASH_LENGTH + 10 + SIG_LENGTH)%nat.

(** The optional ratchet field and the offset of the signature behind it. *)
Definition announce_ratchet (packet : Packet) : res (option bytes * nat) :=
  let data := Packet.data packet in
  let rh_off := (KEYSIZE + NAME_HASH_LENGTH)%nat in
  if context_flag packet then
    if decide (length data < announce_min + RATCHET_SIZE)%nat then reject
    else
      let r_off := (rh_off + 10)%nat in
      r ← slice data r_off (r_off + RATCHET_SIZE);
      mret (Some r, (r_off + RATCHET_SIZE)%nat)
  else mret (None, (rh_off + 10)%nat).

Definition parse_and_validate (packet : Packet) : res ParsedAnnounce :=
  if decide (packet_type packet ≠ PACKET_ANNOUNCE) then reject
  else
    let data := Packet.data packet in
    if decide (length data < announce_min)%nat then reject
    else
      public_key ← slice_to data KEYSIZE;
      name_hash ← slice data KEYSIZE (KEYSIZE + NAME_HASH_LENGTH);
      let rh_off := (KEYSIZE + NAME_HASH_LENGTH)%nat in
      random_hash ← slice data rh_off (rh_off + 10);
      '(ratchet, sig_off) ← announce_ratchet packet;
      signature ← slice data sig_off (sig_off + SIG_LENGTH);
      app_data ← slice_from data (sig_off + SIG_LENGTH);
      let signed := Packet.destination_hash packet ++ public_key ++ name_hash ++ random_hash ++
                    default [] ratchet ++ app_data in
      identity ← from_public_key public_key;
      if negb (validate identity signature signed) then reject
      else
        let expected := take TRUNCATED_HASHLENGTH (full_hash (name_hash ++ id_hash identity)) in
        if decide (expected ≠ Packet.destination_hash packet) then reject
        else mret (mkParsed (Packet.destination_hash packet) identity name_hash ratchet app_data).

(** ** Abstract specification of a valid announce

    The payload splits as [pub || name || rnd || ratchet || sig || app] with the
    ratchet present iff the context flag is set; the signature covers the
    destination hash and every other field, and the destination hash is bound to
    the announced key. *)
Definition announce_valid (p : Packet) (a : ParsedAnnounce) (rnd sig : bytes) : Prop :=
  packet_type p = PACKET_ANNOUNCE ∧
  let pub := Identity.public_key (pa_identity a) in
  let ratchet := default [] (pa_ratchet a) in
  Packet.data p = pub ++ pa_name_hash a ++ rnd ++ ratchet ++ sig ++ pa_app_data a ∧
  length (enc_pub (pa_identity a)) = KEY_HALF ∧ length (sig_pub (pa_identity a)) = KEY_HALF ∧
  length (pa_name_hash a) = NAME_HASH_LENGTH ∧ length rnd = 10%nat ∧
  length sig = SIG_LENGTH ∧
  (if context_flag p then ∃ r, pa_ratchet a = Some r ∧ length r = RATCHET_SIZE
   else pa_ratchet a = None) ∧
  ed25519_verify (sig_pub (pa_identity a))
    (Packet.destination_hash p ++ pub ++ pa_name_hash a ++ rnd ++ ratchet ++ pa_app_data a) sig = true ∧
  id_hash (pa_identity a) = truncated_hash pub ∧
  pa_destination_hash a = Packet.destination_hash p ∧
  Packet.destination_hash p =
    take TRUNCATED_HASHLENGTH (full_hash (pa_name_hash a ++ id_hash (pa_identity a))).

(** ** Lemmas *)

(** The payload fields of a long enough announce, by offset. *)
Lemma announce_fields (d : bytes) (cf : bool) :
  (KEYSIZE + NAME_HASH_LENGTH + 10 + SIG_LENGTH + (if cf then RATCHET_SIZE else 0) ≤ length d)%nat →
  ∃ pub name rnd (rat : option bytes) sig app,
    d = pub ++ name ++ rnd ++ default [] rat ++ sig ++ app ∧
    length pub = KEYSIZE ∧ length name = NAME_HASH_LENGTH ∧ length rnd = 10%nat ∧
    (if cf then ∃ r, rat = Some r ∧ length r = RATCHET_SIZE else rat = None) ∧
    length sig = SIG_LENGTH.
Proof.
  intros Hl. exists (take 64 d), (take 10 (drop 64 d)), (take 10 (drop 74 d)).
  destruct cf.
  - exists (Some (take 32 (drop 84 d))), (take 64 (drop 116 d)), (drop 180 d).
    split_and!; [|wlen..|eexists; split; [done|wlen]|wlen]. cbn [from_option id].
    rewrite <-(take_drop 64 d) at 1. f_equal.
    rewrite <-(take_drop 10 (drop 64 d)) at 1. rewrite drop_drop. f_equal.
    rewrite <-(take_drop 10 (drop (64 + 10) d)) at 1. rewrite drop_drop. f_equal.
    rewrite <-(take_drop 32 (drop (64 + 10 + 10) d)) at 1. rewrite drop_drop. f_equal.
    rewrite <-(take_drop 64 (drop (64 + 10 + 10 + 32) d)) at 1. rewrite drop_drop. done.
  - exists None, (take 64 (drop 84 d)), (drop 148 d).
    split_and!; [|wlen..|done|wlen]. cbn [from_option id app].
    rewrite <-(take_drop 64 d) at 1. f_equal.
    rewrite <-(take_drop 10 (drop 64 d)) at 1. rewrite drop_drop. f_equal.
    rewrite <-(take_drop 10 (drop (64 + 10) d)) at 1. rewrite drop_drop. f_equal.
    rewrite <-(take_drop 64 (drop (64 + 10 + 10) d)) at 1. rewrite drop_drop. done.
Qed.

Lemma announce_ratchet_fields p pub name rnd rat sig rest :
  Packet.data p = pub ++ name ++ rnd ++ default [] rat ++ sig ++ rest →
  length pub = KEYSIZE → length name = NAME_HASH_LENGTH → length rnd = 10%nat →
  (if context_flag p then ∃ r, rat = Some r ∧ length r = RATCHET_SIZE else rat = None) →
  length sig = SIG_LENGTH →
  announce_ratchet p =
    Ok (rat, (length pub + length name + length rnd + length (default [] rat))%nat).
Proof.
  intros Hd ??? Hrat ?. unfold announce_ratchet, announce_min. rewrite Hd.
  destruct (context_flag p); [destruct Hrat as (r & -> & Hr)|subst rat]; cbn [from_option id app].
  - rewrite decide_False by wlen.
    rewrite (slice_at (pub ++ name ++ rnd) r (sig ++ rest)) by (app_norm || wlen). res_simpl.
    do 2 f_equal. wlen.
  - res_simpl. do 2 f_equal. wlen.
Qed.

(** [parse_and_validate] on a payload given by its fields. *)
Lemma parse_fields p pub name rnd rat sig appd :
  packet_type p = PACKET_ANNOUNCE →
  Packet.data p = pub ++ name ++ rnd ++ default [] rat ++ sig ++ appd →
  length pub = KEYSIZE → length name = NAME_HASH_LENGTH → length rnd = 10%nat →
  (if context_flag p then ∃ r, rat = Some r ∧ length r = RATCHET_SIZE else rat = None) →
  length sig = SIG_LENGTH →
  let ident := mkPublic (take 32 pub) (drop 32 pub) (truncated_hash pub) in
  parse_and_validate p =
    if ed25519_verify (sig_pub ident)
         (Packet.destination_hash p ++ pub ++ name ++ rnd ++ default [] rat ++ appd) sig
    then if decide (Packet.destination_hash p =
                    take TRUNCATED_HASHLENGTH (full_hash (name ++ truncated_hash pub)))
         then Ok (mkParsed (Packet.destination_hash p) ident name rat appd) else reject
    else reject.
Proof.
  intros Hty Hd Hpub Hname Hrnd Hrat Hsig ident. unfold parse_and_validate, announce_min.
  rewrite decide_False by auto. rewrite Hd.
  rewrite decide_False by (destruct (context_flag p); [destruct Hrat as (r & -> & ?)|subst rat];
    cbn [from_option id]; wlen).
  rewrite (slice_to_at pub (name ++ rnd ++ default [] rat ++ sig ++ appd)) by done. res_simpl.
  rewrite (slice_at pub name (rnd ++ default [] rat ++ sig ++ appd) _ KEYSIZE) by (app_norm || wlen).
  res_simpl.
  rewrite (slice_at (pub ++ name) rnd (default [] rat ++ sig ++ appd) _ (KEYSIZE + NAME_HASH_LENGTH))
    by (app_norm || wlen). res_simpl.
  erewrite announce_ratchet_fields by done. res_simpl.
  rewrite (slice_at (pub ++ name ++ rnd ++ default [] rat) sig appd) by (app_norm || wlen). res_simpl.
  rewrite (slice_from_at (pub ++ name ++ rnd ++ default [] rat ++ sig) appd) by (app_norm || wlen).
  res_simpl. rewrite from_public_key_ok by done. res_simpl. unfold validate.
  rewrite decide_True by done. fold ident. cbn [id_hash ident].
  destruct (ed25519_verify _ _ _); cbn [negb]; [|done].
  by case_decide; case_decide; try congruence.
Qed.

Lemma parse_short_rejects p :
  packet_type p ≠ PACKET_ANNOUNCE ∨
  ¬ (KEYSIZE + NAME_HASH_LENGTH + 10 + SIG_LENGTH +
     (if context_flag p then RATCHET_SIZE else 0) ≤ length (Packet.data p))%nat →
  parse_and_validate p = reject.
Proof.
  intros H. unfold parse_and_validate, announce_min. case_decide; [done|]. destruct H as [?|Hl]; [done|].
  case_decide; [done|]. rewrite slice_to_ok, !slice_ok by wlen. res_simpl.
  unfold announce_ratchet, announce_min. destruct (context_flag p); [|wlen].
  by rewrite decide_True by wlen.
Qed.

(** Totality: malformed announces are rejected, never a panic. *)
Lemma parse_no_panic p : no_panic (parse_and_validate p).
Proof.
  destruct (decide (packet_type p = PACKET_ANNOUNCE)) as [Ht|];
    [|rewrite parse_short_rejects; [done|by left]].
  destruct (decide (KEYSIZE + NAME_HASH_LENGTH + 10 + SIG_LENGTH +
     (if context_flag p then RATCHET_SIZE else 0) ≤ length (Packet.data p))%nat) as [Hl|];
    [|rewrite parse_short_rejects; [done|by right]].
  destruct (announce_fields _ _ Hl) as (pub & name & rnd & rat & sig & app & ? & ? & ? & ? & ? & ?).
  erewrite parse_fields by done. unfold reject. destruct (ed25519_verify _ _ _); [case_decide|]; done.
Qed.
End announce.

#[export] Hint Resolve parse_no_panic : rns.

(** Acceptance is validity. *)
Lemma parse_valid `{C : Crypto} (p : Packet) (a : ParsedAnnounce) :
  parse_and_validate p = Ok a ↔ ∃ rnd sig, announce_valid p a rnd sig.
Proof.
  split.
  - intros Hp.
    destruct (decide (packet_type p = PACKET_ANNOUNCE)) as [Ht|];
      [|rewrite parse_short_rejects in Hp; [done|by left]].
    destruct (decide (KEYSIZE + NAME_HASH_LENGTH + 10 + SIG_LENGTH +
       (if context_flag p then RATCHET_SIZE else 0) ≤ length (Packet.data p))%nat) as [Hl|];
      [|rewrite parse_short_rejects in Hp; [done|by right]].
    destruct (announce_fields _ _ Hl)
      as (pub & name & rnd & rat & sig & appd & Hd & Hpub & Hname & Hrnd & Hrat & Hsig).
    rewrite (parse_fields p pub name rnd rat sig appd) in Hp by done.
    destruct (ed25519_verify _ _ _) eqn:Hv; [|done]. case_decide as Hh; [|done].
    injection Hp as <-. exists rnd, sig. unfold announce_valid, public_key; cbn.
    cbn in Hv. rewrite take_drop. split_and!; try done; wlen.
  - intros (rnd & sig & Ht & Hd & He & Hs & Hn & Hr & Hsig & Hrat & Hv & Hid & Hda & Hh).
    cbv zeta in *. destruct a as [da [ep sp ih] nh rat appd]. cbn in *. subst da ih.
    rewrite (parse_fields p (ep ++ sp) nh rnd rat sig appd); try done; [|wlen]. cbn.
    change 32%nat with KEY_HALF. rewrite <-He, take_app_length, drop_app_length.
    unfold public_key in *. cbn in *. by rewrite Hv, decide_True.
Qed.

(** What a built announce parses to. *)
Lemma announce_parses `{C : Crypto} `{!HashOK, !DhOK, !SigOK} (id : PrivateIdentity)
  (app_name : bytes) (aspects : list bytes) (app_data rnd : bytes) (ratchet : option bytes)
  (Hid : private_ok id) (Hrnd : length rnd = 10%nat)
  (Hrat : ∀ r, ratchet = Some r → length r = RATCHET_SIZE) :
  let p := build_announce id app_name aspects app_data rnd ratchet in
  packet_ok p ∧
    parse_and_validate p =
      Ok (mkParsed (single_destination_hash app_name aspects (hash id)) (public id)
            (name_hash app_name aspects) ratchet app_data).
Proof.
  intros p.
  assert (length (Packet.destination_hash p) = TRUNCATED_HASHLENGTH) as Hdl
    by apply single_destination_hash_length.
  assert (packet_ok p) as Hok.
  { split_and!; try done. split_and!; cbn; set_solver. }
  split; [done|].
  rewrite (parse_fields p (public_key (public id)) (name_hash app_name aspects) rnd ratchet
    (sign id (Packet.destination_hash p ++ public_key (public id) ++ name_hash app_name aspects ++
       rnd ++ default [] ratchet ++ app_data)) app_data); try done.
  - pose proof (from_public_key_public_key id Hid) as Epk.
    rewrite from_public_key_ok in Epk by (by apply public_key_length).
    injection Epk as Epk. rewrite Epk.
    by rewrite sign_verified, <-private_hash, decide_True by done.
  - by apply public_key_length.
  - apply name_hash_length.
  - unfold p, build_announce. cbn. destruct ratchet as [r|]; cbn; [|done].
    exists r. split; [done|]. by apply Hrat.
  - apply sign_length.
Qed.

(** ** Properties *)

(** C9: [parse_and_validate] accepts exactly the announces of the abstract
    specification: the destination hash of an accepted announce is bound to the
    announced key, and every field it returns is covered by a signature of that
    key. *)
Theorem parse_validates_iff `{C : Crypto} (p : Packet) (a : ParsedAnnounce) :
  parse_and_validate p = Ok a ↔ ∃ rnd sig, announce_valid p a rnd sig.
Proof. apply parse_valid. Qed.

(** Round trip over the wire: an announce built by a node decodes, validates and
    yields the node's identity, name hash, ratchet and application data. *)
Theorem announce_roundtrip `{C : Crypto} `{!HashOK, !DhOK, !SigOK} (id : PrivateIdentity)
  (app_name : bytes) (aspects : list bytes) (app_data rnd : bytes) (ratchet : option bytes)
  (Hid : private_ok id) (Hrnd : length rnd = 10%nat)
  (Hrat : ∀ r, ratchet = Some r → length r = RATCHET_SIZE) :
  ∃ raw p, encode (build_announce id app_name aspects app_data rnd ratchet) = Ok raw ∧
    decode raw = Ok p ∧
    parse_and_validate p =
      Ok (mkParsed (single_destination_hash app_name aspects (hash id)) (public id)
            (name_hash app_name aspects) ratchet app_data).
Proof.
  destruct (announce_parses id app_name aspects app_data rnd ratchet Hid Hrnd Hrat) as [Hok Hp].
  destruct (packet_roundtrip _ Hok) as (raw & He & Hdec). eauto.
Qed.

Import ToyInstances.
Lemma announce_roundtrip_witness :
  let id := from_bytes (replicate 32 5) (replicate 32 6) in
  ∃ raw p, encode (build_announce id [108; 120] [[100]] [78; 79] (replicate 10 1) (Some (replicate 32 4))) = Ok raw
    ∧ decode raw = Ok p ∧
    parse_and_validate p = Ok (mkParsed (single_destination_hash [108; 120] [[100]] (hash id)) (public id)
            (name_hash [108; 120] [[100]]) (Some (replicate 32 4)) [78; 79]).
Proof.
  refine (announce_roundtrip (from_bytes (replicate 32 5) (replicate 32 6)) [108; 120] [[100]]
    [78; 79] (replicate 10 1) (Some (replicate 32 4)) _ _ _).
  - by apply from_bytes_ok.
  - done.
  - by intros r [= <-].
Defined.
