(* ===== verification/Link.v ===== *)
(** Links ([reticulum-core/src/link.rs]): both sides of the handshake, link data
    encryption, packet proofs (receipts) and link identification. *)
From S2P Require Import Prelude Constants Crypto Packet Identity Announce.

Definition ECPUBSIZE : nat := 64.
Definition LINK_MTU_SIZE : nat := 3.
Definition MODE_AES256_CBC : Z := 0x01.
Definition MTU_BYTEMASK : Z := 0x1FFFFF.
Definition MODE_BYTEMASK : Z := 0xE0.

(** [a - b] on [usize]: underflow panics (or wraps to an absurd length). *)
Definition usub (a b : nat) : res nat := if decide (b ≤ a)%nat then Ok (a - b)%nat else Panic.

(** [signalling_bytes(mtu, mode)]: 21 bits of MTU and 3 bits of mode in 3 bytes. *)
Definition signalling_bytes (mtu mode : Z) : bytes :=
  let value := Z.lor (Z.land mtu MTU_BYTEMASK)
                 (Z.shiftl (Z.land (Z.shiftl mode 5) MODE_BYTEMASK) 16) in
  drop 1 (be_bytes 4 value).

Definition requested_mtu (request : Packet) : Z :=
  let d := data request in
  if decide (length d = (ECPUBSIZE + LINK_MTU_SIZE)%nat) then
    Z.land (Z.lor (Z.lor (Z.shiftl (nth ECPUBSIZE d 0) 16) (Z.shiftl (nth (ECPUBSIZE + 1) d 0) 8))
              (nth (ECPUBSIZE + 2) d 0)) MTU_BYTEMASK
  else Z.of_nat MTU.

Section link.
Context `{C : Crypto}.

Record EstablishedLink := mkEstablished {
  est_link_id : bytes;
  est_derived_key : bytes;
  est_proof_packet : bytes;
  est_peer_sig_pub : bytes;
}.

(** The hashable part without the MTU signalling, hashed. *)
Definition link_id (request : Packet) : res bytes :=
  hp ← hashable_part request;
  hp' ← (if decide (ECPUBSIZE < length (data request))%nat then
           n ← usub (length hp) (length (data request) - ECPUBSIZE); mret (take n hp)
         else mret hp);
  mret (truncated_hash hp').

Definition link_id_of (request : Packet) : res bytes := link_id request.

(** [hkdf(64, x25519(secret, peer), salt = link id)], copied into a 64-byte array. *)
Definition link_key (secret peer_pub lid : bytes) : res bytes :=
  derived ← hkdf DERIVED_KEY_LENGTH (x25519 secret peer_pub) (Some lid) None;
  copy_exact DERIVED_KEY_LENGTH derived.

Definition accept_request (request : Packet) (identity : PrivateIdentity)
    (ephemeral_secret : bytes) : res EstablishedLink :=
  if decide (header_type request ≠ One ∧ header_type request ≠ Two) then reject
  else
    let d := data request in
    if decide (length d ≠ ECPUBSIZE ∧ length d ≠ (ECPUBSIZE + LINK_MTU_SIZE)%nat) then reject
    else
      peer_pub ← slice_to d KEY_HALF;
      peer_sig_pub ← slice d KEY_HALF ECPUBSIZE;
      lid ← link_id request;
      let our_pub := x25519_base ephemeral_secret in
      derived_key ← link_key ephemeral_secret peer_pub lid;
      let mtu := requested_mtu request in
      let sig := signalling_bytes mtu MODE_AES256_CBC in
      let signed := lid ++ our_pub ++ sig_pub (public identity) ++ sig in
      let signature := sign identity signed in
      let proof_data := signature ++ our_pub ++ sig in
      let proof := header1 DEST_LINK PACKET_PROOF CONTEXT_LRPROOF lid proof_data in
      raw ← encode proof;
      mret (mkEstablished lid derived_key raw peer_sig_pub).

Definition decrypt (derived_key data : bytes) : res bytes :=
  t ← Token_new derived_key; Crypto.decrypt t data.

Definition initiate_request (target eph_x25519_secret eph_ed25519_seed : bytes) : res (bytes * bytes) :=
  let x_pub := x25519_base eph_x25519_secret in
  let ed_pub := ed25519_verifying_key eph_ed25519_seed in
  let sig := signalling_bytes (Z.of_nat MTU) MODE_AES256_CBC in
  let packet := header1 DEST_SINGLE PACKET_LINKREQUEST CONTEXT_NONE target (x_pub ++ ed_pub ++ sig) in
  lid ← link_id packet;
  raw ← encode packet;
  mret (raw, lid).

Definition complete_handshake (link_id eph_x25519_secret proof_data : bytes)
    (peer_identity : PublicIdentity) : res bytes :=
  if decide (length proof_data < SIG_LENGTH + KEY_HALF)%nat then reject
  else
    signature ← slice_to proof_data SIG_LENGTH;
    peer_pub ← slice proof_data SIG_LENGTH (SIG_LENGTH + KEY_HALF);
    signalling ← slice_from proof_data (SIG_LENGTH + KEY_HALF);
    let signed := link_id ++ peer_pub ++ sig_pub peer_identity ++ signalling in
    if negb (validate peer_identity signature signed) then reject
    else link_key eph_x25519_secret peer_pub link_id.

Definition encrypt_data (derived_key plaintext iv : bytes) : res bytes :=
  t ← Token_new derived_key; mret (encrypt_with_iv t plaintext iv).

(** [rtt_seconds] is the bit pattern of the [f64]. *)
Definition make_rtt_packet (link_id derived_key : bytes) (rtt_seconds : Z) (iv : bytes) : res bytes :=
  ciphertext ← encrypt_data derived_key (0xcb :: be_bytes 8 rtt_seconds) iv;
  encode (header1 DEST_LINK PACKET_DATA CONTEXT_LRRTT link_id ciphertext).

(** Explicit proof: [hash || sig]; implicit proof: [sig].  The slices are within
    the length just tested. *)
Definition validate_proof_sig (sig_pub packet_hash proof_data : bytes) : bool :=
  if decide (length proof_data = (32 + SIG_LENGTH)%nat) then
    if decide (take 32 proof_data ≠ packet_hash) then false
    else ed25519_verify sig_pub packet_hash (drop 32 proof_data)
  else if decide (length proof_data = SIG_LENGTH) then
    ed25519_verify sig_pub packet_hash proof_data
  else false.

Definition validate_proof (peer_identity : PublicIdentity) (packet_hash proof_data : bytes) : bool :=
  validate_proof_sig (sig_pub peer_identity) packet_hash proof_data.

Definition prove_packet (identity : PrivateIdentity) (link_id : bytes) (data_packet : Packet) : res bytes :=
  ph ← packet_hash data_packet;
  let signature := sign identity ph in
  encode (header1 DEST_LINK PACKET_PROOF CONTEXT_NONE link_id (ph ++ signature)).

Definition prove_packet_ephemeral (eph_ed25519_seed link_id : bytes) (data_packet : Packet) : res bytes :=
  let sig_pub := ed25519_verifying_key eph_ed25519_seed in
  ph ← packet_hash data_packet;
  let signature := ed25519_sign eph_ed25519_seed sig_pub ph in
  encode (header1 DEST_LINK PACKET_PROOF CONTEXT_NONE link_id (ph ++ signature)).

Definition make_link_context_packet (link_id derived_key : bytes) (context : Z)
    (plaintext iv : bytes) : res bytes :=
  ciphertext ← encrypt_data derived_key plaintext iv;
  encode (header1 DEST_LINK PACKET_DATA context link_id ciphertext).

Definition validate_identify (link_id plaintext : bytes) : res PublicIdentity :=
  if decide (length plaintext ≠ (KEYSIZE + SIG_LENGTH)%nat) then reject
  else
    pub ← slice_to plaintext KEYSIZE;
    identity ← from_public_key pub;
    signature ← slice_from plaintext KEYSIZE;
    if validate identity signature (link_id ++ pub) then mret identity else reject.

Definition make_identify (link_id derived_key : bytes) (identity : PrivateIdentity) (iv : bytes) : res bytes :=
  let pubkey := public_key (public identity) in
  let signature := sign identity (link_id ++ pubkey) in
  make_link_context_packet link_id derived_key CONTEXT_LINKIDENTIFY (pubkey ++ signature) iv.

(** ** Lemmas: totality *)

Lemma link_id_ok p : tid_ok p → ∃ hp, link_id p = Ok (truncated_hash hp) ∧
  hp = take (1 + length (destination_hash p) + 1 + Nat.min (length (data p)) ECPUBSIZE)
         (Z.land (packed_flags p) 0x0F :: destination_hash p ++ [context p] ++ data p).
Proof.
  intros Ht. unfold link_id. rewrite hashable_part_ok by done. res_simpl.
  case_decide as Hl.
  - unfold usub. rewrite decide_True by len. res_simpl. eexists; split; [done|]. f_equal. len.
  - res_simpl. eexists; split; [done|]. rewrite take_ge by len. done.
Qed.

Lemma link_key_ok `{!KdfOK} secret pub lid : ∃ k,
  link_key secret pub lid = Ok k ∧ length k = DERIVED_KEY_LENGTH.
Proof.
  unfold link_key.
  destruct (hkdf_key_ok DERIVED_KEY_LENGTH (x25519 secret pub) (Some lid) None) as (k & -> & Hk); [wlen|].
  res_simpl. exists k. by rewrite copy_exact_ok.
Qed.

Lemma header1_tid dt pt cx dest d : tid_ok (header1 dt pt cx dest d).
Proof. done. Qed.

Lemma accept_request_no_panic `{!KdfOK} p id eph : tid_ok p → no_panic (accept_request p id eph).
Proof.
  intros Ht. unfold accept_request. case_decide; [done|]. case_decide as Hl; [done|].
  unfold ECPUBSIZE, LINK_MTU_SIZE in *.
  assert (length (data p) = 64 ∨ length (data p) = 67)%nat as Hl' by lia.
  rewrite slice_to_ok, slice_ok by wlen. res_simpl.
  destruct (link_id_ok p Ht) as (hp & -> & _). res_simpl.
  destruct (link_key_ok eph (take KEY_HALF (data p)) (truncated_hash hp)) as (k & -> & _).
  res_simpl. by rewrite encode_ok.
Qed.

Lemma link_decrypt_no_panic key d : no_panic (decrypt key d).
Proof.
  unfold decrypt. apply res_bind_no_panic; [apply Token_new_no_panic|intros; apply token_decrypt_no_panic].
Qed.

Lemma complete_handshake_no_panic `{!KdfOK} lid sec d id : no_panic (complete_handshake lid sec d id).
Proof.
  unfold complete_handshake. case_decide; [done|].
  rewrite slice_to_ok, slice_ok, slice_from_ok by lia. res_simpl.
  case_match; [done|]. by destruct (link_key_ok sec (take (SIG_LENGTH + KEY_HALF - SIG_LENGTH) (drop SIG_LENGTH d)) lid) as (k & -> & _).
Qed.

Lemma validate_identify_no_panic lid pt : no_panic (validate_identify lid pt).
Proof.
  unfold validate_identify. case_decide as Hl; [done|].
  rewrite slice_to_ok by wlen. res_simpl. rewrite from_public_key_ok by wlen. res_simpl.
  rewrite slice_from_ok by wlen. res_simpl. by case_match.
Qed.

Lemma make_link_context_packet_no_panic lid key cx pt iv :
  no_panic (make_link_context_packet lid key cx pt iv).
Proof.
  unfold make_link_context_packet, encrypt_data. apply res_bind_no_panic; [|intros; by rewrite encode_ok].
  apply res_bind_no_panic; [apply Token_new_no_panic|done].
Qed.

Lemma prove_packet_ok id lid p : tid_ok p → ∃ ph, packet_hash p = Ok ph ∧
  prove_packet id lid p = encode (header1 DEST_LINK PACKET_PROOF CONTEXT_NONE lid (ph ++ sign id ph)).
Proof. intros. unfold prove_packet. rewrite packet_hash_ok by done. res_simpl. eauto. Qed.

Lemma prove_packet_ephemeral_ok seed lid p : tid_ok p → ∃ ph, packet_hash p = Ok ph ∧
  prove_packet_ephemeral seed lid p = encode (header1 DEST_LINK PACKET_PROOF CONTEXT_NONE lid
    (ph ++ ed25519_sign seed (ed25519_verifying_key seed) ph)).
Proof. intros. unfold prove_packet_ephemeral. rewrite packet_hash_ok by done. res_simpl. eauto. Qed.

(** ** Lemmas: functional behaviour *)

Lemma header1_roundtrip dt pt cx dest d : dt ∈ [0; 1; 2; 3] → pt ∈ [0; 1; 2; 3] →
  length dest = TRUNCATED_HASHLENGTH →
  ∃ raw, encode (header1 dt pt cx dest d) = Ok raw ∧ decode raw = Ok (header1 dt pt cx dest d).
Proof. intros. by apply packet_roundtrip, header1_ok. Qed.

(** Accepting a well-formed request, field by field. *)
Lemma accept_request_ok p id eph xp ep rest lid key :
  tid_ok p → data p = xp ++ ep ++ rest → length xp = KEY_HALF → length ep = KEY_HALF →
  rest = [] ∨ length rest = LINK_MTU_SIZE →
  link_id p = Ok lid → link_key eph xp lid = Ok key →
  let sg := signalling_bytes (requested_mtu p) MODE_AES256_CBC in
  let pd := sign id (lid ++ x25519_base eph ++ sig_pub (public id) ++ sg) ++ x25519_base eph ++ sg in
  accept_request p id eph =
    raw ← encode (header1 DEST_LINK PACKET_PROOF CONTEXT_LRPROOF lid pd);
    Ok (mkEstablished lid key raw ep).
Proof.
  intros Ht Hd Hx He Hr Hlid Hkey sg pd. unfold accept_request.
  rewrite decide_False by (destruct (header_type p); naive_solver).
  rewrite Hd. unfold ECPUBSIZE, LINK_MTU_SIZE in *.
  rewrite decide_False by (destruct Hr as [-> |Hr]; wlen).
  rewrite (slice_to_at xp (ep ++ rest)) by done. res_simpl.
  rewrite (slice_at xp ep rest) by (app_norm || wlen). res_simpl.
  rewrite Hlid. res_simpl. rewrite Hkey. done.
Qed.

Lemma complete_handshake_ok lid secret id signature pub sg :
  private_ok id → length signature = SIG_LENGTH → length pub = KEY_HALF →
  complete_handshake lid secret (signature ++ pub ++ sg) (public id) =
    if ed25519_verify (sig_pub (public id)) (lid ++ pub ++ sig_pub (public id) ++ sg) signature
    then link_key secret pub lid else reject.
Proof.
  intros Hid Hs Hp. unfold complete_handshake. rewrite decide_False by wlen.
  rewrite (slice_to_at signature (pub ++ sg)) by done. res_simpl.
  rewrite (slice_at signature pub sg) by (app_norm || wlen). res_simpl.
  rewrite (slice_from_at (signature ++ pub) sg) by (app_norm || wlen). res_simpl.
  unfold validate. rewrite decide_True by done. by destruct (ed25519_verify _ _ _).
Qed.

Lemma link_key_symmetric `{!DhOK} a b lid : length a = KEY_HALF → length b = KEY_HALF →
  link_key a (x25519_base b) lid = link_key b (x25519_base a) lid.
Proof. intros. unfold link_key. by rewrite dh_symmetric. Qed.

Lemma signalling_length mtu mode : length (signalling_bytes mtu mode) = LINK_MTU_SIZE.
Proof. unfold signalling_bytes. by rewrite length_drop, be_bytes_length. Qed.

(** Encrypted link packets open at the other end. *)
Lemma link_packet_roundtrip `{!HashOK, !CipherOK} lid key cx pt iv :
  length lid = TRUNCATED_HASHLENGTH → length key = DERIVED_KEY_LENGTH → length iv = IV_LENGTH →
  ∃ raw p, make_link_context_packet lid key cx pt iv = Ok raw ∧ decode raw = Ok p ∧
    packet_type p = PACKET_DATA ∧ context p = cx ∧ destination_hash p = lid ∧
    decrypt key (data p) = Ok pt.
Proof.
  intros Hl Hk Hiv. unfold make_link_context_packet, encrypt_data, decrypt.
  rewrite Token_new_ok by done. res_simpl.
  destruct (header1_roundtrip DEST_LINK PACKET_DATA cx lid
    (encrypt_with_iv (mkToken (take 32 key) (drop 32 key)) pt iv)) as (raw & He & Hd);
    [set_solver|set_solver|done|].
  eexists raw, _. split_and!; [done..|]. cbn [data header1].
  eapply token_decrypt_encrypt; [|done]. by apply Token_new_ok.
Qed.

Lemma validate_proof_sig_explicit pub ph s :
  length ph = 32%nat → length s = SIG_LENGTH →
  validate_proof_sig pub ph (ph ++ s) = ed25519_verify pub ph s.
Proof.
  intros Hp Hs. unfold validate_proof_sig. rewrite decide_True by wlen.
  rewrite <-Hp, take_app_length, drop_app_length. by rewrite decide_False by auto.
Qed.

Lemma packet_hash_length `{!HashOK} p ph : packet_hash p = Ok ph → length ph = 32%nat.
Proof.
  unfold packet_hash. destruct (hashable_part p); res_simpl; intros [= <-]. apply sha256_length.
Qed.
(** The two sides of a handshake.  The responder may see the request rewritten for
    transport, with the same payload and the same link id. *)
Definition request_payload (init_x init_ed : bytes) : bytes :=
  x25519_base init_x ++ ed25519_verifying_key init_ed ++ signalling_bytes (Z.of_nat MTU) MODE_AES256_CBC.
Definition request_packet (target init_x init_ed : bytes) : Packet :=
  header1 DEST_SINGLE PACKET_LINKREQUEST CONTEXT_NONE target (request_payload init_x init_ed).

Lemma initiate_request_ok `{!HashOK, !DhOK, !SigOK} target init_x init_ed :
  length target = TRUNCATED_HASHLENGTH → length init_x = KEY_HALF → length init_ed = KEY_HALF →
  ∃ raw lid, initiate_request target init_x init_ed = Ok (raw, lid) ∧
    encode (request_packet target init_x init_ed) = Ok raw ∧
    link_id (request_packet target init_x init_ed) = Ok lid ∧ length lid = TRUNCATED_HASHLENGTH.
Proof.
  intros Ht Hx He. set (req := request_packet target init_x init_ed).
  destruct (packet_roundtrip req) as (raw & Henc & Hdec); [by apply header1_ok; [set_solver|set_solver|]|].
  destruct (link_id_ok req (header1_tid _ _ _ _ _)) as (hp & Hlid & _).
  eexists raw, _. split_and!; [|done|done|apply truncated_hash_length].
  unfold initiate_request. fold (request_payload init_x init_ed).
  fold (request_packet target init_x init_ed). fold req. by rewrite Hlid, Henc.
Qed.

Lemma handshake_responds `{!HashOK, !KdfOK, !DhOK, !SigOK} responder init_x init_ed eph p lid :
  private_ok responder → length init_x = KEY_HALF → length init_ed = KEY_HALF → length eph = KEY_HALF →
  tid_ok p → data p = request_payload init_x init_ed → link_id p = Ok lid →
  length lid = TRUNCATED_HASHLENGTH →
  ∃ est proof, accept_request p responder eph = Ok est ∧ est_link_id est = lid ∧
    est_peer_sig_pub est = ed25519_verifying_key init_ed ∧
    decode (est_proof_packet est) = Ok proof ∧
    packet_type proof = PACKET_PROOF ∧ context proof = CONTEXT_LRPROOF ∧ destination_hash proof = lid ∧
    complete_handshake lid init_x (data proof) (public responder) = Ok (est_derived_key est) ∧
    length (est_derived_key est) = DERIVED_KEY_LENGTH.
Proof.
  intros Hid Hx He Hp Htid Hd Hlid Hll.
  assert (length (x25519_base init_x) = KEY_HALF) as Hxl by (by apply x25519_length).
  assert (length (x25519_base eph) = KEY_HALF) as Hpl by (by apply x25519_length).
  destruct (link_key_ok eph (x25519_base init_x) lid) as (key & Hkey & Hkl).
  pose proof (accept_request_ok p responder eph (x25519_base init_x)
    (ed25519_verifying_key init_ed) (signalling_bytes (Z.of_nat MTU) MODE_AES256_CBC) _ _
    Htid Hd Hxl (verifying_key_length _ He)
    (or_intror (signalling_length _ _)) Hlid Hkey) as Hacc. cbv zeta in Hacc.
  edestruct header1_roundtrip as (raw2 & Henc2 & Hdec2); [..|rewrite Henc2 in Hacc; res_simpl];
    [set_solver|set_solver|done|].
  do 2 eexists. split_and!; [exact Hacc|done|done|exact Hdec2|done|done|done| |done].
  cbn [est_derived_key data header1]. rewrite complete_handshake_ok by (done || apply sign_length).
  by rewrite sign_verified, link_key_symmetric by done.
Qed.
End link.

#[export] Hint Resolve link_decrypt_no_panic accept_request_no_panic complete_handshake_no_panic
  validate_identify_no_panic make_link_context_packet_no_panic : rns.

(** A LINKIDENTIFY packet opens to the identity that made it. *)
Lemma identify_opens `{C : Crypto} `{!HashOK, !CipherOK, !DhOK, !SigOK}
  (id : PrivateIdentity) (lid key iv : bytes)
  (Hid : private_ok id) (Hl : length lid = TRUNCATED_HASHLENGTH)
  (Hk : length key = DERIVED_KEY_LENGTH) (Hiv : length iv = IV_LENGTH) :
  ∃ raw p pt, make_identify lid key id iv = Ok raw ∧ decode raw = Ok p ∧
    packet_type p = PACKET_DATA ∧ context p = CONTEXT_LINKIDENTIFY ∧ destination_hash p = lid ∧
    decrypt key (data p) = Ok pt ∧ validate_identify lid pt = Ok (public id).
Proof.
  unfold make_identify.
  destruct (link_packet_roundtrip lid key CONTEXT_LINKIDENTIFY
    (public_key (public id) ++ sign id (lid ++ public_key (public id))) iv Hl Hk Hiv)
    as (raw & p & Hm & Hd & Ht & Hc & Hdh & Hdec).
  eexists raw, p, _. split_and!; [done..|]. pose proof (public_key_length id Hid) as Hpl.
  unfold validate_identify.
  rewrite decide_False by (rewrite length_app, Hpl; unfold sign; rewrite sign_length; wlen).
  rewrite slice_to_app by done. res_simpl. rewrite from_public_key_public_key by done. res_simpl.
  rewrite slice_from_app by done. res_simpl. by rewrite sign_validates.
Qed.

(** ** Properties *)

(** Handshake agreement: a link request built by the initiator is accepted by the
    responder under the same link id, and the initiator, validating the returned
    proof against the responder's identity, derives the responder's session key. *)
Theorem handshake_agreement `{C : Crypto} `{!HashOK, !KdfOK, !DhOK, !SigOK}
  (responder : PrivateIdentity) (target init_x init_ed eph : bytes)
  (Hid : private_ok responder) (Ht : length target = TRUNCATED_HASHLENGTH)
  (Hx : length init_x = KEY_HALF) (He : length init_ed = KEY_HALF) (Hp : length eph = KEY_HALF) :
  ∃ raw lid req est proof,
    initiate_request target init_x init_ed = Ok (raw, lid) ∧ decode raw = Ok req ∧
    accept_request req responder eph = Ok est ∧ est_link_id est = lid ∧
    est_peer_sig_pub est = ed25519_verifying_key init_ed ∧
    decode (est_proof_packet est) = Ok proof ∧
    packet_type proof = PACKET_PROOF ∧ context proof = CONTEXT_LRPROOF ∧ destination_hash proof = lid ∧
    complete_handshake lid init_x (data proof) (public responder) = Ok (est_derived_key est).
Proof.
  destruct (initiate_request_ok target init_x init_ed Ht Hx He) as (raw & lid & Hi & Henc & Hlid & Hl).
  destruct (packet_roundtrip (request_packet target init_x init_ed)) as (raw' & Henc' & Hdec);
    [by apply header1_ok; [set_solver|set_solver|]|].
  assert (raw' = raw) as -> by congruence.
  destruct (handshake_responds responder init_x init_ed eph (request_packet target init_x init_ed) lid
    Hid Hx He Hp) as (est & proof & Hacc & E1 & E2 & E3 & E4 & E5 & E6 & E7 & _); [done..|].
  exists raw, lid, (request_packet target init_x init_ed), est, proof. by split_and!.
Qed.

(** Only the key of the expected peer completes a handshake: whatever the network
    delivers, an accepted proof carries an Ed25519 signature of that key over the
    link id, the peer's ephemeral key and the signalling bytes. *)
Theorem handshake_authentic `{C : Crypto} (lid secret proof key : bytes) (peer : PublicIdentity)
  (Hok : complete_handshake lid secret proof peer = Ok key) :
  ∃ signature pub sg, proof = signature ++ pub ++ sg ∧
    length signature = SIG_LENGTH ∧ length pub = KEY_HALF ∧
    ed25519_verify (sig_pub peer) (lid ++ pub ++ sig_pub peer ++ sg) signature = true ∧
    link_key secret pub lid = Ok key.
Proof.
  unfold complete_handshake in Hok. case_decide as Hl; [done|].
  rewrite slice_to_ok, slice_ok, slice_from_ok in Hok by lia. res_simpl.
  exists (take SIG_LENGTH proof), (take KEY_HALF (drop SIG_LENGTH proof)), (drop (SIG_LENGTH + KEY_HALF) proof).
  replace (SIG_LENGTH + KEY_HALF - SIG_LENGTH)%nat with KEY_HALF in Hok by lia.
  unfold validate in Hok. rewrite decide_True in Hok by wlen.
  destruct (ed25519_verify _ _ _) eqn:Hv; [|done]. split_and!; [|wlen|wlen|done|done].
  rewrite <-(take_drop SIG_LENGTH proof) at 1. f_equal.
  rewrite <-(take_drop KEY_HALF (drop SIG_LENGTH proof)) at 1. by rewrite drop_drop.
Qed.

(** Receipts: the proof a node returns for a received data packet validates, at
    the sender, under the right key - the identity key when the prover accepted
    the link, the per-link ephemeral key when it opened it. *)
Theorem packet_proof_validates `{C : Crypto} `{!HashOK, !SigOK}
  (id : PrivateIdentity) (seed lid : bytes) (p : Packet)
  (Hid : private_ok id) (Hs : length seed = KEY_HALF)
  (Hl : length lid = TRUNCATED_HASHLENGTH) (Hp : tid_ok p) :
  ∃ ph raw1 raw2 q1 q2, packet_hash p = Ok ph ∧
    prove_packet id lid p = Ok raw1 ∧ decode raw1 = Ok q1 ∧
    prove_packet_ephemeral seed lid p = Ok raw2 ∧ decode raw2 = Ok q2 ∧
    validate_proof (public id) ph (data q1) = true ∧
    validate_proof_sig (ed25519_verifying_key seed) ph (data q2) = true.
Proof.
  destruct (prove_packet_ok id lid p Hp) as (ph & Hph & H1).
  destruct (prove_packet_ephemeral_ok seed lid p Hp) as (ph' & Hph' & H2).
  assert (ph' = ph) as -> by congruence. pose proof (packet_hash_length _ _ Hph) as Hpl.
  edestruct (header1_roundtrip DEST_LINK PACKET_PROOF CONTEXT_NONE lid (ph ++ sign id ph))
    as (raw1 & E1 & D1); [set_solver|set_solver|done|].
  edestruct (header1_roundtrip DEST_LINK PACKET_PROOF CONTEXT_NONE lid
    (ph ++ ed25519_sign seed (ed25519_verifying_key seed) ph)) as (raw2 & E2 & D2);
    [set_solver|set_solver|done|].
  eexists ph, raw1, raw2, _, _. split_and!; [done|congruence|done|congruence|done|..]; cbn [data header1].
  - unfold validate_proof. rewrite validate_proof_sig_explicit by (done || apply sign_length).
    by apply sign_verified.
  - rewrite validate_proof_sig_explicit by (done || apply sign_length). by apply sign_verifies.
Qed.

(** Identification over a link: the encrypted LINKIDENTIFY packet of a node
    decrypts and validates at the peer to exactly the node's public identity. *)
Theorem identify_roundtrip `{C : Crypto} `{!HashOK, !CipherOK, !DhOK, !SigOK}
  (id : PrivateIdentity) (lid key iv : bytes)
  (Hid : private_ok id) (Hl : length lid = TRUNCATED_HASHLENGTH)
  (Hk : length key = DERIVED_KEY_LENGTH) (Hiv : length iv = IV_LENGTH) :
  ∃ raw p pt, make_identify lid key id iv = Ok raw ∧ decode raw = Ok p ∧
    context p = CONTEXT_LINKIDENTIFY ∧ destination_hash p = lid ∧
    decrypt key (data p) = Ok pt ∧ validate_identify lid pt = Ok (public id).
Proof.
  destruct (identify_opens id lid key iv Hid Hl Hk Hiv) as (raw & p & pt & Hm & Hd & _ & Hrest).
  by exists raw, p, pt.
Qed.

(** ** Witnesses *)

Import ToyInstances.

Definition w_id : PrivateIdentity := from_bytes (replicate 32 1) (replicate 32 2).

Lemma w_id_ok : private_ok w_id.
Proof. by apply from_bytes_ok. Qed.

Lemma handshake_agreement_witness : ∃ raw lid,
  initiate_request (replicate 16 0x55) (replicate 32 7) (replicate 32 8) = Ok (raw, lid).
Proof.
  destruct (handshake_agreement w_id (replicate 16 0x55) (replicate 32 7) (replicate 32 8)
    (replicate 32 9) w_id_ok eq_refl eq_refl eq_refl eq_refl)
    as (raw & lid & _ & _ & _ & Hr & _). by exists raw, lid.
Defined.

Lemma handshake_authentic_witness :
  let lid := replicate 16 1 in let pub := replicate 32 4 in
  let peer := mkPublic [] (replicate 32 3) [] in
  let proof := Toy.sig (replicate 32 3) (lid ++ pub ++ replicate 32 3) ++ pub in
  ∃ signature pub' sg, proof = signature ++ pub' ++ sg ∧ length signature = SIG_LENGTH.
Proof.
  intros lid pub peer proof.
  destruct (handshake_authentic lid (replicate 32 2) proof
    (Toy.kdf 64 lid (Toy.dh (replicate 32 2) pub) []) peer) as (s & p & g & H1 & H2 & _).
  - vm_compute. reflexivity.
  - by exists s, p, g.
Defined.

Lemma packet_proof_validates_witness :
  let p := header1 DEST_LINK PACKET_DATA CONTEXT_NONE (replicate 16 0xAB) [1; 2; 3] in
  ∃ ph, packet_hash p = Ok ph.
Proof.
  destruct (packet_proof_validates w_id (replicate 32 9) (replicate 16 0xAB)
    (header1 DEST_LINK PACKET_DATA CONTEXT_NONE (replicate 16 0xAB) [1; 2; 3])
    w_id_ok eq_refl eq_refl I) as (ph & _ & _ & _ & _ & H & _). by exists ph.
Defined.

Lemma identify_roundtrip_witness : ∃ raw,
  make_identify (replicate 16 0x77) (replicate 64 0x5a) w_id (replicate 16 0x33) = Ok raw.
Proof.
  destruct (identify_roundtrip w_id (replicate 16 0x77) (replicate 64 0x5a) (replicate 16 0x33)
    w_id_ok eq_refl eq_refl eq_refl) as (raw & _ & _ & H & _). by exists raw.
Defined.
