(* ===== verification/Msgpack.v ===== *)
(** The MessagePack codec of [lxmf/src/msgpack.rs].

    [f64] values are their 64-bit patterns (the codec moves bits; conversions
    from integers and [f32] are written out on the patterns), strings are their
    UTF-8 bytes, a [BTreeMap] is its association list in key order.  The parser
    takes the width of [usize] as an argument: the client runs on a 32-bit
    machine and on 64-bit hosts, and [take] adds a 32-bit length to an index. *)
From S2P Require Import Prelude.

(** ** Values *)

Inductive Value : Type :=
  | Nil
  | Bool (b : bool)
  | Int (n : Z)
  | F64 (bits : Z)
  | Str (s : bytes)
  | Bin (b : bytes)
  | Array (a : list Value)
  | Map (m : list (Z * Value))
  | StrMap (m : list (bytes * Value)).

Definition as_bin (v : Value) : option bytes :=
  match v with Bin b => Some b | Str s => Some s | _ => None end.

(** [i as f64]: the pattern of the nearest double, ties to even. *)
Definition i64_as_f64 (n : Z) : Z :=
  if decide (n = 0) then 0 else
  let sign := if decide (n < 0) then 2 ^ 63 else 0 in
  let a := Z.abs n in
  let e := Z.log2 a in
  let m :=
    if decide (e ≤ 52) then Z.shiftl a (52 - e)
    else
      let s := e - 52 in
      let q := Z.shiftr a s in let r := a mod 2 ^ s in
      if decide (r > 2 ^ (s - 1) ∨ (r = 2 ^ (s - 1) ∧ Z.odd q = true)) then q + 1 else q in
  sign + Z.shiftl (e + 1023) 52 + (m - 2 ^ 52).

(** [f32 as f64], exact; a NaN is quieted and keeps its payload. *)
Definition f32_as_f64 (w : Z) : Z :=
  let sign := Z.shiftl (Z.shiftr w 31) 63 in
  let e := Z.land (Z.shiftr w 23) 0xff in
  let m := Z.land w 0x7fffff in
  if decide (e = 0xff) then
    sign + Z.shiftl 0x7ff 52
      + (if decide (m = 0) then 0 else Z.lor (Z.shiftl m 29) (2 ^ 51))
  else if decide (e = 0) then
    if decide (m = 0) then sign
    else let k := Z.log2 m in sign + Z.shiftl (k - 149 + 1023) 52 + Z.shiftl (m - 2 ^ k) (52 - k)
  else sign + Z.shiftl (e - 127 + 1023) 52 + Z.shiftl m 29.

Definition as_f64 (v : Value) : option Z :=
  match v with F64 f => Some f | Int i => Some (i64_as_f64 i) | _ => None end.

Definition as_array (v : Value) : option (list Value) :=
  match v with Array a => Some a | _ => None end.

(** ** Encoding *)

Definition write_u (n : Z) : bytes :=
  if decide (n < 0x80) then be_bytes 1 n
  else if decide (n ≤ 0xff) then 0xcc :: be_bytes 1 n
  else if decide (n ≤ 0xffff) then 0xcd :: be_bytes 2 n
  else if decide (n ≤ 0xffffffff) then 0xce :: be_bytes 4 n
  else 0xcf :: be_bytes 8 n.

Definition write_i (n : Z) : bytes :=
  if decide (0 ≤ n) then write_u n
  else if decide (-32 ≤ n) then be_bytes 1 n
  else if decide (-128 ≤ n) then 0xd0 :: be_bytes 1 n
  else if decide (-32768 ≤ n) then 0xd1 :: be_bytes 2 n
  else if decide (-2147483648 ≤ n) then 0xd2 :: be_bytes 4 n
  else 0xd3 :: be_bytes 8 n.

(** The length headers of the four variable-size shapes. *)
Definition str_header (n : Z) : bytes :=
  if decide (n < 32) then [Z.lor 0xa0 n]
  else if decide (n ≤ 0xff) then 0xd9 :: be_bytes 1 n
  else if decide (n ≤ 0xffff) then 0xda :: be_bytes 2 n
  else 0xdb :: be_bytes 4 n.
Definition bin_header (n : Z) : bytes :=
  if decide (n ≤ 0xff) then 0xc4 :: be_bytes 1 n
  else if decide (n ≤ 0xffff) then 0xc5 :: be_bytes 2 n
  else 0xc6 :: be_bytes 4 n.
Definition array_header (n : Z) : bytes :=
  if decide (n < 16) then [Z.lor 0x90 n]
  else if decide (n ≤ 0xffff) then 0xdc :: be_bytes 2 n
  else 0xdd :: be_bytes 4 n.
Definition map_header (n : Z) : bytes :=
  if decide (n < 16) then [Z.lor 0x80 n]
  else if decide (n ≤ 0xffff) then 0xde :: be_bytes 2 n
  else 0xdf :: be_bytes 4 n.

Definition len_of {A} (l : list A) : Z := Z.of_nat (length l).

Definition encode_str (s : bytes) : bytes := str_header (len_of s) ++ s.

Fixpoint encode (v : Value) : bytes :=
  match v with
  | Nil => [0xc0]
  | Bool false => [0xc2]
  | Bool true => [0xc3]
  | Int n => write_i n
  | F64 f => 0xcb :: be_bytes 8 f
  | Str s => encode_str s
  | Bin b => bin_header (len_of b) ++ b
  | Array a => array_header (len_of a) ++ flat_map encode a
  | Map m => map_header (len_of m) ++ flat_map (λ kv, write_i kv.1 ++ encode kv.2) m
  | StrMap m => map_header (len_of m) ++ flat_map (λ kv, encode_str kv.1 ++ encode kv.2) m
  end.

(** ** UTF-8

    [String::from_utf8_lossy]: each maximal invalid prefix becomes U+FFFD.
    [utf8_seq] reads one sequence: whether it is a character and its length. *)
Definition in_range (lo hi b : Z) : bool := (lo <=? b) && (b <=? hi).
Definition cont (o : option Z) : bool :=
  match o with Some b => in_range 0x80 0xbf b | None => false end.

Definition utf8_seq (b : Z) (l : bytes) : bool * nat :=
  let second := l !! 0%nat in
  let second_in lo hi := match second with Some c => in_range lo hi c | None => false end in
  let three ok := if ok : bool then (if cont (l !! 1%nat) then (true, 3%nat) else (false, 2%nat))
                  else (false, 1%nat) in
  let four ok :=
    if ok : bool then
      if cont (l !! 1%nat) then
        if cont (l !! 2%nat) then (true, 4%nat) else (false, 3%nat)
      else (false, 2%nat)
    else (false, 1%nat) in
  if b <? 0x80 then (true, 1%nat)
  else if in_range 0xc2 0xdf b then (if cont second then (true, 2%nat) else (false, 1%nat))
  else if b =? 0xe0 then three (second_in 0xa0 0xbf)
  else if in_range 0xe1 0xec b then three (second_in 0x80 0xbf)
  else if b =? 0xed then three (second_in 0x80 0x9f)
  else if in_range 0xee 0xef b then three (second_in 0x80 0xbf)
  else if b =? 0xf0 then four (second_in 0x90 0xbf)
  else if in_range 0xf1 0xf3 b then four (second_in 0x80 0xbf)
  else if b =? 0xf4 then four (second_in 0x80 0x8f)
  else (false, 1%nat).

(** The sequences of [l], each with its verdict; [length l] is enough fuel. *)
Fixpoint utf8_chunks (fuel : nat) (l : bytes) : list (bool * bytes) :=
  match fuel, l with
  | O, _ | _, [] => []
  | S f, b :: l' =>
      let '(ok, k) := utf8_seq b l' in
      (ok, take k l) :: utf8_chunks f (drop k l)
  end.

Definition from_utf8_lossy (l : bytes) : bytes :=
  flat_map (λ c : bool * bytes, if c.1 then c.2 else [0xef; 0xbf; 0xbd]) (utf8_chunks (length l) l).

(** The bytes of a Rust [String]. *)
Definition utf8_ok (l : bytes) : bool := forallb fst (utf8_chunks (length l) l).

(** ** Decoding *)

(** [BTreeMap::insert]. *)
Fixpoint map_insert (k : Z) (v : Value) (m : list (Z * Value)) : list (Z * Value) :=
  match m with
  | [] => [(k, v)]
  | (k', v') :: m' =>
      if decide (k < k') then (k, v) :: m
      else if decide (k = k') then (k, v) :: m'
      else (k', v') :: map_insert k v m'
  end.
(** [BTreeMap::get]. *)
Fixpoint map_get (k : Z) (m : list (Z * Value)) : option Value :=
  match m with
  | [] => None
  | (k', v') :: m' => if decide (k = k') then Some v' else map_get k m'
  end.

(** ** Bounded reads

    The bound check and the slice of a [take(n)] at index [i] of [b], on a machine
    whose [usize] has [W] bits: the addition wraps (with overflow checks compiled
    in it panics instead; so does the slice here, its end being below its start). *)
Definition usize_add (W x y : Z) : Z := (x + y) mod 2 ^ W.
Definition take_bytes (W : Z) (err : string) (b : bytes) (i n : Z) : res (bytes * Z) :=
  if decide (usize_add W i n > len_of b) then Err err
  else
    s ← slice b (Z.to_nat i) (Z.to_nat (usize_add W i n));
    mret (s, usize_add W i n).

Section parser.
(** [usize] has [W] bits; [b] is the input. *)
Context (W : Z) (b : bytes).

(** The state is the index [i]; every operation returns the index it leaves. *)
Definition ptake (i n : Z) : res (bytes * Z) :=
  take_bytes W "unexpected end of msgpack input" b i n.

Definition pu8 (i : Z) : res (Z * Z) :=
  '(s, i) ← ptake i 1; c ← index s 0; mret (c, i).
(** [be16], [be32], [be64]: [n] bytes, big-endian. *)
Definition pbe (n : nat) (i : Z) : res (Z * Z) :=
  '(s, i) ← ptake i (Z.of_nat n); mret (be_val s, i).

Definition str_n (i n : Z) : res (Value * Z) :=
  '(s, i) ← ptake i n; mret (Str (from_utf8_lossy s), i).
Definition bin_n (i n : Z) : res (Value * Z) :=
  '(s, i) ← ptake i n; mret (Bin s, i).

(** [as i8], [as i16], ... of a value read, and the lengths read as [usize]. *)
Definition pint (signed : bool) (n : nat) (i : Z) : res (Value * Z) :=
  '(v, i) ← pbe n i;
  mret (Int (if signed then as_signed (8 * Z.of_nat n) v else v), i).

Definition out_of_fuel : string := "out of fuel".

(** The dispatch of [value] on the first byte [c], with the operations it calls on
    arrays and maps. *)
Definition value_case (array map : Z → Z → res (Value * Z)) (c i : Z) : res (Value * Z) :=
  if decide (c ≤ 0x7f) then mret (Int c, i)
  else if decide (0xe0 ≤ c) then mret (Int (as_signed 8 c), i)
  else if decide (c ≤ 0x8f) then map i (Z.land c 0x0f)
  else if decide (c ≤ 0x9f) then array i (Z.land c 0x0f)
  else if decide (c ≤ 0xbf) then str_n i (Z.land c 0x1f)
  else if decide (c = 0xc0) then mret (Nil, i)
  else if decide (c = 0xc2) then mret (Bool false, i)
  else if decide (c = 0xc3) then mret (Bool true, i)
  else if decide (c = 0xc4) then '(n, i) ← pbe 1 i; bin_n i n
  else if decide (c = 0xc5) then '(n, i) ← pbe 2 i; bin_n i n
  else if decide (c = 0xc6) then '(n, i) ← pbe 4 i; bin_n i n
  else if decide (c = 0xca) then '(w, i) ← pbe 4 i; mret (F64 (f32_as_f64 w), i)
  else if decide (c = 0xcb) then '(w, i) ← pbe 8 i; mret (F64 w, i)
  else if decide (c = 0xcc) then pint false 1 i
  else if decide (c = 0xcd) then pint false 2 i
  else if decide (c = 0xce) then pint false 4 i
  else if decide (c = 0xcf) then pint true 8 i
  else if decide (c = 0xd0) then pint true 1 i
  else if decide (c = 0xd1) then pint true 2 i
  else if decide (c = 0xd2) then pint true 4 i
  else if decide (c = 0xd3) then pint true 8 i
  else if decide (c = 0xd9) then '(n, i) ← pbe 1 i; str_n i n
  else if decide (c = 0xda) then '(n, i) ← pbe 2 i; str_n i n
  else if decide (c = 0xdb) then '(n, i) ← pbe 4 i; str_n i n
  else if decide (c = 0xdc) then '(n, i) ← pbe 2 i; array i n
  else if decide (c = 0xdd) then '(n, i) ← pbe 4 i; array i n
  else if decide (c = 0xde) then '(n, i) ← pbe 2 i; map i n
  else if decide (c = 0xdf) then '(n, i) ← pbe 4 i; map i n
  else Err "unsupported msgpack type".

(** [value], and the loops of [array] and [map] with the elements read so far. *)
Fixpoint value (fuel : nat) (i : Z) {struct fuel} : res (Value * Z) :=
  match fuel with
  | O => Err out_of_fuel
  | S f => '(c, i) ← pu8 i; value_case (parray f) (λ i n, pmap f i n []) c i
  end
with parray (fuel : nat) (i n : Z) {struct fuel} : res (Value * Z) :=
  match fuel with
  | O => Err out_of_fuel
  | S f =>
    if decide (n > len_of b - i) then Err "msgpack array length exceeds remaining input"
    else '(vs, i) ← pelems f i n []; mret (Array vs, i)
  end
with pelems (fuel : nat) (i n : Z) (acc : list Value) {struct fuel} : res (list Value * Z) :=
  match fuel with
  | O => Err out_of_fuel
  | S f =>
    if decide (n ≤ 0) then mret (acc, i)
    else '(v, i) ← value f i; pelems f i (n - 1) (acc ++ [v])
  end
with pmap (fuel : nat) (i n : Z) (acc : list (Z * Value)) {struct fuel} : res (Value * Z) :=
  match fuel with
  | O => Err out_of_fuel
  | S f =>
    if decide (n ≤ 0) then mret (Map acc, i)
    else
      '(k, i) ← value f i;
      match k with
      | Int k =>
          '(v, i) ← value f i;
          pmap f i (n - 1) (map_insert k v acc)
      | _ => Err "non-integer map key"
      end
  end.

(** Enough fuel for [value] on the bytes that remain after [i]: see
    [value_enough_fuel]. *)
Definition fuel_for (i : Z) : nat := (3 * Z.to_nat (len_of b - i) + 3)%nat.
End parser.

(** The equations of the four functions, one step of fuel. *)
Section equations.
Context (W : Z) (b : bytes) (f : nat).
Lemma value_S i : value W b (S f) i =
  '(c, i) ← pu8 W b i; value_case W b (parray W b f) (λ i n, pmap W b f i n []) c i.
Proof. done. Qed.
Lemma parray_S i n : parray W b (S f) i n =
  if decide (n > len_of b - i) then Err "msgpack array length exceeds remaining input"
  else '(vs, i) ← pelems W b f i n []; mret (Array vs, i).
Proof. done. Qed.
Lemma pelems_S i n acc : pelems W b (S f) i n acc =
  if decide (n ≤ 0) then mret (acc, i)
  else '(v, i) ← value W b f i; pelems W b f i (n - 1) (acc ++ [v]).
Proof. done. Qed.
Lemma pmap_S i n acc : pmap W b (S f) i n acc =
  if decide (n ≤ 0) then mret (Map acc, i)
  else
    '(k, i) ← value W b f i;
    match k with
    | Int k => '(v, i) ← value W b f i; pmap W b f i (n - 1) (map_insert k v acc)
    | _ => Err "non-integer map key"
    end.
Proof. done. Qed.
End equations.

Definition decode (W : Z) (b : bytes) : res Value :=
  '(v, _) ← value W b (fuel_for b 0) 0; mret v.

(** ** Examples: the byte strings of the unit tests. *)
Definition ascii (s : string) : bytes := (λ c, Z.of_nat (Ascii.nat_of_ascii c)) <$> String.list_ascii_of_string s.

Example strmap_matches_umsgpack :
  encode (StrMap [(ascii "var_g", Str (ascii "mirrors"))]) =
    [0x81; 0xa5; 0x76; 0x61; 0x72; 0x5f; 0x67; 0xa7; 0x6d; 0x69; 0x72; 0x72; 0x6f; 0x72; 0x73].
Proof. reflexivity. Qed.

(** ** Well-formed values: what the Rust types guarantee, and lengths that fit the
    32-bit headers.  [StrMap] is encode-only. *)
Definition is_i64 (n : Z) : bool := (- 2 ^ 63 <=? n) && (n <? 2 ^ 63).
Definition fits32 {A} (l : list A) : bool := len_of l <? 2 ^ 32.
Definition bytes_okb (l : bytes) : bool := forallb (in_range 0 255) l.
Fixpoint keys_sorted (m : list (Z * Value)) : bool :=
  match m with
  | (k, _) :: ((k', _) :: _) as m' => (k <? k') && keys_sorted m'
  | _ => true
  end.
Fixpoint value_ok (v : Value) : bool :=
  match v with
  | Nil | Bool _ => true
  | Int n => is_i64 n
  | F64 f => (0 <=? f) && (f <? 2 ^ 64)
  | Str s => fits32 s && utf8_ok s
  | Bin b => fits32 b
  | Array a => fits32 a && forallb value_ok a
  | Map m => fits32 m && keys_sorted m && forallb (λ kv, is_i64 kv.1 && value_ok kv.2) m
  | StrMap _ => false
  end.

(** Induction through the nested lists. *)
Section value_ind.
Context (P : Value → Prop).
Hypothesis HNil : P Nil.
Hypothesis HBool : ∀ b, P (Bool b).
Hypothesis HInt : ∀ n, P (Int n).
Hypothesis HF64 : ∀ f, P (F64 f).
Hypothesis HStr : ∀ s, P (Str s).
Hypothesis HBin : ∀ b, P (Bin b).
Hypothesis HArray : ∀ a, Forall P a → P (Array a).
Hypothesis HMap : ∀ m, Forall (λ kv, P kv.2) m → P (Map m).
Hypothesis HStrMap : ∀ m, Forall (λ kv, P kv.2) m → P (StrMap m).
Fixpoint value_nested_ind (v : Value) : P v :=
  match v with
  | Nil => HNil | Bool b => HBool b | Int n => HInt n | F64 f => HF64 f
  | Str s => HStr s | Bin b => HBin b
  | Array a => HArray a ((fix go a := match a return Forall P a with
      | [] => List.Forall_nil _ | v :: a' => @List.Forall_cons _ _ v a' (value_nested_ind v) (go a') end) a)
  | Map m => HMap m ((fix go m := match m return Forall (λ kv : Z * Value, P kv.2) m with
      | [] => List.Forall_nil _
      | (k, v) :: m' => @List.Forall_cons _ _ (k, v) m' (value_nested_ind v) (go m') end) m)
  | StrMap m => HStrMap m ((fix go m := match m return Forall (λ kv : bytes * Value, P kv.2) m with
      | [] => List.Forall_nil _
      | (k, v) :: m' => @List.Forall_cons _ _ (k, v) m' (value_nested_ind v) (go m') end) m)
  end.
End value_ind.

(** ** Lemmas on UTF-8 and maps *)

Lemma utf8_seq_pos b l : (1 ≤ (utf8_seq b l).2)%nat.
Proof. unfold utf8_seq. repeat case_match; cbn; lia. Qed.

Lemma lossy_valid_fuel fuel l : (length l ≤ fuel)%nat →
  forallb fst (utf8_chunks fuel l) = true →
  flat_map (λ c : bool * bytes, if c.1 then c.2 else [0xef; 0xbf; 0xbd]) (utf8_chunks fuel l) = l.
Proof.
  revert l. induction fuel as [|f IH]; intros [|b l]; cbn; try done; [lia|]. intros Hl.
  pose proof (utf8_seq_pos b l) as Hk. destruct (utf8_seq b l) as [ok k]; cbn in *.
  intros [-> H]%andb_true_iff. destruct k as [|k]; [lia|].
  rewrite IH; [|rewrite length_drop; cbn; lia|done]. apply (take_drop (S k) (b :: l)).
Qed.
(** A valid string survives [from_utf8_lossy]. *)
Lemma from_utf8_lossy_valid l : utf8_ok l = true → from_utf8_lossy l = l.
Proof. apply lossy_valid_fuel. lia. Qed.

(** Inserting a key above all others appends. *)
Lemma map_insert_last k v m : Forall (λ kv, kv.1 < k) m → map_insert k v m = m ++ [(k, v)].
Proof.
  induction 1 as [|[k' v'] m Hk _ IH]; [done|]. cbn in *.
  rewrite decide_False, decide_False by lia. by rewrite IH.
Qed.
Lemma keys_sorted_cons k v m : keys_sorted ((k, v) :: m) = true →
  Forall (λ kv, k < kv.1) m ∧ keys_sorted m = true.
Proof.
  revert k v. induction m as [|[k' v'] m IH]; intros k v; [done|].
  intros [Hk%Z.ltb_lt H]%andb_true_iff. split; [|done].
  destruct (IH k' v' H) as [H' _]. constructor; [done|].
  eapply Forall_impl; [done|]. cbn. lia.
Qed.

(** ** Lemmas on the parser *)
Section reads.
Context (W : Z).

Lemma take_bytes_at e (pre s post b : bytes) i n : b = pre ++ s ++ post → i = len_of pre → n = len_of s →
  len_of b < 2 ^ W → take_bytes W e b i n = Ok (s, i + n).
Proof.
  intros Hb -> -> Hl. unfold take_bytes, usize_add, len_of in *.
  assert (length b = length pre + (length s + length post))%nat as E by (subst; len).
  rewrite Z.mod_small by lia. rewrite decide_False by lia.
  rewrite (slice_at pre s post b) by (done || lia). done.
Qed.
Lemma ptake_at (pre s post b : bytes) i n : b = pre ++ s ++ post → i = len_of pre → n = len_of s →
  len_of b < 2 ^ W → ptake W b i n = Ok (s, i + n).
Proof. apply take_bytes_at. Qed.
Lemma pu8_at (pre post b : bytes) c i : b = pre ++ c :: post → i = len_of pre → len_of b < 2 ^ W →
  pu8 W b i = Ok (c, i + 1).
Proof. intros. unfold pu8. by rewrite (ptake_at pre [c] post). Qed.
Lemma pbe_at (pre post b : bytes) n v i : b = pre ++ be_bytes n v ++ post → i = len_of pre →
  len_of b < 2 ^ W → pbe W b n i = Ok (v mod 256 ^ Z.of_nat n, i + Z.of_nat n).
Proof.
  intros. unfold pbe. rewrite (ptake_at pre (be_bytes n v) post);
    [|done..| |done]; [|by unfold len_of; rewrite be_bytes_length].
  res_simpl. by rewrite be_val_be_bytes.
Qed.
Lemma pbe_after (pre post b : bytes) c n v : b = pre ++ (c :: be_bytes n v) ++ post →
  len_of b < 2 ^ W →
  pbe W b n (len_of pre + 1) = Ok (v mod 256 ^ Z.of_nat n, len_of pre + 1 + Z.of_nat n).
Proof.
  intros -> ?. apply (pbe_at (pre ++ [c]) post); [app_norm| |done]. unfold len_of. len.
Qed.
End reads.

Section headers.
Context (W : Z).

Lemma lor_fix (h n k : Z) : 0 ≤ k → 0 ≤ n < 2 ^ k → h mod 2 ^ k = 0 → Z.lor h n = h + n.
Proof.
  intros Hk Hn Hh. assert (Z.land h n = 0) as E;
    [|by rewrite <-Z.lxor_lor, <-Z.add_nocarry_lxor by done].
  apply Z.bits_inj'. intros j Hj. rewrite Z.land_spec, Z.bits_0.
  destruct (decide (j < k)).
  - rewrite <-(Z.mod_pow2_bits_low h k j) by lia. by rewrite Hh, Z.bits_0.
  - rewrite <-(Z.mod_small n (2 ^ k)) by lia.
    by rewrite Z.mod_pow2_bits_high, andb_false_r by lia.
Qed.
Lemma land_fix (h n k m : Z) : 0 ≤ k → 0 ≤ n < 2 ^ k → h mod 2 ^ k = 0 → m = Z.ones k →
  Z.land (h + n) m = n.
Proof.
  intros Hk Hn Hh ->. rewrite Z.land_ones by lia.
  rewrite Z.add_mod, Hh, Z.add_0_l, Z.mod_mod by lia. apply Z.mod_small. lia.
Qed.

Lemma value_at (pre post b : bytes) c f i : b = pre ++ c :: post → i = len_of pre → len_of b < 2 ^ W →
  value W b (S f) i = value_case W b (parray W b f) (λ i n, pmap W b f i n []) c (i + 1).
Proof. intros. rewrite value_S. by erewrite (pu8_at W pre) by done. Qed.

(** The integer forms of the dispatch, by their type byte. *)
Definition int_form (c : Z) : option (bool * nat) :=
  if decide (c = 0xcc) then Some (false, 1%nat) else if decide (c = 0xcd) then Some (false, 2%nat)
  else if decide (c = 0xce) then Some (false, 4%nat) else if decide (c = 0xcf) then Some (true, 8%nat)
  else if decide (c = 0xd0) then Some (true, 1%nat) else if decide (c = 0xd1) then Some (true, 2%nat)
  else if decide (c = 0xd2) then Some (true, 4%nat) else if decide (c = 0xd3) then Some (true, 8%nat)
  else None.

Lemma value_int_form (pre post : bytes) c sg k v n f :
  int_form c = Some (sg, k) → len_of (pre ++ (c :: be_bytes k v) ++ post) < 2 ^ W →
  (if sg then as_signed (8 * Z.of_nat k) (v mod 256 ^ Z.of_nat k) else v mod 256 ^ Z.of_nat k) = n →
  value W (pre ++ (c :: be_bytes k v) ++ post) (S f) (len_of pre) =
    Ok (Int n, len_of pre + len_of (c :: be_bytes k v)).
Proof.
  intros Hf Hl Hn. erewrite (value_at pre) by done.
  assert (∀ ar mp i, value_case W (pre ++ (c :: be_bytes k v) ++ post) ar mp c i =
    pint W (pre ++ (c :: be_bytes k v) ++ post) sg k i) as ->.
  { intros. unfold int_form in Hf. repeat (case_decide; [simplify_eq; done|]). done. }
  unfold pint. erewrite (pbe_after W pre) by done. res_simpl. rewrite Hn.
  unfold len_of. cbn [length]. rewrite be_bytes_length. do 2 f_equal. lia.
Qed.

Lemma write_u_int (pre post : bytes) n f : 0 ≤ n < 2 ^ 63 → len_of (pre ++ write_u n ++ post) < 2 ^ W →
  value W (pre ++ write_u n ++ post) (S f) (len_of pre) = Ok (Int n, len_of pre + len_of (write_u n)).
Proof.
  intros Hn. unfold write_u. repeat case_decide; intros Hl.
  1: { assert (be_bytes 1 n = [n]) as E. { cbn. by rewrite Z.div_1_r, Z.mod_small by lia. }
       rewrite E in *. erewrite (value_at pre) by done. unfold value_case. by rewrite decide_True by lia. }
  all: eapply value_int_form; [reflexivity|done|].
  1-3: apply Z.mod_small; cbn; lia.
  apply (as_signed_id 64); lia.
Qed.

Lemma write_i_int (pre post : bytes) n f : is_i64 n = true → len_of (pre ++ write_i n ++ post) < 2 ^ W →
  value W (pre ++ write_i n ++ post) (S f) (len_of pre) = Ok (Int n, len_of pre + len_of (write_i n)).
Proof.
  intros [Hlo%Z.leb_le Hhi%Z.ltb_lt]%andb_true_iff. unfold write_i.
  destruct (decide (0 ≤ n)); [apply write_u_int; lia|]. repeat case_decide; intros Hl.
  1: { assert (be_bytes 1 n = [n mod 256]) as E by (cbn; by rewrite Z.div_1_r). rewrite E in *.
       assert (n mod 256 = n + 256) as E' by (rewrite <-(Z.mod_add n 1 256), Z.mod_small; lia).
       erewrite (value_at pre) by done. unfold value_case.
       rewrite decide_False, decide_True by lia.
       change 256 with (2 ^ 8). by rewrite as_signed_id by lia. }
  all: eapply value_int_form; [reflexivity|done|].
  - apply (as_signed_id 8); lia.
  - apply (as_signed_id 16); lia.
  - apply (as_signed_id 32); lia.
  - apply (as_signed_id 64); lia.
Qed.

(** Each length header leads to its reader with the length it carries. *)
Definition after (pre h : bytes) : Z := len_of pre + len_of h.
Lemma after_fixed pre c : after pre [c] = len_of pre + 1.
Proof. done. Qed.
Lemma after_wide pre c k v : len_of pre + 1 + Z.of_nat k = after pre (c :: be_bytes k v).
Proof. unfold after, len_of. cbn [length]. rewrite be_bytes_length. lia. Qed.

(** Proves the header lemmas: a fixed form with [k] length bits, then the wide ones. *)
Ltac header_value W pre n base k :=
    repeat case_decide; intros Hl;
    [first [erewrite (value_at pre) by done; rewrite (lor_fix base n k) by (done || lia);
            unfold value_case; repeat (rewrite decide_False by lia); rewrite decide_True by lia;
            by rewrite (land_fix base n k) by (done || lia) | idtac]|..];
    erewrite (value_at pre) by done; unfold value_case; repeat (rewrite decide_False by (clear; lia)); rewrite decide_True by done;
    erewrite (pbe_after W pre) by done; res_simpl; rewrite Z.mod_small by (cbn; lia);
    by rewrite after_wide with (c := 0) (v := n).

Lemma str_header_value (pre post : bytes) n f : 0 ≤ n < 2 ^ 32 →
  let b := pre ++ str_header n ++ post in len_of b < 2 ^ W →
  value W b (S f) (len_of pre) = str_n W b (after pre (str_header n)) n.
Proof. intros Hn b. subst b. unfold str_header. header_value W pre n 0xa0 5. Qed.
Lemma bin_header_value (pre post : bytes) n f : 0 ≤ n < 2 ^ 32 →
  let b := pre ++ bin_header n ++ post in len_of b < 2 ^ W →
  value W b (S f) (len_of pre) = bin_n W b (after pre (bin_header n)) n.
Proof. intros Hn b. subst b. unfold bin_header. header_value W pre n 0 0. Qed.
Lemma array_header_value (pre post : bytes) n f : 0 ≤ n < 2 ^ 32 →
  let b := pre ++ array_header n ++ post in len_of b < 2 ^ W →
  value W b (S f) (len_of pre) = parray W b f (after pre (array_header n)) n.
Proof. intros Hn b. subst b. unfold array_header. header_value W pre n 0x90 4. Qed.
Lemma map_header_value (pre post : bytes) n f : 0 ≤ n < 2 ^ 32 →
  let b := pre ++ map_header n ++ post in len_of b < 2 ^ W →
  value W b (S f) (len_of pre) = pmap W b f (after pre (map_header n)) n [].
Proof. intros Hn b. subst b. unfold map_header. header_value W pre n 0x80 4. Qed.
End headers.

(** ** The parser reads back what the encoder wrote *)
Lemma after_app pre h s : after (pre ++ h) s = after pre (h ++ s).
Proof. unfold after, len_of. len. Qed.
Lemma after_len pre h : after pre h = len_of (pre ++ h).
Proof. unfold after, len_of. len. Qed.

Lemma header_pos (h s : bytes) : (0 < length h)%nat → (0 < length (h ++ s))%nat.
Proof. len. Qed.
Lemma write_i_pos n : (0 < length (write_i n))%nat.
Proof. unfold write_i, write_u. repeat case_decide; cbn; lia. Qed.
Lemma encode_pos v : (0 < length (encode v))%nat.
Proof.
  destruct v as [| [] | | | | | | |]; cbn [encode]; try apply write_i_pos; try (cbn; lia);
    apply header_pos; unfold str_header, bin_header, array_header, map_header;
    repeat case_decide; cbn; lia.
Qed.

Section roundtrip.
Context (W : Z) (b : bytes) (Hb : len_of b < 2 ^ W).

Definition reads_back (v : Value) : Prop := ∀ pre post f,
  b = pre ++ encode v ++ post → (3 * length (encode v) ≤ f)%nat → value_ok v = true →
  value W b f (len_of pre) = Ok (v, after pre (encode v)).

Lemma pelems_reads a : Forall reads_back a → ∀ pre post acc f,
  b = pre ++ flat_map encode a ++ post → (3 * length (flat_map encode a) + 1 ≤ f)%nat →
  forallb value_ok a = true →
  pelems W b f (len_of pre) (len_of a) acc = Ok (acc ++ a, after pre (flat_map encode a)).
Proof.
  induction 1 as [|v a Hv _ IH]; intros pre post acc f E Hf Hok; (destruct f as [|f]; [lia|]).
  - cbn. unfold after, len_of. cbn. by rewrite app_nil_r, Z.add_0_r.
  - cbn [forallb] in Hok. apply andb_true_iff in Hok as [Hok1 Hok2].
    cbn [flat_map] in *. rewrite length_app in Hf. pose proof (encode_pos v).
    rewrite pelems_S, decide_False by (unfold len_of; cbn [length]; lia).
    rewrite (Hv pre (flat_map encode a ++ post)) by (done || lia || by rewrite E, <-!app_assoc).
    res_simpl. rewrite after_len.
    replace (len_of (v :: a) - 1) with (len_of a) by (unfold len_of; cbn [length]; lia).
    rewrite (IH (pre ++ encode v) post) by (done || lia || by rewrite E, <-!app_assoc).
    by rewrite after_app, <-app_assoc.
Qed.

Lemma key_reads pre post k f : b = pre ++ write_i k ++ post → is_i64 k = true →
  value W b (S f) (len_of pre) = Ok (Int k, after pre (write_i k)).
Proof. intros E Hk. pose proof Hb as Hb'. rewrite E in *. by apply write_i_int. Qed.

Definition enc_kv (kv : Z * Value) : bytes := write_i kv.1 ++ encode kv.2.
Lemma pmap_reads m : Forall (λ kv, reads_back kv.2) m → ∀ pre post acc f,
  b = pre ++ flat_map enc_kv m ++ post → (3 * length (flat_map enc_kv m) + 1 ≤ f)%nat →
  forallb (λ kv, is_i64 kv.1 && value_ok kv.2) m = true →
  keys_sorted m = true → (∀ kv kv', kv ∈ acc → kv' ∈ m → kv.1 < kv'.1) →
  pmap W b f (len_of pre) (len_of m) acc = Ok (Map (acc ++ m), after pre (flat_map enc_kv m)).
Proof.
  intros Hm. induction Hm as [|[k v] m Hv _ IH]; intros pre post acc f E Hf Hok Hs Hacc;
    (destruct f as [|f]; [lia|]).
  - cbn. unfold after, len_of. cbn. by rewrite app_nil_r, Z.add_0_r.
  - cbn [forallb fst snd] in Hok. apply andb_true_iff in Hok as [[Hk Hok1]%andb_true_iff Hok2].
    apply keys_sorted_cons in Hs as [Hlt Hs]. cbn [flat_map] in *. unfold enc_kv at 1 in Hf. cbn [fst snd] in *.
    rewrite !length_app in Hf. pose proof (encode_pos v). pose proof (write_i_pos k).
    rewrite pmap_S, decide_False by (unfold len_of; cbn [length]; lia).
    destruct f as [|f]; [lia|].
    assert (b = pre ++ write_i k ++ (encode v ++ flat_map enc_kv m ++ post)) as E1
      by (rewrite E; unfold enc_kv at 1; cbn [fst snd]; by rewrite <-!app_assoc).
    rewrite (key_reads pre _ _ f E1 Hk). res_simpl. rewrite after_len.
    rewrite (Hv (pre ++ write_i k) (flat_map enc_kv m ++ post))
      by (done || lia || by rewrite E1, <-!app_assoc).
    res_simpl. rewrite after_len.
    replace (len_of ((k, v) :: m) - 1) with (len_of m) by (unfold len_of; cbn [length]; lia).
    rewrite map_insert_last.
    2: { apply Forall_forall. intros kv Hin. apply (Hacc kv (k, v)); [done|left]. }
    rewrite (IH ((pre ++ write_i k) ++ encode v) post); [| |lia|done..|].
    + rewrite !after_app, <-app_assoc. unfold enc_kv at 2. cbn [fst snd]. by rewrite <-!app_assoc.
    + by rewrite E1, <-!app_assoc.
    + intros kv kv' [Hin|Hin%list_elem_of_singleton]%elem_of_app Hin'; [|subst kv].
      * apply Hacc; [done|by right].
      * rewrite Forall_forall in Hlt. by apply Hlt.
Qed.

Lemma parray_reads a : Forall reads_back a → ∀ pre post f,
  b = pre ++ flat_map encode a ++ post → (3 * length (flat_map encode a) + 2 ≤ f)%nat →
  forallb value_ok a = true →
  parray W b f (len_of pre) (len_of a) = Ok (Array a, after pre (flat_map encode a)).
Proof.
  intros Ha pre post f E Hf Hok. destruct f as [|f]; [lia|].
  assert (length a ≤ length (flat_map encode a))%nat as Hn.
  { clear. induction a as [|v a IH]; cbn; [lia|]. pose proof (encode_pos v). len. }
  rewrite parray_S, decide_False; [|rewrite E; unfold len_of; len].
  by rewrite (pelems_reads _ Ha _ _ [] _ E) by (done || lia).
Qed.

Lemma fits32_range {A} (l : list A) : fits32 l = true → 0 ≤ len_of l < 2 ^ 32.
Proof. unfold fits32, len_of. intros H%Z.ltb_lt. lia. Qed.

(** A header in front of a body: [value] continues with the body's reader. *)
Lemma header_reads (h : bytes) (reader : Z → res (Value * Z)) v body pre post f :
  (∀ pre' post', b = pre' ++ h ++ post' → value W b (S f) (len_of pre') = reader (after pre' h)) →
  (∀ pre', b = pre' ++ body ++ post → reader (len_of pre') = Ok (v, after pre' body)) →
  b = pre ++ (h ++ body) ++ post →
  value W b (S f) (len_of pre) = Ok (v, after pre (h ++ body)).
Proof.
  intros H1 H2 E. rewrite (H1 pre (body ++ post)) by (by rewrite E, <-!app_assoc).
  rewrite after_len, H2 by (by rewrite E, <-!app_assoc). by rewrite after_app.
Qed.

Lemma value_encode v : reads_back v.
Proof.
  induction v as [|[]|n|f64|s|bs|a IH|m IH|m IH] using value_nested_ind;
    intros pre post f E Hf Hok; (destruct f as [|f];
      [match type of Hf with (3 * length (encode ?v) ≤ _)%nat => pose proof (encode_pos v); lia end|]);
    cbn [value_ok] in Hok; try discriminate Hok.
  - by rewrite (value_at W pre post b 0xc0).
  - by rewrite (value_at W pre post b 0xc3).
  - by rewrite (value_at W pre post b 0xc2).
  - by apply (key_reads pre post).
  - apply andb_true_iff in Hok as [H1%Z.leb_le H2%Z.ltb_lt].
    rewrite (value_at W pre (be_bytes 8 f64 ++ post) b 0xcb) by done.
    transitivity ('(w, i) ← pbe W b 8 (len_of pre + 1); mret (F64 w, i)); [done|].
    rewrite (pbe_after W pre post b 0xcb 8 f64) by done. res_simpl.
    by rewrite Z.mod_small, (after_wide pre 0xcb 8 f64) by (cbn; lia).
  - apply andb_true_iff in Hok as [Hs%fits32_range Hu].
    refine (header_reads _ (λ i, str_n W b i (len_of s)) _ _ pre post f _ _ E).
    + intros pre' post' E'. pose proof Hb as Hb'. rewrite E' in *. by apply str_header_value.
    + intros pre' E'. unfold str_n. rewrite (ptake_at W pre' s post) by done. res_simpl.
      by rewrite from_utf8_lossy_valid.
  - apply fits32_range in Hok. refine (header_reads _ (λ i, bin_n W b i (len_of bs)) _ _ pre post f _ _ E).
    + intros pre' post' E'. pose proof Hb as Hb'. rewrite E' in *. by apply bin_header_value.
    + intros pre' E'. unfold bin_n. by rewrite (ptake_at W pre' bs post).
  - apply andb_true_iff in Hok as [Hs%fits32_range Hok]. cbn [encode] in Hf, E |- *.
    refine (header_reads _ (λ i, parray W b f i (len_of a)) _ _ pre post f _ _ E).
    + intros pre' post' E'. pose proof Hb as Hb'. rewrite E' in *. by apply array_header_value.
    + intros pre' E'. apply (parray_reads _ IH _ post); [done| |done].
      revert Hf. unfold array_header. repeat case_decide; cbn [length app]; len.
  - apply andb_true_iff in Hok as [[Hs%fits32_range Hsort]%andb_true_iff Hok].
    cbn [encode] in Hf, E |- *. change (flat_map _ m) with (flat_map enc_kv m) in *.
    refine (header_reads _ (λ i, pmap W b f i (len_of m) []) _ _ pre post f _ _ E).
    + intros pre' post' E'. pose proof Hb as Hb'. rewrite E' in *. by apply map_header_value.
    + intros pre' E'. apply (pmap_reads _ IH _ post []); [done| |done..|set_solver].
      revert Hf. unfold map_header. repeat case_decide; cbn [length app]; len.
Qed.
End roundtrip.

(** ** Every input: progress, enough fuel, and where [take] can panic *)
Section total.
Context (W : Z) (HW : 32 ≤ W) (b : bytes) (Hb : len_of b < 2 ^ W) (Hok : bytes_ok b).

(** What a read from index [i] that consumes at least [k] bytes may do. *)
Definition outcome {A} (k i : Z) (r : res (A * Z)) : Prop :=
  match r with
  | Ok (_, i') => i + k ≤ i' ≤ len_of b
  | Err e => e ≠ out_of_fuel
  | Panic => 2 ^ W < len_of b + 2 ^ 32
  end.

Lemma outcome_bind {A B} k1 k2 i (m : res (A * Z)) (g : A * Z → res (B * Z)) :
  outcome k1 i m → (∀ a i', m = Ok (a, i') → i + k1 ≤ i' ≤ len_of b → outcome k2 i' (g (a, i'))) →
  outcome (k1 + k2) i (m ≫= g).
Proof.
  destruct m as [[a i']| |]; cbn; [|done..]. intros H1 H2. specialize (H2 a i' eq_refl H1).
  destruct (g (a, i')) as [[x j]| |]; cbn in *; [lia|done..].
Qed.
Lemma outcome_weaken {A} k1 k2 i (r : res (A * Z)) : k2 ≤ k1 → outcome k1 i r → outcome k2 i r.
Proof. destruct r as [[x j]| |]; cbn; [lia|done..]. Qed.
Lemma outcome_ret {A} i (a : A) : 0 ≤ i ≤ len_of b → outcome 0 i (mret (a, i)).
Proof. cbn. lia. Qed.

Lemma ptake_outcome i n : 0 ≤ i ≤ len_of b → 0 ≤ n < 2 ^ 32 →
  outcome n i (ptake W b i n) ∧ (∀ s i', ptake W b i n = Ok (s, i') → bytes_ok s ∧ len_of s = n).
Proof.
  intros Hi Hn. assert (2 ^ 32 ≤ 2 ^ W) by (apply Z.pow_le_mono_r; lia).
  unfold ptake, take_bytes, usize_add. case_decide as Hd; [done|].
  destruct (decide (i + n < 2 ^ W)) as [Hs|Hs].
  - rewrite Z.mod_small in * by lia. unfold len_of in *.
    rewrite slice_ok by lia. res_simpl. cbn. split; [unfold len_of; lia|].
    intros s i' [= <- <-]. split; [by apply bytes_ok_take, bytes_ok_drop|].
    rewrite length_take, length_drop. lia.
  - assert ((i + n) mod 2 ^ W = i + n - 2 ^ W) as E.
    { symmetry. apply (Z.mod_unique _ _ 1); lia. }
    rewrite E in *. unfold slice. rewrite decide_False by lia. cbn. split; [lia|done].
Qed.
Lemma pu8_outcome i : 0 ≤ i ≤ len_of b →
  outcome 1 i (pu8 W b i) ∧ (∀ c i', pu8 W b i = Ok (c, i') → is_byte c).
Proof.
  intros Hi. unfold pu8. destruct (ptake_outcome i 1 Hi ltac:(lia)) as [H1 H2].
  destruct (ptake W b i 1) as [[s i']| |]; res_simpl; [|done..].
  destruct (H2 s i' eq_refl) as [Hs Hl]. destruct s as [|c s]; [done|]. cbn. split; [done|].
  intros ?? [= <- <-]. by inversion Hs.
Qed.
Lemma pbe_outcome n i : 0 ≤ i ≤ len_of b → (n ≤ 8)%nat →
  outcome (Z.of_nat n) i (pbe W b n i) ∧
  (∀ v i', pbe W b n i = Ok (v, i') → 0 ≤ v < 256 ^ Z.of_nat n).
Proof.
  intros Hi Hn. unfold pbe. destruct (ptake_outcome i (Z.of_nat n) Hi ltac:(lia)) as [H1 H2].
  destruct (ptake W b i (Z.of_nat n)) as [[s i']| |]; res_simpl; [|done..]. split; [done|].
  intros v i'' [= <- <-]. destruct (H2 s i' eq_refl) as [Hs Hl].
  apply be_val_bound in Hs. unfold len_of in Hl. by replace n with (length s) by lia.
Qed.

(** Reading a length of [k] bytes and continuing. *)
Lemma length_then k i (g : Z → Z → res (Value * Z)) : 0 ≤ i ≤ len_of b → (k ≤ 4)%nat →
  (∀ i' n, i ≤ i' ≤ len_of b → 0 ≤ n < 2 ^ 32 → outcome 0 i' (g i' n)) →
  outcome 0 i ('(n, i') ← pbe W b k i; g i' n).
Proof.
  intros Hi Hk Hg. destruct (pbe_outcome k i Hi ltac:(lia)) as [H1 H2].
  apply (outcome_weaken (Z.of_nat k + 0)); [lia|]. eapply outcome_bind; [done|].
  intros n i' E Hi'. apply Hg; [lia|]. apply H2 in E. split; [lia|].
  eapply Z.lt_le_trans; [apply E|]. change (2 ^ 32) with (256 ^ 4). apply Z.pow_le_mono_r; lia.
Qed.

Lemma take_then i n (g : bytes → Value) : 0 ≤ i ≤ len_of b → 0 ≤ n < 2 ^ 32 →
  outcome 0 i ('(s, i') ← ptake W b i n; mret (g s, i')).
Proof.
  intros Hi Hn. apply (outcome_weaken (n + 0)); [lia|]. eapply outcome_bind; [by apply ptake_outcome|].
  intros s i' _ ?. apply outcome_ret. lia.
Qed.
Lemma pbe_then k i (g : Z → Value) : 0 ≤ i ≤ len_of b → (k ≤ 8)%nat →
  outcome 0 i ('(w, i') ← pbe W b k i; mret (g w, i')).
Proof.
  intros Hi Hk. apply (outcome_weaken (Z.of_nat k + 0)); [lia|].
  eapply outcome_bind; [by apply pbe_outcome|]. intros s i' _ ?. apply outcome_ret. lia.
Qed.

Lemma value_case_outcome ar mp c i : is_byte c → 0 ≤ i ≤ len_of b →
  (∀ i' n, i ≤ i' ≤ len_of b → 0 ≤ n < 2 ^ 32 → outcome 0 i' (ar i' n)) →
  (∀ i' n, i ≤ i' ≤ len_of b → 0 ≤ n < 2 ^ 32 → outcome 0 i' (mp i' n)) →
  outcome 0 i (value_case W b ar mp c i).
Proof.
  intros Hc Hi Har Hmp.
  assert (∀ m k, m = Z.ones k → 0 ≤ k ≤ 32 → 0 ≤ Z.land c m < 2 ^ 32) as Hland.
  { intros m k -> Hk. rewrite Z.land_ones by lia.
    pose proof (Z.mod_pos_bound c (2 ^ k) ltac:(lia)).
    pose proof (Z.pow_le_mono_r 2 k 32 ltac:(lia) ltac:(lia)). lia. }
  unfold value_case. repeat case_decide;
    first [ by apply outcome_ret | apply pbe_then; [done|lia] | apply length_then; [done|lia|]; auto;
            intros; apply take_then; (lia || done) | idtac].
  - apply Hmp; [lia|]. by apply (Hland _ 4).
  - apply Har; [lia|]. by apply (Hland _ 4).
  - apply take_then; [done|]. by apply (Hland _ 5).
  - done.
Qed.

(** The fuel each function needs when [len_of b - i] bytes remain. *)
Definition enough (k : Z) (f : nat) (i : Z) : Prop :=
  0 ≤ i ≤ len_of b ∧ 3 * (len_of b - i) + k ≤ Z.of_nat f.

Lemma fuel_outcomes f :
  (∀ i, enough 1 f i → outcome 1 i (value W b f i)) ∧
  (∀ i n, enough 3 f i → outcome 0 i (parray W b f i n)) ∧
  (∀ i n acc, enough 2 f i → outcome 0 i (pelems W b f i n acc)) ∧
  (∀ i n acc, enough 2 f i → outcome 0 i (pmap W b f i n acc)).
Proof.
  unfold enough. induction f as [|f (IHv & IHa & IHe & IHm)]; [split_and!; intros; lia|].
  split_and!; intros i.
  - intros [Hi Hf]. rewrite value_S. destruct (pu8_outcome i Hi) as [H1 H2].
    change 1 with (1 + 0). eapply outcome_bind; [done|]. intros c i' Hc Hi'.
    apply value_case_outcome; [by eapply H2|lia|..]; intros; [apply IHa|apply IHm]; lia.
  - intros n [Hi Hf]. rewrite parray_S. case_decide; [done|].
    change 0 with (0 + 0). eapply outcome_bind; [apply IHe; lia|].
    intros vs i' _ ?. apply outcome_ret. lia.
  - intros n acc [Hi Hf]. rewrite pelems_S. case_decide; [by apply outcome_ret|].
    apply (outcome_weaken (1 + 0)); [lia|]. eapply outcome_bind; [apply IHv; lia|].
    intros v i' _ ?. apply IHe. lia.
  - intros n acc [Hi Hf]. rewrite pmap_S. case_decide; [by apply outcome_ret|].
    apply (outcome_weaken (1 + 0)); [lia|]. eapply outcome_bind; [apply IHv; lia|].
    intros k i' _ ?. destruct k; try done.
    apply (outcome_weaken (1 + 0)); [lia|]. eapply outcome_bind; [apply IHv; lia|].
    intros v i'' _ ?. apply IHm. lia.
Qed.

Lemma value_enough_fuel f i : 0 ≤ i ≤ len_of b → (fuel_for b i ≤ f)%nat →
  outcome 1 i (value W b f i).
Proof. intros. apply fuel_outcomes. unfold enough, fuel_for in *. lia. Qed.
End total.

Lemma decode_outcome W b : 32 ≤ W → len_of b < 2 ^ W → bytes_ok b →
  match decode W b with
  | Ok _ => True
  | Err e => e ≠ out_of_fuel
  | Panic => 2 ^ W < len_of b + 2 ^ 32
  end.
Proof.
  intros HW Hb Hok. unfold decode.
  pose proof (value_enough_fuel W HW b Hb Hok (fuel_for b 0) 0) as H.
  assert (outcome W b 1 0 (value W b (fuel_for b 0) 0)) as H'
    by (apply H; [unfold len_of; lia|done]).
  by destruct (value W b (fuel_for b 0) 0) as [[v i]| |].
Qed.

Lemma decode_encoded W v rest : value_ok v = true → len_of (encode v ++ rest) < 2 ^ W →
  decode W (encode v ++ rest) = Ok v.
Proof.
  intros Hv Hl. unfold decode. rewrite (value_encode W _ Hl v [] rest); [done..| |done].
  unfold fuel_for, len_of. len.
Qed.

(** ** Properties *)

(** C8: Round trip: decoding the encoding of any well-formed value returns that value,
    whatever bytes follow it, on any machine whose [usize] can index the buffer. *)
Theorem msgpack_roundtrip (W : Z) (v : Value) (rest : bytes)
  (Hv : value_ok v = true) (Hl : len_of (encode v ++ rest) < 2 ^ W) :
  decode W (encode v ++ rest) = Ok v.
Proof. by apply decode_encoded. Qed.
Lemma msgpack_roundtrip_witness :
  let v := Array [F64 0x41d954fc40100000; Bin (ascii "title"); Str (ascii "hi");
                  Map [(-40000, Nil); (12, Array [Int 70000; Bool true])]] in
  value_ok v = true ∧ decode 32 (encode v ++ [1; 2]) = Ok v.
Proof. split; [reflexivity|]. apply msgpack_roundtrip; reflexivity. Defined.

(** The decoder is total on arbitrary bytes where [usize] exceeds any buffer length
    plus a 32-bit length field (every 64-bit host): it returns a value or one of
    its own errors, never panics, and the model never runs out of fuel. *)
Theorem msgpack_decode_total (W : Z) (b : bytes)
  (HW : 32 ≤ W) (Hok : bytes_ok b) (Hl : len_of b + 2 ^ 32 ≤ 2 ^ W) :
  (∃ v, decode W b = Ok v) ∨ (∃ e, decode W b = Err e ∧ e ≠ out_of_fuel).
Proof.
  pose proof (decode_outcome W b HW ltac:(lia) Hok) as H.
  destruct (decode W b) as [v|e|]; [left; eauto|right; eauto|lia].
Qed.
Lemma msgpack_decode_total_witness :
  let b := [0xdd; 255; 255; 255; 255; 1] in
  (∃ v, decode 64 b = Ok v) ∨ (∃ e, decode 64 b = Err e ∧ e ≠ out_of_fuel).
Proof. apply msgpack_decode_total; [lia|repeat constructor; lia|vm_compute; discriminate]. Defined.

(** On the 32-bit target the bound check of [take] adds in 32 bits: any input that
    starts with a [bin32] length of at least [2^32 - 5] makes the decoder panic
    (the range ends before it starts) instead of reporting the end of input. *)
Theorem msgpack_take_wraps_32 (n : Z) (rest : bytes)
  (Hn : 2 ^ 32 - 5 ≤ n < 2 ^ 32) (Hl : len_of rest < 2 ^ 31) :
  decode 32 (0xc6 :: be_bytes 4 n ++ rest) = Panic ∧
  (∃ e, decode 64 (0xc6 :: be_bytes 4 n ++ rest) = Err e).
Proof.
  set (b := 0xc6 :: be_bytes 4 n ++ rest).
  assert (len_of b = 5 + len_of rest) as Eb
    by (unfold b, len_of; cbn [length]; rewrite length_app, be_bytes_length; lia).
  assert (0 ≤ len_of rest) by (unfold len_of; lia).
  assert (∀ W, 32 ≤ W → decode W b = '(v, _) ← bin_n W b 5 n; mret v) as Hd.
  { intros W HW. assert (2 ^ 32 ≤ 2 ^ W) by (apply Z.pow_le_mono_r; lia).
    unfold decode. unfold fuel_for. rewrite Nat.add_succ_r.
    rewrite (value_at W [] (be_bytes 4 n ++ rest) b 0xc6) by (done || lia).
    transitivity ('(v, _) ← ('(n, i) ← pbe W b 4 1; bin_n W b i n); mret v); [done|].
    rewrite (pbe_at W [0xc6] rest b 4 n) by (done || lia). res_simpl.
    rewrite Z.mod_small by (cbn; lia). done. }
  rewrite !Hd by lia. unfold bin_n, ptake, take_bytes, usize_add. split.
  - replace ((5 + n) mod 2 ^ 32) with (5 + n - 2 ^ 32) by (apply (Z.mod_unique _ _ 1); lia).
    rewrite decide_False by lia. unfold slice. by rewrite decide_False by lia.
  - rewrite Z.mod_small by lia. rewrite decide_True by lia. res_simpl. eauto.
Qed.
Lemma msgpack_take_wraps_32_witness :
  decode 32 (0xc6 :: be_bytes 4 (2 ^ 32 - 1) ++ [1]) = Panic ∧
  (∃ e, decode 64 (0xc6 :: be_bytes 4 (2 ^ 32 - 1) ++ [1]) = Err e).
Proof. apply msgpack_take_wraps_32; [lia|reflexivity]. Defined.
