(* ===== verification/Stamp.v ===== *)
(** Proof-of-work stamps ([lxmf/src/stamp.rs]): the vendored SHA-256 compression,
    the workblock, and the mining loop over a saved midstate.

    [sha256_fips] is SHA-256 as FIPS 180-4 defines it (padding, then the
    compression folded over the blocks); the properties relate the streaming
    midstate of [generate_stamp] to it. *)
From S2P Require Import Prelude Constants Crypto Msgpack.

Definition WORKBLOCK_EXPAND_ROUNDS_PN : nat := 1000%nat.
Definition WORKBLOCK_EXPAND_ROUNDS_DELIVERY : nat := 3000%nat.
Definition STAMP_SIZE : nat := 32%nat.

(** ** The compression function, on 32-bit words *)

Definition H0 : list Z :=
  [0x6a09e667; 0xbb67ae85; 0x3c6ef372; 0xa54ff53a; 0x510e527f; 0x9b05688c; 0x1f83d9ab; 0x5be0cd19].

(** One line of the table: eight words, most significant first. *)
Definition row (x : Z) : list Z := (λ i, Z.shiftr x (32 * (7 - Z.of_nat i)) mod 2 ^ 32) <$> seq 0 8.

Definition K : list Z := flat_map row
  [0x428a2f98_71374491_b5c0fbcf_e9b5dba5_3956c25b_59f111f1_923f82a4_ab1c5ed5;
   0xd807aa98_12835b01_243185be_550c7dc3_72be5d74_80deb1fe_9bdc06a7_c19bf174;
   0xe49b69c1_efbe4786_0fc19dc6_240ca1cc_2de92c6f_4a7484aa_5cb0a9dc_76f988da;
   0x983e5152_a831c66d_b00327c8_bf597fc7_c6e00bf3_d5a79147_06ca6351_14292967;
   0x27b70a85_2e1b2138_4d2c6dfc_53380d13_650a7354_766a0abb_81c2c92e_92722c85;
   0xa2bfe8a1_a81a664b_c24b8b70_c76c51a3_d192e819_d6990624_f40e3585_106aa070;
   0x19a4c116_1e376c08_2748774c_34b0bcb5_391c0cb3_4ed8aa4a_5b9cca4f_682e6ff3;
   0x748f82ee_78a5636f_84c87814_8cc70208_90befffa_a4506ceb_bef9a3f7_c67178f2].

Definition u32 (x : Z) : Z := x mod 2 ^ 32.
Definition wadd (x y : Z) : Z := u32 (x + y).
Definition rotr (n x : Z) : Z := Z.lor (Z.shiftr x n) (u32 (Z.shiftl x (32 - n))).
Definition not32 (x : Z) : Z := Z.lxor x 0xffffffff.
Definition word (w : list Z) (i : nat) : Z := default 0 (w !! i).

(** One step of the message schedule: [w[i]] from the words before it. *)
Definition schedule_word (w : list Z) (i : nat) : Z :=
  let a := word w (i - 15) in
  let s0 := Z.lxor (Z.lxor (rotr 7 a) (rotr 18 a)) (Z.shiftr a 3) in
  let c := word w (i - 2) in
  let s1 := Z.lxor (Z.lxor (rotr 17 c) (rotr 19 c)) (Z.shiftr c 10) in
  wadd (wadd (wadd (word w (i - 16)) s0) (word w (i - 7))) s1.

Definition schedule (block : bytes) : list Z :=
  let w16 := (λ i, be_val (take 4 (drop (4 * i) block))) <$> seq 0 16 in
  fold_left (λ w i, w ++ [schedule_word w i]) (seq 16 48) w16.

(** One round on the eight working variables. *)
Definition round (h : list Z) (k w : Z) : list Z :=
  match h with
  | [h0; h1; h2; h3; h4; h5; h6; h7] =>
      let s1 := Z.lxor (Z.lxor (rotr 6 h4) (rotr 11 h4)) (rotr 25 h4) in
      let ch := Z.lxor (Z.land h4 h5) (Z.land (not32 h4) h6) in
      let t1 := wadd (wadd (wadd (wadd h7 s1) ch) k) w in
      let s0 := Z.lxor (Z.lxor (rotr 2 h0) (rotr 13 h0)) (rotr 22 h0) in
      let maj := Z.lxor (Z.lxor (Z.land h0 h1) (Z.land h0 h2)) (Z.land h1 h2) in
      let t2 := wadd s0 maj in
      [wadd t1 t2; h0; h1; h2; wadd h3 t1; h4; h5; h6]
  | _ => h
  end.

Definition compress (state : list Z) (block : bytes) : list Z :=
  let w := schedule block in
  let h := fold_left (λ h i, round h (word K i) (word w i)) (seq 0 64) state in
  zip_with wadd state h.

(** [u32::leading_zeros] of a non-zero word, and the count over the digest. *)
Definition leading_zeros (w : Z) : Z := 31 - Z.log2 w.
Fixpoint digest_leading_zeros (state : list Z) : Z :=
  match state with
  | [] => 0
  | w :: st => if decide (w = 0) then 32 + digest_leading_zeros st else leading_zeros w
  end.

(** ** Workblock and mining *)
Section stamp.
Context `{C : Crypto}.

(** The 256 bytes of round [n]. *)
Definition workblock_round (material : bytes) (n : nat) : res bytes :=
  let salt := full_hash (material ++ encode (Int (Z.of_nat n))) in
  hkdf 256 material (Some salt) None.

Fixpoint stamp_workblock_from (material : bytes) (n rounds : nat) : res bytes :=
  match rounds with
  | O => mret []
  | S r =>
      p ← workblock_round material n;
      rest ← stamp_workblock_from material (S n) r;
      mret (p ++ rest)
  end.
Definition stamp_workblock (material : bytes) (expand_rounds : nat) : res bytes :=
  stamp_workblock_from material 0 expand_rounds.

(** The midstate loop of [generate_stamp]: each round is folded as it is made. *)
Fixpoint midstate_from (material : bytes) (n rounds : nat) (midstate : list Z) : res (list Z) :=
  match rounds with
  | O => mret midstate
  | S r =>
      p ← workblock_round material n;
      midstate_from material (S n) r (fold_left compress (chunks_exact 64 p) midstate)
  end.

(** The final block for a counter value. *)
Definition last_block (expand_rounds : nat) (counter : Z) : bytes :=
  let bit_len := (Z.of_nat (expand_rounds * 256 + STAMP_SIZE) * 8) mod 2 ^ 64 in
  be_bytes 8 counter ++ replicate 24 0 ++ [0x80] ++ replicate 23 0 ++ be_bytes 8 bit_len.

Definition attempt (midstate : list Z) (expand_rounds : nat) (cost counter : Z) : bool :=
  bool_decide (cost ≤ digest_leading_zeros (compress midstate (last_block expand_rounds counter))).

(** The mining loop; [None] is a loop still running when the fuel is spent. *)
Fixpoint mine (fuel : nat) (midstate : list Z) (expand_rounds : nat) (cost counter : Z)
  : option bytes :=
  match fuel with
  | O => None
  | S f =>
      if attempt midstate expand_rounds cost counter
      then Some (take STAMP_SIZE (last_block expand_rounds counter))
      else mine f midstate expand_rounds cost ((counter + 1) mod 2 ^ 64)
  end.

Definition generate_stamp (fuel : nat) (material : bytes) (cost : Z) (expand_rounds : nat)
  : res (option bytes) :=
  midstate ← midstate_from material 0 expand_rounds H0;
  mret (mine fuel midstate expand_rounds cost 0).
End stamp.

(** ** SHA-256 (FIPS 180-4) *)
Definition pad (m : bytes) : bytes :=
  m ++ [0x80] ++ replicate ((55 + (64 - length m mod 64)) mod 64) 0
    ++ be_bytes 8 (8 * Z.of_nat (length m)).
Definition sha256_state (m : bytes) : list Z := fold_left compress (chunks 64 (pad m)) H0.
Definition sha256_fips (m : bytes) : bytes := flat_map (be_bytes 4) (sha256_state m).

(** The NIST vector for ["abc"], and a two-block message. *)
Example sha256_abc : be_val (sha256_fips (ascii "abc")) =
  0xba7816bf8f01cfea414140de5dae2223b00361a396177a9cb410ff61f20015ad.
Proof. vm_compute. reflexivity. Qed.
Example sha256_two_blocks :
  be_val (sha256_fips (ascii "abcdbcdecdefdefgefghfghighijhijkijkljklmklmnlmnomnopnopq")) =
  0x248d6a61d20638b8e5c026930c3e6039a33ce45964ff2167f6ecedd419db06c1.
Proof. vm_compute. reflexivity. Qed.

(** ** Lemmas *)

Definition is_word (w : Z) : Prop := 0 ≤ w < 2 ^ 32.
Definition state_ok (st : list Z) : Prop := length st = 8%nat ∧ Forall is_word st.

Lemma wadd_word x y : is_word (wadd x y).
Proof. apply Z.mod_pos_bound. lia. Qed.
Lemma round_length h k w : length (round h k w) = length h.
Proof. do 9 (destruct h as [|? h]; [done|]). done. Qed.
Lemma rounds_length (ks : nat → Z) (ws : nat → Z) l h :
  length (fold_left (λ h i, round h (ks i) (ws i)) l h) = length h.
Proof. revert h. induction l as [|i l IH]; intros h; cbn; [done|]. by rewrite IH, round_length. Qed.

Lemma compress_ok st b : state_ok st → state_ok (compress st b).
Proof.
  intros [Hl _]. unfold compress. split.
  - rewrite length_zip_with, rounds_length. lia.
  - generalize (fold_left (λ h i, round h (word K i) (word (schedule b) i)) (seq 0 64) st).
    clear. induction st as [|x st IH]; intros [|y h]; cbn; constructor; [apply wadd_word|apply IH].
Qed.
Lemma compress_all_ok bs st : state_ok st → state_ok (fold_left compress bs st).
Proof. revert st. induction bs; cbn; auto using compress_ok. Qed.
Lemma H0_ok : state_ok H0.
Proof. split; [done|]. repeat constructor; lia. Qed.

(** The digest bytes read as an integer, word by word. *)
Lemma be_val_app a b : bytes_ok b → be_val (a ++ b) = be_val a * 256 ^ Z.of_nat (length b) + be_val b.
Proof.
  revert a. induction b as [|x b IH] using rev_ind; intros a Hb.
  - rewrite app_nil_r. cbn. lia.
  - apply bytes_ok_app in Hb as [Hb [Hx _]%bytes_ok_cons].
    rewrite app_assoc, !be_val_snoc, IH, length_app, Nat2Z.inj_add, Z.pow_add_r by (done || lia). cbn. lia.
Qed.
Lemma digest_bytes st : length (flat_map (be_bytes 4) st) = (4 * length st)%nat ∧
  bytes_ok (flat_map (be_bytes 4) st).
Proof.
  induction st as [|w st [IH1 IH2]]; cbn [flat_map]; [split; [done|constructor]|]. split.
  - rewrite length_app, be_bytes_length, IH1. cbn. lia.
  - apply bytes_ok_app. auto with rns.
Qed.

Lemma leading_zeros_bound st c : Forall is_word st → c ≤ digest_leading_zeros st →
  c ≤ 32 * Z.of_nat (length st) →
  be_val (flat_map (be_bytes 4) st) < 2 ^ (32 * Z.of_nat (length st) - c).
Proof.
  intros Hst. revert c. induction Hst as [|w st Hw Hst IH]; intros c Hc Hcl; cbn [flat_map length] in *.
  - cbn in *. apply Z.pow_pos_nonneg; lia.
  - destruct (digest_bytes st) as [Hl Hb].
    rewrite be_val_app, be_val_be_bytes_small, Hl by (done || (unfold is_word in Hw; cbn; lia)).
    replace (256 ^ Z.of_nat (4 * length st)) with (2 ^ (32 * Z.of_nat (length st)))
      by (change 256 with (2 ^ 8); rewrite <-Z.pow_mul_r by lia; f_equal; lia).
    pose proof (be_val_bound _ Hb) as Hv. rewrite Hl in Hv.
    replace (256 ^ Z.of_nat (4 * length st)) with (2 ^ (32 * Z.of_nat (length st))) in Hv
      by (change 256 with (2 ^ 8); rewrite <-Z.pow_mul_r by lia; f_equal; lia).
    cbn [digest_leading_zeros] in Hc. case_decide as Hz.
    + subst w. specialize (IH (c - 32) ltac:(lia) ltac:(lia)).
      replace (32 * Z.of_nat (S (length st)) - c) with (32 * Z.of_nat (length st) - (c - 32)) by lia. lia.
    + unfold leading_zeros in Hc.
      assert (w + 1 ≤ 2 ^ (Z.log2 w + 1)) as Hw'.
      { pose proof (Z.log2_spec w ltac:(unfold is_word in Hw; lia)) as [_ H]. unfold Z.succ in H. lia. }
      pose proof (Z.log2_nonneg w).
      apply Z.lt_le_trans with ((w + 1) * 2 ^ (32 * Z.of_nat (length st))); [lia|].
      apply Z.le_trans with (2 ^ (Z.log2 w + 1) * 2 ^ (32 * Z.of_nat (length st)));
        [apply Z.mul_le_mono_nonneg_r; lia|].
      rewrite <-Z.pow_add_r by lia. apply Z.pow_le_mono_r; lia.
Qed.

Section streaming.
Context `{C : Crypto} `{!KdfOK}.

Lemma workblock_round_ok material n : ∃ p, workblock_round material n = Ok p ∧ length p = 256%nat.
Proof.
  unfold workblock_round, hkdf. rewrite decide_True by lia. eexists. split; [done|].
  apply hkdf_raw_length.
Qed.

(** Folding round by round is folding over the whole workblock. *)
Lemma midstate_streams material n rounds st : ∃ wb,
  stamp_workblock_from material n rounds = Ok wb ∧ length wb = (rounds * 256)%nat ∧
  midstate_from material n rounds st = Ok (fold_left compress (chunks 64 wb) st).
Proof.
  revert n st. induction rounds as [|r IH]; intros n st; [by exists []|].
  cbn [stamp_workblock_from midstate_from].
  destruct (workblock_round_ok material n) as (p & -> & Hp). res_simpl.
  destruct (IH (S n) (fold_left compress (chunks_exact 64 p) st)) as (wb & -> & Hl & ->). res_simpl.
  exists (p ++ wb). split_and!; [done|rewrite length_app; lia|].
  rewrite (chunks_app 64 4), fold_left_app by lia. by rewrite (chunks_exact_multiple 64 4) by lia.
Qed.

Lemma last_block_pad wb rounds c : length wb = (rounds * 256)%nat →
  pad (wb ++ take STAMP_SIZE (last_block rounds c)) = wb ++ last_block rounds c ∧
  length (last_block rounds c) = 64%nat ∧ length (take STAMP_SIZE (last_block rounds c)) = STAMP_SIZE.
Proof.
  intros Hwb.
  assert (take STAMP_SIZE (last_block rounds c) = be_bytes 8 c ++ replicate 24 0) as E.
  { unfold last_block. rewrite app_assoc. change STAMP_SIZE with 32%nat.
    rewrite take_app_le by (rewrite length_app, be_bytes_length; cbn; lia).
    rewrite take_ge; [done|]. rewrite length_app, be_bytes_length. cbn. lia. }
  assert (length (be_bytes 8 c ++ replicate 24 0) = 32%nat) as El
    by (rewrite length_app, be_bytes_length, length_replicate; lia).
  rewrite E. split_and!; [|by unfold last_block; rewrite !length_app, !be_bytes_length|done].
  unfold pad. rewrite (length_app wb), El, Hwb.
  replace ((rounds * 256 + 32) mod 64)%nat with 32%nat.
  2: { replace (rounds * 256 + 32)%nat with (32 + (rounds * 4) * 64)%nat by lia.
       by rewrite Nat.Div0.mod_add. }
  unfold last_block. rewrite <-!app_assoc. do 4 f_equal.
  change ((55 + (64 - 32)) mod 64)%nat with 23%nat. f_equal.
  change STAMP_SIZE with 32%nat. rewrite (Z.mul_comm _ 8).
  generalize (8 * Z.of_nat (rounds * 256 + 32)). clear. intros v.
  rewrite <-(be_bytes_be_val (be_bytes 8 v)), be_val_be_bytes, be_bytes_length by apply be_bytes_ok. done.
Qed.

(** What one attempt computes is the SHA-256 state of workblock and stamp. *)
Lemma attempt_hash wb rounds c : length wb = (rounds * 256)%nat →
  sha256_state (wb ++ take STAMP_SIZE (last_block rounds c)) =
  compress (fold_left compress (chunks 64 wb) H0) (last_block rounds c).
Proof.
  intros Hwb. destruct (last_block_pad wb rounds c Hwb) as (E & El & _).
  unfold sha256_state. rewrite E, (chunks_app 64 (4 * rounds)) by lia.
  by rewrite fold_left_app, (chunks_single 64 (last_block rounds c)) by lia.
Qed.

(** The loop returns the first counter that passes. *)
Lemma mine_sound fuel st rounds cost c0 stamp : mine fuel st rounds cost c0 = Some stamp →
  ∃ c, attempt st rounds cost c = true ∧ stamp = take STAMP_SIZE (last_block rounds c).
Proof.
  revert c0. induction fuel as [|f IH]; intros c0; cbn [mine]; [done|].
  destruct (attempt st rounds cost c0) eqn:E; [|by apply IH]. intros [= <-]. eauto.
Qed.
Lemma mine_finds st rounds cost k c0 fuel : (k < fuel)%nat → 0 ≤ c0 → c0 + Z.of_nat k < 2 ^ 64 →
  attempt st rounds cost (c0 + Z.of_nat k) = true →
  (∀ j, (j < k)%nat → attempt st rounds cost (c0 + Z.of_nat j) = false) →
  mine fuel st rounds cost c0 = Some (take STAMP_SIZE (last_block rounds (c0 + Z.of_nat k))).
Proof.
  revert c0 fuel. induction k as [|k IH]; intros c0 [|fuel] Hf H0' Hlt Hk Hj; cbn [mine]; try lia.
  - rewrite Z.add_0_r in *. by rewrite Hk.
  - assert (attempt st rounds cost c0 = false) as ->
      by (specialize (Hj 0%nat ltac:(lia)); by rewrite Z.add_0_r in Hj).
    rewrite Z.mod_small by lia.
    replace (c0 + Z.of_nat (S k)) with (c0 + 1 + Z.of_nat k) in * by lia.
    apply IH; [lia..|done|]. intros j Hjk. specialize (Hj (S j) ltac:(lia)).
    by replace (c0 + Z.of_nat (S j)) with (c0 + 1 + Z.of_nat j) in Hj by lia.
Qed.
End streaming.

Lemma generate_stamp_valid `{C : Crypto} `{!KdfOK} (fuel rounds : nat) (material stamp : bytes) (cost : Z)
  (Hcost : 0 ≤ cost ≤ 256)
  (Hgen : generate_stamp fuel material cost rounds = Ok (Some stamp)) :
  ∃ wb, stamp_workblock material rounds = Ok wb ∧ length stamp = STAMP_SIZE ∧
    be_val (sha256_fips (wb ++ stamp)) < 2 ^ (256 - cost).
Proof.
  unfold generate_stamp in Hgen. destruct (midstate_streams material 0 rounds H0) as (wb & Hwb & Hl & E).
  rewrite E in Hgen. injection Hgen as (c & Hc%bool_decide_eq_true & ->)%mine_sound.
  exists wb. split; [done|]. split; [by apply (last_block_pad wb)|].
  unfold sha256_fips. rewrite attempt_hash by done.
  destruct (compress_ok _ (last_block rounds c) (compress_all_ok (chunks 64 wb) _ H0_ok)) as [El F].
  pose proof (leading_zeros_bound _ _ F Hc) as Hb. rewrite El in Hb. apply Hb. lia.
Qed.

(** ** Properties *)

(** A stamp returned by the mining loop is valid: SHA-256 of the materialised
    workblock followed by the 32-byte stamp is below [2^(256 - cost)], that is, it
    has [cost] leading zero bits.  The streaming midstate never builds the
    workblock; this shows it computes the same hash. *)
Theorem stamp_meets_cost `{C : Crypto} `{!KdfOK} (fuel rounds : nat) (material stamp : bytes) (cost : Z)
  (Hcost : 0 ≤ cost ≤ 256)
  (Hgen : generate_stamp fuel material cost rounds = Ok (Some stamp)) :
  ∃ wb, stamp_workblock material rounds = Ok wb ∧ length stamp = STAMP_SIZE ∧
    be_val (sha256_fips (wb ++ stamp)) < 2 ^ (256 - cost).
Proof. by eapply generate_stamp_valid. Qed.

(** The mining loop stops: when some 64-bit counter passes, fuel above the first
    such counter makes [generate_stamp] return the stamp of that counter. *)
Theorem stamp_found `{C : Crypto} `{!KdfOK} (rounds k fuel : nat) (material : bytes) (cost : Z)
  (Hk : Z.of_nat k < 2 ^ 64) (Hf : (k < fuel)%nat)
  (Hpass : ∃ st, midstate_from material 0 rounds H0 = Ok st ∧
    attempt st rounds cost (Z.of_nat k) = true ∧
    ∀ j, (j < k)%nat → attempt st rounds cost (Z.of_nat j) = false) :
  generate_stamp fuel material cost rounds = Ok (Some (take STAMP_SIZE (last_block rounds (Z.of_nat k)))).
Proof.
  destruct Hpass as (st & Hst & Hp & Hj). unfold generate_stamp. rewrite Hst. res_simpl.
  do 2 f_equal. apply (mine_finds st rounds cost k 0); auto with lia.
Qed.

Import ToyInstances.
(** Both at one workblock round and one zero bit; the second counter passes. *)
Definition w_stamp : bytes := [0; 0; 0; 0; 0; 0; 0; 1] ++ replicate 24 0.
Lemma stamp_meets_cost_witness :
  ∃ wb, stamp_workblock (replicate 32 1) 1 = Ok wb ∧ length w_stamp = STAMP_SIZE ∧
    be_val (sha256_fips (wb ++ w_stamp)) < 2 ^ (256 - 1).
Proof.
  apply (stamp_meets_cost 10 1 (replicate 32 1) w_stamp 1); [lia|]. vm_compute. reflexivity.
Defined.
Lemma stamp_found_witness :
  generate_stamp 2 (replicate 32 1) 1 1 =
    Ok (Some (take STAMP_SIZE (last_block 1 (Z.of_nat 1)))).
Proof.
  apply stamp_found; [lia|lia|]. eexists. split; [vm_compute; reflexivity|].
  split; [vm_compute; reflexivity|]. intros [|j] Hj; [vm_compute; reflexivity|lia].
Defined.
