(* ===== verification/Message.v ===== *)
(** LXMF messages ([lxmf/src/message.rs]): packing, signing, stamping, the
    propagation envelope, and parsing with signature verification. *)
From S2P Require Import Prelude Constants Crypto Identity Msgpack Stamp.

Definition DEST_LEN : nat := TRUNCATED_HASHLENGTH.
Definition TICKET_LENGTH : nat := TRUNCATED_HASHLENGTH.
Definition FIELD_TICKET : Z := 0x0C.

Definition Fields : Type := list (Z * Value).

(** ** Tickets *)

Record InboundTicket := mkTicket { expires : Z; ticket : bytes }.

(** [is_finite() && > 0.0] on the pattern of a double. *)
Definition f64_finite_pos (bits : Z) : bool := (0 <? bits) && (bits <? Z.shiftl 0x7ff 52).
(** [as u64] of such a double: truncated, saturating. *)
Definition f64_as_u64 (bits : Z) : Z :=
  let e := Z.shiftr bits 52 - 1023 in
  let m := 2 ^ 52 + bits mod 2 ^ 52 in
  if decide (e < 0) then 0
  else if decide (e ≤ 52) then Z.shiftr m (52 - e)
  else if decide (e < 64) then Z.shiftl m (e - 52)
  else 2 ^ 64 - 1.

Definition extract_ticket (fields : Fields) : option InboundTicket :=
  v ← map_get FIELD_TICKET fields;
  arr ← as_array v;
  match arr with
  | a0 :: a1 :: _ =>
      expires ← as_f64 a0;
      if negb (f64_finite_pos expires) then None
      else
        tb ← as_bin a1;
        if decide (length tb = TICKET_LENGTH) then Some (mkTicket (f64_as_u64 expires) tb) else None
  | _ => None
  end.

(** ** Packing *)
Record PackedMessage := mkPacked { message_id : bytes; packed : bytes }.

Definition opportunistic_plaintext (m : PackedMessage) : res bytes := slice_from (packed m) DEST_LEN.

(** The four elements every payload starts with. *)
Definition payload_elems (timestamp : Z) (title content : bytes) (fields : Fields) : list Value :=
  [F64 timestamp; Bin title; Bin content; Map fields].

Definition pack_payload (timestamp : Z) (title content : bytes) (fields : Fields) : bytes :=
  encode (Array (payload_elems timestamp title content fields)).

Section message.
Context `{C : Crypto}.

Definition pack (source : PrivateIdentity) (destination_hash source_hash : bytes) (timestamp : Z)
    (title content : bytes) (fields : Fields) (outbound_ticket : option bytes) : PackedMessage :=
  let packed_payload := pack_payload timestamp title content fields in
  let hashed_part := destination_hash ++ source_hash ++ packed_payload in
  let message_id := full_hash hashed_part in
  let signed_part := hashed_part ++ message_id in
  let signature := sign source signed_part in
  let wire_payload :=
    match outbound_ticket with
    | Some ticket =>
        let stamp := truncated_hash (ticket ++ message_id) in
        encode (Array [F64 timestamp; Bin title; Bin content; Map fields; Bin stamp])
    | None => packed_payload
    end in
  mkPacked message_id (destination_hash ++ source_hash ++ signature ++ wire_payload).

(** [W] is the width of [usize]; [None] is the error ["None"]. *)
Definition append_stamp (W : Z) (packed stamp : bytes) : res bytes :=
  if decide (length packed ≤ 2 * DEST_LEN + SIG_LENGTH)%nat then Err "None"
  else
    head ← slice_to packed (2 * DEST_LEN + SIG_LENGTH);
    payload ← slice_from packed (2 * DEST_LEN + SIG_LENGTH);
    d ← res_ok (decode W payload);
    match d with
    | Some (Array a) =>
        if decide (length a = 4%nat) then mret (head ++ encode (Array (a ++ [Bin stamp])))
        else Err "None"
    | _ => Err "None"
    end.

(** [None] in the result: the stamp is still being mined after [fuel] attempts. *)
Definition pack_propagation (fuel : nat) (recipient : PublicIdentity)
    (recipient_dest_hash plaintext : bytes) (ratchet : option bytes) (eph iv : bytes)
    (transfer_timestamp propagation_cost : Z) : res (option bytes) :=
  pn_encrypted ← encrypt recipient plaintext eph iv ratchet;
  let lxmf_data := recipient_dest_hash ++ pn_encrypted in
  stamp ←
    (if decide (propagation_cost > 0)
     then generate_stamp fuel (full_hash lxmf_data) propagation_cost WORKBLOCK_EXPAND_ROUNDS_PN
     else mret (Some []));
  mret ((λ stamp,
    Msgpack.encode (Array [F64 transfer_timestamp; Array [Bin (lxmf_data ++ stamp)]])) <$> stamp).

(** ** Parsing *)
Record ParsedMessage := mkParsed {
  p_message_id : bytes;
  p_destination_hash : bytes;
  p_source_hash : bytes;
  p_timestamp : Z;
  p_title : bytes;
  p_content : bytes;
  p_fields : Fields;
  p_signature_validated : bool;
}.

Definition title_string (m : ParsedMessage) : bytes := from_utf8_lossy (p_title m).
Definition content_string (m : ParsedMessage) : bytes := from_utf8_lossy (p_content m).

Definition parse (W : Z) (lxmf_bytes : bytes) (source_identity : option PublicIdentity)
  : res ParsedMessage :=
  let header := (2 * DEST_LEN + SIG_LENGTH)%nat in
  if decide (length lxmf_bytes < header)%nat then Err "TooShort"
  else
    d ← slice_to lxmf_bytes DEST_LEN; destination_hash ← copy_exact DEST_LEN d;
    s ← slice lxmf_bytes DEST_LEN (2 * DEST_LEN); source_hash ← copy_exact DEST_LEN s;
    signature ← slice lxmf_bytes (2 * DEST_LEN) header;
    payload ← slice_from lxmf_bytes header;
    unpacked ← res_ok (Msgpack.decode W payload);
    arr ← match unpacked with
          | Some (Array a) => if decide (4 ≤ length a)%nat then Ok a else Err "BadPayload"
          | _ => Err "BadPayload"
          end;
    let stamped := decide (4 < length arr)%nat in
    let arr := if stamped then take 4 arr else arr in
    let packed_payload := if stamped then Msgpack.encode (Array arr) else payload in
    a0 ← index arr 0; timestamp ← ok_or "BadPayload" (as_f64 a0);
    a1 ← index arr 1; let title := default [] (as_bin a1) in
    a2 ← index arr 2; let content := default [] (as_bin a2) in
    a3 ← index arr 3;
    let fields := match a3 with Map m => m | _ => [] end in
    let hashed_part := destination_hash ++ source_hash ++ packed_payload in
    let message_id := full_hash hashed_part in
    let signed_part := hashed_part ++ message_id in
    let signature_validated :=
      match source_identity with Some id => validate id signature signed_part | None => false end in
    mret (mkParsed message_id destination_hash source_hash timestamp title content fields
            signature_validated).
End message.

(** ** Lemmas *)

(** What the types of [pack]'s arguments guarantee, as a well-formed payload. *)
Definition payload_ok (timestamp : Z) (title content : bytes) (fields : Fields) : bool :=
  value_ok (Array (payload_elems timestamp title content fields)).

Section lemmas.
Context `{C : Crypto}.

Definition hashed (dst src : bytes) (ts : Z) (title content : bytes) (fields : Fields) : bytes :=
  dst ++ src ++ pack_payload ts title content fields.
Definition signed (dst src : bytes) (ts : Z) (title content : bytes) (fields : Fields) : bytes :=
  hashed dst src ts title content fields ++ full_hash (hashed dst src ts title content fields).

(** The header of a message splits off, whatever the payload. *)
Lemma header_split (dst src sig payload l : bytes) :
  l = dst ++ src ++ sig ++ payload →
  length dst = DEST_LEN → length src = DEST_LEN → length sig = SIG_LENGTH →
  slice_to l DEST_LEN = Ok dst ∧ slice l DEST_LEN (2 * DEST_LEN) = Ok src ∧
  slice l (2 * DEST_LEN) (2 * DEST_LEN + SIG_LENGTH) = Ok sig ∧
  slice_from l (2 * DEST_LEN + SIG_LENGTH) = Ok payload ∧
  slice_to l (2 * DEST_LEN + SIG_LENGTH) = Ok (dst ++ src ++ sig) ∧
  (2 * DEST_LEN + SIG_LENGTH + length payload = length l)%nat.
Proof.
  intros -> Hd Hs Hg. split_and!.
  - by apply slice_to_app.
  - apply (slice_at dst src (sig ++ payload)); [app_norm|done|lia].
  - apply (slice_at (dst ++ src) sig payload); [app_norm|len|lia].
  - apply (slice_from_at (dst ++ src ++ sig)); [app_norm|len].
  - apply (slice_to_at (dst ++ src ++ sig) payload); [app_norm|len].
  - len.
Qed.

(** Parsing bytes whose payload decodes to a 4-tuple with anything after it: the
    identifier and the verified bytes are those of the bare 4-tuple. *)
Lemma parse_payload W dst src sig payload ts title content fields extra sid :
  length dst = DEST_LEN → length src = DEST_LEN → length sig = SIG_LENGTH →
  decode W payload = Ok (Array (payload_elems ts title content fields ++ extra)) →
  (extra = [] → payload = pack_payload ts title content fields) →
  parse W (dst ++ src ++ sig ++ payload) sid =
    Ok (mkParsed (full_hash (hashed dst src ts title content fields)) dst src ts title content fields
          (match sid with
           | Some id => validate id sig (signed dst src ts title content fields)
           | None => false
           end)).
Proof.
  intros Hd Hs Hg Hdec Hex.
  destruct (header_split dst src sig payload _ eq_refl Hd Hs Hg) as (E1 & E2 & E3 & E4 & _ & El).
  unfold parse. rewrite decide_False by lia. rewrite E1, E2, E3, E4. res_simpl.
  rewrite (copy_exact_ok _ dst) by done. res_simpl.
  rewrite (copy_exact_ok _ src) by done. res_simpl. rewrite Hdec. cbn [res_ok]. res_simpl.
  rewrite decide_True by (unfold payload_elems; cbn; lia). res_simpl.
  destruct extra as [|x extra].
  - rewrite decide_False by (cbn; lia). rewrite (Hex eq_refl). done.
  - rewrite decide_True by (cbn; lia). done.
Qed.

Lemma pack_shape source dst src ts title content fields tk :
  ∃ extra, packed (pack source dst src ts title content fields tk) =
      dst ++ src ++ sign source (signed dst src ts title content fields) ++
      encode (Array (payload_elems ts title content fields ++ extra)) ∧
    message_id (pack source dst src ts title content fields tk) =
      full_hash (hashed dst src ts title content fields) ∧
    (tk = None → extra = []) ∧
    (∀ t, tk = Some t → extra = [Bin (truncated_hash (t ++ full_hash (hashed dst src ts title content fields)))]).
Proof.
  destruct tk as [t|]; eexists; (split; [done|]); (split; [done|]); (split; [done|]).
  - by intros ? [= <-].
  - done.
Qed.

Lemma payload_ok_stamp ts title content fields (stamp : bytes) :
  payload_ok ts title content fields = true → len_of stamp < 2 ^ 32 →
  value_ok (Array (payload_elems ts title content fields ++ [Bin stamp])) = true.
Proof.
  unfold payload_ok. intros [_ H]%andb_true_iff Hs. change (forallb value_ok (payload_elems ts title content fields) = true) in H.
  cbn [value_ok]. apply andb_true_iff. split; [done|]. rewrite forallb_app, H. cbn. unfold fits32. by rewrite (proj2 (Z.ltb_lt _ _) Hs).
Qed.

Lemma envelope_ok tts (data : bytes) : 0 ≤ tts < 2 ^ 64 → len_of data < 2 ^ 32 →
  value_ok (Array [F64 tts; Array [Bin data]]) = true.
Proof.
  intros [H1 H2] H3. cbn [value_ok forallb]. unfold fits32 at 3.
  by rewrite (proj2 (Z.leb_le _ _) H1), (proj2 (Z.ltb_lt _ _) H2), (proj2 (Z.ltb_lt _ _) H3).
Qed.
Lemma truncated_hash_fits `{!HashOK} m : len_of (truncated_hash m) < 2 ^ 32.
Proof. unfold len_of. rewrite truncated_hash_length. wlen. Qed.

(** [append_stamp] past its header checks. *)
Lemma append_stamp_shape W dst src sig p stamp :
  length dst = DEST_LEN → length src = DEST_LEN → length sig = SIG_LENGTH → (0 < length p)%nat →
  append_stamp W (dst ++ src ++ sig ++ p) stamp =
    d ← res_ok (decode W p);
    match d with
    | Some (Array a) => if decide (length a = 4%nat)
        then mret ((dst ++ src ++ sig) ++ encode (Array (a ++ [Bin stamp]))) else Err "None"
    | _ => Err "None"
    end.
Proof.
  intros Hd Hs Hg Hp0. destruct (header_split dst src sig p _ eq_refl Hd Hs Hg) as (_ & _ & _ & E4 & E5 & El).
  unfold append_stamp. rewrite decide_False by lia. by rewrite E4, E5.
Qed.

Lemma stamped_length ts title content fields stamp :
  let el := payload_elems ts title content fields in
  (length (encode (Array (el ++ [Bin stamp]))) ≤ length (encode (Array el)) + length stamp + 5)%nat.
Proof.
  intros el. cbn [encode]. change (array_header (len_of (el ++ [Bin stamp]))) with [0x95].
  change (array_header (len_of el)) with [0x94].
  rewrite flat_map_app, !length_app. cbn [flat_map encode]. rewrite app_nil_r.
  unfold bin_header. repeat case_decide; rewrite length_app; cbn [length];
    rewrite ?be_bytes_length; lia.
Qed.

Lemma decode_whole W v : value_ok v = true → len_of (encode v) < 2 ^ W → decode W (encode v) = Ok v.
Proof.
  intros Hv Hl. rewrite <-(app_nil_r (encode v)). apply decode_encoded; [done|]. by rewrite app_nil_r.
Qed.
(** Our own messages take a stamp, once. *)
Lemma append_stamp_once `{!HashOK, !SigOK} W source dst src ts title content fields stamp :
  length dst = DEST_LEN → length src = DEST_LEN → payload_ok ts title content fields = true → len_of stamp < 2 ^ 32 →
  len_of (packed (pack source dst src ts title content fields None)) + len_of stamp + 7 < 2 ^ W →
  let el := payload_elems ts title content fields in
  let head := dst ++ src ++ sign source (signed dst src ts title content fields) in
  let out := head ++ encode (Array (el ++ [Bin stamp])) in
  packed (pack source dst src ts title content fields None) = head ++ encode (Array el) ∧
  decode W (encode (Array el)) = Ok (Array el) ∧ decode W (encode (Array (el ++ [Bin stamp]))) = Ok (Array (el ++ [Bin stamp])) ∧
  append_stamp W (packed (pack source dst src ts title content fields None)) stamp = Ok out ∧
  ∀ stamp', append_stamp W out stamp' = Err "None".
Proof.
  intros Hd Hs Hp Hst Hl el head out.
  assert (packed (pack source dst src ts title content fields None) = head ++ encode (Array el)) as E.
  { destruct (pack_shape source dst src ts title content fields None) as (extra & E & _ & Hx1 & _).
    rewrite (Hx1 eq_refl), app_nil_r in E. rewrite E. unfold head. by rewrite <-!app_assoc. }
  rewrite E in *. clear E. subst head out. set (sig := sign source _) in *. assert (length sig = SIG_LENGTH) as Hg by apply sign_length.
  assert (value_ok (Array (el ++ [Bin stamp])) = true) as Hv by (by apply payload_ok_stamp).
  pose proof (stamped_length ts title content fields stamp) as Hlen. cbv zeta in Hlen. fold el in Hlen.
  assert (decode W (encode (Array el)) = Ok (Array el)) as D1.
  { apply decode_whole; [done|]. revert Hl. unfold len_of. len. }
  assert (decode W (encode (Array (el ++ [Bin stamp]))) = Ok (Array (el ++ [Bin stamp]))) as D2.
  { apply decode_whole; [done|]. revert Hl. unfold len_of. len. }
  split; [done|]. split; [done|]. split; [done|]. split.
  - rewrite <-!app_assoc, append_stamp_shape, D1 by (done || apply encode_pos). cbn [res_ok]. res_simpl. by rewrite decide_True, <-!app_assoc.
  - intros st'. rewrite <-!app_assoc, append_stamp_shape, D2 by (done || apply encode_pos). cbn [res_ok]. res_simpl. done.
Qed.
End lemmas.

Lemma pack_parse `{C : Crypto} `{!HashOK, !SigOK} (W : Z) (source : PrivateIdentity)
  (dst src : bytes) (ts : Z) (title content : bytes) (fields : Fields) (tk : option bytes)
  (Hid : private_ok source) (Hd : length dst = DEST_LEN) (Hs : length src = DEST_LEN)
  (Hp : payload_ok ts title content fields = true)
  (Hl : len_of (packed (pack source dst src ts title content fields tk)) < 2 ^ W) :
  let m := pack source dst src ts title content fields tk in
  parse W (packed m) (Some (public source)) =
    Ok (mkParsed (message_id m) dst src ts title content fields true).
Proof.
  cbv zeta. destruct (pack_shape source dst src ts title content fields tk)
    as (extra & E & -> & Hx1 & Hx2). rewrite E in *.
  rewrite (parse_payload W _ _ _ _ ts title content fields extra);
    [|done|done|apply sign_length| |].
  - by rewrite sign_validates.
  - apply decode_whole.
    + destruct tk as [t|].
      * rewrite (Hx2 t) by done. apply payload_ok_stamp; [done|apply truncated_hash_fits].
      * rewrite Hx1, app_nil_r by done. exact Hp.
    + revert Hl. unfold len_of. len.
  - intros ->. by rewrite app_nil_r.
Qed.

(** ** Doubles *)

(** An integer below [2^53] survives [as f64] and [as u64]. *)
Lemma i64_f64_u64 e : 0 < e < 2 ^ 53 →
  f64_finite_pos (i64_as_f64 e) = true ∧ f64_as_u64 (i64_as_f64 e) = e.
Proof.
  intros He. pose proof (Z.log2_spec e ltac:(lia)) as [Hlo Hhi]. pose proof (Z.log2_nonneg e).
  assert (Z.log2 e ≤ 52) as Hk by (assert (Z.log2 e < 53) by (apply Z.log2_lt_pow2; lia); lia).
  set (k := Z.log2 e) in *.
  assert (i64_as_f64 e = Z.shiftl (k + 1023) 52 + (Z.shiftl e (52 - k) - 2 ^ 52)) as E.
  { unfold i64_as_f64. rewrite decide_False, decide_False by lia. rewrite Z.abs_eq by lia.
    fold k. by rewrite decide_True by lia. }
  rewrite !Z.shiftl_mul_pow2 in E by lia.
  assert (2 ^ 52 = 2 ^ k * 2 ^ (52 - k)) as Ep by (rewrite <-Z.pow_add_r by lia; f_equal; lia).
  assert (2 ^ 52 ≤ e * 2 ^ (52 - k) < 2 * 2 ^ 52) as Hm.
  { rewrite Ep. unfold Z.succ in Hhi. rewrite Z.pow_add_r in Hhi by lia. nia. }
  set (m := e * 2 ^ (52 - k)) in *. split.
  - unfold f64_finite_pos. rewrite E. rewrite Z.shiftl_mul_pow2 by lia.
    apply andb_true_iff. split; apply Z.ltb_lt; nia.
  - unfold f64_as_u64. rewrite E, Z.shiftr_div_pow2 by lia.
    replace (((k + 1023) * 2 ^ 52 + (m - 2 ^ 52)) / 2 ^ 52) with (k + 1023)
      by (rewrite Z.div_add_l, Z.div_small by lia; lia).
    replace (((k + 1023) * 2 ^ 52 + (m - 2 ^ 52)) mod 2 ^ 52) with (m - 2 ^ 52)
      by (rewrite Z.add_comm, Z.mod_add, Z.mod_small by lia; lia).
    rewrite decide_False, decide_True by lia.
    replace (52 - (k + 1023 - 1023)) with (52 - k) by lia.
    replace (2 ^ 52 + (m - 2 ^ 52)) with m by lia.
    rewrite Z.shiftr_div_pow2 by lia. unfold m. apply Z.div_mul. lia.
Qed.

(** ** Properties *)

(** C6: Pack and parse agree: a message packed by a source and parsed by anyone who
    knows its public identity comes back with the same fields, the same message
    id and a verified signature, with or without a ticket stamp. *)
Theorem message_roundtrip `{C : Crypto} `{!HashOK, !SigOK} (W : Z) (source : PrivateIdentity)
  (dst src : bytes) (ts : Z) (title content : bytes) (fields : Fields) (tk : option bytes)
  (Hid : private_ok source) (Hd : length dst = DEST_LEN) (Hs : length src = DEST_LEN)
  (Hp : payload_ok ts title content fields = true)
  (Hl : len_of (packed (pack source dst src ts title content fields tk)) < 2 ^ W) :
  let m := pack source dst src ts title content fields tk in
  parse W (packed m) (Some (public source)) =
    Ok (mkParsed (message_id m) dst src ts title content fields true).
Proof. by apply pack_parse. Qed.

(** Stamping after packing: appending a stamp to an unstamped message succeeds,
    changes neither what it parses to nor its id and signature verdict, for any
    verifying identity, and a stamped message is refused a second stamp. *)
Theorem append_stamp_transparent `{C : Crypto} `{!HashOK, !SigOK} (W : Z) (source : PrivateIdentity)
  (dst src : bytes) (ts : Z) (title content : bytes) (fields : Fields) (stamp : bytes)
  (sid : option PublicIdentity)
  (Hd : length dst = DEST_LEN) (Hs : length src = DEST_LEN)
  (Hp : payload_ok ts title content fields = true) (Hst : len_of stamp < 2 ^ 32)
  (Hl : len_of (packed (pack source dst src ts title content fields None)) + len_of stamp + 7 < 2 ^ W) :
  let m := pack source dst src ts title content fields None in
  ∃ out, append_stamp W (packed m) stamp = Ok out ∧
    parse W out sid = parse W (packed m) sid ∧
    append_stamp W out stamp = Err "None".
Proof.
  cbv zeta. destruct (append_stamp_once W source dst src ts title content fields stamp Hd Hs Hp Hst Hl) as (E & D1 & D2 & A & B).
  eexists. split; [exact A|]. split; [|apply B]. rewrite E, <-!app_assoc.
  rewrite (parse_payload W dst src _ _ ts title content fields [Bin stamp]) by (done || apply sign_length).
  by rewrite (parse_payload W dst src _ _ ts title content fields []) by (done || apply sign_length).
Qed.

(** Store and forward: the envelope built for a propagation node decodes to the
    transfer time and one blob, which is the recipient's destination hash, a
    ciphertext and, exactly when a cost is asked, a valid 32-byte stamp over the
    rest; the recipient opens the ciphertext and parses a message with the
    sender's id and a verified signature. *)
Theorem propagation_delivers `{C : Crypto} `{!HashOK, !KdfOK, !CipherOK, !DhOK, !SigOK} (W : Z)
  (fuel : nat) (source recipient : PrivateIdentity) (dst src : bytes) (ts : Z)
  (title content : bytes) (fields : Fields) (tk : option bytes) (eph iv : bytes) (tts cost : Z)
  (pt env : bytes)
  (HW : 32 ≤ W) (Hsrc : private_ok source) (Hrcp : private_ok recipient)
  (Hd : length dst = DEST_LEN) (Hs : length src = DEST_LEN)
  (Hp : payload_ok ts title content fields = true) (Htts : 0 ≤ tts < 2 ^ 64)
  (He : length eph = KEY_HALF) (Hiv : length iv = IV_LENGTH)
  (Hpt : opportunistic_plaintext (pack source dst src ts title content fields tk) = Ok pt)
  (Hgen : pack_propagation fuel (public recipient) dst pt None eph iv tts cost = Ok (Some env))
  (Hcost : cost ≤ 256) (Henv : len_of env < 2 ^ 32) (Hlen : len_of (dst ++ pt) < 2 ^ 32) :
  ∃ blob stamp,
    decode W env = Ok (Array [F64 tts; Array [Bin ((dst ++ blob) ++ stamp)]]) ∧
    (if decide (cost > 0)
     then length stamp = STAMP_SIZE ∧
       ∃ wb, stamp_workblock (full_hash (dst ++ blob)) WORKBLOCK_EXPAND_ROUNDS_PN = Ok wb ∧
         be_val (sha256_fips (wb ++ stamp)) < 2 ^ (256 - cost)
     else stamp = []) ∧
    Identity.decrypt recipient blob [] = Ok pt ∧
    parse W (dst ++ pt) (Some (public source)) =
      Ok (mkParsed (message_id (pack source dst src ts title content fields tk))
            dst src ts title content fields true).
Proof.
  destruct (encrypt_opens recipient pt eph iv None [] [] Hrcp He Hiv) as (blob & Hb & Hopen); [done|].
  unfold pack_propagation in Hgen. cbn [fmap option_fmap option_map] in Hb. rewrite Hb in Hgen.
  res_simpl.
  apply res_bind_ok in Hgen as (ostamp & Hst & Hgen).
  destruct ostamp as [stamp|]; [|done].
  apply (f_equal (λ r, match r with Ok (Some x) => x | _ => [] end)) in Hgen.
  change (encode (Array [F64 tts; Array [Bin ((dst ++ blob) ++ stamp)]]) = env) in Hgen. subst env.
  assert (2 ^ 32 ≤ 2 ^ W) by (apply Z.pow_le_mono_r; lia).
  exists blob, stamp. split_and!; [| |done|].
  - apply decode_whole; [|lia]. apply envelope_ok; [done|]. eapply Z.le_lt_trans; [|exact Henv].
    cbn [encode flat_map]. unfold len_of. clear. len.
  - case_decide; [|by injection Hst as <-].
    destruct (generate_stamp_valid fuel _ _ stamp cost ltac:(lia) Hst) as (wb & ? & ? & ?). eauto.
  - assert (dst ++ pt = packed (pack source dst src ts title content fields tk)) as E.
    { unfold opportunistic_plaintext, pack in Hpt. cbn [packed] in Hpt.
      rewrite slice_from_app in Hpt by done. by injection Hpt as <-. }
    rewrite E in *. apply pack_parse; auto with lia.
Qed.

(** A ticket field [[expiry, ticket]] with a whole number of seconds is read back
    exactly (the expiry passes through a double), and a malformed ticket length
    is refused. *)
Theorem ticket_extracted (fields : Fields) (e : Z) (t : bytes) (rest : list Value)
  (He : 0 < e < 2 ^ 53)
  (Hf : map_get FIELD_TICKET fields = Some (Array (Int e :: Bin t :: rest))) :
  extract_ticket fields =
    if decide (length t = TICKET_LENGTH) then Some (mkTicket e t) else None.
Proof.
  unfold extract_ticket. rewrite Hf. cbn [mbind option_bind as_array as_f64 as_bin].
  destruct (i64_f64_u64 e He) as [-> ->]. done.
Qed.

(** ** Witnesses *)
Import ToyInstances.
Definition w_src : PrivateIdentity := from_bytes (replicate 32 5) (replicate 32 6).
Definition w_rcp : PrivateIdentity := from_bytes (replicate 32 7) (replicate 32 8).
Definition w_dst : bytes := replicate 16 0xaa.
Definition w_sh : bytes := replicate 16 0xbb.
Definition w_fields : Fields := [(12, Array [Int 1800000000; Bin (replicate 16 3)])].

Lemma message_roundtrip_witness :
  let m := pack w_src w_dst w_sh 0x41d954fc40000000 (ascii "Hi") (ascii "Hello!") w_fields
             (Some (replicate 16 0x42)) in
  parse 32 (packed m) (Some (public w_src)) =
    Ok (mkParsed (message_id m) w_dst w_sh 0x41d954fc40000000 (ascii "Hi") (ascii "Hello!") w_fields true).
Proof. apply message_roundtrip; [by apply from_bytes_ok|done|done|reflexivity|vm_compute; reflexivity]. Defined.

Lemma append_stamp_transparent_witness :
  let m := pack w_src w_dst w_sh 0x41d954fc40000000 [] (ascii "stamped hi") [] None in
  ∃ out, append_stamp 32 (packed m) (replicate 32 9) = Ok out ∧
    parse 32 out (Some (public w_src)) = parse 32 (packed m) (Some (public w_src)) ∧
    append_stamp 32 out (replicate 32 9) = Err "None".
Proof. apply append_stamp_transparent; [done|done|reflexivity|done|vm_compute; reflexivity]. Defined.

Lemma propagation_delivers_witness :
  let m := pack w_src w_dst w_sh 0x41d954fc40000000 [] (ascii "stored") [] None in
  match opportunistic_plaintext m with
  | Ok pt => ∃ blob stamp env,
      pack_propagation 0 (public w_rcp) w_dst pt None (replicate 32 0x31) (replicate 16 0x32) 7 0 =
        Ok (Some env) ∧
      decode 32 env = Ok (Array [F64 7; Array [Bin ((w_dst ++ blob) ++ stamp)]]) ∧
      Identity.decrypt w_rcp blob [] = Ok pt
  | _ => False
  end.
Proof.
  pose (m := pack w_src w_dst w_sh 0x41d954fc40000000 [] (ascii "stored") [] None).
  pose (pt := drop 16 (packed m)).
  change (∃ blob stamp env,
      pack_propagation 0 (public w_rcp) w_dst pt None (replicate 32 0x31) (replicate 16 0x32) 7 0 =
        Ok (Some env) ∧
      decode 32 env = Ok (Array [F64 7; Array [Bin ((w_dst ++ blob) ++ stamp)]]) ∧
      Identity.decrypt w_rcp blob [] = Ok pt).
  pose (env := match pack_propagation 0 (public w_rcp) w_dst pt None (replicate 32 0x31) (replicate 16 0x32) 7 0
               with Ok (Some e) => e | _ => [] end).
  destruct (propagation_delivers 32 0 w_src w_rcp w_dst w_sh 0x41d954fc40000000 [] (ascii "stored") [] None
    (replicate 32 0x31) (replicate 16 0x32) 7 0 pt env) as (blob & stamp & H1 & _ & H2 & _);
    [lia|by apply from_bytes_ok|by apply from_bytes_ok|done|done|reflexivity|lia|done|done
    |vm_compute; reflexivity|vm_compute; reflexivity|lia|vm_compute; reflexivity|vm_compute; reflexivity|].
  exists blob, stamp, env. split; [vm_compute; reflexivity|]. by split.
Defined.

Lemma ticket_extracted_witness :
  extract_ticket w_fields = if decide (length (replicate 16 3) = TICKET_LENGTH)
    then Some (mkTicket 1800000000 (replicate 16 3)) else None.
Proof. apply (ticket_extracted w_fields 1800000000 (replicate 16 3) []); [lia|reflexivity]. Defined.
