(* ===== verification/ResourceWire.v ===== *)
(** The wire formats of Resource transfers ([reticulum-core/src/resource.rs]): the
    minimal msgpack [Reader], the advertisement and hashmap-update parsers, and
    the writers the sender uses for them. *)
From S2P Require Import Prelude Constants Crypto Msgpack.

Definition DECOMPRESSED_MAX : Z := 256 * 1024.
Definition MAX_TRANSFER_BYTES : Z := 256 * 1024.
Definition RESOURCE_SDU : nat := 464%nat.
Definition MAPHASH_LEN : nat := 4%nat.
Definition RANDOM_HASH_SIZE : nat := 4%nat.
Definition HASHMAP_NOT_EXHAUSTED : Z := 0x00.
Definition HASHMAP_EXHAUSTED : Z := 0xFF.
Definition HASHMAP_MAX_LEN : nat := 74%nat.
Definition WINDOW_START : nat := 4%nat.
Definition WINDOW_MAX : nat := 75%nat.

(** ** Reader *)
Section reader.
(** [usize] has [W] bits; [b] is the input, the state is the index [i]. *)
Context (W : Z) (b : bytes).
Definition as_usize (v : Z) : Z := v mod 2 ^ W.

Definition ru8 (i : Z) : res (Z * Z) :=
  v ← ok_or "msgpack truncated" (b !! Z.to_nat i); mret (v, i + 1).
Definition rtake (i n : Z) : res (bytes * Z) := take_bytes W "msgpack truncated" b i n.
Definition rbe (n : nat) (i : Z) : res (Z * Z) :=
  '(s, i) ← rtake i (Z.of_nat n); mret (be_val s, i).

Definition map_len (i : Z) : res (Z * Z) :=
  '(m, i) ← ru8 i;
  if decide (0x80 ≤ m ≤ 0x8f) then mret (Z.land m 0x0f, i)
  else if decide (m = 0xde) then rbe 2 i
  else if decide (m = 0xdf) then rbe 4 i
  else Err "expected msgpack map".

Definition array_len (i : Z) : res (Z * Z) :=
  '(m, i) ← ru8 i;
  if decide (0x90 ≤ m ≤ 0x9f) then mret (Z.land m 0x0f, i)
  else if decide (m = 0xdc) then rbe 2 i
  else if decide (m = 0xdd) then rbe 4 i
  else Err "expected msgpack array".

Definition str_key (i : Z) : res (bytes * Z) :=
  '(m, i) ← ru8 i;
  '(len, i) ←
    (if decide (0xa0 ≤ m ≤ 0xbf) then mret (Z.land m 0x1f, i)
     else if decide (m = 0xd9) then ru8 i
     else if decide (m = 0xda) then rbe 2 i
     else if decide (m = 0xdb) then rbe 4 i
     else Err "expected msgpack string key");
  rtake i len.

Definition rbin (i : Z) : res (bytes * Z) :=
  '(m, i) ← ru8 i;
  '(len, i) ←
    (if decide (m = 0xc4) then ru8 i
     else if decide (m = 0xc5) then rbe 2 i
     else if decide (m = 0xc6) then rbe 4 i
     else if decide (0xa0 ≤ m ≤ 0xbf) then mret (Z.land m 0x1f, i)
     else Err "expected msgpack bin");
  rtake i len.

Definition ruint (i : Z) : res (Z * Z) :=
  '(m, i) ← ru8 i;
  if decide (m ≤ 0x7f) then mret (m, i)
  else if decide (m = 0xcc) then ru8 i
  else if decide (m = 0xcd) then rbe 2 i
  else if decide (m = 0xce) then rbe 4 i
  else if decide (m = 0xcf) then rbe 8 i
  else if decide (0xe0 ≤ m) then mret (0, i)
  else Err "expected msgpack uint".

(** [skip_value]: [skip_len] is a length read and that many bytes dropped. *)
Definition drop_val {A} (m : res (A * Z)) : res Z := '(_, i) ← m; mret i.
Definition skip_len (m : res (Z * Z)) : res Z := '(l, i) ← m; drop_val (rtake i l).
Definition skip_case (m i : Z) : res Z :=
  if decide (m ≤ 0x7f ∨ 0xe0 ≤ m ∨ m = 0xc0 ∨ m = 0xc2 ∨ m = 0xc3) then mret i
  else if decide (m = 0xcc ∨ m = 0xd0) then drop_val (ru8 i)
  else if decide (m = 0xcd ∨ m = 0xd1) then drop_val (rbe 2 i)
  else if decide (m = 0xce ∨ m = 0xd2) then drop_val (rbe 4 i)
  else if decide (m = 0xcf ∨ m = 0xd3) then drop_val (rbe 8 i)
  else if decide (m = 0xca) then drop_val (rtake i 4)
  else if decide (m = 0xcb) then drop_val (rtake i 8)
  else if decide (0xa0 ≤ m ≤ 0xbf) then drop_val (rtake i (Z.land m 0x1f))
  else if decide (m = 0xd9) then skip_len (ru8 i)
  else if decide (m = 0xda) then skip_len (rbe 2 i)
  else if decide (m = 0xdb) then skip_len (rbe 4 i)
  else if decide (m = 0xc4) then skip_len (ru8 i)
  else if decide (m = 0xc5) then skip_len (rbe 2 i)
  else if decide (m = 0xc6) then skip_len (rbe 4 i)
  else Err "unsupported msgpack value in advertisement".
Definition skip_value (i : Z) : res Z := '(m, i) ← ru8 i; skip_case m i.

(** ** Advertisements *)

(** The mutable variables of [parse_advertisement]'s loop. *)
Record AdvState := mkAdv {
  a_hash : option bytes; a_random : option bytes; a_hashmap : option bytes;
  a_parts : option Z; a_segments : Z; a_flags : Z;
}.
Definition adv_init : AdvState := mkAdv None None None None 1 0.

Definition set_hash st v := mkAdv (Some v) (a_random st) (a_hashmap st) (a_parts st) (a_segments st) (a_flags st).
Definition set_random st v := mkAdv (a_hash st) (Some v) (a_hashmap st) (a_parts st) (a_segments st) (a_flags st).
Definition set_hashmap st v := mkAdv (a_hash st) (a_random st) (Some v) (a_parts st) (a_segments st) (a_flags st).
Definition set_parts st v := mkAdv (a_hash st) (a_random st) (a_hashmap st) (Some v) (a_segments st) (a_flags st).
Definition set_segments st v := mkAdv (a_hash st) (a_random st) (a_hashmap st) (a_parts st) v (a_flags st).
Definition set_flags st v := mkAdv (a_hash st) (a_random st) (a_hashmap st) (a_parts st) (a_segments st) v.

(** One key and its value: h, r, m, n, l, f; the others are skipped. *)
Definition adv_field_value (st : AdvState) (key : bytes) (i : Z) : res (AdvState * Z) :=
  if decide (key = [104]) then '(v, i) ← rbin i; mret (set_hash st v, i)
  else if decide (key = [114]) then '(v, i) ← rbin i; mret (set_random st v, i)
  else if decide (key = [109]) then '(v, i) ← rbin i; mret (set_hashmap st v, i)
  else if decide (key = [110]) then '(v, i) ← ruint i; mret (set_parts st v, i)
  else if decide (key = [108]) then '(v, i) ← ruint i; mret (set_segments st v, i)
  else if decide (key = [102]) then '(v, i) ← ruint i; mret (set_flags st v, i)
  else i ← skip_value i; mret (st, i).
Definition adv_field (st : AdvState) (i : Z) : res (AdvState * Z) :=
  '(key, i) ← str_key i; adv_field_value st key i.

(** The loop: [n] fields; every field reads at least two bytes. *)
Fixpoint adv_loop (fuel : nat) (n : Z) (st : AdvState) (i : Z) : res (AdvState * Z) :=
  if decide (n ≤ 0) then mret (st, i)
  else match fuel with
  | O => Err out_of_fuel
  | S f => '(st, i) ← adv_field st i; adv_loop f (n - 1) st i
  end.

Record Advertisement := mkAdvertisement {
  adv_hash : bytes; adv_random_hash : bytes; adv_parts : Z; adv_hashmap : bytes;
  adv_total_segments : Z; adv_compressed : bool; adv_encrypted : bool;
}.

Definition parse_advertisement : res Advertisement :=
  '(n, i) ← map_len 0;
  '(st, _) ← adv_loop (length b + 1) n adv_init i;
  hash ← ok_or "advertisement missing hash" (a_hash st);
  if decide (length hash ≠ 32%nat) then Err "advertisement hash wrong length"
  else
    h ← copy_exact 32 hash;
    random_hash ← ok_or "advertisement missing random hash" (a_random st);
    parts ← ok_or "advertisement missing part count" (a_parts st);
    hashmap ← ok_or "advertisement missing hashmap" (a_hashmap st);
    mret (mkAdvertisement h random_hash (as_usize parts) hashmap (a_segments st)
            (bool_decide (Z.land (Z.shiftr (a_flags st) 1) 0x01 = 0x01))
            (bool_decide (Z.land (a_flags st) 0x01 = 0x01))).

(** ** Hashmap updates *)
Definition parse_hashmap_update : res (Z * bytes) :=
  '(n, i) ← array_len 0;
  if decide (n < 2) then Err "hashmap update too short"
  else
    '(page, i) ← ruint i;
    '(bs, _) ← rbin i;
    mret (as_usize page, bs).
End reader.

(** ** Writers: the local functions [uint], [bin], [key] of [advertisement] *)
Definition w_uint (v : Z) : bytes :=
  if decide (v < 128) then be_bytes 1 v
  else if decide (v ≤ 0xff) then 0xcc :: be_bytes 1 v
  else if decide (v ≤ 0xffff) then 0xcd :: be_bytes 2 v
  else 0xce :: be_bytes 4 v.
Definition w_bin (b : bytes) : bytes :=
  (if decide (len_of b ≤ 0xff) then 0xc4 :: be_bytes 1 (len_of b) else 0xc5 :: be_bytes 2 (len_of b)) ++ b.
Definition w_key (k : Z) : bytes := [0xa1; k].

(** ** Reading back what was written *)
Section readback.
Context (b : bytes).

(** [m] reads the bytes [enc] as [v], wherever they stand in [b]. *)
Definition reads {A} (m : Z → res (A * Z)) (enc : bytes) (v : A) : Prop :=
  ∀ pre post, b = pre ++ enc ++ post → m (len_of pre) = Ok (v, len_of (pre ++ enc)).

Lemma reads_bind {A B} (m : Z → res (A * Z)) (g : A → Z → res (B * Z)) e1 e2 v w :
  reads m e1 v → reads (g v) e2 w → reads (λ i, '(x, i) ← m i; g x i) (e1 ++ e2) w.
Proof.
  intros H1 H2 pre post E. rewrite (H1 pre (e2 ++ post)) by (by rewrite E, <-!app_assoc).
  res_simpl. rewrite (H2 (pre ++ e1) post) by (by rewrite E, <-!app_assoc). by rewrite <-!app_assoc.
Qed.
Lemma reads_ret {A} (v : A) : reads (λ i, mret (v, i)) [] v.
Proof. intros pre post _. by rewrite app_nil_r. Qed.
Lemma reads_ext {A} (m m' : Z → res (A * Z)) e v : (∀ i, m' i = m i) → reads m e v → reads m' e v.
Proof. intros H Hm pre post E. rewrite H. by eapply Hm. Qed.

Lemma ru8_reads c : reads (ru8 b) [c] c.
Proof.
  intros pre post E. unfold ru8, len_of. rewrite Nat2Z.id.
  assert (b !! length pre = Some c) as -> by (rewrite E; by apply list_lookup_middle). cbn. do 2 f_equal. rewrite length_app. cbn. lia.
Qed.
(** A leading byte, then the branch it selects. *)
Lemma reads_cons {A} (g : Z → Z → res (A * Z)) c e v :
  reads (g c) e v → reads (λ i, '(m, i) ← ru8 b i; g m i) (c :: e) v.
Proof. intros H. apply (reads_bind (ru8 b) g [c] e c v); [apply ru8_reads|done]. Qed.

Context (W : Z) (Hb : len_of b < 2 ^ W).

Lemma rtake_reads s : reads (λ i, rtake W b i (len_of s)) s s.
Proof.
  intros pre post E. unfold rtake. rewrite (take_bytes_at W _ pre s post) by done.
  unfold len_of. do 2 f_equal. rewrite length_app. lia.
Qed.
Lemma rbe_reads n v : 0 ≤ v < 256 ^ Z.of_nat n → reads (rbe W b n) (be_bytes n v) v.
Proof.
  intros Hv pre post E. unfold rbe. pose proof (rtake_reads (be_bytes n v) pre post E) as H.
  cbv beta in H. unfold len_of in H at 2. rewrite be_bytes_length in H. rewrite H. res_simpl.
  by rewrite be_val_be_bytes_small.
Qed.

Lemma byte_bytes v : 0 ≤ v < 256 → be_bytes 1 v = [v].
Proof. intros. cbn. by rewrite Z.div_1_r, Z.mod_small by lia. Qed.

Lemma w_uint_reads v : 0 ≤ v < 2 ^ 32 → reads (ruint W b) (w_uint v) v.
Proof.
  intros Hv. unfold w_uint, ruint. repeat case_decide.
  - rewrite byte_bytes by lia. apply reads_cons. cbv beta.
    destruct (decide (v ≤ 0x7f)); [apply reads_ret|lia].
  - apply reads_cons. rewrite byte_bytes by lia. apply ru8_reads.
  - apply reads_cons. apply rbe_reads. cbn. lia.
  - apply reads_cons. apply rbe_reads. cbn. lia.
Qed.

Lemma w_bin_reads s : len_of s < 2 ^ 16 → reads (rbin W b) (w_bin s) s.
Proof.
  intros Hs. assert (0 ≤ len_of s) by (unfold len_of; lia). unfold w_bin, rbin. case_decide.
  - apply reads_cons. rewrite byte_bytes by lia.
    apply (reads_bind (ru8 b) (λ len i, rtake W b i len) [len_of s] s (len_of s)); [apply ru8_reads|apply rtake_reads].
  - apply reads_cons.
    apply (reads_bind (rbe W b 2) (λ len i, rtake W b i len) (be_bytes 2 (len_of s)) s (len_of s)); [|apply rtake_reads].
    apply rbe_reads. cbn. lia.
Qed.

Lemma w_key_reads k : reads (str_key W b) (w_key k) [k].
Proof.
  unfold str_key, w_key. apply reads_cons.
  apply (reads_bind (λ i, Ok (1, i)) (λ len i, rtake W b i len) [] [k] 1); [apply reads_ret|].
  apply (rtake_reads [k]).
Qed.

(** Skipping: the same reads with the value dropped. *)
Lemma reads_skip {A B} (m : Z → res (A * Z)) enc v (x : B) :
  reads m enc v → reads (λ i, j ← drop_val (m i); mret (x, j)) enc x.
Proof. intros H pre post E. by rewrite (H pre post E). Qed.

Lemma skip_uint_reads {B} v (x : B) : 0 ≤ v < 2 ^ 32 →
  reads (λ i, j ← skip_value W b i; mret (x, j)) (w_uint v) x.
Proof.
  intros Hv. apply (reads_ext (λ i, '(m, i) ← ru8 b i; j ← skip_case W b m i; mret (x, j))).
  { intros i. unfold skip_value. by destruct (ru8 b i) as [[m j]| |]. }
  unfold w_uint. repeat case_decide.
  - rewrite byte_bytes by lia. apply (reads_cons (λ m i, j ← skip_case W b m i; mret (x, j))). 
    apply (reads_ext (λ i, mret (x, i))); [|apply reads_ret].
    intros i. unfold skip_case. by rewrite decide_True by lia.
  - apply (reads_cons (λ m i, j ← skip_case W b m i; mret (x, j))). rewrite byte_bytes by lia.
    apply (reads_skip (ru8 b) _ v), ru8_reads.
  - apply (reads_cons (λ m i, j ← skip_case W b m i; mret (x, j))).
    apply (reads_skip (rbe W b 2) _ v), rbe_reads. cbn. lia.
  - apply (reads_cons (λ m i, j ← skip_case W b m i; mret (x, j))).
    apply (reads_skip (rbe W b 4) _ v), rbe_reads. cbn. lia.
Qed.
Lemma skip_bin_reads {B} s (x : B) : len_of s < 2 ^ 8 →
  reads (λ i, j ← skip_value W b i; mret (x, j)) (w_bin s) x.
Proof.
  intros Hs. assert (0 ≤ len_of s) by (unfold len_of; lia).
  apply (reads_ext (λ i, '(m, i) ← ru8 b i; j ← skip_case W b m i; mret (x, j))).
  { intros i. unfold skip_value. by destruct (ru8 b i) as [[m j]| |]. }
  unfold w_bin. rewrite decide_True by lia. apply (reads_cons (λ m i, j ← skip_case W b m i; mret (x, j))).
  rewrite byte_bytes by lia.
  apply (reads_ext (λ i, j ← drop_val ('(l, i) ← ru8 b i; rtake W b i l); mret (x, j))).
  { intros i. change (skip_case W b 0xc4 i) with (skip_len W b (ru8 b i)).
    unfold skip_len, drop_val. by destruct (ru8 b i) as [[m j]| |]. }
  apply (reads_skip (λ i, '(l, i) ← ru8 b i; rtake W b i l) _ s).
  apply (reads_bind (ru8 b) (λ len i, rtake W b i len) [len_of s] s (len_of s)); [apply ru8_reads|apply rtake_reads].
Qed.
Lemma skip_nil_reads {B} (x : B) : reads (λ i, j ← skip_value W b i; mret (x, j)) [0xc0] x.
Proof.
  apply (reads_ext (λ i, '(m, i) ← ru8 b i; j ← skip_case W b m i; mret (x, j))).
  { intros i. unfold skip_value. by destruct (ru8 b i) as [[m j]| |]. }
  apply (reads_cons (λ m i, j ← skip_case W b m i; mret (x, j))). apply reads_ret.
Qed.
End readback.
