(* ===== verification/Resource.v ===== *)
(** Resource transfers ([reticulum-core/src/resource.rs]): the windowed receiver and
    the sender, with their state and every operation.

    bzip2 is outside the repository: [bz2_read n data] is what reading at most [n]
    bytes from the decoder gives.  [W] is the width of [usize]. *)
From S2P Require Import Prelude Constants Crypto Msgpack ResourceWire.

(** The bzip2 decoder: [None] is a decoding error. *)
Class Bz2 := bz2_read : Z → bytes → option bytes.

Section resource.
Context `{C : Crypto} `{B : Bz2} (W : Z).

Definition decompress_bz2 (data : bytes) : res bytes :=
  match bz2_read (DECOMPRESSED_MAX + 1) data with
  | Some out => if decide (len_of out > DECOMPRESSED_MAX) then Err "decompressed resource too large"
                else Ok out
  | None => Err "resource bz2 decompression failed"
  end.

(** ** Receiver *)
Record ResourceReceiver := mkReceiver {
  rr_hash : bytes;
  rr_random_hash : bytes;
  rr_map_hashes : list (option bytes);
  rr_hashmap_height : nat;
  rr_parts : list (option bytes);
  rr_received : nat;
  rr_consecutive : nat;
  rr_window : nat;
  rr_outstanding : nat;
  rr_waiting_for_hmu : bool;
  rr_encrypted : bool;
  rr_compressed : bool;
}.

Definition accept (adv_plaintext : bytes) : res ResourceReceiver :=
  adv ← parse_advertisement W adv_plaintext;
  if decide (adv_total_segments adv > 1) then Err "multi-segment resource not supported"
  else if decide (adv_parts adv = 0) then Err "resource advertisement has no parts"
  else if decide (adv_parts adv > MAX_TRANSFER_BYTES / Z.of_nat RESOURCE_SDU + 1) then Err "resource too large"
  else
    let parts := Z.to_nat (adv_parts adv) in
    let in_adv := ((length (adv_hashmap adv) / MAPHASH_LEN) `min` parts)%nat in
    if decide (in_adv = 0)%nat then Err "resource advertisement hashmap empty"
    else
      let map_hashes :=
        (λ i, if decide (i < in_adv)%nat
              then Some (take MAPHASH_LEN (drop (i * MAPHASH_LEN) (adv_hashmap adv))) else None)
          <$> seq 0 parts in
      mret (mkReceiver (adv_hash adv) (adv_random_hash adv) map_hashes in_adv
              (replicate parts None) 0 0 WINDOW_START 0 false (adv_encrypted adv) (adv_compressed adv)).

Definition is_complete (r : ResourceReceiver) : bool :=
  bool_decide (rr_received r = length (rr_parts r)).

(** The walk of [next_request] over the indices [js]: the hashes to request, and
    whether it stopped at an unknown one. *)
Fixpoint request_walk (r : ResourceReceiver) (js : list nat) : res (list bytes * bool) :=
  match js with
  | [] => mret ([], false)
  | i :: js' =>
      p ← index (rr_parts r) i;
      match p with
      | Some _ => request_walk r js'
      | None =>
          h ← index (rr_map_hashes r) i;
          match h with
          | Some h => '(hs, ex) ← request_walk r js'; mret (h :: hs, ex)
          | None => mret ([], true)
          end
      end
  end.

(** The indices [a..b]. *)
Definition range (a b : nat) : list nat := seq a (b - a).
Definition window_end (r : ResourceReceiver) : nat :=
  ((rr_consecutive r + rr_window r) `min` length (rr_parts r))%nat.

Definition next_request (r : ResourceReceiver) : res (option bytes * ResourceReceiver) :=
  if is_complete r || rr_waiting_for_hmu r then mret (None, r)
  else
    '(hs, exhausted) ← request_walk r (range (rr_consecutive r) (window_end r));
    let requested := concat hs in
    let r1 := mkReceiver (rr_hash r) (rr_random_hash r) (rr_map_hashes r) (rr_hashmap_height r)
                (rr_parts r) (rr_received r) (rr_consecutive r) (rr_window r) (length hs)
                (rr_waiting_for_hmu r) (rr_encrypted r) (rr_compressed r) in
    if bool_decide (requested = []) && negb exhausted then mret (None, r1)
    else if exhausted then
      o ← index (rr_map_hashes r) (rr_hashmap_height r - 1);
      last ← expect o;
      mret (Some (HASHMAP_EXHAUSTED :: last ++ rr_hash r ++ requested),
            mkReceiver (rr_hash r) (rr_random_hash r) (rr_map_hashes r) (rr_hashmap_height r)
              (rr_parts r) (rr_received r) (rr_consecutive r) (rr_window r) (length hs)
              true (rr_encrypted r) (rr_compressed r))
    else mret (Some (HASHMAP_NOT_EXHAUSTED :: rr_hash r ++ requested), r1).

(** The fill loop of a hashmap update: chunk [k] goes to index [base + k]. *)
Fixpoint fill_hashes (base k : Z) (chunks : list bytes) (mh : list (option bytes)) (height : nat)
  : list (option bytes) * nat :=
  match chunks with
  | [] => (mh, height)
  | c :: cs =>
      let i := usize_add W base k in
      if decide (len_of mh ≤ i) then (mh, height)
      else
        match mh !! Z.to_nat i with
        | Some None => fill_hashes base (k + 1) cs (<[Z.to_nat i := Some c]> mh) (S height)
        | _ => fill_hashes base (k + 1) cs mh height
        end
  end.

Definition receive_hashmap_update (r : ResourceReceiver) (plaintext : bytes) : res ResourceReceiver :=
  if decide (length plaintext < 32)%nat then Err "hashmap update for a different resource"
  else
    head ← slice_to plaintext 32;
    if decide (head ≠ rr_hash r) then Err "hashmap update for a different resource"
    else
      body ← slice_from plaintext 32;
      '(page, bs) ← parse_hashmap_update W body;
      let base := (page * Z.of_nat HASHMAP_MAX_LEN) mod 2 ^ W in
      let '(mh, height) := fill_hashes base 0 (chunks_exact MAPHASH_LEN bs) (rr_map_hashes r)
                             (rr_hashmap_height r) in
      mret (mkReceiver (rr_hash r) (rr_random_hash r) mh height (rr_parts r) (rr_received r)
              (rr_consecutive r) (rr_window r) (rr_outstanding r) false (rr_encrypted r) (rr_compressed r)).

(** The map-hash of a part. *)
Definition part_hash (random_hash part : bytes) : bytes := take MAPHASH_LEN (full_hash (part ++ random_hash)).

(** The first index of the window that carries this map-hash and has no part. *)
Definition find_slot (r : ResourceReceiver) (map_hash : bytes) : option nat :=
  head (filter (λ i, rr_map_hashes r !! i = Some (Some map_hash) ∧ rr_parts r !! i = Some None)
          (range (rr_consecutive r) (window_end r))).

(** [while consecutive < len && parts[consecutive].is_some()]. *)
Fixpoint advance (ps : list (option bytes)) : nat :=
  match ps with Some _ :: ps' => S (advance ps') | _ => 0%nat end.

Definition receive_part (r : ResourceReceiver) (part_data : bytes) : bool * ResourceReceiver :=
  match find_slot r (part_hash (rr_random_hash r) part_data) with
  | None => (false, r)
  | Some i =>
      let parts := <[i := Some part_data]> (rr_parts r) in
      let outstanding := (rr_outstanding r - 1)%nat in
      let consecutive := (rr_consecutive r + advance (drop (rr_consecutive r) parts))%nat in
      let full := bool_decide (outstanding = 0%nat) in
      (full,
       mkReceiver (rr_hash r) (rr_random_hash r) (rr_map_hashes r) (rr_hashmap_height r) parts
         (S (rr_received r)) consecutive
         (if full then (rr_window r + 1) `min` WINDOW_MAX else rr_window r)%nat
         outstanding (rr_waiting_for_hmu r) (rr_encrypted r) (rr_compressed r))
  end.

Definition concat_parts (r : ResourceReceiver) : bytes :=
  flat_map (λ p : option bytes, default [] p) (rr_parts r).

Definition finish (r : ResourceReceiver) (stream_plaintext : bytes) : res (bytes * bytes) :=
  if decide (length stream_plaintext < RANDOM_HASH_SIZE)%nat
  then Err "resource stream shorter than random prefix"
  else
    rest ← slice_from stream_plaintext RANDOM_HASH_SIZE;
    payload ← (if rr_compressed r then decompress_bz2 rest else mret rest);
    if decide (full_hash (payload ++ rr_random_hash r) ≠ rr_hash r) then Err "resource hash mismatch"
    else mret (payload, rr_hash r ++ full_hash (payload ++ rr_hash r)).

(** ** Sender *)
Record ResourceSender := mkSender {
  rs_hash : bytes;
  rs_expected_proof : bytes;
  rs_random_hash : bytes;
  rs_parts : list bytes;
  rs_map_hashes : list bytes;
  rs_data_size : nat;
  rs_transfer_size : nat;
}.

Definition sender_new (data key r prefix iv : bytes) : res ResourceSender :=
  token ← res_expect (Token_new key);
  let ciphertext := encrypt_with_iv token (prefix ++ data) iv in
  let parts := chunks RESOURCE_SDU ciphertext in
  let hash := full_hash (data ++ r) in
  mret (mkSender hash (full_hash (data ++ hash)) r parts (part_hash r <$> parts)
          (length data) (length ciphertext)).

(** A page of the hashmap, concatenated. *)
Definition hashmap_page (s : ResourceSender) (page : nat) : bytes :=
  concat (take HASHMAP_MAX_LEN (drop (page * HASHMAP_MAX_LEN) (rs_map_hashes s))).

Definition advertisement (s : ResourceSender) : bytes :=
  [0x8b]
  ++ w_key 116 ++ w_uint (Z.of_nat (rs_transfer_size s))
  ++ w_key 100 ++ w_uint (Z.of_nat (rs_data_size s))
  ++ w_key 110 ++ w_uint (len_of (rs_parts s))
  ++ w_key 104 ++ w_bin (rs_hash s)
  ++ w_key 114 ++ w_bin (rs_random_hash s)
  ++ w_key 111 ++ w_bin (rs_hash s)
  ++ w_key 105 ++ w_uint 1
  ++ w_key 108 ++ w_uint 1
  ++ w_key 113 ++ [0xc0]
  ++ w_key 102 ++ w_uint 0x01
  ++ w_key 109 ++ w_bin (hashmap_page s 0).

Definition hash_index (s : ResourceSender) (h : bytes) : option nat :=
  position (λ x, bool_decide (x = h)) (rs_map_hashes s).

(** The parts for the wanted map-hashes, in order; unknown ones are skipped. *)
Fixpoint serve (s : ResourceSender) (wanted : list bytes) : res (list bytes) :=
  match wanted with
  | [] => mret []
  | w :: ws =>
      match hash_index s w with
      | Some i => p ← index (rs_parts s) i; ps ← serve s ws; mret (p :: ps)
      | None => serve s ws
      end
  end.

(** The hashmap update after the page that ends at [last_hash]. *)
Definition next_page (s : ResourceSender) (last_hash : bytes) : option bytes :=
  idx ← hash_index s last_hash;
  if decide ((idx + 1) mod HASHMAP_MAX_LEN ≠ 0)%nat then None
  else
    let page := ((idx + 1) / HASHMAP_MAX_LEN)%nat in
    let bs := hashmap_page s page in
    Some (rs_hash s ++ [0x92]
      ++ (if decide (page < 128)%nat then be_bytes 1 (Z.of_nat page) else 0xcd :: be_bytes 2 (Z.of_nat page))
      ++ w_bin bs).

Definition handle_request (s : ResourceSender) (req : bytes) : res (list bytes * option bytes) :=
  match req with
  | [] => mret ([], None)
  | flag :: body =>
      let exhausted := bool_decide (flag = HASHMAP_EXHAUSTED) in
      if decide (length body < (if exhausted then MAPHASH_LEN + 32 else 32))%nat then mret ([], None)
      else
        let last_hash := if exhausted then Some (take MAPHASH_LEN body) else None in
        let body := if exhausted then drop MAPHASH_LEN body else body in
        h ← slice_to body 32;
        if decide (h ≠ rs_hash s) then mret ([], None)
        else
          rest ← slice_from body 32;
          out ← serve s (chunks_exact MAPHASH_LEN rest);
          mret (out, lh ← last_hash; next_page s lh)
  end.

Definition proof_is_valid (s : ResourceSender) (proof_data : bytes) : bool :=
  bool_decide (length proof_data = 64%nat ∧ take 32 proof_data = rs_hash s ∧
               drop 32 proof_data = rs_expected_proof s).
End resource.
