(* ===== verification/ResourceTransfer.v ===== *)
(** A whole Resource transfer: the receiver driven as the client drives it
    ([inbound_resource] of [lxmfchat/src/net.rs]) against the sender of
    [resource.rs], over a lossless in-order link; and the receiver's invariant
    under arbitrary input. *)
From S2P Require Import Prelude Constants Crypto Link Msgpack ResourceWire Resource.

Section transfer.
Context `{C : Crypto} `{B : Bz2} (W : Z).

(** ** The client's handlers: the next request to send, and the new state *)

(** [CONTEXT_RESOURCE]. *)
Definition on_part (r : ResourceReceiver) (p : bytes) : res (option bytes * ResourceReceiver) :=
  let '(window_done, r) := receive_part r p in
  if is_complete r then mret (None, r)
  else if window_done : bool then next_request r
  else mret (None, r).

(** [CONTEXT_RESOURCE_HMU]: a bad update is logged and dropped. *)
Definition on_hmu (r : ResourceReceiver) (plaintext : bytes) : res (option bytes * ResourceReceiver) :=
  match receive_hashmap_update W r plaintext with
  | Ok r => next_request r
  | Err _ => mret (None, r)
  | Panic => Panic
  end.

(** The sender's answer to a request arrives: its parts in order, then its update. *)
Fixpoint on_parts (r : ResourceReceiver) (ps : list bytes) : res (list bytes * ResourceReceiver) :=
  match ps with
  | [] => mret ([], r)
  | p :: ps' =>
      '(o, r) ← on_part r p;
      '(reqs, r) ← on_parts r ps';
      mret (option_list o ++ reqs, r)
  end.
Definition exchange (s : ResourceSender) (r : ResourceReceiver) (req : bytes)
  : res (list bytes * ResourceReceiver) :=
  '(ps, hmu) ← handle_request s req;
  '(reqs, r) ← on_parts r ps;
  match hmu with
  | Some u => '(o, r) ← on_hmu r u; mret (reqs ++ option_list o, r)
  | None => mret (reqs, r)
  end.

(** Requests are answered first in, first out, until none is left. *)
Fixpoint run (fuel : nat) (s : ResourceSender) (r : ResourceReceiver) (queue : list bytes)
  : res ResourceReceiver :=
  match queue, fuel with
  | [], _ => mret r
  | _, O => Err out_of_fuel
  | req :: q, S f => '(reqs, r) ← exchange s r req; run f s r (q ++ reqs)
  end.

(** Advertise, accept, request, and run to the end. *)
Definition transfer (fuel : nat) (s : ResourceSender) : res ResourceReceiver :=
  r ← accept W (advertisement s);
  '(o, r) ← next_request r;
  run fuel s r (option_list o).
End transfer.

(** ** Parsing an advertisement *)
Section advert.
Context (W : Z) (b : bytes) (Hb : len_of b < 2 ^ W).

(** A field is its key and a value read by [rd]. *)
Lemma adv_field_bin st key (v : bytes) st' : len_of v < 2 ^ 16 →
  (∀ i, adv_field_value W b st [key] i = '(x, i) ← rbin W b i; mret (st' x, i)) →
  reads b (adv_field W b st) (w_key key ++ w_bin v) (st' v).
Proof.
  intros Hv Hf. unfold adv_field.
  apply (reads_bind b (str_key W b) (λ k i, adv_field_value W b st k i) _ _ [key]); [by apply w_key_reads|].
  apply (reads_ext b (λ i, '(x, i) ← rbin W b i; mret (st' x, i))); [apply Hf|].
  rewrite <-(app_nil_r (w_bin v)).
  apply (reads_bind b (rbin W b) (λ x i, mret (st' x, i)) _ _ v); [by apply w_bin_reads|apply reads_ret].
Qed.
Lemma adv_field_uint st key v st' : 0 ≤ v < 2 ^ 32 →
  (∀ i, adv_field_value W b st [key] i = '(x, i) ← ruint W b i; mret (st' x, i)) →
  reads b (adv_field W b st) (w_key key ++ w_uint v) (st' v).
Proof.
  intros Hv Hf. unfold adv_field.
  apply (reads_bind b (str_key W b) (λ k i, adv_field_value W b st k i) _ _ [key]); [by apply w_key_reads|].
  apply (reads_ext b (λ i, '(x, i) ← ruint W b i; mret (st' x, i))); [apply Hf|].
  rewrite <-(app_nil_r (w_uint v)).
  apply (reads_bind b (ruint W b) (λ x i, mret (st' x, i)) _ _ v); [by apply w_uint_reads|apply reads_ret].
Qed.
Lemma adv_field_skip st key e :
  (∀ i, adv_field_value W b st [key] i = (i ← skip_value W b i; mret (st, i))) →
  reads b (λ i, i ← skip_value W b i; mret (st, i)) e st →
  reads b (adv_field W b st) (w_key key ++ e) st.
Proof.
  intros Hf He. unfold adv_field.
  apply (reads_bind b (str_key W b) (λ k i, adv_field_value W b st k i) _ _ [key]); [by apply w_key_reads|].
  apply (reads_ext b (λ i, i ← skip_value W b i; mret (st, i))); [apply Hf|done].
Qed.
Lemma adv_loop_step f n st e1 e2 st1 st2 : 0 < n →
  reads b (adv_field W b st) e1 st1 → reads b (adv_loop W b f (n - 1) st1) e2 st2 →
  reads b (adv_loop W b (S f) n st) (e1 ++ e2) st2.
Proof.
  intros Hn H1 H2. apply (reads_ext b (λ i, '(x, i) ← adv_field W b st i; adv_loop W b f (n - 1) x i)).
  { intros i. cbn [adv_loop]. by rewrite decide_False by lia. }
  by apply (reads_bind b _ (λ x i, adv_loop W b f (n - 1) x i) _ _ st1).
Qed.
Lemma adv_loop_done f st : reads b (adv_loop W b f 0 st) [] st.
Proof. intros pre post E. rewrite app_nil_r. by destruct f. Qed.
End advert.

(** ** The states of a lossless transfer *)
Section canonical.
Context `{C : Crypto} `{B : Bz2} (W : Z) (s : ResourceSender) (n : nat).
Abbreviation hs := (rs_map_hashes s).
Abbreviation ps := (rs_parts s).
Context (HW : 32 ≤ W) (Hn : length ps = n) (Hsmall : (n < 74 * 128)%nat).
Context (Hhs : hs = part_hash (rs_random_hash s) <$> ps).
Context (H4 : Forall (λ h, length h = MAPHASH_LEN) hs) (Hnd : NoDup hs).
Context (Hh32 : length (rs_hash s) = 32%nat).

(** A prefix of [l] known, of [n] slots. *)
Definition prefix_known (l : list bytes) (k : nat) : list (option bytes) :=
  (Some <$> take k l) ++ replicate (n - k) None.

(** [c] parts received, [H] map-hashes known. *)
Definition st (c H w out : nat) (wait : bool) : ResourceReceiver :=
  mkReceiver (rs_hash s) (rs_random_hash s) (prefix_known hs H) H (prefix_known ps c) c c w out wait
    true false.

Lemma hs_length : length hs = n.
Proof. by rewrite Hhs, length_fmap. Qed.

Lemma prefix_known_length l k : length l = n → (k ≤ n)%nat → length (prefix_known l k) = n.
Proof. intros. unfold prefix_known. rewrite length_app, length_fmap, length_take, length_replicate. lia. Qed.
Lemma prefix_known_lt l k i x : (i < k)%nat → l !! i = Some x → prefix_known l k !! i = Some (Some x).
Proof.
  intros Hi Hx. unfold prefix_known. apply lookup_lt_Some in Hx as Hl.
  rewrite lookup_app_l by (rewrite length_fmap, length_take; lia).
  by rewrite list_lookup_fmap, lookup_take_lt, Hx by lia.
Qed.
Lemma prefix_known_ge l k i : length l = n → (k ≤ i < n)%nat → prefix_known l k !! i = Some None.
Proof.
  intros Hl Hi. unfold prefix_known.
  rewrite lookup_app_r by (rewrite length_fmap, length_take; lia).
  apply lookup_replicate. rewrite length_fmap, length_take. split; [done|lia].
Qed.
Lemma prefix_known_insert l k x : length l = n → l !! k = Some x →
  <[k := Some x]> (prefix_known l k) = prefix_known l (S k).
Proof.
  intros Hl Hx. apply lookup_lt_Some in Hx as Hk. unfold prefix_known.
  rewrite (take_S_r l k x), fmap_app, <-app_assoc by done. cbn.
  replace (n - k)%nat with (S (n - S k)) by lia. cbn [replicate].
  rewrite insert_app_r_alt by (rewrite length_fmap, length_take; lia).
  by replace (k - length (Some <$> take k l))%nat with 0%nat
    by (rewrite length_fmap, length_take; lia).
Qed.
Lemma prefix_known_advance l k : length l = n → (k < n)%nat →
  advance (drop k (prefix_known l (S k))) = 1%nat.
Proof.
  intros Hl Hk. destruct (lookup_lt_is_Some_2 l k) as [x Hx]; [lia|].
  unfold prefix_known. rewrite (take_S_r l k x), fmap_app, <-app_assoc by done.
  rewrite drop_app_ge by (rewrite length_fmap, length_take; lia).
  replace (k - length (Some <$> take k l))%nat with 0%nat by (rewrite length_fmap, length_take; lia).
  cbn. by destruct (n - S k)%nat.
Qed.

(** ** Requests *)

Lemma request_walk_st c H w out wait m a : (c ≤ a)%nat → (a ≤ H)%nat → (H ≤ n)%nat → (a + m ≤ n)%nat →
  request_walk (st c H w out wait) (seq a m) =
    Ok (take ((a + m) `min` H - a) (drop a hs), bool_decide (H < a + m)%nat).
Proof.
  revert a. induction m as [|m IH]; intros a Hc Ha HH Hm; cbn [seq request_walk].
  - replace ((a + 0) `min` H - a)%nat with 0%nat by lia. by rewrite bool_decide_eq_false_2 by lia.
  - unfold index. cbn [st rr_parts rr_map_hashes].
    rewrite (prefix_known_ge ps c a) by lia. cbn [expect]. res_simpl.
    destruct (decide (a < H)%nat).
    + destruct (lookup_lt_is_Some_2 hs a) as [h Hh]; [rewrite hs_length; lia|].
      rewrite (prefix_known_lt hs H a h) by done. cbn [expect]. res_simpl.
      rewrite IH by lia. res_simpl.
      rewrite (drop_S hs h a) by done.
      replace ((a + S m) `min` H - a)%nat with (S ((S a + m) `min` H - S a)) by lia. cbn [take].
      do 2 f_equal. apply bool_decide_ext. lia.
    + rewrite (prefix_known_ge hs H a) by (rewrite ?hs_length; lia). cbn [expect]. res_simpl.
      replace ((a + S m) `min` H - a)%nat with 0%nat by lia. by rewrite bool_decide_eq_true_2 by lia.
Qed.

Lemma concat_hashes_nil k c : (c < n)%nat → (0 < k)%nat → concat (take k (drop c hs)) ≠ [].
Proof.
  intros Hc Hk. destruct (lookup_lt_is_Some_2 hs c) as [h Hh]; [rewrite hs_length; lia|].
  rewrite (drop_S hs h c) by done. destruct k as [|k]; [lia|]. cbn [take concat].
  rewrite Forall_lookup in H4. specialize (H4 _ _ Hh). destruct h; done.
Qed.

Lemma st_complete c H w out wait : (c ≤ n)%nat → is_complete (st c H w out wait) = bool_decide (c = n).
Proof. intros. unfold is_complete. cbn. by rewrite prefix_known_length. Qed.

Lemma st_window c H w out wait : (c ≤ n)%nat → window_end (st c H w out wait) = ((c + w) `min` n)%nat.
Proof. intros. unfold window_end. cbn. by rewrite prefix_known_length. Qed.

(** All the window's hashes are known: a plain request. *)
Lemma next_request_known c H w out : (c < n)%nat → (0 < w)%nat → ((c + w) `min` n ≤ H ≤ n)%nat →
  next_request (st c H w out false) =
    Ok (Some (HASHMAP_NOT_EXHAUSTED :: rs_hash s ++ concat (take ((c + w) `min` n - c) (drop c hs))),
        st c H w ((c + w) `min` n - c) false).
Proof.
  intros Hc Hw HH. unfold next_request. rewrite st_complete, st_window by lia.
  rewrite bool_decide_eq_false_2 by lia. cbn [orb]. change (rr_waiting_for_hmu _) with false.
  unfold range. change (rr_consecutive _) with c. cbv iota. rewrite request_walk_st by lia. res_simpl.
  replace ((c + ((c + w) `min` n - c)) `min` H - c)%nat with ((c + w) `min` n - c)%nat by lia.
  rewrite (bool_decide_eq_false_2 (H < _)%nat) by lia.
  rewrite (bool_decide_eq_false_2 (concat _ = [])) by (apply concat_hashes_nil; lia). cbn [andb].
  do 3 f_equal. unfold st. f_equal. rewrite length_take, length_drop, hs_length. lia.
Qed.

(** The window runs past the known hashes: the request also asks for a page. *)
Lemma next_request_exhausted c H w out h : (c ≤ H)%nat → (0 < H)%nat → (H < (c + w) `min` n)%nat →
  hs !! (H - 1)%nat = Some h →
  next_request (st c H w out false) =
    Ok (Some (HASHMAP_EXHAUSTED :: h ++ rs_hash s ++ concat (take (H - c) (drop c hs))),
        st c H w (H - c) true).
Proof.
  intros Hc H0 HH Hh. unfold next_request. rewrite st_complete, st_window by lia.
  rewrite bool_decide_eq_false_2 by lia. cbn [orb]. change (rr_waiting_for_hmu _) with false.
  unfold range. change (rr_consecutive _) with c. cbv iota. rewrite request_walk_st by lia. res_simpl.
  replace ((c + ((c + w) `min` n - c)) `min` H - c)%nat with (H - c)%nat by lia.
  rewrite (bool_decide_eq_true_2 (H < _)%nat) by lia. cbn [negb]. rewrite andb_false_r.
  unfold index. cbn [st rr_map_hashes rr_hashmap_height].
  rewrite (prefix_known_lt hs H _ h) by (done || lia). do 2 (cbn [expect]; res_simpl).
  do 3 f_equal. unfold st. f_equal. rewrite length_take, length_drop, hs_length. lia.
Qed.

Lemma next_request_waiting c H w out : next_request (st c H w out true) = Ok (None, st c H w out true).
Proof. unfold next_request. change (rr_waiting_for_hmu _) with true. by rewrite orb_true_r. Qed.

(** ** Parts *)

Lemma receive_part_st c H w k wait p : (c < H ≤ n)%nat → (0 < w)%nat → ps !! c = Some p →
  receive_part (st c H w (S k) wait) p =
    (bool_decide (k = 0%nat),
     st (S c) H (if bool_decide (k = 0%nat) then (w + 1) `min` WINDOW_MAX else w)%nat k wait).
Proof.
  intros Hc Hw Hp. unfold receive_part.
  change (rr_random_hash _) with (rs_random_hash s).
  assert (hs !! c = Some (part_hash (rs_random_hash s) p)) as Hh
    by (rewrite Hhs, list_lookup_fmap, Hp; done).
  assert (find_slot (st c H w (S k) wait) (part_hash (rs_random_hash s) p) = Some c) as ->.
  { unfold find_slot. rewrite st_window by lia. change (rr_consecutive _) with c. unfold range.
    destruct ((c + w) `min` n - c)%nat as [|m] eqn:Em; [lia|]. cbn [seq].
    rewrite filter_cons_True; [done|]. cbn [st rr_map_hashes rr_parts]. split.
    - apply prefix_known_lt; [lia|done].
    - apply prefix_known_ge; lia. }
  cbn [st rr_parts rr_outstanding rr_consecutive rr_window rr_received rr_hash rr_map_hashes
    rr_hashmap_height rr_waiting_for_hmu rr_encrypted rr_compressed rr_random_hash].
  rewrite (prefix_known_insert ps c p) by done. rewrite prefix_known_advance by lia.
  replace (S k - 1)%nat with k by lia. replace (c + 1)%nat with (S c) by lia. done.
Qed.

(** All [k] outstanding parts arrive: the window opens and the next request goes out. *)
Lemma on_parts_st k c H w wait : (0 < k)%nat → (c + k ≤ H ≤ n)%nat → (0 < w)%nat →
  on_parts (st c H w k wait) (take k (drop c ps)) =
    let r := st (c + k) H ((w + 1) `min` WINDOW_MAX) 0 wait in
    if decide (c + k = n)%nat then Ok ([], r)
    else '(o, r) ← next_request r; Ok (option_list o, r).
Proof.
  revert c. induction k as [|k IH]; intros c Hk Hc Hw; [lia|]. cbv zeta.
  destruct (lookup_lt_is_Some_2 ps c) as [p Hp]; [lia|].
  rewrite (drop_S ps p c) by done. cbn [take on_parts]. unfold on_part.
  rewrite receive_part_st by (done || lia).
  destruct k as [|k].
  - rewrite bool_decide_eq_true_2 by done. rewrite st_complete by lia. cbn [take on_parts].
    replace (c + 1)%nat with (S c) by lia.
    destruct (decide (S c = n)) as [E|E].
    + rewrite (bool_decide_eq_true_2 (S c = n)) by done. done.
    + rewrite (bool_decide_eq_false_2 (S c = n)) by done.
      destruct (next_request _) as [[o r']| |]; res_simpl; [|done..].
      rewrite take_0. cbn [on_parts]. res_simpl. by rewrite app_nil_r.
  - rewrite (bool_decide_eq_false_2 (S k = 0)%nat) by done.
    rewrite st_complete, bool_decide_eq_false_2 by lia. res_simpl.
    rewrite IH by lia. cbv zeta. replace (S c + S k)%nat with (c + S (S k))%nat by lia.
    case_decide; res_simpl; [done|]. destruct (next_request _) as [[o r']| |]; by res_simpl.
Qed.

(** ** The sender's answers *)

Lemma serve_range k c : (c + k ≤ n)%nat → serve s (take k (drop c hs)) = Ok (take k (drop c ps)).
Proof.
  revert c. induction k as [|k IH]; intros c Hc; [by rewrite !take_0|].
  destruct (lookup_lt_is_Some_2 hs c) as [h Hh]; [rewrite hs_length; lia|].
  destruct (lookup_lt_is_Some_2 ps c) as [p Hp]; [lia|].
  rewrite (drop_S hs h c), (drop_S ps p c) by done. cbn [take serve].
  unfold hash_index. rewrite (position_NoDup hs c h) by done. unfold index. rewrite Hp. cbn [expect].
  res_simpl. rewrite IH by lia. done.
Qed.

Lemma hashes_chunks k c : chunks_exact MAPHASH_LEN (concat (take k (drop c hs))) = take k (drop c hs).
Proof. apply chunks_exact_concat; [unfold MAPHASH_LEN; lia|]. by apply Forall_take, Forall_drop. Qed.

Lemma handle_request_known k c : (c + k ≤ n)%nat →
  handle_request s (HASHMAP_NOT_EXHAUSTED :: rs_hash s ++ concat (take k (drop c hs))) =
    Ok (take k (drop c ps), None).
Proof.
  intros Hc. unfold handle_request. cbv zeta. rewrite bool_decide_eq_false_2 by done.
  rewrite decide_False by (rewrite length_app; lia).
  rewrite (slice_to_at (rs_hash s) (concat (take k (drop c hs)))) by done. res_simpl.
  rewrite decide_False by auto.
  rewrite (slice_from_at (rs_hash s) (concat (take k (drop c hs)))) by done. res_simpl.
  by rewrite hashes_chunks, serve_range by lia.
Qed.

Lemma handle_request_exhausted k c h : (c + k ≤ n)%nat → length h = MAPHASH_LEN →
  handle_request s (HASHMAP_EXHAUSTED :: h ++ rs_hash s ++ concat (take k (drop c hs))) =
    Ok (take k (drop c ps), next_page s h).
Proof.
  intros Hc Hh. unfold handle_request. cbv zeta. rewrite bool_decide_eq_true_2 by done.
  rewrite decide_False by (rewrite !length_app; unfold MAPHASH_LEN in *; lia).
  rewrite <-Hh, take_app_length, drop_app_length.
  rewrite (slice_to_at (rs_hash s) (concat (take k (drop c hs)))) by done. res_simpl.
  rewrite decide_False by auto.
  rewrite (slice_from_at (rs_hash s) (concat (take k (drop c hs)))) by done. res_simpl.
  rewrite Hh, hashes_chunks, serve_range by lia. done.
Qed.

(** ** Hashmap pages *)

Lemma fill_page cs k mh height : (length mh = n)%nat → (height + length cs ≤ n)%nat →
  0 ≤ k → k ≤ Z.of_nat height →
  (∀ j, (height ≤ j < n)%nat → mh !! j = Some None) →
  fill_hashes W (Z.of_nat height - k) k cs mh height =
    (take height mh ++ (Some <$> cs) ++ drop (height + length cs) mh, (height + length cs)%nat).
Proof.
  assert (2 ^ 32 ≤ 2 ^ W) as HW' by (apply Z.pow_le_mono_r; lia).
  revert k mh height. induction cs as [|c cs IH]; intros k mh height Hm Hlen Hk0 Hk Hnone;
    cbn [fill_hashes length] in *.
  - rewrite Nat.add_0_r. cbn. by rewrite take_drop.
  - unfold usize_add. replace (Z.of_nat height - k + k) with (Z.of_nat height) by lia.
    rewrite Z.mod_small by lia. rewrite decide_False by (unfold len_of; lia).
    rewrite Nat2Z.id, (Hnone height) by lia.
    replace (Z.of_nat height - k) with (Z.of_nat (S height) - (k + 1)) by lia.
    rewrite IH; [|by rewrite length_insert|lia..|].
    + f_equal; [|lia]. rewrite (take_S_r _ height (Some c)) by (apply list_lookup_insert_eq; lia).
      rewrite take_insert_ge, <-app_assoc by lia. cbn. do 3 f_equal.
      rewrite drop_insert_lt by lia. f_equal. lia.
    + intros j Hj. rewrite list_lookup_insert_ne by lia. apply Hnone. lia.
Qed.

Lemma fill_prefix H : (H ≤ n)%nat →
  fill_hashes W (Z.of_nat H) 0 (take HASHMAP_MAX_LEN (drop H hs)) (prefix_known hs H) H =
    (prefix_known hs ((H + HASHMAP_MAX_LEN) `min` n), ((H + HASHMAP_MAX_LEN) `min` n)%nat).
Proof.
  intros HH. pose proof hs_length as Hl.
  pose proof (fill_page (take HASHMAP_MAX_LEN (drop H hs)) 0 (prefix_known hs H) H) as Hf.
  rewrite Z.sub_0_r in Hf. rewrite Hf; clear Hf.
  - rewrite length_take, length_drop, Hl.
    replace (H + HASHMAP_MAX_LEN `min` (n - H))%nat with ((H + HASHMAP_MAX_LEN) `min` n)%nat by lia.
    f_equal. unfold prefix_known at 1 2.
    assert (length (Some <$> take H hs) = H) as E by (rewrite length_fmap, length_take; lia).
    rewrite <-E at 1. rewrite take_app_length, drop_app_ge, E, drop_replicate by lia.
    unfold prefix_known. rewrite app_assoc, <-fmap_app. f_equal; [|f_equal; lia]. f_equal.
    replace ((H + HASHMAP_MAX_LEN) `min` n)%nat with (H + (HASHMAP_MAX_LEN `min` (n - H)))%nat by lia.
    rewrite <-take_take_drop. f_equal. symmetry. rewrite <-(firstn_all (drop H hs)) at 2.
    rewrite take_take, length_drop. f_equal. lia.
  - apply prefix_known_length; [done|lia].
  - rewrite length_take, length_drop, Hl. lia.
  - lia.
  - lia.
  - intros j Hj. by apply prefix_known_ge.
Qed.

Lemma parse_hmu page bs : 0 ≤ page < 128 → len_of bs < 2 ^ 16 →
  parse_hashmap_update W ([0x92] ++ be_bytes 1 page ++ w_bin bs) = Ok (page, bs).
Proof.
  intros Hp Hbs. assert (2 ^ 32 ≤ 2 ^ W) by (apply Z.pow_le_mono_r; lia).
  set (b := [0x92] ++ be_bytes 1 page ++ w_bin bs).
  assert (len_of b < 2 ^ W) as Hb.
  { unfold b, w_bin, len_of in *. rewrite !length_app, be_bytes_length.
    case_decide; cbn [length]; rewrite be_bytes_length; lia. }
  assert (be_bytes 1 page = w_uint page) as E by (unfold w_uint; by rewrite decide_True by lia).
  unfold parse_hashmap_update.
  assert (reads b (array_len W b) [0x92] 2) as R1.
  { unfold array_len. apply reads_cons. apply reads_ret. }
  pose proof (R1 [] (be_bytes 1 page ++ w_bin bs) eq_refl) as R1'. change (len_of []) with 0 in R1'.
  change ([] ++ [0x92]) with [0x92] in R1'.
  rewrite R1'. res_simpl. rewrite decide_False by lia.
  rewrite (w_uint_reads b W Hb page ltac:(lia) [0x92] (w_bin bs)) by (by unfold b; rewrite E).
  res_simpl.
  rewrite (w_bin_reads b W Hb bs Hbs ([0x92] ++ w_uint page) [])
    by (unfold b; rewrite E, app_nil_r; app_norm).
  res_simpl. unfold as_usize. by rewrite Z.mod_small by lia.
Qed.

(** The page asked for with the last hash of a full prefix extends the prefix. *)
Lemma on_page c k w out h : (0 < k)%nat → (HASHMAP_MAX_LEN * k < n)%nat →
  hs !! (HASHMAP_MAX_LEN * k - 1)%nat = Some h →
  ∃ u, next_page s h = Some u ∧
    receive_hashmap_update W (st c (HASHMAP_MAX_LEN * k) w out true) u =
      Ok (st c ((HASHMAP_MAX_LEN * S k) `min` n) w out false).
Proof.
  intros Hk HH Hh. assert (2 ^ 32 ≤ 2 ^ W) as HW' by (apply Z.pow_le_mono_r; lia).
  set (H := (HASHMAP_MAX_LEN * k)%nat) in *.
  assert (H = 74 * k)%nat as EH by done.
  unfold next_page, hash_index. rewrite (position_NoDup hs (H - 1) h) by done.
  cbn [mbind option_bind]. replace (H - 1 + 1)%nat with H by lia.
  assert (H mod HASHMAP_MAX_LEN = 0)%nat as Em.
  { rewrite EH. change HASHMAP_MAX_LEN with 74%nat. rewrite Nat.mul_comm. apply Nat.Div0.mod_mul. }
  assert (H / HASHMAP_MAX_LEN = k)%nat as Ed.
  { rewrite EH. change HASHMAP_MAX_LEN with 74%nat. rewrite Nat.mul_comm. apply Nat.div_mul. lia. }
  rewrite decide_False by (rewrite Em; auto). cbv zeta. rewrite Ed. rewrite decide_True by lia.
  eexists. split; [done|]. set (bs := hashmap_page s k).
  unfold receive_hashmap_update. rewrite decide_False by (rewrite length_app; lia).
  rewrite (slice_to_at (rs_hash s) ([0x92] ++ be_bytes 1 (Z.of_nat k) ++ w_bin bs)) by done. res_simpl.
  change (rr_hash _) with (rs_hash s). rewrite decide_False by auto.
  rewrite (slice_from_at (rs_hash s) ([0x92] ++ be_bytes 1 (Z.of_nat k) ++ w_bin bs)) by done. res_simpl.
  assert (length bs ≤ 296)%nat as Hbs.
  { unfold bs, hashmap_page. rewrite (concat_length MAPHASH_LEN) by (by apply Forall_take, Forall_drop).
    rewrite length_take. unfold HASHMAP_MAX_LEN, MAPHASH_LEN. lia. }
  rewrite parse_hmu by (unfold len_of; lia). res_simpl.
  replace (Z.of_nat k * Z.of_nat HASHMAP_MAX_LEN) with (Z.of_nat H) by lia. rewrite Z.mod_small by lia.
  unfold bs, hashmap_page. replace (k * HASHMAP_MAX_LEN)%nat with H by lia. rewrite hashes_chunks.
  cbn [st rr_map_hashes rr_hashmap_height]. rewrite fill_prefix by lia.
  replace (H + HASHMAP_MAX_LEN)%nat with (HASHMAP_MAX_LEN * S k)%nat by lia. done.
Qed.

(** ** The whole transfer

    [page_end k] map-hashes are known after [k] pages. *)
Definition page_end (k : nat) : nat := ((HASHMAP_MAX_LEN * k) `min` n)%nat.

(** One exchange where all the requested hashes are known. *)
Lemma exchange_known c H w : (c < n)%nat → (0 < w)%nat → ((c + w) `min` n ≤ H ≤ n)%nat →
  let e := ((c + w) `min` n)%nat in let w' := ((w + 1) `min` WINDOW_MAX)%nat in
  exchange W s (st c H w (e - c) false)
      (HASHMAP_NOT_EXHAUSTED :: rs_hash s ++ concat (take (e - c) (drop c hs))) =
    if decide (e = n)%nat then Ok ([], st n H w' 0 false)
    else '(o, r) ← next_request (st e H w' 0 false); Ok (option_list o, r).
Proof.
  intros Hc Hw HH e w'. unfold exchange. rewrite handle_request_known by lia. res_simpl.
  rewrite on_parts_st by lia. cbv zeta. fold w'. replace (c + (e - c))%nat with e by lia.
  case_decide; [subst e; by replace ((c + w) `min` n)%nat with n by lia|].
  by destruct (next_request _) as [[o r]| |].
Qed.

(** One exchange that runs out of hashes and gets the next page. *)
Lemma exchange_exhausted c k w h : (0 < k)%nat → (HASHMAP_MAX_LEN * k < n)%nat →
  (c ≤ HASHMAP_MAX_LEN * k)%nat → (0 < w)%nat → hs !! (HASHMAP_MAX_LEN * k - 1)%nat = Some h →
  let H := (HASHMAP_MAX_LEN * k)%nat in
  ∃ w' out, (0 < w')%nat ∧
    exchange W s (st c H w (H - c) true)
        (HASHMAP_EXHAUSTED :: h ++ rs_hash s ++ concat (take (H - c) (drop c hs))) =
      '(o, r) ← next_request (st H (page_end (S k)) w' out false); Ok (option_list o, r).
Proof.
  intros Hk HHn Hc Hw Hh H.
  assert (length h = MAPHASH_LEN) as Hh4 by (rewrite Forall_lookup in H4; by eapply H4).
  assert (∃ w' out, (0 < w')%nat ∧
    on_parts (st c H w (H - c) true) (take (H - c) (drop c ps)) = Ok ([], st H H w' out true)) as (w' & out & Hw' & Hp).
  { destruct (decide (c = H)) as [->|Hne].
    - exists w, 0%nat. rewrite Nat.sub_diag, take_0. done.
    - exists ((w + 1) `min` WINDOW_MAX)%nat, 0%nat. split; [unfold WINDOW_MAX; lia|].
      rewrite on_parts_st by lia. cbv zeta. replace (c + (H - c))%nat with H by lia.
      rewrite decide_False by lia. rewrite next_request_waiting. done. }
  destruct (on_page H k w' out h Hk HHn Hh) as (u & Hu & Hr).
  exists w', out. split; [done|]. unfold exchange. rewrite handle_request_exhausted by (done || lia).
  res_simpl. rewrite Hp, Hu. res_simpl. unfold on_hmu. change (HASHMAP_MAX_LEN * k)%nat with H in Hr.
  rewrite Hr. fold (page_end (S k)).
  by destruct (next_request _) as [[o r]| |].
Qed.

Lemma run_nil f r : run W f s r [] = Ok r.
Proof. by destruct f. Qed.

Lemma run_completes m c k w out : (c < n)%nat → (0 < k)%nat → (c ≤ page_end k)%nat → (0 < w)%nat →
  ((n - c) + (n - page_end k) ≤ m)%nat →
  ∃ req r w', next_request (st c (page_end k) w out false) = Ok (Some req, r) ∧
    run W m s r [req] = Ok (st n n w' 0 false).
Proof.
  revert c k w out. induction m as [|m IH]; intros c k w out Hc Hk Hck Hw Hm; [lia|].
  unfold page_end in *.
  destruct (decide ((c + w) `min` n ≤ (HASHMAP_MAX_LEN * k) `min` n)%nat) as [He|He].
  - set (H := ((HASHMAP_MAX_LEN * k) `min` n)%nat) in *. set (e := ((c + w) `min` n)%nat) in *.
    set (w1 := ((w + 1) `min` WINDOW_MAX)%nat).
    assert (0 < w1)%nat by (unfold w1, WINDOW_MAX; lia).
    destruct (decide (e = n)) as [Een|Een].
    + do 2 eexists. exists w1. split; [apply next_request_known; lia|]. cbn [run]. fold e.
      rewrite exchange_known by lia. fold e w1. rewrite decide_True by done. res_simpl.
      cbn [app]. rewrite run_nil. by replace H with n by lia.
    + destruct (IH e k w1 0%nat) as (req & r & w' & Hreq & Hrun); [lia..|]. fold H in Hreq.
      do 2 eexists. exists w'. split; [apply next_request_known; lia|]. cbn [run]. fold e.
      rewrite exchange_known by lia. fold e w1. rewrite decide_False by done. rewrite Hreq. res_simpl. done.
  - replace ((HASHMAP_MAX_LEN * k) `min` n)%nat with (HASHMAP_MAX_LEN * k)%nat in * by lia.
    set (H := (HASHMAP_MAX_LEN * k)%nat) in *.
    assert (0 < H)%nat by (unfold H, HASHMAP_MAX_LEN; lia).
    destruct (lookup_lt_is_Some_2 hs (H - 1)) as [h Hh]; [rewrite hs_length; lia|].
    destruct (exchange_exhausted c k w h) as (w1 & out1 & Hw1 & Hex); [done|lia..|done|].
    destruct (IH H (S k) w1 out1) as (req & r & w' & Hreq & Hrun);
      [unfold H, HASHMAP_MAX_LEN in *; lia..|].
    do 2 eexists. exists w'. split; [by apply next_request_exhausted; (done || lia)|].
    cbn [run]. fold H in Hex. rewrite Hex. unfold page_end. rewrite Hreq. res_simpl. done.
Qed.

(** ** The advertisement *)

Definition sizes_ok : Prop :=
  Z.of_nat (rs_transfer_size s) < 2 ^ 32 ∧ Z.of_nat (rs_data_size s) < 2 ^ 32 ∧
  length (rs_random_hash s) = RANDOM_HASH_SIZE.

Lemma page0_length : len_of (hashmap_page s 0) < 2 ^ 16.
Proof.
  unfold len_of, hashmap_page. rewrite (concat_length MAPHASH_LEN) by (by apply Forall_take, Forall_drop).
  rewrite length_take. unfold HASHMAP_MAX_LEN, MAPHASH_LEN. lia.
Qed.

Lemma adv_fields_read b : len_of b < 2 ^ W → sizes_ok → ∀ f,
  reads b (adv_loop W b (11 + f) 11 adv_init) (drop 1 (advertisement s))
    (mkAdv (Some (rs_hash s)) (Some (rs_random_hash s)) (Some (hashmap_page s 0))
       (Some (Z.of_nat n)) 1 1).
Proof.
  intros Hb (Ht & Hd & Hr) f. pose proof page0_length.
  assert (len_of (rs_hash s) < 2 ^ 8) by (unfold len_of; lia).
  assert (len_of (rs_random_hash s) < 2 ^ 8) by (unfold len_of; rewrite Hr; unfold RANDOM_HASH_SIZE; lia).
  assert (len_of ps = Z.of_nat n) as En by (unfold len_of; by rewrite Hn).
  assert (drop 1 (advertisement s) =
    (w_key 116 ++ w_uint (Z.of_nat (rs_transfer_size s))) ++ (w_key 100 ++ w_uint (Z.of_nat (rs_data_size s)))
    ++ (w_key 110 ++ w_uint (Z.of_nat n)) ++ (w_key 104 ++ w_bin (rs_hash s))
    ++ (w_key 114 ++ w_bin (rs_random_hash s)) ++ (w_key 111 ++ w_bin (rs_hash s))
    ++ (w_key 105 ++ w_uint 1) ++ (w_key 108 ++ w_uint 1) ++ (w_key 113 ++ [0xc0])
    ++ (w_key 102 ++ w_uint 1) ++ (w_key 109 ++ w_bin (hashmap_page s 0)) ++ []) as ->.
  { unfold advertisement. rewrite En, app_nil_r, <-!app_assoc. reflexivity. }
  cbn [Nat.add].
  eapply adv_loop_step; [lia|apply adv_field_skip; [done|done|apply skip_uint_reads; [done|lia]]|].
  eapply adv_loop_step; [lia|apply adv_field_skip; [done|done|apply skip_uint_reads; [done|lia]]|].
  eapply adv_loop_step; [lia|eapply (adv_field_uint _ _ Hb _ _ _ (set_parts _)); [lia|done]|].
  eapply adv_loop_step; [lia|eapply (adv_field_bin _ _ Hb _ _ _ (set_hash _)); [lia|done]|].
  eapply adv_loop_step; [lia|eapply (adv_field_bin _ _ Hb _ _ _ (set_random _)); [lia|done]|].
  eapply adv_loop_step; [lia|apply adv_field_skip; [done|done|by apply skip_bin_reads]|].
  eapply adv_loop_step; [lia|apply adv_field_skip; [done|done|apply skip_uint_reads; [done|lia]]|].
  eapply adv_loop_step; [lia|eapply (adv_field_uint _ _ Hb _ _ _ (set_segments _)); [lia|done]|].
  eapply adv_loop_step; [lia|apply adv_field_skip; [done|done|by apply skip_nil_reads]|].
  eapply adv_loop_step; [lia|eapply (adv_field_uint _ _ Hb _ _ _ (set_flags _)); [lia|done]|].
  eapply adv_loop_step; [lia|eapply (adv_field_bin _ _ Hb _ _ _ (set_hashmap _)); [lia|done]|].
  apply adv_loop_done.
Qed.

Lemma parse_adv : sizes_ok →
  parse_advertisement W (advertisement s) =
    Ok (mkAdvertisement (rs_hash s) (rs_random_hash s) (Z.of_nat n) (hashmap_page s 0) 1 false true).
Proof.
  intros Hs. assert (2 ^ 32 ≤ 2 ^ W) as HW' by (apply Z.pow_le_mono_r; lia).
  assert (length (advertisement s) < 2000 ∧ 10 < length (advertisement s))%nat as [Hlen Hlen'].
  { pose proof page0_length as Hp. destruct Hs as (_ & _ & Hr).
    assert (∀ v, length (w_uint v) ≤ 5)%nat as Hu
      by (intros v; unfold w_uint; repeat case_decide; cbn; lia).
    assert (∀ x, length (w_bin x) ≤ 3 + length x)%nat as Hbin
      by (intros x; unfold w_bin; rewrite length_app; case_decide; cbn; lia).
    assert (length (hashmap_page s 0) ≤ 296)%nat.
    { unfold hashmap_page. rewrite (concat_length MAPHASH_LEN) by (by apply Forall_take, Forall_drop).
      rewrite length_take. unfold HASHMAP_MAX_LEN, MAPHASH_LEN. lia. }
    unfold advertisement. repeat rewrite length_app. cbn [w_key length].
    pose proof (Hu (Z.of_nat (rs_transfer_size s))). pose proof (Hu (Z.of_nat (rs_data_size s))).
    pose proof (Hu (len_of ps)). pose proof (Hu 1). pose proof (Hbin (rs_hash s)).
    pose proof (Hbin (rs_random_hash s)). pose proof (Hbin (hashmap_page s 0)).
    unfold RANDOM_HASH_SIZE in Hr. lia. }
  set (b := advertisement s).
  assert (len_of b < 2 ^ W) as Hb by (unfold len_of, b; lia).
  assert (b = [] ++ [0x8b] ++ drop 1 b) as E1 by done.
  unfold parse_advertisement.
  assert (reads b (map_len W b) [0x8b] 11) as R by (unfold map_len; apply reads_cons, reads_ret).
  pose proof (R [] _ E1) as R1. change (len_of []) with 0 in R1.
  change ([] ++ [0x8b]) with [0x8b] in R1. rewrite R1. res_simpl.
  replace (length b + 1)%nat with (11 + (length b - 10))%nat by (unfold b; lia).
  rewrite (adv_fields_read b Hb Hs (length b - 10) [0x8b] []) by (by rewrite app_nil_r).
  res_simpl. cbn [a_hash a_random a_hashmap a_parts a_segments a_flags ok_or]. res_simpl.
  rewrite decide_False by auto. rewrite copy_exact_ok by done. res_simpl.
  unfold as_usize. rewrite Z.mod_small by lia. done.
Qed.

Lemma accept_st : sizes_ok → (0 < n ≤ 565)%nat →
  accept W (advertisement s) = Ok (st 0 (page_end 1) WINDOW_START 0 false).
Proof.
  intros Hs Hn0. unfold accept. rewrite (parse_adv Hs). res_simpl.
  cbn [adv_total_segments adv_parts adv_hashmap adv_hash adv_random_hash adv_encrypted adv_compressed].
  rewrite decide_False by lia. rewrite decide_False by lia.
  change (MAX_TRANSFER_BYTES / Z.of_nat RESOURCE_SDU + 1) with 565. rewrite decide_False by lia.
  rewrite Nat2Z.id.
  assert (Forall (λ h, length h = MAPHASH_LEN) (take HASHMAP_MAX_LEN (drop (0 * HASHMAP_MAX_LEN) hs))) as F
    by (by apply Forall_take, Forall_drop).
  assert ((length (hashmap_page s 0) / MAPHASH_LEN) `min` n = page_end 1)%nat as Ein.
  { unfold hashmap_page. rewrite (concat_length MAPHASH_LEN) by done.
    rewrite Nat.div_mul by (unfold MAPHASH_LEN; lia).
    rewrite length_take, length_drop, hs_length. unfold page_end. lia. }
  rewrite Ein. rewrite decide_False by (unfold page_end, HASHMAP_MAX_LEN; lia).
  unfold st. do 2 f_equal; [|unfold prefix_known; cbn; by rewrite Nat.sub_0_r].
  apply list_eq. intros i. rewrite list_lookup_fmap. destruct (decide (i < n)%nat) as [Hi|Hi].
  - rewrite lookup_seq_lt by lia. cbn [fmap option_fmap option_map]. case_decide as Hd.
    + destruct (lookup_lt_is_Some_2 hs (0 + i)) as [h Hh]; [rewrite hs_length; lia|].
      rewrite (prefix_known_lt hs _ _ h) by done. do 2 f_equal.
      apply concat_slot; [done|]. rewrite lookup_take_lt by (unfold page_end in Hd; lia).
      by rewrite lookup_drop.
    + by rewrite (prefix_known_ge hs) by (rewrite ?hs_length; lia).
  - rewrite lookup_seq_ge by lia. symmetry. apply lookup_ge_None.
    rewrite prefix_known_length by (rewrite ?hs_length; unfold page_end; lia). lia.
Qed.

Lemma transfer_st fuel : sizes_ok → (0 < n ≤ 565)%nat → (2 * n ≤ fuel)%nat →
  ∃ w, transfer W fuel s = Ok (st n n w 0 false).
Proof.
  intros Hs Hn0 Hf. unfold transfer. rewrite accept_st by done. res_simpl.
  destruct (run_completes fuel 0 1 WINDOW_START 0) as (req & r & w & Hreq & Hrun);
    [lia|lia|lia|unfold WINDOW_START; lia|lia|].
  rewrite Hreq. res_simpl. eauto.
Qed.

Lemma concat_st w : concat_parts (st n n w 0 false) = concat ps.
Proof.
  unfold concat_parts. cbn [st rr_parts]. unfold prefix_known.
  rewrite Nat.sub_diag, app_nil_r, take_ge by lia.
  clear. induction ps as [|p l IH]; [done|]. cbn. by rewrite <-IH.
Qed.
End canonical.


(** ** The receiver under arbitrary input *)
Section invariant.
Context `{C : Crypto} `{B : Bz2} (W : Z).

(** Any call the client can make, with any bytes from the network. *)
Inductive receiver_step : ResourceReceiver → ResourceReceiver → Prop :=
  | step_request r o r' : next_request r = Ok (o, r') → receiver_step r r'
  | step_hmu r pt r' : receive_hashmap_update W r pt = Ok r' → receiver_step r r'
  | step_part r p : receiver_step r (receive_part r p).2.

Definition receiver_reachable (r : ResourceReceiver) : Prop :=
  ∃ adv r0, accept W adv = Ok r0 ∧ rtc receiver_step r0 r.

Fixpoint somes (l : list (option bytes)) : nat :=
  match l with Some _ :: l' => S (somes l') | None :: l' => somes l' | [] => 0%nat end.

Record receiver_ok (r : ResourceReceiver) : Prop := {
  rok_lengths : length (rr_map_hashes r) = length (rr_parts r);
  rok_bound : (0 < length (rr_parts r) ≤ 565)%nat;
  rok_parts i p : rr_parts r !! i = Some (Some p) →
    rr_map_hashes r !! i = Some (Some (part_hash (rr_random_hash r) p));
  rok_received : rr_received r = somes (rr_parts r);
  rok_consecutive : rr_consecutive r = advance (rr_parts r);
  rok_height : rr_hashmap_height r = somes (rr_map_hashes r) ∧ (0 < rr_hashmap_height r)%nat;
  rok_window : (WINDOW_START ≤ rr_window r ≤ WINDOW_MAX)%nat;
}.

Lemma somes_le l : (somes l ≤ length l)%nat.
Proof. induction l as [|[x|] l IH]; cbn; lia. Qed.
Lemma somes_all l : somes l = length l ↔ Forall is_Some l.
Proof.
  induction l as [|[x|] l IH]; cbn; [done|..].
  - rewrite Forall_cons, <-IH. split; [intros [= ->]; by split|by intros [_ ->]].
  - rewrite Forall_cons. split; [|by intros [[? ?] _]]. pose proof (somes_le l). lia.
Qed.
Lemma somes_insert l i x : l !! i = Some None → somes (<[i := Some x]> l) = S (somes l).
Proof.
  revert i. induction l as [|[y|] l IH]; intros [|i] Hi; cbn in *; try done; by rewrite IH.
Qed.

Lemma advance_lookup l i : (i < advance l)%nat → ∃ x, l !! i = Some (Some x).
Proof. revert i. induction l as [|[y|] l IH]; intros [|i] Hi; cbn in *; try lia; eauto with lia. Qed.
Lemma advance_split c l : (∀ i, (i < c)%nat → ∃ x, l !! i = Some (Some x)) →
  (c + advance (drop c l))%nat = advance l.
Proof.
  revert l. induction c as [|c IH]; intros l Hl; [done|].
  destruct (Hl 0%nat) as [x Hx]; [lia|]. destruct l as [|y l]; [done|]. cbn in Hx. injection Hx as ->.
  cbn [drop advance Nat.add]. f_equal. apply IH. intros i Hi. apply (Hl (S i)). lia.
Qed.

Ltac rr_simpl := cbn [rr_hash rr_random_hash rr_map_hashes rr_hashmap_height rr_parts rr_received
  rr_consecutive rr_window rr_outstanding rr_waiting_for_hmu rr_encrypted rr_compressed snd].

Lemma accept_ok adv r : accept W adv = Ok r → receiver_ok r.
Proof.
  unfold accept. intros (a & _ & Ha)%res_bind_ok. repeat (case_decide; [done|]).
  apply Ok_inj in Ha. subst r.
  change (MAX_TRANSFER_BYTES / Z.of_nat RESOURCE_SDU + 1) with 565 in *.
  set (k := ((length (adv_hashmap a) / MAPHASH_LEN) `min` Z.to_nat (adv_parts a))%nat) in *.
  set (n := Z.to_nat (adv_parts a)) in *.
  assert (∀ m, somes (replicate m None) = 0%nat ∧ advance (replicate m None) = 0%nat) as Hrep
    by (intros m; induction m; cbn in *; [done|naive_solver]).
  constructor; rr_simpl.
  - by rewrite length_fmap, length_seq, length_replicate.
  - rewrite length_replicate. split; [|lia]. destruct (decide (n = 0)%nat); [|lia]. unfold k in *. lia.
  - intros i p. rewrite lookup_replicate. naive_solver.
  - by rewrite (proj1 (Hrep n)).
  - by rewrite (proj2 (Hrep n)).
  - split; [|lia]. assert (k ≤ n)%nat as Hk by lia. clearbody k n. clear -Hk.
    assert (∀ m a', somes ((λ i, if decide (i < k)%nat then Some (take MAPHASH_LEN (drop (i * MAPHASH_LEN) (adv_hashmap a))) else None)
      <$> seq a' m) = (k `min` (a' + m) - a')%nat) as Hs.
    { intros m. induction m as [|m IH]; intros a'; cbn [seq fmap list_fmap]; [cbn; lia|].
      case_decide; cbn [somes]; rewrite IH; lia. }
    rewrite Hs. lia.
  - unfold WINDOW_START, WINDOW_MAX. lia.
Qed.

Lemma next_request_ok r o r' : receiver_ok r → next_request r = Ok (o, r') → receiver_ok r'.
Proof.
  intros Hr. unfold next_request. destruct (is_complete r || rr_waiting_for_hmu r); [by intros [= _ <-]|].
  destruct (request_walk _ _) as [[hs' ex]| |]; res_simpl; [|done..].
  destruct (bool_decide _ && negb ex); [intros [= _ <-]; by destruct Hr|].
  destruct ex; [|intros [= _ <-]; by destruct Hr].
  intros (o1 & _ & (h & _ & Hret)%res_bind_ok)%res_bind_ok. injection Hret as _ <-. by destruct Hr.
Qed.

(** Filling only turns unknown entries into known ones. *)
Lemma fill_hashes_grows base k cs mh height mh' height' :
  fill_hashes W base k cs mh height = (mh', height') →
  length mh' = length mh ∧ (height' + somes mh = height + somes mh')%nat ∧ (height ≤ height')%nat ∧
  (∀ i h, mh !! i = Some (Some h) → mh' !! i = Some (Some h)).
Proof.
  revert k mh height. induction cs as [|c cs IH]; intros k mh height; cbn [fill_hashes];
    [intros [= <- <-]; split_and!; auto with lia|].
  case_decide; [intros [= <- <-]; split_and!; auto with lia|].
  destruct (mh !! Z.to_nat (usize_add W base k)) as [[h|]|] eqn:Em; [apply IH| |apply IH].
  intros (H1 & H2 & H3 & H5)%IH. rewrite length_insert in H1. rewrite somes_insert in H2 by done.
  split_and!; [done|lia|lia|]. intros i h Hi. apply H5.
  rewrite list_lookup_insert_ne; [done|]. intros <-. congruence.
Qed.

Lemma hmu_ok r pt r' : receiver_ok r → receive_hashmap_update W r pt = Ok r' → receiver_ok r'.
Proof.
  intros Hr. unfold receive_hashmap_update. case_decide; [done|].
  intros (hd & _ & Hk)%res_bind_ok. case_decide; [done|].
  apply res_bind_ok in Hk as (body & _ & ([page bs] & _ & Hk)%res_bind_ok).
  destruct (fill_hashes _ _ _ _ _ _) as [mh height] eqn:Ef. injection Hk as <-.
  apply fill_hashes_grows in Ef as (H1 & H2 & H3 & H5). destruct Hr as [? ? Hp ? ? [Hh ?] ?].
  constructor; rr_simpl; auto; [congruence|]. split; lia.
Qed.

Lemma find_slot_inv r h i : find_slot r h = Some i →
  rr_map_hashes r !! i = Some (Some h) ∧ rr_parts r !! i = Some None ∧ (rr_consecutive r ≤ i)%nat.
Proof.
  unfold find_slot. intros Hi.
  assert (i ∈ filter (λ i, rr_map_hashes r !! i = Some (Some h) ∧ rr_parts r !! i = Some None)
    (range (rr_consecutive r) (window_end r))) as Hin.
  { destruct (filter _ _); [done|]. injection Hi as ->. left. }
  apply list_elem_of_filter in Hin as [[H1 H2] [Hge _]%elem_of_seq]. done.
Qed.

Lemma receive_part_ok r p : receiver_ok r → receiver_ok (receive_part r p).2.
Proof.
  intros Hr. unfold receive_part. destruct (find_slot _ _) as [i|] eqn:Ef; [|done].
  apply find_slot_inv in Ef as (H1 & H2 & H3). destruct Hr as [Hl ? Hp Hrec Hcons ? Hw]. constructor; rr_simpl.
  - by rewrite length_insert.
  - by rewrite length_insert.
  - intros j q. destruct (decide (i = j)) as [<-|Hne].
    + rewrite list_lookup_insert_eq by (by eapply lookup_lt_Some). by intros [= <-].
    + rewrite list_lookup_insert_ne by done. apply Hp.
  - by rewrite somes_insert, Hrec.
  - apply advance_split. intros j Hj. rewrite Hcons in Hj. destruct (advance_lookup _ _ Hj) as [x Hx].
    exists x. rewrite list_lookup_insert_ne; [done|]. intros <-. congruence.
  - done.
  - unfold WINDOW_START, WINDOW_MAX in *. case_match; lia.
Qed.

Lemma reachable_ok r : receiver_reachable r → receiver_ok r.
Proof.
  intros (adv & r0 & Hacc & Hrtc). apply accept_ok in Hacc. induction Hrtc as [|r1 r2 r3 Hstep _ IH]; [done|].
  apply IH. destruct Hstep; eauto using next_request_ok, hmu_ok, receive_part_ok.
Qed.
End invariant.

(** ** Properties *)


(** Whatever the network sends, every reachable receiver state is sound: a stored
    part hashes to the map-hash of its slot, the counters count what is stored,
    the consecutive height is exact, the window and the number of slots stay
    within their limits, and the transfer is complete exactly when every slot
    holds a part. *)
Theorem receiver_invariant `{C : Crypto} `{B : Bz2} (W : Z) (r : ResourceReceiver)
  (Hr : receiver_reachable W r) :
  receiver_ok r ∧ (is_complete r = true ↔ Forall is_Some (rr_parts r)).
Proof.
  pose proof (reachable_ok W r Hr) as Hok. split; [done|]. unfold is_complete.
  rewrite bool_decide_eq_true. rewrite (rok_received r Hok). apply somes_all.
Qed.


(** [finish] lets a payload through only if it is the advertised one: it hashes,
    with the advertised salt, to the advertised resource hash; a decompressed
    payload is within the 256 KiB budget; and the proof is bound to both. *)
Theorem finish_sound `{C : Crypto} `{B : Bz2} (r : ResourceReceiver) (stream payload proof : bytes)
  (Hf : finish r stream = Ok (payload, proof)) :
  full_hash (payload ++ rr_random_hash r) = rr_hash r ∧
  proof = rr_hash r ++ full_hash (payload ++ rr_hash r) ∧
  (if rr_compressed r then len_of payload ≤ DECOMPRESSED_MAX
   else payload = drop RANDOM_HASH_SIZE stream).
Proof.
  unfold finish in Hf. case_decide; [done|]. rewrite slice_from_ok in Hf by lia. res_simpl.
  apply res_bind_ok in Hf as (pl & Hpl & Hf). case_decide as Hh; [done|].
  apply Ok_inj in Hf. injection Hf as -> <-. split; [done|]. split; [done|].
  destruct (rr_compressed r); [|by injection Hpl as <-]. unfold decompress_bz2 in Hpl.
  destruct (bz2_read _ _); [|done]. case_decide; [done|]. injection Hpl as ->. lia.
Qed.

(** An advertisement of 200 parts with one map-hash, and an update with page 2. *)
Definition gap_adv : bytes :=
  [0x84] ++ w_key 104 ++ w_bin (replicate 32 1) ++ w_key 114 ++ w_bin (replicate 4 2)
  ++ w_key 110 ++ w_uint 200 ++ w_key 109 ++ w_bin (replicate 4 3).
Definition gap_hmu : bytes := replicate 32 1 ++ [0x92; 2] ++ w_bin (replicate 208 5).

(** The receiver assumes hashmap pages arrive in order, and does not check it: a
    sender that advertises one map-hash and then sends page 2 leaves a gap, and the
    next request panics on the unknown hash at [hashmap_height - 1]. *)
Theorem hmu_gap_panics :
  ∃ r0 req r1 r2, accept 32 gap_adv = Ok r0 ∧ next_request r0 = Ok (Some req, r1) ∧
    receive_hashmap_update 32 r1 gap_hmu = Ok r2 ∧ next_request r2 = Panic.
Proof.
  do 4 eexists. split; [vm_compute; reflexivity|]. split; [vm_compute; reflexivity|].
  split; [vm_compute; reflexivity|]. vm_compute. reflexivity.
Qed.

(** ** Witnesses *)
Import ToyInstances.
#[local] Instance w_bz2 : Bz2 := λ n d, Some (take (Z.to_nat n) d).
Definition w_data : bytes := (λ i, Z.of_nat i mod 256) <$> seq 0 450.
Definition w_sender : ResourceSender :=
  match sender_new w_data (replicate 64 1) (replicate 4 2) (replicate 4 3) (replicate 16 4) with
  | Ok s => s | _ => mkSender [] [] [] [] [] 0 0 end.


Lemma receiver_invariant_witness :
  ∃ r, receiver_reachable 32 r ∧ receiver_ok r ∧ (is_complete r = true ↔ Forall is_Some (rr_parts r)).
Proof.
  destruct (accept 32 gap_adv) as [r0| |] eqn:E; [|vm_compute in E; discriminate E..].
  exists (receive_part r0 [1]).2.
  assert (receiver_reachable 32 (receive_part r0 [1]).2) as Hr.
  { exists gap_adv, r0. split; [exact E|]. eapply rtc_l; [apply step_part|apply rtc_refl]. }
  split; [exact Hr|]. exact (receiver_invariant 32 _ Hr).
Defined.

Lemma finish_sound_witness :
  let r := mkReceiver (full_hash [7; 8; 1; 1; 1; 1]) [1; 1; 1; 1] [] 0 [] 0 0 4 0 false true false in
  full_hash ([7; 8] ++ rr_random_hash r) = rr_hash r ∧
  full_hash [7; 8; 1; 1; 1; 1] ++ full_hash ([7; 8] ++ full_hash [7; 8; 1; 1; 1; 1]) =
    rr_hash r ++ full_hash ([7; 8] ++ rr_hash r) ∧ [7; 8] = drop RANDOM_HASH_SIZE [0; 0; 0; 0; 7; 8].
Proof.
  refine (finish_sound (mkReceiver (full_hash [7; 8; 1; 1; 1; 1]) [1; 1; 1; 1] [] 0 [] 0 0 4 0 false true false)
    [0; 0; 0; 0; 7; 8] [7; 8] _ _). vm_compute. reflexivity.
Defined.
