(* ===== verification/Tables.v ===== *)
(** The FIFO-capped tables of the transport ([reticulum-core/src/transport.rs]): a
    [HashMap] with a [VecDeque] of its keys in insertion order.  Every [insert_*]
    of the source is the same code at another type and cap; it is written once. *)
From S2P Require Import Prelude.

Record Table (V : Type) := mkTable { tmap : gmap bytes V; torder : list bytes }.
Arguments mkTable {_} _ _.
Arguments tmap {_} _.
Arguments torder {_} _.

Section table.
Context {V : Type}.
Implicit Types t : Table V.

Definition table_new : Table V := mkTable ∅ [].

(** [while order.len() > cap]: pop the oldest key, and drop its entry unless it is
    the one just inserted. *)
Fixpoint evict (cap : nat) (k : bytes) (order : list bytes) (m : gmap bytes V) : Table V :=
  match order with
  | old :: rest =>
      if decide (cap < length order)%nat
      then evict cap k rest (if decide (old ≠ k) then delete old m else m)
      else mkTable m order
  | [] => mkTable m []
  end.

Definition table_insert (cap : nat) (k : bytes) (v : V) (t : Table V) : Table V :=
  let m := <[k := v]> (tmap t) in
  match tmap t !! k with
  | Some _ => mkTable m (torder t)
  | None => evict cap k (torder t ++ [k]) m
  end.

(** [remove(k)] on the map alone, and with the key dropped from the order. *)
Definition table_remove (k : bytes) (t : Table V) : Table V :=
  mkTable (delete k (tmap t)) (torder t).
Definition table_remove_all (k : bytes) (t : Table V) : Table V :=
  mkTable (delete k (tmap t)) (filter (λ k', k' ≠ k) (torder t)).
Definition table_update (k : bytes) (f : V → V) (t : Table V) : Table V :=
  mkTable (alter f k (tmap t)) (torder t).
(** [retain] on the entries, then on the order. *)
Definition table_retain (P : V → bool) (t : Table V) : Table V :=
  let m := filter (λ kv : bytes * V, P kv.2 = true) (tmap t) in
  mkTable m (filter (λ k, is_Some (m !! k)) (torder t)).

(** ** The invariant: every key is queued, and the queue is within the cap. *)
Definition table_ok (cap : nat) (t : Table V) : Prop :=
  (∀ k, is_Some (tmap t !! k) → k ∈ torder t) ∧ (length (torder t) ≤ cap)%nat.

Lemma table_new_ok cap : table_ok cap table_new.
Proof. split; [intros k [v Hv]; cbn in Hv; by rewrite lookup_empty in Hv|cbn; lia]. Qed.

Lemma evict_ok cap k order m : (0 < cap)%nat → (∀ k', is_Some (m !! k') → k' ∈ order) →
  (∃ order', order = order' ++ [k]) → table_ok cap (evict cap k order m).
Proof.
  intros Hcap. revert m. induction order as [|old rest IH]; intros m Hm [order' E]; cbn [evict].
  { split; cbn; [done|lia]. }
  case_decide as Hd; [|split; cbn [tmap torder]; [done|lia]].
  destruct order' as [|x order']; cbn in E; injection E as -> ->; [cbn in Hd; lia|].
  apply IH; [|by eexists]. intros k' Hk'. case_decide as Hx.
  - assert (k' ≠ x) by (intros ->; rewrite lookup_delete_eq in Hk'; by destruct Hk').
    rewrite lookup_delete_ne in Hk' by done. apply Hm in Hk'. set_solver.
  - apply Hm in Hk'. set_solver.
Qed.

Lemma evict_keeps cap k order m v : m !! k = Some v → tmap (evict cap k order m) !! k = Some v.
Proof.
  revert m. induction order as [|old rest IH]; intros m Hk; cbn [evict]; [done|].
  case_decide; [|done]. apply IH. case_decide; [|done]. by rewrite lookup_delete_ne.
Qed.
Lemma evict_subset cap k order m k' v :
  tmap (evict cap k order m) !! k' = Some v → m !! k' = Some v.
Proof.
  revert m. induction order as [|old rest IH]; intros m; cbn [evict]; [done|].
  case_decide; [|done]. intros Hk%IH. case_decide; [|done].
  by apply lookup_delete_Some in Hk as [_ ?].
Qed.

Lemma table_insert_ok cap k v t : (0 < cap)%nat → table_ok cap t → table_ok cap (table_insert cap k v t).
Proof.
  intros Hcap [Hm Hl]. unfold table_insert. destruct (tmap t !! k) as [w|] eqn:E.
  - split; cbn; [|done]. intros k'. destruct (decide (k = k')) as [<-|].
    + intros _. apply Hm. eauto.
    + rewrite lookup_insert_ne by done. apply Hm.
  - apply evict_ok; [done| |by eexists]. intros k'. destruct (decide (k = k')) as [<-|].
    + set_solver.
    + rewrite lookup_insert_ne by done. intros Hk%Hm. set_solver.
Qed.
(** The inserted entry is always there afterwards. *)
Lemma table_insert_lookup cap k v t : tmap (table_insert cap k v t) !! k = Some v.
Proof.
  unfold table_insert. destruct (tmap t !! k); [|apply evict_keeps]; apply lookup_insert_eq.
Qed.
(** Nothing else appears, and what stays is unchanged. *)
Lemma table_insert_other cap k v t k' w : k' ≠ k →
  tmap (table_insert cap k v t) !! k' = Some w → tmap t !! k' = Some w.
Proof.
  intros Hne. unfold table_insert.
  destruct (tmap t !! k); [cbn|intros H%evict_subset; revert H]; by rewrite lookup_insert_ne by auto.
Qed.

Lemma table_remove_ok cap k t : table_ok cap t → table_ok cap (table_remove k t).
Proof. intros [Hm Hl]. split; cbn; [|done]. intros k' [v [_ Hv]%lookup_delete_Some]. eauto. Qed.
Lemma table_remove_all_ok cap k t : table_ok cap t → table_ok cap (table_remove_all k t).
Proof.
  intros [Hm Hl]. split; cbn.
  - intros k' [v [Hne Hv]%lookup_delete_Some]. apply list_elem_of_filter. eauto.
  - etrans; [apply length_filter|done].
Qed.
Lemma table_update_ok cap k f t : table_ok cap t → table_ok cap (table_update k f t).
Proof. intros [Hm Hl]. split; cbn; [|done]. intros k'. rewrite lookup_alter_is_Some. apply Hm. Qed.
Lemma table_retain_ok cap P t : table_ok cap t → table_ok cap (table_retain P t).
Proof.
  intros [Hm Hl]. split; cbn.
  - intros k [v Hv]. apply list_elem_of_filter. split; [by eexists|].
    apply map_lookup_filter_Some in Hv as [Hv _]. eauto.
  - etrans; [apply length_filter|done].
Qed.

Lemma table_ok_order cap t : table_ok cap t → (length (torder t) ≤ cap)%nat.
Proof. by intros [_ ?]. Qed.
Lemma list_to_set_size (l : list bytes) : (size (list_to_set l : gset bytes) ≤ length l)%nat.
Proof.
  induction l as [|x l IH]; [done|]. cbn [list_to_set length]. rewrite size_union_alt, size_singleton.
  pose proof (subseteq_size (list_to_set l ∖ {[x]} : gset bytes) (list_to_set l) ltac:(set_solver)). lia.
Qed.
(** The number of entries is within the cap. *)
Lemma table_ok_size cap t : table_ok cap t → (size (tmap t) ≤ cap)%nat.
Proof.
  intros [Hm Hl]. rewrite <-size_dom. etrans; [|exact Hl].
  etrans; [apply (subseteq_size _ (list_to_set (torder t)))|apply list_to_set_size].
  intros k Hk%elem_of_dom. apply elem_of_list_to_set. by apply Hm.
Qed.
End table.

Arguments table_new {_}.
#[export] Hint Resolve table_new_ok table_insert_ok table_remove_ok table_remove_all_ok table_update_ok
  table_retain_ok : rns.
