(* ===== verification/Transport.v ===== *)
(** The leaf transport ([reticulum-core/src/transport.rs]): its state, the handling
    of every inbound frame, and every operation that builds an outbound packet.

    [handle_frame] is split along the numbered branches of the source; a branch
    returns [None] to fall through to the next one.  [gen_ephemeral] is called at
    most once per frame: [eph] is the value it would return.  The iteration order
    of a [HashMap] is unspecified: [iter] is any order. *)
From S2P Require Import Prelude Constants Crypto Msgpack Packet Identity Announce Link ResourceWire Resource Tables.

Definition MAX_KNOWN : nat := 256.
Definition MAX_PATHS : nat := 256.
Definition MAX_LINKS : nat := 64.
Definition MAX_OUT_LINKS : nat := 32.
Definition MAX_PENDING_OUT : nat := 32.
Definition MAX_RECEIPTS : nat := 64.
Definition PENDING_LINK_EXPIRY_SECS : Z := 12.
Definition PER_HOP_TIMEOUT_SECS : Z := 6.
Definition OUT_LINK_INACTIVITY_SECS : Z := 540.

(** [u64::saturating_add] and [u8::saturating_add]. *)
Definition u64_sat_add (a b : Z) : Z := (a + b) `min` (2 ^ 64 - 1).
Definition u8_sat_add (a b : Z) : Z := (a + b) `min` 255.

(** The iteration order of a [HashMap]. *)
Class HashIter := iter : ∀ V : Type, gmap bytes V → list (bytes * V).
Arguments iter {_ _} _.
Class HashIterOK `{HashIter} : Prop :=
  iter_perm (V : Type) (m : gmap bytes V) : iter m ≡ₚ map_to_list m.

(** ** State *)
Record LinkState := mkLinkState {
  ls_key : bytes; ls_proof : bytes; ls_peer_sig_pub : bytes; ls_peer_identity : option PublicIdentity;
}.
Record PendingOut := mkPending {
  po_target : bytes; po_eph_secret : bytes; po_sig_seed : bytes; po_identity : PublicIdentity;
  po_created : Z; po_expiry_secs : Z;
}.
Record OutLink := mkOutLink {
  ol_target : bytes; ol_key : bytes; ol_sig_seed : bytes; ol_identity : PublicIdentity;
  ol_last_activity : Z;
}.
Record OppReceipt := mkOppReceipt { or_full_hash : bytes; or_identity : PublicIdentity }.
Record KnownDest := mkKnown {
  kd_identity : PublicIdentity; kd_name_hash : bytes; kd_ratchet : option bytes; kd_app_data : bytes;
}.
Inductive PathIface := Hub | Auto.
#[export] Instance PathIface_eq_dec : EqDecision PathIface.
Proof. solve_decision. Defined.
Record PathEntry := mkPath { pe_next_hop : option bytes; pe_hops : Z; pe_learned_on : PathIface }.

Inductive Event :=
  | EvAnnounce (destination_hash : bytes) (info : KnownDest)
  | EvData (destination_hash plaintext proof : bytes)
  | EvLinkEstablished (link_id proof : bytes)
  | EvLinkData (link_id plaintext proof : bytes)
  | EvInLinkData (link_id : bytes) (context : Z) (plaintext : bytes)
  | EvLinkIdentified (link_id : bytes) (identity : PublicIdentity)
  | EvLinkKeepalive (link_id reply : bytes)
  | EvInLinkClosed (link_id : bytes)
  | EvOutboundLinkUp (link_id target : bytes)
  | EvDelivered (packet_hash : bytes)
  | EvOutLinkData (link_id : bytes) (context : Z) (plaintext : bytes)
  | EvOutLinkClosed (link_id : bytes)
  | EvDataUndecryptable (destination_hash : bytes) (reason : string)
  | EvAddressedUnhandled (destination_hash : bytes) (packet_type context : Z)
  | EvUnhandled (destination_hash : bytes) (packet_type context : Z)
  | EvPathRequest (destination_hash : bytes)
  | EvDropped (reason : string).

Record Transport := mkTransport {
  identity : PrivateIdentity;
  our_dests : list bytes;
  known_t : Table KnownDest;
  paths : Table PathEntry;
  links : Table LinkState;
  pending_out : Table PendingOut;
  out_links : Table OutLink;
  receipts : Table bytes;
  opp_receipts : Table OppReceipt;
  out_resources : gmap bytes ResourceSender;
}.

Definition transport_new (identity : PrivateIdentity) : Transport :=
  mkTransport identity [] table_new table_new table_new table_new table_new table_new table_new ∅.

(** Field updates. *)
Definition set_dests (f : list bytes → list bytes) (t : Transport) : Transport :=
  mkTransport (identity t) (f (our_dests t)) (known_t t) (paths t) (links t) (pending_out t) (out_links t)
    (receipts t) (opp_receipts t) (out_resources t).
Definition set_known (f : Table KnownDest → Table KnownDest) (t : Transport) : Transport :=
  mkTransport (identity t) (our_dests t) (f (known_t t)) (paths t) (links t) (pending_out t) (out_links t)
    (receipts t) (opp_receipts t) (out_resources t).
Definition set_paths (f : Table PathEntry → Table PathEntry) (t : Transport) : Transport :=
  mkTransport (identity t) (our_dests t) (known_t t) (f (paths t)) (links t) (pending_out t) (out_links t)
    (receipts t) (opp_receipts t) (out_resources t).
Definition set_links (f : Table LinkState → Table LinkState) (t : Transport) : Transport :=
  mkTransport (identity t) (our_dests t) (known_t t) (paths t) (f (links t)) (pending_out t) (out_links t)
    (receipts t) (opp_receipts t) (out_resources t).
Definition set_pending (f : Table PendingOut → Table PendingOut) (t : Transport) : Transport :=
  mkTransport (identity t) (our_dests t) (known_t t) (paths t) (links t) (f (pending_out t)) (out_links t)
    (receipts t) (opp_receipts t) (out_resources t).
Definition set_out_links (f : Table OutLink → Table OutLink) (t : Transport) : Transport :=
  mkTransport (identity t) (our_dests t) (known_t t) (paths t) (links t) (pending_out t) (f (out_links t))
    (receipts t) (opp_receipts t) (out_resources t).
Definition set_receipts (f : Table bytes → Table bytes) (t : Transport) : Transport :=
  mkTransport (identity t) (our_dests t) (known_t t) (paths t) (links t) (pending_out t) (out_links t)
    (f (receipts t)) (opp_receipts t) (out_resources t).
Definition set_opp (f : Table OppReceipt → Table OppReceipt) (t : Transport) : Transport :=
  mkTransport (identity t) (our_dests t) (known_t t) (paths t) (links t) (pending_out t) (out_links t)
    (receipts t) (f (opp_receipts t)) (out_resources t).
Definition set_resources (f : gmap bytes ResourceSender → gmap bytes ResourceSender) (t : Transport) : Transport :=
  mkTransport (identity t) (our_dests t) (known_t t) (paths t) (links t) (pending_out t) (out_links t)
    (receipts t) (opp_receipts t) (f (out_resources t)).

(** ** Table operations *)
Definition insert_known (hash : bytes) (info : KnownDest) : Transport → Transport :=
  set_known (table_insert MAX_KNOWN hash info).
Definition insert_path (hash : bytes) (entry : PathEntry) : Transport → Transport :=
  set_paths (table_insert MAX_PATHS hash entry).
Definition insert_link (link_id : bytes) (state : LinkState) : Transport → Transport :=
  set_links (table_insert MAX_LINKS link_id state).
Definition insert_pending_out (link_id : bytes) (p : PendingOut) : Transport → Transport :=
  set_pending (table_insert MAX_PENDING_OUT link_id p).
Definition insert_out_link (link_id : bytes) (l : OutLink) : Transport → Transport :=
  set_out_links (table_insert MAX_OUT_LINKS link_id l).
Definition insert_receipt (packet_hash link_id : bytes) : Transport → Transport :=
  set_receipts (table_insert MAX_RECEIPTS packet_hash link_id).
Definition insert_opp_receipt (trunc_hash : bytes) (rec : OppReceipt) : Transport → Transport :=
  set_opp (table_insert MAX_RECEIPTS trunc_hash rec).

Definition register_destination (hash : bytes) : Transport → Transport :=
  set_dests (λ ds, if decide (hash ∈ ds) then ds else ds ++ [hash]).
Definition known (t : Transport) (hash : bytes) : option KnownDest := tmap (known_t t) !! hash.
Definition remember (destination_hash : bytes) (info : KnownDest) : Transport → Transport :=
  insert_known destination_hash info.

Definition drop_paths_on (iface : PathIface) : Transport → Transport :=
  set_paths (table_retain (λ e, bool_decide (pe_learned_on e ≠ iface))).
Definition expire_path (hash : bytes) (t : Transport) : bool * Transport :=
  match tmap (paths t) !! hash with
  | Some _ => (true, set_paths (table_remove_all hash) t)
  | None => (false, t)
  end.
Definition has_path (t : Transport) (hash : bytes) : bool :=
  match tmap (paths t) !! hash with Some _ => true | None => false end.
Definition path_hops (t : Transport) (hash : bytes) : option Z := pe_hops <$> tmap (paths t) !! hash.

Definition remove_out_link (link_id : bytes) (t : Transport) : Transport :=
  set_out_links (table_remove_all link_id) (set_resources (delete link_id) t).
Definition drop_out_link (link_id : bytes) (t : Transport) : Transport := remove_out_link link_id t.
Definition forget_pending_link (link_id : bytes) : Transport → Transport :=
  set_pending (table_remove_all link_id).
Definition connection_reset (t : Transport) : Transport :=
  mkTransport (identity t) (our_dests t) (known_t t) (paths t) table_new table_new table_new table_new
    table_new ∅.

(** [apply_transport]: rewrite a HEADER_1 packet for a destination beyond one hop. *)
Definition apply_transport (t : Transport) (dest raw : bytes) : res bytes :=
  match tmap (paths t) !! dest with
  | None => mret raw
  | Some entry =>
      if decide (pe_hops entry ≤ 1) then mret raw
      else match pe_next_hop entry with
      | None => mret raw
      | Some next_hop =>
          match raw with
          | [] => mret raw
          | flags :: _ =>
              if decide (Z.shiftr (Z.land flags 0x40) 6 ≠ HEADER_1) then mret raw
              else
                let new_flags := Z.lor (Z.lor (u8_shl HEADER_2 6) (u8_shl TRANSPORT_TRANSPORT 4))
                                   (Z.land flags 0x0F) in
                h ← index raw 1;
                rest ← slice_from raw 2;
                mret ([new_flags; h] ++ next_hop ++ rest)
          end
      end
  end.

Section transport.
Context `{C : Crypto} `{I : HashIter}.

(** ** Inbound frames *)

(** A branch: [None] falls through. *)
Definition branch : Type := res (option (Event * Transport)).
Definition fall : branch := Ok None.
Definition done_with (e : Event) (t : Transport) : branch := Ok (Some (e, t)).
Definition or_else (b1 b2 : branch) : branch :=
  match b1 with Ok None => b2 | _ => b1 end.
(** [match r { Ok(a) => .., Err(e) => .. }]; a panic propagates. *)
Definition res_case {A B} (r : res A) (f : A → res B) (g : string → res B) : res B :=
  match r with Ok a => f a | Err e => g e | Panic => Panic end.

(** 0a. LRPROOF completing a link we initiated. *)
Definition handle_lrproof (t : Transport) (p : Packet) : branch :=
  let lid := destination_hash p in
  if decide (packet_type p = PACKET_PROOF ∧ context p = CONTEXT_LRPROOF) then
    match tmap (pending_out t) !! lid with
    | None => fall
    | Some pend =>
        let t := set_pending (table_remove lid) t in
        res_case (complete_handshake lid (po_eph_secret pend) (data p) (po_identity pend))
          (λ key, done_with (EvOutboundLinkUp lid (po_target pend))
             (insert_out_link lid
                (mkOutLink (po_target pend) key (po_sig_seed pend) (po_identity pend) (po_created pend)) t))
          (λ _, done_with (EvDropped "invalid LRPROOF for initiated link") t)
    end
  else fall.

(** 0a-2. The proof of a Resource we served. *)
Definition handle_resource_proof (t : Transport) (p : Packet) : branch :=
  if decide (packet_type p = PACKET_PROOF ∧ context p = CONTEXT_RESOURCE_PRF) then
    match out_resources t !! destination_hash p with
    | Some tx =>
        if proof_is_valid tx (data p)
        then done_with (EvDelivered (rs_hash tx)) (set_resources (delete (destination_hash p)) t)
        else fall
    | None => fall
    end
  else fall.

(** 0b. A packet proof on a link: the candidates, and the first that validates. *)
Definition proof_candidates (t : Transport) (lid d : bytes) : res (list bytes) :=
  if decide (32 + SIG_LENGTH ≤ length d)%nat then ph ← slice_to d 32; mret [ph]
  else mret ((filter (λ kv : bytes * bytes, kv.2 = lid) (iter (tmap (receipts t)))).*1).
Fixpoint find_receipt (t : Transport) (sig_pub lid d : bytes) (candidates : list bytes) : option bytes :=
  match candidates with
  | [] => None
  | ph :: rest =>
      if decide (tmap (receipts t) !! ph = Some lid ∧ validate_proof_sig sig_pub ph d = true)
      then Some ph else find_receipt t sig_pub lid d rest
  end.
Definition link_proof_key (t : Transport) (lid : bytes) : option bytes :=
  match tmap (out_links t) !! lid with
  | Some l => Some (sig_pub (ol_identity l))
  | None => ls_peer_sig_pub <$> tmap (links t) !! lid
  end.
Definition handle_link_proof (t : Transport) (p : Packet) : branch :=
  if decide (packet_type p = PACKET_PROOF ∧ context p = CONTEXT_NONE) then
    let lid := destination_hash p in
    match link_proof_key t lid with
    | None => fall
    | Some sig_pub =>
        candidates ← proof_candidates t lid (data p);
        match find_receipt t sig_pub lid (data p) candidates with
        | Some ph => done_with (EvDelivered ph) (set_receipts (table_remove ph) t)
        | None => done_with (EvAddressedUnhandled lid (packet_type p) (context p)) t
        end
    end
  else fall.

(** 0b-2. DATA on an established outbound link. *)
Definition handle_out_link_data (t : Transport) (p : Packet) : branch :=
  let lid := destination_hash p in
  match tmap (out_links t) !! lid with
  | Some l =>
      if decide (packet_type p = PACKET_DATA) then
        if decide (context p = CONTEXT_RESOURCE) then done_with (EvOutLinkData lid (context p) (data p)) t
        else
          res_case (Link.decrypt (ol_key l) (data p))
            (λ plaintext,
               if decide (context p = CONTEXT_LINKCLOSE ∧ plaintext = lid)
               then done_with (EvOutLinkClosed lid) (remove_out_link lid t)
               else if decide (context p = CONTEXT_NONE) then
                 proof ← prove_packet_ephemeral (ol_sig_seed l) lid p;
                 done_with (EvLinkData lid plaintext proof) t
               else done_with (EvOutLinkData lid (context p) plaintext) t)
            (λ reason, done_with (EvDataUndecryptable lid reason) t)
      else fall
  | None => fall
  end.

(** 0c. The delivery proof of an opportunistic packet. *)
Definition handle_opp_proof (t : Transport) (p : Packet) : branch :=
  if decide (packet_type p = PACKET_PROOF) then
    match tmap (opp_receipts t) !! destination_hash p with
    | Some rec =>
        if validate_proof (or_identity rec) (or_full_hash rec) (data p)
        then done_with (EvDelivered (or_full_hash rec)) (set_opp (table_remove (destination_hash p)) t)
        else fall
    | None => fall
    end
  else fall.

(** 1. Data on an inbound link, by context. *)
Definition undecryptable (t : Transport) (p : Packet) (reason : string) : branch :=
  done_with (EvDataUndecryptable (destination_hash p) reason) t.
Definition unhandled_on_link (t : Transport) (p : Packet) : branch :=
  done_with (EvAddressedUnhandled (destination_hash p) (packet_type p) (context p)) t.

Definition in_link_data (t : Transport) (key : bytes) (p : Packet) : branch :=
  res_case (Link.decrypt key (data p))
    (λ plaintext,
       proof ← prove_packet (identity t) (destination_hash p) p;
       done_with (EvLinkData (destination_hash p) plaintext proof) t)
    (undecryptable t p).

Definition in_link_identify (t : Transport) (key : bytes) (p : Packet) : branch :=
  res_case (Link.decrypt key (data p))
    (λ pt,
       res_case (validate_identify (destination_hash p) pt)
         (λ peer, done_with (EvLinkIdentified (destination_hash p) peer)
            (set_links (table_update (destination_hash p)
               (λ st, mkLinkState (ls_key st) (ls_proof st) (ls_peer_sig_pub st) (Some peer))) t))
         (λ _, done_with (EvDropped "invalid link identify") t))
    (undecryptable t p).

Definition in_link_keepalive (t : Transport) (eph key : bytes) (p : Packet) : branch :=
  res_case (Link.decrypt key (data p))
    (λ pt,
       if decide (pt = [0xFF]) then
         iv ← slice_to eph IV_LENGTH;
         res_case (make_link_context_packet (destination_hash p) key CONTEXT_KEEPALIVE [0xFE] iv)
           (λ reply, done_with (EvLinkKeepalive (destination_hash p) reply) t)
           (λ _, done_with (EvDropped "keepalive echo failed") t)
       else unhandled_on_link t p)
    (undecryptable t p).

Definition in_link_close (t : Transport) (key : bytes) (p : Packet) : branch :=
  res_case (Link.decrypt key (data p))
    (λ pt,
       if decide (pt = destination_hash p)
       then done_with (EvInLinkClosed (destination_hash p)) (set_links (table_remove_all (destination_hash p)) t)
       else done_with (EvDropped "malformed link close") t)
    (undecryptable t p).

Definition in_link_resource (t : Transport) (key : bytes) (p : Packet) : branch :=
  if decide (context p = CONTEXT_RESOURCE)
  then done_with (EvInLinkData (destination_hash p) (context p) (data p)) t
  else
    res_case (Link.decrypt key (data p))
      (λ plaintext, done_with (EvInLinkData (destination_hash p) (context p) plaintext) t)
      (undecryptable t p).

Definition handle_in_link (t : Transport) (eph : bytes) (p : Packet) : branch :=
  match tmap (links t) !! destination_hash p with
  | None => fall
  | Some st =>
      let key := ls_key st in
      if decide (packet_type p = PACKET_DATA ∧ context p = CONTEXT_NONE) then in_link_data t key p
      else if decide (packet_type p = PACKET_DATA ∧ context p = CONTEXT_LINKIDENTIFY) then in_link_identify t key p
      else if decide (packet_type p = PACKET_DATA ∧ context p = CONTEXT_KEEPALIVE) then in_link_keepalive t eph key p
      else if decide (packet_type p = PACKET_DATA ∧ context p = CONTEXT_LINKCLOSE) then in_link_close t key p
      else if decide (packet_type p = PACKET_DATA ∧
          context p ∈ [CONTEXT_RESOURCE_ADV; CONTEXT_RESOURCE; CONTEXT_RESOURCE_HMU; CONTEXT_RESOURCE_REQ])
      then in_link_resource t key p
      else unhandled_on_link t p
  end.

(** The announce branch: the peer and the route to it are learned. *)
Definition handle_announce (t : Transport) (p : Packet) (iface : PathIface) : branch :=
  res_case (parse_and_validate p)
    (λ a,
       let info := mkKnown (pa_identity a) (pa_name_hash a) (pa_ratchet a) (pa_app_data a) in
       let dest := pa_destination_hash a in
       done_with (EvAnnounce dest info)
         (insert_path dest (mkPath (transport_id p) (u8_sat_add (hops p) 1) iface)
            (insert_known dest info t)))
    (λ _, done_with (EvDropped "invalid announce") t).

(** ["rnstransport"], ["path"], ["request"]. *)
Definition path_request_dest : bytes :=
  plain_destination_hash (ascii "rnstransport") [ascii "path"; ascii "request"].

Definition handle_path_request (t : Transport) (p : Packet) : branch :=
  if decide (length (data p) < TRUNCATED_HASHLENGTH)%nat then done_with (EvDropped "short path request") t
  else
    target ← slice_to (data p) TRUNCATED_HASHLENGTH;
    if decide (target ∈ our_dests t) then done_with (EvPathRequest target) t
    else done_with (EvUnhandled (destination_hash p) (packet_type p) (context p)) t.

(** A LINKREQUEST to one of our destinations. *)
Definition handle_link_request (t : Transport) (eph : bytes) (p : Packet) : branch :=
  lid ← link_id_of p;
  match tmap (links t) !! lid with
  | Some st => done_with (EvLinkEstablished lid (ls_proof st)) t
  | None =>
      res_case (accept_request p (identity t) eph)
        (λ est, done_with (EvLinkEstablished (est_link_id est) (est_proof_packet est))
           (insert_link (est_link_id est)
              (mkLinkState (est_derived_key est) (est_proof_packet est) (est_peer_sig_pub est) None) t))
        (λ _, done_with (EvDropped "invalid link request") t)
  end.

(** An opportunistic DATA packet to one of our destinations. *)
Definition handle_opportunistic (t : Transport) (p : Packet) : branch :=
  res_case (Identity.decrypt (identity t) (data p) [])
    (λ plaintext,
       ph ← packet_hash p;
       trunc ← slice_to ph TRUNCATED_HASHLENGTH;
       proof ← encode (header1 DEST_SINGLE PACKET_PROOF CONTEXT_NONE trunc (ph ++ sign (identity t) ph));
       done_with (EvData (destination_hash p) plaintext proof) t)
    (undecryptable t p).

Definition handle_rest (t : Transport) (eph : bytes) (iface : PathIface) (p : Packet) : branch :=
  if decide (packet_type p = PACKET_ANNOUNCE) then handle_announce t p iface
  else if decide (packet_type p = PACKET_DATA ∧ destination_hash p = path_request_dest)
  then handle_path_request t p
  else if decide (destination_hash p ∈ our_dests t) then
    if decide (packet_type p = PACKET_LINKREQUEST) then handle_link_request t eph p
    else if decide (packet_type p = PACKET_DATA) then handle_opportunistic t p
    else done_with (EvAddressedUnhandled (destination_hash p) (packet_type p) (context p)) t
  else done_with (EvUnhandled (destination_hash p) (packet_type p) (context p)) t.

(** The branches in order; the last one always answers. *)
Definition handle_packet (t : Transport) (eph : bytes) (iface : PathIface) (p : Packet) : branch :=
  or_else (handle_lrproof t p)
    (or_else (handle_resource_proof t p)
       (or_else (handle_link_proof t p)
          (or_else (handle_out_link_data t p)
             (or_else (handle_opp_proof t p)
                (or_else (handle_in_link t eph p) (handle_rest t eph iface p)))))).

Definition handle_frame (t : Transport) (raw eph : bytes) (iface : PathIface) : res (Event * Transport) :=
  res_case (Packet.decode raw)
    (λ p,
       r ← handle_packet t eph iface p;
       match r with Some et => mret et | None => Panic end)
    (λ e, mret (EvDropped e, t)).

(** ** Outbound packets *)

(** [fill_bytes] is the random source, with its state. *)
Definition make_announce_with (t : Transport) (app_name : bytes) (aspects : list bytes)
    (app_data random5 : bytes) (unix_time : Z) : res bytes :=
  encode (build_announce (identity t) app_name aspects app_data (random_hash random5 unix_time) None).
Definition make_announce {R} (fill_bytes : R → nat → bytes * R) (t : Transport) (app_name : bytes)
    (aspects : list bytes) (app_data : bytes) (rng : R) (unix_time : Z) : res bytes * R :=
  let '(r5, rng) := fill_bytes rng 5%nat in
  (make_announce_with t app_name aspects app_data r5 unix_time, rng).
Definition make_path_response_with (t : Transport) (app_name : bytes) (aspects : list bytes)
    (app_data random5 : bytes) (unix_time : Z) : res bytes :=
  let p := build_announce (identity t) app_name aspects app_data (random_hash random5 unix_time) None in
  encode (mkPacket (header_type p) (context_flag p) (transport_type p) (destination_type p) (packet_type p)
            (hops p) CONTEXT_PATH_RESPONSE (transport_id p) (destination_hash p) (data p)).
Definition make_path_request (t : Transport) (target tag : bytes) : res bytes :=
  encode (header1 DEST_PLAIN PACKET_DATA CONTEXT_NONE path_request_dest (target ++ tag)).

Definition make_opportunistic_with (t : Transport) (recipient_hash : bytes) (recipient : PublicIdentity)
    (ratchet : option bytes) (plaintext ephemeral_secret iv : bytes) : res bytes :=
  ciphertext ← encrypt recipient plaintext ephemeral_secret iv ratchet;
  raw ← encode (header1 DEST_SINGLE PACKET_DATA CONTEXT_NONE recipient_hash ciphertext);
  apply_transport t recipient_hash raw.
Definition make_opportunistic {R} (fill_bytes : R → nat → bytes * R) (t : Transport) (recipient_hash : bytes)
    (recipient : PublicIdentity) (ratchet : option bytes) (plaintext : bytes) (rng : R) : res bytes * R :=
  let '(eph, rng) := fill_bytes rng KEY_HALF in
  let '(iv, rng) := fill_bytes rng IV_LENGTH in
  (make_opportunistic_with t recipient_hash recipient ratchet plaintext eph iv, rng).
Definition make_opportunistic_tracked (t : Transport) (recipient_hash : bytes) (recipient : PublicIdentity)
    (ratchet : option bytes) (plaintext ephemeral_secret iv : bytes) : res (bytes * bytes * Transport) :=
  ciphertext ← encrypt recipient plaintext ephemeral_secret iv ratchet;
  let packet := header1 DEST_SINGLE PACKET_DATA CONTEXT_NONE recipient_hash ciphertext in
  full ← packet_hash packet;
  trunc ← slice_to full TRUNCATED_HASHLENGTH;
  let t := insert_opp_receipt trunc (mkOppReceipt full recipient) t in
  raw ← encode packet;
  raw ← apply_transport t recipient_hash raw;
  mret (raw, full, t).

Definition pending_expiry_secs (t : Transport) (target : bytes) : Z :=
  let hops := (default 1 (path_hops t target)) `max` 1 in
  PENDING_LINK_EXPIRY_SECS `max` (PER_HOP_TIMEOUT_SECS * (hops + 1)).

Definition make_link_request (t : Transport) (target : bytes) (peer_identity : PublicIdentity)
    (eph_x25519 eph_ed25519 : bytes) (now : Z) : res (bytes * bytes * Transport) :=
  '(raw, link_id) ← initiate_request target eph_x25519 eph_ed25519;
  raw ← apply_transport t target raw;
  mret (raw, link_id,
    insert_pending_out link_id
      (mkPending target eph_x25519 eph_ed25519 peer_identity now (pending_expiry_secs t target)) t).

(** [u64] comparison [now > last_activity.saturating_add(..)]. *)
Definition out_link_idle (now : Z) (l : OutLink) : bool :=
  bool_decide (now > u64_sat_add (ol_last_activity l) OUT_LINK_INACTIVITY_SECS).
Definition outbound_link_for (t : Transport) (target : bytes) (now : Z) : option bytes * Transport :=
  let expired := (filter (λ kv : bytes * OutLink, out_link_idle now kv.2 = true) (iter (tmap (out_links t)))).*1 in
  let t := fold_left (λ t id, remove_out_link id t) expired t in
  let id := fst <$> head (filter (λ kv : bytes * OutLink, ol_target kv.2 = target) (iter (tmap (out_links t)))) in
  match id with
  | Some id =>
      (Some id, set_out_links (table_update id
         (λ l, mkOutLink (ol_target l) (ol_key l) (ol_sig_seed l) (ol_identity l) now)) t)
  | None => (None, t)
  end.

Definition any_link_key (t : Transport) (link_id : bytes) : option bytes :=
  match tmap (out_links t) !! link_id with
  | Some l => Some (ol_key l)
  | None => ls_key <$> tmap (links t) !! link_id
  end.

Definition pending_expired (now : Z) (p : PendingOut) : bool :=
  bool_decide (now > u64_sat_add (po_created p) (po_expiry_secs p)).
Definition pending_link_to (t : Transport) (target : bytes) (now : Z) : bool * Transport :=
  let expired := (filter (λ kv : bytes * PendingOut, pending_expired now kv.2 = true) (iter (tmap (pending_out t)))).*1 in
  let t := fold_left (λ t id, forget_pending_link id t) expired t in
  (existsb (λ kv : bytes * PendingOut, bool_decide (po_target kv.2 = target)) (iter (tmap (pending_out t))), t).

(** The operations on a link: [None] is the error ["None"]. *)
Definition out_link (t : Transport) (link_id : bytes) : res OutLink := ok_or "None" (tmap (out_links t) !! link_id).
Definition in_link (t : Transport) (link_id : bytes) : res LinkState := ok_or "None" (tmap (links t) !! link_id).

(** The bits of [0.1]. *)
Definition rtt_default : Z := 0x3FB999999999999A.
Definition make_link_rtt (t : Transport) (link_id iv : bytes) : res bytes :=
  l ← out_link t link_id; make_rtt_packet link_id (ol_key l) rtt_default iv.

(** Encrypt, register a receipt, and encode: the common end of the two senders. *)
Definition send_link_data (t : Transport) (link_id key plaintext iv : bytes) : res (bytes * bytes * Transport) :=
  ciphertext ← encrypt_data key plaintext iv;
  let packet := header1 DEST_LINK PACKET_DATA CONTEXT_NONE link_id ciphertext in
  ph ← packet_hash packet;
  raw ← encode packet;
  mret (raw, ph, insert_receipt ph link_id t).
Definition make_link_data (t : Transport) (link_id plaintext iv : bytes) : res (bytes * bytes * Transport) :=
  l ← out_link t link_id; send_link_data t link_id (ol_key l) plaintext iv.
Definition make_in_link_data (t : Transport) (link_id plaintext iv : bytes) : res (bytes * bytes * Transport) :=
  st ← in_link t link_id;
  _ ← ok_or "None" (ls_peer_identity st);
  send_link_data t link_id (ls_key st) plaintext iv.

Definition make_out_link_identify (t : Transport) (link_id iv : bytes) : res bytes :=
  l ← out_link t link_id; make_identify link_id (ol_key l) (identity t) iv.
Definition decrypt_out_link (t : Transport) (link_id data : bytes) : res bytes :=
  l ← out_link t link_id; Link.decrypt (ol_key l) data.
Definition decrypt_in_link (t : Transport) (link_id data : bytes) : res bytes :=
  st ← in_link t link_id; Link.decrypt (ls_key st) data.
Definition resource_proof_packet (link_id proof_data : bytes) : res bytes :=
  encode (header1 DEST_LINK PACKET_PROOF CONTEXT_RESOURCE_PRF link_id proof_data).
Definition make_out_link_resource_proof (t : Transport) (link_id proof_data : bytes) : res bytes :=
  _ ← out_link t link_id; resource_proof_packet link_id proof_data.
Definition make_in_link_resource_proof (t : Transport) (link_id proof_data : bytes) : res bytes :=
  _ ← in_link t link_id; resource_proof_packet link_id proof_data.
Definition make_out_link_context (t : Transport) (link_id : bytes) (context : Z) (plaintext iv : bytes) : res bytes :=
  l ← out_link t link_id; make_link_context_packet link_id (ol_key l) context plaintext iv.
Definition make_in_link_context (t : Transport) (link_id : bytes) (context : Z) (plaintext iv : bytes) : res bytes :=
  st ← in_link t link_id; make_link_context_packet link_id (ls_key st) context plaintext iv.

Definition make_link_resource (t : Transport) (link_id data r prefix iv adv_iv : bytes)
  : res (bytes * bytes * Transport) :=
  key ← ok_or "None" (any_link_key t link_id);
  tx ← sender_new data key r prefix iv;
  adv ← make_link_context_packet link_id key CONTEXT_RESOURCE_ADV (advertisement tx) adv_iv;
  mret (adv, rs_hash tx, set_resources (insert link_id tx) t).

(** The packets for a RESOURCE_REQ: parts raw, then the update encrypted. *)
Fixpoint encode_parts (link_id : bytes) (parts : list bytes) : res (list bytes) :=
  match parts with
  | [] => mret []
  | p :: ps =>
      raw ← encode (header1 DEST_LINK PACKET_DATA CONTEXT_RESOURCE link_id p);
      rest ← encode_parts link_id ps;
      mret (raw :: rest)
  end.
Definition serve_link_resource (t : Transport) (link_id req_plaintext hmu_iv : bytes) : res (list bytes) :=
  match out_resources t !! link_id, any_link_key t link_id with
  | Some tx, Some key =>
      '(parts, hmu) ← handle_request tx req_plaintext;
      out ← encode_parts link_id parts;
      match hmu with
      | Some u =>
          res_case (make_link_context_packet link_id key CONTEXT_RESOURCE_HMU u hmu_iv)
            (λ raw, mret (out ++ [raw])) (λ _, mret out)
      | None => mret out
      end
  | _, _ => mret []
  end.
End transport.
