(* ===== verification/TransportInv.v ===== *)
(** Safety of the transport over every input: [handle_frame] always answers, and
    every table stays within its cap in every reachable state. *)
From S2P Require Import Prelude Constants Crypto Packet Identity Announce Link Resource Tables Transport.

(** ** The invariant *)
Record transport_ok (t : Transport) : Prop := {
  tok_known : table_ok MAX_KNOWN (known_t t);
  tok_paths : table_ok MAX_PATHS (paths t);
  tok_links : table_ok MAX_LINKS (links t);
  tok_pending : table_ok MAX_PENDING_OUT (pending_out t);
  tok_out_links : table_ok MAX_OUT_LINKS (out_links t);
  tok_receipts : table_ok MAX_RECEIPTS (receipts t);
  tok_opp : table_ok MAX_RECEIPTS (opp_receipts t);
}.

Lemma transport_new_ok id : transport_ok (transport_new id).
Proof. split; apply table_new_ok. Qed.

Lemma set_dests_ok f t : transport_ok t → transport_ok (set_dests f t).
Proof. by intros []. Qed.
Lemma set_resources_ok f t : transport_ok t → transport_ok (set_resources f t).
Proof. by intros []. Qed.
Lemma set_known_ok f t : (∀ x, table_ok MAX_KNOWN x → table_ok MAX_KNOWN (f x)) →
  transport_ok t → transport_ok (set_known f t).
Proof. intros Hf []. by constructor; cbn; auto. Qed.
Lemma set_paths_ok f t : (∀ x, table_ok MAX_PATHS x → table_ok MAX_PATHS (f x)) →
  transport_ok t → transport_ok (set_paths f t).
Proof. intros Hf []. by constructor; cbn; auto. Qed.
Lemma set_links_ok f t : (∀ x, table_ok MAX_LINKS x → table_ok MAX_LINKS (f x)) →
  transport_ok t → transport_ok (set_links f t).
Proof. intros Hf []. by constructor; cbn; auto. Qed.
Lemma set_pending_ok f t : (∀ x, table_ok MAX_PENDING_OUT x → table_ok MAX_PENDING_OUT (f x)) →
  transport_ok t → transport_ok (set_pending f t).
Proof. intros Hf []. by constructor; cbn; auto. Qed.
Lemma set_out_links_ok f t : (∀ x, table_ok MAX_OUT_LINKS x → table_ok MAX_OUT_LINKS (f x)) →
  transport_ok t → transport_ok (set_out_links f t).
Proof. intros Hf []. by constructor; cbn; auto. Qed.
Lemma set_receipts_ok f t : (∀ x, table_ok MAX_RECEIPTS x → table_ok MAX_RECEIPTS (f x)) →
  transport_ok t → transport_ok (set_receipts f t).
Proof. intros Hf []. by constructor; cbn; auto. Qed.
Lemma set_opp_ok f t : (∀ x, table_ok MAX_RECEIPTS x → table_ok MAX_RECEIPTS (f x)) →
  transport_ok t → transport_ok (set_opp f t).
Proof. intros Hf []. by constructor; cbn; auto. Qed.
#[export] Hint Resolve set_dests_ok set_resources_ok set_known_ok set_paths_ok set_links_ok set_pending_ok
  set_out_links_ok set_receipts_ok set_opp_ok : rns.

Lemma caps_pos : (0 < MAX_KNOWN ∧ 0 < MAX_PATHS ∧ 0 < MAX_LINKS ∧ 0 < MAX_PENDING_OUT ∧
  0 < MAX_OUT_LINKS ∧ 0 < MAX_RECEIPTS)%nat.
Proof. repeat split; apply Nat.lt_0_succ. Qed.

Lemma insert_known_ok h i t : transport_ok t → transport_ok (insert_known h i t).
Proof. apply set_known_ok. intros. apply table_insert_ok; [apply caps_pos|done]. Qed.
Lemma insert_path_ok h e t : transport_ok t → transport_ok (insert_path h e t).
Proof. apply set_paths_ok. intros. apply table_insert_ok; [apply caps_pos|done]. Qed.
Lemma insert_link_ok l s t : transport_ok t → transport_ok (insert_link l s t).
Proof. apply set_links_ok. intros. apply table_insert_ok; [apply caps_pos|done]. Qed.
Lemma insert_pending_out_ok l s t : transport_ok t → transport_ok (insert_pending_out l s t).
Proof. apply set_pending_ok. intros. apply table_insert_ok; [apply caps_pos|done]. Qed.
Lemma insert_out_link_ok l s t : transport_ok t → transport_ok (insert_out_link l s t).
Proof. apply set_out_links_ok. intros. apply table_insert_ok; [apply caps_pos|done]. Qed.
Lemma insert_receipt_ok l s t : transport_ok t → transport_ok (insert_receipt l s t).
Proof. apply set_receipts_ok. intros. apply table_insert_ok; [apply caps_pos|done]. Qed.
Lemma insert_opp_receipt_ok l s t : transport_ok t → transport_ok (insert_opp_receipt l s t).
Proof. apply set_opp_ok. intros. apply table_insert_ok; [apply caps_pos|done]. Qed.
Lemma remove_out_link_ok l t : transport_ok t → transport_ok (remove_out_link l t).
Proof. intros. apply set_out_links_ok; auto with rns. Qed.
Lemma forget_pending_link_ok l t : transport_ok t → transport_ok (forget_pending_link l t).
Proof. intros. apply set_pending_ok; auto with rns. Qed.
#[export] Hint Resolve insert_known_ok insert_path_ok insert_link_ok insert_pending_out_ok insert_out_link_ok
  insert_receipt_ok insert_opp_receipt_ok remove_out_link_ok forget_pending_link_ok : rns.

Section inv.
Context `{C : Crypto} `{I : HashIter}.

(** What holds of the event and the state of a branch that answers. *)
Definition answer_sat (Q : Event → Transport → Prop) (b : branch) : Prop :=
  ∀ e t', b = Ok (Some (e, t')) → Q e t'.

Section sat.
Context (Q : Event → Transport → Prop).
Lemma answer_fall : answer_sat Q fall.
Proof. done. Qed.
Lemma answer_done e t : Q e t → answer_sat Q (done_with e t).
Proof. by intros Ht ?? [= <- <-]. Qed.
Lemma answer_or_else b1 b2 : answer_sat Q b1 → answer_sat Q b2 → answer_sat Q (or_else b1 b2).
Proof. intros H1 H2. by destruct b1 as [[?|]| |]. Qed.
Lemma answer_case {A} (r : res A) f g : (∀ a, r = Ok a → answer_sat Q (f a)) → (∀ e, answer_sat Q (g e)) →
  answer_sat Q (res_case r f g).
Proof. intros Hf Hg. destruct r; cbn; [by apply Hf|apply Hg|done]. Qed.
Lemma answer_bind {A} (r : res A) (f : A → branch) : (∀ a, r = Ok a → answer_sat Q (f a)) → answer_sat Q (r ≫= f).
Proof. intros Hf. destruct r; res_simpl; [by apply Hf|done..]. Qed.
End sat.

Definition answer_ok : branch → Prop := answer_sat (λ _ t', transport_ok t').
End inv.

(** Walks a branch down to its answers, and closes each with [tac]. *)
Ltac walk tac := repeat first
  [ apply answer_fall | apply answer_done; solve [tac]
  | apply answer_bind; intros | apply answer_case; intros
  | progress unfold undecryptable, unhandled_on_link
  | match goal with
    | |- answer_sat _ (if decide ?P then _ else _) => destruct (decide P)
    | |- answer_sat _ (match ?x with _ => _ end) => destruct x eqn:?
    end ].
(** The same over all the branches of [handle_packet]. *)
Ltac walk_packet tac :=
  unfold handle_packet; repeat apply answer_or_else;
  unfold handle_lrproof, handle_resource_proof, handle_link_proof, handle_out_link_data, handle_opp_proof,
    handle_in_link, in_link_data, in_link_identify, in_link_keepalive, in_link_close, in_link_resource,
    handle_rest, handle_announce, handle_path_request, handle_link_request, handle_opportunistic;
  cbv zeta; walk tac.

Section steps.
Context `{C : Crypto} `{I : HashIter}.

Lemma handle_packet_ok t eph iface p : transport_ok t → answer_ok (handle_packet t eph iface p).
Proof. intros Ht. unfold answer_ok. walk_packet ltac:(auto 8 with rns). Qed.

Lemma handle_frame_ok t raw eph iface e t' : transport_ok t →
  handle_frame t raw eph iface = Ok (e, t') → transport_ok t'.
Proof.
  intros Ht. unfold handle_frame. destruct (Packet.decode raw) as [p| |]; cbn [res_case]; [|by intros [= _ <-]|done].
  intros ([[e1 t1]|] & Hp & Hr)%res_bind_ok; [|done]. injection Hr as -> ->.
  by eapply handle_packet_ok.
Qed.

(** ** Every call that changes the state *)
Inductive transport_step : Transport → Transport → Prop :=
  | ts_frame t raw eph iface e t' : handle_frame t raw eph iface = Ok (e, t') → transport_step t t'
  | ts_register t h : transport_step t (register_destination h t)
  | ts_remember t h i : transport_step t (remember h i t)
  | ts_drop_paths t i : transport_step t (drop_paths_on i t)
  | ts_expire_path t h : transport_step t (expire_path h t).2
  | ts_opportunistic t h id rt pt eph iv raw full t' :
      make_opportunistic_tracked t h id rt pt eph iv = Ok (raw, full, t') → transport_step t t'
  | ts_link_request t h id ex ee now raw lid t' :
      make_link_request t h id ex ee now = Ok (raw, lid, t') → transport_step t t'
  | ts_outbound_link t h now : transport_step t (outbound_link_for t h now).2
  | ts_pending_link t h now : transport_step t (pending_link_to t h now).2
  | ts_drop_out_link t l : transport_step t (drop_out_link l t)
  | ts_forget_pending t l : transport_step t (forget_pending_link l t)
  | ts_reset t : transport_step t (connection_reset t)
  | ts_link_data t l pt iv raw ph t' : make_link_data t l pt iv = Ok (raw, ph, t') → transport_step t t'
  | ts_in_link_data t l pt iv raw ph t' : make_in_link_data t l pt iv = Ok (raw, ph, t') → transport_step t t'
  | ts_link_resource t l d r pre iv aiv raw h t' :
      make_link_resource t l d r pre iv aiv = Ok (raw, h, t') → transport_step t t'.

Lemma fold_steps_ok {A} (f : A → Transport → Transport) l t :
  (∀ a t, transport_ok t → transport_ok (f a t)) → transport_ok t →
  transport_ok (fold_left (λ t a, f a t) l t).
Proof. intros Hf. revert t. induction l; cbn; auto. Qed.

Lemma send_link_data_ok t l key pt iv raw ph t' : transport_ok t →
  send_link_data t l key pt iv = Ok (raw, ph, t') → transport_ok t'.
Proof.
  intros Ht. unfold send_link_data. cbv zeta.
  intros (ct & _ & (h & _ & (r & _ & Hr)%res_bind_ok)%res_bind_ok)%res_bind_ok.
  injection Hr as _ _ <-. auto with rns.
Qed.

Lemma transport_step_ok t t' : transport_step t t' → transport_ok t → transport_ok t'.
Proof.
  destruct 1 as [t raw eph iface e t' H|t h|t h i|t i|t h|t h id rt pt eph iv raw full t' H
    |t h id ex ee now raw lid t' H|t h now|t h now|t l|t l|t|t l pt iv raw ph t' H|t l pt iv raw ph t' H
    |t l d r pre iv aiv raw h t' H]; intros Ht.
  - by eapply handle_frame_ok.
  - unfold register_destination. auto with rns.
  - unfold remember. auto with rns.
  - apply set_paths_ok; auto with rns.
  - unfold expire_path. destruct (_ !! h); cbn [snd]; [apply set_paths_ok; auto with rns|done].
  - unfold make_opportunistic_tracked in H. cbv zeta in H.
    apply res_bind_ok in H as (ct & _ & (f & _ & (tr & _ & (r1 & _ & (r2 & _ & Hr)%res_bind_ok)%res_bind_ok)%res_bind_ok)%res_bind_ok).
    injection Hr as _ _ <-. auto with rns.
  - unfold make_link_request in H. apply res_bind_ok in H as ([r1 l] & _ & (r2 & _ & Hr)%res_bind_ok).
    injection Hr as _ _ <-. auto with rns.
  - unfold outbound_link_for. cbv zeta.
    set (t1 := fold_left _ _ t). assert (transport_ok t1) by (apply fold_steps_ok; auto with rns).
    destruct (fst <$> head _); cbn [snd]; [apply set_out_links_ok; auto with rns|done].
  - unfold pending_link_to. cbn [snd]. apply fold_steps_ok; auto with rns.
  - unfold drop_out_link. auto with rns.
  - auto with rns.
  - destruct Ht. by constructor; cbn; auto with rns.
  - apply res_bind_ok in H as (ol & _ & H). by eapply send_link_data_ok.
  - apply res_bind_ok in H as (ol & _ & (x & _ & H)%res_bind_ok). by eapply send_link_data_ok.
  - apply res_bind_ok in H as (k & _ & (tx & _ & (adv & _ & Hr)%res_bind_ok)%res_bind_ok).
    injection Hr as _ _ <-. auto with rns.
Qed.
End steps.

(** ** Every frame is answered *)
Section total.
Context `{C : Crypto} `{I : HashIter} `{!HashOK, !KdfOK}.

(** A branch that neither panics nor errs: it falls through or answers. *)
Definition returns {A} (r : res A) : Prop := ∃ a, r = Ok a.

Lemma returns_ok {A} (a : A) : returns (Ok a).
Proof. by exists a. Qed.
Lemma returns_bind {A B} (r : res A) (f : A → res B) :
  returns r → (∀ a, r = Ok a → returns (f a)) → returns (r ≫= f).
Proof. intros [a ->] Hf. by apply Hf. Qed.
Lemma returns_case {A B} (r : res A) (f : A → res B) g :
  no_panic r → (∀ a, returns (f a)) → (∀ e, returns (g e)) → returns (res_case r f g).
Proof. intros Hr Hf Hg. destruct r; cbn; [apply Hf|apply Hg|by destruct Hr]. Qed.
Lemma returns_or_else b1 b2 : returns b1 → returns b2 → returns (or_else b1 b2).
Proof. intros [[a|] ->] H2; [by exists (Some a)|done]. Qed.

Lemma prove_packet_returns id lid p : tid_ok p → returns (prove_packet id lid p).
Proof. intros (ph & _ & ->)%(prove_packet_ok id lid). rewrite encode_ok by done. apply returns_ok. Qed.
Lemma prove_packet_ephemeral_returns seed lid p : tid_ok p → returns (prove_packet_ephemeral seed lid p).
Proof. intros (ph & _ & ->)%(prove_packet_ephemeral_ok seed lid). rewrite encode_ok by done. apply returns_ok. Qed.
Lemma link_id_returns p : tid_ok p → returns (link_id_of p).
Proof. intros (hp & E & _)%link_id_ok. unfold link_id_of. rewrite E. apply returns_ok. Qed.
Lemma encode_header1_returns dt pt cx dest d : returns (encode (header1 dt pt cx dest d)).
Proof. rewrite encode_ok by done. apply returns_ok. Qed.
Hint Resolve prove_packet_returns prove_packet_ephemeral_returns link_id_returns encode_header1_returns
  parse_no_panic : rns.

Ltac runs := repeat first
  [ apply returns_ok | solve [auto with rns]
  | apply returns_bind; [solve [auto with rns]|intros]
  | apply returns_case; [solve [auto with rns]|intros..]
  | progress unfold undecryptable, unhandled_on_link, fall, done_with
  | match goal with
    | |- returns (if decide ?P then _ else _) => destruct (decide P)
    | |- returns (match ?x with _ => _ end) => destruct x
    end ].

Lemma proof_candidates_returns t lid d : returns (proof_candidates t lid d).
Proof.
  unfold proof_candidates. case_decide; [|apply returns_ok]. rewrite slice_to_ok by lia. apply returns_ok.
Qed.
Hint Resolve proof_candidates_returns : rns.

Lemma handle_in_link_returns t eph p : tid_ok p → length eph = KEY_HALF → returns (handle_in_link t eph p).
Proof.
  intros Hp He. unfold handle_in_link, in_link_data, in_link_identify, in_link_keepalive, in_link_close,
    in_link_resource. cbv zeta.
  rewrite slice_to_ok by (rewrite He; wlen). runs.
Qed.

(** The last group of branches always answers. *)
Lemma handle_opportunistic_returns t p : tid_ok p → ∃ et, handle_opportunistic t p = Ok (Some et).
Proof.
  intros Hp. unfold handle_opportunistic.
  pose proof (identity_decrypt_no_panic (identity t) (data p) []) as Hnp.
  destruct (Identity.decrypt _ _ _) as [pt|e|]; cbn [res_case]; [|by eexists|done].
  rewrite packet_hash_ok by done. res_simpl.
  rewrite slice_to_ok by (unfold full_hash; rewrite sha256_length; wlen). res_simpl.
  rewrite encode_ok by done. res_simpl. by eexists.
Qed.
Lemma handle_link_request_returns t eph p : tid_ok p → ∃ et, handle_link_request t eph p = Ok (Some et).
Proof.
  intros Hp. unfold handle_link_request. destruct (link_id_returns p Hp) as [lid ->]. res_simpl.
  destruct (_ !! lid); [by eexists|].
  pose proof (accept_request_no_panic p (identity t) eph Hp) as Hnp.
  destruct (accept_request _ _ _); cbn [res_case]; [by eexists|by eexists|done].
Qed.
Lemma handle_rest_returns t eph iface p : tid_ok p → ∃ et, handle_rest t eph iface p = Ok (Some et).
Proof.
  intros Hp. unfold handle_rest. case_decide.
  { unfold handle_announce. pose proof (parse_no_panic p) as Hnp.
    destruct (parse_and_validate p); cbn [res_case]; [by eexists|by eexists|done]. }
  case_decide.
  { unfold handle_path_request. case_decide; [by eexists|]. rewrite slice_to_ok by lia. res_simpl.
    case_decide; by eexists. }
  case_decide; [|by eexists]. case_decide; [by apply handle_link_request_returns|].
  case_decide; [by apply handle_opportunistic_returns|by eexists].
Qed.

Lemma handle_packet_answers t eph iface p : tid_ok p → length eph = KEY_HALF →
  ∃ et, handle_packet t eph iface p = Ok (Some et).
Proof.
  intros Hp He. unfold handle_packet.
  assert (∀ b1 b2, returns b1 → (∃ et, b2 = Ok (Some et)) → ∃ et, or_else b1 b2 = Ok (Some et)) as Hor
    by (intros b1 b2 [[a|] ->] Hb2; [by eexists|done]).
  apply Hor; [|apply Hor; [|apply Hor; [|apply Hor; [|apply Hor; [|apply Hor]]]]].
  - unfold handle_lrproof. cbv zeta. runs.
  - unfold handle_resource_proof. runs.
  - unfold handle_link_proof. cbv zeta. runs.
  - unfold handle_out_link_data. cbv zeta. runs.
  - unfold handle_opp_proof. runs.
  - by apply handle_in_link_returns.
  - by apply handle_rest_returns.
Qed.
End total.

(** ** Properties *)

(** C4: No frame from the network can crash the transport: for every state and every
    byte string, [handle_frame] returns an event and a new state (it neither
    panics nor leaves a frame without an answer). *)
Theorem handle_frame_total `{C : Crypto} `{I : HashIter} `{!HashOK, !KdfOK}
  (t : Transport) (raw eph : bytes) (iface : PathIface) (He : length eph = KEY_HALF) :
  ∃ e t', handle_frame t raw eph iface = Ok (e, t').
Proof.
  unfold handle_frame. pose proof (decode_no_panic raw) as Hnp.
  destruct (Packet.decode raw) as [p|e|] eqn:Ed; cbn [res_case]; [|by eauto|done].
  apply decode_inv in Ed as (_ & _ & _ & Hp & _).
  destruct (handle_packet_answers t eph iface p Hp He) as [[e t'] ->]. res_simpl. eauto.
Qed.

(** C5: Memory is bounded: in every state reachable by any sequence of frames and calls,
    each of the seven tables has at most its cap of entries, and so has the queue
    that orders them. *)
Theorem tables_bounded `{C : Crypto} `{I : HashIter} (id : PrivateIdentity) (t : Transport)
  (Hr : rtc transport_step (transport_new id) t) :
  (size (tmap (known_t t)) ≤ MAX_KNOWN ∧ size (tmap (paths t)) ≤ MAX_PATHS ∧
   size (tmap (links t)) ≤ MAX_LINKS ∧ size (tmap (pending_out t)) ≤ MAX_PENDING_OUT ∧
   size (tmap (out_links t)) ≤ MAX_OUT_LINKS ∧ size (tmap (receipts t)) ≤ MAX_RECEIPTS ∧
   size (tmap (opp_receipts t)) ≤ MAX_RECEIPTS)%nat ∧
  (length (torder (known_t t)) ≤ MAX_KNOWN ∧ length (torder (paths t)) ≤ MAX_PATHS ∧
   length (torder (links t)) ≤ MAX_LINKS ∧ length (torder (pending_out t)) ≤ MAX_PENDING_OUT ∧
   length (torder (out_links t)) ≤ MAX_OUT_LINKS ∧ length (torder (receipts t)) ≤ MAX_RECEIPTS ∧
   length (torder (opp_receipts t)) ≤ MAX_RECEIPTS)%nat.
Proof.
  assert (transport_ok t) as [].
  { pose proof (transport_new_ok id) as H0. induction Hr as [|t1 t2 t3 Hs _ IH]; [done|].
    apply IH. by eapply transport_step_ok. }
  split; split_and!; try (by apply table_ok_size); by apply table_ok_order.
Qed.

(** ** Witnesses *)
Import ToyInstances.
#[local] Instance w_iter : HashIter := λ V m, map_to_list m.

Lemma handle_frame_total_witness :
  ∃ e t', handle_frame (transport_new w_id) [0x0d; 0; 1; 2; 3] (replicate 32 9) Hub = Ok (e, t').
Proof. by apply handle_frame_total. Defined.

Lemma tables_bounded_witness :
  ∃ t, rtc transport_step (transport_new w_id) t ∧ (length (torder (known_t t)) ≤ MAX_KNOWN)%nat.
Proof.
  set (info := mkKnown (public w_id) (replicate 10 1) None []).
  exists (remember (replicate 16 7) info (register_destination (replicate 16 5) (transport_new w_id))).
  assert (rtc transport_step (transport_new w_id)
    (remember (replicate 16 7) info (register_destination (replicate 16 5) (transport_new w_id)))) as Hr.
  { eapply rtc_l; [apply ts_register|]. eapply rtc_l; [apply ts_remember|apply rtc_refl]. }
  split; [exact Hr|]. exact (proj1 (proj2 (tables_bounded w_id _ Hr))).
Defined.
