(* ===== verification/TransportFlow.v ===== *)
(** What the transport does: routing, links, delivery and its proofs, across the two
    ends of a conversation. *)
From S2P Require Import Prelude Constants Crypto Packet Identity Announce Link Resource Tables Transport TransportInv.

(** ** Routes *)

(** A next hop in the path table is a 16-byte transport id. *)
Definition paths_ok (t : Transport) : Prop := ∀ dest e nh,
  tmap (paths t) !! dest = Some e → pe_next_hop e = Some nh → length nh = TRUNCATED_HASHLENGTH.

Section routes.
Context `{C : Crypto} `{I : HashIter}.

(** Only a valid announce changes the routes. *)
Lemma handle_packet_paths t eph iface p e t' : handle_packet t eph iface p = Ok (Some (e, t')) →
  paths t' = paths t ∨
  ∃ a, parse_and_validate p = Ok a ∧
    paths t' = table_insert MAX_PATHS (pa_destination_hash a)
      (mkPath (transport_id p) (u8_sat_add (hops p) 1) iface) (paths t).
Proof.
  revert e t'. change (answer_sat (λ e t', paths t' = paths t ∨ ∃ a, parse_and_validate p = Ok a ∧
    paths t' = table_insert MAX_PATHS (pa_destination_hash a)
      (mkPath (transport_id p) (u8_sat_add (hops p) 1) iface) (paths t)) (handle_packet t eph iface p)).
  walk_packet ltac:(first [by left | right; eauto]).
Qed.

Lemma paths_ok_insert dest e t t' : paths_ok t →
  paths t' = table_insert MAX_PATHS dest e (paths t) →
  (∀ nh, pe_next_hop e = Some nh → length nh = TRUNCATED_HASHLENGTH) → paths_ok t'.
Proof.
  intros Ht E He d e' nh Hd Hnh. rewrite E in Hd. destruct (decide (d = dest)) as [->|Hne].
  - rewrite table_insert_lookup in Hd. injection Hd as <-. by apply He.
  - apply table_insert_other in Hd; [|done]. by eapply Ht.
Qed.

Lemma fold_paths {A} (f : A → Transport → Transport) l t : (∀ a t, paths (f a t) = paths t) →
  paths (fold_left (λ t a, f a t) l t) = paths t.
Proof. intros Hf. revert t. induction l as [|a l IH]; intros t; cbn; [done|]. by rewrite IH, Hf. Qed.

Lemma paths_ok_eq t t' : paths t' = paths t → paths_ok t → paths_ok t'.
Proof. intros E Ht d e nh. rewrite E. apply Ht. Qed.

Lemma transport_step_paths t t' : transport_step t t' → paths_ok t → paths_ok t'.
Proof.
  destruct 1 as [t raw eph iface e t' H|t h|t h i|t i|t h|t h id rt pt eph iv raw full t' H
    |t h id ex ee now raw lid t' H|t h now|t h now|t l|t l|t|t l pt iv raw ph t' H|t l pt iv raw ph t' H
    |t l d r pre iv aiv raw h t' H]; intros Ht; try exact Ht.
  - unfold handle_frame in H. destruct (Packet.decode raw) as [p| |] eqn:Ed; cbn [res_case] in H; [|by injection H as _ <-|done].
    apply res_bind_ok in H as ([[e1 t1]|] & Hp & Hr); [|done]. injection Hr as -> ->.
    apply decode_inv in Ed as (_ & _ & _ & Htid & _).
    apply handle_packet_paths in Hp as [Hp|(a & _ & Hp)]; [by eapply paths_ok_eq|].
    eapply paths_ok_insert; [done..|]. cbn. intros nh Hnh. unfold tid_ok in Htid.
    rewrite Hnh in Htid. by destruct (header_type p).
  - intros d e nh Hd. cbn in Hd. apply map_lookup_filter_Some in Hd as [Hd _]. by eapply Ht.
  - unfold expire_path. destruct (_ !! h); cbn [snd]; [|done].
    intros d e nh Hd. cbn in Hd. apply lookup_delete_Some in Hd as [_ Hd]. by eapply Ht.
  - unfold make_opportunistic_tracked in H. cbv zeta in H.
    apply res_bind_ok in H as (ct & _ & (f & _ & (tr & _ & (r1 & _ & (r2 & _ & Hr)%res_bind_ok)%res_bind_ok)%res_bind_ok)%res_bind_ok).
    by injection Hr as _ _ <-.
  - unfold make_link_request in H. apply res_bind_ok in H as ([r1 l] & _ & (r2 & _ & Hr)%res_bind_ok).
    by injection Hr as _ _ <-.
  - eapply paths_ok_eq; [|done]. unfold outbound_link_for. cbv zeta.
    destruct (fst <$> head _); cbn [snd]; apply (fold_paths remove_out_link); done.
  - eapply paths_ok_eq; [|done]. unfold pending_link_to. cbn [snd].
    apply (fold_paths forget_pending_link). done.
  - apply res_bind_ok in H as (ol & _ & (ct & _ & (h & _ & (r & _ & Hr)%res_bind_ok)%res_bind_ok)%res_bind_ok).
    by injection Hr as _ _ <-.
  - apply res_bind_ok in H as (ol & _ & (x & _ & (ct & _ & (h & _ & (r & _ & Hr)%res_bind_ok)%res_bind_ok)%res_bind_ok)%res_bind_ok).
    by injection Hr as _ _ <-.
  - apply res_bind_ok in H as (k & _ & (tx & _ & (adv & _ & Hr)%res_bind_ok)%res_bind_ok).
    by injection Hr as _ _ <-.
Qed.

Lemma reachable_paths id t : rtc transport_step (transport_new id) t → paths_ok t.
Proof.
  intros Hr. assert (paths_ok (transport_new id)) as H0 by (intros d e nh Hd; cbn in Hd; by rewrite lookup_empty in Hd).
  induction Hr as [|t1 t2 t3 Hs _ IH]; [done|]. apply IH. by eapply transport_step_paths.
Qed.

(** The packet a rewrite puts on the wire. *)
Definition routed (p : Packet) (nh : bytes) : Packet :=
  mkPacket Two false TRANSPORT_TRANSPORT (destination_type p) (packet_type p) (hops p) (context p) (Some nh)
    (destination_hash p) (data p).

Lemma routed_flags p : flags_ok p → header_type p = One →
  Z.lor (Z.lor (u8_shl HEADER_2 6) (u8_shl TRANSPORT_TRANSPORT 4)) (Z.land (packed_flags p) 0x0F) =
    packed_flags (routed p []) ∧
  Z.shiftr (Z.land (packed_flags p) 0x40) 6 = HEADER_1 ∧
  Z.land (packed_flags p) 0x0F = Z.land (packed_flags (routed p [])) 0x0F.
Proof.
  destruct p as [ht cf tt dt pt ? ? ? ? ?]. unfold flags_ok. cbn -[packed_flags].
  rewrite !elem_of_cons. intros (Ht & Hd & Hp) ->.
  destruct cf;
    destruct Ht as [-> |[-> |Ht]]; try (by apply not_elem_of_nil in Ht);
    destruct Hd as [-> |[-> |[-> |[-> |Hd]]]]; try (by apply not_elem_of_nil in Hd);
    destruct Hp as [-> |[-> |[-> |[-> |Hp]]]]; try (by apply not_elem_of_nil in Hp);
    vm_compute; split_and!; reflexivity.
Qed.

(** What [apply_transport] makes of an encoded HEADER_1 packet. *)
Lemma apply_transport_ok t dest p raw : paths_ok t → packet_ok p → header_type p = One →
  encode p = Ok raw →
  ∃ raw' p', apply_transport t dest raw = Ok raw' ∧ decode raw' = Ok p' ∧ packet_ok p' ∧
    (p' = p ∧ raw' = raw ∧ (∀ e nh, tmap (paths t) !! dest = Some e → pe_next_hop e = Some nh → pe_hops e ≤ 1) ∨
     ∃ e nh, tmap (paths t) !! dest = Some e ∧ pe_next_hop e = Some nh ∧ 1 < pe_hops e ∧ p' = routed p nh).
Proof.
  intros Hpaths Hp Hone Henc. destruct (packet_roundtrip p Hp) as (raw1 & Henc1 & Hdec).
  assert (raw1 = raw) as -> by congruence. unfold apply_transport.
  destruct (tmap (paths t) !! dest) as [e|] eqn:Ee; [|exists raw, p; split_and!; auto; left; split_and!; [done..|]; by intros].
  case_decide as Hh.
  { exists raw, p. split_and!; auto. left. split_and!; [done..|]. intros e' nh [= <-]. done. }
  destruct (pe_next_hop e) as [nh|] eqn:En.
  2: { exists raw, p. split_and!; auto. left. split_and!; [done..|]. intros e' nh [= <-]. congruence. }
  destruct Hp as (Htid & Hfl & Hdl). destruct (routed_flags p Hfl Hone) as (F1 & F2 & F3).
  assert (transport_id p = None) as Hnone by (unfold tid_ok in Htid; rewrite Hone in Htid; by destruct (transport_id p)).
  rewrite encode_ok in Henc by done. rewrite Hnone in Henc. apply Ok_inj in Henc. cbn [default from_option app] in Henc.
  assert (packet_ok (routed p nh)) as Hrok.
  { split_and!; [|split_and!; [by right; left|apply Hfl|apply Hfl]|done].
    unfold tid_ok. cbn. by eapply Hpaths. }
  destruct (packet_roundtrip (routed p nh) Hrok) as (raw2 & Henc2 & Hdec2).
  exists raw2, (routed p nh). split_and!; [|done|done|by right; exists e, nh; split_and!; [..|lia|]].
  subst raw. rewrite F2. rewrite decide_False by auto.
  unfold index. cbn [lookup list_lookup expect]. res_simpl.
  rewrite (slice_from_at [packed_flags p; hops p] (destination_hash p ++ [context p] ++ data p)) by (app_norm || done).
  res_simpl. rewrite F1.
  rewrite encode_ok in Henc2 by apply Hrok. rewrite <-Henc2. done.
Qed.

(** The rewrite keeps everything the other end hashes. *)
Lemma routed_same p nh : packet_ok p → header_type p = One → length nh = TRUNCATED_HASHLENGTH →
  packet_hash (routed p nh) = packet_hash p ∧ link_id (routed p nh) = link_id p.
Proof.
  intros (Htid & Hfl & _) Hone Hnh. destruct (routed_flags p Hfl Hone) as (_ & _ & F3).
  assert (hashable_part (routed p nh) = hashable_part p) as E.
  { rewrite !hashable_part_ok by done. rewrite F3. done. }
  unfold packet_hash, link_id. by rewrite E.
Qed.
End routes.

(** ** What an answer implies *)
Section answers.
Context `{C : Crypto} `{I : HashIter}.

(** [EvDelivered h] is only ever the answer to a proof of an outstanding transfer:
    of a resource served on the link, of a packet sent on the link, or of an
    opportunistic packet; and the answered entry is gone afterwards. *)
Definition delivery_proven (t : Transport) (p : Packet) (h : bytes) (t' : Transport) : Prop :=
  packet_type p = PACKET_PROOF ∧
  ((∃ tx, context p = CONTEXT_RESOURCE_PRF ∧ out_resources t !! destination_hash p = Some tx ∧
      proof_is_valid tx (data p) = true ∧ h = rs_hash tx ∧
      out_resources t' = delete (destination_hash p) (out_resources t)) ∨
   (∃ key, context p = CONTEXT_NONE ∧ link_proof_key t (destination_hash p) = Some key ∧
      tmap (receipts t) !! h = Some (destination_hash p) ∧ validate_proof_sig key h (data p) = true ∧
      tmap (receipts t') = delete h (tmap (receipts t))) ∨
   (∃ rec, tmap (opp_receipts t) !! destination_hash p = Some rec ∧ h = or_full_hash rec ∧
      validate_proof (or_identity rec) h (data p) = true ∧
      tmap (opp_receipts t') = delete (destination_hash p) (tmap (opp_receipts t)))).

Lemma find_receipt_some t key lid d l ph : find_receipt t key lid d l = Some ph →
  tmap (receipts t) !! ph = Some lid ∧ validate_proof_sig key ph d = true.
Proof.
  induction l as [|x l IH]; cbn; [done|]. destruct (decide _) as [H|]; [|done]. by intros [= <-].
Qed.

Lemma handle_packet_delivered t eph iface p h t' :
  handle_packet t eph iface p = Ok (Some (EvDelivered h, t')) → delivery_proven t p h t'.
Proof.
  cut (answer_sat (λ e t', ∀ h, e = EvDelivered h → delivery_proven t p h t') (handle_packet t eph iface p)).
  { intros H1 H2. by eapply H1. }
  walk_packet ltac:(first [by intros ? [=] | intros ? [= <-]; split; [naive_solver|];
    first [ left; eexists; split_and!; [naive_solver|eassumption..|done|done]
          | right; left; eexists; split_and!; [naive_solver|eassumption|eapply find_receipt_some; eassumption..|done]
          | right; right; eexists; by split_and! ]]).
Qed.

(** Only a valid announce changes the known destinations or the routes, and then
    exactly as the announce says. *)
Definition learned (p : Packet) (iface : PathIface) (a : ParsedAnnounce) (t t' : Transport) : Prop :=
  known_t t' = table_insert MAX_KNOWN (pa_destination_hash a)
    (mkKnown (pa_identity a) (pa_name_hash a) (pa_ratchet a) (pa_app_data a)) (known_t t) ∧
  paths t' = table_insert MAX_PATHS (pa_destination_hash a)
    (mkPath (transport_id p) (u8_sat_add (hops p) 1) iface) (paths t).

Lemma handle_packet_learns t eph iface p e t' : handle_packet t eph iface p = Ok (Some (e, t')) →
  known_t t' = known_t t ∧ paths t' = paths t ∨
  ∃ a, packet_type p = PACKET_ANNOUNCE ∧ parse_and_validate p = Ok a ∧ learned p iface a t t'.
Proof.
  revert e t'. change (answer_sat (λ e t', known_t t' = known_t t ∧ paths t' = paths t ∨
    ∃ a, packet_type p = PACKET_ANNOUNCE ∧ parse_and_validate p = Ok a ∧ learned p iface a t t')
    (handle_packet t eph iface p)).
  walk_packet ltac:(first [by left | right; eexists; by split_and!]).
Qed.

(** A frame that is answered at all is answered by its packet. *)
Lemma handle_frame_inv t raw eph iface e t' : handle_frame t raw eph iface = Ok (e, t') →
  (∃ p, decode raw = Ok p ∧ handle_packet t eph iface p = Ok (Some (e, t'))) ∨
  (∃ r, decode raw = Err r ∧ e = EvDropped r ∧ t' = t).
Proof.
  unfold handle_frame. destruct (decode raw) as [p|r|]; cbn [res_case]; [|by intros [= <- <-]; right; exists r|done].
  intros ([[e1 t1]|] & Hp & Hr)%res_bind_ok; [|done]. injection Hr as -> ->. left. eauto.
Qed.

Lemma handle_frame_packet t raw eph iface p e t' : decode raw = Ok p →
  handle_packet t eph iface p = Ok (Some (e, t')) → handle_frame t raw eph iface = Ok (e, t').
Proof. intros Hd Hp. unfold handle_frame. rewrite Hd. cbn [res_case]. by rewrite Hp. Qed.

(** A packet that is not a proof reaches the data branches. *)
Lemma not_proof_falls t eph iface p : packet_type p ≠ PACKET_PROOF →
  handle_packet t eph iface p =
    or_else (handle_out_link_data t p) (or_else (handle_in_link t eph p) (handle_rest t eph iface p)).
Proof.
  intros Hp. unfold handle_packet, handle_lrproof, handle_resource_proof, handle_link_proof, handle_opp_proof.
  cbv zeta. rewrite !decide_False by naive_solver. cbn [or_else fall].
  by destruct (handle_out_link_data t p) as [[?|]| |].
Qed.

(** Which branch answers a packet that is not link traffic. *)
Lemma off_link_falls t eph iface p : packet_type p ≠ PACKET_PROOF →
  (packet_type p = PACKET_DATA → tmap (out_links t) !! destination_hash p = None) →
  tmap (links t) !! destination_hash p = None →
  handle_packet t eph iface p = handle_rest t eph iface p.
Proof.
  intros Hp Ho Hl. rewrite not_proof_falls by done. unfold handle_out_link_data, handle_in_link. rewrite Hl.
  destruct (tmap (out_links t) !! destination_hash p) eqn:E; [|done].
  destruct (decide (packet_type p = PACKET_DATA)) as [Ht|]; [|done]. by specialize (Ho Ht).
Qed.

Lemma handle_packet_announce t eph iface p : packet_type p = PACKET_ANNOUNCE →
  tmap (links t) !! destination_hash p = None →
  handle_packet t eph iface p = handle_announce t p iface.
Proof.
  intros Hp Hl. rewrite off_link_falls by (rewrite ?Hp; first [done | discriminate | intros ?; discriminate]). unfold handle_rest. by rewrite decide_True.
Qed.

Lemma handle_packet_link_request t eph iface p : packet_type p = PACKET_LINKREQUEST →
  tmap (links t) !! destination_hash p = None → destination_hash p ∈ our_dests t →
  handle_packet t eph iface p = handle_link_request t eph p.
Proof.
  intros Hp Hl Hin. rewrite off_link_falls by (rewrite ?Hp; first [done | discriminate | intros ?; discriminate]). unfold handle_rest. rewrite Hp.
  rewrite decide_False by done. rewrite decide_False by (by intros [??]). by rewrite !decide_True.
Qed.

Lemma handle_packet_opportunistic t eph iface p : packet_type p = PACKET_DATA →
  tmap (links t) !! destination_hash p = None → tmap (out_links t) !! destination_hash p = None →
  destination_hash p ≠ path_request_dest → destination_hash p ∈ our_dests t →
  handle_packet t eph iface p = handle_opportunistic t p.
Proof.
  intros Hp Hl Ho Hne Hin. rewrite off_link_falls by (rewrite ?Hp; first [done | discriminate | intros ?; discriminate]). unfold handle_rest. rewrite Hp.
  rewrite decide_False by done. rewrite decide_False by (by intros [??]). rewrite decide_True by done.
  rewrite decide_False by done. by rewrite decide_True.
Qed.
End answers.

(** ** Properties *)

(** Routing: in every reachable state, [apply_transport] turns an encoded HEADER_1
    packet into a frame that decodes to a packet with the same destination, context,
    type and payload, and hence the same packet hash and link id; the frame goes
    through a transport node exactly when the path table has a next hop for a
    destination more than one hop away, and then through that node. *)
Theorem transport_rewrite `{C : Crypto} `{I : HashIter} (id : PrivateIdentity) (t : Transport)
  (dest : bytes) (p : Packet) (raw : bytes)
  (Hr : rtc transport_step (transport_new id) t) (Hp : packet_ok p) (Hone : header_type p = One)
  (Henc : encode p = Ok raw) :
  ∃ raw' p', apply_transport t dest raw = Ok raw' ∧ decode raw' = Ok p' ∧
    destination_hash p' = destination_hash p ∧ context p' = context p ∧
    packet_type p' = packet_type p ∧ data p' = data p ∧
    packet_hash p' = packet_hash p ∧ link_id p' = link_id p ∧
    ∀ nh, transport_id p' = Some nh ↔
      ∃ e, tmap (paths t) !! dest = Some e ∧ pe_next_hop e = Some nh ∧ 1 < pe_hops e.
Proof.
  pose proof (reachable_paths id t Hr) as Hpaths.
  destruct (apply_transport_ok t dest p raw Hpaths Hp Hone Henc)
    as (raw' & p' & Ha & Hd & _ & [(-> & -> & Hno)|(e & nh & He & Hnh & Hh & ->)]).
  - exists raw, p. split_and!; [done..|]. intros nh. destruct Hp as [Ht _].
    unfold tid_ok in Ht. rewrite Hone in Ht. destruct (transport_id p); [done|].
    split; [done|]. intros (e & He & Hnh & Hh). specialize (Hno e nh He Hnh). lia.
  - exists raw', (routed p nh). destruct (routed_same p nh Hp Hone (Hpaths _ _ _ He Hnh)) as [-> ->].
    split_and!; [done..|]. intros nh'. cbn. split.
    + intros [= <-]. by exists e.
    + intros (e' & He' & Hnh' & _). by simplify_eq.
Qed.

(** C3: Delivery confirmations are authentic: a frame is answered with [EvDelivered]
    only if it is a proof that validates, under the key of the right peer, for a
    transfer this node has outstanding; and that transfer is outstanding no more,
    so that no proof confirms twice. *)
Theorem delivery_authentic `{C : Crypto} `{I : HashIter} (t t' : Transport) (raw eph h : bytes)
  (iface : PathIface) (Hd : handle_frame t raw eph iface = Ok (EvDelivered h, t')) :
  ∃ p, decode raw = Ok p ∧ delivery_proven t p h t'.
Proof.
  apply handle_frame_inv in Hd as [(p & Hp & Hd)|(r & _ & E & _)]; [|done].
  exists p. split; [done|]. by eapply handle_packet_delivered.
Qed.

(** C29: Routes and identities are authentic: a frame changes the known destinations or
    the path table only if it is a valid announce, signed by the key its
    destination hash is derived from, and then only the entry of that destination
    (and those the caps evict): its identity, its next hop, its hop count plus one. *)
Theorem routes_authentic `{C : Crypto} `{I : HashIter} (t t' : Transport) (raw eph : bytes) (e : Event)
  (iface : PathIface) (Hd : handle_frame t raw eph iface = Ok (e, t')) :
  known_t t' = known_t t ∧ paths t' = paths t ∨
  ∃ p a rnd sig, decode raw = Ok p ∧ announce_valid p a rnd sig ∧ learned p iface a t t'.
Proof.
  apply handle_frame_inv in Hd as [(p & Hp & Hd)|(r & _ & _ & ->)]; [|by left].
  apply handle_packet_learns in Hd as [Hd|(a & _ & Ha & Hl)]; [by left|right].
  apply parse_valid in Ha as (rnd & sg & Hv). by exists p, a, rnd, sg.
Qed.

(** Discovery: the announce one node makes is accepted by any other that has no link
    of that id, which then knows the announcer's identity and application data under
    its destination hash, one hop away on the interface it arrived on. *)
Theorem announce_discovers `{C : Crypto} `{I : HashIter} `{!HashOK, !DhOK, !SigOK}
  (ta tb : Transport) (app_name : bytes) (aspects : list bytes) (app_data r5 eph : bytes) (time : Z)
  (iface : PathIface)
  (Hid : private_ok (identity tb)) (Hr : length r5 = 5%nat)
  (Hl : tmap (links ta) !! single_destination_hash app_name aspects (hash (identity tb)) = None) :
  let dest := single_destination_hash app_name aspects (hash (identity tb)) in
  let info := mkKnown (public (identity tb)) (name_hash app_name aspects) None app_data in
  ∃ raw ta', make_announce_with tb app_name aspects app_data r5 time = Ok raw ∧
    handle_frame ta raw eph iface = Ok (EvAnnounce dest info, ta') ∧
    known ta' dest = Some info ∧ path_hops ta' dest = Some 1 ∧
    tmap (paths ta') !! dest = Some (mkPath None 1 iface).
Proof.
  intros dest info.
  destruct (announce_parses (identity tb) app_name aspects app_data (random_hash r5 time) None Hid) as [Hok Hp];
    [unfold random_hash; rewrite length_app, length_drop, be_bytes_length; lia|done|].
  destruct (packet_roundtrip _ Hok) as (raw & He & Hdec).
  set (entry := mkPath None 1 iface).
  exists raw, (insert_path dest entry (insert_known dest info ta)). split_and!; [done| |..].
  - eapply handle_frame_packet; [done|]. rewrite handle_packet_announce by done.
    unfold handle_announce. by rewrite Hp.
  - apply table_insert_lookup.
  - unfold path_hops. cbn. by rewrite table_insert_lookup.
  - apply table_insert_lookup.
Qed.

(** ** Witnesses *)
Import ToyInstances.
#[local] Instance flow_iter : HashIter := λ V m, map_to_list m.

(** A node that has heard an announce through a transport node, three hops away. *)
Definition w_peer : PrivateIdentity := from_bytes (replicate 32 21) (replicate 32 22).
Definition w_dest : bytes := single_destination_hash [108; 120] [[100]] (hash w_peer).
Definition w_announce : Packet :=
  let p := build_announce w_peer [108; 120] [[100]] [78] (replicate 10 4) None in
  mkPacket Two false TRANSPORT_TRANSPORT (destination_type p) (packet_type p) 2 (context p)
    (Some (replicate 16 0xC3)) (destination_hash p) (data p).
Definition w_frame : bytes := match encode w_announce with Ok raw => raw | _ => [] end.
Definition w_far : Transport :=
  match handle_frame (transport_new w_id) w_frame [] Hub with Ok (_, t) => t | _ => transport_new w_id end.

Lemma w_far_frame : ∃ e, handle_frame (transport_new w_id) w_frame [] Hub = Ok (e, w_far).
Proof. eexists. vm_compute. reflexivity. Qed.

Lemma transport_rewrite_witness :
  let p := header1 DEST_SINGLE PACKET_DATA CONTEXT_NONE w_dest [1; 2; 3] in
  ∃ raw raw' p', encode p = Ok raw ∧ apply_transport w_far w_dest raw = Ok raw' ∧ decode raw' = Ok p' ∧
    transport_id p' = Some (replicate 16 0xC3).
Proof.
  intros p. destruct (packet_roundtrip p) as (raw & He & _); [by apply (bool_decide_unpack _); vm_compute|].
  destruct w_far_frame as [e Hf].
  destruct (transport_rewrite w_id w_far w_dest p raw) as (raw' & p' & Ha & Hd & _ & _ & _ & _ & _ & _ & Ht).
  - eapply rtc_l; [by eapply ts_frame|apply rtc_refl].
  - by apply (bool_decide_unpack _); vm_compute.
  - done.
  - done.
  - exists raw, raw', p'. split_and!; [done..|]. apply Ht. exists (mkPath (Some (replicate 16 0xC3)) 3 Hub).
    split_and!; [by vm_compute|done|done].
Defined.

(** A node awaiting the proof of one opportunistic packet, and that proof. *)
Definition w_full : bytes := replicate 32 0x44.
Definition w_waiting : Transport :=
  insert_opp_receipt (replicate 16 0x44) (mkOppReceipt w_full (public w_peer)) (transport_new w_id).
Definition w_proof : bytes :=
  match encode (header1 DEST_SINGLE PACKET_PROOF CONTEXT_NONE (replicate 16 0x44) (w_full ++ sign w_peer w_full))
  with Ok raw => raw | _ => [] end.

Lemma delivery_authentic_witness : ∃ t' p,
  handle_frame w_waiting w_proof [] Hub = Ok (EvDelivered w_full, t') ∧ decode w_proof = Ok p ∧
  delivery_proven w_waiting p w_full t'.
Proof.
  assert (∃ t', handle_frame w_waiting w_proof [] Hub = Ok (EvDelivered w_full, t')) as [t' Ht]
    by (eexists; vm_compute; reflexivity).
  destruct (delivery_authentic _ _ _ _ _ _ Ht) as (p & Hp & Hd).
  exists t', p. exact (conj Ht (conj Hp Hd)).
Defined.

Lemma routes_authentic_witness : ∃ p a rnd sig, decode w_frame = Ok p ∧ announce_valid p a rnd sig ∧
  learned p Hub a (transport_new w_id) w_far.
Proof.
  destruct w_far_frame as [e Hf]. destruct (routes_authentic _ _ _ _ _ _ Hf) as [[Hk _]|H]; [|exact H].
  exfalso. apply (f_equal (λ x, bool_decide (tmap x = ∅))) in Hk. by vm_compute in Hk.
Defined.

Lemma announce_discovers_witness : ∃ raw ta',
  make_announce_with (transport_new w_peer) [108; 120] [[100]] [78] (replicate 5 1) 1700000000 = Ok raw ∧
  path_hops ta' w_dest = Some 1.
Proof.
  destruct (announce_discovers (transport_new w_id) (transport_new w_peer) [108; 120] [[100]] [78]
    (replicate 5 1) [] 1700000000 Auto) as (raw & ta' & Hm & _ & _ & Hh & _).
  - by apply from_bytes_ok.
  - done.
  - done.
  - by exists raw, ta'.
Defined.
