(* ===== verification/TransportSession.v ===== *)
(** Two transports in conversation: a link opened, used in both directions,
    identified and closed, and opportunistic packets, each confirmed by its proof. *)
From S2P Require Import Prelude Constants Crypto Packet Identity Announce Link Resource Tables Transport TransportInv TransportFlow.

(** The initiator [ta] and the responder [tb] share the link [lid]. *)
Definition linked `{Crypto} (ta tb : Transport) (lid : bytes) : Prop := ∃ ol st,
  tmap (out_links ta) !! lid = Some ol ∧ tmap (links tb) !! lid = Some st ∧
  ol_key ol = ls_key st ∧ length (ls_key st) = DERIVED_KEY_LENGTH ∧
  ol_identity ol = public (identity tb) ∧ private_ok (identity tb) ∧
  length (ol_sig_seed ol) = KEY_HALF ∧ ls_peer_sig_pub st = ed25519_verifying_key (ol_sig_seed ol) ∧
  tmap (out_links tb) !! lid = None ∧ length lid = TRUNCATED_HASHLENGTH.

Section session.
Context `{C : Crypto} `{I : HashIter}.

(** ** Single packets *)

Lemma send_link_data_sends `{!HashOK, !CipherOK} t lid key pt iv :
  length lid = TRUNCATED_HASHLENGTH → length key = DERIVED_KEY_LENGTH → length iv = IV_LENGTH →
  ∃ raw ph p, send_link_data t lid key pt iv = Ok (raw, ph, insert_receipt ph lid t) ∧
    decode raw = Ok p ∧ tid_ok p ∧ packet_type p = PACKET_DATA ∧ context p = CONTEXT_NONE ∧
    destination_hash p = lid ∧ packet_hash p = Ok ph ∧ Link.decrypt key (data p) = Ok pt.
Proof.
  intros Hl Hk Hiv. unfold send_link_data, encrypt_data, Link.decrypt. rewrite Token_new_ok by done. res_simpl.
  set (p := header1 DEST_LINK PACKET_DATA CONTEXT_NONE lid
    (encrypt_with_iv (mkToken (take 32 key) (drop 32 key)) pt iv)).
  destruct (packet_roundtrip p) as (raw & He & Hd); [by apply header1_ok; [set_solver|set_solver|]|].
  pose proof (packet_hash_ok p (header1_tid _ _ _ _ _)) as Hh. rewrite Hh. res_simpl. rewrite He. res_simpl.
  eexists raw, _, p. split_and!; [done..|]. eapply token_decrypt_encrypt; [|done]. by apply Token_new_ok.
Qed.

(** The proof of an outstanding link packet, under the link's key. *)
Lemma link_proof_delivers t eph iface lid key ph sg :
  link_proof_key t lid = Some key → tmap (receipts t) !! ph = Some lid →
  length ph = 32%nat → length sg = SIG_LENGTH → ed25519_verify key ph sg = true →
  handle_packet t eph iface (header1 DEST_LINK PACKET_PROOF CONTEXT_NONE lid (ph ++ sg)) =
    Ok (Some (EvDelivered ph, set_receipts (table_remove ph) t)).
Proof.
  intros Hk Hr Hp Hs Hv. unfold handle_packet, handle_lrproof, handle_resource_proof, handle_link_proof.
  cbn [packet_type context destination_hash data header1].
  rewrite !(decide_False (P := _ ∧ _)) by (intros [_ ?]; discriminate). rewrite decide_True by done. rewrite Hk.
  unfold proof_candidates. rewrite decide_True by wlen. rewrite slice_to_app by done. res_simpl.
  cbn [find_receipt]. rewrite decide_True; [done|]. split; [done|]. by rewrite validate_proof_sig_explicit.
Qed.

(** What a frame of an established link reaches. *)
Lemma in_link_reached t eph iface p st : tmap (out_links t) !! destination_hash p = None →
  tmap (links t) !! destination_hash p = Some st → packet_type p = PACKET_DATA →
  handle_packet t eph iface p = or_else (handle_in_link t eph p) (handle_rest t eph iface p).
Proof.
  intros Ho Hl Hp. rewrite not_proof_falls by (by rewrite Hp). unfold handle_out_link_data. by rewrite Ho.
Qed.

Lemma in_link_data_answers t eph iface p st plaintext ph : tid_ok p →
  tmap (out_links t) !! destination_hash p = None → tmap (links t) !! destination_hash p = Some st →
  packet_type p = PACKET_DATA → context p = CONTEXT_NONE →
  packet_hash p = Ok ph → Link.decrypt (ls_key st) (data p) = Ok plaintext →
  ∃ proof, encode (header1 DEST_LINK PACKET_PROOF CONTEXT_NONE (destination_hash p)
      (ph ++ sign (identity t) ph)) = Ok proof ∧
    handle_packet t eph iface p = Ok (Some (EvLinkData (destination_hash p) plaintext proof, t)).
Proof.
  intros Ht Ho Hl Hp Hc Hh Hd. erewrite in_link_reached by done. unfold handle_in_link. rewrite Hl.
  cbv zeta. rewrite decide_True by done. unfold in_link_data. rewrite Hd. cbn [res_case].
  unfold prove_packet. rewrite Hh. res_simpl. rewrite encode_ok by done. eexists. by split.
Qed.

Lemma out_link_data_answers t eph iface p l plaintext ph : tid_ok p →
  tmap (out_links t) !! destination_hash p = Some l →
  packet_type p = PACKET_DATA → context p = CONTEXT_NONE →
  packet_hash p = Ok ph → Link.decrypt (ol_key l) (data p) = Ok plaintext →
  ∃ proof, encode (header1 DEST_LINK PACKET_PROOF CONTEXT_NONE (destination_hash p)
      (ph ++ ed25519_sign (ol_sig_seed l) (ed25519_verifying_key (ol_sig_seed l)) ph)) = Ok proof ∧
    handle_packet t eph iface p = Ok (Some (EvLinkData (destination_hash p) plaintext proof, t)).
Proof.
  intros Ht Ho Hp Hc Hh Hd. rewrite not_proof_falls by (by rewrite Hp). unfold handle_out_link_data. rewrite Ho.
  rewrite decide_True by done. rewrite Hc. rewrite decide_False by discriminate. rewrite Hd. cbn [res_case].
  rewrite decide_False by (intros [? _]; discriminate). rewrite decide_True by done.
  unfold prove_packet_ephemeral. rewrite Hh. res_simpl. rewrite encode_ok by done. eexists. by split.
Qed.

(** ** Opening *)

Lemma accept_request_link_id p id eph est : accept_request p id eph = Ok est → link_id p = Ok (est_link_id est).
Proof.
  unfold accept_request. case_decide; [done|]. case_decide; [done|].
  intros (a & _ & (b & _ & (lid & Hl & (k & _ & (raw & _ & He)%res_bind_ok)%res_bind_ok)%res_bind_ok)%res_bind_ok)%res_bind_ok.
  injection He as <-. done.
Qed.

(** What [EvLinkEstablished] says of the packet and of the state. *)
Definition established (t : Transport) (p : Packet) (lid proof : bytes) (t' : Transport) : Prop :=
  packet_type p = PACKET_LINKREQUEST ∧ destination_hash p ∈ our_dests t ∧ link_id p = Ok lid ∧
  (∃ st, tmap (links t') !! lid = Some st ∧ ls_proof st = proof) ∧
  our_dests t' = our_dests t ∧ (∀ k, k ≠ lid → tmap (links t) !! k = None → tmap (links t') !! k = None).

Lemma handle_packet_established t eph iface p lid proof t' :
  handle_packet t eph iface p = Ok (Some (EvLinkEstablished lid proof, t')) → established t p lid proof t'.
Proof.
  cut (answer_sat (λ e t', ∀ lid proof, e = EvLinkEstablished lid proof → established t p lid proof t')
    (handle_packet t eph iface p)).
  { intros H1 H2. by eapply H1. }
  walk_packet ltac:(first [by intros ? ? [=] | intros ? ? [= <- <-]; split_and!; first
    [ done | eapply accept_request_link_id; eassumption
    | eexists; split; [first [eassumption | apply table_insert_lookup]|done]
    | intros k Hk Hn; apply eq_None_not_Some; intros [w Hw]; apply table_insert_other in Hw; [congruence|done] ]]).
Qed.

(** The initiator's side of the proof that completes its handshake. *)
Lemma lrproof_completes t eph iface p pend key : packet_type p = PACKET_PROOF → context p = CONTEXT_LRPROOF →
  tmap (pending_out t) !! destination_hash p = Some pend →
  complete_handshake (destination_hash p) (po_eph_secret pend) (data p) (po_identity pend) = Ok key →
  handle_packet t eph iface p = Ok (Some (EvOutboundLinkUp (destination_hash p) (po_target pend),
    insert_out_link (destination_hash p)
      (mkOutLink (po_target pend) key (po_sig_seed pend) (po_identity pend) (po_created pend))
      (set_pending (table_remove (destination_hash p)) t))).
Proof.
  intros Hp Hc Hl Hk. unfold handle_packet, handle_lrproof. cbv zeta. rewrite decide_True by done.
  rewrite Hl, Hk. done.
Qed.

(** The proof of an outstanding opportunistic packet. *)
Lemma opp_proof_delivers t eph iface h full pub sg :
  tmap (links t) !! h = None → tmap (out_links t) !! h = None →
  tmap (opp_receipts t) !! h = Some (mkOppReceipt full pub) →
  length full = 32%nat → length sg = SIG_LENGTH → ed25519_verify (sig_pub pub) full sg = true →
  handle_packet t eph iface (header1 DEST_SINGLE PACKET_PROOF CONTEXT_NONE h (full ++ sg)) =
    Ok (Some (EvDelivered full, set_opp (table_remove h) t)).
Proof.
  intros Hl Ho Hr Hf Hs Hv. unfold handle_packet, handle_lrproof, handle_resource_proof, handle_link_proof,
    handle_out_link_data, handle_opp_proof.
  cbn [packet_type context destination_hash data header1].
  rewrite !(decide_False (P := _ ∧ _)) by (intros [_ ?]; discriminate). rewrite decide_True by done.
  unfold link_proof_key. rewrite Ho, Hl, Hr. cbn [fmap option_fmap option_map or_else fall or_identity or_full_hash].
  rewrite decide_True by done. unfold validate_proof. rewrite validate_proof_sig_explicit by done. by rewrite Hv.
Qed.
End session.

(** ** Properties *)

(** C2: Opening a link, end to end: the request one node makes (routed or not) is
    accepted by the node that owns the destination, whose proof completes the
    handshake at the initiator; the two then hold the same session key, each with
    the other's verification key, and nothing stays pending. *)
Theorem link_opens `{C : Crypto} `{I : HashIter} `{!HashOK, !KdfOK, !DhOK, !SigOK}
  (id : PrivateIdentity) (ta tb : Transport) (target ex ee eph eph' : bytes) (now : Z) (if1 if2 : PathIface)
  (Hra : rtc transport_step (transport_new id) ta) (Hid : private_ok (identity tb))
  (Ht : length target = TRUNCATED_HASHLENGTH) (Hx : length ex = KEY_HALF) (He : length ee = KEY_HALF)
  (Hp : length eph = KEY_HALF) (Hin : target ∈ our_dests tb) (Hfree : tmap (links tb) !! target = None)
  (Hfresh : ∀ lid, link_id (request_packet target ex ee) = Ok lid →
     tmap (links tb) !! lid = None ∧ tmap (out_links tb) !! lid = None) :
  ∃ raw lid ta1 proof tb1 ta2,
    make_link_request ta target (public (identity tb)) ex ee now = Ok (raw, lid, ta1) ∧
    handle_frame tb raw eph if1 = Ok (EvLinkEstablished lid proof, tb1) ∧
    handle_frame ta1 proof eph' if2 = Ok (EvOutboundLinkUp lid target, ta2) ∧
    linked ta2 tb1 lid ∧ tmap (pending_out ta2) !! lid = None.
Proof.
  destruct (initiate_request_ok target ex ee Ht Hx He) as (raw0 & lid & Hi & Henc & Hlid & Hll).
  destruct (Hfresh lid Hlid) as [Hl1 Hl2].
  assert (packet_ok (request_packet target ex ee)) as Hok by (by apply header1_ok; [set_solver|set_solver|]).
  destruct (apply_transport_ok ta target _ raw0 (reachable_paths id ta Hra) Hok eq_refl Henc)
    as (raw & p & Ha & Hd & Hpok & Hpcase).
  assert (packet_type p = PACKET_LINKREQUEST ∧ destination_hash p = target ∧ data p = request_payload ex ee ∧
    link_id p = Ok lid) as (P1 & P2 & P3 & P4).
  { destruct Hpcase as [(-> & _)|(e & nh & E1 & E2 & _ & ->)]; [done|]. split_and!; [done..|].
    rewrite <-Hlid. eapply (routed_same _ nh Hok eq_refl (reachable_paths id ta Hra _ _ _ E1 E2)). }
  destruct (handshake_responds (identity tb) ex ee eph p lid Hid Hx He Hp (proj1 Hpok) P3 P4 Hll)
    as (est & proof & Hacc & E1 & E2 & E3 & E4 & E5 & E6 & E7 & E8).
  assert (lid = destination_hash proof) as -> by done. eexists raw, (destination_hash proof), _, (est_proof_packet est), _, _. split_and!.
  - unfold make_link_request. rewrite Hi. res_simpl. by rewrite Ha.
  - eapply handle_frame_packet; [done|]. rewrite handle_packet_link_request by (rewrite ?P2; done).
    unfold handle_link_request, link_id_of. rewrite P4. res_simpl. rewrite Hl1, Hacc. cbn [res_case]. by rewrite E1.
  - eapply handle_frame_packet; [done|]. 
    eapply (lrproof_completes _ _ _ _ (mkPending target ex ee (public (identity tb)) now (pending_expiry_secs ta target)));
      [done..|apply table_insert_lookup|done].
  - eexists _, _. split_and!; [apply table_insert_lookup|apply table_insert_lookup|done..].
  - apply lookup_delete_eq.
Qed.

(** A retransmitted link request is answered with the proof already sent, and
    changes nothing: the responder does not make a second session key. *)
Theorem link_request_idempotent `{C : Crypto} `{I : HashIter} (t t' : Transport) (raw eph eph2 lid proof : bytes)
  (if1 if2 : PathIface) (p : Packet)
  (He : handle_frame t raw eph if1 = Ok (EvLinkEstablished lid proof, t')) (Hd : decode raw = Ok p)
  (Hne : lid ≠ destination_hash p) :
  handle_frame t' raw eph2 if2 = Ok (EvLinkEstablished lid proof, t').
Proof.
  apply handle_frame_inv in He as [(p' & Hp' & He)|(r & _ & E & _)]; [|done].
  assert (p' = p) as -> by congruence.
  destruct (handle_packet_established _ _ _ _ _ _ _ He) as (Hp & Hin & Hlid & (st & Hst & <-) & Hds & Hk).
  assert (tmap (links t) !! destination_hash p = None) as Hn.
  { rewrite not_proof_falls in He by (by rewrite Hp). unfold handle_out_link_data, handle_in_link in He.
    destruct (tmap (links t) !! destination_hash p) as [st'|]; [|done]. rewrite Hp in He.
    destruct (tmap (out_links t) !! destination_hash p); cbv zeta in He;
      rewrite !(decide_False (P := _ ∧ _)) in He by (intros [? _]; discriminate);
      rewrite ?decide_False in He by discriminate; done. }
  eapply handle_frame_packet; [done|]. rewrite handle_packet_link_request; [|done|by apply Hk|by rewrite Hds].
  unfold handle_link_request, link_id_of. rewrite Hlid. res_simpl. by rewrite Hst.
Qed.

(** Data from the initiator: it is delivered as sent, the responder's proof confirms
    it at the sender, the receipt is consumed and the link stays up. *)
Theorem link_data_forward `{C : Crypto} `{I : HashIter} `{!HashOK, !CipherOK, !SigOK}
  (ta tb : Transport) (lid pt iv eph eph' : bytes) (if1 if2 : PathIface)
  (Hl : linked ta tb lid) (Hiv : length iv = IV_LENGTH) :
  ∃ raw ph ta1 proof ta2,
    make_link_data ta lid pt iv = Ok (raw, ph, ta1) ∧
    handle_frame tb raw eph if1 = Ok (EvLinkData lid pt proof, tb) ∧
    handle_frame ta1 proof eph' if2 = Ok (EvDelivered ph, ta2) ∧
    tmap (receipts ta2) !! ph = None ∧ linked ta2 tb lid.
Proof.
  destruct Hl as (ol & st & Ho & Hs & Hkey & Hkl & Hpub & Hid & Hseed & Hvk & Hno & Hll).
  destruct (send_link_data_sends ta lid (ol_key ol) pt iv) as (raw & ph & p & Hm & Hd & Htid & P1 & P2 & P3 & Hph & Hdec);
    [done|by rewrite Hkey|done|]. subst lid. rewrite Hkey in Hdec.
  destruct (in_link_data_answers tb eph if1 p st pt ph) as (proof & Henc & Hans); [done..|].
  destruct (packet_roundtrip (header1 DEST_LINK PACKET_PROOF CONTEXT_NONE (destination_hash p)
    (ph ++ sign (identity tb) ph))) as (proof' & Henc' & Hdec'); [by apply header1_ok; [set_solver|set_solver|]|].
  assert (proof' = proof) as -> by congruence.
  eexists raw, ph, _, proof, _. split_and!.
  - unfold make_link_data, out_link. by rewrite Ho.
  - by eapply handle_frame_packet.
  - eapply handle_frame_packet; [done|]. eapply link_proof_delivers; [|apply table_insert_lookup|
      by eapply packet_hash_length|apply sign_length|by apply sign_verified].
    unfold link_proof_key. cbn. by rewrite Ho, Hpub.
  - apply lookup_delete_eq.
  - by exists ol, st.
Qed.

(** Data from the responder, once the initiator has identified: delivered as sent,
    and proven by the initiator with its per-link key. *)
Theorem link_data_backward `{C : Crypto} `{I : HashIter} `{!HashOK, !CipherOK, !SigOK}
  (ta tb : Transport) (lid pt iv eph eph' : bytes) (if1 if2 : PathIface) (st : LinkState) (peer : PublicIdentity)
  (Hl : linked ta tb lid) (Hiv : length iv = IV_LENGTH)
  (Hst : tmap (links tb) !! lid = Some st) (Hpeer : ls_peer_identity st = Some peer) :
  ∃ raw ph tb1 proof tb2,
    make_in_link_data tb lid pt iv = Ok (raw, ph, tb1) ∧
    handle_frame ta raw eph if1 = Ok (EvLinkData lid pt proof, ta) ∧
    handle_frame tb1 proof eph' if2 = Ok (EvDelivered ph, tb2) ∧
    tmap (receipts tb2) !! ph = None ∧ linked ta tb2 lid.
Proof.
  destruct Hl as (ol & st' & Ho & Hs & Hkey & Hkl & Hpub & Hid & Hseed & Hvk & Hno & Hll).
  assert (st' = st) as -> by congruence.
  destruct (send_link_data_sends tb lid (ls_key st) pt iv) as (raw & ph & p & Hm & Hd & Htid & P1 & P2 & P3 & Hph & Hdec);
    [done..|]. subst lid. rewrite <-Hkey in Hdec.
  destruct (out_link_data_answers ta eph if1 p ol pt ph) as (proof & Henc & Hans); [done..|].
  destruct (packet_roundtrip (header1 DEST_LINK PACKET_PROOF CONTEXT_NONE (destination_hash p)
    (ph ++ ed25519_sign (ol_sig_seed ol) (ed25519_verifying_key (ol_sig_seed ol)) ph)))
    as (proof' & Henc' & Hdec'); [by apply header1_ok; [set_solver|set_solver|]|].
  assert (proof' = proof) as -> by congruence.
  eexists raw, ph, _, proof, _. split_and!.
  - unfold make_in_link_data, in_link. rewrite Hst. cbn [ok_or]. res_simpl. rewrite Hpeer. cbn [ok_or]. by res_simpl.
  - by eapply handle_frame_packet.
  - eapply handle_frame_packet; [done|]. eapply link_proof_delivers; [|apply table_insert_lookup|
      by eapply packet_hash_length|apply sign_length|by apply sign_verifies].
    unfold link_proof_key. cbn. by rewrite Hno, Hst, <-Hvk.
  - apply lookup_delete_eq.
  - by exists ol, st.
Qed.

(** Identification over a link: the initiator's LINKIDENTIFY tells the responder
    exactly the initiator's identity, after which the responder can send too. *)
Theorem link_identifies `{C : Crypto} `{I : HashIter} `{!HashOK, !CipherOK, !DhOK, !SigOK}
  (ta tb : Transport) (lid iv eph : bytes) (iface : PathIface)
  (Hl : linked ta tb lid) (Hid : private_ok (identity ta)) (Hiv : length iv = IV_LENGTH) :
  ∃ raw tb1 st, make_out_link_identify ta lid iv = Ok raw ∧
    handle_frame tb raw eph iface = Ok (EvLinkIdentified lid (public (identity ta)), tb1) ∧
    tmap (links tb1) !! lid = Some st ∧ ls_peer_identity st = Some (public (identity ta)) ∧
    linked ta tb1 lid.
Proof.
  destruct Hl as (ol & st & Ho & Hs & Hkey & Hkl & Hpub & Hidb & Hseed & Hvk & Hno & Hll).
  destruct (identify_opens (identity ta) lid (ol_key ol) iv Hid Hll) as (raw & p & pt & Hm & Hd & P1 & P2 & P3 & Hdec & Hv);
    [by rewrite Hkey|done|]. subst lid. rewrite Hkey in Hdec.
  eexists raw, _, _. split_and!.
  - unfold make_out_link_identify, out_link. by rewrite Ho.
  - eapply handle_frame_packet; [done|]. erewrite in_link_reached by done. unfold handle_in_link. rewrite Hs.
    cbv zeta. rewrite P1, P2. rewrite decide_False by (intros [_ ?]; discriminate). rewrite decide_True by done.
    unfold in_link_identify. rewrite Hdec. cbn [res_case]. rewrite Hv. done.
  - cbn. rewrite lookup_alter_eq, Hs. done.
  - done.
  - exists ol. eexists. split_and!; [done|cbn; by rewrite lookup_alter_eq, Hs|done..].
Qed.

(** Opportunistic delivery, end to end: a single encrypted packet (routed or not)
    reaches the owner of the destination as sent, and the proof it returns confirms
    the packet at the sender, unless the truncated packet hash is the id of one of
    its links; the sender then forgets the receipt. *)
Theorem opportunistic_delivered `{C : Crypto} `{I : HashIter} `{!HashOK, !KdfOK, !CipherOK, !DhOK, !SigOK}
  (id : PrivateIdentity) (ta tb : Transport) (dest pt es iv eph eph' : bytes) (if1 if2 : PathIface)
  (Hra : rtc transport_step (transport_new id) ta) (Hid : private_ok (identity tb))
  (Hd : length dest = TRUNCATED_HASHLENGTH) (He : length es = KEY_HALF) (Hiv : length iv = IV_LENGTH)
  (Hin : dest ∈ our_dests tb) (Hnp : dest ≠ path_request_dest)
  (Hl1 : tmap (links tb) !! dest = None) (Hl2 : tmap (out_links tb) !! dest = None) :
  ∃ raw full ta1 proof,
    make_opportunistic_tracked ta dest (public (identity tb)) None pt es iv = Ok (raw, full, ta1) ∧
    handle_frame tb raw eph if1 = Ok (EvData dest pt proof, tb) ∧
    (tmap (links ta) !! take TRUNCATED_HASHLENGTH full = None →
     tmap (out_links ta) !! take TRUNCATED_HASHLENGTH full = None →
     ∃ ta2, handle_frame ta1 proof eph' if2 = Ok (EvDelivered full, ta2) ∧
       tmap (opp_receipts ta2) !! take TRUNCATED_HASHLENGTH full = None).
Proof.
  destruct (encrypt_opens (identity tb) pt es iv None [] [] Hid He Hiv) as (ct & Hct & Hdec); [done|].
  cbn [fmap option_fmap option_map] in Hct.
  set (p := header1 DEST_SINGLE PACKET_DATA CONTEXT_NONE dest ct).
  assert (packet_ok p) as Hok by (by apply header1_ok; [set_solver|set_solver|]).
  destruct (packet_roundtrip p Hok) as (raw0 & Henc & _).
  pose proof (packet_hash_ok p (header1_tid _ _ _ _ _)) as Hh. set (full := full_hash _) in Hh.
  pose proof (packet_hash_length _ _ Hh) as Hfl.
  assert (length (take TRUNCATED_HASHLENGTH full) = TRUNCATED_HASHLENGTH) as Htl by wlen.
  set (ta1 := insert_opp_receipt (take TRUNCATED_HASHLENGTH full) (mkOppReceipt full (public (identity tb))) ta).
  destruct (apply_transport_ok ta1 dest p raw0 (reachable_paths id ta Hra) Hok eq_refl Henc)
    as (raw & p' & Ha & Hd' & Hpok & Hcase).
  assert (packet_type p' = PACKET_DATA ∧ destination_hash p' = dest ∧ data p' = ct ∧ packet_hash p' = Ok full)
    as (P1 & P2 & P3 & P4).
  { destruct Hcase as [(-> & _)|(e & nh & E1 & E2 & _ & ->)]; [done|]. split_and!; [done..|].
    rewrite <-Hh. eapply (routed_same _ nh Hok eq_refl (reachable_paths id ta Hra _ _ _ E1 E2)). }
  set (q := header1 DEST_SINGLE PACKET_PROOF CONTEXT_NONE (take TRUNCATED_HASHLENGTH full) (full ++ sign (identity tb) full)).
  destruct (packet_roundtrip q) as (proof & Hpe & Hpd); [by apply header1_ok; [set_solver|set_solver|]|].
  exists raw, full, ta1, proof. split_and!.
  - unfold make_opportunistic_tracked. rewrite Hct. res_simpl. fold p. rewrite Hh. res_simpl.
    rewrite slice_to_ok by wlen. res_simpl. rewrite Henc. res_simpl. fold ta1. by rewrite Ha.
  - eapply handle_frame_packet; [done|]. rewrite handle_packet_opportunistic by (rewrite ?P2; done).
    unfold handle_opportunistic. rewrite P3, Hdec. cbn [res_case]. rewrite P4. res_simpl.
    rewrite slice_to_ok by wlen. res_simpl. fold q. rewrite Hpe. res_simpl. by rewrite P2.
  - intros Hn1 Hn2. eexists. split.
    + eapply handle_frame_packet; [done|]. eapply opp_proof_delivers;
        [done|done|apply table_insert_lookup|done|apply sign_length|by apply sign_verified].
    + apply lookup_delete_eq.
Qed.

(** ** Witnesses *)
Import ToyInstances.
#[local] Instance session_iter : HashIter := λ V m, map_to_list m.

(** A fresh pair of nodes, the second owning a destination. *)
Definition w_ta : Transport := transport_new w_id.
Definition w_tb : Transport := register_destination w_dest (transport_new w_peer).

Lemma w_dest_length : length w_dest = TRUNCATED_HASHLENGTH.
Proof. vm_compute. reflexivity. Qed.
Lemma w_peer_ok : private_ok w_peer.
Proof. by apply from_bytes_ok. Qed.

Lemma link_opens_witness : ∃ raw lid ta1,
  make_link_request w_ta w_dest (public w_peer) (replicate 32 7) (replicate 32 8) 1000 = Ok (raw, lid, ta1).
Proof.
  destruct (link_opens w_id w_ta w_tb w_dest (replicate 32 7) (replicate 32 8) (replicate 32 9) [] 1000 Hub Auto)
    as (raw & lid & ta1 & _ & _ & _ & H & _).
  - apply rtc_refl.
  - apply w_peer_ok.
  - apply w_dest_length.
  - reflexivity.
  - reflexivity.
  - reflexivity.
  - apply list_elem_of_singleton. reflexivity.
  - reflexivity.
  - intros lid _. split; reflexivity.
  - exists raw, lid, ta1. exact H.
Defined.

(** A request, and the state of the node that has accepted it. *)
Definition w_request : bytes :=
  match initiate_request w_dest (replicate 32 7) (replicate 32 8) with Ok (raw, _) => raw | _ => [] end.

Lemma link_request_idempotent_witness : ∃ lid proof t',
  handle_frame w_tb w_request (replicate 32 9) Hub = Ok (EvLinkEstablished lid proof, t') ∧
  handle_frame t' w_request (replicate 32 77) Hub = Ok (EvLinkEstablished lid proof, t').
Proof.
  assert (∃ lid proof t', handle_frame w_tb w_request (replicate 32 9) Hub = Ok (EvLinkEstablished lid proof, t') ∧
    ∃ p, decode w_request = Ok p ∧ bool_decide (lid = destination_hash p) = false)
    as (lid & proof & t' & H & p & Hp & Hne).
  { do 3 eexists. split; [vm_compute; reflexivity|]. eexists. split; [vm_compute; reflexivity|].
    vm_compute. reflexivity. }
  exists lid, proof, t'. split; [exact H|].
  refine (link_request_idempotent _ _ _ _ _ _ _ _ _ _ H Hp _).
  exact (bool_decide_eq_false_1 _ Hne).
Defined.

(** Two nodes that share a link, the initiator identified. *)
Definition w_link : bytes := replicate 16 0x61.
Definition w_state : LinkState :=
  mkLinkState (replicate 64 5) [] (Toy.vk (replicate 32 8)) (Some (public w_id)).
Definition w_la : Transport :=
  insert_out_link w_link (mkOutLink w_dest (replicate 64 5) (replicate 32 8) (public w_peer) 0) w_ta.
Definition w_lb : Transport := insert_link w_link w_state w_tb.

Lemma w_linked : linked w_la w_lb w_link.
Proof.
  do 2 eexists. split_and!; [apply table_insert_lookup|apply table_insert_lookup|try done; apply w_peer_ok..].
Qed.

Lemma link_data_forward_witness : ∃ raw ph ta1,
  make_link_data w_la w_link [1; 2; 3] (replicate 16 4) = Ok (raw, ph, ta1).
Proof.
  destruct (link_data_forward w_la w_lb w_link [1; 2; 3] (replicate 16 4) [] [] Hub Hub w_linked eq_refl)
    as (raw & ph & ta1 & _ & _ & H & _). exists raw, ph, ta1. exact H.
Defined.

Lemma link_data_backward_witness : ∃ raw ph tb1,
  make_in_link_data w_lb w_link [1; 2; 3] (replicate 16 4) = Ok (raw, ph, tb1).
Proof.
  destruct (link_data_backward w_la w_lb w_link [1; 2; 3] (replicate 16 4) [] [] Hub Hub w_state (public w_id)
    w_linked eq_refl (table_insert_lookup _ _ _ _) eq_refl)
    as (raw & ph & tb1 & _ & _ & H & _). exists raw, ph, tb1. exact H.
Defined.

Lemma link_identifies_witness : ∃ raw, make_out_link_identify w_la w_link (replicate 16 4) = Ok raw.
Proof.
  destruct (link_identifies w_la w_lb w_link (replicate 16 4) [] Hub w_linked w_id_ok eq_refl)
    as (raw & _ & _ & H & _). exists raw. exact H.
Defined.

Lemma opportunistic_delivered_witness : ∃ raw full ta1,
  make_opportunistic_tracked w_ta w_dest (public w_peer) None [1; 2; 3] (replicate 32 7) (replicate 16 4) =
    Ok (raw, full, ta1).
Proof.
  destruct (opportunistic_delivered w_id w_ta w_tb w_dest [1; 2; 3] (replicate 32 7) (replicate 16 4) [] [] Hub Hub)
    as (raw & full & ta1 & _ & H & _).
  - apply rtc_refl.
  - apply w_peer_ok.
  - apply w_dest_length.
  - reflexivity.
  - reflexivity.
  - apply list_elem_of_singleton. reflexivity.
  - apply (bool_decide_eq_false_1 (w_dest = path_request_dest)). vm_compute. reflexivity.
  - reflexivity.
  - reflexivity.
  - exists raw, full, ta1. exact H.
Defined.
