(* ===== verification/TransportCache.v ===== *)
(** The transport's cached links: which link is reused, which pending request
    suppresses another, and what stays behind when a link closes. *)
From S2P Require Import Prelude Constants Crypto Packet Identity Announce Link Resource Tables Transport TransportInv TransportFlow TransportSession.

Section cache.
Context `{C : Crypto} `{I : HashIter} `{!HashIterOK}.

(** The keys an iteration selects. *)
Lemma elem_of_selected {V} (m : gmap bytes V) (P : V → Prop) `{∀ v, Decision (P v)} k :
  k ∈ (filter (λ kv : bytes * V, P kv.2) (iter m)).*1 ↔ ∃ v, m !! k = Some v ∧ P v.
Proof.
  rewrite list_elem_of_fmap. split.
  - intros ([k' v] & -> & [Hp Hin]%list_elem_of_filter). rewrite iter_perm in Hin.
    apply elem_of_map_to_list in Hin. eauto.
  - intros (v & Hv & Hp). exists (k, v). split; [done|]. apply list_elem_of_filter. split; [done|].
    rewrite iter_perm. by apply elem_of_map_to_list.
Qed.

(** The first key selected, or none. *)
Lemma head_selected {V} (m : gmap bytes V) (P : V → Prop) `{∀ v, Decision (P v)} :
  match fst <$> head (filter (λ kv : bytes * V, P kv.2) (iter m)) with
  | Some k => ∃ v, m !! k = Some v ∧ P v
  | None => ∀ k v, m !! k = Some v → ¬ P v
  end.
Proof.
  pose proof (elem_of_selected m P) as E. destruct (filter _ (iter m)) as [|[k v] l]; cbn in *.
  - intros k v Hk Hp. assert (k ∈ @nil bytes) as Hin by (apply E; eauto). by apply not_elem_of_nil in Hin.
  - apply E. left.
Qed.

Lemma removed_out_links ids t k :
  tmap (out_links (fold_left (λ t id, remove_out_link id t) ids t)) !! k =
    if decide (k ∈ ids) then None else tmap (out_links t) !! k.
Proof.
  revert t. induction ids as [|i ids IH]; intros t; cbn [fold_left].
  - by rewrite decide_False by apply not_elem_of_nil.
  - rewrite IH. destruct (decide (k ∈ ids)) as [Hk|Hk].
    + by rewrite decide_True by (by right).
    + cbn. destruct (decide (k = i)) as [->|Hne].
      * rewrite lookup_delete_eq, decide_True by left. done.
      * rewrite lookup_delete_ne, decide_False; [done| |done]. by intros [?|?]%elem_of_cons.
Qed.

Lemma removed_pending ids t k :
  tmap (pending_out (fold_left (λ t id, forget_pending_link id t) ids t)) !! k =
    if decide (k ∈ ids) then None else tmap (pending_out t) !! k.
Proof.
  revert t. induction ids as [|i ids IH]; intros t; cbn [fold_left].
  - by rewrite decide_False by apply not_elem_of_nil.
  - rewrite IH. destruct (decide (k ∈ ids)) as [Hk|Hk].
    + by rewrite decide_True by (by right).
    + cbn. destruct (decide (k = i)) as [->|Hne].
      * rewrite lookup_delete_eq, decide_True by left. done.
      * rewrite lookup_delete_ne, decide_False; [done| |done]. by intros [?|?]%elem_of_cons.
Qed.

(** What is left after the idle links, or the expired requests, are pruned. *)
Lemma pruned_out_links t now k l :
  let ids := (filter (λ kv : bytes * OutLink, out_link_idle now kv.2 = true) (iter (tmap (out_links t)))).*1 in
  tmap (out_links (fold_left (λ t id, remove_out_link id t) ids t)) !! k = Some l ↔
    tmap (out_links t) !! k = Some l ∧ out_link_idle now l = false.
Proof.
  intros ids. rewrite removed_out_links. pose proof (elem_of_selected (tmap (out_links t)) (λ l, out_link_idle now l = true) k) as E.
  cbn beta in E. fold ids in E. case_decide as Hk; rewrite E in Hk; clear E.
  - destruct Hk as (l' & Hl & Hi). split; [done|]. intros [Hl' Hi']. congruence.
  - split; [|by intros []]. intros Hl. split; [done|]. apply not_true_iff_false. intros Hi. apply Hk. eauto.
Qed.

Lemma pruned_pending t now k p :
  let ids := (filter (λ kv : bytes * PendingOut, pending_expired now kv.2 = true) (iter (tmap (pending_out t)))).*1 in
  tmap (pending_out (fold_left (λ t id, forget_pending_link id t) ids t)) !! k = Some p ↔
    tmap (pending_out t) !! k = Some p ∧ pending_expired now p = false.
Proof.
  intros ids. rewrite removed_pending. pose proof (elem_of_selected (tmap (pending_out t)) (λ p, pending_expired now p = true) k) as E.
  cbn beta in E. fold ids in E. case_decide as Hk; rewrite E in Hk; clear E.
  - destruct Hk as (l' & Hl & Hi). split; [done|]. intros [Hl' Hi']. congruence.
  - split; [|by intros []]. intros Hl. split; [done|]. apply not_true_iff_false. intros Hi. apply Hk. eauto.
Qed.
End cache.

(** ** Properties *)

(** Link reuse: [outbound_link_for] returns a link only if it goes to the target and
    has been used in the last [OUT_LINK_INACTIVITY_SECS], and marks it used now; it
    returns none only if there is no such link; and afterwards no idle link is left. *)
Theorem outbound_link_reuse `{C : Crypto} `{I : HashIter} `{!HashIterOK}
  (t : Transport) (target : bytes) (now : Z) :
  let '(o, t') := outbound_link_for t target now in
  match o with
  | Some id => ∃ l, tmap (out_links t) !! id = Some l ∧ ol_target l = target ∧ out_link_idle now l = false ∧
      tmap (out_links t') !! id = Some (mkOutLink (ol_target l) (ol_key l) (ol_sig_seed l) (ol_identity l) now)
  | None => ∀ id l, tmap (out_links t) !! id = Some l → ol_target l = target → out_link_idle now l = true
  end ∧
  ∀ id l', tmap (out_links t') !! id = Some l' → o ≠ Some id →
    tmap (out_links t) !! id = Some l' ∧ out_link_idle now l' = false.
Proof.
  unfold outbound_link_for. cbv zeta. set (ids := (filter _ (iter (tmap (out_links t)))).*1).
  set (t1 := fold_left _ ids t).
  assert (∀ k l, tmap (out_links t1) !! k = Some l ↔ tmap (out_links t) !! k = Some l ∧ out_link_idle now l = false)
    as Ht1 by apply pruned_out_links.
  pose proof (head_selected (tmap (out_links t1)) (λ l, ol_target l = target)) as Hh.
  destruct (fst <$> head _) as [id|].
  - destruct Hh as (l & Hl & Htg). split.
    + apply Ht1 in Hl as Hl0. destruct Hl0 as [Hl0 Hi]. exists l. split_and!; [done..|].
      cbn. by rewrite lookup_alter_eq, Hl.
    + intros id' l' Hl' Hne. cbn in Hl'. rewrite lookup_alter_ne in Hl' by congruence. by apply Ht1.
  - split; [|intros; by apply Ht1]. intros id l Hl Htg. apply not_false_iff_true. intros Hi.
    eapply Hh; [|done]. by apply Ht1.
Qed.

(** A pending request suppresses another one exactly while its proof may still
    arrive: [pending_link_to] is true iff some request to the target has not expired,
    and the expired ones are gone afterwards. *)
Theorem pending_link_live `{C : Crypto} `{I : HashIter} `{!HashIterOK}
  (t : Transport) (target : bytes) (now : Z) :
  let '(b, t') := pending_link_to t target now in
  (b = true ↔ ∃ id p, tmap (pending_out t) !! id = Some p ∧ po_target p = target ∧
      now ≤ u64_sat_add (po_created p) (po_expiry_secs p)) ∧
  ∀ id p, tmap (pending_out t') !! id = Some p ↔
    tmap (pending_out t) !! id = Some p ∧ now ≤ u64_sat_add (po_created p) (po_expiry_secs p).
Proof.
  unfold pending_link_to. cbv zeta. set (ids := (filter _ (iter (tmap (pending_out t)))).*1).
  set (t1 := fold_left _ ids t).
  assert (∀ k p, tmap (pending_out t1) !! k = Some p ↔ tmap (pending_out t) !! k = Some p ∧
    now ≤ u64_sat_add (po_created p) (po_expiry_secs p)) as Ht1.
  { intros k p. etrans; [apply pruned_pending|]. unfold pending_expired. rewrite bool_decide_eq_false.
    apply and_iff_compat_l. lia. }
  split; [|done]. rewrite existsb_exists. split.
  - intros ([k p] & Hin & Ht). apply bool_decide_eq_true in Ht. apply list_elem_of_In in Hin.
    rewrite iter_perm in Hin. apply elem_of_map_to_list, Ht1 in Hin as [??]. by exists k, p.
  - intros (k & p & Hp & Ht & Hn). exists (k, p). split; [|by apply bool_decide_eq_true].
    apply list_elem_of_In. rewrite iter_perm. apply elem_of_map_to_list. by apply Ht1.
Qed.

(** A link the peer closes: its key is gone, so nothing more can be served on it;
    but a resource being sent on it stays in [out_resources], whole, and only its
    proof or a connection reset will remove it. *)
Theorem closed_link_keeps_resource `{C : Crypto} `{I : HashIter} (t t' : Transport) (raw eph lid : bytes)
  (iface : PathIface) (tx : ResourceSender)
  (Hc : handle_frame t raw eph iface = Ok (EvInLinkClosed lid, t'))
  (Hr : out_resources t !! lid = Some tx) (Ho : tmap (out_links t) !! lid = None) :
  out_resources t' !! lid = Some tx ∧ any_link_key t' lid = None ∧
  ∀ req iv, serve_link_resource t' lid req iv = Ok [].
Proof.
  assert (t' = set_links (table_remove_all lid) t) as ->.
  { apply handle_frame_inv in Hc as [(p & _ & Hc)|(r & _ & E & _)]; [|done].
    cut (answer_sat (λ e t', ∀ l, e = EvInLinkClosed l → t' = set_links (table_remove_all l) t)
      (handle_packet t eph iface p)); [intros H1; by eapply H1|].
    walk_packet ltac:(first [by intros ? [=] | intros ? [= <-]; done]). }
  assert (any_link_key (set_links (table_remove_all lid) t) lid = None) as Hk.
  { unfold any_link_key. cbn. by rewrite Ho, lookup_delete_eq. }
  split_and!; [done..|]. intros req iv. unfold serve_link_resource. rewrite Hk. cbn. by rewrite Hr.
Qed.

(** ** Witnesses *)
Import ToyInstances.
#[local] Instance cache_iter : HashIter := λ V m, map_to_list m.
#[local] Instance cache_iter_ok : HashIterOK.
Proof. by intros V m. Qed.

Definition w_lid : bytes := replicate 16 0x31.
Definition w_ol : OutLink := mkOutLink (replicate 16 0x32) (replicate 64 3) (replicate 32 4) (public w_peer) 100.
Definition w_up : Transport := insert_out_link w_lid w_ol (transport_new w_id).

Lemma outbound_link_reuse_witness : ∃ l,
  (outbound_link_for w_up (replicate 16 0x32) 600).1 = Some w_lid ∧
  tmap (out_links (outbound_link_for w_up (replicate 16 0x32) 600).2) !! w_lid = Some l ∧ ol_last_activity l = 600.
Proof.
  pose proof (outbound_link_reuse w_up (replicate 16 0x32) 600) as H.
  assert ((outbound_link_for w_up (replicate 16 0x32) 600).1 = Some w_lid) as E by (vm_compute; reflexivity).
  destruct (outbound_link_for w_up (replicate 16 0x32) 600) as [o t']. cbn in E. subst o.
  destruct H as [(l & _ & _ & _ & Hl) _]. eexists. split; [reflexivity|]. split; [exact Hl|reflexivity].
Defined.

Lemma pending_link_live_witness :
  let t := insert_pending_out w_lid (mkPending w_dest (replicate 32 1) (replicate 32 2) (public w_peer) 100 12)
    (transport_new w_id) in
  (pending_link_to t w_dest 112).1 = true ∧ (pending_link_to t w_dest 113).1 = false.
Proof.
  intros t. pose proof (pending_link_live t w_dest 112) as H. split; [|vm_compute; reflexivity].
  destruct (pending_link_to t w_dest 112) as [b t']. destruct H as [H _]. apply H.
  exists w_lid. eexists. split; [apply table_insert_lookup|]. split; [reflexivity|]. cbv. discriminate.
Defined.

(** An inbound link with a resource on the way, and the peer's close. *)
Definition w_tx : ResourceSender :=
  match sender_new [1; 2; 3] (replicate 64 3) (replicate 4 1) (replicate 4 2) (replicate 16 5) with
  | Ok tx => tx | _ => mkSender [] [] [] [] [] 0 0 end.
Definition w_serving : Transport :=
  set_resources (insert w_lid w_tx)
    (insert_link w_lid (mkLinkState (replicate 64 3) [] (replicate 32 6) None) (transport_new w_id)).
Definition w_close : bytes :=
  match make_link_context_packet w_lid (replicate 64 3) CONTEXT_LINKCLOSE w_lid (replicate 16 9) with
  | Ok raw => raw | _ => [] end.

Lemma closed_link_keeps_resource_witness : ∃ t',
  handle_frame w_serving w_close [] Hub = Ok (EvInLinkClosed w_lid, t') ∧
  out_resources t' !! w_lid = Some w_tx.
Proof.
  assert (∃ t', handle_frame w_serving w_close [] Hub = Ok (EvInLinkClosed w_lid, t')) as [t' Ht]
    by (eexists; vm_compute; reflexivity).
  exists t'. split; [exact Ht|].
  refine (proj1 (closed_link_keeps_resource _ _ _ _ _ _ w_tx Ht _ _)).
  - apply lookup_insert_eq.
  - reflexivity.
Defined.
