(* ===== verification/Field25519.v ===== *)
(** The field arithmetic of [reticulum-core/src/x25519.rs]: 16 signed 64-bit limbs
    of radix 2^16, reduced lazily modulo [2^255 - 19].

    The limbs are machine integers: every operation wraps at 64 bits ([i64]).  The
    lemmas show that, within the bounds the callers keep, nothing wraps and the
    value of the limbs is that of the field operation. *)
From S2P Require Import Prelude.

(** An [i64] result: two's complement, computed only when it does not fit. *)
Definition fits64 (x : Z) : bool := (-0x8000000000000000 <=? x) && (x <? 0x8000000000000000).
Definition i64 (x : Z) : Z := if fits64 x then x else as_signed 64 (x mod 2 ^ 64).

(** [[i64; 16]]; [limb l i] is [l[i]] for an index in range. *)
Abbreviation Gf := (list Z) (only parsing).
Definition limb (l : Gf) (i : nat) : Z := nth i l 0.
Arguments limb _ _%_nat.

Definition GF_121665 : Gf := [0xDB41; 1; 0; 0; 0; 0; 0; 0; 0; 0; 0; 0; 0; 0; 0; 0].

Definition car_step (o : Gf) (i : nat) : Gf :=
  let o := alter (λ x, i64 (x + Z.shiftl 1 16)) i o in
  let c := Z.shiftr (limb o i) 16 in
  let idx := if (i <? 15)%nat then S i else O in
  let o := alter (λ x, i64 (x + (if (i =? 15)%nat then i64 (38 * i64 (c - 1)) else i64 (c - 1)))) idx o in
  alter (λ x, i64 (x - i64 (Z.shiftl c 16))) i o.
Definition car25519 (o : Gf) : Gf := fold_left car_step (seq 0 16) o.

(** The conditional swap, by masks. *)
Definition sel25519 (p q : Gf) (b : Z) : Gf * Gf :=
  let c := Z.lnot (i64 (b - 1)) in
  let t := zip_with (λ x y, Z.land c (Z.lxor x y)) p q in
  (zip_with Z.lxor p t, zip_with Z.lxor q t).

Definition add (a b : Gf) : Gf := zip_with (λ x y, i64 (x + y)) a b.
Definition sub (a b : Gf) : Gf := zip_with (λ x y, i64 (x - y)) a b.

Definition mul_row (a b : Gf) (t : Gf) (i : nat) : Gf :=
  fold_left (λ t j, alter (λ x, i64 (x + i64 (limb a i * limb b j))) (i + j)%nat t) (seq 0 16) t.
Definition mul_wide (a b : Gf) : Gf := fold_left (mul_row a b) (seq 0 16) (replicate 31 0).
Definition mul_fold (t : Gf) : Gf :=
  fold_left (λ t i, alter (λ x, i64 (x + i64 (38 * limb t (i + 16)))) i t) (seq 0 15) t.
Definition mul (a b : Gf) : Gf := car25519 (car25519 (take 16 (mul_fold (mul_wide a b)))).
Definition sqr (a : Gf) : Gf := mul a a.

(** [for a in (0..=n).rev()] *)
Definition down (n : nat) : list nat := rev (seq 0 (S n)).
Definition inv_step (input c : Gf) (a : nat) : Gf :=
  let c := sqr c in if negb (a =? 2)%nat && negb (a =? 4)%nat then mul c input else c.
Definition inv25519 (input : Gf) : Gf := fold_left (inv_step input) (down 253) input.

Definition unpack25519 (n : bytes) : Gf :=
  alter (λ x, Z.land x 0x7fff) 15%nat
    ((λ i, i64 (nth (2 * i)%nat n 0 + Z.shiftl (nth (2 * i + 1)%nat n 0) 8)) <$> seq 0 16).

(** One trial subtraction of the modulus, with its borrow chain. *)
Definition borrow (x : Z) : Z := Z.land (Z.shiftr x 16) 1.
Definition sub_step (t m : Gf) (i : nat) : Gf :=
  let m := <[i := i64 (i64 (limb t i - 0xffff) - borrow (limb m (i - 1)))]> m in
  alter (λ x, Z.land x 0xffff) (i - 1)%nat m.
Definition sub_p (t : Gf) : Gf * Z :=
  let m := <[0%nat := i64 (limb t 0 - 0xffed)]> (replicate 16 0) in
  let m := fold_left (sub_step t) (seq 1 14) m in
  let m := <[15%nat := i64 (i64 (limb t 15 - 0x7fff) - borrow (limb m 14))]> m in
  let b := borrow (limb m 15) in
  (alter (λ x, Z.land x 0xffff) 14%nat m, b).
Definition pack_step (t : Gf) : Gf := let '(m, b) := sub_p t in (sel25519 t m (1 - b)).1.
Definition pack25519 (n : Gf) : bytes :=
  let t := car25519 (car25519 (car25519 n)) in
  let t := pack_step (pack_step t) in
  flat_map (λ x, [Z.land x 0xff; Z.shiftr x 8 mod 256]) t.

(** ** Values *)

Definition p25519 : Z := 2 ^ 255 - 19.
Definition radix : Z := 65536.
Fixpoint gval (l : Gf) : Z := match l with [] => 0 | x :: l => x + radix * gval l end.
(** The value of a little-endian byte string. *)
Fixpoint le_val (l : bytes) : Z := match l with [] => 0 | x :: l => x + 256 * le_val l end.

(** 16 limbs within a bound. *)
Definition within (B : Z) (l : Gf) : Prop := length l = 16%nat ∧ Forall (λ x, - B ≤ x ≤ B) l.
(** What a multiplication returns: carried limbs, the lowest off by at most 38. *)
Definition carried (l : Gf) : Prop :=
  ∃ x l', l = x :: l' ∧ length l' = 15%nat ∧ -38 ≤ x < radix + 38 ∧ Forall (λ y, 0 ≤ y < radix) l'.

Lemma i64_id x : - 2 ^ 63 ≤ x < 2 ^ 63 → i64 x = x.
Proof.
  intros H. unfold i64, fits64. change (2 ^ 63) with 0x8000000000000000 in H.
  rewrite (proj2 (Z.leb_le _ _)), (proj2 (Z.ltb_lt _ _)) by lia. done.
Qed.

Lemma limb_lookup l i : (i < length l)%nat → l !! i = Some (limb l i).
Proof. intros H. unfold limb. destruct (nth_lookup_or_length l i 0) as [|]; [done|lia]. Qed.
Lemma limb_cons x l i : limb (x :: l) (S i) = limb l i.
Proof. done. Qed.

Lemma gval_alter f i l : (i < length l)%nat →
  gval (alter f i l) = gval l + (f (limb l i) - limb l i) * radix ^ Z.of_nat i.
Proof.
  revert i. induction l as [|x l IH]; intros [|i] H; cbn [length] in H; try lia.
  - change (alter f 0%nat (x :: l)) with (f x :: l). cbn [gval]. unfold limb. cbn [nth Z.of_nat].
    rewrite Z.pow_0_r. ring.
  - change (alter f (S i) (x :: l)) with (x :: alter f i l). cbn [gval]. rewrite IH, limb_cons by lia.
    rewrite Nat2Z.inj_succ, Z.pow_succ_r by lia. ring.
Qed.

Lemma gval_app a b : gval (a ++ b) = gval a + radix ^ Z.of_nat (length a) * gval b.
Proof.
  induction a as [|x a IH]; cbn [app gval length]; [by rewrite Z.pow_0_r; ring|].
  rewrite IH, Nat2Z.inj_succ, Z.pow_succ_r by lia. ring.
Qed.

(** Digits of a value: [n] limbs in [[0, radix)]. *)
Fixpoint digits (n : nat) (v : Z) : Gf :=
  match n with O => [] | S n => v mod radix :: digits n (v / radix) end.
Definition in_digit (x : Z) : Prop := 0 ≤ x < radix.

Lemma radix_pos n : 0 < radix ^ Z.of_nat n.
Proof. apply Z.pow_pos_nonneg; unfold radix; lia. Qed.
Lemma radix_succ n : radix ^ Z.of_nat (S n) = radix * radix ^ Z.of_nat n.
Proof. rewrite Nat2Z.inj_succ, Z.pow_succ_r by lia. done. Qed.

Lemma radix_15 : radix ^ 15 = radix ^ 14 * radix.
Proof. vm_compute. reflexivity. Qed.
Lemma radix_16 : radix ^ 16 = radix * radix ^ 15.
Proof. vm_compute. reflexivity. Qed.

Lemma digits_length n v : length (digits n v) = n.
Proof. revert v. induction n as [|n IH]; intros v; cbn; [done|by rewrite IH]. Qed.
Lemma digits_ok n v : Forall in_digit (digits n v).
Proof.
  revert v. induction n as [|n IH]; intros v; cbn [digits]; [constructor|].
  constructor; [|apply IH]. unfold in_digit. pose proof (Z.mod_pos_bound v radix). unfold radix in *. lia.
Qed.
Lemma digits_gval n v : gval (digits n v) = v mod radix ^ Z.of_nat n.
Proof.
  revert v. induction n as [|n IH]; intros v; cbn [digits gval]; [by rewrite Z.mod_1_r|].
  rewrite IH, radix_succ. pose proof (radix_pos n). rewrite Z.rem_mul_r by (unfold radix; lia). done.
Qed.
Lemma gval_digits_bound l : Forall in_digit l → 0 ≤ gval l < radix ^ Z.of_nat (length l).
Proof.
  induction 1 as [|x l Hx _ IH]; cbn [gval length]; [by rewrite Z.pow_0_r|].
  rewrite radix_succ. unfold in_digit, radix in *. lia.
Qed.
(** Limbs in range are the digits of their value. *)
Lemma digits_unique l : Forall in_digit l → l = digits (length l) (gval l).
Proof.
  induction 1 as [|x l Hx Hl IH]; cbn [gval length digits]; [done|].
  unfold in_digit in Hx. rewrite (Z.mul_comm radix), Z.mod_add, Z.div_add by (unfold radix; lia).
  rewrite Z.mod_small, Z.div_small, Z.add_0_l by lia. by rewrite <-IH.
Qed.
Lemma gval_bound B l : Forall (λ x, - B ≤ x ≤ B) l →
  - (B * radix ^ Z.of_nat (length l) - B) ≤ (radix - 1) * gval l ≤ B * radix ^ Z.of_nat (length l) - B.
Proof.
  induction 1 as [|x l Hx _ IH]; cbn [gval length]; [rewrite Z.pow_0_r; lia|].
  rewrite radix_succ, (Z.mul_comm radix (radix ^ _)), Z.mul_assoc.
  set (P := B * radix ^ Z.of_nat (length l)) in *. clearbody P. unfold radix in *. lia.
Qed.

(** Only the value modulo [radix ^ n] matters. *)
Lemma digits_shift n v c : digits n (v + radix ^ Z.of_nat n * c) = digits n v.
Proof.
  revert v c. induction n as [|n IH]; intros v c; [done|]. cbn [digits]. rewrite radix_succ.
  replace (v + radix * radix ^ Z.of_nat n * c) with (v + (radix ^ Z.of_nat n * c) * radix) by ring.
  rewrite Z.mod_add, Z.div_add by done. by rewrite IH.
Qed.

(** ** Carrying *)

(** One step of a pass, on the list around its limb. *)
Lemma alter_middle {A} (f : A → A) (pre : list A) x post i : i = length pre →
  alter f i (pre ++ x :: post) = pre ++ f x :: post.
Proof. intros ->. induction pre as [|y pre IH]; [done|]. cbn. by f_equal. Qed.
Lemma alter_next {A} (f : A → A) (pre : list A) x y post i : i = length pre →
  alter f (S i) (pre ++ x :: y :: post) = pre ++ x :: f y :: post.
Proof. intros ->. induction pre as [|z pre IH]; [done|]. cbn. by f_equal. Qed.
Lemma limb_middle (pre : Gf) x post i : i = length pre → limb (pre ++ x :: post) i = x.
Proof. intros ->. unfold limb. rewrite app_nth2, Nat.sub_diag by lia. done. Qed.

Lemma carry_c y : Z.shiftr (y + Z.shiftl 1 16) 16 = y / radix + 1.
Proof.
  rewrite Z.shiftr_div_pow2 by lia. change (Z.shiftl 1 16) with (1 * radix). change (2 ^ 16) with radix.
  by rewrite Z.div_add.
Qed.
Lemma carry_rest y : y + Z.shiftl 1 16 - Z.shiftl (y / radix + 1) 16 = y mod radix.
Proof.
  rewrite !Z.shiftl_mul_pow2 by lia. change (2 ^ 16) with radix.
  rewrite Z.mod_eq by (unfold radix; lia). ring.
Qed.
Lemma div_radix_bound y : - 2 ^ 61 ≤ y ≤ 2 ^ 61 → - 2 ^ 45 - 1 ≤ y / radix ≤ 2 ^ 45.
Proof. unfold radix. intros. pose proof (Z.div_mod y 65536). pose proof (Z.mod_pos_bound y 65536). lia. Qed.

Lemma car_step_inner (pre : Gf) y z post : (length pre < 15)%nat →
  - 2 ^ 61 ≤ y ≤ 2 ^ 61 → - 2 ^ 60 ≤ z ≤ 2 ^ 60 →
  car_step (pre ++ y :: z :: post) (length pre) = (pre ++ [y mod radix]) ++ (z + y / radix) :: post.
Proof.
  intros Hp Hy Hz. pose proof (div_radix_bound y Hy) as Hd. unfold car_step.
  rewrite alter_middle, limb_middle by done. rewrite (i64_id (y + _)) by (change (Z.shiftl 1 16) with 65536; lia).
  rewrite carry_c, (proj2 (Nat.ltb_lt _ _) Hp), (proj2 (Nat.eqb_neq _ _)) by lia.
  rewrite alter_next, alter_middle by done.
  rewrite (i64_id (y / radix + 1 - 1)) by lia. rewrite Z.add_simpl_r, (i64_id (z + _)) by lia.
  rewrite (i64_id (Z.shiftl _ _)) by (rewrite Z.shiftl_mul_pow2 by lia; lia).
  rewrite carry_rest, i64_id by (pose proof (Z.mod_pos_bound y radix); unfold radix in *; lia).
  by rewrite <-app_assoc.
Qed.

Lemma car_step_last x (pre : Gf) y : length pre = 14%nat →
  - 2 ^ 61 ≤ y ≤ 2 ^ 61 → in_digit x →
  car_step (x :: pre ++ [y]) 15 = (x + 38 * (y / radix)) :: pre ++ [y mod radix].
Proof.
  intros Hp Hy Hx. pose proof (div_radix_bound y Hy) as Hd. unfold car_step, in_digit, radix in *.
  change (x :: pre ++ [y]) with ((x :: pre) ++ [y]).
  rewrite alter_middle, limb_middle by (cbn; lia). rewrite (i64_id (y + _)) by (change (Z.shiftl 1 16) with 65536; lia).
  change 65536 with radix in *. rewrite carry_c. cbn [Nat.ltb Nat.leb Nat.eqb].
  rewrite (i64_id (y / radix + 1 - 1)) by lia. rewrite Z.add_simpl_r, (i64_id (38 * _)) by lia.
  cbn [app]. change (alter ?f 0%nat (?a :: ?l)) with (f a :: l). cbv beta.
  rewrite (i64_id (x + _)) by (unfold radix in *; lia).
  change (?a :: pre ++ [?b]) with ((a :: pre) ++ [b]). rewrite alter_middle by (cbn; lia).
  rewrite (i64_id (Z.shiftl _ _)) by (rewrite Z.shiftl_mul_pow2 by lia; lia).
  rewrite carry_rest, i64_id by (pose proof (Z.mod_pos_bound y radix); unfold radix in *; lia). done.
Qed.

(** Peels one iteration of a counted loop. *)
Lemma loop_step {A} (f : A → nat → A) k n a : fold_left f (seq k (S n)) a = fold_left f (seq (S k) n) (f a k).
Proof. done. Qed.

Lemma car_fold x (pre : Gf) y rest : (S (length pre) + length rest = 15)%nat →
  in_digit x → Forall in_digit pre → - 2 ^ 61 ≤ y ≤ 2 ^ 61 → Forall (λ z, - 2 ^ 60 ≤ z ≤ 2 ^ 60) rest →
  ∃ l c, fold_left car_step (seq (S (length pre)) (S (length rest))) (x :: pre ++ y :: rest) = (x + 38 * c) :: l ∧
    length l = 15%nat ∧ Forall in_digit l ∧ gval l + radix ^ 15 * c = gval (pre ++ y :: rest).
Proof.
  revert pre y. induction rest as [|z rest IH]; intros pre y Hn Hx Hpre Hy Hrest; cbn [length] in *.
  - assert (length pre = 14%nat) as Hp by lia. rewrite Hp, loop_step. change (seq 16 0) with (@nil nat).
    cbn [fold_left]. rewrite car_step_last by done. exists (pre ++ [y mod radix]), (y / radix). split_and!.
    + done.
    + rewrite length_app. cbn. lia.
    + apply Forall_app. split; [done|]. constructor; [|done]. apply Z.mod_pos_bound. done.
    + rewrite !gval_app, Hp. cbn [gval]. change (Z.of_nat 14) with 14.
      rewrite (Z.div_mod y radix) at 3 by done. rewrite radix_15. ring.
  - rewrite loop_step. inversion_clear Hrest as [|? ? Hz Hrest'].
    change (x :: pre ++ y :: z :: rest) with ((x :: pre) ++ y :: z :: rest).
    change (S (length pre)) with (length (x :: pre)). rewrite car_step_inner by (done || cbn; lia).
    pose proof (div_radix_bound y Hy) as Hd.
    destruct (IH (pre ++ [y mod radix]) (z + y / radix)) as (l & c & E & Hl & Hdig & Hval).
    { rewrite length_app. cbn. lia. }
    { done. }
    { apply Forall_app. split; [done|]. constructor; [|done]. by apply Z.mod_pos_bound. }
    { lia. }
    { done. }
    exists l, c. rewrite length_app in E. cbn [length] in E.
    replace (S (length pre + 1)) with (S (length (x :: pre))) in E by (cbn; lia).
    split_and!; [exact E|done|done|]. rewrite Hval, !gval_app, length_app. cbn [gval length].
    rewrite Nat.add_1_r, radix_succ. rewrite (Z.div_mod y radix) at 3 by done. ring.
Qed.

Lemma car_pass o : within (2 ^ 60) o →
  ∃ x l c, car25519 o = (x + 38 * c) :: l ∧ length l = 15%nat ∧ Forall in_digit (x :: l) ∧
    gval o = gval (x :: l) + radix ^ 16 * c.
Proof.
  intros [Hlen Ho]. destruct o as [|x [|y rest]]; try done. cbn [length] in Hlen.
  inversion_clear Ho as [|? ? Hx Ho']. inversion_clear Ho' as [|? ? Hy Hrest].
  pose proof (div_radix_bound x ltac:(lia)) as Hd.
  destruct (car_fold (x mod radix) [] (y + x / radix) rest) as (l & c & E & Hl & Hdig & Hval);
    [cbn; lia|by apply Z.mod_pos_bound|constructor|lia|done|].
  exists (x mod radix), l, c. split_and!.
  - unfold car25519. rewrite loop_step.
    pose proof (car_step_inner [] x y rest ltac:(cbn; lia) ltac:(lia) Hy) as E0. cbn [app length] in E0.
    rewrite E0. cbn [length app] in E. replace (S (length rest)) with 15%nat in E by lia. exact E.
  - exact Hl.
  - constructor; [by apply Z.mod_pos_bound|done].
  - cbn [gval app] in *. rewrite radix_16. rewrite <-Z.mul_assoc, <-Z.add_assoc, <-Z.mul_add_distr_l, Hval.
    rewrite (Z.div_mod x radix) at 1 by done. ring.
Qed.

(** A carry pass: the digits of the value, with what is above [2^256] folded back. *)
Lemma car25519_eq o : within (2 ^ 60) o →
  car25519 o = (gval o mod radix + 38 * (gval o / radix ^ 16)) :: digits 15 (gval o / radix).
Proof.
  intros Ho. destruct (car_pass o Ho) as (x & l & c & -> & Hl & Hdig & HV). clear Ho.
  pose proof (gval_digits_bound _ Hdig) as Hb. cbn [length] in Hb. rewrite Hl in Hb.
  change (Z.of_nat 16) with 16 in Hb. inversion_clear Hdig as [|? ? Hx Hdig'].
  assert (gval o / radix ^ 16 = c) as ->.
  { rewrite HV, Z.mul_comm, Z.div_add, Z.div_small by (done || lia). lia. }
  assert (gval o = x + (gval l + radix ^ 15 * c) * radix) as ->.
  { rewrite HV. cbn [gval]. rewrite radix_16. ring. }
  rewrite Z.mod_add, Z.div_add by done. rewrite Z.mod_small, (Z.div_small x), Z.add_0_l by exact Hx.
  f_equal. pose proof (digits_shift 15 (gval l) c) as Hs. change (Z.of_nat 15) with 15 in Hs.
  rewrite Hs. pose proof (digits_unique l Hdig') as Hu. rewrite Hl in Hu. exact Hu.
Qed.

(** ** Congruence modulo the prime *)
Definition feq (a b : Z) : Prop := a mod p25519 = b mod p25519.
Infix "≡p" := feq (at level 70).

#[export] Instance feq_equiv : Equivalence feq.
Proof. unfold feq. split; [intros ?; done|intros ???; by symmetry|intros ?????; by etrans]. Qed.
#[export] Instance feq_add : Proper (feq ==> feq ==> feq) Z.add.
Proof. unfold feq. intros a b H c d H'. rewrite Zplus_mod, H, H', <-Zplus_mod. done. Qed.
#[export] Instance feq_sub : Proper (feq ==> feq ==> feq) Z.sub.
Proof. unfold feq. intros a b H c d H'. rewrite Zminus_mod, H, H', <-Zminus_mod. done. Qed.
#[export] Instance feq_mul : Proper (feq ==> feq ==> feq) Z.mul.
Proof. unfold feq. intros a b H c d H'. rewrite Zmult_mod, H, H', <-Zmult_mod. done. Qed.
Lemma feq_multiple a k : a + k * p25519 ≡p a.
Proof. unfold feq. by rewrite Z.mod_add. Qed.

Lemma radix_fold : radix ^ 16 = 2 * p25519 + 38.
Proof. vm_compute. reflexivity. Qed.

(** Folding at [2^256] keeps the residue. *)
Lemma fold_feq V : V mod radix ^ 16 + 38 * (V / radix ^ 16) ≡p V.
Proof.
  rewrite (Z.mod_eq V) by done. rewrite radix_fold at 1.
  replace (V - (2 * p25519 + 38) * (V / radix ^ 16) + 38 * (V / radix ^ 16))
    with (V + (-2 * (V / radix ^ 16)) * p25519) by ring. apply feq_multiple.
Qed.

Lemma car_gval o : within (2 ^ 60) o →
  gval (car25519 o) = gval o mod radix ^ 16 + 38 * (gval o / radix ^ 16).
Proof.
  intros Ho. rewrite car25519_eq by done. pose proof (digits_gval 16 (gval o)) as E.
  change (digits 16 (gval o)) with (gval o mod radix :: digits 15 (gval o / radix)) in E. cbn [gval] in E |- *.
  change (Z.of_nat 16) with 16 in E. rewrite <-E. ring.
Qed.

(** ** Loops that add to limbs *)
Lemma gval_sum k l : gval l = zsum (λ j, limb l (j - k) * radix ^ Z.of_nat (j - k)) (seq k (length l)).
Proof.
  revert k. induction l as [|x l IH]; intros k; [done|]. cbn [gval length seq zsum]. rewrite Nat.sub_diag.
  unfold limb at 1. cbn [nth Z.of_nat]. rewrite Z.pow_0_r, Z.mul_1_r. f_equal.
  rewrite (IH (S k)). clear IH. generalize (length l) as n. intros n.
  assert (∀ js, Forall (λ j, S k ≤ j)%nat js → radix * zsum (λ j, limb l (j - S k) * radix ^ Z.of_nat (j - S k)) js =
    zsum (λ j, limb (x :: l) (j - k) * radix ^ Z.of_nat (j - k)) js) as H.
  { induction 1 as [|j js Hj _ IH]; [cbn; lia|]. cbn [zsum]. rewrite <-IH.
    replace (j - k)%nat with (S (j - S k)) by lia. rewrite limb_cons, radix_succ. ring. }
  apply H. apply Forall_forall. intros j Hj%elem_of_seq. lia.
Qed.

(** A loop that adds [v j] to limb [i j] of [t], while everything stays in 64 bits. *)
Lemma add_loop (i : nat → nat) (v : nat → Z) K M js t :
  0 ≤ M → Forall (λ x, - K ≤ x ≤ K) t →
  Forall (λ j, (i j < length t)%nat ∧ - M ≤ v j ≤ M) js → K + M * Z.of_nat (length js) < 2 ^ 63 →
  let t' := fold_left (λ t j, alter (λ x, i64 (x + v j)) (i j) t) js t in
  length t' = length t ∧ Forall (λ x, - (K + M * Z.of_nat (length js)) ≤ x ≤ K + M * Z.of_nat (length js)) t' ∧
  gval t' = gval t + zsum (λ j, v j * radix ^ Z.of_nat (i j)) js.
Proof.
  intros HM. revert K t. induction js as [|j js IH]; intros K t Ht Hjs HK; cbn [fold_left length zsum] in *.
  - split_and!; [done| |lia]. eapply Forall_impl; [exact Ht|]. cbn. intros. lia.
  - inversion_clear Hjs as [|? ? [Hi Hv] Hjs'].
    assert (alter (λ x, i64 (x + v j)) (i j) t = alter (λ x, x + v j) (i j) t) as E.
    { apply list_alter_ext; [|done]. intros y Hy. rewrite Forall_lookup in Ht. specialize (Ht _ _ Hy). cbn in Ht.
      rewrite i64_id; [done|]. lia. }
    rewrite E. destruct (IH (K + M) (alter (λ x, x + v j) (i j) t)) as (H1 & H2 & H3).
    + apply Forall_alter; [eapply Forall_impl; [exact Ht|]; cbn; intros; lia|].
      intros y Hy _. rewrite Forall_lookup in Ht. specialize (Ht _ _ Hy). cbn in Ht |- *. lia.
    + by rewrite length_alter.
    + lia.
    + rewrite length_alter in H1. split_and!; [done| |].
      * eapply Forall_impl; [exact H2|]. cbn. intros. lia.
      * rewrite H3, gval_alter by done. ring.
Qed.

Lemma limb_bound B l i : 0 ≤ B → Forall (λ x, - B ≤ x ≤ B) l → - B ≤ limb l i ≤ B.
Proof.
  intros HB Hl. unfold limb. destruct (nth_in_or_default i l 0) as [Hin| ->]; [|lia].
  apply list_elem_of_In in Hin. rewrite Forall_forall in Hl. by apply Hl.
Qed.

Lemma zsum_scale c f js : zsum (λ j, c * f j) js = c * zsum f js.
Proof. induction js as [|j js IH]; cbn [zsum]; [lia|rewrite IH; ring]. Qed.
Lemma gval_sum0 l : gval l = zsum (λ j, limb l j * radix ^ Z.of_nat j) (seq 0 (length l)).
Proof. rewrite (gval_sum 0 l). apply zsum_ext. intros j _. by rewrite Nat.sub_0_r. Qed.

(** ** Multiplication *)

Lemma mul_row_ok a b t i K : within (2 ^ 20) a → within (2 ^ 20) b → (i < 16)%nat →
  length t = 31%nat → Forall (λ x, - K ≤ x ≤ K) t → K ≤ 2 ^ 60 →
  length (mul_row a b t i) = 31%nat ∧
  Forall (λ x, - (K + 2 ^ 44) ≤ x ≤ K + 2 ^ 44) (mul_row a b t i) ∧
  gval (mul_row a b t i) = gval t + limb a i * radix ^ Z.of_nat i * gval b.
Proof.
  intros [La Ha] [Lb Hb] Hi Lt Ht HK. pose proof (limb_bound (2 ^ 20) a i ltac:(lia) Ha) as Hai.
  assert (∀ j, i64 (limb a i * limb b j) = limb a i * limb b j ∧ - 2 ^ 40 ≤ limb a i * limb b j ≤ 2 ^ 40) as Hv.
  { intros j. pose proof (limb_bound (2 ^ 20) b j ltac:(lia) Hb) as Hbj.
    assert (- 2 ^ 40 ≤ limb a i * limb b j ≤ 2 ^ 40) by nia. split; [apply i64_id; lia|done]. }
  destruct (add_loop (λ j, (i + j)%nat) (λ j, i64 (limb a i * limb b j)) K (2 ^ 40) (seq 0 16) t)
    as (H1 & H2 & H3); [lia|done| |rewrite length_seq; lia|].
  { apply Forall_forall. intros j Hj%elem_of_seq. destruct (Hv j) as [-> ?]. split; [lia|done]. }
  rewrite length_seq in H2. change (2 ^ 40 * Z.of_nat 16) with (2 ^ 44) in H2.
  split_and!; [unfold mul_row; by rewrite H1|exact H2|]. unfold mul_row. rewrite H3. f_equal.
  rewrite (gval_sum0 b), Lb, <-zsum_scale. apply zsum_ext. intros j _. destruct (Hv j) as [-> _].
  rewrite Nat2Z.inj_add, Z.pow_add_r by lia. ring.
Qed.

Lemma mul_rows_ok a b rs t K : within (2 ^ 20) a → within (2 ^ 20) b → Forall (λ i, i < 16)%nat rs →
  length t = 31%nat → Forall (λ x, - K ≤ x ≤ K) t → K + 2 ^ 44 * Z.of_nat (length rs) ≤ 2 ^ 60 →
  let t' := fold_left (mul_row a b) rs t in
  length t' = 31%nat ∧ Forall (λ x, - (K + 2 ^ 44 * Z.of_nat (length rs)) ≤ x ≤ K + 2 ^ 44 * Z.of_nat (length rs)) t' ∧
  gval t' = gval t + zsum (λ i, limb a i * radix ^ Z.of_nat i) rs * gval b.
Proof.
  intros Ha Hb. revert t K. induction rs as [|i rs IH]; intros t K His Lt Ht HK; cbn [fold_left length zsum] in *.
  - split_and!; [done| |lia]. eapply Forall_impl; [exact Ht|]. cbn. intros. lia.
  - inversion_clear His as [|? ? Hi His'].
    destruct (mul_row_ok a b t i K Ha Hb Hi Lt Ht) as (H1 & H2 & H3); [lia|].
    destruct (IH (mul_row a b t i) (K + 2 ^ 44) His' H1 H2) as (H4 & H5 & H6); [lia|].
    split_and!; [done| |rewrite H6, H3; ring]. eapply Forall_impl; [exact H5|]. cbn. intros. lia.
Qed.

Lemma mul_wide_ok a b : within (2 ^ 20) a → within (2 ^ 20) b →
  length (mul_wide a b) = 31%nat ∧ Forall (λ x, - 2 ^ 48 ≤ x ≤ 2 ^ 48) (mul_wide a b) ∧
  gval (mul_wide a b) = gval a * gval b.
Proof.
  intros Ha Hb. destruct (mul_rows_ok a b (seq 0 16) (replicate 31 0) 0 Ha Hb) as (H1 & H2 & H3).
  - apply Forall_forall. intros i Hi%elem_of_seq. lia.
  - apply length_replicate.
  - apply Forall_replicate. lia.
  - rewrite length_seq. lia.
  - rewrite length_seq in H2. change (0 + 2 ^ 44 * Z.of_nat 16) with (2 ^ 48) in H2.
    split_and!; [exact H1|exact H2|]. unfold mul_wide. rewrite H3. destruct Ha as [La _].
    rewrite (gval_sum0 a), La. change (gval (replicate 31 0)) with 0. ring.
Qed.

(** The folding loop reads only limbs it does not write. *)
Lemma limb_drop n l j : limb (drop n l) j = limb l (j + n).
Proof.
  unfold limb. rewrite !nth_lookup, lookup_drop. by rewrite Nat.add_comm.
Qed.

Lemma mul_fold_reads js t : Forall (λ j, j < 15)%nat js →
  fold_left (λ t i, alter (λ x, i64 (x + i64 (38 * limb t (i + 16)))) i t) js t =
  fold_left (λ t' j, alter (λ x, i64 (x + i64 (38 * limb (drop 16 t) j))) j t') js t.
Proof.
  assert (∀ t', drop 16 t' = drop 16 t → Forall (λ j, j < 15)%nat js →
    fold_left (λ t i, alter (λ x, i64 (x + i64 (38 * limb t (i + 16)))) i t) js t' =
    fold_left (λ t' j, alter (λ x, i64 (x + i64 (38 * limb (drop 16 t) j))) j t') js t') as H; [|by apply H].
  induction js as [|j js IH]; intros t' Ht' Hjs; [done|]. inversion_clear Hjs as [|? ? Hj Hjs'].
  cbn [fold_left]. rewrite <-(limb_drop 16 t' j), Ht'. apply IH; [|done].
  by rewrite drop_alter, decide_False by lia.
Qed.

Lemma mul_fold_ok t : length t = 31%nat → Forall (λ x, - 2 ^ 48 ≤ x ≤ 2 ^ 48) t →
  within (2 ^ 60) (take 16 (mul_fold t)) ∧ gval (take 16 (mul_fold t)) ≡p gval t.
Proof.
  intros Lt Ht. unfold mul_fold. set (D := drop 16 t).
  assert (Forall (λ x, - 2 ^ 48 ≤ x ≤ 2 ^ 48) D) as HD by (by apply Forall_drop).
  rewrite mul_fold_reads by (apply Forall_forall; intros j Hj%elem_of_seq; lia). fold D.
  assert (∀ j, i64 (38 * limb D j) = 38 * limb D j ∧ - 2 ^ 54 ≤ 38 * limb D j ≤ 2 ^ 54) as Hv.
  { intros j. pose proof (limb_bound (2 ^ 48) D j ltac:(lia) HD) as Hj. split; [apply i64_id; lia|lia]. }
  destruct (add_loop (λ j, j) (λ j, i64 (38 * limb D j)) (2 ^ 48) (2 ^ 54) (seq 0 15) t) as (H1 & H2 & H3);
    [lia|done| |rewrite length_seq; lia|].
  { apply Forall_forall. intros j Hj%elem_of_seq. destruct (Hv j) as [-> ?]. split; [lia|done]. }
  rewrite length_seq in H2.
  set (t' := fold_left _ _ t) in *. assert (drop 16 t' = D) as HD'.
  { unfold t'. assert (∀ js u, Forall (λ j, j < 15)%nat js → drop 16 u = D →
      drop 16 (fold_left (λ t' j, alter (λ x, i64 (x + i64 (38 * limb D j))) j t') js u) = D) as H.
    { induction js as [|j js IH]; intros u Hjs Hu; [done|]. inversion_clear Hjs. cbn [fold_left]. apply IH; [done|].
      by rewrite drop_alter, decide_False by lia. }
    apply H; [|done]. apply Forall_forall. intros j Hj%elem_of_seq. lia. }
  clearbody t'. split.
  - split; [rewrite length_take; lia|]. apply Forall_take. eapply Forall_impl; [exact H2|]. cbn. intros. lia.
  - assert (zsum (λ j, i64 (38 * limb D j) * radix ^ Z.of_nat j) (seq 0 15) = 38 * gval D) as HS.
    { rewrite (gval_sum0 D). unfold D at 3. rewrite length_drop, Lt. change (31 - 16)%nat with 15%nat.
      rewrite <-zsum_scale. apply zsum_ext. intros j _. destruct (Hv j) as [-> _]. ring. }
    rewrite HS in H3. rewrite <-(take_drop 16 t') in H3 at 1. rewrite HD', gval_app, length_take_le in H3 by lia.
    change (Z.of_nat 16) with 16 in H3. rewrite radix_fold in H3.
    replace (gval (take 16 t')) with (gval t + (-2 * gval D) * p25519) by
      (apply (Z.add_cancel_r _ _ ((2 * p25519 + 38) * gval D)); rewrite H3; ring). apply feq_multiple.
Qed.

(** ** What carrying achieves *)
Lemma radix16_big : 2 ^ 200 < radix ^ 16.
Proof. vm_compute. reflexivity. Qed.

Lemma digit_bound x : in_digit x → - 2 ^ 52 ≤ x ≤ 2 ^ 52.
Proof. unfold in_digit, radix. lia. Qed.

Lemma car_first o : within (2 ^ 60) o →
  within (2 ^ 52) (car25519 o) ∧ - 2 ^ 51 ≤ gval (car25519 o) < radix ^ 16 + 2 ^ 51.
Proof.
  intros Ho. assert (- 2 ^ 45 ≤ gval o / radix ^ 16 ≤ 2 ^ 45) as Hc.
  { destruct Ho as [Lo Ho]. pose proof (gval_bound _ _ Ho) as H. rewrite Lo in H. change (Z.of_nat 16) with 16 in H.
    pose proof radix16_big as HR. set (R := radix ^ 16) in *. clearbody R. unfold radix in H.
    split; [apply Z.div_le_lower_bound|apply Z.div_le_upper_bound]; lia. }
  split.
  - rewrite car25519_eq by done. split; [cbn [length]; by rewrite digits_length|]. constructor.
    + pose proof (Z.mod_pos_bound (gval o) radix ltac:(done)) as Hm.
      pose proof (eq_refl : radix = 65536). lia.
    + eapply Forall_impl; [apply digits_ok|]. apply digit_bound.
  - rewrite car_gval by done. pose proof (Z.mod_pos_bound (gval o) (radix ^ 16) ltac:(done)). lia.
Qed.

Lemma car_second o : within (2 ^ 60) o → - radix ^ 16 ≤ gval o < 2 * radix ^ 16 → carried (car25519 o).
Proof.
  intros Ho Hv. rewrite car25519_eq by done. eexists _, _. split; [done|].
  split; [apply digits_length|]. split; [|apply digits_ok].
  assert (-1 ≤ gval o / radix ^ 16 < 2) as Hc.
  { split; [apply Z.div_le_lower_bound|apply Z.div_lt_upper_bound]; try done; lia. }
  pose proof (Z.mod_pos_bound (gval o) radix ltac:(done)). lia.
Qed.

Lemma carried_within l : carried l → within (2 ^ 17) l.
Proof.
  intros (x & l' & -> & Hl & Hx & Hl'). split; [cbn; lia|]. unfold radix in *. constructor; [lia|].
  eapply Forall_impl; [exact Hl'|]. cbn. lia.
Qed.
Lemma within_weaken B B' l : B ≤ B' → within B l → within B' l.
Proof. intros HB [Hl Hf]. split; [done|]. eapply Forall_impl; [exact Hf|]. cbn. lia. Qed.

Lemma carried_gval l : carried l → -38 ≤ gval l < radix ^ 16 + 38.
Proof.
  intros (x & l' & -> & Hl & Hx & Hl'). cbn [gval]. pose proof (gval_digits_bound _ Hl') as H.
  rewrite Hl in H. change (Z.of_nat 15) with 15 in H. rewrite radix_16.
  pose proof (eq_refl : radix = 65536). set (P := radix ^ 15) in *. clearbody P. nia.
Qed.

(** A third pass leaves true digits. *)
Lemma car_third l : carried l → ∃ v, car25519 l = digits 16 v ∧ 0 ≤ v < radix ^ 16 ∧ v ≡p gval l.
Proof.
  intros Hc. assert (within (2 ^ 60) l) as Hw by (eapply within_weaken; [|by apply carried_within]; lia).
  pose proof (carried_gval l Hc) as Hb. set (V := gval l) in *.
  assert (∃ v, v = V mod radix ^ 16 + 38 * (V / radix ^ 16) ∧ 0 ≤ v < radix ^ 16 ∧
    v mod radix = V mod radix + 38 * (V / radix ^ 16) ∧ v / radix = (V mod radix ^ 16) / radix) as (v & Hv & Hr & Hm & Hd).
  { eexists. split; [done|]. pose proof radix16_big as HR. assert (38 < radix) as H38 by done.
    assert (∀ a k, V mod radix ^ 16 = a → in_digit (a mod radix + 38 * k) →
      (a + 38 * k) mod radix = a mod radix + 38 * k ∧ (a + 38 * k) / radix = a / radix) as Hsmall.
    { intros a k _ Hk. rewrite (Z.div_mod a radix) at 1 3 by done.
      replace (radix * (a / radix) + a mod radix + 38 * k) with (a mod radix + 38 * k + (a / radix) * radix) by ring.
      rewrite Z.mod_add, Z.div_add by done. unfold in_digit in Hk. rewrite Z.mod_small, Z.div_small by done. lia. }
    assert (V mod radix ^ 16 mod radix = V mod radix) as Hmm.
    { apply Z.mod_mod_divide. exists (radix ^ 15). rewrite radix_16. ring. }
    destruct (Z_lt_le_dec V 0) as [Hn|Hn]; [|destruct (Z_lt_le_dec V (radix ^ 16)) as [Hs|Hs]].
    - assert (V / radix ^ 16 = -1) as Hq by (symmetry; apply (Z.div_unique _ _ _ (V + radix ^ 16)); lia).
      assert (V mod radix ^ 16 = V + radix ^ 16) as Ha by (rewrite Z.mod_eq, Hq by done; lia).
      split; [rewrite Ha, Hq; lia|]. destruct (Hsmall _ (-1) Ha) as [E1 E2].
      + rewrite <-Ha, Hmm. assert (V mod radix = V + radix) as ->.
        { symmetry. apply (Z.mod_unique _ _ (-1)); lia. } unfold in_digit. pose proof (eq_refl : radix = 65536). lia.
      + rewrite Ha, Hq, E1, E2. split; [|done]. by rewrite <-Ha, Hmm.
    - rewrite (Z.div_small V), (Z.mod_small V (radix ^ 16)), Z.mul_0_r, !Z.add_0_r by lia. done.
    - assert (V / radix ^ 16 = 1) as Hq by (symmetry; apply (Z.div_unique _ _ _ (V - radix ^ 16)); lia).
      assert (V mod radix ^ 16 = V - radix ^ 16) as Ha by (rewrite Z.mod_eq, Hq by done; lia).
      split; [rewrite Ha, Hq; lia|]. destruct (Hsmall _ 1 Ha) as [E1 E2].
      + rewrite Z.mod_small by lia. unfold in_digit. pose proof (eq_refl : radix = 65536). lia.
      + rewrite Ha, Hq, E1, E2. split; [|done]. by rewrite <-Ha, Hmm. }
  exists v. split_and!; [|lia|lia|rewrite Hv; apply fold_feq]. rewrite car25519_eq by done. fold V.
  change (digits 16 v) with (v mod radix :: digits 15 (v / radix)). rewrite Hm, Hd. f_equal.
  rewrite (Z.div_mod V (radix ^ 16)) at 1 by done. rewrite radix_16 at 1.
  replace (radix * radix ^ 15 * (V / radix ^ 16) + V mod radix ^ 16)
    with (V mod radix ^ 16 + radix ^ 15 * (V / radix ^ 16) * radix) by ring.
  rewrite Z.div_add by done. apply (digits_shift 15).
Qed.

Lemma mul_ok a b : within (2 ^ 20) a → within (2 ^ 20) b →
  carried (mul a b) ∧ gval (mul a b) ≡p gval a * gval b.
Proof.
  intros Ha Hb. destruct (mul_wide_ok a b Ha Hb) as (L & HB & HV).
  destruct (mul_fold_ok _ L HB) as [Hw Hf]. unfold mul. set (o := take 16 _) in *.
  destruct (car_first o Hw) as [Hw1 Hv1].
  assert (within (2 ^ 60) (car25519 o)) as Hw2 by (eapply within_weaken; [|exact Hw1]; lia).
  split.
  - apply car_second; [done|]. pose proof radix16_big. lia.
  - rewrite car_gval by done. rewrite fold_feq, car_gval by done. rewrite fold_feq, Hf, HV. done.
Qed.

Lemma within_mono l B B' : within B l → B ≤ B' → within B' l.
Proof. intros. by eapply within_weaken. Qed.
Lemma carried_20 l : carried l → within (2 ^ 20) l.
Proof. intros H. eapply within_weaken; [|by apply carried_within]. lia. Qed.

Lemma sqr_ok a : within (2 ^ 20) a → carried (sqr a) ∧ gval (sqr a) ≡p gval a * gval a.
Proof. intros H. unfold sqr. exact (mul_ok a a H H). Qed.

(** ** Sums and differences *)
Lemma zip_within B B' op a b : (∀ x y, - B ≤ x ≤ B → - B' ≤ y ≤ B' → - (B + B') ≤ op x y ≤ B + B') →
  within B a → within B' b → within (B + B') (zip_with op a b).
Proof.
  intros Hop [La Ha] [Lb Hb]. split; [rewrite length_zip_with; lia|].
  clear La Lb. revert b Hb. induction Ha as [|x a Hx _ IH]; intros [|y b] Hb; cbn; try constructor.
  - inversion_clear Hb. by apply Hop.
  - inversion_clear Hb. by apply IH.
Qed.

Lemma add_ok B B' a b : within B a → within B' b → B + B' < 2 ^ 63 →
  within (B + B') (add a b) ∧ gval (add a b) = gval a + gval b.
Proof.
  intros Ha Hb HB. split.
  - apply zip_within; [|done..]. intros x y Hx Hy. rewrite i64_id; lia.
  - destruct Ha as [La Ha], Hb as [Lb Hb]. assert (length a = length b) as E by lia. clear La Lb. unfold add.
    revert b Hb E. induction Ha as [|x a Hx _ IH]; intros [|y b] Hb E; try done. inversion_clear Hb.
    cbn [zip_with gval]. rewrite i64_id by lia. rewrite IH by (try done; cbn in E; lia). ring.
Qed.

Lemma sub_ok B B' a b : within B a → within B' b → B + B' < 2 ^ 63 →
  within (B + B') (sub a b) ∧ gval (sub a b) = gval a - gval b.
Proof.
  intros Ha Hb HB. split.
  - apply zip_within; [|done..]. intros x y Hx Hy. rewrite i64_id; lia.
  - destruct Ha as [La Ha], Hb as [Lb Hb]. assert (length a = length b) as E by lia. clear La Lb. unfold sub.
    revert b Hb E. induction Ha as [|x a Hx _ IH]; intros [|y b] Hb E; try done. inversion_clear Hb.
    cbn [zip_with gval]. rewrite i64_id by lia. rewrite IH by (try done; cbn in E; lia). ring.
Qed.

(** The masked swap is a swap. *)
Lemma sel25519_ok p q b : length p = length q → b = 0 ∨ b = 1 →
  sel25519 p q b = if decide (b = 1) then (q, p) else (p, q).
Proof.
  intros E Hb. unfold sel25519.
  assert (∀ c (f : Z → Z → Z), length p = length q → (∀ x y, f x (Z.land c (Z.lxor x y)) = if decide (b = 1) then y else x) →
    zip_with f p (zip_with (λ x y, Z.land c (Z.lxor x y)) p q) = if decide (b = 1) then q else p) as H1.
  { intros c f. clear E. revert q. induction p as [|x p IH]; intros [|y q] E H; try done; [by case_decide|].
    cbn [zip_with]. rewrite H, IH by (done || cbn in E; lia). by case_decide. }
  assert (∀ c (f : Z → Z → Z), length p = length q → (∀ x y, f y (Z.land c (Z.lxor x y)) = if decide (b = 1) then x else y) →
    zip_with f q (zip_with (λ x y, Z.land c (Z.lxor x y)) p q) = if decide (b = 1) then p else q) as H2.
  { intros c f. clear E H1. revert q. induction p as [|x p IH]; intros [|y q] E H; try done; [by case_decide|].
    cbn [zip_with]. rewrite H, IH by (done || cbn in E; lia). by case_decide. }
  rewrite H1, H2; try done.
  - by case_decide.
  - intros x y. destruct Hb as [-> | ->]; cbn -[Z.lxor Z.land].
    + by rewrite Z.land_0_l, Z.lxor_0_r.
    + rewrite Z.land_m1_l, (Z.lxor_comm x y), <-Z.lxor_assoc, Z.lxor_nilpotent. apply Z.lxor_0_l.
  - intros x y. destruct Hb as [-> | ->]; cbn -[Z.lxor Z.land].
    + by rewrite Z.land_0_l, Z.lxor_0_r.
    + rewrite Z.land_m1_l, <-Z.lxor_assoc, Z.lxor_nilpotent. apply Z.lxor_0_l.
Qed.

(** ** Unpacking *)
Lemma limb_of_bytes a b : is_byte a → is_byte b → i64 (a + Z.shiftl b 8) = a + 256 * b.
Proof.
  intros Ha Hb. unfold is_byte in *. rewrite Z.shiftl_mul_pow2 by lia. change (2 ^ 8) with 256.
  rewrite i64_id by lia. ring.
Qed.

(** The 16-bit little-endian words of a byte string. *)
Fixpoint words16 (n : bytes) : Gf :=
  match n with a :: b :: n => (a + 256 * b) :: words16 n | _ => [] end.

Lemma words16_seq k n i : length n = (2 * k)%nat → bytes_ok n →
  ((λ j, i64 (nth (2 * (j - i))%nat n 0 + Z.shiftl (nth (2 * (j - i) + 1)%nat n 0) 8)) <$> seq i k) = words16 n.
Proof.
  revert n i. induction k as [|k IH]; intros n i Hl Hn.
  { destruct n; [done|cbn in Hl; lia]. }
  destruct n as [|a [|b n]]; [cbn in Hl; lia..|]. apply bytes_ok_cons in Hn as [Ha Hn].
  apply bytes_ok_cons in Hn as [Hb Hn]. cbn [seq words16]. rewrite fmap_cons.
  f_equal; [rewrite Nat.sub_diag; by apply limb_of_bytes|].
  rewrite <-(IH n (S i)) by (done || cbn in Hl; lia). apply list_fmap_ext. intros ? j Hj%list_elem_of_lookup_2.
  apply elem_of_seq in Hj. replace (j - i)%nat with (S (j - S i)) by lia.
  replace (2 * S (j - S i))%nat with (S (S (2 * (j - S i)))) by lia. done.
Qed.

Lemma words16_gval n k : length n = (2 * k)%nat → gval (words16 n) = le_val n.
Proof.
  revert n. induction k as [|k IH]; intros n Hl; [by destruct n|].
  destruct n as [|a [|b n]]; [cbn in Hl; lia..|]. cbn [words16 gval le_val]. rewrite IH by (cbn in Hl; lia).
  unfold radix. ring.
Qed.
Lemma words16_ok n k : length n = (2 * k)%nat → bytes_ok n → length (words16 n) = k ∧ Forall in_digit (words16 n).
Proof.
  revert n. induction k as [|k IH]; intros n Hl Hn; [by destruct n|].
  destruct n as [|a [|b n]]; [cbn in Hl; lia..|]. apply bytes_ok_cons in Hn as [Ha Hn].
  apply bytes_ok_cons in Hn as [Hb Hn]. destruct (IH n) as [H1 H2]; [cbn in Hl; lia|done|].
  cbn [words16 length]. split; [by f_equal|]. constructor; [|done].
  unfold is_byte, in_digit, radix in *. lia.
Qed.

Lemma land_mask n x : 0 ≤ n → Z.land x (2 ^ n - 1) = x mod 2 ^ n.
Proof. intros. rewrite <-Z.land_ones by lia. by rewrite Z.ones_equiv, Z.sub_1_r. Qed.

Lemma unpack25519_ok n : length n = 32%nat → bytes_ok n →
  Forall in_digit (unpack25519 n) ∧ length (unpack25519 n) = 16%nat ∧ gval (unpack25519 n) = le_val n mod 2 ^ 255.
Proof.
  intros Hl Hn. pose proof (words16_seq 16 n 0 Hl Hn) as E. destruct (words16_ok n 16 Hl Hn) as [L D].
  assert (unpack25519 n = alter (λ x, Z.land x 0x7fff) 15%nat (words16 n)) as ->.
  { unfold unpack25519. f_equal. rewrite <-E. apply list_fmap_ext. intros _ j _. by rewrite Nat.sub_0_r. }
  rewrite <-(words16_gval n 16 Hl). clear E Hn Hl.
  destruct (exists_last (l := words16 n)) as (w & x & Hw); [by destruct (words16 n)|]. rewrite Hw in *.
  rewrite length_app in L. cbn in L. apply Forall_app in D as [Dw Dx]. inversion_clear Dx as [|? ? Hx _].
  rewrite alter_middle by lia. rewrite !gval_app. cbn [gval]. rewrite Z.mul_0_r, !Z.add_0_r.
  replace (length w) with 15%nat by lia. change 0x7fff with (2 ^ 15 - 1). rewrite land_mask by lia.
  pose proof (gval_digits_bound w Dw) as Hb. replace (length w) with 15%nat in Hb by lia.
  change (radix ^ Z.of_nat 15) with (2 ^ 240) in *. pose proof (Z.mod_pos_bound x (2 ^ 15) ltac:(lia)) as Hm.
  split_and!.
  - apply Forall_app. split; [done|]. constructor; [|done]. unfold in_digit, radix in *. lia.
  - rewrite length_app. cbn. lia.
  - apply (Z.mod_unique _ _ (x / 2 ^ 15)); [left; lia|]. rewrite (Z.div_mod x (2 ^ 15)) at 1 by lia. lia.
Qed.

(** ** Packing *)
Lemma borrow_ok y : - radix ≤ y < radix → borrow y = - (y / radix).
Proof.
  intros Hy. unfold borrow. rewrite Z.shiftr_div_pow2 by lia. change (2 ^ 16) with radix.
  destruct (Z_lt_le_dec y 0).
  - replace (y / radix) with (-1) by (apply (Z.div_unique _ _ _ (y + radix)); lia). done.
  - by rewrite Z.div_small by lia.
Qed.
Lemma mask16 y : Z.land y 0xffff = y mod radix.
Proof. change 0xffff with (2 ^ 16 - 1). by apply land_mask. Qed.
Lemma insert_next {A} (pre : list A) x y v post i : i = length pre →
  <[S i := v]> (pre ++ x :: y :: post) = pre ++ x :: v :: post.
Proof. intros ->. induction pre as [|z pre IH]; [done|]. cbn. by f_equal. Qed.

Lemma div_radix_borrow y : - radix ≤ y < radix → -1 ≤ y / radix ≤ 0.
Proof. intros Hy. pose proof (borrow_ok y Hy). pose proof (Z.div_mod y radix). pose proof (Z.mod_pos_bound y radix). unfold radix in *. lia. Qed.

(** One borrow, for the constant [k] of its limb. *)
Lemma borrow_step t k (pre : Gf) y z post i : i = length pre → - radix ≤ y < radix → in_digit (limb t (S i)) →
  0 ≤ k < radix →
  let m := <[S i := i64 (i64 (limb t (S i) - k) - borrow (limb (pre ++ y :: z :: post) i))]> (pre ++ y :: z :: post) in
  let y' := limb t (S i) - k + y / radix in
  alter (λ x, Z.land x 0xffff) i m = (pre ++ [y mod radix]) ++ y' :: post ∧ limb m (S i) = y' ∧
  - radix ≤ y' < radix ∧
  gval ((pre ++ [y mod radix]) ++ [y']) = gval (pre ++ [y]) + (limb t (S i) - k) * radix ^ Z.of_nat (S i).
Proof.
  intros -> Hy Ht Hk m y'. pose proof (div_radix_borrow y Hy) as Hd. unfold in_digit in Ht.
  assert (radix = 65536) as HR by done.
  assert (m = pre ++ y :: y' :: post) as Hm.
  { unfold m. rewrite insert_next, limb_middle, borrow_ok by done. rewrite (i64_id (limb t _ - k)) by lia.
    rewrite i64_id by lia. unfold y'. do 3 f_equal. lia. }
  rewrite Hm. split_and!.
  - rewrite alter_middle, mask16 by done. by rewrite <-app_assoc.
  - change (S (length pre)) with (1 + length pre)%nat. rewrite Nat.add_comm.
    replace (length pre + 1)%nat with (length (pre ++ [y])) by (rewrite length_app; cbn; lia).
    replace (pre ++ y :: y' :: post) with ((pre ++ [y]) ++ y' :: post) by (by rewrite <-app_assoc).
    by apply limb_middle.
  - unfold y'. lia.
  - unfold y'. lia.
  - rewrite !gval_app, length_app. cbn [gval length]. rewrite Nat.add_1_r, radix_succ. unfold y'.
    rewrite (Z.div_mod y radix) at 3 by done. ring.
Qed.

Lemma sub_fold t k (pre : Gf) y i : i = length pre → - radix ≤ y < radix → Forall in_digit pre →
  (∀ j, in_digit (limb t j)) →
  ∃ pre' y', fold_left (sub_step t) (seq (S i) k) (pre ++ y :: replicate (k + 1) 0) = pre' ++ [y'; 0] ∧
    length pre' = (i + k)%nat ∧ Forall in_digit pre' ∧ - radix ≤ y' < radix ∧
    gval (pre' ++ [y']) = gval (pre ++ [y]) + zsum (λ j, (limb t j - 0xffff) * radix ^ Z.of_nat j) (seq (S i) k).
Proof.
  intros Hi Hy Hpre Ht. revert pre y i Hi Hy Hpre. induction k as [|k IH]; intros pre y i Hi Hy Hpre.
  - exists pre, y. split_and!; [done|lia|done|lia|lia|]. cbn. lia.
  - rewrite loop_step. change (replicate (S k + 1) 0) with (0 :: replicate (k + 1) 0).
    destruct (borrow_step t 0xffff pre y 0 (replicate (k + 1) 0) i Hi Hy (Ht _) ltac:(unfold radix; lia)) as (E & _ & Hy' & Hg).
    assert (sub_step t (pre ++ y :: 0 :: replicate (k + 1) 0) (S i) =
      (pre ++ [y mod radix]) ++ (limb t (S i) - 0xffff + y / radix) :: replicate (k + 1) 0) as ->.
    { rewrite <-E. unfold sub_step. cbv zeta. replace (S i - 1)%nat with i by lia. done. }
    destruct (IH (pre ++ [y mod radix]) (limb t (S i) - 0xffff + y / radix) (S i)) as (pre' & y' & E' & H1 & H2 & H3 & H4).
    + rewrite length_app. cbn. lia.
    + exact Hy'.
    + apply Forall_app. split; [done|]. constructor; [|done]. by apply Z.mod_pos_bound.
    + exists pre', y'. split_and!; [exact E'|lia|done|lia|lia|]. rewrite H4, Hg.
      change (seq (S i) (S k)) with (S i :: seq (S (S i)) k). cbn [zsum]. ring.
Qed.

Lemma zsum_sub f c g js : zsum (λ j, (f j - c) * g j) js = zsum (λ j, f j * g j) js - zsum (λ j, c * g j) js.
Proof. induction js as [|j js IH]; cbn [zsum]; [lia|rewrite IH; ring]. Qed.

(** The modulus, limb by limb. *)
Lemma p_limbs : p25519 = 0xffed + zsum (λ j, 0xffff * radix ^ Z.of_nat j) (seq 1 14) + 0x7fff * radix ^ 15.
Proof. vm_compute. reflexivity. Qed.
Lemma gval_16 t : length t = 16%nat →
  gval t = limb t 0 + zsum (λ j, limb t j * radix ^ Z.of_nat j) (seq 1 14) + limb t 15 * radix ^ 15.
Proof.
  intros L. rewrite (gval_sum0 t), L. change (seq 0 16) with (0%nat :: seq 1 14 ++ [15%nat]). cbn [zsum].
  rewrite zsum_app. cbn [zsum]. change (Z.of_nat 0) with 0. change (Z.of_nat 15) with 15. rewrite Z.pow_0_r. ring.
Qed.

Lemma insert_first v : <[0%nat := v]> (replicate 16 0) = [] ++ v :: replicate (14 + 1) 0.
Proof. done. Qed.

Lemma digits_limb t j : Forall in_digit t → in_digit (limb t j).
Proof.
  intros D. unfold limb. destruct (nth_in_or_default j t 0) as [Hin| ->]; [|done].
  apply list_elem_of_In in Hin. rewrite Forall_forall in D. by apply D.
Qed.

Lemma sub_p_run t : Forall in_digit t →
  ∃ pre y, sub_p t = (pre ++ [y], borrow y) ∧ length pre = 15%nat ∧ Forall in_digit pre ∧ - radix ≤ y < radix ∧
    gval (pre ++ [y]) = limb t 0 - 0xffed + zsum (λ j, (limb t j - 0xffff) * radix ^ Z.of_nat j) (seq 1 14) +
      (limb t 15 - 0x7fff) * radix ^ Z.of_nat 15.
Proof.
  intros D. pose proof (digits_limb t 0 D) as H0. unfold in_digit in H0. assert (radix = 65536) as HR by done.
  destruct (sub_fold t 14 [] (limb t 0 - 0xffed) 0) as (pre & y & E & Lp & Dp & Hy & Hg);
    [done|lia|constructor|intros; by apply digits_limb|].
  destruct (borrow_step t 0x7fff pre y 0 [] 14) as (E' & Hl & Hy' & Hg'); [cbn in Lp; lia|done|by apply digits_limb|lia|].
  exists (pre ++ [y mod radix]), (limb t 15 - 0x7fff + y / radix). split_and!.
  - unfold sub_p. rewrite (i64_id (limb t 0 - 0xffed)) by lia. rewrite insert_first, E.
    cbv zeta in *. by rewrite Hl, E'.
  - by rewrite length_app, Lp.
  - apply Forall_app. split; [done|]. constructor; [|done]. by apply Z.mod_pos_bound.
  - lia.
  - lia.
  - rewrite Hg', Hg. cbn [app gval]. ring.
Qed.

(** The trial subtraction: its borrow tells whether the value is below the modulus. *)
Lemma sub_p_ok t : length t = 16%nat → Forall in_digit t →
  ∃ m, sub_p t = (m, if decide (gval t < p25519) then 1 else 0) ∧ length m = 16%nat ∧
  (p25519 ≤ gval t → m = digits 16 (gval t - p25519)).
Proof.
  intros L D. destruct (sub_p_run t D) as (pre & y & -> & L15 & D15 & Hy & HV).
  assert (gval (pre ++ [y]) = gval t - p25519) as HV'.
  { rewrite HV, (gval_16 t L), p_limbs, zsum_sub. change (Z.of_nat 15) with 15. ring. }
  clear HV. pose proof (gval_digits_bound _ D15) as Hb. rewrite L15 in Hb.
  assert (gval t - p25519 = gval pre + radix ^ Z.of_nat 15 * y) as HV2.
  { rewrite <-HV', gval_app, L15. cbn [gval]. ring. }
  pose proof (radix_pos 15) as HP. set (P := radix ^ Z.of_nat 15) in *. clearbody P.
  assert (0 ≤ y ↔ p25519 ≤ gval t) as Hiff by (clear -HV2 HP Hb; nia).
  exists (pre ++ [y]). split_and!.
  - f_equal. rewrite borrow_ok by done. case_decide.
    + replace (y / radix) with (-1); [done|]. apply (Z.div_unique _ _ _ (y + radix)); lia.
    + rewrite Z.div_small by lia. done.
  - by rewrite length_app, L15.
  - intros Hp. rewrite <-HV'. replace 16%nat with (length (pre ++ [y])) by (by rewrite length_app, L15).
    apply digits_unique. apply Forall_app. split; [done|]. constructor; [|done]. unfold in_digit. lia.
Qed.

(** One conditional subtraction. *)
Lemma pack_step_ok v : 0 ≤ v < radix ^ 16 →
  pack_step (digits 16 v) = digits 16 (if decide (v < p25519) then v else v - p25519).
Proof.
  intros Hv. destruct (sub_p_ok (digits 16 v)) as (m & E & L & Hm); [apply digits_length|apply digits_ok|].
  rewrite digits_gval in *. change (Z.of_nat 16) with 16 in *. rewrite Z.mod_small in * by done.
  unfold pack_step. rewrite E. rewrite sel25519_ok; [|by rewrite L, digits_length|case_decide; auto].
  destruct (decide (v < p25519)); [done|]. rewrite decide_True by done. cbn [fst]. apply Hm. lia.
Qed.

(** [n] little-endian bytes of a value. *)
Fixpoint le_bytes (n : nat) (v : Z) : bytes :=
  match n with O => [] | S n => v mod 256 :: le_bytes n (v / 256) end.

Lemma digits_bytes n v :
  flat_map (λ x, [Z.land x 0xff; Z.shiftr x 8 mod 256]) (digits n v) = le_bytes (2 * n) v.
Proof.
  revert v. induction n as [|n IH]; intros v; [done|]. replace (2 * S n)%nat with (S (S (2 * n))) by lia.
  cbn [digits flat_map le_bytes]. rewrite IH, Z.div_div by lia. change (256 * 256) with radix. cbn [app].
  f_equal; [|f_equal].
  - change 0xff with (2 ^ 8 - 1). rewrite land_mask by lia. change (2 ^ 8) with 256.
    apply Z.mod_mod_divide. by exists 256.
  - rewrite Z.shiftr_div_pow2 by lia. change (2 ^ 8) with 256. unfold radix. change 65536 with (256 * 256).
    rewrite Z.rem_mul_r by lia. rewrite (Z.add_comm (v mod 256)), Z.mul_comm, Z.div_add_l by lia.
    rewrite (Z.div_small (v mod 256)) by (apply Z.mod_pos_bound; lia). rewrite Z.add_0_r. by rewrite Z.mod_mod.
Qed.

Lemma pack_reduces v : 0 ≤ v < radix ^ 16 → pack_step (pack_step (digits 16 v)) = digits 16 (v mod p25519).
Proof.
  intros Hv. rewrite radix_fold in Hv. assert (38 < p25519) as Hp by (vm_compute; done).
  rewrite pack_step_ok by (rewrite radix_fold; lia). rewrite pack_step_ok by (rewrite radix_fold; case_decide; lia).
  f_equal. destruct (decide (v < p25519)) as [H1|H1].
  - rewrite decide_True by done. rewrite Z.mod_small by lia. done.
  - case_decide as H2.
    + apply (Z.mod_unique _ _ 1); lia.
    + apply (Z.mod_unique _ _ 2); lia.
Qed.

(** Packing is the canonical little-endian encoding of the residue. *)
Lemma pack25519_ok n : within (2 ^ 60) n → pack25519 n = le_bytes 32 (gval n mod p25519).
Proof.
  intros Hn. destruct (car_first n Hn) as [Hw1 Hv1].
  assert (within (2 ^ 60) (car25519 n)) as Hw2 by (eapply within_weaken; [|exact Hw1]; lia).
  assert (carried (car25519 (car25519 n))) as Hc by (apply car_second; [done|pose proof radix16_big; lia]).
  destruct (car_third _ Hc) as (v & E & Hv & Hf). unfold pack25519. cbv zeta. rewrite E, pack_reduces by done.
  rewrite digits_bytes. change (2 * 16)%nat with 32%nat. f_equal.
  rewrite car_gval, fold_feq, car_gval, fold_feq in Hf by done. exact Hf.
Qed.

(** ** Powers *)
Definition inv_exp (e : Z) (a : nat) : Z := if negb (a =? 2)%nat && negb (a =? 4)%nat then 2 * e + 1 else 2 * e.

Lemma feq_pow a b e : 0 ≤ e → a ≡p b → a ^ e ≡p b ^ e.
Proof.
  intros He Hab. revert e He. apply natlike_ind; [done|]. intros e He IH.
  rewrite !Z.pow_succ_r by done. by rewrite IH, Hab.
Qed.

Lemma inv_step_ok x c a e : within (2 ^ 20) x → within (2 ^ 20) c → 0 < e → gval c ≡p gval x ^ e →
  carried (inv_step x c a) ∧ 0 < inv_exp e a ∧ gval (inv_step x c a) ≡p gval x ^ inv_exp e a.
Proof.
  intros Hx Hc He Hv. destruct (sqr_ok c Hc) as [S1 S2]. unfold inv_step, inv_exp.
  assert (gval (sqr c) ≡p gval x ^ (2 * e)) as Hs.
  { rewrite S2, Hv, <-Z.pow_add_r by lia. by rewrite Z.add_diag. }
  destruct (_ && _).
  - destruct (mul_ok (sqr c) x (carried_20 _ S1) Hx) as [M1 M2]. split_and!; [done|lia|].
    rewrite M2, Hs, Z.pow_add_r, Z.pow_1_r by lia. done.
  - split_and!; [done|lia|done].
Qed.

Lemma inv_loop x as_ c e : within (2 ^ 20) x → within (2 ^ 20) c → 0 < e → gval c ≡p gval x ^ e →
  within (2 ^ 20) (fold_left (inv_step x) as_ c) ∧
  gval (fold_left (inv_step x) as_ c) ≡p gval x ^ fold_left inv_exp as_ e.
Proof.
  intros Hx. revert c e. induction as_ as [|a as_ IH]; intros c e Hc He Hv; cbn [fold_left]; [done|].
  destruct (inv_step_ok x c a e Hx Hc He Hv) as (H1 & H2 & H3). apply IH; [by apply carried_20|done..].
Qed.

Lemma inv_exponent : fold_left inv_exp (down 253) 1 = p25519 - 2.
Proof. vm_compute. reflexivity. Qed.

(** The inverse: the [p - 2]nd power. *)
Lemma inv25519_ok x : within (2 ^ 20) x →
  within (2 ^ 20) (inv25519 x) ∧ gval (inv25519 x) ≡p gval x ^ (p25519 - 2).
Proof.
  intros Hx. rewrite <-inv_exponent. unfold inv25519. apply inv_loop; [done|done|lia|]. by rewrite Z.pow_1_r.
Qed.
