(* ===== verification/X25519.v ===== *)
(** X25519 ([reticulum-core/src/x25519.rs]): the Montgomery ladder on limbs, shown to
    compute the function of RFC 7748 on residues modulo [2^255 - 19]. *)
From S2P Require Import Prelude Field25519.

(** Bit [i] of a little-endian byte string. *)
Definition bit (z : bytes) (i : nat) : Z :=
  Z.land (Z.shiftr (nth (Nat.shiftr i 3) z 0) (Z.of_nat (Nat.land i 7))) 1.
Definition clamp (scalar : bytes) : bytes :=
  let z := alter (λ x, Z.land x 248) 0%nat scalar in
  alter (λ x, Z.lor (Z.land x 127) 64) 31%nat z.

Definition one : Gf := <[0%nat := 1]> (replicate 16 0).
Definition zero : Gf := replicate 16 0.

(** One iteration of the ladder, on the four coordinates [(a, b, c, d)]. *)
Definition ladder_step (x : Gf) (z : bytes) (st : Gf * Gf * Gf * Gf) (i : nat) : Gf * Gf * Gf * Gf :=
  let '(a, b, c, d) := st in
  let r := bit z i in
  let '(a, b) := sel25519 a b r in
  let '(c, d) := sel25519 c d r in
  let e1 := add a c in
  let a := sub a c in
  let c := add b d in
  let b := sub b d in
  let d := sqr e1 in
  let f := sqr a in
  let a := mul c a in
  let c := mul b e1 in
  let e2 := add a c in
  let a := sub a c in
  let b := sqr a in
  let c := sub d f in
  let a := mul c GF_121665 in
  let a := add a d in
  let c := mul c a in
  let a := mul d f in
  let d := mul b x in
  let b := sqr e2 in
  let '(a, b) := sel25519 a b r in
  let '(c, d) := sel25519 c d r in
  (a, b, c, d).

Definition x25519 (scalar point : bytes) : bytes :=
  let z := clamp scalar in
  let x := unpack25519 point in
  let '(a, b, c, d) := fold_left (ladder_step x z) (down 254) (one, x, zero, one) in
  let cinv := inv25519 c in
  let out := mul a cinv in
  pack25519 out.

(** ** The reference: RFC 7748, section 5 *)
Definition cswap {A} (swap : bool) (x : A * A) : A * A := if swap then (x.2, x.1) else x.

(** The state is [(x_2, z_2, x_3, z_3, swap)]. *)
Definition double_add (x1 x2 z2 x3 z3 : Z) : Z * Z * Z * Z :=
  let A := x2 + z2 in
  let AA := A * A in
  let B := x2 - z2 in
  let BB := B * B in
  let E := AA - BB in
  let C := x3 + z3 in
  let D := x3 - z3 in
  let DA := D * A in
  let CB := C * B in
  let x3 := (DA + CB) * (DA + CB) in
  let z3 := x1 * ((DA - CB) * (DA - CB)) in
  let x2 := AA * BB in
  let z2 := E * (AA + 121665 * E) in
  (x2 mod p25519, z2 mod p25519, x3 mod p25519, z3 mod p25519).
Definition rfc_step (k x1 : Z) (st : Z * Z * Z * Z * bool) (t : nat) : Z * Z * Z * Z * bool :=
  let '(x2, z2, x3, z3, swap) := st in
  let k_t := Z.testbit k (Z.of_nat t) in
  let swap := xorb swap k_t in
  let '(x2, x3) := cswap swap (x2, x3) in
  let '(z2, z3) := cswap swap (z2, z3) in
  (double_add x1 x2 z2 x3 z3, k_t).
Definition rfc7748 (k u : Z) : Z :=
  let '(x2, z2, x3, z3, swap) := fold_left (rfc_step k u) (down 254) (1, 0, u, 1, false) in
  let '(x2, _) := cswap swap (x2, x3) in
  let '(z2, _) := cswap swap (z2, z3) in
  (x2 * z2 ^ (p25519 - 2)) mod p25519.

(** ** The ladder on limbs computes the ladder on residues *)

Lemma le_val_bound l : bytes_ok l → 0 ≤ le_val l.
Proof.
  induction l as [|x l IH]; intros H; [done|]. apply bytes_ok_cons in H as [Hx Hl]. cbn [le_val].
  specialize (IH Hl). unfold is_byte in Hx. lia.
Qed.

Lemma le_val_shift l k : bytes_ok l → le_val l / 256 ^ Z.of_nat k = le_val (drop k l).
Proof.
  revert l. induction k as [|k IH]; intros l Hl; [by rewrite Z.div_1_r|].
  destruct l as [|x l]; [by rewrite Z.div_0_l by (apply Z.pow_nonzero; lia)|].
  apply bytes_ok_cons in Hl as [Hx Hl]. cbn [le_val drop]. rewrite Nat2Z.inj_succ, Z.pow_succ_r by lia.
  rewrite <-Z.div_div by (lia || (apply Z.pow_pos_nonneg; lia)). rewrite (Z.mul_comm 256), Z.div_add by lia. unfold is_byte in Hx.
  rewrite (Z.div_small x 256), Z.add_0_l by lia. by apply IH.
Qed.

(** The bits the ladder reads are those of the scalar's value. *)
Lemma bit_ok z i : bytes_ok z → (i < 256)%nat → length z = 32%nat →
  bit z i = Z.b2z (Z.testbit (le_val z) (Z.of_nat i)).
Proof.
  intros Hz Hi Hl. unfold bit. rewrite Nat.shiftr_div_pow2. change (2 ^ 3)%nat with 8%nat.
  pose proof (Nat.land_ones i 3) as E7. change (Nat.ones 3) with 7%nat in E7. rewrite E7. change (2 ^ 3)%nat with 8%nat.
  clear E7. set (q := (i / 8)%nat). set (r := (i mod 8)%nat).
  assert (i = 8 * q + r)%nat as Ei by (apply Nat.div_mod_eq).
  assert (r < 8)%nat as Hr by (apply Nat.mod_upper_bound; lia). assert (q < 32)%nat as Hq by lia. clearbody q r.
  rewrite Z.testbit_spec' by lia. rewrite Ei, Nat2Z.inj_add, Nat2Z.inj_mul, Z.pow_add_r by lia.
  change (Z.of_nat 8) with 8. rewrite Z.pow_mul_r by lia. change (2 ^ 8) with 256.
  rewrite <-Z.div_div, le_val_shift by (done || (apply Z.pow_nonzero; lia) || (apply Z.pow_pos_nonneg; lia)).
  destruct (lookup_lt_is_Some_2 z q) as [x Hx]; [lia|].
  rewrite (nth_lookup_Some _ _ _ _ Hx). rewrite (drop_S _ _ _ Hx). cbn [le_val].
  rewrite Z.shiftr_div_pow2 by lia. change 1 with (2 ^ 1 - 1) at 1. rewrite land_mask by lia. change (2 ^ 1) with 2.
  assert (256 = 2 * 2 ^ (7 - Z.of_nat r) * 2 ^ Z.of_nat r) as E256.
  { rewrite <-Z.mul_assoc, <-Z.pow_add_r by lia. by replace (7 - Z.of_nat r + Z.of_nat r) with 7 by lia. }
  rewrite E256. replace (x + 2 * 2 ^ (7 - Z.of_nat r) * 2 ^ Z.of_nat r * le_val (drop (S q) z))
    with (x + (2 ^ (7 - Z.of_nat r) * le_val (drop (S q) z) * 2) * 2 ^ Z.of_nat r) by ring.
  rewrite Z.div_add by lia. by rewrite Z.mod_add.
Qed.

(** A field element of the ladder: limbs within bounds, and the residue they stand for. *)
Definition represents (l : Gf) (v : Z) : Prop := within (2 ^ 18) l ∧ gval l ≡p v.
Definition represents2 (l : Gf) (v : Z) : Prop := within (2 ^ 17) l ∧ gval l ≡p v.

Lemma represents2_1 l v : represents2 l v → represents l v.
Proof. intros [H1 H2]. split; [eapply within_weaken; [|exact H1]; lia|done]. Qed.
Lemma represents_feq l v w : represents2 l v → v ≡p w → represents2 l w.
Proof. intros [H1 H2] E. split; [done|]. by rewrite <-E. Qed.
Lemma add_rep a b v w : represents2 a v → represents2 b w → represents (add a b) (v + w).
Proof.
  intros [Ha Ea] [Hb Eb]. destruct (add_ok _ _ a b Ha Hb) as [H1 H2]; [lia|].
  split; [exact H1|]. by rewrite H2, Ea, Eb.
Qed.
Lemma sub_rep a b v w : represents2 a v → represents2 b w → represents (sub a b) (v - w).
Proof.
  intros [Ha Ea] [Hb Eb]. destruct (sub_ok _ _ a b Ha Hb) as [H1 H2]; [lia|].
  split; [exact H1|]. by rewrite H2, Ea, Eb.
Qed.
Lemma mul_rep a b v w : represents a v → represents b w → represents2 (mul a b) (v * w).
Proof.
  intros [Ha Ea] [Hb Eb]. destruct (mul_ok a b) as [H1 H2]; [eapply within_weaken; [|eassumption]; lia..|].
  split; [by apply carried_within|]. by rewrite H2, Ea, Eb.
Qed.
Lemma sqr_rep a v : represents a v → represents2 (sqr a) (v * v).
Proof. intros H. unfold sqr. by apply mul_rep. Qed.

#[local] Opaque mul add sub sqr.

Lemma GF_121665_rep : represents GF_121665 121665.
Proof.
  split; [|vm_compute; reflexivity]. split; [done|].
  repeat (constructor; [unfold GF_121665; lia|]). constructor.
Qed.

Lemma represents_length l v : represents2 l v → length l = 16%nat.
Proof. by intros [[H _] _]. Qed.

Lemma sel_rep (r : bool) p q v w : represents2 p v → represents2 q w →
  sel25519 p q (Z.b2z r) = cswap r (p, q).
Proof.
  intros Hp Hq. rewrite sel25519_ok; [by destruct r|by rewrite (represents_length p v), (represents_length q w)|].
  destruct r; cbn; auto.
Qed.

(** The arithmetic of one iteration, after the swap. *)
Lemma double_add_rep x a b c d x1 x2 z2 x3 z3 : represents x x1 →
  represents2 a x2 → represents2 c z2 → represents2 b x3 → represents2 d z3 →
  let e1 := add a c in let B := sub a c in let Cc := add b d in let D := sub b d in
  let AA := sqr e1 in let BB := sqr B in let CB := mul Cc B in let DA := mul D e1 in
  let e2 := add CB DA in let df := sub CB DA in let E := sub AA BB in
  let m := add (mul E GF_121665) AA in
  let '(y2, w2, y3, w3) := double_add x1 x2 z2 x3 z3 in
  represents2 (mul AA BB) y2 ∧ represents2 (mul E m) w2 ∧ represents2 (sqr e2) y3 ∧ represents2 (mul (sqr df) x) w3.
Proof.
  intros Hx Ha Hc Hb Hd. cbv zeta. unfold double_add.
  assert (∀ v, v ≡p v mod p25519) as Hmod by (intros v; unfold feq; by rewrite Z.mod_mod).
  pose proof (add_rep _ _ _ _ Ha Hc) as HA. pose proof (sub_rep _ _ _ _ Ha Hc) as HB.
  pose proof (add_rep _ _ _ _ Hb Hd) as HC. pose proof (sub_rep _ _ _ _ Hb Hd) as HD.
  pose proof (sqr_rep _ _ HA) as HAA. pose proof (sqr_rep _ _ HB) as HBB.
  pose proof (mul_rep _ _ _ _ HC HB) as HCB. pose proof (mul_rep _ _ _ _ HD HA) as HDA.
  pose proof (sub_rep _ _ _ _ HAA HBB) as HE. pose proof (mul_rep _ _ _ _ HE GF_121665_rep) as HEa.
  pose proof (add_rep _ _ _ _ HEa HAA) as Hm. pose proof (add_rep _ _ _ _ HCB HDA) as He2.
  pose proof (sub_rep _ _ _ _ HCB HDA) as Hdf. split_and!.
  - eapply represents_feq; [exact (mul_rep _ _ _ _ (represents2_1 _ _ HAA) (represents2_1 _ _ HBB))|]. rewrite <-Hmod. unfold feq. f_equal; ring.
  - eapply represents_feq; [exact (mul_rep _ _ _ _ HE Hm)|]. rewrite <-Hmod. unfold feq. f_equal; ring.
  - eapply represents_feq; [exact (sqr_rep _ _ He2)|]. rewrite <-Hmod. unfold feq. f_equal; ring.
  - eapply represents_feq; [exact (mul_rep _ _ _ _ (represents2_1 _ _ (sqr_rep _ _ Hdf)) Hx)|].
    rewrite <-Hmod. unfold feq. f_equal; ring.
Qed.

(** The states of the two ladders: the limbs are kept unswapped between iterations,
    the reference swaps lazily. *)
Definition ladder_rel (st : Gf * Gf * Gf * Gf) (sp : Z * Z * Z * Z * bool) : Prop :=
  let '(a, b, c, d) := st in let '(x2, z2, x3, z3, swap) := sp in
  let '(u2, u3) := cswap swap (x2, x3) in let '(w2, w3) := cswap swap (z2, z3) in
  represents2 a u2 ∧ represents2 b u3 ∧ represents2 c w2 ∧ represents2 d w3.

Lemma ladder_step_rel x z k x1 st sp i : represents x x1 → bit z i = Z.b2z (Z.testbit k (Z.of_nat i)) →
  ladder_rel st sp → ladder_rel (ladder_step x z st i) (rfc_step k x1 sp i).
Proof.
  destruct st as [[[a b] c] d], sp as [[[[x2 z2] x3] z3] swap]. intros Hx Hbit Hrel.
  unfold ladder_step, rfc_step. rewrite Hbit. set (r := Z.testbit k (Z.of_nat i)). clearbody r.
  assert (∃ u2 u3 w2 w3, cswap swap (x2, x3) = (u2, u3) ∧ cswap swap (z2, z3) = (w2, w3) ∧
    represents2 a u2 ∧ represents2 b u3 ∧ represents2 c w2 ∧ represents2 d w3) as (u2 & u3 & w2 & w3 & E1 & E2 & Ha & Hb & Hc & Hd).
  { unfold ladder_rel in Hrel. destruct (cswap swap (x2, x3)) as [u2 u3], (cswap swap (z2, z3)) as [w2 w3]. by eexists _, _, _, _. }
  assert (∀ (v w v' w' : Z), cswap swap (v, w) = (v', w') → cswap (xorb swap r) (v, w) = cswap r (v', w')) as Hxor.
  { intros v w v' w' E. destruct swap, r; cbn in *; congruence. }
  rewrite (Hxor _ _ _ _ E1), (Hxor _ _ _ _ E2). rewrite (sel_rep r a b u2 u3), (sel_rep r c d w2 w3) by done.
  destruct r; cbn [cswap fst snd Z.b2z].
  - pose proof (double_add_rep x b a d c x1 u3 w3 u2 w2 Hx Hb Hd Ha Hc) as H. cbv zeta in H.
    destruct (double_add x1 u3 w3 u2 w2) as [[[y2 v2] y3] v3]. destruct H as (H1 & H2 & H3 & H4).
    change 1 with (Z.b2z true). rewrite (sel_rep true _ _ y2 y3), (sel_rep true _ _ v2 v3) by done. by split_and!.
  - pose proof (double_add_rep x a b c d x1 u2 w2 u3 w3 Hx Ha Hc Hb Hd) as H. cbv zeta in H.
    destruct (double_add x1 u2 w2 u3 w3) as [[[y2 v2] y3] v3]. destruct H as (H1 & H2 & H3 & H4).
    change 0 with (Z.b2z false). rewrite (sel_rep false _ _ y2 y3), (sel_rep false _ _ v2 v3) by done. by split_and!.
Qed.

Lemma ladder_loop_rel x z k x1 is_ st sp : represents x x1 →
  Forall (λ i, bit z i = Z.b2z (Z.testbit k (Z.of_nat i))) is_ → ladder_rel st sp →
  ladder_rel (fold_left (ladder_step x z) is_ st) (fold_left (rfc_step k x1) is_ sp).
Proof.
  intros Hx. revert st sp. induction is_ as [|i is_ IH]; intros st sp His Hrel; cbn [fold_left]; [done|].
  inversion_clear His. apply IH; [done|]. by apply ladder_step_rel.
Qed.

Lemma clamp_ok s : bytes_ok s → length s = 32%nat → bytes_ok (clamp s) ∧ length (clamp s) = 32%nat.
Proof.
  intros Hs Hl. unfold clamp. rewrite !length_alter. split; [|done].
  assert (∀ P : Z → Z, (∀ x, is_byte x → is_byte (P x)) → ∀ i l, bytes_ok l → bytes_ok (alter P i l)) as Halter.
  { intros P HP i l Hl'. apply Forall_alter; [done|]. intros x Hx _. apply HP. by eapply bytes_ok_lookup. }
  apply Halter; [|apply Halter; [|done]]; intros x Hx; apply (bool_decide_eq_true_1 (is_byte _)); revert x Hx;
    apply byte_forall; vm_compute; reflexivity.
Qed.

Lemma digits_rep l v : Forall in_digit l → length l = 16%nat → gval l = v → represents2 l v.
Proof.
  intros D L <-. split; [|done]. split; [done|]. eapply Forall_impl; [exact D|]. unfold in_digit, radix. cbn. lia.
Qed.
Lemma one_rep : represents2 one 1.
Proof. apply digits_rep; [|done|done]. repeat (constructor; [unfold in_digit, radix; lia|]). constructor. Qed.
Lemma zero_rep : represents2 zero 0.
Proof. apply digits_rep; [|done|done]. repeat (constructor; [unfold in_digit, radix; lia|]). constructor. Qed.

Lemma down_lt n i : i ∈ down n → (i ≤ n)%nat.
Proof. unfold down. rewrite list_elem_of_In, <-in_rev, <-list_elem_of_In, elem_of_seq. lia. Qed.

(** ** Properties *)

(** C30: The software X25519 is the X25519 of RFC 7748: for every 32-byte scalar and point,
    the limb ladder returns the canonical 32-byte encoding of the reference function of
    the clamped scalar and the u-coordinate, so that the 64-bit wrap-around of the limbs never shows. *)
Theorem x25519_rfc7748 (scalar point : bytes)
  (Hs : bytes_ok scalar) (Ls : length scalar = 32%nat) (Hp : bytes_ok point) (Lp : length point = 32%nat) :
  x25519 scalar point = le_bytes 32 (rfc7748 (le_val (clamp scalar)) (le_val point mod 2 ^ 255)).
Proof.
  destruct (clamp_ok scalar Hs Ls) as [Hz Lz]. destruct (unpack25519_ok point Lp Hp) as (D & L & V).
  pose proof (digits_rep _ _ D L V) as Hx. unfold x25519, rfc7748. set (u := le_val point mod 2 ^ 255) in *.
  set (x := unpack25519 point) in *. set (k := le_val (clamp scalar)).
  pose proof (ladder_loop_rel x (clamp scalar) k u (down 254) (one, x, zero, one) (1, 0, u, 1, false)) as H.
  destruct (fold_left (ladder_step _ _) _ _) as [[[a b] c] d], (fold_left (rfc_step _ _) _ _) as [[[[x2 z2] x3] z3] swap].
  unfold ladder_rel in H. destruct (cswap swap (x2, x3)) as [u2 u3], (cswap swap (z2, z3)) as [w2 w3].
  destruct H as (Ha & _ & Hc & _).
  - by apply represents2_1.
  - apply Forall_forall. intros i Hi%down_lt. apply bit_ok; [done|lia|done].
  - split_and!; [apply one_rep|done|apply zero_rep|apply one_rep].
  - destruct Hc as [Wc Ec], Ha as [Wa Ea].
    destruct (inv25519_ok c) as [Wi Ei]; [eapply within_weaken; [|exact Wc]; lia|].
    destruct (mul_ok a (inv25519 c)) as [Hcar Hval]; [eapply within_weaken; [|exact Wa]; lia|done|].
    rewrite pack25519_ok by (eapply within_weaken; [|by apply carried_within]; lia). f_equal.
    change (gval (mul a (inv25519 c)) ≡p u2 * w2 ^ (p25519 - 2)).
    rewrite Hval, Ea, Ei. apply feq_mul; [done|]. apply feq_pow; [vm_compute; done|done].
Qed.

Lemma x25519_rfc7748_witness :
  x25519 (replicate 32 0x77) (9 :: replicate 31 0) =
    le_bytes 32 (rfc7748 (le_val (clamp (replicate 32 0x77))) (le_val (9 :: replicate 31 0) mod 2 ^ 255)).
Proof.
  apply x25519_rfc7748.
  - apply (bool_decide_unpack _). vm_compute. exact I.
  - reflexivity.
  - apply (bool_decide_unpack _). vm_compute. exact I.
  - reflexivity.
Defined.
