(* ===== verification/Scalar25519.v ===== *)
(** Reduction modulo the group order of [reticulum-core/src/ed25519.rs] ([reduce] and
    [modl]), on signed 64-bit digits of radix 256. *)
From S2P Require Import Prelude Field25519.

(** The group order [l], little-endian bytes. *)
Definition L : list Z :=
  [0xed; 0xd3; 0xf5; 0x5c; 0x1a; 0x63; 0x12; 0x58; 0xd6; 0x9c; 0xf7; 0xa2; 0xde; 0xf9; 0xde; 0x14;
   0; 0; 0; 0; 0; 0; 0; 0; 0; 0; 0; 0; 0; 0; 0; 0x10].

(** One digit of the inner loop of round [i]; the state is [(x, carry)]. *)
Definition modl_inner (i : nat) (st : list Z * Z) (j : nat) : list Z * Z :=
  let '(x, carry) := st in
  let xj := i64 (limb x j + i64 (carry - i64 (i64 (16 * limb x i) * limb L (j - (i - 32))))) in
  let carry := Z.shiftr (i64 (xj + 128)) 8 in
  (<[j := i64 (xj - i64 (Z.shiftl carry 8))]> x, carry).
Definition modl_round (x : list Z) (i : nat) : list Z :=
  let '(x, carry) := fold_left (modl_inner i) (seq (i - 32) 20) (x, 0) in
  <[i := 0]> (alter (λ y, i64 (y + carry)) (i - 12)%nat x).
Definition modl_low (st : list Z * Z) (j : nat) : list Z * Z :=
  let '(x, carry) := st in
  let xj := i64 (limb x j + i64 (carry - i64 (Z.shiftr (limb x 31) 4 * limb L j))) in
  (<[j := Z.land xj 255]> x, Z.shiftr xj 8).
Definition modl_sub (carry : Z) (x : list Z) (j : nat) : list Z :=
  alter (λ y, i64 (y - i64 (carry * limb L j))) j x.
Definition modl_out (st : list Z * bytes) (i : nat) : list Z * bytes :=
  let '(x, r) := st in
  let x := alter (λ y, i64 (y + Z.shiftr (limb x i) 8)) (S i) x in
  (x, r ++ [Z.land (limb x i) 255 mod 256]).
Definition modl (x : list Z) : bytes :=
  let x := fold_left modl_round (rev (seq 32 32)) x in
  let '(x, carry) := fold_left modl_low (seq 0 32) (x, 0) in
  let x := fold_left (modl_sub carry) (seq 0 32) x in
  (fold_left modl_out (seq 0 32) (x, [])).2.

Definition reduce (h : bytes) : bytes := modl h.

(** ** Values of digits of radix 256 *)
Definition order : Z := 2 ^ 252 + 27742317777372353535851937790883648493.
Lemma order_L : le_val L = order.
Proof. vm_compute. reflexivity. Qed.

Lemma pow256_pos n : 0 < 256 ^ Z.of_nat n.
Proof. apply Z.pow_pos_nonneg; lia. Qed.
Lemma pow256_succ n : 256 ^ Z.of_nat (S n) = 256 * 256 ^ Z.of_nat n.
Proof. rewrite Nat2Z.inj_succ, Z.pow_succ_r by lia. done. Qed.
Lemma le_val_app a b : le_val (a ++ b) = le_val a + 256 ^ Z.of_nat (length a) * le_val b.
Proof.
  induction a as [|x a IH]; cbn [app le_val length]; [by rewrite Z.pow_0_r; ring|].
  rewrite IH, pow256_succ. ring.
Qed.
(** Digits within [B] have a value within [B * 256^n / 255]. *)
Lemma le_val_within B l : Forall (λ x, - B ≤ x ≤ B) l →
  - (B * 256 ^ Z.of_nat (length l) - B) ≤ 255 * le_val l ≤ B * 256 ^ Z.of_nat (length l) - B.
Proof.
  induction 1 as [|x l Hx _ IH]; cbn [le_val length]; [rewrite Z.pow_0_r; lia|].
  rewrite pow256_succ, (Z.mul_comm 256 (256 ^ _)), Z.mul_assoc. lia.
Qed.
Lemma insert_middle {A} (pre : list A) x v post i : i = length pre → <[i := v]> (pre ++ x :: post) = pre ++ v :: post.
Proof. intros ->. induction pre as [|y pre IH]; [done|]. cbn. by f_equal. Qed.

(** A digit carried to [[-128, 127]]. *)
Definition balanced (x : Z) : Prop := -128 ≤ x < 128.
Lemma carry_balanced v : - 2 ^ 60 ≤ v ≤ 2 ^ 60 →
  let c := Z.shiftr (i64 (v + 128)) 8 in
  i64 (v - i64 (Z.shiftl c 8)) = v - 256 * c ∧ balanced (v - 256 * c) ∧ - 2 ^ 53 ≤ c ≤ 2 ^ 53 ∧
  256 * c ≤ v + 128 ∧ v - 128 < 256 * c.
Proof.
  intros Hv c. unfold c. rewrite (i64_id (v + 128)) by lia. rewrite Z.shiftr_div_pow2 by lia. change (2 ^ 8) with 256.
  rewrite Z.shiftl_mul_pow2 by lia. change (2 ^ 8) with 256.
  pose proof (Z.div_mod (v + 128) 256 ltac:(lia)). pose proof (Z.mod_pos_bound (v + 128) 256 ltac:(lia)).
  set (q := (v + 128) / 256) in *. clearbody q. rewrite (i64_id (q * 256)), i64_id by lia. unfold balanced. lia.
Qed.

Lemma limb_app_r (a b : list Z) k : limb (a ++ b) (length a + k) = limb b k.
Proof. unfold limb. rewrite app_nth2 by lia. f_equal. lia. Qed.

(** The inner loop of a round, on the segment it runs over; [cs] are the bytes of the
    order it uses. *)
Lemma inner_loop i k (pre seg post cs : list Z) carry :
  i = (length pre + length seg + k)%nat → length cs = length seg →
  (∀ t, (t < length seg)%nat → limb L (length pre + t - (i - 32)) = limb cs t) →
  - 2 ^ 22 ≤ limb post k ≤ 2 ^ 22 → Forall (λ x, - 2 ^ 22 ≤ x ≤ 2 ^ 22) seg → Forall (λ c, 0 ≤ c ≤ 255) cs →
  - 2 ^ 40 ≤ carry ≤ 2 ^ 40 →
  ∃ seg' carry', fold_left (modl_inner i) (seq (length pre) (length seg)) (pre ++ seg ++ post, carry) =
      (pre ++ seg' ++ post, carry') ∧
    length seg' = length seg ∧ Forall balanced seg' ∧
    le_val seg' + 256 ^ Z.of_nat (length seg) * carry' = le_val seg + carry - 16 * limb post k * le_val cs.
Proof.
  revert pre cs carry. induction seg as [|s seg IH]; intros pre cs carry Hi Hcs HL Hx Hseg Hc Hcar.
  { exists [], carry. destruct cs; [|done]. cbn. split_and!; [done..|lia]. }
  destruct cs as [|c cs]; [done|]. inversion_clear Hseg as [|? ? Hs Hseg']. inversion_clear Hc as [|? ? Hc0 Hc'].
  cbn [length] in Hi, Hcs |- *. rewrite loop_step.
  assert (limb (pre ++ (s :: seg) ++ post) i = limb post k) as Exi.
  { rewrite app_assoc. replace i with (length (pre ++ s :: seg) + k)%nat by (rewrite length_app; cbn; lia). apply limb_app_r. }
  assert (limb L (length pre - (i - 32)) = c) as EL.
  { specialize (HL 0%nat ltac:(cbn; lia)). rewrite Nat.add_0_r in HL. exact HL. }
  set (xi := limb post k) in *. assert (- 2 ^ 34 ≤ 16 * xi * c ≤ 2 ^ 34) as Hp by nia.
  set (v := s + (carry - 16 * xi * c)). destruct (carry_balanced v) as (E1 & Hbal & Hc1 & Hc2 & Hc3); [unfold v; lia|].
  assert (modl_inner i (pre ++ (s :: seg) ++ post, carry) (length pre) =
    (pre ++ (v - 256 * Z.shiftr (i64 (v + 128)) 8) :: seg ++ post, Z.shiftr (i64 (v + 128)) 8)) as ->.
  { unfold modl_inner. rewrite Exi, EL. cbn [app]. rewrite limb_middle by done.
    rewrite (i64_id (16 * xi)) by lia. rewrite (i64_id (16 * xi * c)) by lia.
    rewrite (i64_id (carry - _)) by lia. rewrite (i64_id (s + _)) by (unfold v in *; lia). fold v.
    rewrite E1. f_equal. by rewrite insert_middle. }
  set (c' := Z.shiftr (i64 (v + 128)) 8) in *. clearbody c'.
  destruct (IH (pre ++ [v - 256 * c']) cs c') as (seg' & carry' & E & Hl & Hb & Hval).
  - rewrite length_app. cbn. lia.
  - lia.
  - intros t Ht. specialize (HL (S t) ltac:(cbn; lia)). rewrite length_app. cbn [length].
    replace (length pre + 1 + t)%nat with (length pre + S t)%nat by lia. exact HL.
  - exact Hx.
  - done.
  - done.
  - unfold v in *. lia.
  - exists ((v - 256 * c') :: seg'), carry'. split_and!.
    + rewrite length_app in E. cbn [length] in E. rewrite Nat.add_1_r, <-!app_assoc in E. exact E.
    + cbn. by rewrite Hl.
    + by constructor.
    + cbn [le_val]. rewrite pow256_succ. fold xi in Hval. unfold v. lia.
Qed.

(** The bytes of the order a round uses are its low 20. *)
Lemma L_low i t : (32 ≤ i)%nat → (t < 20)%nat → limb L (i - 32 + t - (i - 32)) = limb (take 20 L) t.
Proof.
  intros Hi Ht. replace (i - 32 + t - (i - 32))%nat with t by lia. unfold limb. rewrite !nth_lookup.
  by rewrite lookup_take_lt.
Qed.
Lemma L_low_val : 256 ^ 32 + 16 * le_val (take 20 L) = 16 * order.
Proof. vm_compute. reflexivity. Qed.
Lemma pow256_32 : 256 ^ 32 = 256 ^ 20 * (256 * 256 ^ 11).
Proof. vm_compute. reflexivity. Qed.
Lemma L_low_bound : 0 ≤ 16 * le_val (take 20 L) < 2 ^ 132.
Proof. split; vm_compute; congruence. Qed.
Lemma L_bytes : Forall (λ c, 0 ≤ c ≤ 255) L.
Proof. repeat (constructor; [lia|]). constructor. Qed.

Lemma limb_app (a b : list Z) j : limb (a ++ b) j = if decide (j < length a)%nat then limb a j else limb b (j - length a).
Proof.
  unfold limb. case_decide; [by apply app_nth1|]. apply app_nth2. lia.
Qed.
Lemma limb_oob (a : list Z) j : (length a ≤ j)%nat → limb a j = 0.
Proof. intros. unfold limb. by apply nth_overflow. Qed.

(** The 64 digits around round [i]. *)
Lemma round_split (x : list Z) i : length x = 64%nat → (32 ≤ i < 64)%nat →
  ∃ pre s seg y mid xi hi, x = pre ++ (s :: seg) ++ y :: mid ++ xi :: hi ∧
    length pre = (i - 32)%nat ∧ length seg = 19%nat ∧ length mid = 11%nat ∧ length hi = (63 - i)%nat.
Proof.
  intros Hx Hi.
  rewrite <-(take_drop (i - 32) x). set (pre := take (i - 32) x). set (r := drop (i - 32) x).
  assert (length pre = (i - 32)%nat) as Hp by (unfold pre; rewrite length_take; lia).
  assert (length r = (96 - i)%nat) as Hr by (unfold r; rewrite length_drop; lia). clearbody pre r.
  destruct r as [|s r]; [cbn in Hr; lia|]. cbn [length] in Hr.
  rewrite <-(take_drop 19 r). assert (length (take 19 r) = 19%nat) as Hs by (rewrite length_take; lia).
  assert (length (drop 19 r) = (76 - i)%nat) as Hr' by (rewrite length_drop; lia).
  destruct (drop 19 r) as [|y r']; [cbn in Hr'; lia|]. cbn [length] in Hr'.
  rewrite <-(take_drop 11 r'). assert (length (take 11 r') = 11%nat) as Hm by (rewrite length_take; lia).
  assert (length (drop 11 r') = (64 - i)%nat) as Hr'' by (rewrite length_drop; lia).
  destruct (drop 11 r') as [|xi hi]; [cbn in Hr''; lia|]. cbn [length] in Hr''.
  exists pre, s, (take 19 r), y, (take 11 r'), xi, hi. split_and!; [done|done|done|done|lia].
Qed.

Lemma carry_bound S s seg seg' xi c : - 2 ^ 22 ≤ s ≤ 2 ^ 22 → Forall (λ x, - S ≤ x ≤ S) seg → length seg = 19%nat →
  Forall balanced seg' → length seg' = 20%nat → - 2 ^ 22 ≤ xi ≤ 2 ^ 22 → 0 ≤ S →
  le_val seg' + 256 ^ 20 * c = le_val (s :: seg) - 16 * xi * le_val (take 20 L) →
  255 * Z.abs c ≤ S + 133.
Proof.
  intros Hs Hseg Ls Hseg' Ls' Hxi HS E. cbn [le_val] in E.
  pose proof (le_val_within S seg Hseg) as B1. rewrite Ls in B1. change (Z.of_nat 19) with 19 in B1.
  assert (Forall (λ x, - 128 ≤ x ≤ 128) seg') as Hb by (eapply Forall_impl; [exact Hseg'|]; unfold balanced; cbn; lia).
  pose proof (le_val_within 128 seg' Hb) as B2. rewrite Ls' in B2. change (Z.of_nat 20) with 20 in B2.
  pose proof L_low_bound as B3. set (w := le_val (take 20 L)) in *. clearbody w.
  assert (- 2 ^ 154 ≤ 16 * xi * w ≤ 2 ^ 154) as B4 by nia.
  set (t := 16 * xi * w) in *. clearbody t. set (a := le_val seg) in *. set (b := le_val seg') in *. clearbody a b. lia.
Qed.

(** What a round does, digit by digit and to the value. *)
Lemma round_spec S x i : length x = 64%nat → (32 ≤ i < 64)%nat → 0 ≤ S ≤ 2 ^ 22 →
  - 2 ^ 22 ≤ limb x i ≤ 2 ^ 22 → - 2 ^ 22 ≤ limb x (i - 32) ≤ 2 ^ 22 → - 2 ^ 22 ≤ limb x (i - 12) ≤ 2 ^ 22 →
  (∀ j, (i - 32 < j < i - 12)%nat → - S ≤ limb x j ≤ S) →
  let x' := modl_round x i in
  length x' = 64%nat ∧ le_val x' = le_val x - 256 ^ Z.of_nat (i - 32) * (16 * limb x i * order) ∧
  ∃ c, 255 * Z.abs c ≤ S + 133 ∧ limb x' (i - 12) = limb x (i - 12) + c ∧ limb x' i = 0 ∧
    (∀ j, (i - 32 ≤ j < i - 12)%nat → balanced (limb x' j)) ∧
    (∀ j, (j < i - 32 ∨ i - 12 < j < i ∨ i < j)%nat → limb x' j = limb x j).
Proof.
  intros Lx Hi HS Hxi Hs0 Hy Hseg.
  destruct (round_split x i Lx Hi) as (pre & s & seg & y & mid & xi & hi & Ex & Lp & Ls & Lm & Lh).
  assert (∀ j, limb x j = limb (pre ++ (s :: seg) ++ y :: mid ++ xi :: hi) j) as Elim by (intros; by rewrite <-Ex).
  assert (limb x i = xi ∧ limb x (i - 32) = s ∧ limb x (i - 12) = y) as (Exi & Es & Ey).
  { rewrite !Elim. rewrite !limb_app. cbn [length]. split_and!.
    - rewrite !decide_False by lia. replace (i - length pre - Datatypes.S (length seg))%nat with (Datatypes.S (length mid)) by lia.
      rewrite limb_cons. by apply limb_middle.
    - rewrite decide_False, decide_True by lia. by replace (i - 32 - length pre)%nat with 0%nat by lia.
    - rewrite !decide_False by lia. by replace (i - 12 - length pre - Datatypes.S (length seg))%nat with 0%nat by lia. }
  assert (Forall (λ z, - S ≤ z ≤ S) seg) as Hseg'.
  { apply Forall_forall. intros z Hz. apply list_elem_of_lookup in Hz as [t Ht].
    pose proof (lookup_lt_Some _ _ _ Ht) as Hlt. specialize (Hseg (i - 31 + t)%nat ltac:(lia)).
    rewrite Elim, limb_app, decide_False, limb_app, decide_True in Hseg by (cbn; lia).
    replace (i - 31 + t - length pre)%nat with (Datatypes.S t) in Hseg by lia. rewrite limb_cons in Hseg.
    unfold limb in Hseg. by rewrite (nth_lookup_Some _ _ _ _ Ht) in Hseg. }
  rewrite Exi in *. rewrite Es in Hs0.
  destruct (inner_loop i 12 pre (s :: seg) (y :: mid ++ xi :: hi) (take 20 L) 0) as (seg' & c & E & Lseg' & Hbal & Hval).
  { cbn. lia. }
  { cbn. lia. }
  { intros t Ht. rewrite Lp. apply L_low; [lia|cbn in Ht; lia]. }
  { rewrite limb_cons, limb_middle by lia. done. }
  { constructor; [done|]. eapply Forall_impl; [exact Hseg'|]. cbn. lia. }
  { apply Forall_take, L_bytes. }
  { lia. }
  rewrite limb_cons, limb_middle in Hval by lia. cbn [length] in E, Lseg', Hval. rewrite Ls in *.
  assert (255 * Z.abs c ≤ S + 133) as Hc.
  { apply (carry_bound S s seg seg' xi c Hs0 Hseg' Ls Hbal Lseg' Hxi (proj1 HS)).
    change (Z.of_nat 20) with 20 in Hval. rewrite Hval. ring. }
  assert (modl_round x i = pre ++ seg' ++ (y + c) :: mid ++ 0 :: hi) as ->.
  { unfold modl_round. rewrite Ex. replace (i - 32)%nat with (length pre) by lia. rewrite E.
    rewrite (app_assoc pre), alter_middle by (rewrite length_app; lia). rewrite i64_id by lia.
    replace ((pre ++ seg') ++ (y + c) :: mid ++ xi :: hi) with (((pre ++ seg') ++ (y + c) :: mid) ++ xi :: hi)
      by (by rewrite <-!app_assoc).
    rewrite insert_middle by (rewrite !length_app; cbn; lia). by rewrite <-!app_assoc. }
  cbv zeta. split; [rewrite !length_app; cbn; rewrite length_app; cbn; lia|]. split.
  { rewrite Ex, !le_val_app. cbn [le_val]. rewrite !le_val_app. cbn [le_val length]. rewrite Lseg', Ls, Lm, Lp.
    cbn [le_val] in Hval. change (Z.of_nat 20) with 20 in *. change (Z.of_nat 11) with 11.
    pose proof L_low_val as HLL. set (P := 256 ^ Z.of_nat (i - 32)). 
    transitivity (le_val pre + P * (le_val seg' + 256 ^ 20 * c + 256 ^ 20 * (y + 256 * (le_val mid + 256 ^ 11 * (256 * le_val hi))))).
    { ring. }
    rewrite Hval. replace (16 * xi * order) with (xi * (16 * order)) by ring. rewrite <-HLL, pow256_32. ring. }
  exists c. split; [done|]. rewrite Ey.
  split; [rewrite !limb_app, !decide_False by lia; rewrite Lseg'; by replace (i - 12 - length pre - 20)%nat with 0%nat by lia|].
  split.
  { rewrite !limb_app, !decide_False by lia. rewrite Lseg'.
    replace (i - length pre - 20)%nat with (Datatypes.S (length mid)) by lia. rewrite limb_cons. by apply limb_middle. }
  split.
  - intros j Hj. rewrite limb_app, decide_False, limb_app, decide_True by lia.
    rewrite Forall_forall in Hbal. apply Hbal. unfold limb. apply list_elem_of_In, nth_In. lia.
  - intros j Hj. rewrite (Elim j), !limb_app. cbn [length]. rewrite Ls, Lseg'. case_decide; [done|].
    rewrite !decide_False by lia.
    destruct (j - length pre - 20)%nat as [|t] eqn:Et; [lia|]. rewrite !limb_cons, !limb_app. case_decide; [done|].
    destruct (t - length mid)%nat as [|t'] eqn:Et'; [lia|]. by rewrite !limb_cons.
Qed.

(** ** The rounds *)

(** The digits before round [i], for the rounds after the first: raw below, balanced in
    the window the last round carried, at most one off above it. *)
Record digits_inv (i : nat) (x : list Z) : Prop := {
  inv_length : length x = 64%nat;
  inv_raw j : (j + 32 ≤ i)%nat → - 2 ^ 21 ≤ limb x j ≤ 2 ^ 21;
  inv_window j : (i < j + 32 ∧ j + 12 ≤ i)%nat → - 128 ≤ limb x j ≤ 128;
  inv_carried j : (i < j + 12 ∧ j ≤ i ∧ j ≤ 50)%nat → - 129 ≤ limb x j ≤ 129;
  inv_high j : (51 ≤ j ≤ i)%nat → - 2 ^ 22 ≤ limb x j ≤ 2 ^ 22;
  inv_zero j : (i < j)%nat → limb x j = 0;
}.

(** The value keeps its residue. *)
Definition leq (a b : Z) : Prop := ∃ k, a = b + k * order.

Lemma round_first x : length x = 64%nat → Forall (λ d, - 2 ^ 21 ≤ d ≤ 2 ^ 21) x →
  digits_inv 62 (modl_round x 63) ∧ leq (le_val (modl_round x 63)) (le_val x).
Proof.
  intros Lx Hx. assert (∀ j, - 2 ^ 21 ≤ limb x j ≤ 2 ^ 21) as Hb by (intros; by apply limb_bound).
  destruct (round_spec (2 ^ 21) x 63 Lx) as (L & V & c & Hc & H51 & H63 & Hbal & Hsame);
    [lia|lia|specialize (Hb 63%nat); lia|specialize (Hb (63 - 32)%nat); lia|specialize (Hb (63 - 12)%nat); lia|done|].
  change (63 - 12)%nat with 51%nat in *. change (63 - 32)%nat with 31%nat in *. split.
  - split; [done|..]; intros j Hj.
    + rewrite Hsame by lia. apply Hb.
    + specialize (Hbal j ltac:(lia)). unfold balanced in Hbal. lia.
    + lia.
    + destruct (decide (j = 51)%nat) as [->|Hne]; [rewrite H51; specialize (Hb 51%nat); lia|].
      rewrite Hsame by lia. specialize (Hb j). lia.
    + destruct (decide (j = 63)%nat) as [->|Hne]; [done|]. apply limb_oob. lia.
  - exists (- (256 ^ Z.of_nat 31 * (16 * limb x 63))). rewrite V. ring.
Qed.

Lemma round_next x i : (32 ≤ i ≤ 62)%nat → digits_inv i x →
  digits_inv (i - 1) (modl_round x i) ∧ leq (le_val (modl_round x i)) (le_val x).
Proof.
  intros Hi [Lx Hraw Hwin Hcar Hhigh Hzero].
  destruct (round_spec 128 x i Lx) as (L & V & c & Hc & H12 & Hz & Hbal & Hsame).
  { lia. }
  { lia. }
  { destruct (decide (i ≤ 50)%nat); [specialize (Hcar i ltac:(lia))|specialize (Hhigh i ltac:(lia))]; lia. }
  { specialize (Hraw (i - 32)%nat ltac:(lia)). lia. }
  { specialize (Hwin (i - 12)%nat ltac:(lia)). lia. }
  { intros j Hj. apply Hwin. lia. }
  split.
  - split; [done|..]; intros j Hj.
    + rewrite Hsame by lia. apply Hraw. lia.
    + specialize (Hbal j ltac:(lia)). unfold balanced in Hbal. lia.
    + destruct (decide (j = i - 12)%nat) as [->|Hne]; [rewrite H12; specialize (Hwin (i - 12)%nat ltac:(lia)); lia|].
      rewrite Hsame by lia. apply Hcar. lia.
    + rewrite Hsame by lia. apply Hhigh. lia.
    + destruct (decide (j = i)%nat) as [->|Hne]; [done|]. rewrite Hsame by lia. apply Hzero. lia.
  - exists (- (256 ^ Z.of_nat (i - 32) * (16 * limb x i))). rewrite V. ring.
Qed.

Lemma leq_trans a b c : leq a b → leq b c → leq a c.
Proof. intros [k ->] [l ->]. exists (k + l). ring. Qed.

Lemma down_step {A} (f : A → nat → A) k n a :
  fold_left f (rev (seq k (S n))) a = fold_left f (rev (seq k n)) (f a (k + n)%nat).
Proof. by rewrite seq_S, rev_app_distr. Qed.
Lemma rounds_ok n x : (n ≤ 31)%nat → digits_inv (31 + n) x →
  digits_inv 31 (fold_left modl_round (rev (seq 32 n)) x) ∧ leq (le_val (fold_left modl_round (rev (seq 32 n)) x)) (le_val x).
Proof.
  revert x. induction n as [|n IH]; intros x Hn Hx.
  { split; [done|]. exists 0. cbn. lia. }
  rewrite down_step. destruct (round_next x (32 + n)) as [H1 H2]; [lia|by replace (32 + n)%nat with (31 + S n)%nat by lia|].
  destruct (IH (modl_round x (32 + n))) as [H3 H4]; [lia|by replace (31 + n)%nat with (32 + n - 1)%nat by lia|].
  split; [done|]. by eapply leq_trans.
Qed.

Lemma all_rounds_ok x : length x = 64%nat → Forall (λ d, - 2 ^ 21 ≤ d ≤ 2 ^ 21) x →
  let y := fold_left modl_round (rev (seq 32 32)) x in digits_inv 31 y ∧ leq (le_val y) (le_val x).
Proof.
  intros Lx Hx. destruct (round_first x Lx Hx) as [H1 H2].
  destruct (rounds_ok 31 (modl_round x 63) (le_n _) H1) as [H3 H4].
  rewrite down_step. replace (32 + 31)%nat with 63%nat by lia. exact (conj H3 (leq_trans _ _ _ H4 H2)).
Qed.

(** ** The low digits *)

(** The second loop takes [q] orders away, [q] read off the top digit until it is
    itself carried. *)
Lemma low_loop q (pre seg post cs : list Z) carry :
  (length pre + length seg = 32)%nat → length cs = length seg →
  (∀ t, (t < length seg)%nat → limb L (length pre + t) = limb cs t) →
  (∀ s seg', seg = s :: seg' → Z.shiftr (limb seg (length seg')) 4 = q) →
  - 2 ^ 22 ≤ q ≤ 2 ^ 22 → Forall (λ x, - 2 ^ 22 ≤ x ≤ 2 ^ 22) seg → Forall (λ c, 0 ≤ c ≤ 255) cs →
  - 2 ^ 40 ≤ carry ≤ 2 ^ 40 →
  ∃ seg' carry', fold_left modl_low (seq (length pre) (length seg)) (pre ++ seg ++ post, carry) =
      (pre ++ seg' ++ post, carry') ∧
    length seg' = length seg ∧ bytes_ok seg' ∧ - 2 ^ 40 ≤ carry' ≤ 2 ^ 40 ∧
    le_val seg' + 256 ^ Z.of_nat (length seg) * carry' = le_val seg + carry - q * le_val cs.
Proof.
  revert pre cs carry. induction seg as [|s seg IH]; intros pre cs carry Hl Hcs HL Hx Hq Hseg Hc Hcar.
  { exists [], carry. destruct cs; [|done]. cbn. split_and!; [done|done|constructor|lia..]. }
  destruct cs as [|c cs]; [done|]. inversion_clear Hseg as [|? ? Hs Hseg']. inversion_clear Hc as [|? ? Hc0 Hc'].
  cbn [length] in Hl, Hcs |- *. rewrite loop_step.
  assert (Z.shiftr (limb (pre ++ (s :: seg) ++ post) 31) 4 = q) as Exi.
  { rewrite <-(Hx s seg eq_refl). f_equal.
    rewrite limb_app, decide_False, limb_app, decide_True by (cbn; lia). f_equal. lia. }
  assert (limb L (length pre) = c) as EL.
  { specialize (HL 0%nat ltac:(cbn; lia)). rewrite Nat.add_0_r in HL. exact HL. }
  assert (- 2 ^ 34 ≤ q * c ≤ 2 ^ 34) as Hp by nia.
  set (v := s + (carry - q * c)).
  assert (modl_low (pre ++ (s :: seg) ++ post, carry) (length pre) = (pre ++ v mod 256 :: seg ++ post, v / 256)) as ->.
  { unfold modl_low. rewrite Exi, EL. cbn [app]. rewrite limb_middle by done.
    rewrite (i64_id (q * c)), (i64_id (carry - _)), (i64_id (s + _)) by lia. fold v.
    change 255 with (2 ^ 8 - 1). rewrite land_mask, Z.shiftr_div_pow2 by lia. change (2 ^ 8) with 256.
    f_equal. by rewrite insert_middle. }
  pose proof (Z.mod_pos_bound v 256 ltac:(lia)) as Hm. pose proof (Z.div_mod v 256 ltac:(lia)) as Hdm.
  set (d := v mod 256) in *. set (c' := v / 256) in *. clearbody d c'.
  destruct (IH (pre ++ [d]) cs c') as (seg' & carry' & E & Hl' & Hb & Hcb & Hval).
  - rewrite length_app. cbn. lia.
  - lia.
  - intros t Ht. specialize (HL (S t) ltac:(cbn; lia)). rewrite length_app. cbn [length].
    replace (length pre + 1 + t)%nat with (length pre + S t)%nat by lia. exact HL.
  - intros s' seg' ->. exact (Hx s _ eq_refl).
  - exact Hq.
  - done.
  - done.
  - unfold v in *. lia.
  - exists (d :: seg'), carry'. split_and!.
    + rewrite length_app in E. cbn [length] in E. rewrite Nat.add_1_r, <-!app_assoc in E. exact E.
    + cbn. by rewrite Hl'.
    + constructor; [done|exact Hb].
    + lia.
    + lia.
    + cbn [le_val]. rewrite pow256_succ. unfold v in *. lia.
Qed.

(** The third loop adds a multiple of the order, digit by digit. *)
Lemma sub_loop carry (pre seg post cs : list Z) :
  length cs = length seg → (∀ t, (t < length seg)%nat → limb L (length pre + t) = limb cs t) →
  - 1 ≤ carry ≤ 0 → bytes_ok seg → Forall (λ c, 0 ≤ c ≤ 255) cs →
  ∃ seg', fold_left (modl_sub carry) (seq (length pre) (length seg)) (pre ++ seg ++ post) = pre ++ seg' ++ post ∧
    length seg' = length seg ∧ Forall (λ d, 0 ≤ d ≤ 510) seg' ∧ le_val seg' = le_val seg - carry * le_val cs.
Proof.
  revert pre cs. induction seg as [|s seg IH]; intros pre cs Hcs HL Hcar Hseg Hc.
  { exists []. destruct cs; [|done]. cbn. split_and!; [done|done|constructor|lia]. }
  destruct cs as [|c cs]; [done|]. inversion_clear Hseg as [|? ? Hs Hseg']. inversion_clear Hc as [|? ? Hc0 Hc'].
  cbn [length] in Hcs |- *. rewrite loop_step. unfold is_byte in Hs.
  assert (limb L (length pre) = c) as EL.
  { specialize (HL 0%nat ltac:(cbn; lia)). rewrite Nat.add_0_r in HL. exact HL. }
  assert (modl_sub carry (pre ++ (s :: seg) ++ post) (length pre) = (pre ++ [s - carry * c]) ++ seg ++ post) as ->.
  { unfold modl_sub. rewrite EL. cbn [app]. rewrite alter_middle by done. rewrite (i64_id (carry * c)), i64_id by nia.
    by rewrite <-app_assoc. }
  destruct (IH (pre ++ [s - carry * c]) cs) as (seg' & E & Hl & Hb & Hval).
  - lia.
  - intros t Ht. specialize (HL (S t) ltac:(cbn; lia)). rewrite length_app. cbn [length].
    replace (length pre + 1 + t)%nat with (length pre + S t)%nat by lia. exact HL.
  - done.
  - done.
  - done.
  - exists ((s - carry * c) :: seg'). split_and!.
    + rewrite length_app in E. cbn [length] in E. rewrite Nat.add_1_r in E. rewrite E. by rewrite <-app_assoc.
    + cbn. by rewrite Hl.
    + constructor; [nia|exact Hb].
    + cbn [le_val]. rewrite Hval. ring.
Qed.

(** The last loop writes the bytes of the value. *)
Lemma out_loop (pre : list Z) d seg z post r :
  Forall (λ d, 0 ≤ d ≤ 510) seg → 0 ≤ d ≤ 1020 → z = 0 → 
  (fold_left modl_out (seq (length pre) (S (length seg))) (pre ++ (d :: seg) ++ z :: post, r)).2 =
  r ++ le_bytes (S (length seg)) (le_val (d :: seg)).
Proof.
  intros Hseg Hd ->. revert pre d r Hd. induction Hseg as [|s seg Hs Hseg IH]; intros pre d r Hd;
    cbn [length]; rewrite loop_step.
  - unfold modl_out. cbn [app seq fold_left snd]. rewrite limb_middle by done.
    rewrite alter_next by done. rewrite limb_middle by done. cbn [le_bytes le_val]. do 2 f_equal.
    change 255 with (2 ^ 8 - 1). rewrite land_mask by lia. change (2 ^ 8) with 256. rewrite Z.mod_mod by lia. f_equal. lia.
  - assert (modl_out (pre ++ (d :: s :: seg) ++ 0 :: post, r) (length pre) =
      ((pre ++ [d]) ++ ((s + d / 256) :: seg) ++ 0 :: post, r ++ [d mod 256])) as ->.
    { unfold modl_out. cbn [app]. rewrite limb_middle by done. rewrite alter_next by done. rewrite limb_middle by done.
      rewrite Z.shiftr_div_pow2 by lia. change 255 with (2 ^ 8 - 1). rewrite land_mask by lia. change (2 ^ 8) with 256.
      rewrite Z.mod_mod by lia. rewrite i64_id by (pose proof (Z.div_lt_upper_bound d 256 4); pose proof (Z.div_pos d 256); lia).
      by rewrite <-app_assoc. }
    specialize (IH (pre ++ [d]) (s + d / 256) (r ++ [d mod 256])). rewrite length_app in IH. cbn [length] in IH.
    rewrite Nat.add_1_r in IH. rewrite IH by (pose proof (Z.div_lt_upper_bound d 256 4); pose proof (Z.div_pos d 256); lia).
    rewrite <-app_assoc. f_equal. cbn [app]. change (le_bytes (S (S (length seg))) ?v) with (v mod 256 :: le_bytes (S (length seg)) (v / 256)).
    f_equal; cbn [le_val].
    + rewrite Z.mul_comm, Z.mod_add by lia. done.
    + f_equal. rewrite (Z.mul_comm 256 (s + 256 * le_val seg)), Z.div_add by lia. lia.
Qed.

Lemma le_bytes_mod n v : le_bytes n (v mod 256 ^ Z.of_nat n) = le_bytes n v.
Proof.
  revert v. induction n as [|n IH]; intros v; [done|]. cbn [le_bytes]. rewrite pow256_succ.
  pose proof (pow256_pos n). rewrite Z.rem_mul_r by lia. f_equal.
  - rewrite Z.mul_comm, Z.mod_add, Z.mod_mod by lia. done.
  - rewrite (Z.mul_comm 256), Z.div_add by lia. rewrite (Z.div_small (v mod 256)) by (apply Z.mod_pos_bound; lia).
    rewrite Z.add_0_l. apply IH.
Qed.
Lemma le_bytes_shift n v c : le_bytes n (v + 256 ^ Z.of_nat n * c) = le_bytes n v.
Proof.
  rewrite <-le_bytes_mod, (Z.mul_comm _ c), Z.mod_add by (pose proof (pow256_pos n); lia). apply le_bytes_mod.
Qed.

(** The 32 digits the rounds leave, and zeros above. *)
Lemma rounds_digits y : digits_inv 31 y →
  ∃ lo top post, y = [] ++ (lo ++ [top]) ++ 0 :: post ∧ length lo = 31%nat ∧ le_val y = le_val (lo ++ [top]) ∧
    Forall (λ d, - 129 ≤ d ≤ 129) (lo ++ [top]).
Proof.
  intros [Ly _ Hw Hc _ Hz]. 
  assert (∀ j, (j < 32)%nat → - 129 ≤ limb y j ≤ 129) as Hb.
  { intros j Hj. destruct (decide (j ≤ 19)%nat); [specialize (Hw j ltac:(lia)); lia|apply Hc; lia]. }
  assert (∀ z, z ∈ drop 32 y → z = 0) as Hd.
  { intros z [t Ht]%list_elem_of_lookup. rewrite lookup_drop in Ht. specialize (Hz (32 + t)%nat ltac:(lia)).
    unfold limb in Hz. by rewrite (nth_lookup_Some _ _ _ _ Ht) in Hz. }
  assert (Forall (λ d, - 129 ≤ d ≤ 129) (take 32 y)) as Hf.
  { apply Forall_forall. intros z [t Ht]%list_elem_of_lookup. apply lookup_take_Some in Ht as [Ht Hlt].
    specialize (Hb t Hlt). unfold limb in Hb. by rewrite (nth_lookup_Some _ _ _ _ Ht) in Hb. }
  assert (∀ l : list Z, (∀ z, z ∈ l → z = 0) → le_val l = 0) as Hzero.
  { induction l as [|z l IH]; intros Hl; [done|]. cbn [le_val]. rewrite (Hl z), IH; [done|intros; apply Hl; by right|by left]. }
  assert (le_val y = le_val (take 32 y)) as Ev.
  { rewrite <-(take_drop 32 y) at 1. rewrite le_val_app, (Hzero (drop 32 y) Hd). lia. }
  assert (length (take 32 y) = 32%nat) as Lt by (rewrite length_take; lia).
  assert (length (drop 32 y) = 32%nat) as Ld by (rewrite length_drop; lia).
  assert (y = take 32 y ++ drop 32 y) as Ey by (by rewrite take_drop). rewrite Ev.
  set (a := take 32 y) in *. set (b := drop 32 y) in *. clearbody a b. rewrite Ey.
  destruct b as [|z post]; [done|]. rewrite (Hd z) by (by left).
  destruct a as [|top lo _] using rev_ind; [done|]. rewrite length_app in Lt. cbn in Lt.
  exists lo, top, post. split_and!; [done|lia|done|done].
Qed.

(** Taking [top / 16] orders away leaves less than one order. *)
Lemma quotient_bound lo top : length lo = 31%nat → Forall (λ d, - 129 ≤ d ≤ 129) (lo ++ [top]) →
  - order < le_val (lo ++ [top]) - top / 16 * order < order.
Proof.
  intros Ll [Hlo Htop]%Forall_app. inversion_clear Htop as [|? ? Ht _].
  pose proof (le_val_within 129 lo Hlo) as Hb. rewrite Ll in Hb. rewrite le_val_app, Ll. cbn [le_val].
  change (Z.of_nat 31) with 31 in *.
  pose proof (Z.div_mod top 16 ltac:(lia)) as Hdm. pose proof (Z.mod_pos_bound top 16 ltac:(lia)) as Hm.
  set (q := top / 16) in *. set (r := top mod 16) in *. clearbody q r. subst top.
  set (a := le_val lo) in *. clearbody a. unfold order. assert (-9 ≤ q ≤ 8) as Hq by lia. lia.
Qed.

Lemma bytes_value seg : bytes_ok seg → 0 ≤ le_val seg < 256 ^ Z.of_nat (length seg).
Proof.
  induction 1 as [|z seg Hz _ IH]; cbn [le_val length]; [rewrite Z.pow_0_r; lia|].
  rewrite pow256_succ. unfold is_byte in Hz. lia.
Qed.

(** The loops after the rounds, run in turn. *)
Lemma tail_run n y x2 c x3 r :
  fold_left modl_low (seq 0 n) (y, 0) = (x2, c) → fold_left (modl_sub c) (seq 0 n) x2 = x3 →
  (fold_left modl_out (seq 0 n) (x3, [])).2 = r →
  (let '(x, carry) := fold_left modl_low (seq 0 n) (y, 0) in
   let x := fold_left (modl_sub carry) (seq 0 n) x in (fold_left modl_out (seq 0 n) (x, [])).2) = r.
Proof. intros E E2 E3. rewrite E, E2. exact E3. Qed.

Lemma top_digit q lo top s seg' : length lo = 31%nat → lo ++ [top] = s :: seg' → q = top / 16 →
  Z.shiftr (limb (lo ++ [top]) (length seg')) 4 = q.
Proof.
  intros Ll E ->. assert (length seg' = length lo) as ->.
  { apply (f_equal length) in E. rewrite length_app in E. cbn in E. lia. }
  rewrite limb_middle by done. by rewrite Z.shiftr_div_pow2.
Qed.

Lemma low_ok lo top post : length lo = 31%nat → Forall (λ d, - 129 ≤ d ≤ 129) (lo ++ [top]) →
  ∃ seg c, fold_left modl_low (seq 0 32) ((lo ++ [top]) ++ 0 :: post, 0) = (seg ++ 0 :: post, c) ∧
    length seg = 32%nat ∧ bytes_ok seg ∧ -1 ≤ c ≤ 0 ∧ 0 ≤ le_val seg + (256 ^ Z.of_nat 32 - order) * c < order ∧
    le_val seg + 256 ^ Z.of_nat 32 * c = le_val (lo ++ [top]) - top / 16 * order.
Proof.
  intros Ll Hf. pose proof (quotient_bound lo top Ll Hf) as Hq.
  assert (length (lo ++ [top]) = 32%nat) as L32 by (rewrite length_app; cbn; lia).
  assert (- 129 ≤ top ≤ 129) as Htop by (apply Forall_app in Hf as [_ Ht]; by inversion Ht).
  pose proof (Z.div_mod top 16 ltac:(lia)) as Hdm. pose proof (Z.mod_pos_bound top 16 ltac:(lia)) as Hm.
  destruct (low_loop (top / 16) [] (lo ++ [top]) (0 :: post) L 0) as (seg & c & E & Ls & Hb & Hcb & Hval).
  { rewrite L32. done. }
  { rewrite L32. done. }
  { done. }
  { intros s seg' Es. by apply (top_digit _ lo top s seg'). }
  { lia. }
  { eapply Forall_impl; [exact Hf|]. cbn. lia. }
  { exact L_bytes. }
  { lia. }
  rewrite L32 in E, Ls, Hval. rewrite order_L in Hval. exists seg, c. pose proof (bytes_value seg Hb) as Hsv. rewrite Ls in Hsv.
  assert (order < 256 ^ Z.of_nat 32) as Hord by (vm_compute; done).
  set (M := 256 ^ Z.of_nat 32) in *. clearbody M. set (q := top / 16 * order) in *. clearbody q.
  assert (-1 ≤ c ≤ 0) as Hc by nia.
  split; [exact E|]. split; [done|]. split; [done|]. split; [done|]. split; [|lia]. assert (c = 0 ∨ c = -1) as [-> | ->] by lia; lia.
Qed.

Lemma high_ok seg c post : length seg = 32%nat → bytes_ok seg → -1 ≤ c ≤ 0 →
  (fold_left modl_out (seq 0 32) (fold_left (modl_sub c) (seq 0 32) (seg ++ 0 :: post), [])).2 =
  le_bytes 32 (le_val seg - c * order).
Proof.
  intros Ls Hb Hc. destruct (sub_loop c [] seg (0 :: post) L) as (seg2 & E2 & Ls2 & Hb2 & Hval2).
  { rewrite Ls. done. }
  { done. }
  { done. }
  { done. }
  { exact L_bytes. }
  rewrite Ls in E2, Ls2. rewrite order_L in Hval2. rewrite <-Hval2. refine (eq_trans (f_equal (λ x, (fold_left modl_out (seq 0 32) (x, [])).2) E2) _).
  cbv beta. destruct seg2 as [|d seg2]; [done|]. inversion_clear Hb2 as [|? ? Hd Hb2'].
  pose proof (out_loop [] d seg2 0 post [] Hb2' ltac:(lia) eq_refl) as Ho. cbn [length] in Ls2. rewrite Ls2 in Ho. exact Ho.
Qed.

Lemma residue v w k q c : w = v + k * order → 0 ≤ w - q * order - c * order < order → v mod order = w - q * order - c * order.
Proof. intros -> H. symmetry. apply (Z.mod_unique_pos _ _ (- k + q + c)); [exact H|ring]. Qed.

(** [modl] on 64 signed digits of at most [2^21] writes the 32 little-endian bytes of
    their value modulo the order of the group, fully reduced; no 64-bit operation wraps. *)
Lemma modl_ok x : length x = 64%nat → Forall (λ d, - 2 ^ 21 ≤ d ≤ 2 ^ 21) x →
  modl x = le_bytes 32 (le_val x mod order).
Proof.
  intros Lx Hx. pose proof (all_rounds_ok x Lx Hx) as [Hinv [k Hk]]. unfold modl.
  set (y := fold_left modl_round _ x) in *. clearbody y.
  destruct (rounds_digits y Hinv) as (lo & top & post & Ey & Ll & Ev & Hf).
  destruct (low_ok lo top post Ll Hf) as (seg & c & E & Ls & Hb & Hc & Hr & Hval).
  rewrite <-Ev, Hk in *. change ([] ++ ?l) with l in Ey.
  apply (tail_run 32 y (seg ++ 0 :: post) c _ _ ltac:(rewrite Ey; exact E) eq_refl).
  rewrite (high_ok seg c post Ls Hb Hc), (residue (le_val x) (le_val y) k (top / 16) c); [|lia..].
  rewrite <-(le_bytes_shift 32 (le_val seg - c * order) c). apply (f_equal (le_bytes 32)). lia.
Qed.

Lemma reduce_ok h : length h = 64%nat → bytes_ok h → reduce h = le_bytes 32 (le_val h mod order).
Proof.
  intros Lh Hh. apply modl_ok; [done|]. eapply Forall_impl; [exact Hh|]. unfold is_byte. cbn. lia.
Qed.
