(* ===== verification/Sha512.v ===== *)
(** SHA-512 of [reticulum-core/src/ed25519.rs], on 64-bit words. *)
From S2P Require Import Prelude.

(** One line of the table: four words, most significant first. *)
Definition row512 (x : Z) : list Z := (λ i, Z.shiftr x (64 * (3 - Z.of_nat i)) mod 2 ^ 64) <$> seq 0 4.

Definition K512 : list Z := flat_map row512
  [0x428a2f98d728ae22_7137449123ef65cd_b5c0fbcfec4d3b2f_e9b5dba58189dbbc;
   0x3956c25bf348b538_59f111f1b605d019_923f82a4af194f9b_ab1c5ed5da6d8118;
   0xd807aa98a3030242_12835b0145706fbe_243185be4ee4b28c_550c7dc3d5ffb4e2;
   0x72be5d74f27b896f_80deb1fe3b1696b1_9bdc06a725c71235_c19bf174cf692694;
   0xe49b69c19ef14ad2_efbe4786384f25e3_0fc19dc68b8cd5b5_240ca1cc77ac9c65;
   0x2de92c6f592b0275_4a7484aa6ea6e483_5cb0a9dcbd41fbd4_76f988da831153b5;
   0x983e5152ee66dfab_a831c66d2db43210_b00327c898fb213f_bf597fc7beef0ee4;
   0xc6e00bf33da88fc2_d5a79147930aa725_06ca6351e003826f_142929670a0e6e70;
   0x27b70a8546d22ffc_2e1b21385c26c926_4d2c6dfc5ac42aed_53380d139d95b3df;
   0x650a73548baf63de_766a0abb3c77b2a8_81c2c92e47edaee6_92722c851482353b;
   0xa2bfe8a14cf10364_a81a664bbc423001_c24b8b70d0f89791_c76c51a30654be30;
   0xd192e819d6ef5218_d69906245565a910_f40e35855771202a_106aa07032bbd1b8;
   0x19a4c116b8d2d0c8_1e376c085141ab53_2748774cdf8eeb99_34b0bcb5e19b48a8;
   0x391c0cb3c5c95a63_4ed8aa4ae3418acb_5b9cca4f7763e373_682e6ff3d6b2b8a3;
   0x748f82ee5defb2fc_78a5636f43172f60_84c87814a1f0ab72_8cc702081a6439ec;
   0x90befffa23631e28_a4506cebde82bde9_bef9a3f7b2c67915_c67178f2e372532b;
   0xca273eceea26619c_d186b8c721c0c207_eada7dd6cde0eb1e_f57d4f7fee6ed178;
   0x06f067aa72176fba_0a637dc5a2c898a6_113f9804bef90dae_1b710b35131c471b;
   0x28db77f523047d84_32caab7b40c72493_3c9ebe0a15c9bebc_431d67c49c100d4c;
   0x4cc5d4becb3e42b6_597f299cfc657e2a_5fcb6fab3ad6faec_6c44198c4a475817].

Definition H512 : list Z := flat_map row512
  [0x6a09e667f3bcc908_bb67ae8584caa73b_3c6ef372fe94f82b_a54ff53a5f1d36f1;
   0x510e527fade682d1_9b05688c2b3e6c1f_1f83d9abfb41bd6b_5be0cd19137e2179].

Definition u64 (x : Z) : Z := x mod 2 ^ 64.
Definition wrapping_add (x y : Z) : Z := u64 (x + y).
Definition rotate_right (n x : Z) : Z := Z.lor (Z.shiftr x n) (u64 (Z.shiftl x (64 - n))).
Definition not64 (x : Z) : Z := Z.lxor x 0xffffffffffffffff.
Definition word64 (w : list Z) (i : nat) : Z := nth i w 0.

Definition schedule512_word (w : list Z) (i : nat) : Z :=
  let a := word64 w (i - 15) in
  let s0 := Z.lxor (Z.lxor (rotate_right 1 a) (rotate_right 8 a)) (Z.shiftr a 7) in
  let c := word64 w (i - 2) in
  let s1 := Z.lxor (Z.lxor (rotate_right 19 c) (rotate_right 61 c)) (Z.shiftr c 6) in
  wrapping_add (wrapping_add (wrapping_add (word64 w (i - 16)) s0) (word64 w (i - 7))) s1.
Definition schedule512 (block : bytes) : list Z :=
  let w16 := (λ i, be_val (take 8 (drop (i * 8) block))) <$> seq 0 16 in
  fold_left (λ w i, w ++ [schedule512_word w i]) (seq 16 64) w16.

(** One round on the eight working variables. *)
Definition round512 (v : list Z) (k w : Z) : list Z :=
  match v with
  | [a; b; c; d; e; f; g; hh] =>
      let s1 := Z.lxor (Z.lxor (rotate_right 14 e) (rotate_right 18 e)) (rotate_right 41 e) in
      let ch := Z.lxor (Z.land e f) (Z.land (not64 e) g) in
      let t1 := wrapping_add (wrapping_add (wrapping_add (wrapping_add hh s1) ch) k) w in
      let s0 := Z.lxor (Z.lxor (rotate_right 28 a) (rotate_right 34 a)) (rotate_right 39 a) in
      let maj := Z.lxor (Z.lxor (Z.land a b) (Z.land a c)) (Z.land b c) in
      let t2 := wrapping_add s0 maj in
      [wrapping_add t1 t2; a; b; c; wrapping_add d t1; e; f; g]
  | _ => v
  end.
Definition compress512 (h : list Z) (block : bytes) : list Z :=
  let w := schedule512 block in
  zip_with wrapping_add h (fold_left (λ v i, round512 v (word64 K512 i) (word64 w i)) (seq 0 80) h).

(** [while msg.len() % 128 != 112 { msg.push(0) }], with fuel. *)
Fixpoint pad_zeros (fuel : nat) (msg : bytes) : option bytes :=
  match fuel with
  | O => None
  | S fuel => if negb (length msg mod 128 =? 112)%nat then pad_zeros fuel (msg ++ [0]) else Some msg
  end.
(** A padding that does not end would not return; 128 iterations are always enough. *)
Definition pad512 (data : bytes) : option bytes :=
  let bitlen := (Z.of_nat (length data) * 8) mod 2 ^ 128 in
  (λ msg, msg ++ be_bytes 16 bitlen) <$> pad_zeros 128 (data ++ [0x80]).
Definition sha512 (data : bytes) : bytes :=
  let msg := default [] (pad512 data) in
  let h := fold_left compress512 (chunks_exact 128 msg) H512 in
  flat_map (be_bytes 8) h.

(** ** The padding of FIPS 180-4, section 5.1.2 *)

(** [k], the number of zero bytes: the smallest that leaves 16 bytes of the last block. *)
Definition zero_count (len : nat) : nat := ((240 - (len + 1) mod 128) mod 128)%nat.
Definition fips_pad (data : bytes) : bytes :=
  data ++ [0x80] ++ replicate (zero_count (length data)) 0 ++ be_bytes 16 (Z.of_nat (length data) * 8).

Lemma pad_zeros_runs k fuel msg : (k < fuel)%nat → ((length msg + k) mod 128 = 112)%nat →
  (∀ i, (i < k)%nat → ((length msg + i) mod 128 ≠ 112)%nat) → pad_zeros fuel msg = Some (msg ++ replicate k 0).
Proof.
  revert fuel msg. induction k as [|k IH]; intros [|fuel] msg Hf Hk Hi; cbn [pad_zeros]; try lia.
  - rewrite Nat.add_0_r in Hk. rewrite Hk. cbn. by rewrite app_nil_r.
  - specialize (Hi 0%nat ltac:(lia)) as H0. rewrite Nat.add_0_r in H0.
    rewrite (proj2 (Nat.eqb_neq _ _) H0). cbn [negb]. rewrite IH.
    + by rewrite <-app_assoc.
    + lia.
    + rewrite length_app. cbn. by rewrite <-Nat.add_assoc.
    + intros i Hlt. rewrite length_app. cbn. rewrite <-Nat.add_assoc. apply (Hi (S i)). lia.
Qed.

Lemma zero_count_ok len : let k := zero_count len in
  ((len + 1 + k) mod 128 = 112 ∧ k < 128 ∧ ∀ i, i < k → (len + 1 + i) mod 128 ≠ 112)%nat.
Proof.
  unfold zero_count. cbv zeta. pose proof (Nat.div_mod_eq (len + 1) 128) as E.
  pose proof (Nat.mod_upper_bound (len + 1) 128 ltac:(lia)) as Hr.
  set (q := ((len + 1) / 128)%nat) in *. set (r := ((len + 1) mod 128)%nat) in *. clearbody q r.
  pose proof (Nat.div_mod_eq (240 - r) 128) as E2. pose proof (Nat.mod_upper_bound (240 - r) 128 ltac:(lia)) as Hr2.
  set (k := ((240 - r) mod 128)%nat) in *. set (q2 := ((240 - r) / 128)%nat) in *. clearbody k q2.
  assert (∀ i, (len + 1 + i) mod 128 = (r + i) mod 128)%nat as Em.
  { intros i. rewrite E. replace (128 * q + r + i)%nat with (r + i + q * 128)%nat by lia. apply Nat.Div0.mod_add. }
  assert (∀ n, (n < 256)%nat → (n mod 128 = if decide (n < 128) then n else n - 128)%nat) as Hmod.
  { intros n Hn. case_decide; [by apply Nat.mod_small|]. replace n with (n - 128 + 1 * 128)%nat at 1 by lia.
    rewrite Nat.Div0.mod_add. apply Nat.mod_small. lia. }
  split; [|split; [lia|]].
  - rewrite Em, Hmod by lia. case_decide; lia.
  - intros i Hi. rewrite Em, Hmod by lia. case_decide; lia.
Qed.

Lemma pad512_fips data : Z.of_nat (length data) * 8 < 2 ^ 128 → pad512 data = Some (fips_pad data).
Proof.
  intros Hl. destruct (zero_count_ok (length data)) as (H1 & H2 & H3). unfold pad512, fips_pad. cbv zeta.
  rewrite (pad_zeros_runs (zero_count (length data))).
  - cbn [fmap option_fmap option_map]. rewrite Z.mod_small by lia. by rewrite <-!app_assoc.
  - done.
  - by rewrite length_app.
  - intros i Hi. rewrite length_app. by apply H3.
Qed.

Lemma round512_length v k w : length (round512 v k w) = length v.
Proof. unfold round512. by do 9 (destruct v as [|? v]; [done|]). Qed.
Lemma compress512_length h block : length (compress512 h block) = length h.
Proof.
  unfold compress512. rewrite length_zip_with. generalize (seq 0 80). intros is_.
  assert (∀ v, length (fold_left (λ v i, round512 v (word64 K512 i) (word64 (schedule512 block) i)) is_ v) = length v) as ->.
  { induction is_ as [|i is_ IH]; intros v; cbn [fold_left]; [done|]. by rewrite IH, round512_length. }
  apply Nat.min_id.
Qed.

Lemma flat_map_be l : length (flat_map (be_bytes 8) l) = (length l * 8)%nat ∧ bytes_ok (flat_map (be_bytes 8) l).
Proof.
  induction l as [|x l [IH1 IH2]]; cbn [flat_map]; [split; [done|constructor]|].
  rewrite length_app, IH1, be_bytes_length. split; [cbn; lia|]. apply Forall_app. split; [apply be_bytes_ok|done].
Qed.
(** A digest is 64 bytes. *)
Lemma sha512_bytes data : length (sha512 data) = 64%nat ∧ bytes_ok (sha512 data).
Proof.
  unfold sha512. cbv zeta. generalize (chunks_exact 128 (default [] (pad512 data))). intros bs.
  assert (∀ h, length (fold_left compress512 bs h) = length h) as Hl.
  { induction bs as [|b bs IH]; intros h; cbn [fold_left]; [done|]. by rewrite IH, compress512_length. }
  destruct (flat_map_be (fold_left compress512 bs H512)) as [H1 H2]. rewrite Hl in H1. split; [exact H1|exact H2].
Qed.
