(* ===== verification/Ed25519.v ===== *)
(** Ed25519 signatures ([reticulum-core/src/ed25519.rs]): points in extended coordinates
    over the limbs of [Field25519], signing and verification, shown to compute the
    functions of RFC 8032 on residues. *)
From S2P Require Import Prelude Field25519 X25519 Scalar25519 Sha512.

Definition GF0 : Gf := [0; 0; 0; 0; 0; 0; 0; 0; 0; 0; 0; 0; 0; 0; 0; 0].
Definition GF1 : Gf := [1; 0; 0; 0; 0; 0; 0; 0; 0; 0; 0; 0; 0; 0; 0; 0].
Definition D : Gf :=
  [0x78a3; 0x1359; 0x4dca; 0x75eb; 0xd8ab; 0x4141; 0x0a4d; 0x0070; 0xe898; 0x7779; 0x4079; 0x8cc7;
   0xfe73; 0x2b6f; 0x6cee; 0x5203].
Definition D2 : Gf :=
  [0xf159; 0x26b2; 0x9b94; 0xebd6; 0xb156; 0x8283; 0x149a; 0x00e0; 0xd130; 0xeef3; 0x80f2; 0x198e;
   0xfce7; 0x56df; 0xd9dc; 0x2406].
Definition X : Gf :=
  [0xd51a; 0x8f25; 0x2d60; 0xc956; 0xa7b2; 0x9525; 0xc760; 0x692c; 0xdc5c; 0xfdd6; 0xe231; 0xc0a4;
   0x53fe; 0xcd6e; 0x36d3; 0x2169].
Definition Y : Gf :=
  [0x6658; 0x6666; 0x6666; 0x6666; 0x6666; 0x6666; 0x6666; 0x6666; 0x6666; 0x6666; 0x6666; 0x6666;
   0x6666; 0x6666; 0x6666; 0x6666].
(** [sqrt(-1)] *)
Definition I : Gf :=
  [0xa0b0; 0x4a0e; 0x1b27; 0xc4ee; 0xe478; 0xad2f; 0x1806; 0x2f43; 0xd7a7; 0x3dfb; 0x0099; 0x2b4d;
   0xdf0b; 0x4fc1; 0x2480; 0x2b83].

(** [[Gf; 4]]: (X, Y, Z, T). *)
Definition Point : Type := Gf * Gf * Gf * Gf.

Definition point_add (p q : Point) : Point :=
  let '(p0, p1, p2, p3) := p in
  let '(q0, q1, q2, q3) := q in
  let a := mul (sub p1 p0) (sub q1 q0) in
  let b := mul (add p0 p1) (add q0 q1) in
  let c := mul (mul p3 q3) D2 in
  let zz := mul p2 q2 in
  let d := add zz zz in
  let e := sub b a in
  let f := sub d c in
  let g := add d c in
  let h := add b a in
  (mul e f, mul h g, mul g f, mul e h).

Definition point_cswap (p q : Point) (b : Z) : Point * Point :=
  let '(p0, p1, p2, p3) := p in
  let '(q0, q1, q2, q3) := q in
  let '(p0, q0) := sel25519 p0 q0 b in
  let '(p1, q1) := sel25519 p1 q1 b in
  let '(p2, q2) := sel25519 p2 q2 b in
  let '(p3, q3) := sel25519 p3 q3 b in
  ((p0, p1, p2, p3), (q0, q1, q2, q3)).

Definition par25519 (a : Gf) : Z := Z.land (nth 0 (pack25519 a) 0) 1.
Definition neq25519 (a b : Gf) : bool := negb (bool_decide (pack25519 a = pack25519 b)).

Definition pack_point (p : Point) : bytes :=
  let '(p0, p1, p2, _) := p in
  let zi := inv25519 p2 in
  let tx := mul p0 zi in
  let ty := mul p1 zi in
  alter (λ x, Z.lxor x (Z.shiftl (par25519 tx) 7 mod 256)) 31%nat (pack25519 ty).

Definition pow2523_step (input c : Gf) (a : nat) : Gf :=
  let c := sqr c in if negb (a =? 1)%nat then mul c input else c.
Definition pow2523 (input : Gf) : Gf := fold_left (pow2523_step input) (down 250) input.

Definition scalar_bit (s : bytes) (i : nat) : Z :=
  Z.land (Z.shiftr (nth (i / 8) s 0) (Z.of_nat (Nat.land i 7))) 1.
(** One iteration, on [(p, q)]. *)
Definition scalarmult_step (s : bytes) (st : Point * Point) (i : nat) : Point * Point :=
  let '(p, q) := st in
  let b := scalar_bit s i in
  let '(p, q) := point_cswap p q b in
  let pc := p in
  let q := point_add q pc in
  let p := point_add p pc in
  point_cswap p q b.
(** The second component is what is left in [q]. *)
Definition scalarmult (q : Point) (s : bytes) : Point * Point :=
  fold_left (scalarmult_step s) (down 255) ((GF0, GF1, GF1, GF0), q).
Definition scalarbase (s : bytes) : Point := (scalarmult (X, Y, GF1, mul X Y) s).1.

Definition unpackneg (p : bytes) : option Point :=
  let r1 := unpack25519 p in
  let r2 := GF1 in
  let num0 := sqr r1 in
  let den0 := mul num0 D in
  let num := sub num0 r2 in
  let den := add r2 den0 in
  let den2 := sqr den in
  let den4 := sqr den2 in
  let den6 := mul den4 den2 in
  let t := mul den6 num in
  let t := mul t den in
  let t := pow2523 t in
  let t := mul t num in
  let t := mul t den in
  let t := mul t den in
  let r0 := mul t den in
  let chk := mul (sqr r0) den in
  let r0 := if neq25519 chk num then mul r0 I else r0 in
  let chk := mul (sqr r0) den in
  if neq25519 chk num then None else
  let r0 := if par25519 r0 =? Z.shiftr (nth 31 p 0) 7 then sub GF0 r0 else r0 in
  Some (r0, r1, r2, mul r0 r1).

(** The digits of [r + h * a], accumulated byte by byte. *)
Definition sign_row (h a : bytes) (x : list Z) (i : nat) : list Z :=
  fold_left (λ x j, alter (λ y, i64 (y + i64 (limb h i * limb a j))) (i + j)%nat x) (seq 0 32) x.
Definition sign_digits (r h a : bytes) : list Z :=
  let x := fold_left (λ x i, <[i := limb r i]> x) (seq 0 32) (replicate 64 0) in
  fold_left (sign_row h a) (seq 0 32) x.

Definition sign (seed public_key message : bytes) : bytes :=
  let d := sha512 seed in
  let a := take 32 d in
  let a := alter (λ x, Z.land x 248) 0%nat a in
  let a := alter (λ x, Z.land x 127) 31%nat a in
  let a := alter (λ x, Z.lor x 64) 31%nat a in
  let r := reduce (sha512 (drop 32 d ++ message)) in
  let big_r := pack_point (scalarbase r) in
  let h := reduce (sha512 (big_r ++ public_key ++ message)) in
  let s := modl (sign_digits r h a) in
  big_r ++ s.

Definition verify (public_key message signature : bytes) : bool :=
  match unpackneg public_key with
  | None => false
  | Some q =>
      let preimage := take 32 signature ++ public_key ++ message in
      let h := reduce (sha512 preimage) in
      let p := (scalarmult q h).1 in
      let s := drop 32 signature in
      let sb := scalarbase s in
      let p := point_add p sb in
      let t := pack_point p in
      bool_decide (t = take 32 signature)
  end.

(** ** The reference: RFC 8032, section 5.1, on residues *)

Definition ed_d : Z := 0x52036cee2b6ffe738cc740797779e89800700a4d4141d8ab75eb4dca135978a3.
Definition sqrt_m1 : Z := 0x2b8324804fc1df0b2b4d00993dfbd7a72f431806ad2fe478c4ee1b274a0ea0b0.
Definition base_x : Z := 0x216936d3cd6e53fec0a4e231fdd6dc5c692cc7609525a7b2c9562d608f25d51a.
Definition base_y : Z := 0x6666666666666666666666666666666666666666666666666666666666666658.

(** (X, Y, Z, T) *)
Definition ext : Type := Z * Z * Z * Z.

(** Section 5.1.4. *)
Definition ed_add (p q : ext) : ext :=
  let '(X1, Y1, Z1, T1) := p in
  let '(X2, Y2, Z2, T2) := q in
  let A := (Y1 - X1) * (Y2 - X2) in
  let B := (Y1 + X1) * (Y2 + X2) in
  let C := T1 * 2 * ed_d * T2 in
  let D := Z1 * 2 * Z2 in
  let E := B - A in
  let F := D - C in
  let G := D + C in
  let H := B + A in
  (E * F mod p25519, G * H mod p25519, F * G mod p25519, E * H mod p25519).
Definition ed_zero : ext := (0, 1, 1, 0).
Definition ed_base : ext := (base_x, base_y, 1, base_x * base_y mod p25519).
(** The point a ladder over the bits of [k], from bit [n - 1] down, computes from [(p, q)]:
    the pair always differs by the base. *)
Fixpoint ed_ladder (k : Z) (n : nat) (p q : ext) : ext :=
  match n with
  | O => p
  | S n => if Z.testbit k (Z.of_nat n) then ed_ladder k n (ed_add p q) (ed_add q q)
           else ed_ladder k n (ed_add p p) (ed_add q p)
  end.
Definition ed_mul (k : Z) (q : ext) : ext := ed_ladder k 256 ed_zero q.

(** Section 5.1.2: the y coordinate, and the low bit of x in the top bit. *)
Definition ed_compress (p : ext) : bytes :=
  let '(X, Y, Z, _) := p in
  let zi := Z ^ (p25519 - 2) in
  let x := X * zi mod p25519 in
  let y := Y * zi mod p25519 in
  le_bytes 32 (y + 2 ^ 255 * (x mod 2)).

(** Section 5.1.3: the square root of [u / v], when there is one. *)
Definition ed_sqrt_ratio (u v : Z) : option Z :=
  let x := u * v ^ 3 * (u * v ^ 7) ^ ((p25519 - 5) / 8) in
  if decide ((v * x ^ 2) mod p25519 = u mod p25519) then Some (x mod p25519)
  else if decide ((v * (x * sqrt_m1) ^ 2) mod p25519 = u mod p25519) then Some (x * sqrt_m1 mod p25519)
  else None.
(** The negated point of an encoding.  The value of [y] is not required to be reduced. *)
Definition ed_decompress_neg (b : bytes) : option ext :=
  let y := le_val b mod 2 ^ 255 in
  let sign := le_val b / 2 ^ 255 in
  x ← ed_sqrt_ratio (y ^ 2 - 1) (ed_d * y ^ 2 + 1);
  let x := if decide (x mod 2 = sign) then (- x) mod p25519 else x in
  Some (x, y, 1, x * y mod p25519).

(** Sections 5.1.6 and 5.1.7, on a 64-byte signature.  [s] is not required to be reduced. *)
Definition ed_sign (seed public_key message : bytes) : bytes :=
  let d := sha512 seed in
  let a := le_val (clamp (take 32 d)) in
  let r := le_val (sha512 (drop 32 d ++ message)) mod order in
  let R := ed_compress (ed_mul r ed_base) in
  let k := le_val (sha512 (R ++ public_key ++ message)) mod order in
  R ++ le_bytes 32 ((r + k * a) mod order).
Definition ed_verify (public_key message signature : bytes) : bool :=
  match ed_decompress_neg public_key with
  | None => false
  | Some minus_A =>
      let R := take 32 signature in
      let s := le_val (drop 32 signature) in
      let k := le_val (sha512 (R ++ public_key ++ message)) mod order in
      bool_decide (ed_compress (ed_add (ed_mul k minus_A) (ed_mul s ed_base)) = R)
  end.

(** ** The limbs compute the reference *)

(** An operand a multiplication takes: limbs within [2^20]. *)
Definition fits (l : Gf) (v : Z) : Prop := within (2 ^ 20) l ∧ gval l ≡p v.
Lemma represents_fits l v : represents l v → fits l v.
Proof. intros [H E]. split; [eapply within_weaken; [|exact H]; lia|done]. Qed.
Lemma represents2_fits l v : represents2 l v → fits l v.
Proof. intros H. by apply represents_fits, represents2_1. Qed.
Lemma mul_fits a b v w : fits a v → fits b w → represents2 (mul a b) (v * w).
Proof.
  intros [Ha Ea] [Hb Eb]. destruct (mul_ok a b Ha Hb) as [H1 H2]. split; [by apply carried_within|]. by rewrite H2, Ea, Eb.
Qed.
Lemma add_fits a b v w : represents a v → represents2 b w → fits (add a b) (v + w).
Proof.
  intros [Ha Ea] [Hb Eb]. destruct (add_ok _ _ a b Ha Hb) as [H1 H2]; [lia|].
  split; [eapply within_weaken; [|exact H1]; lia|]. by rewrite H2, Ea, Eb.
Qed.
Lemma sub_fits a b v w : represents a v → represents2 b w → fits (sub a b) (v - w).
Proof.
  intros [Ha Ea] [Hb Eb]. destruct (sub_ok _ _ a b Ha Hb) as [H1 H2]; [lia|].
  split; [eapply within_weaken; [|exact H1]; lia|]. by rewrite H2, Ea, Eb.
Qed.
Lemma feq_mod v : v mod p25519 ≡p v.
Proof. unfold feq. by rewrite Z.mod_mod. Qed.

Ltac const_rep := apply digits_rep; [repeat (constructor; [unfold in_digit, radix; lia|]); constructor|reflexivity|vm_compute; reflexivity].
Lemma GF0_rep : represents2 GF0 0. Proof. const_rep. Qed.
Lemma GF1_rep : represents2 GF1 1. Proof. const_rep. Qed.
Lemma X_rep : represents2 X base_x. Proof. const_rep. Qed.
Lemma Y_rep : represents2 Y base_y. Proof. const_rep. Qed.
Lemma D_rep : represents2 D ed_d. Proof. const_rep. Qed.
Lemma I_rep : represents2 I sqrt_m1. Proof. const_rep. Qed.
Lemma D2_rep : represents2 D2 (2 * ed_d).
Proof.
  apply (represents_feq D2 (gval D2)); [|vm_compute; reflexivity].
  apply digits_rep; [repeat (constructor; [unfold in_digit, radix; lia|]); constructor|reflexivity|reflexivity].
Qed.

Definition point_rep (p : Point) (e : ext) : Prop :=
  let '(p0, p1, p2, p3) := p in let '(X, Y, Z, T) := e in
  represents2 p0 X ∧ represents2 p1 Y ∧ represents2 p2 Z ∧ represents2 p3 T.

#[local] Opaque mul add sub sqr.

Lemma point_add_rep p q e f : point_rep p e → point_rep q f → point_rep (point_add p q) (ed_add e f).
Proof.
  destruct p as [[[p0 p1] p2] p3], q as [[[q0 q1] q2] q3], e as [[[X1 Y1] Z1] T1], f as [[[X2 Y2] Z2] T2].
  intros (Hx1 & Hy1 & Hz1 & Ht1) (Hx2 & Hy2 & Hz2 & Ht2). unfold point_add, ed_add, point_rep. cbv zeta.
  pose proof (mul_rep _ _ _ _ (sub_rep _ _ _ _ Hy1 Hx1) (sub_rep _ _ _ _ Hy2 Hx2)) as HA.
  pose proof (mul_rep _ _ _ _ (add_rep _ _ _ _ Hx1 Hy1) (add_rep _ _ _ _ Hx2 Hy2)) as HB.
  pose proof (mul_fits _ _ _ _ (represents2_fits _ _ (mul_fits _ _ _ _ (represents2_fits _ _ Ht1) (represents2_fits _ _ Ht2)))
    (represents2_fits _ _ D2_rep)) as HC.
  pose proof (mul_fits _ _ _ _ (represents2_fits _ _ Hz1) (represents2_fits _ _ Hz2)) as Hzz.
  pose proof (add_rep _ _ _ _ Hzz Hzz) as HD.
  pose proof (represents_fits _ _ (sub_rep _ _ _ _ HB HA)) as HE. pose proof (sub_fits _ _ _ _ HD HC) as HF.
  pose proof (add_fits _ _ _ _ HD HC) as HG. pose proof (represents_fits _ _ (add_rep _ _ _ _ HB HA)) as HH.
  split_and!; (eapply represents_feq; [eapply mul_fits; eassumption|]); rewrite feq_mod; unfold feq; f_equal; ring.
Qed.

Lemma point_cswap_rep (r : bool) p q e f : point_rep p e → point_rep q f →
  point_cswap p q (Z.b2z r) = cswap r (p, q).
Proof.
  destruct p as [[[p0 p1] p2] p3], q as [[[q0 q1] q2] q3], e as [[[X1 Y1] Z1] T1], f as [[[X2 Y2] Z2] T2].
  intros (Hx1 & Hy1 & Hz1 & Ht1) (Hx2 & Hy2 & Hz2 & Ht2). unfold point_cswap.
  rewrite (sel_rep r p0 q0 X1 X2), (sel_rep r p1 q1 Y1 Y2), (sel_rep r p2 q2 Z1 Z2), (sel_rep r p3 q3 T1 T2) by done.
  by destruct r.
Qed.

Lemma scalar_bit_ok s i : bytes_ok s → (i < 256)%nat → length s = 32%nat →
  scalar_bit s i = Z.b2z (Z.testbit (le_val s) (Z.of_nat i)).
Proof.
  intros Hs Hi Ls. rewrite <-bit_ok by done. unfold scalar_bit, bit. rewrite Nat.shiftr_div_pow2. done.
Qed.

Lemma scalarmult_step_rep s p q e f i k : point_rep p e → point_rep q f →
  scalar_bit s i = Z.b2z (Z.testbit k (Z.of_nat i)) →
  let r := scalarmult_step s (p, q) i in let b := Z.testbit k (Z.of_nat i) in
  point_rep r.1 (if b then ed_add e f else ed_add e e) ∧ point_rep r.2 (if b then ed_add f f else ed_add f e).
Proof.
  intros Hp Hq Hb. unfold scalarmult_step. rewrite Hb. destruct (Z.testbit k (Z.of_nat i)); cbv zeta.
  - rewrite (point_cswap_rep true p q e f) by done. cbn [cswap fst snd].
    pose proof (point_add_rep _ _ _ _ Hp Hq) as H1. pose proof (point_add_rep _ _ _ _ Hq Hq) as H2.
    rewrite (point_cswap_rep true _ _ _ _ H2 H1). split; [exact H1|exact H2].
  - rewrite (point_cswap_rep false p q e f) by done. cbn [cswap fst snd].
    pose proof (point_add_rep _ _ _ _ Hq Hp) as H1. pose proof (point_add_rep _ _ _ _ Hp Hp) as H2.
    rewrite (point_cswap_rep false _ _ _ _ H2 H1). split; [exact H2|exact H1].
Qed.

Lemma scalarmult_loop s k n p q e f : point_rep p e → point_rep q f →
  (∀ i, (i < n)%nat → scalar_bit s i = Z.b2z (Z.testbit k (Z.of_nat i))) →
  point_rep (fold_left (scalarmult_step s) (rev (seq 0 n)) (p, q)).1 (ed_ladder k n e f).
Proof.
  revert p q e f. induction n as [|n IH]; intros p q e f Hp Hq Hb; [exact Hp|].
  rewrite down_step. cbn [Nat.add ed_ladder].
  destruct (scalarmult_step_rep s p q e f n k Hp Hq (Hb n ltac:(lia))) as [H1 H2].
  destruct (scalarmult_step s (p, q) n) as [p' q']. cbn [fst snd] in H1, H2.
  destruct (Z.testbit k (Z.of_nat n)); (apply IH; [exact H1|exact H2|intros; apply Hb; lia]).
Qed.
Lemma scalarmult_rep s q f : bytes_ok s → length s = 32%nat → point_rep q f →
  point_rep (scalarmult q s).1 (ed_mul (le_val s) f).
Proof.
  intros Hs Ls Hq. apply scalarmult_loop; [|exact Hq|].
  - split; [exact GF0_rep|]. split; [exact GF1_rep|]. split; [exact GF1_rep|exact GF0_rep].
  - intros i Hi. by apply scalar_bit_ok.
Qed.
Lemma scalarbase_rep s : bytes_ok s → length s = 32%nat → point_rep (scalarbase s) (ed_mul (le_val s) ed_base).
Proof.
  intros Hs Ls. apply scalarmult_rep; [done|done|]. split; [exact X_rep|]. split; [exact Y_rep|]. split; [exact GF1_rep|].
  eapply represents_feq; [apply mul_fits; apply represents2_fits; [exact X_rep|exact Y_rep]|]. by rewrite feq_mod.
Qed.

(** ** Encodings *)
Lemma le_bytes_app n m v : le_bytes (n + m) v = le_bytes n v ++ le_bytes m (v / 256 ^ Z.of_nat n).
Proof.
  revert v. induction n as [|n IH]; intros v; cbn [Nat.add le_bytes app]; [by rewrite Z.div_1_r|].
  rewrite IH. do 2 f_equal. rewrite pow256_succ, Z.div_div by (try apply pow256_pos; lia). done.
Qed.
Lemma le_bytes_length n v : length (le_bytes n v) = n.
Proof. revert v. induction n as [|n IH]; intros v; cbn; [done|by rewrite IH]. Qed.
Lemma le_bytes_ok n v : bytes_ok (le_bytes n v).
Proof.
  revert v. induction n as [|n IH]; intros v; cbn [le_bytes]; constructor; [|apply IH].
  apply Z.mod_pos_bound. lia.
Qed.
Lemma le_val_bytes n v : le_val (le_bytes n v) = v mod 256 ^ Z.of_nat n.
Proof.
  revert v. induction n as [|n IH]; intros v; cbn [le_bytes le_val]; [by rewrite Z.mod_1_r|].
  rewrite IH, pow256_succ, Z.rem_mul_r by (try apply Z.pow_nonzero; try apply pow256_pos; lia). done.
Qed.
Lemma le_bytes_inj n v w : 0 ≤ v < 256 ^ Z.of_nat n → 0 ≤ w < 256 ^ Z.of_nat n → le_bytes n v = le_bytes n w → v = w.
Proof. intros Hv Hw E%(f_equal le_val). rewrite !le_val_bytes, !Z.mod_small in E by done. exact E. Qed.

Lemma p25519_byte : p25519 < 128 * 256 ^ 31.
Proof. vm_compute. reflexivity. Qed.
Lemma pow_255 : 2 ^ 255 = 256 ^ 31 * 128.
Proof. vm_compute. reflexivity. Qed.
Lemma p25519_pos : 0 < p25519.
Proof. vm_compute. reflexivity. Qed.
Lemma p25519_256 : p25519 < 256 ^ Z.of_nat 32.
Proof. vm_compute. reflexivity. Qed.

(** The sign bit, written over a canonical encoding. *)
Lemma sign_bit y b : 0 ≤ y < p25519 → b = 0 ∨ b = 1 →
  alter (λ x, Z.lxor x (Z.shiftl b 7 mod 256)) 31%nat (le_bytes 32 y) = le_bytes 32 (y + 2 ^ 255 * b).
Proof.
  intros Hy Hb. pose proof p25519_byte as Hp. rewrite pow_255. replace (256 ^ 31 * 128 * b) with (256 ^ Z.of_nat 31 * (128 * b)) by (change (Z.of_nat 31) with 31; ring).
  change 32%nat with (31 + 1)%nat. rewrite !le_bytes_app, le_bytes_shift. change (le_bytes 1 ?v) with [v mod 256].
  rewrite alter_middle by (by rewrite le_bytes_length). do 2 f_equal. change (Z.of_nat 31) with 31.
  assert (0 < 256 ^ 31) as Hpos by (vm_compute; done). 
  assert (0 ≤ y / 256 ^ 31 < 128) as Ht.
  { split; [apply Z.div_pos; lia|]. apply Z.div_lt_upper_bound; lia. }
  rewrite (Z.mul_comm _ (128 * b)), Z.div_add by lia. set (t := y / 256 ^ 31) in *. clearbody t.
  rewrite (Z.mod_small t), (Z.mod_small (t + 128 * b)) by lia. destruct Hb as [-> | ->]; [by rewrite Z.lxor_0_r, Z.add_0_r|].
  change (Z.shiftl 1 7 mod 256) with (2 ^ 7). rewrite Z.add_comm. change (128 * 1) with (2 ^ 7).
  rewrite Z.add_nocarry_lxor, Z.lxor_comm; [done|]. 
  apply Z.bits_inj'. intros n Hn. rewrite Z.land_spec, Z.bits_0, Z.pow2_bits_eqb by lia.
  destruct (Z.eqb_spec 7 n) as [<-|]; [|done]. cbn [andb]. apply Z.bits_above_log2; [lia|].
  destruct (decide (t = 0)) as [->|]; [cbn; lia|]. apply Z.log2_lt_pow2; lia.
Qed.

Lemma pack_rep l v : fits l v → pack25519 l = le_bytes 32 (v mod p25519).
Proof. intros [H E]. rewrite pack25519_ok by (eapply within_weaken; [|exact H]; lia). f_equal. exact E. Qed.
Lemma par_rep l v : fits l v → par25519 l = (v mod p25519) mod 2.
Proof.
  intros H. unfold par25519. rewrite (pack_rep l v H). cbn [le_bytes nth]. change 1 with (2 ^ 1 - 1).
  rewrite land_mask by lia. change (2 ^ 1) with 2. apply Z.mod_mod_divide. by exists 128.
Qed.
Lemma neq_rep a b v w : fits a v → fits b w → neq25519 a b = negb (bool_decide (v mod p25519 = w mod p25519)).
Proof.
  intros Ha Hb. unfold neq25519. rewrite (pack_rep a v Ha), (pack_rep b w Hb). f_equal. apply bool_decide_ext.
  split; [|by intros ->]. pose proof p25519_pos. pose proof p25519_256.
  pose proof (Z.mod_pos_bound v p25519 ltac:(lia)). pose proof (Z.mod_pos_bound w p25519 ltac:(lia)).
  intros E. apply (le_bytes_inj 32) in E; [exact E|lia..].
Qed.
Lemma inv_rep l v : represents2 l v → fits (inv25519 l) (v ^ (p25519 - 2)).
Proof.
  intros [H E]. destruct (inv25519_ok l) as [H1 H2]; [eapply within_weaken; [|exact H]; lia|]. split; [done|].
  rewrite H2. apply feq_pow; [vm_compute; done|done].
Qed.

Lemma pack_point_rep p e : point_rep p e → pack_point p = ed_compress e.
Proof.
  destruct p as [[[p0 p1] p2] p3], e as [[[X1 Y1] Z1] T1]. intros (Hx & Hy & Hz & _). unfold pack_point, ed_compress. cbv zeta.
  pose proof (inv_rep _ _ Hz) as Hi. set (zi := Z1 ^ (p25519 - 2)) in *. clearbody zi.
  pose proof (mul_fits _ _ _ _ (represents2_fits _ _ Hx) Hi) as Htx.
  pose proof (mul_fits _ _ _ _ (represents2_fits _ _ Hy) Hi) as Hty.
  rewrite (par_rep _ _ (represents2_fits _ _ Htx)), (pack_rep _ _ (represents2_fits _ _ Hty)). pose proof p25519_pos.
  apply sign_bit; [apply Z.mod_pos_bound; done|].
  pose proof (Z.mod_pos_bound ((X1 * zi) mod p25519) 2 ltac:(lia)). lia.
Qed.

(** ** Square roots *)
Definition pow2523_exp (e : Z) (a : nat) : Z := if negb (a =? 1)%nat then 2 * e + 1 else 2 * e.
Lemma pow2523_loop x v as_ c e : fits x v → fits c (v ^ e) → 0 < e →
  fits (fold_left (pow2523_step x) as_ c) (v ^ fold_left pow2523_exp as_ e).
Proof.
  intros Hx. revert c e. induction as_ as [|a as_ IH]; intros c e Hc He; cbn [fold_left]; [exact Hc|].
  assert (represents2 (sqr c) (v ^ (2 * e))) as Hs.
  { replace (v ^ (2 * e)) with (v ^ e * v ^ e) by (rewrite <-Z.pow_add_r by lia; f_equal; lia). exact (mul_fits _ _ _ _ Hc Hc). }
  apply IH; unfold pow2523_step, pow2523_exp; destruct (negb (a =? 1)%nat); [|apply represents2_fits, Hs|lia..].
  rewrite Z.pow_add_r, Z.pow_1_r by lia. apply represents2_fits, mul_fits; [apply represents2_fits, Hs|exact Hx].
Qed.
Lemma pow2523_exponent : fold_left pow2523_exp (down 250) 1 = (p25519 - 5) / 8.
Proof. vm_compute. reflexivity. Qed.
Lemma pow2523_rep x v : fits x v → fits (pow2523 x) (v ^ ((p25519 - 5) / 8)).
Proof.
  intros Hx. rewrite <-pow2523_exponent. unfold pow2523. apply pow2523_loop; [done|by rewrite Z.pow_1_r|lia].
Qed.

Lemma rep_eq l v w : represents2 l v → v = w → represents2 l w.
Proof. by intros H <-. Qed.
Lemma fits_eq l v w : fits l v → v = w → fits l w.
Proof. by intros H <-. Qed.
Lemma rep_mod l v : represents2 l v → represents2 l (v mod p25519).
Proof. intros H. eapply represents_feq; [exact H|]. by rewrite feq_mod. Qed.

(** The candidate root of [num / den]. *)
Definition root_candidate (num den : Gf) : Gf :=
  let den2 := sqr den in
  let den4 := sqr den2 in
  let den6 := mul den4 den2 in
  let t := pow2523 (mul (mul den6 num) den) in
  mul (mul (mul (mul t num) den) den) den.
Lemma root_candidate_rep num den u v : fits num u → fits den v →
  represents2 (root_candidate num den) (u * v ^ 3 * (u * v ^ 7) ^ ((p25519 - 5) / 8)).
Proof.
  intros Hu Hv. unfold root_candidate. cbv zeta.
  pose proof (mul_fits _ _ _ _ Hv Hv) as H2. pose proof (mul_fits _ _ _ _ (represents2_fits _ _ H2) (represents2_fits _ _ H2)) as H4.
  pose proof (mul_fits _ _ _ _ (represents2_fits _ _ H4) (represents2_fits _ _ H2)) as H6.
  pose proof (mul_fits _ _ _ _ (represents2_fits _ _ (mul_fits _ _ _ _ (represents2_fits _ _ H6) Hu)) Hv) as H7.
  assert (represents2 (mul (mul (mul (sqr (sqr den)) (sqr den)) num) den) (u * v ^ 7)) as H7' by (eapply rep_eq; [exact H7|ring]).
  pose proof (pow2523_rep _ _ (represents2_fits _ _ H7')) as Hp. set (w := (u * v ^ 7) ^ _) in *. clearbody w.
  pose proof (mul_fits _ _ _ _ Hp Hu) as K1. pose proof (mul_fits _ _ _ _ (represents2_fits _ _ K1) Hv) as K2.
  pose proof (mul_fits _ _ _ _ (represents2_fits _ _ K2) Hv) as K3. pose proof (mul_fits _ _ _ _ (represents2_fits _ _ K3) Hv) as K4.
  eapply rep_eq; [exact K4|ring].
Qed.

(** The root, corrected by [sqrt(-1)] when its square is the opposite. *)
Definition unpack_root (num den : Gf) : option Gf :=
  let r0 := root_candidate num den in
  let r0 := if neq25519 (mul (sqr r0) den) num then mul r0 I else r0 in
  if neq25519 (mul (sqr r0) den) num then None else Some r0.
Lemma chk_rep r0 den num x u v : represents2 r0 x → fits num u → fits den v →
  neq25519 (mul (sqr r0) den) num = negb (bool_decide ((v * x ^ 2) mod p25519 = u mod p25519)).
Proof.
  intros Hr Hu Hv. pose proof (mul_fits _ _ _ _ (represents2_fits _ _ Hr) (represents2_fits _ _ Hr)) as Hs.
  pose proof (mul_fits _ _ _ _ (represents2_fits _ _ Hs) Hv) as Hc.
  assert (represents2 (mul (sqr r0) den) (v * x ^ 2)) as Hc' by (eapply rep_eq; [exact Hc|ring]).
  exact (neq_rep _ _ _ _ (represents2_fits _ _ Hc') Hu).
Qed.
Lemma unpack_root_rep num den u v : fits num u → fits den v →
  match unpack_root num den, ed_sqrt_ratio u v with
  | Some r0, Some x => represents2 r0 x ∧ 0 ≤ x < p25519
  | None, None => True
  | _, _ => False
  end.
Proof.
  intros Hu Hv. pose proof (root_candidate_rep num den u v Hu Hv) as Hr. unfold unpack_root, ed_sqrt_ratio. cbv zeta.
  set (x := u * v ^ 3 * (u * v ^ 7) ^ _) in *. clearbody x. set (r0 := root_candidate num den) in *. clearbody r0.
  pose proof (mul_fits _ _ _ _ (represents2_fits _ _ Hr) (represents2_fits _ _ I_rep)) as HrI.
  pose proof p25519_pos as Hp. pose proof (chk_rep _ _ _ _ _ _ Hr Hu Hv) as E1. rewrite E1.
  pose proof (chk_rep _ _ _ _ _ _ HrI Hu Hv) as E2.
  destruct (decide ((v * x ^ 2) mod p25519 = u mod p25519)) as [Hd|Hd].
  - rewrite (bool_decide_eq_true_2 _ Hd) in *. cbn [negb] in *. rewrite E1. split; [by apply rep_mod|by apply Z.mod_pos_bound].
  - rewrite (bool_decide_eq_false_2 _ Hd) in *. cbn [negb] in *. rewrite E2.
    destruct (decide ((v * (x * sqrt_m1) ^ 2) mod p25519 = u mod p25519)) as [Hd'|Hd'].
    + rewrite (bool_decide_eq_true_2 _ Hd'). cbn [negb]. split; [by apply rep_mod|by apply Z.mod_pos_bound].
    + rewrite (bool_decide_eq_false_2 _ Hd'). cbn [negb]. exact Logic.I.
Qed.

Lemma top_bit b : length b = 32%nat → bytes_ok b → Z.shiftr (nth 31 b 0) 7 = le_val b / 2 ^ 255.
Proof.
  intros Lb Hb. rewrite pow_255, <-Z.div_div by (vm_compute; congruence || done).
  change 31 with (Z.of_nat 31). rewrite le_val_shift by done.
  destruct (lookup_lt_is_Some_2 b 31) as [x Hx]; [lia|]. rewrite (nth_lookup_Some _ _ _ _ Hx), (drop_S _ _ _ Hx).
  rewrite drop_ge by lia. cbn [le_val]. rewrite Z.shiftr_div_pow2 by lia. change (2 ^ 7) with 128. f_equal. lia.
Qed.

Lemma unpackneg_eq b : unpackneg b =
  (let r1 := unpack25519 b in let num := sub (sqr r1) GF1 in let den := add GF1 (mul (sqr r1) D) in
   r0 ← unpack_root num den;
   let r0 := if par25519 r0 =? Z.shiftr (nth 31 b 0) 7 then sub GF0 r0 else r0 in
   Some (r0, r1, GF1, mul r0 r1)).
Proof. unfold unpackneg, unpack_root, root_candidate. cbv zeta. by destruct (neq25519 (mul (sqr (if neq25519 _ _ then _ else _)) _) _). Qed.

Lemma neg_rep r0 x : represents2 r0 x → represents2 (sub GF0 r0) (- x).
Proof.
  intros [Hw Hx]. destruct (sub_ok 0 (2 ^ 17) GF0 r0) as [H1 H2]; [|done|lia|].
  - split; [done|]. repeat (constructor; [lia|]). constructor.
  - split; [exact H1|]. rewrite H2, Hx. done.
Qed.

Lemma unpackneg_rep b : length b = 32%nat → bytes_ok b →
  match unpackneg b, ed_decompress_neg b with
  | Some p, Some e => point_rep p e
  | None, None => True
  | _, _ => False
  end.
Proof.
  intros Lb Hb. destruct (unpack25519_ok b Lb Hb) as (Hd & Hl & Hv). pose proof (digits_rep _ _ Hd Hl Hv) as Hy.
  rewrite unpackneg_eq. unfold ed_decompress_neg. cbv zeta. set (y := le_val b mod 2 ^ 255) in *. set (r1 := unpack25519 b) in *.
  clearbody y r1. pose proof (mul_fits _ _ _ _ (represents2_fits _ _ Hy) (represents2_fits _ _ Hy)) as Hy2.
  assert (fits (sub (sqr r1) GF1) (y ^ 2 - 1)) as Hnum.
  { eapply fits_eq; [exact (represents_fits _ _ (sub_rep _ _ _ _ Hy2 GF1_rep))|ring]. }
  assert (fits (add GF1 (mul (sqr r1) D)) (ed_d * y ^ 2 + 1)) as Hden.
  { eapply fits_eq; [exact (represents_fits _ _ (add_rep _ _ _ _ GF1_rep (mul_fits _ _ _ _ (represents2_fits _ _ Hy2) (represents2_fits _ _ D_rep))))|ring]. }
  pose proof (unpack_root_rep _ _ _ _ Hnum Hden) as Hroot.
  destruct (unpack_root _ _) as [r0|], (ed_sqrt_ratio _ _) as [x|]; cbn [mbind option_bind]; try done.
  destruct Hroot as [Hr Hx]. rewrite (par_rep _ _ (represents2_fits _ _ Hr)), top_bit, (Z.mod_small x p25519) by done.
  assert (∀ (c : bool) P `{!Decision P}, (c = true ↔ P) → ∀ A (a b : A), (if decide P then a else b) = if c then a else b) as Hif.
  { intros c P HP Hc A a a'. destruct c; [rewrite decide_True by (by apply Hc)|rewrite decide_False by (by intros ?%Hc)]; done. }
  rewrite (Hif _ _ _ (Z.eqb_eq (x mod 2) (le_val b / 2 ^ 255))).
  assert (∀ (c : bool), represents2 (if c then sub GF0 r0 else r0) (if c then (- x) mod p25519 else x)) as Hs.
  { intros []; [apply rep_mod, neg_rep, Hr|exact Hr]. }
  specialize (Hs (x mod 2 =? le_val b / 2 ^ 255)). split; [exact Hs|]. split; [exact Hy|]. split; [exact GF1_rep|].
  apply rep_mod, mul_fits; by apply represents2_fits.
Qed.

(** ** The scalar of a signature *)
Lemma le_val_alter f i l : (i < length l)%nat →
  le_val (alter f i l) = le_val l + (f (limb l i) - limb l i) * 256 ^ Z.of_nat i.
Proof.
  intros Hi. pose proof (limb_lookup l i Hi) as Hx.
  rewrite <-(take_drop_middle l i (limb l i) Hx) at 1 2. assert (i = length (take i l)) as Hl by (rewrite length_take; lia).
  rewrite alter_middle by exact Hl. rewrite !le_val_app, <-Hl. cbn [le_val]. ring.
Qed.

Lemma limb_byte l j : bytes_ok l → 0 ≤ limb l j ≤ 255.
Proof.
  intros Hl. unfold limb. destruct (nth_in_or_default j l 0) as [Hin| ->]; [|lia].
  apply list_elem_of_In in Hin. apply (proj1 (Forall_forall _ _) Hl) in Hin. unfold is_byte in Hin. lia.
Qed.

(** A row adds [c * a] to the digits it runs over, each once. *)
Lemma row_loop c (a : bytes) i k K (pre seg post : list Z) : bytes_ok a → 0 ≤ c ≤ 255 → K ≤ 2 ^ 32 →
  length pre = (i + k)%nat → length a = (k + length seg)%nat → Forall (λ d, 0 ≤ d ≤ K) seg →
  ∃ seg', fold_left (λ x j, alter (λ y, i64 (y + i64 (c * limb a j))) (i + j)%nat x) (seq k (length seg)) (pre ++ seg ++ post) =
      pre ++ seg' ++ post ∧
    length seg' = length seg ∧ Forall (λ d, 0 ≤ d ≤ K + 65025) seg' ∧ le_val seg' = le_val seg + c * le_val (drop k a).
Proof.
  intros Ha Hc HK. revert pre k. induction seg as [|s seg IH]; intros pre k Lp La Hs; cbn [length] in *.
  { exists []. rewrite drop_ge by lia. cbn. split_and!; [done|done|constructor|lia]. }
  inversion_clear Hs as [|? ? Hs0 Hs']. rewrite loop_step.
  destruct (lookup_lt_is_Some_2 a k) as [w Hw]; [lia|].
  assert (limb a k = w) as Ew by (unfold limb; by apply nth_lookup_Some).
  pose proof (limb_byte a k Ha) as Hb. rewrite Ew in *.
  assert (alter (λ y, i64 (y + i64 (c * w))) (i + k)%nat (pre ++ (s :: seg) ++ post) = (pre ++ [s + c * w]) ++ seg ++ post) as ->.
  { cbn [app]. rewrite alter_middle by done. rewrite (i64_id (c * w)), i64_id by nia. by rewrite <-app_assoc. }
  destruct (IH (pre ++ [s + c * w]) (S k)) as (seg' & E & L1 & H1 & V1).
  { rewrite length_app. cbn. lia. }
  { lia. }
  { done. }
  exists ((s + c * w) :: seg'). rewrite E, (drop_S _ _ _ Hw). cbn [le_val length].
  split; [by rewrite <-app_assoc|]. split; [by rewrite L1|]. split; [constructor; [nia|done]|]. rewrite V1. ring.
Qed.

Lemma sign_row_ok h a x i K : bytes_ok h → bytes_ok a → length a = 32%nat → (i < 32)%nat → length x = 64%nat →
  Forall (λ d, 0 ≤ d ≤ K) x → K ≤ 2 ^ 32 →
  length (sign_row h a x i) = 64%nat ∧ Forall (λ d, 0 ≤ d ≤ K + 65025) (sign_row h a x i) ∧
  le_val (sign_row h a x i) = le_val x + limb h i * 256 ^ Z.of_nat i * le_val a.
Proof.
  intros Hh Ha La Hi Lx Hx HK. set (pre := take i x). set (seg := take 32 (drop i x)). set (post := drop 32 (drop i x)).
  assert (x = pre ++ seg ++ post) as Ex by (unfold pre, seg, post; by rewrite !take_drop).
  assert (length pre = i) as Lp by (unfold pre; rewrite length_take; lia).
  assert (length seg = 32%nat) as Ls by (unfold seg; rewrite length_take, length_drop; lia). clearbody pre seg post.
  rewrite Ex in Hx, Lx. apply Forall_app in Hx as [Hpre [Hseg Hpost]%Forall_app]. rewrite !length_app in Lx.
  destruct (row_loop (limb h i) a i 0 K pre seg post) as (seg' & E & L1 & H1 & V1);
    [done|by apply limb_byte|done|lia|lia|done|].
  unfold sign_row. rewrite Ls in E. rewrite Ex, E, !length_app.
  split; [lia|]. split.
  - repeat (apply Forall_app; split); [| |]; try exact H1; (eapply Forall_impl; [eassumption|]); cbn; lia.
  - rewrite !le_val_app, Lp, L1, V1. rewrite drop_0. ring.
Qed.

Lemma sign_rows_ok h a is_ x K : bytes_ok h → bytes_ok a → length a = 32%nat → Forall (λ i, i < 32)%nat is_ → length x = 64%nat →
  Forall (λ d, 0 ≤ d ≤ K) x → K + 65025 * Z.of_nat (length is_) ≤ 2 ^ 32 →
  let x' := fold_left (sign_row h a) is_ x in
  length x' = 64%nat ∧ Forall (λ d, 0 ≤ d ≤ K + 65025 * Z.of_nat (length is_)) x' ∧
  le_val x' = le_val x + zsum (λ i, limb h i * 256 ^ Z.of_nat i) is_ * le_val a.
Proof.
  intros Hh Ha La. revert x K. induction is_ as [|i is_ IH]; intros x K His Lx Hx HK; cbn [fold_left length zsum] in *.
  - split_and!; [done| |lia]. eapply Forall_impl; [exact Hx|]. cbn. intros. lia.
  - inversion_clear His as [|? ? Hi His']. destruct (sign_row_ok h a x i K Hh Ha La Hi Lx Hx) as (H1 & H2 & H3); [lia|].
    destruct (IH (sign_row h a x i) (K + 65025) His' H1 H2) as (H4 & H5 & H6); [lia|].
    split_and!; [done| |rewrite H6, H3; ring]. eapply Forall_impl; [exact H5|]. cbn. intros. lia.
Qed.

Lemma le_val_sum l k : zsum (λ j, limb l (j - k) * 256 ^ Z.of_nat (j - k)) (seq k (length l)) = le_val l.
Proof.
  revert k. induction l as [|x l IH]; intros k; [done|]. cbn [le_val length seq zsum]. rewrite Nat.sub_diag.
  change (limb (x :: l) 0) with x. change (Z.of_nat 0) with 0. rewrite Z.pow_0_r, Z.mul_1_r, <-(IH (S k)), <-zsum_scale.
  f_equal. apply zsum_ext. intros j Hj%elem_of_seq. replace (j - k)%nat with (S (j - S k)) by lia.
  rewrite limb_cons, pow256_succ. ring.
Qed.
Lemma le_val_sum0 l : zsum (λ j, limb l j * 256 ^ Z.of_nat j) (seq 0 (length l)) = le_val l.
Proof. rewrite <-(le_val_sum l 0). apply zsum_ext. intros j _. by rewrite Nat.sub_0_r. Qed.

(** The copy loop. *)
Lemma copy_loop (r pre seg post : list Z) k : length pre = k → length r = (k + length seg)%nat →
  fold_left (λ x i, <[i := limb r i]> x) (seq k (length seg)) (pre ++ seg ++ post) = pre ++ drop k r ++ post.
Proof.
  revert pre k. induction seg as [|s seg IH]; intros pre k Lp Lr; cbn [length] in *.
  { rewrite drop_ge by lia. done. }
  rewrite loop_step. destruct (lookup_lt_is_Some_2 r k) as [w Hw]; [lia|].
  assert (limb r k = w) as Ew by (unfold limb; by apply nth_lookup_Some). rewrite Ew. cbn [app].
  rewrite insert_middle by done. specialize (IH (pre ++ [w]) (S k)). rewrite <-!app_assoc in IH. cbn [app] in IH.
  rewrite IH by (rewrite ?length_app; cbn; lia). by rewrite (drop_S _ _ _ Hw).
Qed.
Lemma copy_ok (r : bytes) n m N : length r = n → N = (n + m)%nat →
  fold_left (λ x i, <[i := limb r i]> x) (seq 0 n) (replicate N 0) = r ++ replicate m 0.
Proof.
  intros Lr ->. rewrite replicate_add. pose proof (copy_loop r [] (replicate n 0) (replicate m 0) 0 eq_refl) as H.
  rewrite length_replicate in H. cbn [app] in H. rewrite H by (cbn; lia). by rewrite drop_0.
Qed.

Lemma le_val_zeros n : le_val (replicate n 0) = 0.
Proof. induction n as [|n IH]; [done|]. cbn [replicate le_val]. by rewrite IH. Qed.

Lemma sign_digits_ok r h a : bytes_ok r → bytes_ok h → bytes_ok a → length r = 32%nat → length h = 32%nat → length a = 32%nat →
  modl (sign_digits r h a) = le_bytes 32 ((le_val r + le_val h * le_val a) mod order).
Proof.
  intros Hr Hh Ha Lr Lh La. unfold sign_digits. cbv zeta. rewrite (copy_ok r 32 32 64 Lr eq_refl).
  destruct (sign_rows_ok h a (seq 0 32) (r ++ replicate 32 0) 255 Hh Ha La) as (H1 & H2 & H3).
  - apply Forall_forall. intros i Hi%elem_of_seq. lia.
  - rewrite length_app, length_replicate. lia.
  - apply Forall_app. split; [eapply Forall_impl; [exact Hr|]; unfold is_byte; cbn; lia|apply Forall_replicate; lia].
  - rewrite length_seq. lia.
  - rewrite length_seq in H2. pose proof (le_val_sum0 h) as Hs. rewrite Lh in Hs. rewrite Hs, le_val_app, le_val_zeros in H3.
    set (x := fold_left _ _ _) in *. clearbody x. rewrite modl_ok; [f_equal; f_equal; lia|exact H1|].
    eapply Forall_impl; [exact H2|]. cbn. lia.
Qed.

(** The two masks of the top byte of [sign] are the one of [clamp]. *)
Lemma sign_clamp d : alter (λ x, Z.lor x 64) 31%nat (alter (λ x, Z.land x 127) 31%nat (alter (λ x, Z.land x 248) 0%nat d)) = clamp d.
Proof.
  unfold clamp. cbv zeta. generalize (alter (λ x, Z.land x 248) 0%nat d) as l. generalize 31%nat as i.
  intros i l. revert i. induction l as [|x l IH]; intros [|i]; [done..|]. cbn. f_equal. apply IH.
Qed.

Lemma reduced_bytes v : bytes_ok (le_bytes 32 (v mod order)) ∧ length (le_bytes 32 (v mod order)) = 32%nat ∧
  le_val (le_bytes 32 (v mod order)) = v mod order.
Proof.
  split; [apply le_bytes_ok|]. split; [apply le_bytes_length|]. rewrite le_val_bytes. apply Z.mod_small.
  assert (0 < order < 256 ^ Z.of_nat 32) as Ho by (split; vm_compute; reflexivity).
  pose proof (Z.mod_pos_bound v order (proj1 Ho)). lia.
Qed.
Lemma reduce_digest m : reduce (sha512 m) = le_bytes 32 (le_val (sha512 m) mod order).
Proof. destruct (sha512_bytes m). by apply reduce_ok. Qed.

#[local] Opaque sha512 reduce pack_point scalarbase scalarmult ed_mul ed_compress le_bytes modl clamp.

(** C31: Signing is the Ed25519 of RFC 8032: for every seed, public key and message the
    limbs and byte digits compute the signature of the reference on residues, so that no
    64-bit wrap-around shows and the scalar is fully reduced modulo the group order. *)
Theorem sign_rfc8032 (seed public_key message : bytes) : sign seed public_key message = ed_sign seed public_key message.
Proof.
  unfold sign, ed_sign. cbv zeta. rewrite sign_clamp. destruct (sha512_bytes seed) as [Ld Hd]. set (d := sha512 seed) in *. clearbody d.
  destruct (clamp_ok (take 32 d)) as [Ha La]; [by apply Forall_take|rewrite length_take; lia|].
  rewrite (reduce_digest (drop 32 d ++ message)). destruct (reduced_bytes (le_val (sha512 (drop 32 d ++ message)))) as (Hr & Lr & Vr).
  set (r := le_bytes 32 (le_val (sha512 (drop 32 d ++ message)) mod order)) in *.
  rewrite (pack_point_rep _ _ (scalarbase_rep r Hr Lr)), Vr. set (R := ed_compress _).
  rewrite (reduce_digest (R ++ public_key ++ message)). destruct (reduced_bytes (le_val (sha512 (R ++ public_key ++ message)))) as (Hh & Lh & Vh).
  rewrite (sign_digits_ok r _ _ Hr Hh Ha Lr Lh La), Vr, Vh. reflexivity.
Qed.


