(* ===== verification/Micron.v ===== *)
(** Micron markup ([micron/src/lib.rs]): the page parser, its links and their targets.

    Text is a list of Unicode scalar values.  The inline scanner works on the suffix
    [chars[i..]] of the line; its loop and the page loop are run with fuel, which
    [parse_wellformed] shows to be enough for every input. *)
From S2P Require Import Prelude.
From Stdlib Require Import Ascii.

(** ** Text: what the parser uses of [char] and [str] *)
Abbreviation str := (list Z) (only parsing).
Definition chr (a : ascii) : Z := Z.of_N (N_of_ascii a).
Definition lit (s : string) : str := chr <$> String.list_ascii_of_string s.

(** [char::is_whitespace]: the code points with the White_Space property. *)
Definition is_whitespace (c : Z) : bool :=
  ((9 <=? c) && (c <=? 13)) || (c =? 0x20) || (c =? 0x85) || (c =? 0xa0) || (c =? 0x1680) ||
  ((0x2000 <=? c) && (c <=? 0x200a)) || (c =? 0x2028) || (c =? 0x2029) || (c =? 0x202f) || (c =? 0x205f) || (c =? 0x3000).
Fixpoint trim_start (s : str) : str :=
  match s with [] => [] | c :: s' => if is_whitespace c then trim_start s' else s end.
Definition trim_end (s : str) : str := rev (trim_start (rev s)).
Definition trim (s : str) : str := trim_end (trim_start s).

Fixpoint strip_prefix (p s : str) : option str :=
  match p, s with
  | [], _ => Some s
  | a :: p, c :: s => if a =? c then strip_prefix p s else None
  | _ :: _, [] => None
  end.
Definition starts_with (p s : str) : bool := match strip_prefix p s with Some _ => true | None => false end.

(** [str::split] and [str::split_once] at a character. *)
Fixpoint split_once (d : Z) (s : str) : option (str * str) :=
  match s with
  | [] => None
  | c :: s => if c =? d then Some ([], s) else '(a, b) ← split_once d s; Some (c :: a, b)
  end.
Fixpoint split (d : Z) (s : str) : list str :=
  match s with
  | [] => [[]]
  | c :: s => if c =? d then [] :: split d s
              else match split d s with [] => [[c]] | a :: l => (c :: a) :: l end
  end.

(** [str::lines]: a line ends at a newline, with one carriage return before it dropped. *)
Definition strip_cr (l : str) : str :=
  match rev l with c :: l' => if c =? 13 then rev l' else l | [] => l end.
Fixpoint lines_from (cur s : str) : list str :=
  match s with
  | [] => match cur with [] => [] | _ => [cur] end
  | c :: s => if c =? 10 then strip_cr cur :: lines_from [] s else lines_from (cur ++ [c]) s
  end.
Definition str_lines (s : str) : list str := lines_from [] s.

(** UTF-8 lengths and boundaries. *)
Definition len_utf8 (c : Z) : nat :=
  if c <? 0x80 then 1 else if c <? 0x800 then 2 else if c <? 0x10000 then 3 else 4.
Fixpoint str_len (s : str) : nat := match s with [] => 0 | c :: s => len_utf8 c + str_len s end.
(** The prefix of [n] bytes, when [n] is at a character boundary. *)
Fixpoint split_at_byte (s : str) (n : nat) : option str :=
  match n, s with
  | O, _ => Some []
  | S _, [] => None
  | S _, c :: s => if (len_utf8 c <=? n)%nat then (cons c) <$> split_at_byte s (n - len_utf8 c) else None
  end.
Definition is_char_boundary (s : str) (n : nat) : bool :=
  match split_at_byte s n with Some _ => true | None => false end.

Definition is_digit (c : Z) : bool := (48 <=? c) && (c <=? 57).
(** [parse::<u32>]: an optional plus sign, then digits, none overflowing. *)
Fixpoint u32_digits (acc : Z) (s : str) : option Z :=
  match s with
  | [] => Some acc
  | c :: s => if is_digit c then let v := acc * 10 + (c - 48) in if v <? 2 ^ 32 then u32_digits v s else None else None
  end.
Definition parse_u32 (s : str) : option Z :=
  let s := match s with c :: s' => if c =? 43 then s' else s | [] => s end in
  match s with [] => None | _ => u32_digits 0 s end.

(** ** The document *)
Inductive Style := Regular | Bold | Mono | Heading (depth : Z).
Inductive Align := Left | Center | Right.
Inductive Kind := Text | Divider | KLink (id : Z).
Record Line := mkLine { text : str; style : Style; align : Align; kind : Kind }.
Record Link := mkLink { label : str; url : str; fields : list (str * str) }.
Record Document := mkDoc {
  cache_secs : option Z;
  title : option str;
  doc_lines : list Line;
  links : list Link;
}.
Inductive LinkTarget :=
  | SameNode (path : str)
  | OtherNode (hash : bytes) (path : str)
  | NodeIndex (hash : bytes)
  | Lxmf (hash : bytes)
  | Anchor
  | Unsupported.

Definition MAX_INPUT_BYTES : nat := Z.to_nat (64 * 1024).
Definition MAX_LINES : nat := Z.to_nat 2000.

Record ScanState := mkScan { bold : bool; st_align : Align; literal : bool }.

Definition is_heading (s : Style) : bool := match s with Heading _ => true | _ => false end.

Definition push_line (doc : Document) (t : str) (s : Style) (a : Align) (k : Kind) : Document :=
  let title' :=
    match title doc with
    | None => if is_heading s then match trim t with [] => None | t' => Some t' end else None
    | Some x => Some x
    end in
  mkDoc (cache_secs doc) title'
    (if (length (doc_lines doc) <? MAX_LINES)%nat then doc_lines doc ++ [mkLine t s a k] else doc_lines doc) (links doc).

(** ** Inline scanning *)

(** What the loop of [scan_inline] keeps. *)
Record Scan := mkS {
  seg : str;
  seg_bold : option bool;
  seg_align : option Align;
  sc_st : ScanState;
  sc_doc : Document;
}.

Definition push_seg_char (x : Scan) (c : Z) : Scan :=
  match seg x with
  | [] => mkS [c] (Some (bold (sc_st x))) (Some (st_align (sc_st x))) (sc_st x) (sc_doc x)
  | _ => mkS (seg x ++ [c]) (seg_bold x) (seg_align x) (sc_st x) (sc_doc x)
  end.
Definition flush_seg (heading : Z) (x : Scan) : Scan :=
  match trim (seg x) with
  | [] => mkS [] (seg_bold x) (seg_align x) (sc_st x) (sc_doc x)
  | _ =>
      let s := if 0 <? heading then Heading heading
               else if default (bold (sc_st x)) (seg_bold x) then Bold else Regular in
      mkS [] (seg_bold x) (seg_align x) (sc_st x)
        (push_line (sc_doc x) (seg x) s (default (st_align (sc_st x)) (seg_align x)) Text)
  end.
Definition with_st (x : Scan) (st : ScanState) : Scan := mkS (seg x) (seg_bold x) (seg_align x) st (sc_doc x).
Definition set_align (x : Scan) (a : Align) : Scan := with_st x (mkScan (bold (sc_st x)) a (literal (sc_st x))).

(** The URL variables of a link: [|]-separated [k=v] components. *)
Definition var_fields (varstr : str) : list (str * str) :=
  flat_map (λ e, match split_once 61 e with
                 | Some (k, v) => match k with [] => [] | _ => [(k, v)] end
                 | None => []
                 end) (split 124 varstr).
Definition try_parse_link (chars : str) : option (Link * nat) :=
  close ← position (λ c, c =? 93) chars;
  if (close <? 2)%nat then None else
  let inner := take (close - 1) (drop 1 chars) in
  let parts := split 96 inner in
  let first := default [] (head parts) in
  let url := default first (head (tail parts)) in
  match url with
  | [] => None
  | _ => Some (mkLink first url (flat_map var_fields (tail (tail parts))), S close)
  end.

(** A link: its own line, or its label inside a heading. *)
Definition push_link (heading : Z) (x : Scan) (l : Link) : Scan :=
  if 0 <? heading then fold_left push_seg_char (label l) x
  else
    let x := flush_seg heading x in
    let doc := sc_doc x in
    if (length (links doc) <? Z.to_nat 65535)%nat then
      let id := Z.of_nat (length (links doc)) in
      let doc := mkDoc (cache_secs doc) (title doc) (doc_lines doc) (links doc ++ [l]) in
      mkS (seg x) (seg_bold x) (seg_align x) (sc_st x)
        (push_line doc (0xbb :: 32 :: label l) Regular (st_align (sc_st x)) (KLink id))
    else x.

(** Through the closing character. *)
Fixpoint skip_past (d : Z) (s : str) : str :=
  match s with [] => [] | c :: s => if c =? d then s else skip_past d s end.

(** After a backtick: the tag at the head of [chars]; what is left of the line. *)
Definition tag (heading : Z) (x : Scan) (chars : str) : Scan * str :=
  match chars with
  | [] => (x, [])
  | t :: rest =>
      if t =? chr "`" then (with_st x (mkScan false Left (literal (sc_st x))), rest)
      else if t =? chr "!" then (with_st x (mkScan (negb (bold (sc_st x))) (st_align (sc_st x)) (literal (sc_st x))), rest)
      else if (t =? chr "*") || (t =? chr "_") then (x, rest)
      else if (t =? chr "F") || (t =? chr "B") then
        let n := match rest with c :: _ => if c =? chr "T" then 7%nat else 3%nat | [] => 3%nat end in
        (x, drop n rest)
      else if (t =? chr "f") || (t =? chr "b") then (x, rest)
      else if t =? chr "c" then (set_align x Center, rest)
      else if t =? chr "r" then (set_align x Right, rest)
      else if (t =? chr "l") || (t =? chr "a") then (set_align x Left, rest)
      else if t =? chr "<" then (fold_left push_seg_char (lit "[____]") x, skip_past (chr ">") rest)
      else if t =? chr "{" then (x, skip_past (chr "}") rest)
      else if t =? chr "[" then
        match try_parse_link chars with
        | Some (l, consumed) => (push_link heading x l, drop consumed chars)
        | None => (push_seg_char x (chr "["), rest)
        end
      else if t =? chr "=" then (x, rest)
      else if t =? 0 then (x, chars)
      else (x, rest)
  end.

Fixpoint scan_loop (fuel : nat) (heading : Z) (x : Scan) (chars : str) : option Scan :=
  match fuel with
  | O => None
  | S fuel =>
      match chars with
      | [] => Some x
      | c :: rest =>
          if c =? chr "\" then
            match rest with
            | e :: rest' => scan_loop fuel heading (push_seg_char x e) rest'
            | [] => scan_loop fuel heading x rest
            end
          else if c =? chr "`" then let '(x, rest) := tag heading x rest in scan_loop fuel heading x rest
          else scan_loop fuel heading (push_seg_char x c) rest
      end
  end.

Definition scan_inline (body : str) (heading : Z) (st : ScanState) (doc : Document) : option (ScanState * Document) :=
  x ← scan_loop (S (length body)) heading (mkS [] None None st doc) body;
  let x := flush_seg heading x in
  Some (sc_st x, sc_doc x).

(** ** Pages *)

(** Up to three leading [>]. *)
Fixpoint strip_heading (fuel : nat) (heading : Z) (body : str) : Z * str :=
  match fuel, body with
  | S fuel, c :: body' => if c =? chr ">" then strip_heading fuel (heading + 1) body' else (heading, body)
  | _, _ => (heading, body)
  end.

Definition parse_line (st : ScanState) (doc : Document) (line : str) : option (ScanState * Document) :=
  if bool_decide (trim line = lit "`=") then Some (mkScan (bold st) (st_align st) (negb (literal st)), doc)
  else if literal st then
    let t := if bool_decide (trim line = lit "\`=") then lit "`=" else line in
    Some (st, push_line doc t Mono Left Text)
  else match strip_prefix (lit "#!c=") line with
  | Some rest =>
      let secs := match cache_secs doc with None => parse_u32 (trim rest) | Some n => Some n end in
      Some (st, mkDoc secs (title doc) (doc_lines doc) (links doc))
  | None =>
      if starts_with (lit "#") line then Some (st, doc)
      else if starts_with (lit "`t") line then Some (st, doc)
      else if starts_with (lit "-") line then Some (st, push_line doc [] Regular (st_align st) Divider)
      else
        let '(heading, body) := strip_heading 3 0 line in
        let body := if heading =? 0 then default body (strip_prefix (lit "<") body) else body in
        match body with
        | [] => if heading =? 0 then Some (st, push_line doc [] Regular (st_align st) Text)
                else scan_inline body heading st doc
        | _ => scan_inline body heading st doc
        end
  end.
Fixpoint parse_lines (st : ScanState) (doc : Document) (ls : list str) : option Document :=
  match ls with
  | [] => Some doc
  | line :: ls =>
      if (MAX_LINES <=? length (doc_lines doc))%nat then Some doc
      else '(st, doc) ← parse_line st doc line; parse_lines st doc ls
  end.

Fixpoint boundary_below (s : str) (n : nat) : nat :=
  match n with O => O | S n' => if is_char_boundary s n then n else boundary_below s n' end.
(** Slicing at [end] panics off a boundary: [None]. *)
Definition truncate_utf8 (s : str) (max : nat) : option str :=
  if (str_len s <=? max)%nat then Some s else split_at_byte s (boundary_below s max).

Definition empty_doc : Document := mkDoc None None [] [].
Definition parse (src : str) : option Document :=
  src ← truncate_utf8 src MAX_INPUT_BYTES;
  parse_lines (mkScan false Left false) empty_doc (str_lines src).

(** ** Link targets *)
Definition is_ascii_hexdigit (c : Z) : bool :=
  is_digit c || ((65 <=? c) && (c <=? 70)) || ((97 <=? c) && (c <=? 102)).
Definition hex_digit (c : Z) : option Z :=
  if is_digit c then Some (c - 48)
  else if (65 <=? c) && (c <=? 70) then Some (c - 55)
  else if (97 <=? c) && (c <=? 102) then Some (c - 87) else None.
(** [u8::from_str_radix(.., 16)] of two characters; a sign takes the place of a digit. *)
Definition u8_from_hex (s : str) : option Z :=
  match s with
  | [a; b] => if a =? 43 then hex_digit b else h ← hex_digit a; l ← hex_digit b; Some (h * 16 + l)
  | _ => None
  end.
Fixpoint hash_bytes (n : nat) (s : str) : option bytes :=
  match n with
  | O => Some []
  | S n => b ← u8_from_hex (take 2 s); r ← hash_bytes n (drop 2 s); Some (b :: r)
  end.
Definition parse_hash (s : str) : option bytes :=
  let s := trim s in
  if negb (str_len s =? 32)%nat || negb (forallb is_ascii_hexdigit s) then None
  else hash_bytes 16 s.

Definition to_ascii_lowercase (c : Z) : Z := if (65 <=? c) && (c <=? 90) then c + 32 else c.
Definition eq_ignore_ascii_case (a b : str) : bool :=
  bool_decide (to_ascii_lowercase <$> a = to_ascii_lowercase <$> b).

Definition resolve_link (url : str) : LinkTarget :=
  let url := trim url in
  match url with
  | [] => Unsupported
  | _ =>
      if starts_with (lit "#") url then Anchor else
      match split_once (chr "@") url with
      | Some (scheme, rest) =>
          if eq_ignore_ascii_case scheme (lit "lxmf") then
            match parse_hash (default [] (head (split (chr ":") rest))) with
            | Some h => Lxmf h
            | None => Unsupported
            end
          else Unsupported
      | None =>
          match split_once (chr ":") url with
          | Some ([], path) => SameNode path
          | Some (node, path) =>
              match parse_hash node with
              | Some h => match path with [] => NodeIndex h | _ => OtherNode h path end
              | None => Unsupported
              end
          | None =>
              match parse_hash url with
              | Some h => NodeIndex h
              | None => if starts_with (lit "/") url then SameNode url else Unsupported
              end
          end
      end
  end.

(** ** What every page is parsed to *)

(** A line of a page with links [ls]. *)
Definition line_ok (ls : list Link) (l : Line) : Prop :=
  match kind l with
  | Text => match style l with Heading d => 1 ≤ d ≤ 3 ∧ trim (text l) ≠ [] | _ => True end
  | Divider => text l = [] ∧ style l = Regular
  | KLink id => style l = Regular ∧ ∃ k, ls !! Z.to_nat id = Some k ∧ text l = 0xbb :: 32 :: label k
  end.
Definition link_id (l : Line) : option Z := match kind l with KLink id => Some id | _ => None end.
Definition link_ids (l : list Line) : list Z := omap link_id l.
(** The text of the first heading. *)
Definition first_heading (l : list Line) : option str := trim ∘ text <$> List.find (λ l, is_heading (style l)) l.

Record doc_ok (doc : Document) : Prop := {
  ok_lines : (length (doc_lines doc) ≤ MAX_LINES)%nat;
  ok_links : (length (links doc) ≤ Z.to_nat 65535)%nat;
  ok_each : Forall (line_ok (links doc)) (doc_lines doc);
  (** the link lines are numbered in order, from the first link *)
  ok_ids : ∃ n, (n ≤ length (links doc))%nat ∧ link_ids (doc_lines doc) = Z.of_nat <$> seq 0 n;
  (** a link has its line unless the page is full *)
  ok_all : (length (doc_lines doc) < MAX_LINES)%nat → link_ids (doc_lines doc) = Z.of_nat <$> seq 0 (length (links doc));
  ok_title : title doc = first_heading (doc_lines doc);
}.

Lemma line_ok_mono ls k l : line_ok ls l → line_ok (ls ++ k) l.
Proof.
  unfold line_ok. destruct (kind l); [done..|]. intros (Hs & x & Hx & Ht). split; [done|]. exists x. split; [|done].
  by apply lookup_app_l_Some.
Qed.
Lemma find_app {A} (f : A → bool) a b : List.find f (a ++ b) = match List.find f a with Some x => Some x | None => List.find f b end.
Proof. induction a as [|x a IH]; [done|]. cbn. by destruct (f x). Qed.
Lemma first_heading_snoc l x : first_heading (l ++ [x]) =
  match first_heading l with Some t => Some t | None => if is_heading (style x) then Some (trim (text x)) else None end.
Proof. unfold first_heading. rewrite find_app. destruct (List.find _ l); [done|]. cbn. by destruct (is_heading (style x)). Qed.
Lemma link_ids_snoc l x : link_ids (l ++ [x]) = link_ids l ++ match link_id x with Some i => [i] | None => [] end.
Proof. unfold link_ids. rewrite omap_app. cbn. by destruct (link_id x). Qed.

Lemma is_heading_title t s : (is_heading s = true → trim t ≠ []) →
  (if is_heading s then match trim t with [] => None | t' => Some t' end else None) = if is_heading s then Some (trim t) else None.
Proof. destruct (is_heading s); [|done]. intros H. specialize (H eq_refl). by destruct (trim t). Qed.

(** A text or divider line keeps a page well formed; a heading only where there is room. *)
Lemma push_line_ok doc t s a k : doc_ok doc → line_ok (links doc) (mkLine t s a k) → link_id (mkLine t s a k) = None →
  (is_heading s = true → trim t ≠ [] ∧ (length (doc_lines doc) < MAX_LINES)%nat) → doc_ok (push_line doc t s a k).
Proof.
  intros [H1 H2 H3 H4 H5 H6] Hl Hid Hh. unfold push_line. rewrite is_heading_title by (intros E; by apply Hh).
  destruct (Nat.ltb_spec (length (doc_lines doc)) MAX_LINES) as [Hlt|Hge]; split; cbn [doc_lines links title cache_secs].
  - rewrite length_app. cbn. lia.
  - done.
  - apply Forall_app. split; [done|]. by constructor.
  - destruct H4 as (n & Hn & E). exists n. split; [done|]. by rewrite link_ids_snoc, Hid, app_nil_r.
  - intros _. by rewrite link_ids_snoc, Hid, app_nil_r, H5.
  - rewrite first_heading_snoc, <-H6. cbn. by destruct (title doc).
  - done.
  - done.
  - done.
  - done.
  - done.
  - rewrite <-H6. destruct (title doc); [done|]. destruct (is_heading s); [|done]. destruct (Hh eq_refl). lia.
Qed.

(** A link and its line. *)
Lemma push_link_line_ok doc l a : doc_ok doc → (length (links doc) < Z.to_nat 65535)%nat →
  doc_ok (push_line (mkDoc (cache_secs doc) (title doc) (doc_lines doc) (links doc ++ [l]))
    (0xbb :: 32 :: label l) Regular a (KLink (Z.of_nat (length (links doc))))).
Proof.
  intros [H1 H2 H3 H4 H5 H6] Hlt. unfold push_line. cbn [is_heading title doc_lines links cache_secs].
  assert (Forall (line_ok (links doc ++ [l])) (doc_lines doc)) as H3'.
  { eapply Forall_impl; [exact H3|]. intros. by apply line_ok_mono. }
  destruct (Nat.ltb_spec (length (doc_lines doc)) MAX_LINES) as [Hl|Hge]; split; cbn [doc_lines links title cache_secs];
    rewrite ?length_app; cbn [length].
  - lia.
  - lia.
  - apply Forall_app. split; [done|]. constructor; [|done]. split; [done|]. exists l. split; [|done].
    rewrite Nat2Z.id. by apply list_lookup_middle.
  - exists (S (length (links doc))). split; [lia|]. rewrite link_ids_snoc, H5 by done. by rewrite seq_S, fmap_app.
  - intros _. rewrite link_ids_snoc, H5 by done. rewrite Nat.add_1_r. by rewrite seq_S, fmap_app.
  - rewrite first_heading_snoc, <-H6. cbn. by destruct (title doc).
  - lia.
  - lia.
  - done.
  - destruct H4 as (n & Hn & E). exists n. split; [lia|done].
  - lia.
  - rewrite <-H6. by destruct (title doc).
Qed.

(** The loop invariant of [scan_inline] on a line that starts at [doc0]: inside a heading
    nothing is pushed before the end of the line. *)
Definition scan_ok (heading : Z) (doc0 : Document) (x : Scan) : Prop :=
  doc_ok (sc_doc x) ∧ (0 < heading → sc_doc x = doc0).

Lemma push_seg_char_doc x c : sc_doc (push_seg_char x c) = sc_doc x.
Proof. unfold push_seg_char. by destruct (seg x). Qed.
Lemma push_seg_chars_doc x cs : sc_doc (fold_left push_seg_char cs x) = sc_doc x.
Proof. revert x. induction cs as [|c cs IH]; intros x; cbn [fold_left]; [done|]. by rewrite IH, push_seg_char_doc. Qed.

Lemma flush_seg_ok heading x : doc_ok (sc_doc x) → heading ≤ 3 → (0 < heading → (length (doc_lines (sc_doc x)) < MAX_LINES)%nat) →
  doc_ok (sc_doc (flush_seg heading x)).
Proof.
  intros Hd Hh Hroom. unfold flush_seg. destruct (trim (seg x)) as [|c t] eqn:Et; [exact Hd|]. cbn [sc_doc].
  apply push_line_ok; [done| |done|].
  - unfold line_ok. cbn [kind style text]. destruct (Z.ltb_spec 0 heading); [rewrite Et; split; [lia|done]|].
    by destruct (default _ _).
  - destruct (Z.ltb_spec 0 heading); [intros _; rewrite Et; auto|]. by destruct (default _ _).
Qed.

Lemma scan_ok_doc heading doc0 x y : sc_doc y = sc_doc x → scan_ok heading doc0 x → scan_ok heading doc0 y.
Proof. unfold scan_ok. by intros ->. Qed.
Lemma push_link_ok heading doc0 x l : heading ≤ 3 → scan_ok heading doc0 x → scan_ok heading doc0 (push_link heading x l).
Proof.
  intros Hh [Hd H0]. unfold push_link. destruct (Z.ltb_spec 0 heading) as [Hp|Hp].
  - apply (scan_ok_doc _ _ x); [apply push_seg_chars_doc|done].
  - assert (doc_ok (sc_doc (flush_seg heading x))) as Hf by (apply flush_seg_ok; [done|done|lia]).
    cbv zeta. destruct (Nat.ltb_spec (length (links (sc_doc (flush_seg heading x)))) (Z.to_nat 65535)) as [Hlt|Hge].
    + split; [|lia]. cbn [sc_doc]. by apply push_link_line_ok.
    + split; [done|lia].
Qed.

Lemma skip_past_length d s : (length (skip_past d s) ≤ length s)%nat.
Proof. induction s as [|c s IH]; cbn; [lia|]. destruct (c =? d); lia. Qed.

(** A tag keeps the invariant and never gives characters back. *)
Lemma tag_ok heading doc0 x chars : heading ≤ 3 → scan_ok heading doc0 x →
  scan_ok heading doc0 (tag heading x chars).1 ∧ (length (tag heading x chars).2 ≤ length chars)%nat.
Proof.
  intros Hh Hx. unfold tag. destruct chars as [|t rest]; [done|].
  repeat match goal with |- context [if ?b then _ else _] =>
    lazymatch b with
    | context [t] => destruct b; [try (split; [exact Hx|cbn; lia])|]
    end
  end; cbn [fst snd]; try (split; [exact Hx|cbn; lia]).
  - split; [exact Hx|]. rewrite length_drop. cbn. lia.
  - split; [by apply (scan_ok_doc _ _ x); [apply push_seg_chars_doc|]|]. pose proof (skip_past_length (chr ">") rest). cbn. lia.
  - split; [exact Hx|]. pose proof (skip_past_length (chr "}") rest). cbn. lia.
  - destruct (try_parse_link (t :: rest)) as [[l n]|]; cbn [fst snd].
    + split; [by apply push_link_ok|]. rewrite length_drop. lia.
    + split; [by apply (scan_ok_doc _ _ x); [apply push_seg_char_doc|]|cbn; lia].
Qed.

Lemma scan_loop_ok heading doc0 fuel x chars : heading ≤ 3 → scan_ok heading doc0 x → (length chars < fuel)%nat →
  ∃ y, scan_loop fuel heading x chars = Some y ∧ scan_ok heading doc0 y.
Proof.
  intros Hh. revert x chars. induction fuel as [|fuel IH]; intros x chars Hx Hf; [lia|].
  cbn [scan_loop]. destruct chars as [|c rest]; [by exists x|]. cbn [length] in Hf.
  assert (∀ e, scan_ok heading doc0 (push_seg_char x e)) as Hpush by (intros; by apply (scan_ok_doc _ _ x); [apply push_seg_char_doc|]).
  destruct (c =? chr "\").
  - destruct rest as [|e rest']; apply IH; cbn in *; auto; lia.
  - destruct (c =? chr "`"); [|apply IH; [done|lia]].
    destruct (tag_ok heading doc0 x rest Hh Hx) as [H1 H2]. destruct (tag heading x rest) as [y rest'].
    apply IH; cbn in *; [done|lia].
Qed.

Lemma scan_inline_ok body heading st doc : heading ≤ 3 → doc_ok doc → (length (doc_lines doc) < MAX_LINES)%nat →
  ∃ st' doc', scan_inline body heading st doc = Some (st', doc') ∧ doc_ok doc'.
Proof.
  intros Hh Hd Hroom. unfold scan_inline.
  destruct (scan_loop_ok heading doc (S (length body)) (mkS [] None None st doc) body) as (y & E & Hy & H0); [done|done|lia|].
  rewrite E. cbn [mbind option_bind]. eexists _, _. split; [reflexivity|]. apply flush_seg_ok; [done|done|]. intros Hp. by rewrite H0.
Qed.

Lemma strip_heading_bound n h body : h ≤ (strip_heading n h body).1 ≤ h + Z.of_nat n.
Proof.
  revert h body. induction n as [|n IH]; intros h body; cbn [strip_heading fst]; [lia|].
  destruct body as [|c body]; cbn [fst]; [lia|]. destruct (c =? chr ">"); cbn [fst]; [|lia]. specialize (IH (h + 1) body). lia.
Qed.

Lemma plain_line_ok doc t s a k : doc_ok doc → is_heading s = false → k = Text ∨ (k = Divider ∧ t = [] ∧ s = Regular) →
  doc_ok (push_line doc t s a k).
Proof.
  intros Hd Hs Hk. apply push_line_ok; [done| |by destruct Hk as [-> | [-> _]]|by rewrite Hs].
  unfold line_ok. cbn. destruct Hk as [-> | (-> & -> & ->)]; [by destruct s|done].
Qed.

Lemma parse_line_ok st doc line : doc_ok doc → (length (doc_lines doc) < MAX_LINES)%nat →
  ∃ st' doc', parse_line st doc line = Some (st', doc') ∧ doc_ok doc'.
Proof.
  intros Hd Hroom. unfold parse_line. case_bool_decide; [by eexists _, _|].
  destruct (literal st); [eexists _, _; split; [done|]; apply plain_line_ok; auto|].
  destruct (strip_prefix (lit "#!c=") line) as [rest|].
  { eexists _, _. split; [done|]. by destruct Hd; split. }
  destruct (starts_with (lit "#") line); [by eexists _, _|].
  destruct (starts_with (lit "`t") line); [by eexists _, _|].
  destruct (starts_with (lit "-") line); [eexists _, _; split; [done|]; apply plain_line_ok; auto|].
  pose proof (strip_heading_bound 3 0 line) as Hb. destruct (strip_heading 3 0 line) as [heading body]. cbn [fst] in Hb.
  set (body' := if heading =? 0 then _ else _). clearbody body'.
  destruct body' as [|c b]; [|apply scan_inline_ok; [lia|done..]].
  destruct (heading =? 0); [|apply scan_inline_ok; [lia|done..]].
  eexists _, _. split; [done|]. apply plain_line_ok; auto.
Qed.

Lemma parse_lines_ok st doc ls : doc_ok doc → ∃ doc', parse_lines st doc ls = Some doc' ∧ doc_ok doc'.
Proof.
  revert st doc. induction ls as [|line ls IH]; intros st doc Hd; cbn [parse_lines]; [by exists doc|].
  destruct (Nat.leb_spec MAX_LINES (length (doc_lines doc))) as [|Hlt]; [by exists doc|].
  destruct (parse_line_ok st doc line Hd Hlt) as (st' & doc' & E & Hd'). rewrite E. cbn [mbind option_bind]. by apply IH.
Qed.

Lemma boundary_below_ok s n : is_char_boundary s (boundary_below s n) = true.
Proof.
  induction n as [|n IH]; cbn [boundary_below]; [by destruct s|]. by destruct (is_char_boundary s (S n)) eqn:E.
Qed.
Lemma truncate_total s n : ∃ t, truncate_utf8 s n = Some t.
Proof.
  unfold truncate_utf8. destruct (str_len s <=? n)%nat; [by exists s|].
  pose proof (boundary_below_ok s n) as H. unfold is_char_boundary in H. destruct (split_at_byte s _) as [t|]; [by exists t|done].
Qed.

Lemma parse_total src : ∃ doc, parse src = Some doc ∧ doc_ok doc.
Proof.
  unfold parse. destruct (truncate_total src MAX_INPUT_BYTES) as [t ->]. cbn [mbind option_bind].
  apply parse_lines_ok. split; cbn; [lia|lia|constructor|by exists 0%nat|done|done].
Qed.

(** C33: Every page parses, without a panic and within the fuel, to a well-formed document:
    at most 2000 lines and 65535 links, every link line naming an existing link with its
    label, the link lines numbered in order with none missing unless the page is full,
    headings of depth 1 to 3 with visible text, and the title that of the first heading. *)
Theorem parse_wellformed (src : str) : ∃ doc, parse src = Some doc ∧ doc_ok doc.
Proof. apply parse_total. Qed.
