(* ===== verification/MicronPage.v ===== *)
(** Pages and link targets, printed and parsed back: what the markup of
    [micron/src/lib.rs] can express. *)
From S2P Require Import Prelude Micron.
From Stdlib Require Import Ascii.

(** ** Joining and splitting *)
Fixpoint join (d : Z) (l : list str) : str :=
  match l with [] => [] | [a] => a | a :: l => a ++ d :: join d l end.

Lemma split_app d a b : d ∉ a → split d (a ++ d :: b) = a :: split d b.
Proof.
  induction a as [|c a IH]; intros H; cbn [app split]; [by rewrite Z.eqb_refl|].
  apply not_elem_of_cons in H as [Hc Ha]. rewrite (proj2 (Z.eqb_neq c d)) by done. by rewrite IH.
Qed.
Lemma split_none d a : d ∉ a → split d a = [a].
Proof.
  induction a as [|c a IH]; intros H; [done|]. apply not_elem_of_cons in H as [Hc Ha]. cbn [split].
  rewrite (proj2 (Z.eqb_neq c d)) by done. by rewrite IH.
Qed.
Lemma split_join d l : l ≠ [] → Forall (λ a, d ∉ a) l → split d (join d l) = l.
Proof.
  intros Hne Hl. induction Hl as [|a l Ha Hl IH]; [done|]. destruct l as [|b l]; [by apply split_none|].
  change (join d (a :: b :: l)) with (a ++ d :: join d (b :: l)). rewrite split_app by done. by rewrite IH.
Qed.
Lemma split_once_app d a b : d ∉ a → split_once d (a ++ d :: b) = Some (a, b).
Proof.
  induction a as [|c a IH]; intros H; cbn [app split_once]; [by rewrite Z.eqb_refl|].
  apply not_elem_of_cons in H as [Hc Ha]. rewrite (proj2 (Z.eqb_neq c d)) by done. by rewrite IH.
Qed.
Lemma split_once_none d a : d ∉ a → split_once d a = None.
Proof.
  induction a as [|c a IH]; intros H; [done|]. apply not_elem_of_cons in H as [Hc Ha]. cbn [split_once].
  rewrite (proj2 (Z.eqb_neq c d)) by done. by rewrite IH.
Qed.
Lemma position_app (p : Z → bool) a x b : Forall (λ c, p c = false) a → p x = true → position p (a ++ x :: b) = Some (length a).
Proof. intros Ha Hx. induction Ha as [|c a Hc Ha IH]; cbn [app position]; [by rewrite Hx|]. by rewrite Hc, IH. Qed.
Lemma not_in_join d e l : e ≠ d → Forall (λ a, e ∉ a) l → e ∉ join d l.
Proof.
  intros Hne Hl. induction Hl as [|a l Ha Hl IH]; [apply not_elem_of_nil|]. destruct l as [|b l]; [done|].
  change (join d (a :: b :: l)) with (a ++ d :: join d (b :: l)). rewrite not_elem_of_app, not_elem_of_cons. done.
Qed.

(** ** Lines *)
Definition with_newline (l : str) : str := l ++ [10].
Definition no_newline (l : str) : Prop := 10 ∉ l ∧ last l ≠ Some 13.

Lemma strip_cr_none l : last l ≠ Some 13 → strip_cr l = l.
Proof.
  unfold strip_cr. intros H. destruct (rev l) as [|c r] eqn:E; [done|].
  assert (l = rev r ++ [c]) as El by (rewrite <-(rev_involutive l), E; done).
  rewrite El, last_snoc in H. rewrite (proj2 (Z.eqb_neq c 13)) by congruence. done.
Qed.
Lemma lines_from_app cur l s : 10 ∉ l → lines_from cur (l ++ 10 :: s) = strip_cr (cur ++ l) :: lines_from [] s.
Proof.
  revert cur. induction l as [|c l IH]; intros cur H; cbn [app lines_from]; [by rewrite app_nil_r|].
  apply not_elem_of_cons in H as [Hc Hl]. rewrite (proj2 (Z.eqb_neq c 10)) by done. rewrite IH by done.
  by rewrite <-app_assoc.
Qed.
Lemma lines_concat ls : Forall no_newline ls → str_lines (concat (with_newline <$> ls)) = ls.
Proof.
  unfold str_lines. induction 1 as [|l ls [Hn Hr] _ IH]; [done|]. cbn. unfold with_newline at 1. rewrite <-app_assoc.
  cbn [app]. rewrite lines_from_app by done. cbn [app]. rewrite strip_cr_none by done. by f_equal.
Qed.

(** ** Printed pages *)
Inductive block :=
  | Para (t : str)
  | Head (depth : nat) (t : str)
  | Rule
  | Verbatim (ls : list str)
  | LinkLine (l : Link).

Definition escape (t : str) : str := flat_map (λ c, [chr "\"; c]) t.
Definition print_field (f : str * str) : str := f.1 ++ 61 :: f.2.
Definition print_link (l : Link) : str :=
  chr "[" :: join 96 (label l :: url l :: match fields l with [] => [] | fs => [join 124 (print_field <$> fs)] end) ++ [93].
Definition source_lines (b : block) : list str :=
  match b with
  | Para t => [escape t]
  | Head d t => [replicate d (chr ">") ++ escape t]
  | Rule => [lit "-"]
  | Verbatim ls => lit "`=" :: ls ++ [lit "`="]
  | LinkLine l => [chr "`" :: print_link l]
  end.
Definition print_page (bs : list block) : str := concat (with_newline <$> (bs ≫= source_lines)).

(** What the page is meant to show. *)
Definition render_block (doc : Document) (b : block) : Document :=
  match b with
  | Para t => push_line doc t Regular Left Text
  | Head d t => push_line doc t (Heading (Z.of_nat d)) Left Text
  | Rule => push_line doc [] Regular Left Divider
  | Verbatim ls => fold_left (λ doc l, push_line doc l Mono Left Text) ls doc
  | LinkLine l =>
      push_line (mkDoc (cache_secs doc) (title doc) (doc_lines doc) (links doc ++ [l]))
        (0xbb :: 32 :: label l) Regular Left (KLink (Z.of_nat (length (links doc))))
  end.
Definition render (bs : list block) : Document := fold_left render_block bs empty_doc.

Definition clean (l : str) : Prop := 93 ∉ l ∧ 96 ∉ l ∧ 10 ∉ l.
Definition field_ok (f : str * str) : Prop :=
  clean f.1 ∧ clean f.2 ∧ f.1 ≠ [] ∧ 61 ∉ f.1 ∧ 124 ∉ f.1 ∧ 124 ∉ f.2.
Definition link_ok (l : Link) : Prop := clean (label l) ∧ clean (url l) ∧ url l ≠ [] ∧ Forall field_ok (fields l).
Definition block_ok (b : block) : Prop :=
  match b with
  | Para t => no_newline t ∧ (t = [] ∨ trim t ≠ [])
  | Head d t => (1 ≤ d ≤ 3)%nat ∧ no_newline t ∧ trim t ≠ []
  | Rule => True
  | Verbatim ls => Forall (λ l, no_newline l ∧ trim l ≠ lit "`=" ∧ trim l ≠ lit "\`=") ls
  | LinkLine l => link_ok l
  end.
#[export] Instance block_ok_dec b : Decision (block_ok b).
Proof. destruct b; unfold block_ok, link_ok, field_ok, clean, no_newline; apply _. Defined.

(** ** Links *)
Lemma print_fields_back fs : fs ≠ [] → Forall field_ok fs → var_fields (join 124 (print_field <$> fs)) = fs.
Proof.
  intros Hne Hfs. unfold var_fields. rewrite split_join.
  - clear Hne. induction Hfs as [|[k v] fs (_ & _ & Hk & He & _) _ IH]; [done|]. cbn in Hk, He.
    change (print_field <$> (k, v) :: fs) with ((k ++ 61 :: v) :: (print_field <$> fs)). cbn [flat_map].
    rewrite split_once_app by done. destruct k; [done|]. cbn [app]. f_equal. exact IH.
  - by destruct fs.
  - apply Forall_fmap. eapply Forall_impl; [exact Hfs|]. intros [k v] (_ & _ & _ & _ & H1 & H2). cbn in *. unfold print_field. cbn.
    by rewrite not_elem_of_app, not_elem_of_cons.
Qed.

Lemma clean_field f : field_ok f → clean (print_field f).
Proof.
  intros ((A1 & A2 & A3) & (B1 & B2 & B3) & _). unfold clean, print_field.
  rewrite !not_elem_of_app, !not_elem_of_cons. done.
Qed.

(** The components between the brackets. *)
Definition link_parts (l : Link) : list str :=
  label l :: url l :: match fields l with [] => [] | fs => [join 124 (print_field <$> fs)] end.
Lemma link_parts_clean l : link_ok l → Forall clean (link_parts l).
Proof.
  intros (Hl & Hu & _ & Hf). constructor; [done|]. constructor; [done|]. destruct (fields l) as [|f fs]; [constructor|].
  assert (Forall clean (print_field <$> f :: fs)) as Hc.
  { apply Forall_fmap. eapply Forall_impl; [exact Hf|]. intros. by apply clean_field. }
  set (ks := print_field <$> f :: fs) in *. clearbody ks.
  constructor; [|constructor]. split_and!; apply not_in_join; try lia; (eapply Forall_impl; [exact Hc|]); by intros a (? & ? & ?).
Qed.

Lemma link_back l rest : link_ok l → try_parse_link (print_link l ++ rest) = Some (l, length (print_link l)).
Proof.
  intros Hl. pose proof (link_parts_clean l Hl) as Hp. destruct Hl as (_ & _ & Hu & Hf).
  unfold try_parse_link, print_link. fold (link_parts l). set (inner := join 96 (link_parts l)).
  assert (93 ∉ inner) as H93.
  { apply not_in_join; [lia|]. eapply Forall_impl; [exact Hp|]. by intros a (? & ? & ?). }
  assert (split 96 inner = link_parts l) as Es.
  { apply split_join; [done|]. eapply Forall_impl; [exact Hp|]. by intros a (? & ? & ?). }
  assert ((2 ≤ length inner + 1)%nat) as Hlen.
  { unfold inner, link_parts. destruct (fields l); cbn [join]; rewrite length_app; cbn [length]; lia. }
  clearbody inner.
  replace ((chr "[" :: inner ++ [93]) ++ rest) with ((chr "[" :: inner) ++ 93 :: rest) by (cbn; by rewrite <-app_assoc).
  rewrite position_app; [|constructor; [done|]|done].
  2:{ apply Forall_forall. intros c Hc. apply Z.eqb_neq. intros ->. done. }
  cbn [mbind option_bind length]. rewrite (proj2 (Nat.ltb_ge (S (length inner)) 2)) by lia.
  cbn [app drop]. rewrite drop_0, Nat.sub_succ, Nat.sub_0_r, take_app_length, Es. cbv zeta. unfold link_parts. cbn [head tail default].
  rewrite length_app. cbn [length]. rewrite Nat.add_1_r.
  destruct (url l) as [|u us] eqn:Eu; [done|]. destruct l as [lb ur fs]. cbn [label url fields] in *. subst ur. do 2 f_equal. f_equal.
  destruct fs as [|f fs]; [done|]. cbn [flat_map]. by rewrite app_nil_r, print_fields_back.
Qed.

(** ** Printed lines, parsed *)
Definition start : ScanState := mkScan false Left false.

(** A segment being read. *)
Definition reading (t : str) (doc : Document) : Scan :=
  match t with [] => mkS [] None None start doc | _ => mkS t (Some false) (Some Left) start doc end.
Lemma reading_push a t doc : fold_left push_seg_char t (reading a doc) = reading (a ++ t) doc.
Proof.
  revert a. induction t as [|c t IH]; intros a; cbn [fold_left]; [by rewrite app_nil_r|].
  assert (push_seg_char (reading a doc) c = reading (a ++ [c]) doc) as -> by (by destruct a).
  rewrite IH. by rewrite <-app_assoc.
Qed.

Lemma scan_escape t fuel h x : (length t < fuel)%nat → scan_loop fuel h x (escape t) = Some (fold_left push_seg_char t x).
Proof.
  revert fuel x. induction t as [|c t IH]; intros [|fuel] x H; cbn [length] in H; try lia; [done|].
  change (escape (c :: t)) with (chr "\" :: c :: escape t). cbn [scan_loop fold_left]. rewrite Z.eqb_refl. apply IH. lia.
Qed.
Lemma escape_length t : length (escape t) = (2 * length t)%nat.
Proof. induction t as [|c t IH]; [done|]. change (escape (c :: t)) with (chr "\" :: c :: escape t). cbn [length]. lia. Qed.

Lemma scan_text t h doc : trim t ≠ [] →
  scan_inline (escape t) h start doc =
  Some (start, push_line doc t (if 0 <? h then Heading h else Regular) Left Text).
Proof.
  intros Ht. unfold scan_inline. rewrite scan_escape by (rewrite escape_length; lia). cbn [mbind option_bind].
  change (mkS [] None None start doc) with (reading [] doc). rewrite reading_push. cbn [app].
  destruct t as [|c t]; [done|]. unfold flush_seg, reading. cbn [seg]. destruct (trim (c :: t)) as [|d u]; [done|]. done.
Qed.

Lemma trim_start_head c s : is_whitespace c = false → trim_start (c :: s) = c :: s.
Proof. intros H. cbn [trim_start]. by rewrite H. Qed.
Lemma trim_start_app s c : is_whitespace c = false → ∃ u, trim_start (s ++ [c]) = u ++ [c].
Proof.
  intros H. induction s as [|d s [u IH]]; cbn [app trim_start]; [rewrite H; by exists []|].
  destruct (is_whitespace d); [by exists u|by exists (d :: s)].
Qed.
(** Trimming keeps a visible first character first. *)
Lemma trim_head c s : is_whitespace c = false → ∃ u, trim (c :: s) = c :: u.
Proof.
  intros H. unfold trim, trim_end. rewrite trim_start_head by done. cbn [rev].
  destruct (trim_start_app (rev s) c H) as [u ->]. rewrite rev_app_distr. by exists (rev u).
Qed.

Lemma parse_para t doc : block_ok (Para t) → parse_line start doc (escape t) = Some (start, push_line doc t Regular Left Text).
Proof.
  intros [_ Ht]. destruct t as [|c t]; [done|]. destruct Ht as [|Ht]; [done|]. pose proof (scan_text (c :: t) 0 doc Ht) as Hs.
  change (escape (c :: t)) with (chr "\" :: c :: escape t) in *. destruct (trim_head (chr "\") (c :: escape t)) as [u Eu]; [done|].
  unfold parse_line. rewrite Eu, bool_decide_eq_false_2 by done. exact Hs.
Qed.

Lemma strip_heading_escape n d h t : (d ≤ n)%nat → strip_heading n h (replicate d (chr ">") ++ escape t) = (h + Z.of_nat d, escape t).
Proof.
  revert n h. induction d as [|d IH]; intros n h Hd.
  - cbn [replicate app]. rewrite Z.add_0_r. destruct n; [done|]. by destruct t.
  - destruct n as [|n]; [lia|]. cbn [replicate app strip_heading]. rewrite Z.eqb_refl, IH by lia. f_equal. lia.
Qed.
Lemma parse_head d t doc : block_ok (Head d t) →
  parse_line start doc (replicate d (chr ">") ++ escape t) = Some (start, push_line doc t (Heading (Z.of_nat d)) Left Text).
Proof.
  intros (Hd & _ & Ht). destruct d as [|d]; [lia|]. pose proof (strip_heading_escape 3 (S d) 0 t) as Hs.
  cbn [replicate app] in *. destruct (trim_head (chr ">") (replicate d (chr ">") ++ escape t)) as [u Eu]; [done|].
  unfold parse_line. rewrite Eu, bool_decide_eq_false_2 by done. cbn [literal start].
  change (strip_prefix (lit "#!c=") (chr ">" :: ?l)) with (@None str). cbn match.
  change (starts_with ?p (chr ">" :: ?l)) with false. cbn match. rewrite Hs by lia.
  rewrite (proj2 (Z.eqb_neq (0 + Z.of_nat (S d)) 0)) by lia. 
  assert (∀ b : bool, match escape t with [] => if b then Some (start, push_line doc [] Regular Left Text) else scan_inline (escape t) (0 + Z.of_nat (S d)) start doc
    | _ => scan_inline (escape t) (0 + Z.of_nat (S d)) start doc end = scan_inline (escape t) (0 + Z.of_nat (S d)) start doc) as Hm.
  { intros b. by destruct t. }
  pose proof (scan_text t (0 + Z.of_nat (S d)) doc Ht) as E. rewrite (proj2 (Z.ltb_lt 0 (0 + Z.of_nat (S d)))) in E by lia.
  destruct t as [|c t]; [done|]. exact E.
Qed.

Lemma parse_link l doc : link_ok l → (length (links doc) < Z.to_nat 65535)%nat →
  parse_line start doc (chr "`" :: print_link l) = Some (start, render_block doc (LinkLine l)).
Proof.
  intros Hl Hroom. destruct (trim_head (chr "`") (print_link l)) as [u Eu]; [done|].
  unfold parse_line. rewrite Eu.
  assert (u ≠ lit "=") as Hu.
  { intros ->. unfold trim, trim_end in Eu. rewrite trim_start_head in Eu by done. 
    assert (rev (trim_start (rev (chr "`" :: print_link l))) = chr "`" :: print_link l) as Er.
    { unfold print_link. set (inner := join _ _). rewrite <-(rev_involutive (chr "`" :: chr "[" :: inner ++ [93])) at 2. f_equal.
      cbn [rev]. rewrite rev_app_distr. done. }
    rewrite Er in Eu. unfold print_link in Eu. done. }
  rewrite bool_decide_eq_false_2 by (intros [=]; done). cbn [literal start].
  change (strip_prefix (lit "#!c=") (chr "`" :: ?l)) with (@None str). cbn match.
  change (starts_with ?p (chr "`" :: print_link l)) with false. cbn match.
  cbn [strip_heading]. change (chr "`" =? chr ">") with false. cbn match. rewrite Z.eqb_refl.
  change (strip_prefix (lit "<") (chr "`" :: ?l)) with (@None str). cbn [default].
  unfold scan_inline. cbn [length scan_loop]. change (chr "`" =? chr "\") with false. rewrite Z.eqb_refl. cbn match.
  assert (tag 0 (mkS [] None None start doc) (print_link l) = (push_link 0 (mkS [] None None start doc) l, [])) as Et.
  { pose proof (link_back l [] Hl) as Hb. rewrite app_nil_r in Hb. unfold tag. 
    unfold print_link in Hb |- *. set (inner := join _ _ ++ _) in *. clearbody inner.
    repeat match goal with |- context [chr "[" =? ?c] => change (chr "[" =? c) with false || change (chr "[" =? c) with true end.
    cbn [orb]. cbn match. rewrite Hb, drop_all. done. }
  rewrite Et. destruct (length (print_link l)) as [|n] eqn:En; [done|]. cbn [scan_loop mbind option_bind].
  unfold push_link. change (0 <? 0) with false. cbv match zeta.
  change (flush_seg 0 (mkS [] None None start doc)) with (mkS [] None None start doc). cbn [sc_doc].
  rewrite (proj2 (Nat.ltb_lt (length (links doc)) _)) by done. done.
Qed.

Lemma parse_rule doc : parse_line start doc (lit "-") = Some (start, push_line doc [] Regular Left Divider).
Proof. done. Qed.
Definition in_literal : ScanState := mkScan false Left true.
Lemma parse_toggle st doc : parse_line st doc (lit "`=") = Some (mkScan (bold st) (st_align st) (negb (literal st)), doc).
Proof. done. Qed.
Lemma parse_verbatim doc l : trim l ≠ lit "`=" → trim l ≠ lit "\`=" →
  parse_line in_literal doc l = Some (in_literal, push_line doc l Mono Left Text).
Proof. intros H1 H2. unfold parse_line. rewrite !bool_decide_eq_false_2 by done. done. Qed.

(** ** Pages *)
Definition doc_len (doc : Document) : nat := length (doc_lines doc).
Lemma push_line_len doc t s a k : (doc_len doc ≤ doc_len (push_line doc t s a k))%nat.
Proof. unfold doc_len, push_line. cbn [doc_lines]. destruct (Nat.ltb _ _); [rewrite length_app; lia|lia]. Qed.
Lemma verbatim_len ls doc : (doc_len doc ≤ doc_len (fold_left (λ doc l, push_line doc l Mono Left Text) ls doc))%nat.
Proof.
  revert doc. induction ls as [|l ls IH]; intros doc; cbn [fold_left]; [lia|].
  etrans; [apply (push_line_len doc l Mono Left Text)|]. apply IH.
Qed.
Lemma render_len b doc : (doc_len doc ≤ doc_len (render_block doc b))%nat.
Proof.
  destruct b; cbn [render_block]; try apply push_line_len; [apply verbatim_len|].
  apply (push_line_len (mkDoc (cache_secs doc) (title doc) (doc_lines doc) (links doc ++ [l]))).
Qed.
Lemma renders_len bs doc : (doc_len doc ≤ doc_len (fold_left render_block bs doc))%nat.
Proof.
  revert doc. induction bs as [|b bs IH]; intros doc; cbn [fold_left]; [lia|]. etrans; [apply (render_len b)|]. apply IH.
Qed.

Lemma push_line_room doc t s a k : (doc_len doc < MAX_LINES)%nat → doc_len (push_line doc t s a k) = S (doc_len doc).
Proof.
  unfold doc_len, push_line. intros H. cbn [doc_lines]. rewrite (proj2 (Nat.ltb_lt _ _) H), length_app. cbn. lia.
Qed.
(** A page with room has no more links than lines. *)
Lemma push_line_links doc t s a k : links (push_line doc t s a k) = links doc.
Proof. done. Qed.
Lemma verbatim_links ls doc : links (fold_left (λ doc l, push_line doc l Mono Left Text) ls doc) = links doc.
Proof. revert doc. induction ls as [|l ls IH]; intros doc; cbn [fold_left]; [done|]. by rewrite IH. Qed.
Lemma render_links b doc : (length (links doc) ≤ doc_len doc)%nat → (doc_len doc < MAX_LINES)%nat →
  (length (links (render_block doc b)) ≤ doc_len (render_block doc b))%nat.
Proof.
  intros Hl Hm. pose proof (render_len b doc) as Hlen. destruct b; cbn [render_block] in *; rewrite ?push_line_links, ?verbatim_links; try lia.
  unfold doc_len in *. set (d := mkDoc _ _ _ _). pose proof (push_line_room d (0xbb :: 32 :: label l) Regular Left (KLink (Z.of_nat (length (links doc))))) as Hr.
  unfold doc_len in Hr. rewrite Hr by (cbn; lia). cbn. rewrite length_app. cbn. lia.
Qed.

Lemma parse_step st doc st' doc' line ls : (doc_len doc < MAX_LINES)%nat → parse_line st doc line = Some (st', doc') →
  parse_lines st doc (line :: ls) = parse_lines st' doc' ls.
Proof.
  intros Hm E. cbn [parse_lines]. unfold doc_len in Hm. rewrite (proj2 (Nat.leb_gt _ _)) by done. by rewrite E.
Qed.

Lemma parse_verbatims ls doc rest : Forall (λ l, no_newline l ∧ trim l ≠ lit "`=" ∧ trim l ≠ lit "\`=") ls →
  (doc_len (fold_left (λ doc l, push_line doc l Mono Left Text) ls doc) < MAX_LINES)%nat →
  parse_lines in_literal doc (ls ++ rest) = parse_lines in_literal (fold_left (λ doc l, push_line doc l Mono Left Text) ls doc) rest.
Proof.
  intros Hls. revert doc. induction Hls as [|l ls (_ & H1 & H2) _ IH]; intros doc Hm; cbn [app fold_left] in *; [done|].
  rewrite (parse_step _ _ in_literal (push_line doc l Mono Left Text)).
  - by apply IH.
  - pose proof (push_line_len doc l Mono Left Text). pose proof (verbatim_len ls (push_line doc l Mono Left Text)). lia.
  - by apply parse_verbatim.
Qed.

Lemma parse_block b doc rest : block_ok b → (length (links doc) ≤ doc_len doc)%nat → (doc_len (render_block doc b) < MAX_LINES)%nat →
  parse_lines start doc (source_lines b ++ rest) = parse_lines start (render_block doc b) rest.
Proof.
  intros Hb Hl Hm. pose proof (render_len b doc) as Hlen. assert (doc_len doc < MAX_LINES)%nat as Hd by lia.
  destruct b as [t|d t| |ls|l]; cbn [source_lines app].
  - apply parse_step; [done|]. by apply parse_para.
  - apply parse_step; [done|]. by apply parse_head.
  - apply parse_step; [done|]. apply parse_rule.
  - rewrite (parse_step _ _ in_literal doc) by (done || apply parse_toggle). rewrite <-app_assoc.
    rewrite parse_verbatims by done. cbn [app]. apply parse_step; [exact Hm|apply parse_toggle].
  - apply parse_step; [done|]. apply parse_link; [done|]. unfold MAX_LINES in Hd. lia.
Qed.

Lemma parse_blocks bs doc : Forall block_ok bs → (length (links doc) ≤ doc_len doc)%nat →
  (doc_len (fold_left render_block bs doc) < MAX_LINES)%nat →
  parse_lines start doc (bs ≫= source_lines) = Some (fold_left render_block bs doc).
Proof.
  intros Hbs. revert doc. induction Hbs as [|b bs Hb _ IH]; intros doc Hl Hm; [done|]. cbn [mbind list_bind fold_left] in *.
  pose proof (renders_len bs (render_block doc b)). pose proof (render_len b doc).
  rewrite parse_block by (done || lia). apply IH; [apply render_links; [done|lia]|done].
Qed.

Lemma escape_no_newline t : no_newline t → no_newline (escape t).
Proof.
  intros [H1 H2]. split.
  - induction t as [|c t IH]; [done|]. change (escape (c :: t)) with (chr "\" :: c :: escape t).
    apply not_elem_of_cons in H1 as [Hc Ht]. rewrite !not_elem_of_cons. split_and!; [done|done|]. apply IH; [done|].
    destruct t; [done|]. exact H2.
  - destruct t as [|c t _] using rev_ind; [done|]. rewrite last_snoc in H2.
    assert (escape (t ++ [c]) = (escape t ++ [chr "\"]) ++ [c]) as ->.
    { unfold escape. rewrite flat_map_app. cbn. by rewrite <-app_assoc. }
    by rewrite last_snoc.
Qed.
Lemma no_newline_app p t : 10 ∉ p → t ≠ [] → no_newline t → no_newline (p ++ t).
Proof.
  intros Hp Ht [H1 H2]. split; [by rewrite not_elem_of_app|]. destruct t as [|c t _] using rev_ind; [done|].
  rewrite app_assoc, last_snoc. by rewrite last_snoc in H2.
Qed.

Lemma source_no_newline b : block_ok b → Forall no_newline (source_lines b).
Proof.
  destruct b as [t|d t| |ls|l]; cbn [block_ok source_lines]; intros Hb.
  - constructor; [|done]. apply escape_no_newline, Hb.
  - destruct Hb as (_ & Hn & Ht). constructor; [|done]. apply no_newline_app; [|by destruct t|by apply escape_no_newline].
    intros [E _]%elem_of_replicate. discriminate E.
  - constructor; [|done]. apply (bool_decide_unpack _). done.
  - assert (no_newline (lit "`=")) as Hq by (apply (bool_decide_unpack _); done). constructor; [done|].
    apply Forall_app. split; [|by constructor]. eapply Forall_impl; [exact Hb|]. by intros l (? & ? & ?).
  - constructor; [|done]. unfold print_link. fold (link_parts l).
    assert (10 ∉ join 96 (link_parts l)) as Hj.
    { apply not_in_join; [lia|]. eapply Forall_impl; [apply link_parts_clean, Hb|]. by intros a (? & ? & ?). }
    split; [|rewrite (app_comm_cons _ _ (chr "[")), (app_comm_cons _ _ (chr "`")), last_snoc; done].
    rewrite !not_elem_of_cons, not_elem_of_app, list_elem_of_singleton. done.
Qed.

Lemma print_parses (bs : list block) (Hok : Forall block_ok bs)
  (Hsize : (str_len (print_page bs) ≤ MAX_INPUT_BYTES)%nat) (Hlines : (length (doc_lines (render bs)) < MAX_LINES)%nat) :
  parse (print_page bs) = Some (render bs).
Proof.
  unfold parse, truncate_utf8. rewrite (proj2 (Nat.leb_le _ _) Hsize). cbn [mbind option_bind].
  unfold print_page. rewrite lines_concat.
  - apply parse_blocks; [done|cbn; lia|exact Hlines].
  - apply Forall_bind. eapply Forall_impl; [exact Hok|]. apply source_no_newline.
Qed.

(** What a page can say: the markup printed for any sequence of paragraphs (with every
    character escaped), headings, rules, verbatim blocks and links with their variables,
    within the size limits, parses to exactly that document. *)
Theorem page_roundtrip (bs : list block) (Hok : Forall block_ok bs)
  (Hsize : (str_len (print_page bs) ≤ MAX_INPUT_BYTES)%nat) (Hlines : (length (doc_lines (render bs)) < MAX_LINES)%nat) :
  parse (print_page bs) = Some (render bs).
Proof. by apply print_parses. Qed.

Definition sample_page : list block :=
  [Head 1 (lit "Aleph `Git`"); Para (lit "-not a rule"); Para []; Rule;
   LinkLine (mkLink (lit "mirrors") (lit ":/page/group.mu") [(lit "g", lit "mirrors"); (lit "s", [])]);
   Verbatim [lit "# verbatim"; lit ">`!"]].
Lemma page_roundtrip_witness : parse (print_page sample_page) = Some (render sample_page).
Proof.
  apply page_roundtrip.
  - apply (bool_decide_unpack _). vm_compute. exact I.
  - apply (Nat.leb_le _ _). vm_compute. reflexivity.
  - apply (Nat.ltb_lt _ _). vm_compute. reflexivity.
Defined.

(** ** Link targets *)
Definition nibble (n : Z) : Z := if n <? 10 then 48 + n else 87 + n.
Definition hex (h : bytes) : str := flat_map (λ b, [nibble (b / 16); nibble (b mod 16)]) h.
Definition print_target (t : LinkTarget) : str :=
  match t with
  | SameNode path => chr ":" :: path
  | OtherNode h path => hex h ++ chr ":" :: path
  | NodeIndex h => hex h
  | Lxmf h => lit "lxmf@" ++ hex h
  | Anchor => lit "#"
  | Unsupported => []
  end.

(** Text that trimming leaves alone. *)
Definition visible (c : Z) : Prop := is_whitespace c = false.
Definition visible_ends (s : str) : Prop := ∃ a b, head s = Some a ∧ last s = Some b ∧ visible a ∧ visible b.
Lemma trim_id s : visible_ends s → trim s = s.
Proof.
  intros (a & b & Ha & Hb & Va & Vb). unfold trim, trim_end. destruct s as [|c s]; [done|]. injection Ha as ->.
  rewrite trim_start_head by done. destruct (a :: s) as [|e r _] using rev_ind; [done|].
  rewrite last_snoc in Hb. injection Hb as ->. rewrite rev_app_distr. cbn [rev app]. rewrite trim_start_head by done.
  cbn [rev]. by rewrite rev_involutive.
Qed.

Definition target_ok (t : LinkTarget) : Prop :=
  let path_ok (path : str) := 64 ∉ path ∧ ∃ b, last path = Some b ∧ visible b in
  let hash_ok (h : bytes) := bytes_ok h ∧ length h = 16%nat in
  match t with
  | SameNode path => path_ok path
  | OtherNode h path => hash_ok h ∧ path_ok path
  | NodeIndex h | Lxmf h => hash_ok h
  | Anchor | Unsupported => True
  end.

Definition nibble_char (c : Z) : Prop := is_ascii_hexdigit c = true ∧ visible c ∧ len_utf8 c = 1%nat ∧ c ≠ 35 ∧ c ≠ 58 ∧ c ≠ 64.
#[export] Instance nibble_char_dec c : Decision (nibble_char c).
Proof. unfold nibble_char, visible. apply _. Defined.
Lemma byte_hex b : is_byte b → nibble_char (nibble (b / 16)) ∧ nibble_char (nibble (b mod 16)) ∧
  u8_from_hex [nibble (b / 16); nibble (b mod 16)] = Some b.
Proof.
  intros Hb. apply (bool_decide_eq_true_1 _). revert b Hb. apply byte_forall. vm_compute. reflexivity.
Qed.
Lemma hex_chars h : bytes_ok h → Forall nibble_char (hex h).
Proof. induction 1 as [|b h Hb _ IH]; [constructor|]. destruct (byte_hex b Hb) as (H1 & H2 & _). constructor; [done|]. by constructor. Qed.
Lemma hex_length h : length (hex h) = (2 * length h)%nat.
Proof. induction h as [|b h IH]; [done|]. change (hex (b :: h)) with (nibble (b / 16) :: nibble (b mod 16) :: hex h). cbn [length]. lia. Qed.
Lemma nibbles_len s : Forall nibble_char s → str_len s = length s.
Proof. induction 1 as [|c s (_ & _ & Hc & _) _ IH]; [done|]. cbn [str_len length]. by rewrite Hc, IH. Qed.
Lemma hash_bytes_hex h : bytes_ok h → hash_bytes (length h) (hex h) = Some h.
Proof.
  induction 1 as [|b h Hb _ IH]; [done|]. destruct (byte_hex b Hb) as (_ & _ & E).
  change (hex (b :: h)) with (nibble (b / 16) :: nibble (b mod 16) :: hex h). cbn [length hash_bytes].
  change (take 2 (?x :: ?y :: ?l)) with [x; y]. change (drop 2 (?x :: ?y :: ?l)) with l. rewrite E. cbn [mbind option_bind]. by rewrite IH.
Qed.
Lemma nibbles_ends s : Forall nibble_char s → s ≠ [] → visible_ends s.
Proof.
  intros Hs Hne. destruct s as [|a s]; [done|]. pose proof Hs as Hs'. apply Forall_cons in Hs' as [(_ & Va & _) _].
  destruct (last (a :: s)) as [b|] eqn:Eb; [|by apply last_None in Eb]. exists a, b. split_and!; [done|done|done|].
  apply last_Some_elem_of in Eb. rewrite Forall_forall in Hs. by destruct (Hs b Eb) as (_ & ? & _).
Qed.

Lemma parse_hash_hex h : bytes_ok h → length h = 16%nat → parse_hash (hex h) = Some h.
Proof.
  intros Hh Lh. pose proof (hex_chars h Hh) as Hc. pose proof (hex_length h) as Hl.
  unfold parse_hash. rewrite trim_id by (apply nibbles_ends; [done|]; destruct (hex h); [cbn in Hl; lia|done]).
  rewrite (nibbles_len _ Hc), Hl, Lh.
  assert (forallb is_ascii_hexdigit (hex h) = true) as ->.
  { apply forallb_forall. intros c Hin%list_elem_of_In. rewrite Forall_forall in Hc. by destruct (Hc c Hin). }
  change (2 * 16 =? 32)%nat with true. cbn [negb orb]. pose proof (hash_bytes_hex h Hh) as E. by rewrite Lh in E.
Qed.

Lemma hex_avoids c h : bytes_ok h → c = 35 ∨ c = 58 ∨ c = 64 → c ∉ hex h.
Proof. intros Hh Hc Hin. pose proof (hex_chars h Hh) as H. rewrite Forall_forall in H. destruct (H c Hin) as (_ & _ & _ & ? & ? & ?). lia. Qed.
Lemma hex_not_nil h : length h = 16%nat → hex h ≠ [].
Proof. by destruct h. Qed.
Lemma visible_ends_app a b : a ≠ [] → visible_ends a → (∃ c, last b = Some c ∧ visible c) → visible_ends (a ++ b).
Proof.
  intros Ha (x & y & Hx & _ & Vx & _) (c & Hc & Vc). exists x, c. split_and!; [|by rewrite last_app, Hc|done|done].
  by destruct a.
Qed.
Lemma starts_with_cons d c s : starts_with [d] (c :: s) = (d =? c).
Proof. unfold starts_with. cbn. by destruct (d =? c). Qed.

(** A target, written as a link URL in the notation of NomadNet, resolves to itself:
    paths on this node or another, a node's index, messaging addresses and anchors. *)
Theorem resolve_roundtrip (t : LinkTarget) (Ht : target_ok t) : resolve_link (print_target t) = t.
Proof.
  destruct t as [path|h path|h|h| |]; cbn [print_target target_ok] in *; [..|done|done].
  - destruct Ht as (Hat & b & Hb & Vb). unfold resolve_link; cbv zeta.
    rewrite trim_id by (apply (visible_ends_app [chr ":"]); [done|by exists 58, 58|by exists b]).
    rewrite split_once_none by (apply not_elem_of_cons; split; [done|exact Hat]). done.
  - destruct Ht as [[Hh Lh] (Hat & b & Hb & Vb)]. unfold resolve_link; cbv zeta. pose proof (hex_chars h Hh) as Hc.
    pose proof (hex_not_nil h Lh) as Hne. pose proof (parse_hash_hex h Hh Lh) as Hp.
    rewrite trim_id by (apply visible_ends_app; [done|by apply nibbles_ends|exists b; split; [by rewrite last_cons, Hb|done]]).
    rewrite split_once_none by (rewrite not_elem_of_app, not_elem_of_cons; split_and!; [apply hex_avoids; auto|done|exact Hat]).
    rewrite split_once_app by (apply hex_avoids; auto).
    pose proof (hex_avoids 35 h Hh ltac:(auto)) as H35. destruct (hex h) as [|c s]; [done|]. cbn [app].
    apply not_elem_of_cons in H35 as [H35 _]. change (lit "#") with [35]. rewrite starts_with_cons, (proj2 (Z.eqb_neq 35 c)) by done.
    rewrite Hp. by destruct path.
  - destruct Ht as [Hh Lh]. unfold resolve_link; cbv zeta. pose proof (hex_chars h Hh) as Hc.
    pose proof (hex_not_nil h Lh) as Hne. pose proof (parse_hash_hex h Hh Lh) as Hp.
    rewrite trim_id by (by apply nibbles_ends).
    rewrite !split_once_none by (apply hex_avoids; auto). rewrite Hp.
    pose proof (hex_avoids 35 h Hh ltac:(auto)) as H35. destruct (hex h) as [|c s]; [done|].
    apply not_elem_of_cons in H35 as [H35 _]. change (lit "#") with [35]. rewrite starts_with_cons, (proj2 (Z.eqb_neq 35 c)) by done. done.
  - destruct Ht as [Hh Lh]. unfold resolve_link; cbv zeta. pose proof (hex_chars h Hh) as Hc.
    pose proof (hex_not_nil h Lh) as Hne. pose proof (parse_hash_hex h Hh Lh) as Hp.
    assert (visible_ends (hex h)) as (a & b & _ & Hb & _ & Vb) by (by apply nibbles_ends).
    rewrite trim_id by (apply visible_ends_app; [done|by exists 108, 64|by exists b]).
    change (lit "lxmf@" ++ hex h) with (lit "lxmf" ++ 64 :: hex h). rewrite split_once_app by (apply (bool_decide_unpack _); done).
    rewrite split_none by (apply hex_avoids; auto). change (default [] (head [?x])) with x. rewrite Hp. done.
Qed.

Lemma resolve_roundtrip_witness :
  resolve_link (print_target (OtherNode (replicate 16 0xab) (lit "/page/x.mu"))) = OtherNode (replicate 16 0xab) (lit "/page/x.mu").
Proof.
  apply resolve_roundtrip. split; [split|split].
  - apply (bool_decide_unpack _). vm_compute. exact I.
  - reflexivity.
  - apply (bool_decide_unpack _). vm_compute. exact I.
  - exists (chr "u"). split; reflexivity.
Defined.

(** A space before a bold tag fixes the style of the line. *)
Lemma leading_space_style :
  parse (lit " `!bold") = Some (mkDoc None None [mkLine (lit " bold") Regular Left Text] []).
Proof. vm_compute. reflexivity. Qed.
