(* ===== verification/AutoInterface.v ===== *)
(** AutoInterface: the derivations of [reticulum-core/src/autointerface.rs] and the peer
    table of [lxmfchat/src/autoiface.rs].

    Sockets, threads and the clock are outside: a step takes the datagram received or
    the clock readings and returns the datagrams to send.  An [Ipv6Addr] is its 128-bit
    value, and a [BTreeMap] the list of its entries in key order. *)
From S2P Require Import Prelude Constants Crypto.
From Stdlib Require Import Sorted.

(** ** IPv6 addresses *)
Definition segment (a : Z) (i : nat) : Z := Z.shiftr a (16 * (7 - Z.of_nat i)) mod 2 ^ 16.
Definition segments (a : Z) : list Z := segment a <$> seq 0 8.
(** [Ipv6Addr::new] *)
Definition of_segments (l : list Z) : Z := fold_left (λ acc s, acc * 2 ^ 16 + s) l 0.
Definition octets (a : Z) : bytes := be_bytes 16 a.

(** [Display]: hexadecimal segments, the first longest run of at least two zeros
    compressed, an IPv4-mapped address with its dotted quad. *)
Definition hex_char (n : Z) : Z := if n <? 10 then 48 + n else 87 + n.
Fixpoint hex_digits (fuel : nat) (n : Z) (acc : bytes) : bytes :=
  match fuel with
  | O => acc
  | S fuel => let acc := hex_char (n mod 16) :: acc in if n / 16 =? 0 then acc else hex_digits fuel (n / 16) acc
  end.
Fixpoint dec_digits (fuel : nat) (n : Z) (acc : bytes) : bytes :=
  match fuel with
  | O => acc
  | S fuel => let acc := 48 + n mod 10 :: acc in if n / 10 =? 0 then acc else dec_digits fuel (n / 10) acc
  end.
Fixpoint join_with (d : Z) (l : list bytes) : bytes :=
  match l with [] => [] | [a] => a | a :: l => a ++ d :: join_with d l end.
Definition fmt_subslice (l : list Z) : bytes := join_with 58 ((λ s, hex_digits 4 s []) <$> l).
(** The scan for the longest run: [(current, longest)], each [(start, len)]. *)
Definition zero_span (st : (nat * nat) * (nat * nat)) (e : nat * Z) : (nat * nat) * (nat * nat) :=
  let '((cs, cl), longest) := st in
  let '(i, s) := e in
  if s =? 0 then
    let current := (if (cl =? 0)%nat then i else cs, S cl) in
    (current, if (longest.2 <? S cl)%nat then current else longest)
  else ((0, 0)%nat, longest).
Definition ipv6_to_string (a : Z) : bytes :=
  let o := octets a in
  if bool_decide (take 12 o = replicate 10 0 ++ [0xff; 0xff]) then
    [58; 58; 102; 102; 102; 102; 58] ++ join_with 46 ((λ b, dec_digits 3 b []) <$> drop 12 o)
  else
    let s := segments a in
    let '(start, len) := (fold_left zero_span (zip (seq 0 8) s) ((0, 0)%nat, (0, 0)%nat)).2 in
    if (1 <? len)%nat then fmt_subslice (take start s) ++ [58; 58] ++ fmt_subslice (drop (start + len) s)
    else fmt_subslice s.

(** ** Maps in key order *)
Section btree.
Context {V : Type}.
Fixpoint bt_get (k : Z) (m : list (Z * V)) : option V :=
  match m with [] => None | (k', v) :: m => if k' =? k then Some v else bt_get k m end.
Fixpoint bt_insert (k : Z) (v : V) (m : list (Z * V)) : list (Z * V) :=
  match m with
  | [] => [(k, v)]
  | (k', v') :: m' => if k <? k' then (k, v) :: m else if k' =? k then (k, v) :: m' else (k', v') :: bt_insert k v m'
  end.
Definition bt_remove (k : Z) (m : list (Z * V)) : list (Z * V) := filter (λ e, e.1 ≠ k) m.
(** The first entry with the smallest measure. *)
Fixpoint min_by (f : V → Z) (m : list (Z * V)) : option (Z * V) :=
  match m with
  | [] => None
  | e :: m => match min_by f m with Some e' => if f e'.2 <? f e.2 then Some e' else Some e | None => Some e end
  end.
End btree.

(** ** Peer discovery *)
Definition DISCOVERY_TOKEN_LENGTH : nat := 32%nat.
Definition GROUP_ID : bytes := [114; 101; 116; 105; 99; 117; 108; 117; 109].
Definition DISCOVERY_PORT : Z := 29716.
Definition UNICAST_DISCOVERY_PORT : Z := 29717.
Definition DATA_PORT : Z := 42671.
Definition ANNOUNCE_INTERVAL_MS : Z := 10000.
Definition REVERSE_INTERVAL_MS : Z := 5200.
Definition ANNOUNCE_AFTER_SECS : Z := 6.
Definition PEERING_TIMEOUT_SECS : Z := 22.
Definition MAX_PEERS : nat := 16%nat.
Definition HW_MTU : nat := Z.to_nat 1196.
Definition REJOIN_INTERVAL_SECS : Z := 15.

Record Peer := mkPeer { heard : Z; token_sent : Z; discovered : Z; announced : bool }.
(** [tx] is whether the sending socket is there; [auto_enabled] is the flag of [Shared]. *)
Record AutoState := mkAuto {
  auto_enabled : bool;
  started : bool;
  our_ll : option Z;
  scope : Z;
  tx : bool;
  peers : list (Z * Peer);
}.
Definition auto_new : AutoState := mkAuto false false None 0 false [].
Definition with_peers (s : AutoState) (ps : list (Z * Peer)) : AutoState :=
  mkAuto (auto_enabled s) (started s) (our_ll s) (scope s) (tx s) ps.
Definition enabled (s : AutoState) : bool := auto_enabled s.

(** The address a Wi-Fi MAC gives. *)
Definition link_local (mac : bytes) : bytes :=
  match mac with
  | [m0; m1; m2; m3; m4; m5] => [0xfe; 0x80; 0; 0; 0; 0; 0; 0; Z.lxor m0 0x02; m1; m2; 0xff; 0xfe; m3; m4; m5]
  | _ => []
  end.

(** [start], given what the system answers: our address, whether the sockets bind and
    whether the sending one can be cloned. *)
Definition start (s : AutoState) (ll : option (Z * Z)) (binds clone : bool) : AutoState * bool :=
  match ll with
  | None => (s, false)
  | Some (a, sc) =>
      let s := mkAuto (auto_enabled s) (started s) (Some a) sc (tx s) (peers s) in
      if started s then (mkAuto true (started s) (our_ll s) (scope s) (tx s) (peers s), true)
      else if negb binds then (s, false)
      else (mkAuto true true (our_ll s) (scope s) clone (peers s), true)
  end.
Definition stop (s : AutoState) : AutoState := mkAuto false (started s) (our_ll s) (scope s) (tx s) [].

Section auto.
Context `{C : Crypto}.

Definition group_discovery_address (group_id : bytes) : res Z :=
  let g := full_hash group_id in
  let seg (i : nat) : res Z := a ← index g i; b ← index g (i + 1); mret (Z.lor (Z.shiftl a 8 mod 2 ^ 16) b) in
  s2 ← seg 2%nat; s4 ← seg 4%nat; s6 ← seg 6%nat; s8 ← seg 8%nat; s10 ← seg 10%nat; s12 ← seg 12%nat;
  mret (of_segments [0xff12; 0; s2; s4; s6; s8; s10; s12]).
Definition discovery_token (group_id : bytes) (addr : Z) : bytes := full_hash (group_id ++ ipv6_to_string addr).

(** One datagram on a discovery socket: [src] is [None] for an IPv4 source; the result
    says whether a new peer was found. *)
Definition discovery_rx (s : AutoState) (now : Z) (src : option Z) (buf : bytes) : AutoState * bool :=
  if negb (enabled s) then (s, false) else
  match src with
  | None => (s, false)
  | Some src_ip =>
      if bool_decide (Some src_ip = our_ll s) then (s, false)
      else if bool_decide ((length buf < 32)%nat ∨ take 32 buf ≠ discovery_token GROUP_ID src_ip) then (s, false)
      else
        let is_new := match bt_get src_ip (peers s) with None => true | Some _ => false end in
        let ps :=
          if is_new && (MAX_PEERS <=? length (peers s))%nat then
            match min_by heard (peers s) with Some (oldest, _) => bt_remove oldest (peers s) | None => peers s end
          else peers s in
        let p := match bt_get src_ip ps with
                 | Some p => mkPeer now (token_sent p) (discovered p) (announced p)
                 | None => mkPeer now 0 now false
                 end in
        (with_peers s (bt_insert src_ip p ps), is_new)
  end.

(** Whether a datagram on the data socket is handed to the transport. *)
Definition data_rx (s : AutoState) (src : option Z) (buf : bytes) : bool :=
  if negb (enabled s) || (length buf =? 0)%nat || (HW_MTU <? length buf)%nat then false else
  match src with
  | None => false
  | Some src_ip => match bt_get src_ip (peers s) with Some _ => true | None => false end
  end.

(** ** The announce loop *)

Definition saturating_sub (a b : Z) : Z := if b <=? a then a - b else 0.
Definition u64 (x : Z) : Z := x mod 2 ^ 64.

(** What is sent: a port, an address and a payload; or the group is joined again. *)
Inductive Send := SendTo (port : Z) (addr : Z) (payload : bytes) | Rejoin.
(** The variables of the loop. *)
Record Timers := mkTimers { last_beacon : Z; last_rejoin : Z }.
(** The readings of the clock in one tick, in order: before and after the two guards that
    read it twice, then for the peers. *)
Record Clock := mkClock { t_rejoin : Z; t_rejoined : Z; t_beacon : Z; t_beaconed : Z; t_now : Z }.

Definition is_expired (now : Z) (p : Peer) : bool := u64 (heard p + PEERING_TIMEOUT_SECS) <? now.
Definition is_reverse (now : Z) (p : Peer) : bool :=
  REVERSE_INTERVAL_MS <=? u64 (saturating_sub now (token_sent p) * 1000).
Definition is_due (now : Z) (p : Peer) : bool := negb (announced p) && (u64 (discovered p + ANNOUNCE_AFTER_SECS) <=? now).

(** The peers pass: who is left, who gets a reverse token, who gets our announce. *)
Definition tick_peers (now : Z) (ps : list (Z * Peer)) : list (Z * Peer) * list Z * list Z :=
  let expired := (filter (λ e, is_expired now e.2 = true) ps).*1 in
  let ps := fold_left (λ ps a, bt_remove a ps) expired ps in
  let reverse := (filter (λ e, is_reverse now e.2 = true) ps).*1 in
  let ps := (λ e, if is_reverse now e.2 then (e.1, mkPeer (heard e.2) now (discovered e.2) (announced e.2)) else e) <$> ps in
  let due := (filter (λ e, is_due now e.2 = true) ps).*1 in
  let ps := (λ e, if is_due now e.2 then (e.1, mkPeer (heard e.2) (token_sent e.2) (discovered e.2) true) else e) <$> ps in
  (ps, reverse, due).

(** [raw] is the announce the transport builds. *)
Definition announce_tick (s : AutoState) (group : Z) (tm : Timers) (c : Clock) (raw : bytes) : AutoState * Timers * list Send :=
  match our_ll s, tx s with
  | Some ll, true =>
      let rejoin := match peers s with [] => REJOIN_INTERVAL_SECS <=? saturating_sub (t_rejoin c) (last_rejoin tm) | _ => false end in
      let tm := if rejoin then mkTimers (last_beacon tm) (t_rejoined c) else tm in
      let token := discovery_token GROUP_ID ll in
      let beacon := ANNOUNCE_INTERVAL_MS <=? u64 (saturating_sub (t_beacon c) (last_beacon tm) * 1000) in
      let tm := if beacon then mkTimers (t_beaconed c) (last_rejoin tm) else tm in
      let '(ps, reverse, due) := tick_peers (t_now c) (peers s) in
      (with_peers s ps, tm,
       (if rejoin then [Rejoin] else []) ++ (if beacon then [SendTo DISCOVERY_PORT group token] else []) ++
       ((λ a, SendTo UNICAST_DISCOVERY_PORT a token) <$> reverse) ++ ((λ a, SendTo DATA_PORT a raw) <$> due))
  | _, _ => (s, tm, [])
  end.
(** One pass of the loop: nothing while disabled. *)
Definition announce_loop (s : AutoState) (group : Z) (tm : Timers) (c : Clock) (raw : bytes) : AutoState * Timers * list Send :=
  if negb (enabled s) then (s, tm, []) else announce_tick s group tm c raw.

Definition send_to_peers (s : AutoState) (raw : bytes) : list Send :=
  if (length raw =? 0)%nat || (HW_MTU <? length raw)%nat || negb (enabled s) then []
  else if tx s then (λ e, SendTo DATA_PORT e.1 raw) <$> peers s else [].

End auto.

(** ** Map lemmas *)
Section btree_lemmas.
Context {V : Type}.
Implicit Types (m : list (Z * V)) (k : Z) (v : V).

Definition key_lt (x y : Z * V) : Prop := x.1 < y.1.
Definition sorted m : Prop := StronglySorted key_lt m.

Lemma bt_get_insert k v m k' : bt_get k' (bt_insert k v m) = if decide (k' = k) then Some v else bt_get k' m.
Proof.
  induction m as [|[a w] m IH]; cbn [bt_insert bt_get].
  - destruct (Z.eqb_spec k k'), (decide (k' = k)); done || lia.
  - destruct (Z.ltb_spec k a); cbn [bt_get].
    + destruct (Z.eqb_spec k k'), (decide (k' = k)); done || lia.
    + destruct (Z.eqb_spec a k); cbn [bt_get].
      * destruct (Z.eqb_spec k k'), (decide (k' = k)); try done; try lia. by rewrite (proj2 (Z.eqb_neq a k')) by lia.
      * rewrite IH. destruct (Z.eqb_spec a k'), (decide (k' = k)); done || lia.
Qed.
Lemma bt_get_filter (P : Z * V → Prop) `{!∀ e, Decision (P e)} m k : (∀ e, e ∈ m → e.1 = k → P e) → bt_get k (filter P m) = bt_get k m.
Proof.
  induction m as [|[a w] m IH]; intros HP; [done|]. rewrite filter_cons. assert (∀ e, e ∈ m → e.1 = k → P e) as HP' by (intros; apply HP; [by right|done]).
  case_decide as Hd; cbn [bt_get]; [by rewrite IH|]. destruct (Z.eqb_spec a k) as [->|]; [|by apply IH]. destruct Hd. apply HP; [left|done].
Qed.
Lemma bt_get_elem k v m : bt_get k m = Some v → (k, v) ∈ m.
Proof.
  induction m as [|[a w] m IH]; cbn [bt_get]; [done|]. destruct (Z.eqb_spec a k) as [->|]; [intros [= ->]; left|]. intros. right. by apply IH.
Qed.
Lemma bt_get_remove k m k' : bt_get k' (bt_remove k m) = if decide (k' = k) then None else bt_get k' m.
Proof.
  unfold bt_remove. destruct (decide (k' = k)) as [->|Hne]; [|by apply bt_get_filter; intros e _ ->].
  destruct (bt_get k (filter (λ e, e.1 ≠ k) m)) as [v|] eqn:E; [|done]. apply bt_get_elem, list_elem_of_filter in E as [Hk _]. done.
Qed.
Lemma elem_bt_get k v m : sorted m → (k, v) ∈ m → bt_get k m = Some v.
Proof.
  induction 1 as [|[a w] m Hs IH Hf]; intros Hin; [by apply elem_of_nil in Hin|]. cbn [bt_get].
  apply elem_of_cons in Hin as [[= -> ->]|Hin]; [by rewrite Z.eqb_refl|].
  rewrite Forall_forall in Hf. specialize (Hf _ Hin). unfold key_lt in Hf. cbn in Hf. rewrite (proj2 (Z.eqb_neq a k)) by lia. by apply IH.
Qed.

Lemma bt_insert_elem k v m e : e ∈ bt_insert k v m → e = (k, v) ∨ e ∈ m.
Proof.
  induction m as [|[a w] m IH]; cbn [bt_insert]; [intros H; apply elem_of_cons in H as [|H]; [auto|by apply elem_of_nil in H]|].
  destruct (k <? a); [|destruct (a =? k)]; intros H; apply elem_of_cons in H as [->|H]; auto.
  - right. by right.
  - right. by left.
  - destruct (IH H); [auto|]. right. by right.
Qed.
Lemma bt_insert_sorted k v m : sorted m → sorted (bt_insert k v m).
Proof.
  induction 1 as [|[a w] m Hs IH Hf]; cbn [bt_insert]; [repeat constructor|].
  destruct (Z.ltb_spec k a); [|destruct (Z.eqb_spec a k) as [->|]].
  - constructor; [by constructor|]. constructor; [done|]. eapply Forall_impl; [exact Hf|]. unfold key_lt. cbn. lia.
  - by constructor.
  - constructor; [done|]. apply Forall_forall. intros e [->|He]%bt_insert_elem; [unfold key_lt; cbn; lia|].
    by eapply (proj1 (Forall_forall _ _) Hf).
Qed.
Lemma bt_insert_length k v m : (length (bt_insert k v m) ≤ S (length m))%nat.
Proof. induction m as [|[a w] m IH]; cbn [bt_insert length]; [lia|]. destruct (k <? a), (a =? k); cbn [length]; lia. Qed.
Lemma bt_insert_present k v w m : sorted m → bt_get k m = Some w → length (bt_insert k v m) = length m.
Proof.
  intros Hs Hg. induction Hs as [|[a x] m Hs IH Hf]; cbn [bt_insert bt_get] in *; [done|].
  destruct (Z.ltb_spec k a).
  - rewrite (proj2 (Z.eqb_neq a k)) in Hg by lia. apply bt_get_elem in Hg. rewrite Forall_forall in Hf. specialize (Hf _ Hg).
    unfold key_lt in Hf. cbn in Hf. lia.
  - destruct (Z.eqb_spec a k); cbn [length]; [done|]. by rewrite IH.
Qed.
Lemma sorted_filter (P : Z * V → Prop) `{!∀ e, Decision (P e)} m : sorted m → sorted (filter P m).
Proof.
  induction 1 as [|e m Hs IH Hf]; [constructor|]. rewrite filter_cons. case_decide; [|done]. constructor; [done|]. apply Forall_forall.
  intros x [_ Hx]%list_elem_of_filter. by eapply (proj1 (Forall_forall _ _) Hf).
Qed.
Lemma sorted_fmap (f : Z * V → Z * V) m : (∀ e, (f e).1 = e.1) → sorted m → sorted (f <$> m).
Proof.
  intros Hf. induction 1 as [|e m Hs IH Hl]; [constructor|]. cbn. constructor; [done|]. apply Forall_fmap.
  eapply Forall_impl; [exact Hl|]. unfold key_lt, compose. intros x. by rewrite !Hf.
Qed.
Lemma bt_get_fmap (g : V → V) m k : bt_get k ((λ e, (e.1, g e.2)) <$> m) = g <$> bt_get k m.
Proof. induction m as [|[a w] m IH]; [done|]. cbn. by destruct (a =? k). Qed.
Lemma bt_remove_length k v m : bt_get k m = Some v → (length (bt_remove k m) < length m)%nat.
Proof. intros H%bt_get_elem. unfold bt_remove. apply length_filter_lt with (k, v); [done|]. cbn. auto. Qed.
Lemma bt_remove_length_le k m : (length (bt_remove k m) ≤ length m)%nat.
Proof. apply length_filter. Qed.

Lemma min_by_some (f : V → Z) m : m ≠ [] → ∃ e, min_by f m = Some e ∧ e ∈ m ∧ ∀ e', e' ∈ m → f e.2 ≤ f e'.2.
Proof.
  induction m as [|e m IH]; [done|]. intros _. cbn [min_by]. destruct m as [|e2 m].
  { exists e. split; [done|]. split; [left|]. intros e' H%list_elem_of_singleton. subst. lia. }
  destruct IH as (e' & -> & Hin & Hmin); [done|]. destruct (Z.ltb_spec (f e'.2) (f e.2)).
  - exists e'. split; [done|]. split; [by right|]. intros x Hx. apply elem_of_cons in Hx as [->|Hx]; [lia|by apply Hmin].
  - exists e. split; [done|]. split; [left|]. intros x Hx. apply elem_of_cons in Hx as [->|Hx]; [lia|]. specialize (Hmin x Hx). lia.
Qed.
End btree_lemmas.

(** ** Addresses *)
Lemma of_segments_pairs (l : list (Z * Z)) (pre : bytes) : Forall (λ p, is_byte p.1 ∧ is_byte p.2) l →
  fold_left (λ acc s, acc * 2 ^ 16 + s) ((λ p, p.1 * 256 + p.2) <$> l) (be_val pre) =
  be_val (pre ++ flat_map (λ p, [p.1; p.2]) l).
Proof.
  intros Hl. revert pre. induction Hl as [|[a b] l [Ha Hb] _ IH]; intros pre; cbn [fmap list_fmap fold_left flat_map app fst snd] in *.
  - by rewrite app_nil_r.
  - replace (pre ++ a :: b :: flat_map (λ p, [p.1; p.2]) l) with ((((pre ++ [a]) ++ [b])) ++ flat_map (λ p, [p.1; p.2]) l)
      by (by rewrite <-!app_assoc).
    rewrite <-IH, !be_val_snoc by done. f_equal. change (2 ^ 16) with (256 * 256). ring.
Qed.

Lemma byte_pair a b : is_byte a → is_byte b → Z.lor (Z.shiftl a 8 mod 2 ^ 16) b = a * 256 + b.
Proof.
  intros Ha Hb. rewrite Z.mod_small, shiftl8_lor; [done|done|]. rewrite Z.shiftl_mul_pow2 by lia. unfold is_byte in *. lia.
Qed.

(** ** What the peer table holds *)
Section auto_props.
Context `{C : Crypto}.

(** The discovery group of [group_id] is [ff12:0] followed by bytes 2 to 13 of the
    hash of the group name; nothing in its computation panics. *)
Theorem group_address_form (H : HashOK) (group_id : bytes) :
  ∃ a, group_discovery_address group_id = Ok a ∧ octets a = [0xff; 0x12; 0; 0] ++ take 12 (drop 2 (full_hash group_id)).
Proof.
  unfold group_discovery_address, full_hash. pose proof (sha256_length group_id) as Hl. pose proof (sha256_bytes group_id) as Hb.
  set (g := sha256 group_id) in *. clearbody g.
  do 14 (destruct g as [|? g]; [done|]). apply Forall_cons in Hb as [B0 Hb]. apply Forall_cons in Hb as [B1 Hb].
  do 12 (apply Forall_cons in Hb as [? Hb]). cbn [index lookup list_lookup expect mbind res_bind Nat.add mret res_ret].
  eexists. split; [reflexivity|]. rewrite !byte_pair by done. cbn [drop take app].
  unfold octets, of_segments.
  match goal with |- be_bytes 16 (fold_left _ [_; _; ?a * 256 + ?b; ?c * 256 + ?d; ?e * 256 + ?f; ?g * 256 + ?h; ?i * 256 + ?j; ?k * 256 + ?l] _) = _ =>
    pose proof (of_segments_pairs [(0xff, 0x12); (0, 0); (a, b); (c, d); (e, f); (g, h); (i, j); (k, l)] []) as E end.
  cbn [fmap list_fmap fst snd flat_map app] in E. change (be_val []) with 0 in E.
  change (0xff * 256 + 0x12) with 0xff12 in E. change (0 * 256 + 0) with 0 in E. rewrite E.
  2:{ repeat (apply Forall_cons_2; [cbn [fst snd]; split; first [assumption|unfold is_byte; lia]|]). by apply Forall_nil. }
  match goal with |- be_bytes 16 (be_val ?l) = _ => pose proof (be_bytes_be_val l) as Hr end.
  apply Hr. repeat (apply Forall_cons_2; [first [assumption|unfold is_byte; lia]|]). by apply Forall_nil.
Qed.

(** What happens to the interface, newest first. *)
Inductive event :=
  | EStart (ll : option (Z * Z)) (binds clone : bool)
  | EStop
  | EDiscovery (now : Z) (src : option Z) (buf : bytes)
  | ETick (group : Z) (tm : Timers) (c : Clock) (raw : bytes).
Definition step (s : AutoState) (e : event) : AutoState :=
  match e with
  | EStart ll binds clone => (start s ll binds clone).1
  | EStop => stop s
  | EDiscovery now src buf => (discovery_rx s now src buf).1
  | ETick group tm c raw => (announce_loop s group tm c raw).1.1
  end.
Inductive reachable : list event → AutoState → Prop :=
  | reach_new : reachable [] auto_new
  | reach_step tr s e : reachable tr s → reachable (e :: tr) (step s e).

(** The events since the interface was last stopped. *)
Fixpoint since_stop (tr : list event) : list event :=
  match tr with [] => [] | EStop :: _ => [] | e :: tr => e :: since_stop tr end.
(** Address [a] showed its token at time [t]. *)
Definition presented (tr : list event) (t a : Z) : Prop :=
  ∃ buf, EDiscovery t (Some a) buf ∈ since_stop tr ∧ take 32 buf = discovery_token GROUP_ID a ∧ (32 ≤ length buf)%nat.
Record auto_ok (tr : list event) (s : AutoState) : Prop := {
  peers_sorted : sorted (peers s);
  peers_bounded : (length (peers s) ≤ MAX_PEERS)%nat;
  peers_heard a p : bt_get a (peers s) = Some p → presented tr (heard p) a ∧ presented tr (discovered p) a;
}.

Lemma presented_more tr e t a : e ≠ EStop → presented tr t a → presented (e :: tr) t a.
Proof. intros He (buf & Hin & Hb). exists buf. split; [|done]. destruct e; try done; by right. Qed.
Lemma auto_ok_peers tr e s s' : e ≠ EStop → auto_ok tr s → peers s' = peers s → auto_ok (e :: tr) s'.
Proof.
  intros He [H1 H2 H3] E. split; rewrite E; [done|done|]. intros a p Hp. destruct (H3 a p Hp). split; by apply presented_more.
Qed.
Lemma start_peers s ll binds clone : peers (start s ll binds clone).1 = peers s.
Proof. unfold start. destruct ll as [[a sc]|]; [|done]. cbn. destruct (started s); [done|]. by destruct binds. Qed.

Lemma discovery_ok tr s now src buf : auto_ok tr s → auto_ok (EDiscovery now src buf :: tr) (discovery_rx s now src buf).1.
Proof.
  intros Hok. pose proof (λ s', auto_ok_peers tr (EDiscovery now src buf) s s' ltac:(done) Hok) as Hsame. unfold discovery_rx.
  destruct (enabled s); cbn [negb]; [|by apply Hsame]. destruct src as [a|]; [|by apply Hsame].
  case_bool_decide; [by apply Hsame|]. case_bool_decide as Htok; [by apply Hsame|]. 
  assert (32 ≤ length buf)%nat as Hlen by (destruct (decide (length buf < 32)%nat); [destruct Htok; by left|lia]).
  assert (take 32 buf = discovery_token GROUP_ID a) as Htok' by (apply dec_stable; intros ?; destruct Htok; by right). clear Htok.
  destruct Hok as [H1 H2 H3]. cbv zeta. cbn [fst peers with_peers].
  set (is_new := match bt_get a (peers s) with None => true | Some _ => false end).
  set (ps := if is_new && (MAX_PEERS <=? length (peers s))%nat then _ else peers s).
  assert (sorted ps ∧ (∀ k v, bt_get k ps = Some v → bt_get k (peers s) = Some v) ∧ bt_get a ps = bt_get a (peers s) ∧
    (length ps ≤ MAX_PEERS)%nat ∧ (is_new = true → length ps < MAX_PEERS)%nat) as (S1 & S2 & S3 & S4 & S5).
  { unfold ps. destruct (is_new && (MAX_PEERS <=? length (peers s))%nat) eqn:Eb.
    - apply andb_true_iff in Eb as [Enew Efull]. apply Nat.leb_le in Efull.
      destruct (min_by_some heard (peers s)) as ([k v] & -> & Hin & _).
      { intros E. rewrite E in Efull. cbn in Efull. unfold MAX_PEERS in Efull. lia. }
      pose proof (elem_bt_get k v (peers s) H1 Hin) as Hk. pose proof (bt_remove_length k v (peers s) Hk).
      split; [by apply sorted_filter|]. split; [intros k' v'; rewrite bt_get_remove; by case_decide|].
      split; [|split; [lia|intros _; lia]]. rewrite bt_get_remove. case_decide; [|done]. subst k.
      unfold is_new in Enew. by rewrite Hk in Enew.
    - split; [done|]. split; [done|]. split; [done|]. split; [done|]. intros E. rewrite E, andb_true_l in Eb.
      apply Nat.leb_gt in Eb. lia. }
  clearbody ps. assert (presented (EDiscovery now (Some a) buf :: tr) now a) as Hnow.
  { exists buf. split; [left|]. done. }
  split; cbn [peers with_peers].
  - by apply bt_insert_sorted.
  - rewrite S3. unfold is_new in S5. destruct (bt_get a (peers s)) as [p|] eqn:Ea.
    + rewrite (bt_insert_present a _ p) by (done || by rewrite S3). done.
    + pose proof (bt_insert_length a (mkPeer now 0 now false) ps). specialize (S5 eq_refl). lia.
  - intros k p. rewrite bt_get_insert. case_decide as Ek.
    + subst k. intros [= <-]. destruct (bt_get a ps) as [q|] eqn:Eq; cbn [heard discovered]; [|done].
      split; [done|]. apply presented_more; [done|]. apply (H3 a q). by apply S2.
    + intros Hp. destruct (H3 k p (S2 k p Hp)). split; by apply presented_more.
Qed.

(** ** The peers pass of a tick *)
Definition refresh (now : Z) (p : Peer) : Peer :=
  mkPeer (heard p) (if is_reverse now p then now else token_sent p) (discovered p) (announced p || is_due now p).

Lemma remove_all_get (ks : list Z) (m : list (Z * Peer)) a :
  bt_get a (fold_left (λ ps a, bt_remove a ps) ks m) = if decide (a ∈ ks) then None else bt_get a m.
Proof.
  revert m. induction ks as [|k ks IH]; intros m; cbn [fold_left]; [done|]. rewrite IH, bt_get_remove.
  destruct (decide (a ∈ ks)) as [Hin|Hin]; [by rewrite decide_True by (by right)|].
  destruct (decide (a = k)) as [->|Hne]; [by rewrite decide_True by left|].
  by rewrite decide_False by (by rewrite not_elem_of_cons).
Qed.
Lemma remove_all_sorted (ks : list Z) (m : list (Z * Peer)) : sorted m →
  sorted (fold_left (λ ps a, bt_remove a ps) ks m) ∧ (length (fold_left (λ ps a, bt_remove a ps) ks m) ≤ length m)%nat.
Proof.
  revert m. induction ks as [|k ks IH]; intros m Hm; cbn [fold_left]; [done|].
  destruct (IH (bt_remove k m)) as [H1 H2]; [by apply sorted_filter|]. split; [done|]. pose proof (bt_remove_length_le k m). lia.
Qed.
Lemma keys_of (f : Peer → bool) (m : list (Z * Peer)) a : sorted m →
  a ∈ (filter (λ e, f e.2 = true) m).*1 ↔ ∃ p, bt_get a m = Some p ∧ f p = true.
Proof.
  intros Hm. rewrite list_elem_of_fmap. split.
  - intros ([k p] & -> & [Hf Hin]%list_elem_of_filter). exists p. split; [by apply elem_bt_get|done].
  - intros (p & Hp%bt_get_elem & Hf). exists (a, p). split; [done|]. by apply list_elem_of_filter.
Qed.
Lemma cond_fmap (f : Peer → bool) (g : Peer → Peer) (m : list (Z * Peer)) a :
  bt_get a ((λ e, if f e.2 then (e.1, g e.2) else e) <$> m) = (λ p, if f p then g p else p) <$> bt_get a m.
Proof.
  rewrite <-(bt_get_fmap (λ p, if f p then g p else p)). f_equal. apply list_fmap_ext. intros _ [k p] _. cbn. by destruct (f p).
Qed.
Lemma cond_sorted (f : Peer → bool) (g : Peer → Peer) (m : list (Z * Peer)) : sorted m →
  sorted ((λ e, if f e.2 then (e.1, g e.2) else e) <$> m).
Proof. apply sorted_fmap. intros [k p]. cbn. by destruct (f p). Qed.

(** The map after the pass, and who is sent what. *)
Lemma tick_peers_spec now ps : sorted ps →
  let '(ps', reverse, due) := tick_peers now ps in
  sorted ps' ∧ (length ps' ≤ length ps)%nat ∧
  (∀ a, bt_get a ps' = (p ← bt_get a ps; if is_expired now p then None else Some (refresh now p))) ∧
  (∀ a, a ∈ reverse ↔ ∃ p, bt_get a ps = Some p ∧ is_expired now p = false ∧ is_reverse now p = true) ∧
  (∀ a, a ∈ due ↔ ∃ p, bt_get a ps = Some p ∧ is_expired now p = false ∧ is_due now p = true).
Proof.
  intros Hs. unfold tick_peers. set (expired := (filter (λ e, is_expired now e.2 = true) ps).*1).
  destruct (remove_all_sorted expired ps Hs) as [Hs1 Hl1]. set (ps1 := fold_left _ expired ps) in *.
  assert (∀ a, bt_get a ps1 = (p ← bt_get a ps; if is_expired now p then None else Some p)) as G1.
  { intros a. unfold ps1. rewrite remove_all_get. destruct (bt_get a ps) as [p|] eqn:E; cbn [mbind option_bind].
    - destruct (is_expired now p) eqn:Ee.
      + rewrite decide_True; [done|]. apply keys_of; [done|]. by exists p.
      + rewrite decide_False; [done|]. intros (q & Eq & Hq)%keys_of; [|done]. congruence.
    - by destruct (decide _). }
  clearbody ps1. set (ps2 := (λ e : Z * Peer, _) <$> ps1).
  assert (∀ a, bt_get a ps2 = (λ p, if is_reverse now p then mkPeer (heard p) now (discovered p) (announced p) else p) <$> bt_get a ps1) as G2.
  { intros a. exact (cond_fmap (is_reverse now) (λ p, mkPeer (heard p) now (discovered p) (announced p)) ps1 a). }
  assert (sorted ps2) as Hs2 by exact (cond_sorted (is_reverse now) (λ p, mkPeer (heard p) now (discovered p) (announced p)) ps1 Hs1).
  assert (length ps2 = length ps1) as Hl2 by apply length_fmap. clearbody ps2.
  assert (∀ p, is_due now (if is_reverse now p then mkPeer (heard p) now (discovered p) (announced p) else p) = is_due now p) as Hdue.
  { intros p. by destruct (is_reverse now p). }
  split_and!.
  - exact (cond_sorted (is_due now) (λ p, mkPeer (heard p) (token_sent p) (discovered p) true) ps2 Hs2).
  - rewrite length_fmap. lia.
  - intros a. etrans; [exact (cond_fmap (is_due now) (λ p, mkPeer (heard p) (token_sent p) (discovered p) true) ps2 a)|].
    rewrite G2, G1. destruct (bt_get a ps) as [p|]; [|done]. cbn [mbind option_bind]. destruct (is_expired now p); [done|].
    cbn [fmap option_fmap option_map]. f_equal. rewrite Hdue. unfold refresh.
    destruct (is_reverse now p), (is_due now p), p; cbn; by rewrite ?orb_true_r, ?orb_false_r.
  - intros a. rewrite keys_of by done. split.
    + intros (p & E & Hp). rewrite G1 in E. destruct (bt_get a ps) as [q|]; [|done]. cbn in E.
      destruct (is_expired now q) eqn:Ee; [done|]. injection E as ->. by exists p.
    + intros (p & E & He & Hp). exists p. rewrite G1, E. cbn. by rewrite He.
  - intros a. rewrite keys_of by done. split.
    + intros (p & E & Hp). rewrite G2, G1 in E. destruct (bt_get a ps) as [q|]; [|done]. cbn in E.
      destruct (is_expired now q) eqn:Ee; [done|]. cbn in E. injection E as <-. rewrite Hdue in Hp. by exists q.
    + intros (p & E & He & Hp). eexists. rewrite G2, G1, E. cbn [mbind option_bind]. rewrite He. split; [done|]. by rewrite Hdue.
Qed.

Lemma tick_ok tr s group tm c raw : auto_ok tr s → auto_ok (ETick group tm c raw :: tr) (announce_loop s group tm c raw).1.1.
Proof.
  intros Hok. pose proof (λ s', auto_ok_peers tr (ETick group tm c raw) s s' ltac:(done) Hok) as Hsame.
  unfold announce_loop, announce_tick. destruct (enabled s); [|by apply Hsame]. cbn [negb].
  destruct (our_ll s); [|by apply Hsame]. destruct (tx s); [|by apply Hsame].
  destruct Hok as [H1 H2 H3]. pose proof (tick_peers_spec (t_now c) (peers s) H1) as Ht.
  destruct (tick_peers (t_now c) (peers s)) as [[ps' reverse] due]. destruct Ht as (T1 & T2 & T3 & _). cbn [fst].
  split; cbn [peers with_peers]; [done|lia|]. intros a p Hp. rewrite T3 in Hp.
  destruct (bt_get a (peers s)) as [q|] eqn:E; [|done]. cbn in Hp. destruct (is_expired _ q); [done|]. injection Hp as <-.
  destruct (H3 a q E). split; by apply presented_more.
Qed.

Lemma auto_reachable_ok tr s : reachable tr s → auto_ok tr s.
Proof.
  induction 1 as [|tr s e _ IH].
  - split; [constructor|cbn; lia|done].
  - destruct e as [ll binds clone| |now src buf|group tm c raw]; cbn [step].
    + apply (auto_ok_peers tr _ s); [done|done|apply start_peers].
    + split; cbn; [constructor|lia|done].
    + by apply discovery_ok.
    + by apply tick_ok.
Qed.

(** Only peers that proved their address are listened to: in every state the interface
    can reach, a datagram is handed to the transport only if its source showed, since the
    interface was last stopped, the discovery token of the group for its own address; the
    table holds at most 16 such peers, in address order. *)
Theorem data_authentic (tr : list event) (s : AutoState) (src : option Z) (buf : bytes)
  (Hr : reachable tr s) (Hd : data_rx s src buf = true) :
  (0 < length buf ≤ HW_MTU)%nat ∧ enabled s = true ∧ (length (peers s) ≤ MAX_PEERS)%nat ∧
  ∃ a p, src = Some a ∧ bt_get a (peers s) = Some p ∧ presented tr (heard p) a.
Proof.
  destruct (auto_reachable_ok tr s Hr) as [H1 H2 H3]. unfold data_rx in Hd.
  destruct (enabled s) eqn:Ee; [|done]. cbn [negb orb] in Hd.
  destruct (Nat.eqb_spec (length buf) 0); [done|]. destruct (Nat.ltb_spec HW_MTU (length buf)); [done|]. cbn [orb] in Hd.
  destruct src as [a|]; [|done]. destruct (bt_get a (peers s)) as [p|] eqn:E; [|done].
  split; [lia|]. split; [done|]. split; [done|]. exists a, p. split; [done|]. split; [done|]. apply (H3 a p E).
Qed.

(** ** What a tick does *)

(** Clock values far from the end of the 64-bit range. *)
Definition clock_ok (t : Z) : Prop := 0 ≤ t < 2 ^ 53.
Definition peer_clock (p : Peer) : Prop := clock_ok (heard p) ∧ clock_ok (token_sent p) ∧ clock_ok (discovered p).

Lemma expired_iff now p : clock_ok now → peer_clock p → is_expired now p = true ↔ heard p + 22 < now.
Proof.
  intros Hn (H1 & _). unfold is_expired, u64, PEERING_TIMEOUT_SECS, clock_ok in *. rewrite Z.mod_small by lia. apply Z.ltb_lt.
Qed.
Lemma reverse_iff now p : clock_ok now → peer_clock p → is_reverse now p = true ↔ token_sent p + 6 ≤ now.
Proof.
  intros Hn (_ & H1 & _). unfold is_reverse, u64, saturating_sub, REVERSE_INTERVAL_MS, clock_ok in *.
  destruct (Z.leb_spec (token_sent p) now); rewrite Z.mod_small by lia; rewrite Z.leb_le; lia.
Qed.
Lemma due_iff now p : clock_ok now → peer_clock p → is_due now p = true ↔ announced p = false ∧ discovered p + 6 ≤ now.
Proof.
  intros Hn (_ & _ & H1). unfold is_due, u64, ANNOUNCE_AFTER_SECS, clock_ok in *. rewrite Z.mod_small by lia.
  rewrite andb_true_iff, negb_true_iff, Z.leb_le. done.
Qed.
Lemma not_expired now p : clock_ok now → peer_clock p → is_expired now p = false ↔ now ≤ heard p + 22.
Proof.
  intros Hn Hp. pose proof (expired_iff now p Hn Hp) as H. destruct (is_expired now p); split; intros E; try done.
  - assert (heard p + 22 < now) by (by apply H). lia.
  - destruct (Z.le_gt_cases now (heard p + 22)); [done|]. discriminate (proj2 H ltac:(lia)).
Qed.

(** The sends of a tick of a running interface. *)
Lemma tick_runs s group tm c raw ll : enabled s = true → our_ll s = Some ll → tx s = true →
  ∃ tm' pre, announce_loop s group tm c raw =
    (let '(ps, reverse, due) := tick_peers (t_now c) (peers s) in
    (with_peers s ps, tm', pre ++ ((λ a, SendTo UNICAST_DISCOVERY_PORT a (discovery_token GROUP_ID ll)) <$> reverse) ++
      ((λ a, SendTo DATA_PORT a raw) <$> due))) ∧
    (∀ x, x ∈ pre → x = Rejoin ∨ x = SendTo DISCOVERY_PORT group (discovery_token GROUP_ID ll)) ∧
    (SendTo DISCOVERY_PORT group (discovery_token GROUP_ID ll) ∈ pre ↔
      ANNOUNCE_INTERVAL_MS <=? u64 (saturating_sub (t_beacon c) (last_beacon tm) * 1000) = true).
Proof.
  intros He Hl Ht. unfold announce_loop, announce_tick. rewrite He, Hl, Ht. cbn [negb].
  destruct (tick_peers (t_now c) (peers s)) as [[ps reverse] due].
  set (rejoin := match peers s with [] => _ | _ => false end). set (token := discovery_token GROUP_ID ll).
  assert (last_beacon (if rejoin then mkTimers (last_beacon tm) (t_rejoined c) else tm) = last_beacon tm) as -> by (by destruct rejoin).
  destruct (ANNOUNCE_INTERVAL_MS <=? u64 (saturating_sub (t_beacon c) (last_beacon tm) * 1000)).
  - eexists _, ((if rejoin then [Rejoin] else []) ++ [SendTo DISCOVERY_PORT group token]). split; [by rewrite <-!app_assoc|].
    destruct rejoin; set_solver.
  - eexists _, (if rejoin then [Rejoin] else []). split; [done|]. destruct rejoin; set_solver.
Qed.

(** The schedule of a tick: the peers not heard for more than 22 seconds are dropped and
    the others kept; a reverse token goes to exactly the kept peers not sent one for 6
    seconds, and our announce, once, to exactly those discovered at least 6 seconds ago;
    who is sent to is recorded. *)
Theorem tick_schedule (tr : list event) (s : AutoState) (group : Z) (tm : Timers) (c : Clock) (raw : bytes) (ll : Z)
  (Hr : reachable tr s) (He : enabled s = true) (Hll : our_ll s = Some ll) (Htx : tx s = true)
  (Hc : clock_ok (t_now c)) (Hp : ∀ a p, bt_get a (peers s) = Some p → peer_clock p) :
  let '(s', _, sends) := announce_loop s group tm c raw in
  let now := t_now c in
  (∀ a p', bt_get a (peers s') = Some p' ↔ ∃ p, bt_get a (peers s) = Some p ∧ now ≤ heard p + 22 ∧ p' = refresh now p) ∧
  (∀ a, SendTo UNICAST_DISCOVERY_PORT a (discovery_token GROUP_ID ll) ∈ sends ↔
     ∃ p, bt_get a (peers s) = Some p ∧ now ≤ heard p + 22 ∧ token_sent p + 6 ≤ now) ∧
  (∀ a, SendTo DATA_PORT a raw ∈ sends ↔
     ∃ p, bt_get a (peers s) = Some p ∧ now ≤ heard p + 22 ∧ announced p = false ∧ discovered p + 6 ≤ now).
Proof.
  destruct (auto_reachable_ok tr s Hr) as [H1 H2 H3]. destruct (tick_runs s group tm c raw ll He Hll Htx) as (tm' & pre & -> & Hpre & _).
  pose proof (tick_peers_spec (t_now c) (peers s) H1) as Ht. destruct (tick_peers (t_now c) (peers s)) as [[ps reverse] due].
  destruct Ht as (_ & _ & T3 & T4 & T5). cbn [peers with_peers]. split_and!.
  - intros a p'. rewrite T3. split.
    + destruct (bt_get a (peers s)) as [p|] eqn:E; [|done]. cbn [mbind option_bind]. destruct (is_expired (t_now c) p) eqn:Ee; [done|].
      intros [= <-]. exists p. split; [done|]. split; [|done]. by apply not_expired; [|by apply (Hp a)|].
    + intros (p & E & Hh & ->). rewrite E. cbn [mbind option_bind]. by rewrite (proj2 (not_expired _ _ Hc (Hp a p E)) Hh).
  - intros a. rewrite !elem_of_app, !list_elem_of_fmap. split.
    + intros [Hin|[(x & [= <-] & Hin)|(x & [= ?] & _)]].
      * by apply Hpre in Hin as [?|[= ?]].
      * apply T4 in Hin as (p & E & Ee & Er). exists p. split; [done|]. pose proof (Hp a p E) as Hpc.
        split; [by apply (not_expired _ _ Hc Hpc)|by apply (reverse_iff _ _ Hc Hpc)].
    + intros (p & E & Hh & Hs). pose proof (Hp a p E) as Hpc. right. left. exists a. split; [done|]. apply T4. exists p.
      split; [done|]. split; [by apply (not_expired _ _ Hc Hpc)|by apply (reverse_iff _ _ Hc Hpc)].
  - intros a. rewrite !elem_of_app, !list_elem_of_fmap. split.
    + intros [Hin|[(x & [= ?] & _)|(x & [= <-] & Hin)]].
      * by apply Hpre in Hin as [?|[= ?]].
      * apply T5 in Hin as (p & E & Ee & Er). exists p. split; [done|]. pose proof (Hp a p E) as Hpc.
        split; [by apply (not_expired _ _ Hc Hpc)|by apply (due_iff _ _ Hc Hpc)].
    + intros (p & E & Hh & Hs). pose proof (Hp a p E) as Hpc. right. right. exists a. split; [done|]. apply T5. exists p.
      split; [done|]. split; [by apply (not_expired _ _ Hc Hpc)|by apply (due_iff _ _ Hc Hpc)].
Qed.

(** ** Two nodes meet *)
Lemma discovery_accepts (H : HashOK) s now a : enabled s = true → our_ll s ≠ Some a → bt_get a (peers s) = None →
  bt_get a (peers (discovery_rx s now (Some a) (discovery_token GROUP_ID a)).1) = Some (mkPeer now 0 now false).
Proof.
  intros He Hne Hnew. unfold discovery_rx. rewrite He. cbn [negb]. rewrite bool_decide_eq_false_2 by done.
  assert (length (discovery_token GROUP_ID a) = 32%nat) as Hl by apply sha256_length.
  rewrite bool_decide_eq_false_2 by (rewrite take_ge by lia; intros [?|?]; [lia|done]).
  rewrite Hnew. cbn [andb fst peers with_peers]. set (ps := if Nat.leb _ _ then _ else peers s).
  assert (bt_get a ps = None) as ->.
  { unfold ps. destruct (Nat.leb _ _); [|done]. destruct (min_by heard (peers s)) as [[k v]|]; [|done].
    rewrite bt_get_remove. by destruct (decide _). }
  by rewrite bt_get_insert, decide_True.
Qed.

(** The steps keep the interface running. *)
Lemma discovery_keeps s now src buf : let s' := (discovery_rx s now src buf).1 in enabled s' = enabled s ∧ our_ll s' = our_ll s ∧ tx s' = tx s.
Proof.
  unfold discovery_rx. destruct (negb (enabled s)); [done|]. destruct src; [|done]. by repeat case_bool_decide.
Qed.

End auto_props.

(** ** Two interfaces, started *)
Section witnesses.
Import ToyInstances.
Definition w_addr (n : Z) : Z := 0xfe80 * 2 ^ 112 + n.
Definition w_start (n : Z) : event := EStart (Some (w_addr n, 0)) true true.
Definition w_node (n : Z) : AutoState := step auto_new (w_start n).
Lemma w_reach n : reachable [w_start n] (w_node n).
Proof. exact (reach_step _ _ _ reach_new). Qed.
Definition w_token (n : Z) : bytes := discovery_token GROUP_ID (w_addr n).
Definition w_heard : event := EDiscovery 1000 (Some (w_addr 1)) (w_token 1).
Definition w_clock (t : Z) : Clock := mkClock t t t t t.

Lemma group_address_form_witness :
  ∃ a, group_discovery_address GROUP_ID = Ok a ∧ octets a = [0xff; 0x12; 0; 0] ++ take 12 (drop 2 (full_hash GROUP_ID)).
Proof. exact (group_address_form Toy.hash_ok GROUP_ID). Defined.

Lemma data_authentic_witness :
  let s := step (w_node 2) w_heard in
  (0 < length [1; 2; 3] ≤ HW_MTU)%nat ∧ enabled s = true ∧ (length (peers s) ≤ MAX_PEERS)%nat ∧
  ∃ a p, Some (w_addr 1) = Some a ∧ bt_get a (peers s) = Some p ∧ presented [w_heard; w_start 2] (heard p) a.
Proof.
  apply (data_authentic [w_heard; w_start 2] (step (w_node 2) w_heard) (Some (w_addr 1)) [1; 2; 3]).
  - exact (reach_step _ _ _ (w_reach 2)).
  - vm_compute. reflexivity.
Defined.

Lemma tick_schedule_witness :
  let s := step (w_node 2) w_heard in
  let '(s', _, sends) := announce_loop s 1 (mkTimers 0 0) (w_clock 1010) [7] in
  (∀ a p', bt_get a (peers s') = Some p' ↔ ∃ p, bt_get a (peers s) = Some p ∧ 1010 ≤ heard p + 22 ∧ p' = refresh 1010 p) ∧
  (∀ a, SendTo UNICAST_DISCOVERY_PORT a (discovery_token GROUP_ID (w_addr 2)) ∈ sends ↔
     ∃ p, bt_get a (peers s) = Some p ∧ 1010 ≤ heard p + 22 ∧ token_sent p + 6 ≤ 1010) ∧
  (∀ a, SendTo DATA_PORT a [7] ∈ sends ↔
     ∃ p, bt_get a (peers s) = Some p ∧ 1010 ≤ heard p + 22 ∧ announced p = false ∧ discovered p + 6 ≤ 1010).
Proof.
  apply (tick_schedule [w_heard; w_start 2] (step (w_node 2) w_heard) 1 (mkTimers 0 0) (w_clock 1010) [7] (w_addr 2)).
  - exact (reach_step _ _ _ (w_reach 2)).
  - vm_compute. reflexivity.
  - vm_compute. reflexivity.
  - vm_compute. reflexivity.
  - split; vm_compute; congruence.
  - intros a p Hp%bt_get_elem. assert (peers (step (w_node 2) w_heard) = [(w_addr 1, mkPeer 1000 0 1000 false)]) as E by (vm_compute; reflexivity).
    rewrite E in Hp. apply list_elem_of_singleton in Hp. injection Hp as _ ->. repeat split; cbn; lia.
Defined.

End witnesses.
