(* ===== verification/Outbox.v ===== *)
(** The outbound delivery engine of [lxmfchat/src/net.rs]: the outbox, the pump that
    drives every message to delivery, to the propagation node or to failure, and the
    stamps and envelopes it mines.

    The pump is written against [NetOps], what it uses of the transport and of the
    interfaces; [OutboxNet] gives the instance over the modelled transport.  The status
    lines it paints are left out. *)
From S2P Require Import Prelude Constants Crypto Identity Msgpack Stamp Message Transport.

Definition PROOF_TIMEOUT : Z := 18.
Definition LINK_RETRY : Z := 15.
Definition KEY_RETRY : Z := 5.
Definition DIRECT_DEADLINE : Z := 90.
Definition PROP_DEADLINE : Z := 120.
Definition DELIVERY_RETRY : Z := 10.
Definition MAX_ATTEMPTS : Z := 5.
Definition MAX_ROUTE_TRIES : Z := 3.
Definition MAX_LINK_TRIES : Z := 1.
Definition MAX_DIRECT_ROUNDS : Z := 1.
Definition LINK_PACKED_MAX : Z := 431.
Definition BACKCHANNEL_MAX_IDLE : Z := 540.
Definition RESOURCE_RETRY : Z := 45.
Definition MAX_DELIVERY_STAMP_COST : Z := 20.
Definition STATUS_DELIVERED : Z := 1.
Definition STATUS_QUEUED : Z := 2.
Definition STATUS_FAILED : Z := 3.

Record OutboundMsg := mkMsg {
  peer : bytes;
  display_ts : Z;
  msg_text : bytes;
  packed : bytes;
  needs_stamp : option Z;
  stamped : bool;
  via_pn : bool;
  tried_pn : bool;
  in_flight : option bytes;
  attempts : Z;
  route_tries : Z;
  link_tries : Z;
  direct_rounds : Z;
  awaiting_key : bool;
  pn_blob : option bytes;
  next_action : Z;
  created : Z;
  deadline : Z;
}.

(** Field updates. *)
Definition set_next (t : Z) (m : OutboundMsg) : OutboundMsg :=
  mkMsg (peer m) (display_ts m) (msg_text m) (packed m) (needs_stamp m) (stamped m) (via_pn m) (tried_pn m) (in_flight m)
    (attempts m) (route_tries m) (link_tries m) (direct_rounds m) (awaiting_key m) (pn_blob m) t (created m) (deadline m).
Definition set_flight (h : option bytes) (m : OutboundMsg) : OutboundMsg :=
  mkMsg (peer m) (display_ts m) (msg_text m) (packed m) (needs_stamp m) (stamped m) (via_pn m) (tried_pn m) h
    (attempts m) (route_tries m) (link_tries m) (direct_rounds m) (awaiting_key m) (pn_blob m) (next_action m) (created m) (deadline m).
Definition set_awaiting (b : bool) (m : OutboundMsg) : OutboundMsg :=
  mkMsg (peer m) (display_ts m) (msg_text m) (packed m) (needs_stamp m) (stamped m) (via_pn m) (tried_pn m) (in_flight m)
    (attempts m) (route_tries m) (link_tries m) (direct_rounds m) b (pn_blob m) (next_action m) (created m) (deadline m).
Definition set_tries (rt lt dr : Z) (m : OutboundMsg) : OutboundMsg :=
  mkMsg (peer m) (display_ts m) (msg_text m) (packed m) (needs_stamp m) (stamped m) (via_pn m) (tried_pn m) (in_flight m)
    (attempts m) rt lt dr (awaiting_key m) (pn_blob m) (next_action m) (created m) (deadline m).
(** Escalation to the propagation node, with its own time budget. *)
Definition escalate (now : Z) (m : OutboundMsg) : OutboundMsg :=
  mkMsg (peer m) (display_ts m) (msg_text m) (packed m) (needs_stamp m) (stamped m) true (tried_pn m) (in_flight m)
    (attempts m) (route_tries m) (link_tries m) (direct_rounds m) (awaiting_key m) (pn_blob m) (next_action m) (created m) (now + PROP_DEADLINE).
Definition set_tried (m : OutboundMsg) : OutboundMsg :=
  mkMsg (peer m) (display_ts m) (msg_text m) (packed m) (needs_stamp m) (stamped m) (via_pn m) true (in_flight m)
    (attempts m) (route_tries m) (link_tries m) (direct_rounds m) (awaiting_key m) (pn_blob m) (next_action m) (created m) (deadline m).
Definition u8_succ (x : Z) : Z := (x + 1) mod 256.
Definition add_attempt (m : OutboundMsg) : OutboundMsg :=
  mkMsg (peer m) (display_ts m) (msg_text m) (packed m) (needs_stamp m) (stamped m) (via_pn m) (tried_pn m) (in_flight m)
    (u8_succ (attempts m)) (route_tries m) (link_tries m) (direct_rounds m) (awaiting_key m) (pn_blob m) (next_action m) (created m) (deadline m).

Inductive LinkReqOutcome := Sent | Pending | WriteFailed.

(** What the pump uses of the transport: queries, links, sends (each makes a packet and
    writes it to every interface; the result is the hash its proof will carry). *)
Class NetOps := {
  net : Type;
  net_known : net → bytes → option KnownDest;
  net_has_path : net → bytes → bool;
  net_expire_path : net → bytes → net;
  net_link_for : net → bytes → Z → option bytes * net;
  net_drop_link : net → bytes → net;
  net_pending : net → bytes → Z → bool * net;
  net_send : net → bytes → bytes → res (option bytes * net);
  net_send_in : net → bytes → bytes → res (option bytes * net);
  net_send_resource : net → bytes → bytes → res (option bytes * net);
  net_request_link : net → bytes → PublicIdentity → Z → res (LinkReqOutcome * net);
  net_request_key : net → bytes → res (bool * net);
  net_sync_link : net → option bytes;
}.

Section pump.
Context `{N : NetOps}.

(** The transport, and the links peers opened to us: peer to link and last activity. *)
Record Pump := mkPump { p_net : net; backchannels : gmap bytes (bytes * Z) }.
Definition set_net (s : Pump) (n : net) : Pump := mkPump n (backchannels s).
Definition remove_backchannel (s : Pump) (p : bytes) : Pump := mkPump (p_net s) (delete p (backchannels s)).

(** What becomes of a message in one pass: it stays, it fails with a reason, or it is
    looked at again at once. *)
Inductive verdict := Keep (m : OutboundMsg) | Failed (m : OutboundMsg) (why : string) | Again (m : OutboundMsg).

(** A message that went out: in flight until [wait] has passed. *)
Definition sent_direct (now wait : Z) (h : bytes) (m : OutboundMsg) : OutboundMsg :=
  set_next (now + wait) (add_attempt (set_flight (Some h) m)).

(** ** The propagation fallback *)
Definition pump_pn (target : bytes) (now : Z) (m : OutboundMsg) (s : Pump) : res (verdict * Pump) :=
  match net_known (p_net s) target with
  | None =>
      '(_, n) ← net_request_key (p_net s) target;
      mret (Keep (set_next (now + KEY_RETRY) (set_awaiting true m)), set_net s n)
  | Some known =>
      if negb (net_has_path (p_net s) target) then
        '(_, n) ← net_request_key (p_net s) target;
        mret (Keep (set_next (now + KEY_RETRY) (set_awaiting false m)), set_net s n)
      else
        let '(link, n) := net_link_for (p_net s) target now in
        let s := set_net s n in
        match link with
        | None =>
            '(_, n) ← net_request_link (p_net s) target (kd_identity known) now;
            mret (Keep (set_next (now + LINK_RETRY) m), set_net s n)
        | Some link =>
            match pn_blob m with
            | None => mret (Keep (set_next (now + 1) m), s)
            | Some blob =>
                if LINK_PACKED_MAX <? Z.of_nat (length blob) then
                  '(sent, n) ← net_send_resource (p_net s) link blob;
                  mret (Keep match sent with
                        | Some h => set_next (now + RESOURCE_RETRY) (set_tried (set_flight (Some h) m))
                        | None => set_next (now + 2) m
                        end, set_net s n)
                else
                  '(sent, n) ← net_send (p_net s) link blob;
                  mret (Keep match sent with
                        | Some h => set_next (now + PROOF_TIMEOUT) (set_tried (set_flight (Some h) m))
                        | None => set_next (now + 2) m
                        end, set_net s n)
            end
        end
  end.

(** ** Direct delivery *)

(** A link to the peer has to be established. *)
Definition pump_establish (pn : option bytes) (now : Z) (m : OutboundMsg) (s : Pump) : res (verdict * Pump) :=
  match net_known (p_net s) (peer m) with
  | None =>
      '(_, n) ← net_request_key (p_net s) (peer m);
      mret (Keep (set_next (now + KEY_RETRY) (set_awaiting true m)), set_net s n)
  | Some known =>
      if negb (net_has_path (p_net s) (peer m)) then
        if (MAX_ROUTE_TRIES <=? route_tries m) && negb (tried_pn m) && bool_decide (is_Some pn) then
          mret (Again (set_next now (escalate now m)), s)
        else
          '(ok, n) ← net_request_key (p_net s) (peer m);
          let m := if ok : bool then set_tries (u8_succ (route_tries m)) (link_tries m) (direct_rounds m) m else m in
          mret (Keep (set_next (now + KEY_RETRY) (set_awaiting false m)), set_net s n)
      else
        let '(pending, n) := net_pending (p_net s) (peer m) now in
        let s := set_net s n in
        if negb pending && (MAX_LINK_TRIES <=? link_tries m) then
          let s := set_net s (net_expire_path (p_net s) (peer m)) in
          if direct_rounds m <? MAX_DIRECT_ROUNDS then
            mret (Keep (set_next (now + 1) (set_tries 0 0 (u8_succ (direct_rounds m)) m)), s)
          else if negb (tried_pn m) && bool_decide (is_Some pn) then
            mret (Again (set_next now (escalate now m)), s)
          else
            mret (Keep (set_next (now + 1) (set_tries (route_tries m) 0 (direct_rounds m) m)), s)
        else
          '(o, n) ← net_request_link (p_net s) (peer m) (kd_identity known) now;
          let m := match o with
                   | Sent => set_tries (route_tries m) (u8_succ (link_tries m)) (direct_rounds m) m
                   | Pending | WriteFailed => m
                   end in
          mret (Keep (set_next (now + 2) m), set_net s n)
  end.

(** The peer's own link to us, if it is fresh; a stale one is forgotten. *)
Definition backchannel_for (now : Z) (p : bytes) (s : Pump) : option bytes * Pump :=
  match backchannels s !! p with
  | Some (lid, seen) =>
      if (if seen <=? now then now - seen else 0) <=? BACKCHANNEL_MAX_IDLE then (Some lid, s) else (None, remove_backchannel s p)
  | None => (None, s)
  end.

Definition pump_direct (pn : option bytes) (now : Z) (m : OutboundMsg) (s : Pump) : res (verdict * Pump) :=
  let '(link, n) := net_link_for (p_net s) (peer m) now in
  let s := set_net s n in
  let large := LINK_PACKED_MAX <? Z.of_nat (length (packed m)) in
  match link with
  | Some lid =>
      if large then
        '(sent, n) ← net_send_resource (p_net s) lid (packed m);
        mret (Keep match sent with Some h => sent_direct now RESOURCE_RETRY h m | None => set_next (now + 1) m end, set_net s n)
      else
        '(sent, n) ← net_send (p_net s) lid (packed m);
        mret (Keep match sent with Some h => sent_direct now DELIVERY_RETRY h m | None => set_next (now + 1) m end, set_net s n)
  | None =>
      let '(bc, s) := backchannel_for now (peer m) s in
      match bc with
      | Some lid =>
          '(sent, n) ← (if large then net_send_resource (p_net s) lid (packed m) else net_send_in (p_net s) lid (packed m));
          let s := set_net s n in
          match sent with
          | Some h => mret (Keep (sent_direct now (if large then RESOURCE_RETRY else DELIVERY_RETRY) h m), s)
          | None => pump_establish pn now m (remove_backchannel s (peer m))
          end
      | None => pump_establish pn now m s
      end
  end.

(** [pn.unwrap()]: a panic when there is no propagation node. *)
Definition pump_send (pn : option bytes) (now : Z) (m : OutboundMsg) (s : Pump) : res (verdict * Pump) :=
  if via_pn m then target ← expect pn; pump_pn target now m s else pump_direct pn now m s.

(** The proof did not come in time: the link is suspect. *)
Definition forget_link (now : Z) (target : bytes) (keep : option bytes) (s : Pump) : Pump :=
  let '(link, n) := net_link_for (p_net s) target now in
  match link with
  | Some lid => if bool_decide (keep = Some lid) then set_net s n else set_net s (net_drop_link n lid)
  | None => set_net s n
  end.

Definition fail_reason (pn : option bytes) (m : OutboundMsg) (s : Pump) : string :=
  if via_pn m then "propagation node unconfirmed"
  else if (attempts m =? 0) && negb (tried_pn m) then
    if net_has_path (p_net s) (peer m) then "link could not be established" else "no route found"
  else "no acknowledgement".

(** One message, once. *)
Definition pump_one (pn : option bytes) (now : Z) (m : OutboundMsg) (s : Pump) : res (verdict * Pump) :=
  match needs_stamp m with
  | Some _ => mret (Keep m, s)
  | None =>
      if deadline m <? now then
        if negb (via_pn m) && negb (tried_pn m) && bool_decide (is_Some pn) then
          mret (Keep (set_next now (escalate now m)), s)
        else
          let s' := if via_pn m && negb (tried_pn m) then
                      match pn with Some node => set_net s (net_expire_path (p_net s) node) | None => s end
                    else s in
          mret (Failed m (fail_reason pn m s), s')
      else
        match in_flight m with
        | Some _ =>
            if now <? next_action m then mret (Keep m, s)
            else
              let m := set_flight None m in
              if negb (via_pn m) then
                if attempts m <? MAX_ATTEMPTS then
                  pump_send pn now m (forget_link now (peer m) None (remove_backchannel s (peer m)))
                else if negb (tried_pn m) && bool_decide (is_Some pn) then
                  pump_send pn now (escalate now m) s
                else mret (Failed m "no acknowledgement", s)
              else
                pump_send pn now m
                  (match pn with Some target => forget_link now target (net_sync_link (p_net s)) s | None => s end)
        | None => if now <? next_action m then mret (Keep m, s) else pump_send pn now m s
        end
  end.

(** One iteration of the loop over the outbox, with the immediate second look; fuel
    bounds the looks, and running out of it is the error ["loop"]. *)
Fixpoint pump_msg (fuel : nat) (pn : option bytes) (now : Z) (m : OutboundMsg) (s : Pump) : res (verdict * Pump) :=
  match fuel with
  | O => Err "loop"
  | S fuel =>
      '(v, s) ← pump_one pn now m s;
      match v with Again m => pump_msg fuel pn now m s | _ => mret (v, s) end
  end.
(** The messages kept and the failures, in order. *)
Fixpoint pump_outbox (pn : option bytes) (now : Z) (outbox : list OutboundMsg) (s : Pump)
  : res (list OutboundMsg * list (OutboundMsg * string) * Pump) :=
  match outbox with
  | [] => mret ([], [], s)
  | m :: outbox =>
      '(v, s) ← pump_msg 2 pn now m s;
      '(kept, failures, s) ← pump_outbox pn now outbox s;
      match v with
      | Keep m => mret (m :: kept, failures, s)
      | Failed m why => mret (kept, (m, why) :: failures, s)
      | Again m => Err "loop"
      end
  end.
End pump.

(** ** What else changes the outbox *)

Definition enqueue_outbound (now : Z) (p : bytes) (ts : Z) (t pk : bytes) (ns : option Z) (st : bool) (outbox : list OutboundMsg)
  : list OutboundMsg :=
  outbox ++ [mkMsg p ts t pk ns st false false None 0 0 0 0 false None 0 now (now + DIRECT_DEADLINE)].

(** A proof arrived: the message it confirms, with its mark, is taken out. *)
Fixpoint mark_delivered (packet_hash : bytes) (outbox : list OutboundMsg) : option (OutboundMsg * Z) * list OutboundMsg :=
  match outbox with
  | [] => (None, [])
  | m :: outbox =>
      if bool_decide (in_flight m = Some packet_hash) then
        (Some (m, if via_pn m then STATUS_QUEUED else STATUS_DELIVERED), outbox)
      else let '(r, o) := mark_delivered packet_hash outbox in (r, m :: o)
  end.

Definition set_needs_stamp (c : option Z) (m : OutboundMsg) : OutboundMsg :=
  mkMsg (peer m) (display_ts m) (msg_text m) (packed m) c (stamped m) (via_pn m) (tried_pn m) (in_flight m)
    (attempts m) (route_tries m) (link_tries m) (direct_rounds m) (awaiting_key m) (pn_blob m) (next_action m) (created m) (deadline m).
(** An announce of a peer, with the stamp cost it demands: what its waiting messages do. *)
Definition announce_msg (dest : bytes) (cost : option Z) (m : OutboundMsg) : OutboundMsg :=
  if bool_decide (peer m = dest) && (attempts m =? 0) && bool_decide (in_flight m = None) then
    let m := match cost with
             | Some c => if negb (stamped m) && bool_decide (needs_stamp m = None) then set_needs_stamp (Some c) m else m
             | None => m
             end in
    set_next 0 m
  else m.
Definition announce_outbox (dest : bytes) (cost : option Z) (outbox : list OutboundMsg) : list OutboundMsg :=
  announce_msg dest cost <$> outbox.

(** Clearing a thread. *)
Definition clear_peer (p : bytes) (outbox : list OutboundMsg) : list OutboundMsg := filter (λ m, peer m ≠ p) outbox.

Section mining.
Context `{C : Crypto}.

(** The miners snapshot a message under the lock, mine without it and find the entry again:
    [before] is the outbox at the snapshot, [after] when the mining ends.  [fuel] bounds the
    mining; [None]: still mining. *)
Definition same_entry (p : bytes) (ts : Z) (m : OutboundMsg) : bool := bool_decide (peer m = p ∧ display_ts m = ts).
Fixpoint update_first (f : OutboundMsg → bool) (g : OutboundMsg → OutboundMsg) (l : list OutboundMsg) : list OutboundMsg :=
  match l with [] => [] | m :: l => if f m then g m :: l else m :: update_first f g l end.
Definition arm_stamped (now : Z) (pk : bytes) (m : OutboundMsg) : OutboundMsg :=
  mkMsg (peer m) (display_ts m) (msg_text m) pk None (stamped m) (via_pn m) (tried_pn m) (in_flight m)
    (attempts m) (route_tries m) (link_tries m) (direct_rounds m) (awaiting_key m) (pn_blob m) (next_action m) now (now + DIRECT_DEADLINE).
(** The outbox, the message that failed if one did, and whether one was stamped. *)
Definition compute_pending_delivery_stamp (W : Z) (fuel : nat) (now : Z) (before after : list OutboundMsg)
  : res (option (list OutboundMsg * option OutboundMsg * bool)) :=
  match List.find (λ m, bool_decide (is_Some (needs_stamp m))) before with
  | None => mret (Some (after, None, false))
  | Some m =>
      let cost := default 0 (needs_stamp m) in
      let fail := (filter (λ x, same_entry (peer m) (display_ts m) x = false) after, Some m, false) in
      if MAX_DELIVERY_STAMP_COST <? cost then mret (Some fail)
      else
        head ← slice_to (packed m) (2 * TRUNCATED_HASHLENGTH);
        rest ← slice_from (packed m) (2 * TRUNCATED_HASHLENGTH + SIG_LENGTH);
        let message_id := full_hash (head ++ rest) in
        stamp ← generate_stamp fuel message_id cost WORKBLOCK_EXPAND_ROUNDS_DELIVERY;
        match stamp with
        | None => mret None
        | Some stamp =>
            out ← res_ok (append_stamp W (packed m) stamp);
            match out with
            | None => mret (Some fail)
            | Some out =>
                let entry := same_entry (peer m) (display_ts m) in
                mret (Some (update_first entry (arm_stamped now out) after, None, existsb entry after))
            end
        end
  end.

(** The propagation envelope of the first message that needs one. *)
Definition set_blob (b : bytes) (m : OutboundMsg) : OutboundMsg :=
  mkMsg (peer m) (display_ts m) (msg_text m) (packed m) (needs_stamp m) (stamped m) (via_pn m) (tried_pn m) (in_flight m)
    (attempts m) (route_tries m) (link_tries m) (direct_rounds m) (awaiting_key m) (Some b) (next_action m) (created m) (deadline m).
Definition compute_pending_pn_blob (fuel : nat) (known : bytes → option KnownDest) (cost ts : Z) (eph iv : bytes) (before after : list OutboundMsg)
  : res (option (list OutboundMsg * bool)) :=
  match List.find (λ m, via_pn m && bool_decide (pn_blob m = None)) before with
  | None => mret (Some (after, false))
  | Some m =>
      match known (peer m) with
      | None => mret (Some (after, false))
      | Some k =>
          pt ← slice_from (packed m) TRUNCATED_HASHLENGTH;
          blob ← pack_propagation fuel (kd_identity k) (peer m) pt (kd_ratchet k) eph iv ts cost;
          match blob with
          | None => mret None
          | Some b => mret (Some (update_first (same_entry (peer m) (display_ts m)) (set_blob b) after, true))
          end
      end
  end.
End mining.
