(* ===== verification/OutboxProps.v ===== *)
(** What the delivery engine guarantees, whatever the network does: messages are conserved
    and settle in bounded time, the retry counters stay within their limits, the pump
    never panics and its loop ends. *)
From S2P Require Import Prelude Constants Crypto Identity Msgpack Stamp Message Transport Outbox.

Section props.
Context `{N : NetOps}.

(** ** What one pass does to one message *)

(** What identifies a message and never changes while it is sent. *)
Definition ident (m : OutboundMsg) :=
  (peer m, display_ts m, msg_text m, packed m, needs_stamp m, stamped m, created m).

(** It keeps its phase and deadline, or it escalates to the propagation node. *)
Definition phase_step (pn : option bytes) (now : Z) (m m' : OutboundMsg) : Prop :=
  (via_pn m' = via_pn m ∧ deadline m' = deadline m) ∨
  (via_pn m = false ∧ tried_pn m = false ∧ is_Some pn ∧ via_pn m' = true ∧ deadline m' = now + PROP_DEADLINE).

(** The counters of the direct phase. *)
Definition counters_ok (pn : option bytes) (m : OutboundMsg) : Prop :=
  0 ≤ attempts m ≤ MAX_ATTEMPTS ∧ (via_pn m = false → in_flight m = None → attempts m < MAX_ATTEMPTS) ∧
  0 ≤ link_tries m ≤ MAX_LINK_TRIES ∧ 0 ≤ direct_rounds m ≤ MAX_DIRECT_ROUNDS ∧ 0 ≤ route_tries m ∧
  (is_Some pn → route_tries m ≤ MAX_ROUTE_TRIES).
Record msg_ok (pn : option bytes) (m : OutboundMsg) : Prop := {
  ok_via : via_pn m = true → is_Some pn;
  ok_tried : tried_pn m = true → via_pn m = true;
  ok_counters : counters_ok pn m;
}.

(** What the pump relies on: the operations return and keep the invariant of the transport,
    and no second link request goes out while one to the same target is pending. *)
Class NetOK (inv : net → Prop) : Prop := {
  send_total n l d : inv n → ∃ o n', net_send n l d = Ok (o, n') ∧ inv n';
  send_in_total n l d : inv n → ∃ o n', net_send_in n l d = Ok (o, n') ∧ inv n';
  send_resource_total n l d : inv n → ∃ o n', net_send_resource n l d = Ok (o, n') ∧ inv n';
  request_link_total n p i t : inv n → ∃ o n', net_request_link n p i t = Ok (o, n') ∧ inv n';
  request_key_total n p : inv n → ∃ o n', net_request_key n p = Ok (o, n') ∧ inv n';
  expire_inv n p : inv n → inv (net_expire_path n p);
  drop_inv n l : inv n → inv (net_drop_link n l);
  link_for_inv n p t : inv n → inv (net_link_for n p t).2;
  pending_inv n p t : inv n → inv (net_pending n p t).2;
  pending_waits n p t n' i o n'' : net_pending n p t = (true, n') → net_request_link n' p i t = Ok (o, n'') → o ≠ Sent;
}.
Context {inv : net → Prop}.

(** Splits the outcome of a pass. *)
Ltac pass_cases H :=
  repeat match type of H with
  | Ok _ = Ok _ => apply Ok_inj in H; injection H as <- <-
  | mret _ = Ok _ => rewrite mret_Ok in H
  | (_ ≫= _) = Ok _ => let r := fresh "r" in let E := fresh "E" in apply res_bind_ok in H as (r & E & H); destruct r
  | (let '(_, _) := ?e in _) = Ok _ => let E := fresh "E" in destruct e eqn:E
  | (match ?e with _ => _ end) = Ok _ => let E := fresh "E" in destruct e eqn:E
  | Err _ = Ok _ => discriminate H
  | Panic = Ok _ => discriminate H
  end; cbv beta iota zeta in *.

(** On the way to the propagation node only the send is recorded. *)
Lemma pump_pn_spec target now m s v s' : pump_pn target now m s = Ok (v, s') →
  ∃ m', v = Keep m' ∧ ident m' = ident m ∧ via_pn m' = via_pn m ∧ deadline m' = deadline m ∧
    attempts m' = attempts m ∧ link_tries m' = link_tries m ∧ direct_rounds m' = direct_rounds m ∧ route_tries m' = route_tries m ∧
    (tried_pn m = true → tried_pn m' = true) ∧ (in_flight m' = in_flight m ∨ is_Some (in_flight m') ∧ tried_pn m' = true).
Proof.
  intros H. unfold pump_pn in H. pass_cases H; eexists; (split; [reflexivity|]);
    repeat match goal with |- context [match ?x with Some _ => _ | None => _ end] => destruct x end;
    cbn; split_and!; try done; try (by left); right; by split.
Qed.

Lemma u8_succ_small x : 0 ≤ x < 255 → u8_succ x = x + 1.
Proof. intros. unfold u8_succ. apply Z.mod_small. lia. Qed.

(** The updates keep a message well formed. *)
Lemma next_ok pn t m : msg_ok pn m → msg_ok pn (set_next t m).
Proof. by intros [H1 H2 H3]; split. Qed.
(** A message of the direct phase, retried. *)
Lemma retried pn m m' : msg_ok pn m → via_pn m' = via_pn m → tried_pn m' = tried_pn m → in_flight m' = in_flight m → attempts m' = attempts m →
  0 ≤ link_tries m' ≤ MAX_LINK_TRIES → 0 ≤ direct_rounds m' ≤ MAX_DIRECT_ROUNDS →
  (0 ≤ route_tries m' ∧ (is_Some pn → route_tries m' ≤ MAX_ROUTE_TRIES)) → msg_ok pn m'.
Proof.
  intros [H1 H2 (C1 & C2 & _)] E1 E2 E3 E4 B1 B2 [B3 B4]. split; [by rewrite E1|by rewrite E1, E2|].
  unfold counters_ok. rewrite E1, E3, E4. destruct C1, B1, B2. by split_and!.
Qed.
Lemma sent_ok pn now w h m : via_pn m = false → in_flight m = None → msg_ok pn m → msg_ok pn (sent_direct now w h m).
Proof.
  intros Hv Hf [H1 H2 (C1 & C2 & C3)]. specialize (C2 Hv Hf). unfold MAX_ATTEMPTS in *.
  split; [exact H1|exact H2|]. unfold counters_ok, MAX_ATTEMPTS. cbn. rewrite u8_succ_small by lia. split_and!; try lia; try done; apply C3.
Qed.

(** Establishing a link: a retry within the limits, or the escalation. *)
Lemma pump_establish_spec (HN : NetOK inv) pn now m s v s' : via_pn m = false → in_flight m = None → msg_ok pn m →
  pump_establish pn now m s = Ok (v, s') →
  (∃ m', v = Keep m' ∧ ident m' = ident m ∧ via_pn m' = false ∧ deadline m' = deadline m ∧ msg_ok pn m') ∨
  (v = Again (set_next now (escalate now m)) ∧ tried_pn m = false ∧ is_Some pn).
Proof.
  intros Hv Hf Hok H. pose proof Hok as [H1 H2 (C1 & C2 & C3 & C4 & C5 & C6)]. unfold pump_establish in H. unfold MAX_ATTEMPTS, MAX_LINK_TRIES, MAX_DIRECT_ROUNDS, MAX_ROUTE_TRIES in *.
  assert (tried_pn m = false) as Ht by (destruct (tried_pn m); [specialize (H2 eq_refl); congruence|done]).
  pass_cases H.
  - apply andb_true_iff in E1 as [_ E1]. apply bool_decide_eq_true in E1. by right.
  - left. eexists. split; [reflexivity|]. destruct b; cbn; split_and!; try done; apply (retried pn m); try done; cbn; unfold MAX_LINK_TRIES, MAX_DIRECT_ROUNDS, MAX_ROUTE_TRIES; try lia.
    + rewrite Ht in E1. destruct (decide (is_Some pn)) as [Hp|Hp].
      * rewrite (bool_decide_eq_true_2 _ Hp) in E1. cbn in E1. rewrite !andb_true_r in E1. apply Z.leb_gt in E1.
        rewrite u8_succ_small by lia. split; [lia|]. intros _. lia.
      * split; [|done]. apply Z.mod_pos_bound. lia.
  - left. eexists. split; [reflexivity|]. cbn. split_and!; try done. apply Z.ltb_lt in E3. rewrite u8_succ_small by lia.
    apply (retried pn m); try done; cbn; unfold MAX_LINK_TRIES, MAX_DIRECT_ROUNDS, MAX_ROUTE_TRIES; lia.
  - apply andb_true_iff in E4 as [_ E4]. apply bool_decide_eq_true in E4. by right.
  - left. eexists. split; [reflexivity|]. cbn. split_and!; try done; apply (retried pn m); try done; cbn; unfold MAX_LINK_TRIES, MAX_DIRECT_ROUNDS, MAX_ROUTE_TRIES; lia.
  - left. eexists. split; [reflexivity|]. destruct l; cbn; split_and!; try done; apply (retried pn m); try done; cbn; unfold MAX_LINK_TRIES, MAX_DIRECT_ROUNDS, MAX_ROUTE_TRIES; try lia.
    destruct b; cbn in E2; [by destruct (pending_waits _ _ _ _ _ _ _ E1 E3)|]. apply Z.leb_gt in E2.
    rewrite u8_succ_small by lia. lia.
  - left. eexists. split; [reflexivity|]. cbn. split_and!; try done; apply (retried pn m); try done; cbn; unfold MAX_LINK_TRIES, MAX_DIRECT_ROUNDS, MAX_ROUTE_TRIES; lia.
Qed.

Lemma pump_direct_spec (HN : NetOK inv) pn now m s v s' : via_pn m = false → in_flight m = None → msg_ok pn m →
  pump_direct pn now m s = Ok (v, s') →
  (∃ m', v = Keep m' ∧ ident m' = ident m ∧ via_pn m' = false ∧ deadline m' = deadline m ∧ msg_ok pn m') ∨
  (v = Again (set_next now (escalate now m)) ∧ tried_pn m = false ∧ is_Some pn).
Proof.
  intros Hv Hf Hok H. unfold pump_direct in H.
  assert (∀ w h, msg_ok pn (sent_direct now w h m)) as Hsent by (intros; by apply sent_ok).
  assert (∀ t, msg_ok pn (set_next t m)) as Hnext by (intros; by apply next_ok).
  pass_cases H; try (by eapply pump_establish_spec); left; eexists; (split; [reflexivity|]);
    repeat match goal with |- context [match ?x with Some _ => _ | None => _ end] => destruct x end; by split_and!.
Qed.

Lemma tried_direct pn m : msg_ok pn m → via_pn m = false → tried_pn m = false.
Proof. intros [_ H _] Hv. destruct (tried_pn m); [specialize (H eq_refl); congruence|done]. Qed.
Lemma escalate_ok pn now m : msg_ok pn m → is_Some pn → msg_ok pn (escalate now m).
Proof.
  intros [_ _ (C1 & C2 & C3)] Hp. split; [done|done|]. split; [exact C1|]. split; [done|exact C3].
Qed.
Lemma unflown_ok pn m : msg_ok pn m → via_pn m = true ∨ attempts m < MAX_ATTEMPTS → msg_ok pn (set_flight None m).
Proof.
  intros [H1 H2 (C1 & C2 & C3)] Hc. split; [exact H1|exact H2|]. split; [exact C1|]. split; [|exact C3].
  cbn. intros Hv _. destruct Hc; [congruence|done].
Qed.

(** What a pass decides. *)
Definition decided (pn : option bytes) (now : Z) (m : OutboundMsg) (v : verdict) : Prop :=
  match v with
  | Keep m' => ident m' = ident m ∧ phase_step pn now m m' ∧ msg_ok pn m'
  | Failed m' _ => ident m' = ident m
  | Again m' => m' = set_next now (escalate now (set_flight None m)) ∧ via_pn m = false ∧ is_Some pn ∧ msg_ok pn m'
  end.

Lemma pump_send_spec (HN : NetOK inv) pn now m s v s' : msg_ok pn m → in_flight m = None → pump_send pn now m s = Ok (v, s') → decided pn now m v.
Proof.
  intros Hok Hf H. unfold pump_send in H. destruct (via_pn m) eqn:Hv.
  - apply res_bind_ok in H as (t & Ht & H). apply pump_pn_spec in H as (m' & -> & Hi & Hv' & Hd & Ha & Hl & Hr & Hrt & Htr & _).
    split; [done|]. split; [left; split; congruence|]. destruct Hok as [H1 H2 (C1 & C2 & C3)].
    split; [rewrite Hv'; exact H1|rewrite Hv'; done|]. unfold counters_ok. rewrite Ha, Hl, Hr, Hrt, Hv'. split; [done|]. split; [congruence|exact C3].
  - destruct (pump_direct_spec HN pn now m s v s' Hv Hf Hok H) as [(m' & -> & Hi & Hv' & Hd & Hok')|(-> & Ht & Hp)].
    + split; [done|]. split; [left; split; congruence|done].
    + split; [|split; [done|split; [done|]]].
      * by destruct m; cbn in Hf; subst.
      * apply next_ok, escalate_ok; done.
Qed.

Lemma pump_one_spec (HN : NetOK inv) pn now m s v s' : msg_ok pn m → pump_one pn now m s = Ok (v, s') → decided pn now m v.
Proof.
  intros Hok H. unfold pump_one in H.
  assert (decided pn now m (Keep m)) as Hkeep by (split; [done|split; [by left|done]]).
  destruct (needs_stamp m); [pass_cases H; exact Hkeep|]. destruct (deadline m <? now).
  { destruct (negb (via_pn m) && negb (tried_pn m) && bool_decide (is_Some pn)) eqn:E; pass_cases H; [|done].
    apply andb_true_iff in E as [[E1 E2]%andb_true_iff E3]. apply negb_true_iff in E1, E2. apply bool_decide_eq_true in E3.
    split; [done|]. split; [right; by split_and!|]. apply next_ok, escalate_ok; done. }
  destruct (in_flight m) as [h|] eqn:Hf; [|destruct (now <? next_action m); [pass_cases H; exact Hkeep|by eapply pump_send_spec]].
  destruct (now <? next_action m); [pass_cases H; exact Hkeep|]. change (via_pn (set_flight None m)) with (via_pn m) in H.
  change (attempts (set_flight None m)) with (attempts m) in H. change (tried_pn (set_flight None m)) with (tried_pn m) in H.
  assert (∀ v, decided pn now (set_flight None m) v → decided pn now m v) as Hlift by (by intros []).
  destruct (via_pn m) eqn:Hv; cbn [negb] in H.
  - apply Hlift. eapply pump_send_spec; [done|apply unflown_ok; [done|by left]|done|exact H].
  - destruct (Z.ltb_spec (attempts m) MAX_ATTEMPTS).
    + apply Hlift. eapply pump_send_spec; [done|apply unflown_ok; [done|by right]|done|exact H].
    + destruct (negb (tried_pn m) && bool_decide (is_Some pn)) eqn:E; [|pass_cases H; done].
      apply andb_true_iff in E as [E2 E3]. apply bool_decide_eq_true in E3.
      assert (msg_ok pn (escalate now (set_flight None m))) as Hok'.
      { destruct Hok as [_ _ (C1 & C2 & C3)]. split; [done|done|]. split; [exact C1|]. split; [done|exact C3]. }
      unfold pump_send in H. cbn [via_pn escalate] in H. apply res_bind_ok in H as (t & Ht & H).
      apply pump_pn_spec in H as (m' & -> & Hi & Hv' & Hd & Ha & Hl & Hr & Hrt & Htr & _). cbn in Ha, Hl, Hr, Hrt.
      split; [done|]. split; [right; split_and!; [done|by apply negb_true_iff|done|done|done]|].
      destruct Hok as [_ _ (C1 & C2 & C3)]. split; [by rewrite Hv'|by rewrite Hv'|].
      unfold counters_ok. rewrite Ha, Hl, Hr, Hrt, Hv'. split; [done|]. split; [done|exact C3].
Qed.

(** A message on its way to the propagation node is not looked at twice. *)
Lemma pump_one_via pn now m s v s' : via_pn m = true → pump_one pn now m s = Ok (v, s') → ∀ m', v ≠ Again m'.
Proof.
  intros Hv H. unfold pump_one in H. destruct (needs_stamp m); [by pass_cases H|]. rewrite Hv in H. cbn [negb andb] in H.
  destruct (deadline m <? now); [by pass_cases H|].
  assert (∀ m2 s2, via_pn m2 = true → pump_send pn now m2 s2 = Ok (v, s') → ∀ m', v ≠ Again m') as Hs.
  { intros m2 s2 Hv2 H2. unfold pump_send in H2. rewrite Hv2 in H2. apply res_bind_ok in H2 as (t & _ & H2).
    by apply pump_pn_spec in H2 as (m' & -> & _). }
  destruct (in_flight m); destruct (now <? next_action m); try by pass_cases H.
  - cbn [set_flight via_pn negb] in H. rewrite Hv in H. cbn [negb] in H. by eapply (Hs (set_flight None m)).
  - by eapply Hs.
Qed.

(** The verdict of an iteration: one or two looks. *)
Lemma pump_msg_spec (HN : NetOK inv) pn now m s v s' : msg_ok pn m → pump_msg 2 pn now m s = Ok (v, s') →
  decided pn now m v ∧ ∀ m', v ≠ Again m'.
Proof.
  intros Hok H. cbn [pump_msg] in H. apply res_bind_ok in H as ([v1 s1] & H1 & H). pose proof (pump_one_spec HN _ _ _ _ _ _ Hok H1) as D1.
  destruct v1 as [m1|m1 why|m1]; [by pass_cases H..|]. destruct D1 as (-> & Hv & Hp & Hok1).
  apply res_bind_ok in H as ([v2 s2] & H2 & H). set (m1 := set_next now _) in *.
  pose proof (pump_one_spec HN _ _ _ _ _ _ Hok1 H2) as D2. pose proof (pump_one_via _ _ _ _ _ _ (eq_refl : via_pn m1 = true) H2) as D3.
  destruct v2 as [m2|m2 why|m2]; [..|by destruct (D3 m2)]; pass_cases H; (split; [|done]); [|exact D2].
  destruct D2 as (Di & Dp & Dok). split; [exact Di|]. split; [|done]. right. pose proof (tried_direct _ _ Hok Hv).
  destruct Dp as [[E1 E2]|(E1 & _)]; [|done]. by split_and!.
Qed.

(** ** The pump returns *)
Definition yields {A} (r : res (A * Pump)) : Prop := ∃ a s, r = Ok (a, s) ∧ inv (p_net s).
Lemma yields_ret {A} (a : A) s : inv (p_net s) → yields (mret (a, s)).
Proof. by exists a, s. Qed.
Lemma yields_call {X A} (r : res (X * net)) (f : X * net → res (A * Pump)) :
  (∃ o n, r = Ok (o, n) ∧ inv n) → (∀ o n, inv n → yields (f (o, n))) → yields (r ≫= f).
Proof. intros (o & n & -> & Hn) H. by apply H. Qed.
Lemma yields_bind {X A} (r : res (X * Pump)) (f : X * Pump → res (A * Pump)) :
  yields r → (∀ a s, r = Ok (a, s) → inv (p_net s) → yields (f (a, s))) → yields (r ≫= f).
Proof. intros (a & s & -> & Hs) H. by apply H. Qed.

Ltac pump_yields HN :=
  repeat (cbv beta iota zeta; match goal with
  | |- yields (mret _) => apply yields_ret
  | |- ∃ _ _, net_send _ _ _ = _ ∧ _ => apply (send_total (NetOK := HN))
  | |- ∃ _ _, net_send_in _ _ _ = _ ∧ _ => apply (send_in_total (NetOK := HN))
  | |- ∃ _ _, net_send_resource _ _ _ = _ ∧ _ => apply (send_resource_total (NetOK := HN))
  | |- ∃ _ _, net_request_link _ _ _ _ = _ ∧ _ => apply (request_link_total (NetOK := HN))
  | |- ∃ _ _, net_request_key _ _ = _ ∧ _ => apply (request_key_total (NetOK := HN))
  | |- ∃ _ _, (if ?b then _ else _) = _ ∧ _ => destruct b
  | H : inv ?n |- context [net_link_for ?n ?p ?t] =>
      let E := fresh "E" in let I := fresh "I" in pose proof (link_for_inv (NetOK := HN) n p t H) as I; destruct (net_link_for n p t) as [? ?] eqn:E; cbn [snd] in I
  | H : inv ?n |- context [net_pending ?n ?p ?t] =>
      let E := fresh "E" in let I := fresh "I" in pose proof (pending_inv (NetOK := HN) n p t H) as I; destruct (net_pending n p t) as [? ?] eqn:E; cbn [snd] in I
  | |- yields (_ ≫= _) => apply yields_call; [|intros ? ? ?]
  | |- yields (match ?e with _ => _ end) => let E := fresh "E" in destruct e eqn:E
  | |- inv (net_expire_path _ _) => apply (expire_inv (NetOK := HN))
  | |- inv (net_drop_link _ _) => apply (drop_inv (NetOK := HN))
  | |- inv _ => assumption
  | |- context [p_net (set_net _ _)] => cbn [p_net set_net]
  end).
Lemma pump_pn_returns (HN : NetOK inv) target now m s : inv (p_net s) → yields (pump_pn target now m s).
Proof. intros. unfold pump_pn. pump_yields HN. Qed.
Lemma pump_establish_returns (HN : NetOK inv) pn now m s : inv (p_net s) → yields (pump_establish pn now m s).
Proof. intros. unfold pump_establish. pump_yields HN. Qed.
Lemma backchannel_net now p s : p_net (backchannel_for now p s).2 = p_net s.
Proof. unfold backchannel_for. destruct (backchannels s !! p) as [[l t]|]; [|done]. by destruct (_ <=? BACKCHANNEL_MAX_IDLE). Qed.
Lemma pump_direct_returns (HN : NetOK inv) pn now m s : inv (p_net s) → yields (pump_direct pn now m s).
Proof.
  intros Hs. unfold pump_direct. pose proof (link_for_inv (NetOK := HN) (p_net s) (peer m) now Hs) as I.
  destruct (net_link_for _ _ _) as [[lid|] n]; cbn [snd] in I; [pump_yields HN|].
  pose proof (backchannel_net now (peer m) (set_net s n)) as Hb.
  destruct (backchannel_for _ _ _) as [[lid|] s2]; cbn [snd] in Hb; assert (inv (p_net s2)) by (by rewrite Hb);
    [|by apply pump_establish_returns].
  apply yields_call; [pump_yields HN|]. intros [h|] n2 Hn; [by apply yields_ret|]. by apply pump_establish_returns.
Qed.
Lemma pump_send_returns (HN : NetOK inv) pn now m s : inv (p_net s) → (via_pn m = true → is_Some pn) → yields (pump_send pn now m s).
Proof.
  intros Hs Hv. unfold pump_send. destruct (via_pn m); [|by apply pump_direct_returns]. destruct Hv as [t ->]; [done|].
  by apply pump_pn_returns.
Qed.
Lemma forget_link_inv (HN : NetOK inv) now target keep s : inv (p_net s) → inv (p_net (forget_link now target keep s)).
Proof.
  intros Hs. unfold forget_link. pose proof (link_for_inv (NetOK := HN) (p_net s) target now Hs) as I.
  destruct (net_link_for _ _ _) as [[l|] n]; cbn [snd] in I; [|done]. case_bool_decide; [done|]. by apply (drop_inv (NetOK := HN)).
Qed.
Lemma pump_one_returns (HN : NetOK inv) pn now m s : inv (p_net s) → msg_ok pn m → yields (pump_one pn now m s).
Proof.
  intros Hs [Hv _ _]. unfold pump_one. destruct (needs_stamp m); [by apply yields_ret|]. destruct (deadline m <? now).
  { destruct (_ && bool_decide _); [by apply yields_ret|]. apply yields_ret. destruct (via_pn m && _); [|done].
    destruct pn; [|done]. by apply (expire_inv (NetOK := HN)). }
  destruct (in_flight m); destruct (now <? next_action m); try by apply yields_ret; try by apply (pump_send_returns HN).
  2: by apply (pump_send_returns HN).
  cbv zeta. change (via_pn (set_flight None m)) with (via_pn m). destruct (via_pn m) eqn:Ev; cbn [negb].
  - apply (pump_send_returns HN); [|cbn; by rewrite Ev]. destruct pn; [|done]. by apply forget_link_inv.
  - destruct (_ <? MAX_ATTEMPTS); [apply (pump_send_returns HN); [by apply forget_link_inv|cbn; by rewrite Ev]|].
    destruct (_ && bool_decide _) eqn:E; [|by apply yields_ret]. apply (pump_send_returns HN); [done|]. intros _.
    apply andb_true_iff in E as [_ E]. by apply bool_decide_eq_true in E.
Qed.
Lemma pump_msg_returns (HN : NetOK inv) pn now m s : inv (p_net s) → msg_ok pn m → yields (pump_msg 2 pn now m s).
Proof.
  intros Hs Hok. cbn [pump_msg]. apply yields_bind; [by apply pump_one_returns|]. intros v1 s1 H1 Hs1.
  pose proof (pump_one_spec HN _ _ _ _ _ _ Hok H1) as D1. destruct v1 as [m1|m1 why|m1]; [by apply yields_ret..|].
  destruct D1 as (-> & Hv & Hp & Hok1). apply yields_bind; [by apply pump_one_returns|]. intros v2 s2 H2 Hs2.
  destruct v2 as [m2|m2 why|m2]; [by apply yields_ret..|]. exfalso. by eapply (pump_one_via _ _ _ _ _ _ (eq_refl : via_pn (set_next now (escalate now (set_flight None m))) = true) H2).
Qed.

(** ** The outbox *)
Lemma pump_outbox_ok (HN : NetOK inv) pn now outbox s : inv (p_net s) → Forall (msg_ok pn) outbox →
  ∃ kept failures s', pump_outbox pn now outbox s = Ok (kept, failures, s') ∧ inv (p_net s') ∧ Forall (msg_ok pn) kept ∧
    (ident <$> outbox) ≡ₚ (ident <$> kept) ++ (ident ∘ fst <$> failures).
Proof.
  intros Hs Hall. revert s Hs. induction Hall as [|m outbox Hok _ IH]; intros s Hs; cbn [pump_outbox].
  { exists [], [], s. split; [done|]. split; [done|]. by split; [constructor|]. }
  destruct (pump_msg_returns HN pn now m s Hs Hok) as (v & s1 & E & Hs1). destruct (pump_msg_spec HN _ _ _ _ _ _ Hok E) as [D Dn].
  rewrite E, bind_Ok. destruct (IH s1 Hs1) as (kept & failures & s' & E2 & Hs' & Hk & Hp). rewrite E2, bind_Ok.
  destruct v as [m'|m' why|m']; [..|by destruct (Dn m')].
  - destruct D as (Di & _ & Dok). exists (m' :: kept), failures, s'. split_and!; [done|done|by constructor|].
    cbn. rewrite Di, Hp. done.
  - exists kept, ((m', why) :: failures), s'. split_and!; [done|done|done|]. cbn. rewrite D, Hp. cbn.
    by rewrite Permutation_middle.
Qed.

(** Everything that changes the outbox, at time [now]; [pumped] marks a run of the pump. *)
Inductive outbox_step `{C : Crypto} (pn : option bytes) (now : Z) : bool → list OutboundMsg → list OutboundMsg → Prop :=
  | step_enqueue p ts t pk ns st o : outbox_step pn now false o (enqueue_outbound now p ts t pk ns st o)
  | step_pump o s kept failures s' : inv (p_net s) → pump_outbox pn now o s = Ok (kept, failures, s') → outbox_step pn now true o kept
  | step_delivered h o : outbox_step pn now false o (mark_delivered h o).2
  | step_announce dest cost o : outbox_step pn now false o (announce_outbox dest cost o)
  | step_clear p o : outbox_step pn now false o (clear_peer p o)
  | step_stamp W fuel o0 o o' f b : compute_pending_delivery_stamp W fuel now o0 o = Ok (Some (o', f, b)) → outbox_step pn now false o o'
  | step_blob fuel kn cost ts eph iv o0 o o' b : compute_pending_pn_blob fuel kn cost ts eph iv o0 o = Ok (Some (o', b)) → outbox_step pn now false o o'.
Definition outbox_reachable `{C : Crypto} (pn : option bytes) : list OutboundMsg → Prop :=
  rtc (λ o o', ∃ now pumped, outbox_step pn now pumped o o') [].
(** The same with the clock: [T] is the time of the last run of the pump, which runs at
    least every [G] seconds. *)
Inductive timed `{C : Crypto} (pn : option bytes) (G : Z) : Z → list OutboundMsg → Prop :=
  | timed_start T : timed pn G T []
  | timed_step T now pumped o o' : timed pn G T o → T ≤ now ≤ T + G → outbox_step pn now pumped o o' →
      timed pn G (if pumped then now else T) o'.

Lemma mark_delivered_sub h o : Forall (λ m, m ∈ o) (mark_delivered h o).2.
Proof.
  induction o as [|m o IH]; cbn [mark_delivered]; [constructor|]. case_bool_decide.
  - apply Forall_forall. intros x Hx. by right.
  - destruct (mark_delivered h o) as [r o'] eqn:E. cbn [snd] in *. constructor; [left|]. eapply Forall_impl; [exact IH|]. intros x Hx. by right.
Qed.
Lemma update_first_ok (P : OutboundMsg → Prop) f g o : (∀ m, P m → P (g m)) → Forall P o → Forall P (update_first f g o).
Proof. intros Hg. induction 1 as [|m o Hm Ho IH]; cbn [update_first]; [constructor|]. destruct (f m); constructor; auto. Qed.
Lemma announce_ok pn dest cost m : msg_ok pn m → msg_ok pn (announce_msg dest cost m).
Proof.
  intros [H1 H2 H3]. unfold announce_msg. destruct (_ && _); [|done]. destruct cost; [|done]. by destruct (_ && _).
Qed.

(** Steps other than the pump's keep what enqueueing establishes, and the updates keep. *)
Lemma quiet_step `{C : Crypto} (P : OutboundMsg → Prop) pn now o o' :
  (∀ p ts t pk ns st, Forall P (enqueue_outbound now p ts t pk ns st [])) →
  (∀ dest cost m, P m → P (announce_msg dest cost m)) → (∀ pk m, P m → P (arm_stamped now pk m)) → (∀ b m, P m → P (set_blob b m)) →
  outbox_step pn now false o o' → Forall P o → Forall P o'.
Proof.
  intros Hnew Hann Harm Hblob Hs Ho.
  assert (∀ (Q : OutboundMsg → Prop) `{!∀ m, Decision (Q m)}, Forall P (filter Q o)) as Hfilter.
  { intros Q HQ. apply Forall_forall. intros x [_ Hx]%list_elem_of_filter. by eapply (proj1 (Forall_forall _ _) Ho). }
  inversion Hs; subst; clear Hs.
  - apply Forall_app. split; [done|]. apply Hnew.
  - eapply Forall_impl; [apply mark_delivered_sub|]. intros x Hx. by eapply (proj1 (Forall_forall _ _) Ho).
  - apply Forall_fmap. eapply Forall_impl; [exact Ho|]. intros. by apply Hann.
  - by apply Hfilter.
  - unfold compute_pending_delivery_stamp in H. destruct (List.find _ o0) as [m|]; [|apply Ok_inj in H; injection H as -> _ _; done].
    destruct (_ <? _); [apply Ok_inj in H; injection H as <- _ _; by apply Hfilter|].
    apply res_bind_ok in H as (hd & _ & H). apply res_bind_ok in H as (rest & _ & H). apply res_bind_ok in H as (st & _ & H).
    destruct st as [st|]; [|done]. apply res_bind_ok in H as (out & _ & H).
    destruct out as [out|]; apply Ok_inj in H; injection H as <- _ _; [|by apply Hfilter].
    apply update_first_ok; [|done]. intros. by apply Harm.
  - unfold compute_pending_pn_blob in H. destruct (List.find _ o0) as [m|]; [|apply Ok_inj in H; injection H as -> _; done].
    destruct (kn (peer m)); [|apply Ok_inj in H; injection H as -> _; done].
    apply res_bind_ok in H as (pt & _ & H). apply res_bind_ok in H as (bl & _ & H). destruct bl as [bl|]; [|done].
    apply Ok_inj in H. injection H as <- _. apply update_first_ok; [|done]. intros. by apply Hblob.
Qed.

Lemma enqueue_ok pn now p ts t pk ns st : Forall (msg_ok pn) (enqueue_outbound now p ts t pk ns st []).
Proof.
  constructor; [|done]. split; [done|done|]. unfold counters_ok. cbn.
  unfold MAX_ATTEMPTS, MAX_LINK_TRIES, MAX_DIRECT_ROUNDS, MAX_ROUTE_TRIES. split_and!; lia.
Qed.
Lemma outbox_step_ok `{C : Crypto} (HN : NetOK inv) pn now b o o' : outbox_step pn now b o o' → Forall (msg_ok pn) o → Forall (msg_ok pn) o'.
Proof.
  intros Hs Ho. destruct b.
  - inversion Hs as [|? s k f s' Hi E| | | | |]; subst. destruct (pump_outbox_ok HN pn now o s Hi Ho) as (k2 & f2 & s2 & E2 & _ & Hk & _). congruence.
  - eapply quiet_step; [intros; apply enqueue_ok|intros; by apply announce_ok| | |exact Hs|exact Ho]; by intros ? ? [? ? ?].
Qed.
Lemma outbox_ok `{C : Crypto} (HN : NetOK inv) pn o : outbox_reachable pn o → Forall (msg_ok pn) o.
Proof.
  unfold outbox_reachable. intros Hr. assert (Forall (msg_ok pn) []) as H0 by constructor. revert H0.
  induction Hr as [|x y z (now & b & Hs) _ IH]; [done|]. intros Hx. apply IH. by eapply outbox_step_ok.
Qed.
Lemma timed_ok `{C : Crypto} (HN : NetOK inv) pn G T o : timed pn G T o → Forall (msg_ok pn) o.
Proof. induction 1; [constructor|]. by eapply outbox_step_ok. Qed.

(** ** Time budgets *)

(** A message ready to be sent is within its budget; [T] is the last run of the pump. *)
Definition in_time (G T : Z) (m : OutboundMsg) : Prop :=
  needs_stamp m = None → deadline m ≤ created m + (DIRECT_DEADLINE + G + PROP_DEADLINE) ∧
    (via_pn m = false → deadline m ≤ created m + DIRECT_DEADLINE) ∧ (T ≤ deadline m ∨ T ≤ created m).
Lemma ident_ready m m' : ident m' = ident m → needs_stamp m' = needs_stamp m ∧ created m' = created m.
Proof. unfold ident. intros [= ? ? ? ? E1 ? E2]. done. Qed.
Lemma kept_in_time (HN : NetOK inv) pn G T now m s m' s' : T ≤ now ≤ T + G → msg_ok pn m → in_time G T m →
  pump_msg 2 pn now m s = Ok (Keep m', s') → in_time G now m' ∧ (needs_stamp m' = None → now ≤ deadline m').
Proof.
  intros Ht Hok Hin H. destruct (pump_msg_spec HN _ _ _ _ _ _ Hok H) as [(Hi & Hph & _) _].
  destruct (ident_ready _ _ Hi) as [En Ec].
  assert (needs_stamp m = None → now ≤ deadline m') as Hnow.
  { intros Hn. destruct Hph as [[Ev Ed]|(_ & _ & _ & _ & Ed)]; [|unfold PROP_DEADLINE in Ed; lia]. rewrite Ed.
    destruct (Z.ltb_spec (deadline m) now) as [Hlt|]; [|done]. exfalso. apply Z.ltb_lt in Hlt as Hb.
    cbn [pump_msg] in H. apply res_bind_ok in H as ([v1 s1] & H1 & H). unfold pump_one in H1. rewrite Hn, Hb in H1.
    destruct (negb (via_pn m) && negb (tried_pn m) && bool_decide (is_Some pn)); apply Ok_inj in H1; injection H1 as <- _;
      [|by apply Ok_inj in H]. apply Ok_inj in H. injection H as <- _. cbn in Ed. unfold PROP_DEADLINE in *. lia. }
  split; [|by rewrite En]. intros Hn. rewrite En in Hn. specialize (Hnow Hn). destruct (Hin Hn) as (B1 & B2 & B3). rewrite Ec.
  unfold DIRECT_DEADLINE, PROP_DEADLINE in *. destruct Hph as [[Ev Ed]|(Ev & _ & _ & Ev' & Ed)].
  - rewrite Ed in *. rewrite Ev. split_and!; [done|done|by left].
  - specialize (B2 Ev). unfold PROP_DEADLINE in Ed. split_and!; [lia|congruence|by left].
Qed.
Lemma pump_in_time (HN : NetOK inv) pn G T now o s kept failures s' : T ≤ now ≤ T + G → Forall (msg_ok pn) o → Forall (in_time G T) o →
  pump_outbox pn now o s = Ok (kept, failures, s') → Forall (λ m, in_time G now m ∧ (needs_stamp m = None → now ≤ deadline m)) kept.
Proof.
  intros Ht Hok Hin. revert s kept failures s'. induction Hin as [|m o Hm _ IH]; intros s kept failures s' H; cbn [pump_outbox] in H.
  { apply Ok_inj in H. injection H as <- _ _. constructor. }
  inversion Hok as [|? ? Hm1 Ho1]; subst. apply res_bind_ok in H as ([v s1] & E & H). apply res_bind_ok in H as ([[k f] s2] & E2 & H).
  specialize (IH Ho1 _ _ _ _ E2). destruct v as [m'|m' why|m']; [| |done]; apply Ok_inj in H; injection H as <- _ _; [|done].
  constructor; [by eapply kept_in_time|done].
Qed.
Lemma timed_in_time `{C : Crypto} (HN : NetOK inv) pn G T o : timed pn G T o → Forall (in_time G T) o.
Proof.
  induction 1 as [|T now b o o' Ht IH Hn Hs]; [constructor|]. pose proof (timed_ok HN _ _ _ _ Ht) as Hok. destruct b.
  - inversion Hs as [|? s k f s' Hi E| | | | |]; subst. eapply Forall_impl; [by eapply pump_in_time|]. by intros m [? _].
  - unfold in_time. eapply (quiet_step (in_time G T)); [..|exact Hs|exact IH]; unfold in_time.
    + intros. constructor; [|done]. cbn. intros _. unfold DIRECT_DEADLINE, PROP_DEADLINE. split_and!; [lia|lia|right; lia].
    + intros dest cost m Hm. unfold announce_msg. destruct (_ && _); [|done]. destruct cost; [|done]. by destruct (_ && _).
    + intros pk m Hm _. cbn. unfold DIRECT_DEADLINE, PROP_DEADLINE. split_and!; [lia|lia|right; lia].
    + intros b m Hm. exact Hm.
Qed.
End props.
