(* ===== verification/OutboxNet.v ===== *)
(** The delivery engine over the transport: the operations the pump uses ([broadcast_out],
    [request_peer_key], [send_link_request], [make_resource_on_link] of [net.rs]), what they
    guarantee in every reachable state of the transport, and the properties of the engine. *)
From S2P Require Import Prelude Constants Crypto Packet Identity Announce Link Msgpack Stamp Message Resource Tables Transport TransportInv TransportFlow TransportSession TransportCache Outbox OutboxProps.

(** ** Link keys have 64 bytes *)
Definition table_all {V} (P : V → Prop) (t : Table V) : Prop := ∀ k v, tmap t !! k = Some v → P v.
Lemma table_all_insert {V} (P : V → Prop) cap k v t : table_all P t → P v → table_all P (table_insert cap k v t).
Proof.
  intros Ht Hv k' w H. destruct (decide (k' = k)) as [->|Hne].
  - rewrite table_insert_lookup in H. by injection H as <-.
  - apply table_insert_other in H; [|done]. by eapply Ht.
Qed.
Lemma table_all_remove {V} (P : V → Prop) k t : table_all P t → table_all P (table_remove k t).
Proof. intros Ht k' w H. cbn in H. apply lookup_delete_Some in H as [_ H]. by eapply Ht. Qed.
Lemma table_all_remove_all {V} (P : V → Prop) k t : table_all P t → table_all P (table_remove_all k t).
Proof. intros Ht k' w H. cbn in H. apply lookup_delete_Some in H as [_ H]. by eapply Ht. Qed.
Lemma table_all_update {V} (P : V → Prop) k f t : (∀ v, P v → P (f v)) → table_all P t → table_all P (table_update k f t).
Proof.
  intros Hf Ht k' w H. cbn in H. destruct (decide (k' = k)) as [->|Hne].
  - rewrite lookup_alter_eq in H. apply fmap_Some in H as (v & Hv & ->). apply Hf. by eapply Ht.
  - rewrite lookup_alter_ne in H by done. by eapply Ht.
Qed.

Definition keys_ok (t : Transport) : Prop :=
  table_all (λ l, length (ol_key l) = DERIVED_KEY_LENGTH) (out_links t) ∧ table_all (λ l, length (ls_key l) = DERIVED_KEY_LENGTH) (links t).

Section keys.
Context `{C : Crypto} `{I : HashIter}.

Lemma link_key_length s p l k : link_key s p l = Ok k → length k = DERIVED_KEY_LENGTH.
Proof. unfold link_key. intros (d & _ & H)%res_bind_ok. unfold copy_exact in H. case_decide; [|done]. by apply Ok_inj in H as <-. Qed.
Lemma handshake_key_length l s d i k : complete_handshake l s d i = Ok k → length k = DERIVED_KEY_LENGTH.
Proof.
  unfold complete_handshake. case_decide as Hd; [done|]; clear Hd. cbv zeta.
  intros (x & _ & (y & _ & (z & _ & H)%res_bind_ok)%res_bind_ok)%res_bind_ok. destruct (negb _); [done|]. by eapply link_key_length.
Qed.
Lemma accepted_key_length p i e est : accept_request p i e = Ok est → length (est_derived_key est) = DERIVED_KEY_LENGTH.
Proof.
  unfold accept_request. case_decide as Hd; [done|]; clear Hd. cbv zeta. case_decide as Hd; [done|]; clear Hd.
  intros (x & _ & (y & _ & (z & _ & (k & Hk & (r & _ & H)%res_bind_ok)%res_bind_ok)%res_bind_ok)%res_bind_ok)%res_bind_ok.
  apply Ok_inj in H as <-. by eapply link_key_length.
Qed.

Lemma insert_out_link_keys l s t : length (ol_key s) = DERIVED_KEY_LENGTH → keys_ok t → keys_ok (insert_out_link l s t).
Proof. intros Hk [H1 H2]. split; [by apply table_all_insert|done]. Qed.
Lemma insert_link_keys l s t : length (ls_key s) = DERIVED_KEY_LENGTH → keys_ok t → keys_ok (insert_link l s t).
Proof. intros Hk [H1 H2]. split; [done|by apply table_all_insert]. Qed.
Lemma remove_out_link_keys l t : keys_ok t → keys_ok (remove_out_link l t).
Proof. intros [H1 H2]. split; [by apply table_all_remove_all|done]. Qed.
Lemma close_link_keys l t : keys_ok t → keys_ok (set_links (table_remove_all l) t).
Proof. intros [H1 H2]. split; [done|by apply table_all_remove_all]. Qed.
Lemma update_link_keys l i t : keys_ok t →
  keys_ok (set_links (table_update l (λ st, mkLinkState (ls_key st) (ls_proof st) (ls_peer_sig_pub st) i)) t).
Proof. intros [H1 H2]. split; [done|by apply table_all_update]. Qed.

Lemma handle_packet_keys t eph iface p : keys_ok t → answer_sat (λ _ t', keys_ok t') (handle_packet t eph iface p).
Proof.
  intros Ht. walk_packet ltac:(first [exact Ht | apply insert_out_link_keys; [by eapply handshake_key_length|exact Ht]
    | apply insert_link_keys; [by eapply accepted_key_length|exact Ht] | by apply remove_out_link_keys | by apply close_link_keys | by apply update_link_keys]).
Qed.

Lemma fold_keys {A} (f : A → Transport → Transport) l t : (∀ a t, keys_ok t → keys_ok (f a t)) → keys_ok t →
  keys_ok (fold_left (λ t a, f a t) l t).
Proof. intros Hf. revert t. induction l; cbn; auto. Qed.

Lemma transport_step_keys t t' : transport_step t t' → keys_ok t → keys_ok t'.
Proof.
  destruct 1 as [t raw eph iface e t' H|t h|t h i|t i|t h|t h id rt pt eph iv raw full t' H
    |t h id ex ee now raw lid t' H|t h now|t h now|t l|t l|t|t l pt iv raw ph t' H|t l pt iv raw ph t' H
    |t l d r pre iv aiv raw h t' H]; intros Ht; try exact Ht.
  - apply handle_frame_inv in H as [(p & _ & H)|(r & _ & _ & ->)]; [|done]. by eapply handle_packet_keys.
  - unfold expire_path. by destruct (_ !! h).
  - unfold make_opportunistic_tracked in H. cbv zeta in H.
    apply res_bind_ok in H as (ct & _ & (f & _ & (tr & _ & (r1 & _ & (r2 & _ & Hr)%res_bind_ok)%res_bind_ok)%res_bind_ok)%res_bind_ok).
    by injection Hr as _ _ <-.
  - unfold make_link_request in H. apply res_bind_ok in H as ([r1 l] & _ & (r2 & _ & Hr)%res_bind_ok).
    by injection Hr as _ _ <-.
  - unfold outbound_link_for. cbv zeta. set (t1 := fold_left _ _ t).
    assert (keys_ok t1) as [H1 H2] by (apply (fold_keys remove_out_link); [intros; by apply remove_out_link_keys|done]).
    destruct (fst <$> head _); [|done]. split; [by apply table_all_update|done].
  - unfold pending_link_to. cbn [snd]. by apply (fold_keys forget_pending_link).
  - by apply remove_out_link_keys.
  - by split; intros k v Hk; cbn in Hk; rewrite lookup_empty in Hk.
  - apply res_bind_ok in H as (ol & _ & (ct & _ & (h & _ & (r & _ & Hr)%res_bind_ok)%res_bind_ok)%res_bind_ok).
    by injection Hr as _ _ <-.
  - apply res_bind_ok in H as (ol & _ & (x & _ & (ct & _ & (h & _ & (r & _ & Hr)%res_bind_ok)%res_bind_ok)%res_bind_ok)%res_bind_ok).
    by injection Hr as _ _ <-.
  - apply res_bind_ok in H as (k & _ & (tx & _ & (adv & _ & Hr)%res_bind_ok)%res_bind_ok).
    by injection Hr as _ _ <-.
Qed.
Lemma reachable_keys id t : rtc transport_step (transport_new id) t → keys_ok t.
Proof.
  intros Hr. assert (keys_ok (transport_new id)) as H0 by (by split; intros k v Hk; cbn in Hk; rewrite lookup_empty in Hk).
  induction Hr as [|t1 t2 t3 Hs _ IH]; [done|]. apply IH. by eapply transport_step_keys.
Qed.
End keys.

(** ** The operations *)

(** The transport, how many random values were drawn, the packets handed to the interfaces,
    and the link a synchronisation is using. *)
Record Net := mkNet { tp : Transport; draws : nat; wire : list bytes; sync_link_id : option bytes }.

Section ops.
Context `{C : Crypto} `{I : HashIter}.
(** The random generator, by draw and length; whether the hub and whether the local peers
    took a packet, by its position. *)
Context (rand : nat → nat → bytes) (hub_ok auto_ok : nat → bool).

Definition with_tp (n : Net) (t : Transport) : Net := mkNet t (draws n) (wire n) (sync_link_id n).
Definition fill_random (n : Net) (k : nat) : bytes * Net :=
  (rand (draws n) k, mkNet (tp n) (S (draws n)) (wire n) (sync_link_id n)).
Definition broadcast_out (n : Net) (raw : bytes) : bool * Net :=
  (hub_ok (length (wire n)) || auto_ok (length (wire n)), mkNet (tp n) (draws n) (wire n ++ [raw]) (sync_link_id n)).

(** A packet made on the transport, with the hash its proof will carry, goes out. *)
Definition send_made (n : Net) (made : res (bytes * bytes * Transport)) : res (option bytes * Net) :=
  made ← res_ok made;
  match made with
  | Some (raw, h, t) => mret (Some h, (broadcast_out (with_tp n t) raw).2)
  | None => mret (None, n)
  end.
Definition link_data_out (n : Net) (lid d : bytes) : res (option bytes * Net) :=
  let '(iv, n) := fill_random n IV_LENGTH in send_made n (make_link_data (tp n) lid d iv).
Definition in_link_data_out (n : Net) (lid d : bytes) : res (option bytes * Net) :=
  let '(iv, n) := fill_random n IV_LENGTH in send_made n (make_in_link_data (tp n) lid d iv).
Definition make_resource_on_link (n : Net) (lid d : bytes) : res (option bytes * Net) :=
  let '(r, n) := fill_random n 4 in let '(prefix, n) := fill_random n 4 in
  let '(iv, n) := fill_random n IV_LENGTH in let '(adv_iv, n) := fill_random n IV_LENGTH in
  send_made n (make_link_resource (tp n) lid d r prefix iv adv_iv).

Definition request_peer_key (n : Net) (target : bytes) : res (bool * Net) :=
  let '(tag, n) := fill_random n TRUNCATED_HASHLENGTH in
  raw ← make_path_request (tp n) target tag;
  mret (broadcast_out n raw).

Definition send_link_request (n : Net) (pn : bytes) (id : PublicIdentity) (now : Z) : res (LinkReqOutcome * Net) :=
  let '(pending, t) := pending_link_to (tp n) pn now in
  if pending : bool then mret (Pending, with_tp n t)
  else
    let '(up, t) := outbound_link_for t pn now in
    match up with
    | Some _ => mret (Pending, with_tp n t)
    | None =>
        let '(ex, n) := fill_random (with_tp n t) KEY_HALF in
        let '(ed, n) := fill_random n KEY_HALF in
        '(raw, lid, t) ← make_link_request (tp n) pn id ex ed now;
        let '(ok, n) := broadcast_out (with_tp n t) raw in
        if ok : bool then mret (Sent, n) else mret (WriteFailed, with_tp n (forget_pending_link lid (tp n)))
    end.

#[export] Instance net_ops : NetOps := {
  net := Net;
  net_known n := known (tp n);
  net_has_path n := has_path (tp n);
  net_expire_path n p := with_tp n (expire_path p (tp n)).2;
  net_link_for n p now := let '(o, t) := outbound_link_for (tp n) p now in (o, with_tp n t);
  net_drop_link n l := with_tp n (drop_out_link l (tp n));
  net_pending n p now := let '(b, t) := pending_link_to (tp n) p now in (b, with_tp n t);
  net_send := link_data_out;
  net_send_in := in_link_data_out;
  net_send_resource := make_resource_on_link;
  net_request_link := send_link_request;
  net_request_key := request_peer_key;
  net_sync_link n := sync_link_id n;
}.

(** ** The interface is implemented *)
Context `{!HashOK, !HashIterOK} (id : PrivateIdentity).
Definition net_inv (n : Net) : Prop := rtc transport_step (transport_new id) (tp n).
Lemma net_step n n' : net_inv n → transport_step (tp n) (tp n') → net_inv n'.
Proof. intros Hn Hs. by eapply rtc_r. Qed.

Lemma send_made_ok n made : net_inv n → no_panic made → (∀ raw h t, made = Ok (raw, h, t) → transport_step (tp n) t) →
  ∃ o n', send_made n made = Ok (o, n') ∧ net_inv n'.
Proof.
  intros Hn Hp Hs. unfold send_made. destruct made as [[[raw h] t]| |]; cbn [res_ok]; [| |done]; rewrite bind_Ok.
  - eexists _, _. split; [reflexivity|]. eapply net_step; [exact Hn|]. by eapply Hs.
  - by eexists _, _.
Qed.
Lemma send_link_data_no_panic t l key pt iv : no_panic (send_link_data t l key pt iv).
Proof.
  unfold send_link_data, encrypt_data. apply res_bind_no_panic; [apply res_bind_no_panic; [apply Token_new_no_panic|intros; apply no_panic_ok]|].
  intros ct _. cbv zeta. rewrite packet_hash_ok by apply header1_tid. res_simpl. apply res_bind_no_panic; [apply Packet.encode_no_panic, header1_tid|].
  intros. apply no_panic_ok.
Qed.
Lemma ok_or_no_panic {A} e (o : option A) : no_panic (ok_or e o).
Proof. by destruct o. Qed.
Lemma make_link_resource_no_panic t l d r pre iv aiv : keys_ok t → no_panic (make_link_resource t l d r pre iv aiv).
Proof.
  intros [K1 K2]. unfold make_link_resource. destruct (any_link_key t l) as [key|] eqn:E; cbn [ok_or]; [|done].
  assert (length key = DERIVED_KEY_LENGTH) as Hk.
  { unfold any_link_key in E. destruct (_ !! l) as [ol|] eqn:E1; [injection E as <-; by eapply K1|].
    apply fmap_Some in E as (st & E2 & ->). by eapply K2. }
  rewrite bind_Ok. unfold sender_new. rewrite Token_new_ok by done. cbn [res_expect]. res_simpl.
  apply res_bind_no_panic; [apply make_link_context_packet_no_panic|intros; apply no_panic_ok].
Qed.
Lemma apply_transport_no_panic t dest raw : (2 ≤ length raw)%nat → no_panic (apply_transport t dest raw).
Proof.
  intros Hl. unfold apply_transport. destruct (_ !! dest) as [e|]; [|done]. case_decide; [done|]. destruct (pe_next_hop e); [|done].
  destruct raw as [|a [|b raw]]; [cbn in Hl; lia..|]. case_decide; [done|]. done.
Qed.
Lemma request_returns t pn i ex ed now : ∃ raw lid t', make_link_request t pn i ex ed now = Ok (raw, lid, t').
Proof.
  unfold make_link_request, initiate_request. set (p := header1 _ _ _ _ _).
  destruct (link_id_ok p (header1_tid _ _ _ _ _)) as (hp & -> & _). rewrite bind_Ok. unfold p, Packet.encode, header1. cbn [header_type].
  res_simpl. match goal with |- context [apply_transport t pn ?r] => pose proof (apply_transport_no_panic t pn r) as Hp; destruct (apply_transport t pn r) as [raw| |] eqn:E end.
  - by eexists _, _, _.
  - exfalso. clear Hp. unfold apply_transport in E. destruct (_ !! pn) as [pe|]; [|done]. case_decide; [done|]. by destruct (pe_next_hop pe).
  - destruct Hp; [cbn; lia|done].
Qed.

#[export] Instance net_ok : NetOK net_inv.
Proof.
  split.
  - intros n l d Hn. apply send_made_ok; [exact Hn| |].
    + apply res_bind_no_panic; [apply ok_or_no_panic|]. intros. apply send_link_data_no_panic.
    + intros. by eapply ts_link_data.
  - intros n l d Hn. apply send_made_ok; [exact Hn| |].
    + apply res_bind_no_panic; [apply ok_or_no_panic|]. intros. apply res_bind_no_panic; [apply ok_or_no_panic|]. intros. apply send_link_data_no_panic.
    + intros. by eapply ts_in_link_data.
  - intros n l d Hn. apply send_made_ok; [exact Hn| |].
    + apply make_link_resource_no_panic. by eapply reachable_keys.
    + intros. by eapply ts_link_resource.
  - intros n p i t Hn. cbn [net_request_link net_ops]. unfold send_link_request.
    pose proof (ts_pending_link (tp n) p t) as S1. destruct (pending_link_to _ _ _) as [[] t1]; cbn [snd] in S1.
    { eexists _, _. split; [reflexivity|]. by eapply net_step. }
    assert (net_inv (with_tp n t1)) as I1 by (by eapply net_step).
    pose proof (ts_outbound_link t1 p t) as S2. destruct (outbound_link_for _ _ _) as [[l|] t2]; cbn [snd] in S2.
    { eexists _, _. split; [reflexivity|]. by eapply (net_step (with_tp n t1)). }
    assert (net_inv (with_tp n t2)) as I2 by (by eapply (net_step (with_tp n t1))). cbn [fill_random fst snd tp with_tp].
    match goal with |- context [make_link_request ?t ?p ?i ?x ?e ?now] => destruct (request_returns t p i x e now) as (raw & lid & t3 & E) end.
    rewrite E, bind_Ok. assert (net_inv (with_tp n t3)) as I3 by (eapply (net_step (with_tp n t2)); [exact I2|]; by eapply ts_link_request).
    unfold broadcast_out. cbn [draws wire with_tp]. destruct (_ || _); eexists _, _; (split; [reflexivity|]); [exact I3|].
    eapply (net_step (with_tp n t3)); [exact I3|]. apply ts_forget_pending.
  - intros n p Hn. cbn [net_request_key net_ops]. unfold request_peer_key, make_path_request, Packet.encode, header1. cbn [header_type fill_random].
    res_simpl. by eexists _, _.
  - intros n p Hn. eapply net_step; [exact Hn|]. apply ts_expire_path.
  - intros n l Hn. eapply net_step; [exact Hn|]. apply ts_drop_out_link.
  - intros n p t Hn. cbn [net_link_for net_ops]. pose proof (ts_outbound_link (tp n) p t) as S. destruct (outbound_link_for _ _ _). by eapply net_step.
  - intros n p t Hn. cbn [net_pending net_ops]. pose proof (ts_pending_link (tp n) p t) as S. destruct (pending_link_to _ _ _). by eapply net_step.
  - intros n p t n' i o n'' Ha Hb. cbn [net_pending net_request_link net_ops] in *.
    pose proof (pending_link_live (tp n) p t) as L1. destruct (pending_link_to (tp n) p t) as [b t1]. injection Ha as -> <-.
    destruct L1 as [[L1 _] L2]. destruct (L1 eq_refl) as (lid & q & Hq & Hqt & Hqn).
    unfold send_link_request in Hb. cbn [tp with_tp] in Hb. pose proof (pending_link_live t1 p t) as L3.
    destruct (pending_link_to t1 p t) as [b2 t2]. destruct L3 as [[_ L3] _].
    rewrite L3 in Hb; [apply Ok_inj in Hb; by injection Hb as <- _|]. exists lid, q. split_and!; [|done|done]. apply L2. done.
Qed.
End ops.

(** ** The stamp miner on one message *)

(** The stamp it mines, over the id it computes. *)
Definition mine_for `{C : Crypto} (fuel : nat) (cost : Z) (m : OutboundMsg) : res (option bytes) :=
  generate_stamp fuel (full_hash (take 32 (packed m) ++ drop 96 (packed m))) cost WORKBLOCK_EXPAND_ROUNDS_DELIVERY.
Lemma generated_length `{C : Crypto} fuel material cost rounds stamp :
  generate_stamp fuel material cost rounds = Ok (Some stamp) → (length stamp ≤ 32)%nat.
Proof.
  unfold generate_stamp. intros (st & _ & H)%res_bind_ok. apply Ok_inj in H.
  apply mine_sound in H as (c & _ & ->). rewrite length_take. unfold STAMP_SIZE. lia.
Qed.
Lemma digest_leading_zeros_nonneg st : Forall is_word st → 0 ≤ digest_leading_zeros st.
Proof.
  induction 1 as [|w st Hw _ IH]; cbn [digest_leading_zeros]; [lia|]. case_decide; [lia|]. unfold leading_zeros.
  assert (Z.log2 w < 32) by (unfold is_word in Hw; apply Z.log2_lt_pow2; lia). lia.
Qed.
(** A stamp that costs nothing is the first counter. *)
Lemma free_stamp `{C : Crypto} `{!KdfOK} material rounds : ∃ stamp, generate_stamp 1 material 0 rounds = Ok (Some stamp).
Proof.
  unfold generate_stamp. destruct (midstate_streams material 0 rounds H0) as (wb & _ & _ & ->). rewrite bind_Ok. cbn [mine].
  assert (attempt (fold_left compress (chunks 64 wb) H0) rounds 0 0 = true) as ->; [|by eexists].
  unfold attempt. apply bool_decide_eq_true. apply digest_leading_zeros_nonneg.
  by apply (compress_ok _ _ (compress_all_ok (chunks 64 wb) _ H0_ok)).
Qed.
#[local] Opaque generate_stamp WORKBLOCK_EXPAND_ROUNDS_DELIVERY.
Lemma compute_single `{C : Crypto} W fuel now m c stamp : needs_stamp m = Some c → c ≤ MAX_DELIVERY_STAMP_COST →
  (96 ≤ length (packed m))%nat → mine_for fuel c m = Ok (Some stamp) →
  compute_pending_delivery_stamp W fuel now [m] [m] =
    match append_stamp W (packed m) stamp with
    | Ok out => Ok (Some ([arm_stamped now out m], None, true))
    | Err _ => Ok (Some ([], Some m, false))
    | Panic => Panic
    end.
Proof.
  intros Hn Hc Hl Hg. unfold mine_for in Hg. unfold compute_pending_delivery_stamp, List.find. rewrite bool_decide_eq_true_2 by (rewrite Hn; by eexists).
  assert (same_entry (peer m) (display_ts m) m = true) as Hsame by (unfold same_entry; apply bool_decide_eq_true_2; split; reflexivity).
  rewrite Hn. change (default 0 (Some c)) with c. rewrite (proj2 (Z.ltb_ge _ _) Hc).
  change (2 * TRUNCATED_HASHLENGTH)%nat with 32%nat. change (32 + SIG_LENGTH)%nat with 96%nat.
  rewrite (slice_to_ok (packed m) 32), bind_Ok by (revert Hl; clear; lia). rewrite (slice_from_ok (packed m) 96 Hl), bind_Ok.
  cbv zeta. rewrite Hg, bind_Ok. clear Hg.
  destruct (append_stamp W (packed m) stamp) as [out| |]; unfold res_ok; [rewrite bind_Ok|rewrite bind_Ok|done].
  - unfold update_first, existsb. by rewrite Hsame.
  - unfold filter, list_filter. by rewrite Hsame.
Qed.

(** ** Properties *)

(** C11: A pass of the pump over any reachable outbox, in any reachable state of the transport,
    returns: nothing panics and no message is looked at more than twice.  Every message is
    kept or reported failed, once, and is otherwise unchanged; the retry counters of those
    kept are within their limits, and only with a propagation node configured is a message
    on its way to one. *)
Theorem pump_conserves `{C : Crypto} `{I : HashIter} `{!HashOK, !HashIterOK} (rand : nat → nat → bytes) (hub_ok auto_ok : nat → bool)
  (id : PrivateIdentity) (pn : option bytes) (now : Z) (outbox : list OutboundMsg)
  (s : @Pump (net_ops rand hub_ok auto_ok)) (Hs : net_inv id (p_net s))
  (Ho : outbox_reachable (N := net_ops rand hub_ok auto_ok) (inv := net_inv id) pn outbox) :
  ∃ kept failures s', pump_outbox pn now outbox s = Ok (kept, failures, s') ∧
    (ident <$> outbox) ≡ₚ (ident <$> kept) ++ (ident ∘ fst <$> failures) ∧
    Forall (msg_ok pn) kept ∧ net_inv id (p_net s').
Proof.
  pose proof (net_ok rand hub_ok auto_ok id) as HN.
  destruct (pump_outbox_ok HN pn now outbox s Hs (outbox_ok HN pn outbox Ho)) as (k & f & s' & E & Hi & Hk & Hp).
  by exists k, f, s'.
Qed.

(** C10: Every message settles.  If the pump runs at least every [G] seconds, then a pass at
    time [now] keeps a message that needs no stamp only if it was queued, or stamped, at most
    [210 + G] seconds before: older ones have been delivered, or are reported failed by this
    pass. *)
Theorem message_settles `{C : Crypto} `{I : HashIter} `{!HashOK, !HashIterOK} (rand : nat → nat → bytes) (hub_ok auto_ok : nat → bool)
  (id : PrivateIdentity) (pn : option bytes) (G T now : Z) (outbox : list OutboundMsg)
  (s : @Pump (net_ops rand hub_ok auto_ok)) (Hs : net_inv id (p_net s)) (Hn : T ≤ now ≤ T + G)
  (Ho : timed (N := net_ops rand hub_ok auto_ok) (inv := net_inv id) pn G T outbox) :
  ∃ kept failures s', pump_outbox pn now outbox s = Ok (kept, failures, s') ∧
    (ident <$> outbox) ≡ₚ (ident <$> kept) ++ (ident ∘ fst <$> failures) ∧
    ∀ m, m ∈ kept → needs_stamp m = None → now ≤ created m + 210 + G.
Proof.
  pose proof (net_ok rand hub_ok auto_ok id) as HN. pose proof (timed_ok HN _ _ _ _ Ho) as Hok.
  destruct (pump_outbox_ok HN pn now outbox s Hs Hok) as (k & f & s' & E & _ & _ & Hp). exists k, f, s'.
  split; [done|]. split; [done|]. intros m Hm Hr.
  pose proof (pump_in_time HN pn G T now outbox s k f s' Hn Hok (timed_in_time HN _ _ _ _ Ho) E) as Hk.
  destruct (proj1 (Forall_forall _ _) Hk m Hm) as [Hin Hd]. destruct (Hin Hr) as (Hb & _). specialize (Hd Hr).
  unfold DIRECT_DEADLINE, PROP_DEADLINE in Hb. lia.
Qed.

(** A stamped message is lost when the peer announces before it is sent.  The miner does not
    record the stamp in [stamped], so the announce, which names a stamp cost, asks for one again;
    [append_stamp] refuses the second and the message is dropped as failed, although the code
    says this cannot happen to our own messages. *)
Theorem restamp_drops `{C : Crypto} `{!HashOK, !SigOK} (W : Z) (fuel : nat) (now now' c c' : Z) (source : PrivateIdentity)
  (src : bytes) (ts : Z) (title content : bytes) (fields : Fields) (m : OutboundMsg) (stamp : bytes)
  (Hm : packed m = Message.packed (pack source (peer m) src ts title content fields None))
  (Hd : length (peer m) = DEST_LEN) (Hs : length src = DEST_LEN) (Hp : payload_ok ts title content fields = true)
  (Hl : len_of (packed m) + 39 < 2 ^ W) (Hf : in_flight m = None) (Ha : attempts m = 0) (Hst : stamped m = false)
  (Hn : needs_stamp m = Some c) (Hc : c ≤ MAX_DELIVERY_STAMP_COST) (Hc' : c' ≤ MAX_DELIVERY_STAMP_COST)
  (Hg : mine_for fuel c m = Ok (Some stamp)) :
  ∃ m1, compute_pending_delivery_stamp W fuel now [m] [m] = Ok (Some ([m1], None, true)) ∧ needs_stamp m1 = None ∧
    let m2 := announce_msg (peer m) (Some c') m1 in
    announce_outbox (peer m) (Some c') [m1] = [m2] ∧
    ∀ fuel' stamp', mine_for fuel' c' m2 = Ok (Some stamp') →
      compute_pending_delivery_stamp W fuel' now' [m2] [m2] = Ok (Some ([], Some m2, false)).
Proof.
  assert (length stamp ≤ 32)%nat as Hsl by (exact (generated_length _ _ _ _ _ Hg)).
  destruct (append_stamp_once W source (peer m) src ts title content fields stamp Hd Hs Hp) as (E & _ & _ & A & B).
  { revert Hsl. unfold len_of. clear. lia. }
  { rewrite <-Hm. revert Hl Hsl. unfold len_of. clear. lia. }
  rewrite <-Hm in *. set (head := peer m ++ src ++ _) in *. set (out := head ++ _) in A, B.
  assert (length head = 96)%nat as Hh.
  { unfold head. rewrite !length_app, Hd, Hs. unfold sign. rewrite sign_length. reflexivity. }
  assert (∀ x, 96 ≤ length (head ++ x))%nat as Hlen by (intros x; rewrite length_app, Hh; clear; lia).
  assert (96 ≤ length (packed m))%nat as Hlm by (rewrite E; apply Hlen).
  exists (arm_stamped now out m). split; [|split; [reflexivity|]].
  - rewrite (compute_single W fuel now m c stamp Hn Hc Hlm Hg), A. reflexivity.
  - clear Hg. cbv zeta. split; [reflexivity|]. intros fuel' stamp'.
    assert (announce_msg (peer m) (Some c') (arm_stamped now out m) = set_next 0 (set_needs_stamp (Some c') (arm_stamped now out m))) as Em.
    { unfold announce_msg, arm_stamped. cbn [peer attempts in_flight stamped needs_stamp]. rewrite Ha, Hf, Hst.
      by rewrite bool_decide_eq_true_2. }
    rewrite Em. intros Hg'. set (m2 := set_next _ _) in *. assert (packed m2 = out) as Ep by reflexivity.
    assert (96 ≤ length (packed m2))%nat as Hl2 by (rewrite Ep; apply Hlen).
    rewrite (compute_single W fuel' now' m2 c' stamp' eq_refl Hc' Hl2 Hg'), Ep, B. reflexivity.
Qed.

(** ** Witnesses *)
Import ToyInstances.
#[local] Instance pump_iter : HashIter := λ V m, map_to_list m.
#[local] Instance pump_iter_ok : HashIterOK.
Proof. by intros V m. Qed.

(** A node without links or routes, its hub connected, and one message. *)
Definition w_rand (_ k : nat) : bytes := replicate k 7.
Definition w_up (_ : nat) : bool := true.
Definition w_node : PrivateIdentity := from_bytes (replicate 32 3) (replicate 32 4).
Definition w_pump : @Pump (net_ops w_rand w_up w_up) := mkPump (N := net_ops w_rand w_up w_up) (mkNet (transport_new w_node) 0 [] None) ∅.
Definition w_packed : bytes := Message.packed (pack w_node (replicate 16 9) (replicate 16 8) 0x41d954fc40000000 [] (ascii "hello") [] None).
Definition w_outbox : list OutboundMsg := enqueue_outbound 100 (replicate 16 9) 100 (ascii "hello") w_packed None false [].

Lemma pump_conserves_witness : ∃ kept failures s', pump_outbox None 101 w_outbox w_pump = Ok (kept, failures, s') ∧
  (ident <$> w_outbox) ≡ₚ (ident <$> kept) ++ (ident ∘ fst <$> failures) ∧ Forall (msg_ok None) kept ∧ net_inv w_node (p_net s').
Proof.
  apply pump_conserves; [apply rtc_refl|]. apply rtc_once. exists 100, false. apply step_enqueue.
Defined.

(** The second pass of the run, 91 seconds after the message was queued: it fails. *)
Lemma message_settles_witness : ∃ kept failures s', pump_outbox None 191 w_outbox w_pump = Ok (kept, failures, s') ∧
  (ident <$> w_outbox) ≡ₚ (ident <$> kept) ++ (ident ∘ fst <$> failures) ∧
  ∀ m, m ∈ kept → needs_stamp m = None → 191 ≤ created m + 210 + 91.
Proof.
  apply (message_settles w_rand w_up w_up w_node None 91 100 191 w_outbox w_pump); [apply rtc_refl|lia|].
  apply (timed_step (N := net_ops w_rand w_up w_up) (inv := net_inv w_node) None 91 100 100 false []); [constructor|lia|apply step_enqueue].
Defined.

Definition w_unstamped : OutboundMsg :=
  mkMsg (replicate 16 9) 100 (ascii "hello") w_packed (Some 0) false false false None 0 0 0 0 false None 0 100 190.
Lemma restamp_drops_witness : ∃ m1 stamp', compute_pending_delivery_stamp 32 1 110 [w_unstamped] [w_unstamped] = Ok (Some ([m1], None, true)) ∧
  let m2 := announce_msg (replicate 16 9) (Some 0) m1 in mine_for 1 0 m2 = Ok (Some stamp') ∧
  compute_pending_delivery_stamp 32 1 120 [m2] [m2] = Ok (Some ([], Some m2, false)).
Proof.
  destruct (free_stamp (full_hash (take 32 (packed w_unstamped) ++ drop 96 (packed w_unstamped))) WORKBLOCK_EXPAND_ROUNDS_DELIVERY) as [st Hst].
  destruct (restamp_drops 32 1 110 120 0 0 w_node (replicate 16 8) 0x41d954fc40000000 [] (ascii "hello") [] w_unstamped st)
    as (m1 & H1 & _ & _ & H2); [reflexivity|reflexivity|reflexivity|reflexivity|vm_compute; reflexivity|reflexivity|reflexivity|reflexivity|reflexivity|(unfold MAX_DELIVERY_STAMP_COST; lia)|(unfold MAX_DELIVERY_STAMP_COST; lia)|exact Hst|].
  destruct (free_stamp (full_hash (take 32 (packed (announce_msg (replicate 16 9) (Some 0) m1)) ++ drop 96 (packed (announce_msg (replicate 16 9) (Some 0) m1))))
    WORKBLOCK_EXPAND_ROUNDS_DELIVERY) as [st' Hst'].
  exists m1, st'. split; [exact H1|]. split; [exact Hst'|]. exact (H2 1%nat st' Hst').
Defined.
