(* ===== verification/Sync.v ===== *)
(** The synchronisation with a propagation node ([lxmfchat/src/net.rs], from [start_sync] to
    [parse_rns_response], with [maybe_auto_sync] and what the connection manager and the event
    dispatch do to it).

    A handler is a computation over the state of the synchronisation and of the network
    ([Net]); it is one step, although the source takes its locks several times.  Status lines
    are left out but the result a synchronisation ends with; a message is handed over to
    [deliver_lxmf] by adding it to [delivered].  [W] is the width of [usize]. *)
From S2P Require Import Prelude Constants Crypto Packet Identity Link Msgpack Message Resource Transport Outbox OutboxNet.

Definition SYNC_GET_PATH : bytes := ascii "/get".
Definition SYNC_DELIVERY_LIMIT : Z := 128.
Definition SYNC_DEADLINE_SECS : Z := 120.
Definition SYNC_ROUTE_RETRY_SECS : Z := 3.
Definition SYNC_ROUTE_TRIES : Z := 20.
Definition PN_PROBE_RETRY_SECS : Z := 30.

Inductive SyncPhase := Idle | Linking | ListRequested | GetRequested.
#[export] Instance SyncPhase_eq_dec : EqDecision SyncPhase.
Proof. solve_decision. Defined.

Record SyncState := mkSync {
  phase : SyncPhase;
  link : option bytes;
  receiver : option ResourceReceiver;
  sync_deadline : Z;
  auto_done : bool;
  pn_probe_at : Z;
  requested : bool;
  next_attempt : Z;
  sync_route_tries : Z;
  sync_link_tries : Z;
}.
Definition sync_new : SyncState := mkSync Idle None None 0 false 0 false 0 0 0.

(** Field updates. *)
Definition set_phase (p : SyncPhase) (s : SyncState) : SyncState :=
  mkSync p (link s) (receiver s) (sync_deadline s) (auto_done s) (pn_probe_at s) (requested s) (next_attempt s) (sync_route_tries s) (sync_link_tries s).
Definition set_link (l : option bytes) (s : SyncState) : SyncState :=
  mkSync (phase s) l (receiver s) (sync_deadline s) (auto_done s) (pn_probe_at s) (requested s) (next_attempt s) (sync_route_tries s) (sync_link_tries s).
Definition set_receiver (r : option ResourceReceiver) (s : SyncState) : SyncState :=
  mkSync (phase s) (link s) r (sync_deadline s) (auto_done s) (pn_probe_at s) (requested s) (next_attempt s) (sync_route_tries s) (sync_link_tries s).
Definition set_auto_done (s : SyncState) : SyncState :=
  mkSync (phase s) (link s) (receiver s) (sync_deadline s) true (pn_probe_at s) (requested s) (next_attempt s) (sync_route_tries s) (sync_link_tries s).
Definition set_probe (t : Z) (s : SyncState) : SyncState :=
  mkSync (phase s) (link s) (receiver s) (sync_deadline s) (auto_done s) t (requested s) (next_attempt s) (sync_route_tries s) (sync_link_tries s).
Definition set_requested (b : bool) (s : SyncState) : SyncState :=
  mkSync (phase s) (link s) (receiver s) (sync_deadline s) (auto_done s) (pn_probe_at s) b (next_attempt s) (sync_route_tries s) (sync_link_tries s).
Definition set_route (t tries : Z) (s : SyncState) : SyncState :=
  mkSync (phase s) (link s) (receiver s) (sync_deadline s) (auto_done s) (pn_probe_at s) (requested s) t tries (sync_link_tries s).
Definition set_link_tries (n : Z) (s : SyncState) : SyncState :=
  mkSync (phase s) (link s) (receiver s) (sync_deadline s) (auto_done s) (pn_probe_at s) (requested s) (next_attempt s) (sync_route_tries s) n.
(** The state a synchronisation starts from. *)
Definition begin_linking (now : Z) (s : SyncState) : SyncState :=
  mkSync Linking None None (now + SYNC_DEADLINE_SECS) (auto_done s) (pn_probe_at s) (requested s) 0 0 0.
(** The reset of [sync_finish]. *)
Definition reset (s : SyncState) : SyncState :=
  mkSync Idle None None (sync_deadline s) (auto_done s) (pn_probe_at s) false (next_attempt s) 0 (sync_link_tries s).

(** ** Computations *)
Record World := mkWorld { sync : SyncState; nt : Net; delivered : list bytes; results : list string }.
Definition M (A : Type) : Type := World → res (A * World).
#[export] Instance M_ret : MRet M := λ A a w, Ok (a, w).
#[export] Instance M_bind : MBind M := λ A B f m w, '(a, w) ← m w; f a w.

Definition get_sync : M SyncState := λ w, Ok (sync w, w).
Definition upd_sync (f : SyncState → SyncState) : M () := λ w, Ok (tt, mkWorld (f (sync w)) (nt w) (delivered w) (results w)).
Definition get_tp : M Transport := λ w, Ok (tp (nt w), w).
(** A call on the network. *)
Definition on_net {A} (f : Net → res (A * Net)) : M A :=
  λ w, '(a, n) ← f (nt w); Ok (a, mkWorld (sync w) n (delivered w) (results w)).
Definition on_tp {A} (f : Transport → A * Transport) : M A := on_net (λ n, let '(a, t) := f (tp n) in Ok (a, with_tp n t)).
Definition lift {A} (r : res A) : M A := λ w, a ← r; Ok (a, w).
Definition deliver (m : bytes) : M () := λ w, Ok (tt, mkWorld (sync w) (nt w) (delivered w ++ [m]) (results w)).
Definition report (why : string) : M () := λ w, Ok (tt, mkWorld (sync w) (nt w) (delivered w) (results w ++ [why])).
Notation "m ;; n" := (m ≫= λ _, n) (at level 100, n at level 200, right associativity) : stdpp_scope.

Section sync.
Context `{C : Crypto} `{I : HashIter} `{B : Bz2} (W : Z).
Context (rand : nat → nat → bytes) (hub_ok auto_ok : nat → bool).
(** The propagation node configured, if any. *)
Context (pn : option bytes).

Definition random (k : nat) : M bytes := on_net (λ n, Ok (fill_random rand n k)).
Definition broadcast (raw : bytes) : M bool := on_net (λ n, Ok (broadcast_out hub_ok auto_ok n raw)).
(** A packet made on the transport goes out, if it can be made. *)
Definition broadcast_made (made : res bytes) : M () :=
  o ← lift (res_ok made);
  match o with Some raw => broadcast raw ;; mret tt | None => mret tt end.

Definition sync_finish (msg : string) : M () :=
  s ← get_sync;
  upd_sync reset ;;
  match link s with
  | Some lid => on_tp (λ t, (tt, drop_out_link lid t))
  | None => mret tt
  end ;;
  report msg.

(** [sync_send_get]: an RNS request to the node's [/get] handler. *)
Definition get_request (now : Z) (data : Value) : Value :=
  Array [F64 (i64_as_f64 now); Bin (truncated_hash SYNC_GET_PATH); data].
Definition sync_send_get (now : Z) (lid : bytes) (data : Value) : M () :=
  iv ← random IV_LENGTH;
  t ← get_tp;
  broadcast_made (make_out_link_context t lid CONTEXT_REQUEST (encode (get_request now data)) iv).
Definition sync_send_identify_and_list (now : Z) (lid : bytes) : M () :=
  upd_sync (set_phase ListRequested) ;;
  iv ← random IV_LENGTH;
  t ← get_tp;
  broadcast_made (make_out_link_identify t lid iv) ;;
  sync_send_get now lid (Array [Nil; Nil]).
Definition send_out_link_request (lid req : bytes) : M () :=
  iv ← random IV_LENGTH;
  t ← get_tp;
  broadcast_made (make_out_link_context t lid CONTEXT_RESOURCE_REQ req iv).
Definition send_request_opt (lid : bytes) (req : option bytes) : M () :=
  match req with Some req => send_out_link_request lid req | None => mret tt end.

(** The node cannot be reached yet: try again later, a bounded number of times. *)
Definition retry_later (now : Z) : M bool :=
  s ← get_sync;
  let tries := u8_sat_add (sync_route_tries s) 1 in
  if tries <=? SYNC_ROUTE_TRIES then
    upd_sync (λ s, set_requested true (set_route (now + SYNC_ROUTE_RETRY_SECS) tries s)) ;; mret false
  else upd_sync (λ s, set_route (next_attempt s) tries s) ;; mret true.

(** [up]: some interface is up. *)
Definition start_sync (up : bool) (now : Z) : M () :=
  match pn with
  | None => mret tt
  | Some node =>
      s ← get_sync;
      if bool_decide (phase s ≠ Idle) then mret tt
      else if negb up then
        gives_up ← retry_later now;
        if gives_up : bool then sync_finish "no connection (hub or local peers)" else mret tt
      else
        t ← get_tp;
        match known t node, has_path t node with
        | Some k, true =>
            upd_sync (begin_linking now) ;;
            existing ← on_tp (λ t, outbound_link_for t node now);
            match existing with
            | Some lid => upd_sync (set_link (Some lid)) ;; sync_send_identify_and_list now lid
            | None =>
                outcome ← on_net (λ n, send_link_request rand hub_ok auto_ok n node (kd_identity k) now);
                match outcome with
                | WriteFailed => sync_finish "hub write failed"
                | Sent | Pending => upd_sync (set_link_tries 1)
                end
            end
        | _, _ =>
            gives_up ← retry_later now;
            if gives_up : bool then sync_finish "no route to the propagation node"
            else on_net (λ n, request_peer_key rand hub_ok auto_ok n node) ;; mret tt
        end
  end.

Definition sync_on_link_up (now : Z) (lid target : bytes) : M () :=
  if bool_decide (pn ≠ Some target) then mret tt
  else
    s ← get_sync;
    if bool_decide (phase s = Linking) then upd_sync (set_link (Some lid)) ;; sync_send_identify_and_list now lid
    else mret tt.

(** [parse_rns_response] *)
Definition parse_rns_response (payload : bytes) : res (option Value) :=
  v ← res_ok (decode W payload);
  mret (v ← v; a ← as_array v; if decide (length a < 2)%nat then None else a !! 1%nat).

Definition deliver_synced_message (blob : bytes) : M () :=
  if decide (length blob ≤ TRUNCATED_HASHLENGTH)%nat then mret tt
  else
    rest ← lift (slice_from blob TRUNCATED_HASHLENGTH);
    t ← get_tp;
    plaintext ← lift (res_ok (Identity.decrypt (identity t) rest []));
    match plaintext with
    | None => mret tt
    | Some pt => head ← lift (slice_to blob TRUNCATED_HASHLENGTH); deliver (head ++ pt)
    end.
(** The blobs of a response, in order; the ids to confirm. *)
Fixpoint deliver_blobs (blobs : list Value) : M (list Value) :=
  match blobs with
  | [] => mret []
  | b :: blobs =>
      match as_bin b with
      | Some bin => deliver_synced_message bin ;; haves ← deliver_blobs blobs; mret (Bin (full_hash bin) :: haves)
      | None => deliver_blobs blobs
      end
  end.

Definition handle_sync_response (now : Z) (lid : bytes) (resp : Value) : M () :=
  match resp with
  | Int code =>
      sync_finish (if code =? 240 then "node needs identification" else if code =? 241 then "node denied access" else "node error")
  | _ =>
      s ← get_sync;
      match phase s with
      | ListRequested =>
          let ids := default [] (as_array resp) in
          if bool_decide (ids = []) then sync_finish "no new messages"
          else
            sync_send_get now lid (Array [Array ids; Array []; Int SYNC_DELIVERY_LIMIT]) ;;
            upd_sync (set_phase GetRequested)
      | GetRequested =>
          haves ← deliver_blobs (default [] (as_array resp));
          (if bool_decide (haves = []) then mret tt else sync_send_get now lid (Array [Nil; Array haves])) ;;
          sync_finish "synced"
      | _ => mret tt
      end
  end.
Definition response_opt (now : Z) (lid : bytes) (resp : option Value) : M () :=
  match resp with Some resp => handle_sync_response now lid resp | None => mret tt end.

(** A resource part: the next request, and whether the resource is complete. *)
Definition sync_part (plaintext : bytes) : M (bool * option bytes) :=
  s ← get_sync;
  match receiver s with
  | None => mret (false, None)
  | Some rx =>
      let '(window_done, rx) := receive_part rx plaintext in
      if is_complete rx then upd_sync (set_receiver (Some rx)) ;; mret (true, None)
      else if window_done then
        '(req, rx) ← lift (next_request rx);
        upd_sync (set_receiver (Some rx)) ;; mret (false, req)
      else upd_sync (set_receiver (Some rx)) ;; mret (false, None)
  end.
(** The resource is complete: decrypt, check, prove, and read the response it carries. *)
Definition sync_resource_done (now : Z) (lid : bytes) : M () :=
  s ← get_sync;
  match receiver s with
  | None => mret tt
  | Some rx =>
      let stream := concat_parts rx in
      t ← get_tp;
      plain ← (if rr_encrypted rx then lift (res_ok (decrypt_out_link t lid stream)) else mret (Some stream));
      match plain with
      | None => sync_finish "sync failed (decrypt)"
      | Some plain =>
          r ← lift (res_ok (finish rx plain));
          match r with
          | Some (payload, proof) =>
              t ← get_tp;
              broadcast_made (make_out_link_resource_proof t lid proof) ;;
              upd_sync (set_receiver None) ;;
              resp ← lift (parse_rns_response payload);
              response_opt now lid resp
          | None => sync_finish "sync failed (resource)"
          end
      end
  end.

Definition sync_on_outlink_data (now : Z) (lid : bytes) (context : Z) (plaintext : bytes) : M () :=
  s ← get_sync;
  if bool_decide (link s ≠ Some lid ∨ phase s = Idle) then mret tt
  else if context =? CONTEXT_RESPONSE then
    resp ← lift (parse_rns_response plaintext);
    response_opt now lid resp
  else if context =? CONTEXT_RESOURCE_ADV then
    rx ← lift (res_ok (accept W plaintext));
    match rx with
    | Some rx =>
        '(req, rx) ← lift (next_request rx);
        upd_sync (set_receiver (Some rx)) ;;
        send_request_opt lid req
    | None => sync_finish "sync failed (unsupported resource)"
    end
  else if context =? CONTEXT_RESOURCE_HMU then
    match receiver s with
    | None => mret tt
    | Some rx =>
        r ← lift (res_ok (receive_hashmap_update W rx plaintext));
        match r with
        | Some rx =>
            '(req, rx) ← lift (next_request rx);
            upd_sync (set_receiver (Some rx)) ;;
            send_request_opt lid req
        | None => mret tt
        end
    end
  else if context =? CONTEXT_RESOURCE then
    '(complete, req) ← sync_part plaintext;
    send_request_opt lid req ;;
    if complete : bool then sync_resource_done now lid else mret tt
  else mret tt.

(** The tick of the sync thread. *)
Definition maybe_auto_sync (up : bool) (now : Z) : M () :=
  s ← get_sync;
  match pn with
  | None => upd_sync (set_requested false)
  | Some node =>
      if bool_decide (phase s ≠ Idle) && (sync_deadline s <? now) then
        (if bool_decide (phase s = Linking) then on_tp (λ t, (tt, (expire_path node t).2)) else mret tt) ;;
        sync_finish "timed out"
      else if bool_decide (phase s = Linking) then
        t ← get_tp;
        match known t node with
        | None => mret tt
        | Some k =>
            outcome ← on_net (λ n, send_link_request rand hub_ok auto_ok n node (kd_identity k) now);
            match outcome with
            | Sent => upd_sync (λ s, set_link_tries (u8_sat_add (sync_link_tries s) 1) s)
            | WriteFailed => sync_finish "hub write failed"
            | Pending => mret tt
            end
        end
      else if requested s && (next_attempt s <=? now) then
        upd_sync (set_requested false) ;; start_sync up now
      else if negb (auto_done s) && bool_decide (phase s = Idle) then
        t ← get_tp;
        if bool_decide (is_Some (known t node)) && has_path t node then
          upd_sync set_auto_done ;; start_sync up now
        else if up && (pn_probe_at s <=? now) then
          upd_sync (set_probe (now + PN_PROBE_RETRY_SECS)) ;;
          on_net (λ n, request_peer_key rand hub_ok auto_ok n node) ;; mret tt
        else mret tt
      else mret tt
  end.

Definition request_sync : M () := upd_sync (set_requested true).
(** The connection manager, on losing the hub. *)
Definition connection_lost : M () :=
  on_tp (λ t, (tt, connection_reset t)) ;;
  s ← get_sync;
  if bool_decide (phase s ≠ Idle) then sync_finish "connection lost" else mret tt.
(** The node closed a link we opened. *)
Definition out_link_closed (lid : bytes) : M () :=
  s ← get_sync;
  if bool_decide (phase s ≠ Idle ∧ link s = Some lid) then sync_finish "node closed the link" else mret tt.
End sync.
