(* ===== verification/SyncProps.v ===== *)
(** What a synchronisation guarantees: it downloads, hands over and confirms what the node
    holds, and it ends within its deadline whatever the node does. *)
From S2P Require Import Prelude Constants Crypto Packet Identity Link Msgpack Message Resource Tables Transport Outbox OutboxNet Sync.

Create HintDb sync_run.

Section runs.
Context `{C : Crypto} `{I : HashIter}.

(** ** One step of a computation *)
Definition with_sync (w : World) (s : SyncState) : World := mkWorld s (nt w) (delivered w) (results w).
Definition with_nt (w : World) (n : Net) : World := mkWorld (sync w) n (delivered w) (results w).
Lemma bind_step {A B'} (m : M A) (f : A → M B') w a w' : m w = Ok (a, w') → (m ≫= f) w = f a w'.
Proof. intros H. unfold mbind, M_bind. by rewrite H, bind_Ok. Qed.
Lemma get_sync_bind {A} (f : SyncState → M A) w : (get_sync ≫= f) w = f (sync w) w.
Proof. done. Qed.
Lemma get_tp_bind {A} (f : Transport → M A) w : (get_tp ≫= f) w = f (tp (nt w)) w.
Proof. done. Qed.
Lemma upd_sync_bind {A} g (f : () → M A) w : (upd_sync g ≫= f) w = f tt (with_sync w (g (sync w))).
Proof. done. Qed.
Lemma lift_ok_bind {A B'} (a : A) (f : A → M B') w : (lift (Ok a) ≫= f) w = f a w.
Proof. done. Qed.
Lemma ret_bind {A B'} (a : A) (f : A → M B') w : (mret a ≫= f) w = f a w.
Proof. done. Qed.
Lemma bind_assoc {A B' D} (m : M A) (f : A → M B') (g : B' → M D) w : ((m ≫= f) ≫= g) w = (m ≫= λ a, f a ≫= g) w.
Proof. unfold mbind, M_bind. by destruct (m w) as [[a w']| |]. Qed.
End runs.
#[export] Hint Rewrite @get_sync_bind @get_tp_bind @upd_sync_bind @lift_ok_bind @ret_bind : sync_run.
Ltac m_run := repeat (progress (autorewrite with sync_run; cbv beta iota)).

Section sends.
Context `{C : Crypto} `{I : HashIter} `{B : Bz2} `{!HashOK, !KdfOK, !CipherOK} (W : Z) (rand : nat → nat → bytes) (hub_ok auto_ok : nat → bool).
Context (Hrand : ∀ d k, length (rand d k) = k).

(** The link is up in the transport, under a key. *)
Definition link_up (w : World) (lid key : bytes) : Prop :=
  ∃ l, tmap (out_links (tp (nt w))) !! lid = Some l ∧ ol_key l = key ∧ length key = DERIVED_KEY_LENGTH ∧ length lid = TRUNCATED_HASHLENGTH.
(** The node at the other end of the link reads a packet as this request. *)
Definition node_reads (lid key raw : bytes) (req : Value) : Prop :=
  ∃ p, Packet.decode raw = Ok p ∧ context p = CONTEXT_REQUEST ∧ destination_hash p = lid ∧ Link.decrypt key (data p) = Ok (encode req).

Lemma send_get_ok now lid key data w : link_up w lid key → ∃ raw n, sync_send_get rand hub_ok auto_ok now lid data w = Ok (tt, with_nt w n) ∧
  tp n = tp (nt w) ∧ wire n = wire (nt w) ++ [raw] ∧ node_reads lid key raw (get_request now data).
Proof.
  intros (l & Hl & <- & Hk & Hlen). unfold sync_send_get.
  rewrite (bind_step _ _ w (rand (draws (nt w)) IV_LENGTH) (with_nt w (fill_random rand (nt w) IV_LENGTH).2)) by done.
  m_run. set (w1 := with_nt w _). assert (tp (nt w1) = tp (nt w)) as Et by done. rewrite Et.
  unfold make_out_link_context, out_link. rewrite Hl. cbn [ok_or]. rewrite bind_Ok.
  destruct (link_packet_roundtrip lid (ol_key l) CONTEXT_REQUEST (encode (get_request now data)) (rand (draws (nt w)) IV_LENGTH) Hlen Hk)
    as (raw & p & -> & Hd & _ & Hc & Hdh & Hdec); [apply Hrand|].
  eexists raw, (broadcast_out hub_ok auto_ok (nt w1) raw).2. split; [reflexivity|]. split; [done|]. split; [done|]. by exists p.
Qed.

(** What a blob of the node is handed over as. *)
Definition opened (id : PrivateIdentity) (blob : bytes) : option bytes :=
  if decide (length blob ≤ TRUNCATED_HASHLENGTH)%nat then None
  else match Identity.decrypt id (drop TRUNCATED_HASHLENGTH blob) [] with
       | Ok pt => Some (take TRUNCATED_HASHLENGTH blob ++ pt)
       | _ => None
       end.
Definition add_delivered (w : World) (ms : list bytes) : World := mkWorld (sync w) (nt w) (delivered w ++ ms) (results w).
Lemma deliver_synced_ok blob w :
  deliver_synced_message blob w = Ok (tt, add_delivered w (option_list (opened (identity (tp (nt w))) blob))).
Proof.
  assert (add_delivered w [] = w) as E0 by (unfold add_delivered; rewrite app_nil_r; by destruct w).
  unfold deliver_synced_message, opened. case_decide as Hl; [change (option_list None) with (@nil bytes); by rewrite E0|].
  rewrite slice_from_ok by lia. m_run. pose proof (identity_decrypt_no_panic (identity (tp (nt w))) (drop TRUNCATED_HASHLENGTH blob) []) as Hnp.
  destruct (Identity.decrypt _ _ _) as [pt|e|]; cbn [res_ok]; m_run; [|change (option_list None) with (@nil bytes); by rewrite E0|done].
  by rewrite slice_to_ok by lia.
Qed.
Lemma deliver_blobs_ok blobs w :
  deliver_blobs (Bin <$> blobs) w = Ok (Bin ∘ full_hash <$> blobs, add_delivered w (omap (opened (identity (tp (nt w)))) blobs)).
Proof.
  revert w. induction blobs as [|b blobs IH]; intros w; cbn [fmap list_fmap deliver_blobs as_bin].
  - unfold add_delivered. cbn. rewrite app_nil_r. by destruct w.
  - rewrite (bind_step _ _ w _ _ (deliver_synced_ok b w)).
    rewrite (bind_step _ _ _ _ _ (IH _)). cbn. unfold add_delivered. cbn. rewrite <-app_assoc.
    by destruct (opened _ b).
Qed.

Lemma parse_response_ok rid resp : value_ok (Array [rid; resp]) = true → len_of (encode (Array [rid; resp])) < 2 ^ W →
  parse_rns_response W (encode (Array [rid; resp])) = Ok (Some resp).
Proof. intros Hv Hl. unfold parse_rns_response. by rewrite decode_whole. Qed.

(** The end of a synchronisation. *)
Lemma sync_finish_ok msg w : ∃ t, sync_finish msg w =
    Ok (tt, mkWorld (reset (sync w)) (with_tp (nt w) t) (delivered w) (results w ++ [msg])) ∧
  identity t = identity (tp (nt w)) ∧ (∀ lid, link (sync w) = Some lid → tmap (out_links t) !! lid = None).
Proof.
  unfold sync_finish. m_run. destruct (link (sync w)) as [lid|] eqn:E.
  - eexists. split; [reflexivity|]. split; [done|]. intros ? [= <-]. cbn. apply lookup_delete_eq.
  - exists (tp (nt w)). split; [|done]. cbn. by destruct w as [s [] ? ?].
Qed.
(** A response on the link of the synchronisation reaches its handler. *)
Lemma response_reaches now lid rid resp w : link (sync w) = Some lid → phase (sync w) ≠ Idle →
  value_ok (Array [rid; resp]) = true → len_of (encode (Array [rid; resp])) < 2 ^ W →
  sync_on_outlink_data W rand hub_ok auto_ok now lid CONTEXT_RESPONSE (encode (Array [rid; resp])) w =
    handle_sync_response rand hub_ok auto_ok now lid resp w.
Proof.
  intros Hlk Hph Hv Hl. unfold sync_on_outlink_data. m_run. rewrite bool_decide_eq_false_2 by (intros [?|?]; congruence).
  cbn [Z.eqb]. change (CONTEXT_RESPONSE =? CONTEXT_RESPONSE) with true. cbv iota. rewrite parse_response_ok by done. by m_run.
Qed.

(** The list of ids: they are all asked for. *)
Lemma list_response_ok now lid key ids w : phase (sync w) = ListRequested → link_up w lid key → ids ≠ [] →
  ∃ raw n, handle_sync_response rand hub_ok auto_ok now lid (Array ids) w = Ok (tt, mkWorld (set_phase GetRequested (sync w)) n (delivered w) (results w)) ∧
    tp n = tp (nt w) ∧ wire n = wire (nt w) ++ [raw] ∧
    node_reads lid key raw (get_request now (Array [Array ids; Array []; Int SYNC_DELIVERY_LIMIT])).
Proof.
  intros Hph Hup Hids. unfold handle_sync_response. m_run. rewrite Hph. cbn [as_array default]. cbv zeta.
  change (default [] (as_array (Array ids))) with ids. rewrite bool_decide_eq_false_2 by done.
  destruct (send_get_ok now lid key (Array [Array ids; Array []; Int SYNC_DELIVERY_LIMIT]) w Hup) as (raw & n & E & Et & Ew & Hn).
  rewrite (bind_step _ _ _ _ _ E). exists raw, n. by split_and!.
Qed.

(** The blobs: those that open are handed over, all are confirmed, and the link is dropped. *)
Lemma get_response_ok now lid key blobs w : phase (sync w) = GetRequested → link (sync w) = Some lid → link_up w lid key →
  ∃ w', handle_sync_response rand hub_ok auto_ok now lid (Array (Bin <$> blobs)) w = Ok (tt, w') ∧
    delivered w' = delivered w ++ omap (opened (identity (tp (nt w)))) blobs ∧ sync w' = reset (sync w) ∧
    tmap (out_links (tp (nt w'))) !! lid = None ∧ results w' = results w ++ ["synced"] ∧
    (blobs ≠ [] → ∃ raw, wire (nt w') = wire (nt w) ++ [raw] ∧
      node_reads lid key raw (get_request now (Array [Nil; Array (Bin ∘ full_hash <$> blobs)]))).
Proof.
  intros Hph Hlk Hup. unfold handle_sync_response. m_run. rewrite Hph.
  change (default [] (as_array (Array (Bin <$> blobs)))) with (Bin <$> blobs).
  rewrite (bind_step _ _ _ _ _ (deliver_blobs_ok blobs w)). set (w1 := add_delivered w _).
  destruct (sync_finish_ok "synced" w1) as (t & E & _ & Ht). case_bool_decide as Hb.
  - apply fmap_nil_inv in Hb as ->. m_run. rewrite E. eexists. split; [reflexivity|]. split_and!; [done|done|by apply Ht|done|done].
  - destruct (send_get_ok now lid key (Array [Nil; Array (Bin ∘ full_hash <$> blobs)]) w1 Hup) as (raw & n & Es & Et & Ew & Hn).
    rewrite (bind_step _ _ _ _ _ Es). clear t E Ht. destruct (sync_finish_ok "synced" (with_nt w1 n)) as (t & E & _ & Ht). rewrite E.
    eexists. split; [reflexivity|]. split_and!; [done|done|by apply Ht|done|]. intros _. by exists raw.
Qed.
End sends.

(** ** What a computation keeps *)
Section keeps.
Context {X : Type} (f : SyncState → X).
Definition keeps {A} (m : M A) : Prop := ∀ w a w', m w = Ok (a, w') → f (sync w') = f (sync w).
Lemma keeps_ret {A} (a : A) : keeps (mret a).
Proof. by intros w a' w' [= _ <-]. Qed.
Lemma keeps_bind {A B'} (m : M A) (g : A → M B') : keeps m → (∀ a, keeps (g a)) → keeps (m ≫= g).
Proof.
  intros Hm Hg w b w' H. unfold mbind, M_bind in H. apply res_bind_ok in H as ([a w1] & H1 & H2).
  etrans; [by eapply Hg|by eapply Hm].
Qed.
Lemma keeps_get : keeps get_sync.
Proof. by intros w a w' [= _ <-]. Qed.
Lemma keeps_tp : keeps get_tp.
Proof. by intros w a w' [= _ <-]. Qed.
Lemma keeps_upd g : (∀ s, f (g s) = f s) → keeps (upd_sync g).
Proof. intros Hg w a w' [= _ <-]. apply Hg. Qed.
Lemma keeps_net {A} (g : Net → res (A * Net)) : keeps (on_net g).
Proof. intros w a w' H. unfold on_net in H. apply res_bind_ok in H as ([b n] & _ & H). by injection H as _ <-. Qed.
Lemma keeps_lift {A} (r : res A) : keeps (lift r).
Proof. intros w a w' H. unfold lift in H. apply res_bind_ok in H as (b & _ & H). by injection H as _ <-. Qed.
Lemma keeps_deliver m : keeps (deliver m).
Proof. by intros w a w' [= _ <-]. Qed.
Lemma keeps_report m : keeps (report m).
Proof. by intros w a w' [= _ <-]. Qed.
End keeps.
(** Walks a computation; [tac] closes the updates of the state. *)
Ltac keeps_walk tac := repeat first
  [ apply keeps_ret | apply keeps_get | apply keeps_tp | apply keeps_net | apply keeps_lift | apply keeps_deliver | apply keeps_report
  | apply keeps_upd; solve [tac]
  | apply keeps_bind; [|intros ?]
  | match goal with
    | |- keeps _ (match ?x with _ => _ end) => destruct x
    | |- keeps _ (let '(_, _) := ?x in _) => destruct x
    end
  | progress cbv beta zeta ].

Section ends.
Context `{C : Crypto} `{I : HashIter} `{B : Bz2} (W : Z) (rand : nat → nat → bytes) (hub_ok auto_ok : nat → bool) (pn : option bytes).

(** Everything but the start of a synchronisation keeps the deadline. *)
Lemma finish_deadline msg : keeps sync_deadline (sync_finish msg).
Proof. unfold sync_finish, on_tp. keeps_walk ltac:(done). Qed.
Lemma made_keeps {X} (f : SyncState → X) made : keeps f (broadcast_made hub_ok auto_ok made).
Proof. unfold broadcast_made, broadcast. keeps_walk ltac:(done). Qed.
Lemma send_get_keeps {X} (f : SyncState → X) now lid data : keeps f (sync_send_get rand hub_ok auto_ok now lid data).
Proof. unfold sync_send_get, random. keeps_walk ltac:(done). all: apply made_keeps. Qed.
Lemma identify_deadline now lid : keeps sync_deadline (sync_send_identify_and_list rand hub_ok auto_ok now lid).
Proof. unfold sync_send_identify_and_list, random. keeps_walk ltac:(done). all: first [apply made_keeps|apply send_get_keeps]. Qed.
Lemma send_request_keeps {X} (f : SyncState → X) lid req : keeps f (send_request_opt rand hub_ok auto_ok lid req).
Proof. unfold send_request_opt, send_out_link_request, random. keeps_walk ltac:(done). all: apply made_keeps. Qed.
Lemma deliver_blobs_keeps {X} (f : SyncState → X) blobs : keeps f (deliver_blobs blobs).
Proof.
  induction blobs as [|b blobs IH]; cbn [deliver_blobs]; keeps_walk ltac:(done). all: first [exact IH | unfold deliver_synced_message; keeps_walk ltac:(done)].
Qed.
Lemma response_deadline now lid resp : keeps sync_deadline (response_opt rand hub_ok auto_ok now lid resp).
Proof.
  unfold response_opt, handle_sync_response. keeps_walk ltac:(done); first [apply finish_deadline|apply send_get_keeps|apply deliver_blobs_keeps].
Qed.
Lemma data_deadline now lid cx pt : keeps sync_deadline (sync_on_outlink_data W rand hub_ok auto_ok now lid cx pt).
Proof.
  unfold sync_on_outlink_data, sync_part, sync_resource_done. keeps_walk ltac:(done);
    first [apply response_deadline|apply finish_deadline|apply send_request_keeps|apply made_keeps].
Qed.
Lemma link_up_deadline now lid target : keeps sync_deadline (sync_on_link_up rand hub_ok auto_ok pn now lid target).
Proof. unfold sync_on_link_up. keeps_walk ltac:(done). all: apply identify_deadline. Qed.
Lemma lost_deadline : keeps sync_deadline connection_lost.
Proof. unfold connection_lost, on_tp. keeps_walk ltac:(done). all: apply finish_deadline. Qed.
Lemma closed_deadline lid : keeps sync_deadline (out_link_closed lid).
Proof. unfold out_link_closed. keeps_walk ltac:(done). all: apply finish_deadline. Qed.
Lemma retry_keeps now : keeps phase (retry_later now).
Proof. unfold retry_later. keeps_walk ltac:(done). Qed.
(** A computation that leaves the client idle. *)
Lemma M_bind_inv {A B'} (m : M A) (g : A → M B') w b w' : (m ≫= g) w = Ok (b, w') → ∃ a w1, m w = Ok (a, w1) ∧ g a w1 = Ok (b, w').
Proof. unfold mbind, M_bind. intros ([a w1] & H1 & H2)%res_bind_ok. by exists a, w1. Qed.
Lemma finish_idle msg w a w' : sync_finish msg w = Ok (a, w') → phase (sync w') = Idle.
Proof. destruct (sync_finish_ok msg w) as (t & -> & _). by intros [= _ <-]. Qed.
Lemma give_up_idle now msg (k : M ()) w a w' : phase (sync w) = Idle → keeps phase k →
  (gives_up ← retry_later now; if gives_up : bool then sync_finish msg else k) w = Ok (a, w') → phase (sync w') = Idle.
Proof.
  intros Hi Hk (g & w1 & H1 & H2)%M_bind_inv. apply retry_keeps in H1. destruct g; [by eapply finish_idle|].
  apply Hk in H2. congruence.
Qed.

(** A synchronisation starts with a fresh deadline. *)
Lemma start_sync_spec up now w a w' : start_sync rand hub_ok auto_ok pn up now w = Ok (a, w') →
  (phase (sync w) ≠ Idle → w' = w) ∧
  (phase (sync w) = Idle → phase (sync w') ≠ Idle → is_Some pn ∧ sync_deadline (sync w') = now + SYNC_DEADLINE_SECS).
Proof.
  unfold start_sync. destruct pn as [node|]; [|by intros [= _ <-]]. rewrite get_sync_bind. case_bool_decide as Hp; [by intros [= _ <-]|].
  intros H. split; [done|]. intros _ Hn. split; [done|]. destruct up; cbn [negb] in H.
  2:{ destruct Hn. eapply give_up_idle; [exact Hp| |exact H]. apply keeps_ret. }
  rewrite get_tp_bind in H.
  assert (∀ msg k, keeps phase k → (gives_up ← retry_later now; if gives_up : bool then sync_finish msg else k) w = Ok (a, w') →
    sync_deadline (sync w') = now + SYNC_DEADLINE_SECS) as Hgive by (intros msg k Hk H2; destruct Hn; by eapply give_up_idle).
  destruct (known _ node) as [k|]; [destruct (has_path _ node)|]; [|eapply Hgive; [|exact H]; keeps_walk ltac:(done)..].
  rewrite upd_sync_bind in H. set (w1 := with_sync w _) in H. change (now + SYNC_DEADLINE_SECS) with (sync_deadline (sync w1)).
  revert H. match goal with |- ?m w1 = _ → _ => assert (keeps sync_deadline m) as Hk end; [|apply Hk].
  unfold on_tp. keeps_walk ltac:(done). all: first [apply identify_deadline | apply finish_deadline].
Qed.

(** A tick while a synchronisation runs keeps its deadline, and ends it once the deadline is past. *)
Lemma tick_active node up now w : pn = Some node → phase (sync w) ≠ Idle →
  (∀ a w', maybe_auto_sync rand hub_ok auto_ok pn up now w = Ok (a, w') → sync_deadline (sync w') = sync_deadline (sync w)) ∧
  (sync_deadline (sync w) < now → ∃ w', maybe_auto_sync rand hub_ok auto_ok pn up now w = Ok (tt, w') ∧ phase (sync w') = Idle ∧
     ∀ lid, link (sync w) = Some lid → tmap (out_links (tp (nt w'))) !! lid = None).
Proof.
  intros Epn Hp. unfold maybe_auto_sync. rewrite get_sync_bind, Epn. rewrite (bool_decide_eq_true_2 (phase (sync w) ≠ Idle)) by done. cbn [andb].
  destruct (Z.ltb_spec (sync_deadline (sync w)) now) as [Hlt|Hge].
  - assert (∀ (k : M ()) a w', keeps sync_deadline k → (k ;; sync_finish "timed out") w = Ok (a, w') → sync_deadline (sync w') = sync_deadline (sync w)) as Hd.
    { intros k a w' Hk H. assert (keeps sync_deadline (k ;; sync_finish "timed out")) as Hk2; [|by eapply Hk2].
      apply keeps_bind; [done|]. intros ?. apply finish_deadline. }
    split; [intros a w'; apply Hd; unfold on_tp; keeps_walk ltac:(done)|]. intros _.
    case_bool_decide as Hl.
    + rewrite (bind_step _ _ w tt (with_nt w (with_tp (nt w) (expire_path node (tp (nt w))).2))) by done.
      destruct (sync_finish_ok "timed out" (with_nt w (with_tp (nt w) (expire_path node (tp (nt w))).2))) as (t & E & _ & Ht).
      rewrite E. eexists. split; [reflexivity|]. split; [done|exact Ht].
    + rewrite ret_bind. destruct (sync_finish_ok "timed out" w) as (t & E & _ & Ht). rewrite E. eexists. split; [reflexivity|]. split; [done|exact Ht].
  - split; [|lia]. intros a w'. case_bool_decide as Hl.
    { match goal with |- ?m w = _ → _ => assert (keeps sync_deadline m) as Hk end; [|apply Hk]. keeps_walk ltac:(done). all: apply finish_deadline. }
    destruct (requested (sync w) && _).
    { rewrite upd_sync_bind. rewrite <-Epn. intros H. apply start_sync_spec in H as [H _]. rewrite H; done. }
    rewrite (bool_decide_eq_false_2 (phase (sync w) = Idle)) by done. rewrite andb_false_r. by intros [= _ <-].
Qed.
(** A tick that starts one. *)
Lemma tick_starts up now w a w' : phase (sync w) = Idle → maybe_auto_sync rand hub_ok auto_ok pn up now w = Ok (a, w') →
  phase (sync w') ≠ Idle → is_Some pn ∧ sync_deadline (sync w') = now + SYNC_DEADLINE_SECS.
Proof.
  intros Hp H Hn. unfold maybe_auto_sync in H. rewrite get_sync_bind in H. destruct pn as [node|] eqn:Epn.
  2:{ rewrite <-(ret_bind tt (λ _, upd_sync (set_requested false))) in H. rewrite ret_bind in H. injection H as _ <-. by destruct Hn. }
  rewrite Hp in H. cbn [bool_decide] in H.
  assert (∀ (g : SyncState → SyncState) , (∀ s, phase (g s) = phase s) → (upd_sync g ;; start_sync rand hub_ok auto_ok (Some node) up now) w = Ok (a, w') →
    is_Some (Some node) ∧ sync_deadline (sync w') = now + SYNC_DEADLINE_SECS) as Hs.
  { intros g Hg Hr. rewrite upd_sync_bind in Hr. rewrite <-Epn in Hr. apply start_sync_spec in Hr as [_ Hr]. rewrite <-Epn. apply Hr; [|done]. cbn. by rewrite Hg. }
  assert (∀ k : M (), keeps phase k → k w = Ok (a, w') → is_Some (Some node) ∧ sync_deadline (sync w') = now + SYNC_DEADLINE_SECS) as Hk.
  { intros k Hk Hr. destruct Hn. rewrite (Hk _ _ _ Hr). done. }
  rewrite (bool_decide_eq_false_2 (Idle ≠ Idle)) in H by (intros []; done). rewrite (bool_decide_eq_false_2 (Idle = Linking)) in H by done. cbn [andb] in H.
  destruct (requested (sync w) && _); [eapply Hs; [|exact H]; done|].
  destruct (negb (auto_done (sync w)) && _); [|by eapply Hk; [apply keeps_ret|]].
  rewrite get_tp_bind in H. destruct (bool_decide _ && _); [eapply Hs; [|exact H]; done|].
  eapply Hk; [|exact H]. keeps_walk ltac:(done).
Qed.

(** ** Runs of an active synchronisation *)

(** What the other threads do: links come up, data arrives, the user asks again, the hub is lost,
    the node closes a link, the transport changes. *)
Inductive sync_step : World → World → Prop :=
  | step_link_up now lid target w w' : sync_on_link_up rand hub_ok auto_ok pn now lid target w = Ok (tt, w') → sync_step w w'
  | step_data now lid cx pt w w' : sync_on_outlink_data W rand hub_ok auto_ok now lid cx pt w = Ok (tt, w') → sync_step w w'
  | step_request w w' : request_sync w = Ok (tt, w') → sync_step w w'
  | step_lost w w' : connection_lost w = Ok (tt, w') → sync_step w w'
  | step_closed lid w w' : out_link_closed lid w = Ok (tt, w') → sync_step w w'
  | step_network w n : sync_step w (with_nt w n).
(** A run, with the times of its ticks, in which the client is never idle. *)
Inductive active_run : World → list Z → World → Prop :=
  | run_here w : phase (sync w) ≠ Idle → active_run w [] w
  | run_tick up now w w1 ticks w2 : phase (sync w) ≠ Idle → maybe_auto_sync rand hub_ok auto_ok pn up now w = Ok (tt, w1) →
      active_run w1 ticks w2 → active_run w (now :: ticks) w2
  | run_other w w1 ticks w2 : phase (sync w) ≠ Idle → sync_step w w1 → active_run w1 ticks w2 → active_run w ticks w2.

Lemma sync_step_deadline w w' : sync_step w w' → sync_deadline (sync w') = sync_deadline (sync w).
Proof.
  intros []; [by eapply link_up_deadline|by eapply data_deadline| |by eapply lost_deadline|by eapply closed_deadline|done].
  by injection H as <-.
Qed.
Lemma active_start w ticks w' : active_run w ticks w' → phase (sync w) ≠ Idle.
Proof. by intros []. Qed.
Lemma active_deadline node w ticks w' : pn = Some node → active_run w ticks w' →
  Forall (λ now, now ≤ sync_deadline (sync w)) ticks ∧ sync_deadline (sync w') = sync_deadline (sync w) ∧ phase (sync w') ≠ Idle.
Proof.
  intros Epn. induction 1 as [w Hp|up now w w1 ticks w2 Hp Ht Hr (IH1 & IH2 & IH3)|w w1 ticks w2 Hp Hs Hr (IH1 & IH2 & IH3)]; [done| |].
  - destruct (tick_active node up now w Epn Hp) as [Hk He]. rewrite (Hk _ _ Ht) in *. split_and!; [|done|done].
    constructor; [|done]. destruct (Z.le_gt_cases now (sync_deadline (sync w))) as [?|Hgt]; [done|].
    destruct He as (w3 & Ew & Hi & _); [lia|]. apply active_start in Hr. congruence.
  - apply sync_step_deadline in Hs. rewrite Hs in *. by split_and!.
Qed.
End ends.

(** ** Properties *)


(** C27: A synchronisation ends.  Once a tick at time [S] has started it, no tick later than [S + 120]
    leaves it running, whatever the node and the other threads do; the first such tick returns,
    and leaves the client idle with the link dropped. *)
Theorem sync_ends `{C : Crypto} `{I : HashIter} `{B : Bz2} (W : Z) (rand : nat → nat → bytes) (hub_ok auto_ok : nat → bool)
  (pn : option bytes) (up : bool) (S : Z) (w w1 w2 : World) (ticks : list Z)
  (Hidle : phase (sync w) = Idle) (Hstart : maybe_auto_sync rand hub_ok auto_ok pn up S w = Ok (tt, w1))
  (Hrun : active_run W rand hub_ok auto_ok pn w1 ticks w2) :
  Forall (λ now, now ≤ S + 120) ticks ∧
  ∀ up' now, S + 120 < now → ∃ w3, maybe_auto_sync rand hub_ok auto_ok pn up' now w2 = Ok (tt, w3) ∧ phase (sync w3) = Idle ∧
    ∀ lid, link (sync w2) = Some lid → tmap (out_links (tp (nt w3))) !! lid = None.
Proof.
  pose proof (active_start _ _ _ _ _ _ _ _ Hrun) as H1.
  destruct (tick_starts rand hub_ok auto_ok pn up S w tt w1 Hidle Hstart H1) as [[node Epn] Hd].
  destruct (active_deadline W rand hub_ok auto_ok pn node w1 ticks w2 Epn Hrun) as (Hf & Hd2 & Hp2). unfold SYNC_DEADLINE_SECS in Hd.
  rewrite Hd in *. split; [done|]. intros up' now Hlt.
  destruct (tick_active rand hub_ok auto_ok pn node up' now w2 Epn Hp2) as [_ He]. apply He. lia.
Qed.

(** ** Witnesses *)
Import ToyInstances.
#[local] Instance sync_iter : HashIter := λ V m, map_to_list m.
#[local] Instance sync_bz2 : Bz2 := λ _ _, None.

Definition ws_rand (_ k : nat) : bytes := replicate k 7.
Definition ws_up (_ : nat) : bool := true.
Definition ws_id : PrivateIdentity := from_bytes (replicate 32 3) (replicate 32 4).
Definition ws_node : PrivateIdentity := from_bytes (replicate 32 5) (replicate 32 6).
Definition ws_pn : bytes := replicate 16 0x21.
Definition ws_lid : bytes := replicate 16 0x31.
Definition ws_key : bytes := replicate 64 3.
(** Linked to the node; knowing it and a route to it. *)
Definition ws_tp : Transport :=
  insert_out_link ws_lid (mkOutLink ws_pn ws_key (replicate 32 4) (public ws_node) 100)
    (insert_path ws_pn (mkPath None 1 Hub) (insert_known ws_pn (mkKnown (public ws_node) [] None []) (transport_new ws_id))).
Definition ws_listing : World :=
  mkWorld (set_link (Some ws_lid) (set_phase ListRequested sync_new)) (mkNet ws_tp 0 [] (Some ws_lid)) [] [].
(** A blob encrypted to us, and one that does not open. *)
Definition ws_blob : bytes :=
  replicate 16 9 ++ match Identity.encrypt (public ws_id) (ascii "stored") (replicate 32 8) (replicate 16 2) None with Ok c => c | _ => [] end.


Definition ws_idle : World := mkWorld (set_requested true sync_new) (mkNet ws_tp 0 [] None) [] [].
Lemma sync_ends_witness : ∃ w1 w3, maybe_auto_sync ws_rand ws_up ws_up (Some ws_pn) true 200 ws_idle = Ok (tt, w1) ∧
  phase (sync w1) = ListRequested ∧ link (sync w1) = Some ws_lid ∧
  maybe_auto_sync ws_rand ws_up ws_up (Some ws_pn) true 321 w1 = Ok (tt, w3) ∧ phase (sync w3) = Idle ∧
  tmap (out_links (tp (nt w3))) !! ws_lid = None.
Proof.
  assert (∃ w1, maybe_auto_sync ws_rand ws_up ws_up (Some ws_pn) true 200 ws_idle = Ok (tt, w1) ∧ phase (sync w1) = ListRequested ∧ link (sync w1) = Some ws_lid)
    as (w1 & E1 & P1 & L1) by (eexists; split; [vm_compute; reflexivity|split; reflexivity]).
  destruct (sync_ends 32 ws_rand ws_up ws_up (Some ws_pn) true 200 ws_idle w1 w1 []) as [_ He].
  - reflexivity.
  - exact E1.
  - apply run_here. rewrite P1. discriminate.
  - destruct (He true 321) as (w3 & E3 & P3 & D3); [lia|]. exists w1, w3. split; [exact E1|]. split; [exact P1|]. split; [exact L1|].
    split; [exact E3|]. split; [exact P3|]. apply D3. exact L1.
Defined.
