(* ===== verification/Storage.v ===== *)
(** What the application keeps across restarts ([lxmfchat/src/lib.rs], from [parse_addr] to
    [load_contacts], and [extract_addresses] of [net.rs]): held messages, delivery marks,
    tickets, contacts, nodes, bookmarks and found addresses, each in a dictionary of the PDDB.

    A [String] is its UTF-8 bytes.  A dictionary of the PDDB is a map from keys to values whose
    operations do not fail; [iter] is the order [list_keys] gives.  [W] is the width of
    [usize]. *)
From S2P Require Import Prelude Constants Crypto Identity Msgpack Message Tables Transport Micron MicronPage.

(** ** Text *)

(** [is_char_boundary] and [&s[i..j]]. *)
Definition is_boundary (s : bytes) (i : nat) : bool :=
  match s !! i with Some b => negb (in_range 0x80 0xbf b) | None => (i =? length s)%nat end.
Definition slice_str (s : bytes) (i j : nat) : res bytes :=
  if is_boundary s i && is_boundary s j then slice s i j else Panic.

(** [str::trim], on the encodings of the white space characters. *)
Definition white : list bytes :=
  [[9]; [10]; [11]; [12]; [13]; [32]; [0xc2; 0x85]; [0xc2; 0xa0]; [0xe1; 0x9a; 0x80]] ++
  ((λ b, [0xe2; 0x80; b]) <$> [0x80; 0x81; 0x82; 0x83; 0x84; 0x85; 0x86; 0x87; 0x88; 0x89; 0x8a; 0xa8; 0xa9; 0xaf]) ++
  [[0xe2; 0x81; 0x9f]; [0xe3; 0x80; 0x80]].
Fixpoint strip_any (ws : list bytes) (s : bytes) : option bytes :=
  match ws with [] => None | w :: ws => match strip_prefix w s with Some s' => Some s' | None => strip_any ws s end end.
Fixpoint trim_front (ws : list bytes) (fuel : nat) (s : bytes) : bytes :=
  match fuel with O => s | S fuel => match strip_any ws s with Some s' => trim_front ws fuel s' | None => s end end.
Definition trim_str (s : bytes) : bytes :=
  let s := trim_front white (length s) s in
  rev (trim_front (@rev Z <$> white) (length s) (rev s)).

(** [n] bytes in hexadecimal, from the [i]th pair on: a pair that is not two digits ends it. *)
Fixpoint hex_pairs (n i : nat) (s : bytes) : res (option bytes) :=
  match n with
  | O => mret (Some [])
  | S n =>
      p ← slice_str s (i * 2) (i * 2 + 2);
      match u8_from_hex p with
      | None => mret None
      | Some b => r ← hex_pairs n (S i) s; mret (cons b <$> r)
      end
  end.
Definition parse_addr (s : bytes) : res (option bytes) :=
  let s := trim_str s in
  if decide (length s ≠ TRUNCATED_HASHLENGTH * 2)%nat then mret None else hex_pairs TRUNCATED_HASHLENGTH 0 s.
Definition unhex (s : bytes) : res (option bytes) :=
  if negb (length s mod 2 =? 0)%nat then mret None else hex_pairs (length s / 2) 0 s.

(** [extract_addresses]: the runs of hexadecimal digits, those of 32 parsed. *)
Fixpoint hex_run (s : bytes) : bytes * bytes :=
  match s with
  | c :: s' => if is_ascii_hexdigit c then let '(r, rest) := hex_run s' in (c :: r, rest) else ([], s)
  | [] => ([], [])
  end.
Fixpoint extract_from (fuel : nat) (s : bytes) : res (list bytes) :=
  match fuel, s with
  | O, _ | _, [] => mret []
  | S fuel, c :: s' =>
      if is_ascii_hexdigit c then
        let '(run, rest) := hex_run s in
        a ← (if (length run =? 2 * TRUNCATED_HASHLENGTH)%nat then parse_addr run else mret None);
        out ← extract_from fuel rest;
        mret (option_list a ++ out)
      else extract_from fuel s'
  end.
Definition extract_addresses (text : bytes) : res (list bytes) := extract_from (length text) text.

(** ** Record lists

    A value that is a list of records, read one at a time: [one i] is the record at [i] and the
    index after it, or [None] where the loop stops. *)
Fixpoint read_records {R} (one : Z → res (option (R * Z))) (fuel : nat) (i : Z) : res (list R) :=
  match fuel with
  | O => Err out_of_fuel
  | S fuel =>
      r ← one i;
      match r with
      | Some (r, i) => rs ← read_records one fuel i; mret (r :: rs)
      | None => mret []
      end
  end.
Definition slice_z (b : bytes) (i j : Z) : res bytes := slice b (Z.to_nat i) (Z.to_nat j).
(** A big-endian number of [n] bytes. *)
Definition be_at (b : bytes) (i : Z) (n : nat) : res Z := s ← slice_z b i (i + Z.of_nat n); mret (be_val s).
Definition be32_len (l : bytes) : bytes := be_bytes 4 (len_of l mod 2 ^ 32).

Section codecs.
Context (W : Z).

Abbreviation held := (bytes * Z * bytes)%type (only parsing).
Definition serialize_one (m : held) : bytes :=
  let '(author, ts, text) := m in be_bytes 8 ts ++ be32_len author ++ author ++ be32_len text ++ text.
Definition serialize_pending (msgs : list held) : bytes := flat_map serialize_one msgs.
Definition pending_at (buf : bytes) (i : Z) : res (option (held * Z)) :=
  if len_of buf <? usize_add W i 12 then mret None
  else
    ts ← be_at buf i 8;
    let i := i + 8 in
    alen ← be_at buf i 4;
    let i := i + 4 in
    if len_of buf <? usize_add W (usize_add W i alen) 4 then mret None
    else
      author ← slice_z buf i (usize_add W i alen);
      let i := usize_add W i alen in
      tlen ← be_at buf i 4;
      let i := i + 4 in
      if len_of buf <? usize_add W i tlen then mret None
      else
        text ← slice_z buf i (usize_add W i tlen);
        mret (Some ((from_utf8_lossy author, ts, from_utf8_lossy text), usize_add W i tlen)).
Definition deserialize_pending (buf : bytes) : res (list held) := read_records (pending_at buf) (S (length buf)) 0.

Abbreviation update := (Z * bytes * Z)%type (only parsing).
Definition update_record (u : update) : bytes := let '(ts, text, status) := u in be_bytes 8 ts ++ [status] ++ be32_len text ++ text.
Definition update_at (buf : bytes) (i : Z) : res (option (update * Z)) :=
  if len_of buf <? usize_add W i 13 then mret None
  else
    ts ← be_at buf i 8;
    let i := i + 8 in
    status ← index buf (Z.to_nat i);
    let i := i + 1 in
    tlen ← be_at buf i 4;
    let i := i + 4 in
    if len_of buf <? usize_add W i tlen then mret None
    else
      text ← slice_z buf i (usize_add W i tlen);
      mret (Some ((ts, from_utf8_lossy text, status), usize_add W i tlen)).
Definition read_updates (buf : bytes) : res (list update) := read_records (update_at buf) (S (length buf)) 0.

Abbreviation found := (bytes * bytes * Z)%type (only parsing).
Definition found_record (f : found) : bytes := let '(addr, from, ts) := f in addr ++ be_bytes 8 ts ++ be32_len from ++ from.
Definition found_at (buf : bytes) (i : Z) : res (option (found * Z)) :=
  if len_of buf <? usize_add W i (Z.of_nat TRUNCATED_HASHLENGTH + 12) then mret None
  else
    addr ← slice_z buf i (i + Z.of_nat TRUNCATED_HASHLENGTH);
    let i := i + Z.of_nat TRUNCATED_HASHLENGTH in
    ts ← be_at buf i 8;
    let i := i + 8 in
    flen ← be_at buf i 4;
    let i := i + 4 in
    if len_of buf <? usize_add W i flen then mret None
    else
      from ← slice_z buf i (usize_add W i flen);
      mret (Some ((addr, from_utf8_lossy from, ts), usize_add W i flen)).
Definition read_found (buf : bytes) : res (list found) := read_records (found_at buf) (S (length buf)) 0.
End codecs.

(** ** Values *)
Definition ticket_value (t : Z * bytes) : bytes := be_bytes 8 t.1 ++ t.2.
Definition read_ticket (buf : bytes) : res (option (Z * bytes)) :=
  if decide (length buf ≠ 8 + TRUNCATED_HASHLENGTH)%nat then mret None
  else e ← slice_to buf 8; t ← slice_from buf 8; mret (Some (be_val e, t)).

(** A contact: its name and, when known, its key and ratchet. *)
Abbreviation contact := (bytes * option (bytes * option bytes))%type (only parsing).
Definition contact_value (c : contact) : bytes :=
  c.1 ++ match c.2 with
         | Some (pk, r) => 0 :: hex pk ++ match r with Some r => 0 :: hex r | None => [] end
         | None => []
         end.
Definition unhex_part (p : option bytes) : res (option bytes) := match p with Some p => unhex p | None => mret None end.
(** [None]: the key is not one, and the contact is skipped. *)
Definition read_contact `{C : Crypto} (buf : bytes) : res (option contact) :=
  let parts := split 0 (from_utf8_lossy buf) in
  let name := default [] (parts !! 0%nat) in
  pk ← unhex_part (parts !! 1%nat);
  match pk with
  | Some pk =>
      if (length pk =? KEYSIZE)%nat then
        r ← unhex_part (parts !! 2%nat);
        let r := r ≫= λ r, if (length r =? RATCHET_SIZE)%nat then Some r else None in
        i ← res_ok (from_public_key pk);
        match i with Some _ => mret (Some (name, Some (pk, r))) | None => mret None end
      else mret (Some (name, None))
  | None => mret (Some (name, None))
  end.

Definition read_node (key buf : bytes) : bytes :=
  let name := trim_str (from_utf8_lossy buf) in if decide (name = []) then key else name.

(** Bookmarks: the address of a page and its variables. *)
Definition vars_string (vars : list (bytes * bytes)) : bytes := join 124 ((λ kv, kv.1 ++ 61 :: kv.2) <$> vars).
Definition parse_vars (s : bytes) : list (bytes * bytes) := omap (split_once 61) (split 124 s).
Definition PAGE_PATH_DEFAULT : bytes := ascii "/page/index.mu".
Abbreviation bookmark := (bytes * (bytes * bytes * list (bytes * bytes)))%type (only parsing).
Definition bookmark_value (b : bookmark) : bytes :=
  let '(label, (node, path, vars)) := b in label ++ 0 :: hex node ++ 0 :: path ++ 0 :: vars_string vars.
Definition read_bookmark (buf : bytes) : res (option bookmark) :=
  let parts := split 0 (from_utf8_lossy buf) in
  let label := default [] (parts !! 0%nat) in
  node ← match parts !! 1%nat with Some p => parse_addr p | None => mret None end;
  match node with
  | Some node => mret (Some (label, (node, default PAGE_PATH_DEFAULT (parts !! 2%nat), parse_vars (default [] (parts !! 3%nat)))))
  | None => mret None
  end.

(** ** Announced names and costs *)
Definition is_array_byte (b : Z) : bool := in_range 0x90 0x9f b || (b =? 0xdc).
Definition lxmf_display_name (W : Z) (app_data : bytes) : res (option bytes) :=
  match app_data with
  | [] => mret None
  | b0 :: _ =>
      raw ← (if is_array_byte b0 then
               v ← res_ok (decode W app_data);
               mret match v with Some (Array (Bin b :: _)) => Some (from_utf8_lossy b) | Some (Array (Str s :: _)) => Some s | _ => None end
             else mret (Some (from_utf8_lossy app_data)));
      match raw with
      | None => mret None
      | Some raw =>
          let trimmed := trim_str (filter (λ b, b ≠ 0) raw) in
          mret (if decide (trimmed = []) then None else Some trimmed)
      end
  end.
Definition lxmf_stamp_cost (W : Z) (app_data : bytes) : res (option Z) :=
  match app_data with
  | [] => mret None
  | b0 :: _ =>
      if negb (is_array_byte b0) then mret None
      else
        v ← res_ok (decode W app_data);
        mret match v with
             | Some (Array (_ :: Int c :: _)) => if 0 <? c then Some (c mod 2 ^ 32) else None
             | _ => None
             end
  end.

(** ** Dictionaries *)
Abbreviation Dict := (gmap bytes bytes) (only parsing).
(** Delete, then write. *)
Definition rewrite_key (key val : bytes) (d : Dict) : Dict := <[key := val]> (delete key d).
(** A list of records: an empty one deletes the key. *)
Definition persist_list {R} (ser : list R → bytes) (dh : bytes) (l : list R) (d : Dict) : Dict :=
  if decide (length l = 0)%nat then delete (hex dh) d else rewrite_key (hex dh) (ser l) d.

Section dicts.
Context `{C : Crypto} `{I : HashIter} (W : Z).

(** Keys that are not addresses, and values [de] rejects, are skipped. *)
Definition load_one {V} (de : bytes → bytes → res (option V)) (acc : res (gmap bytes V)) (kv : bytes * bytes) : res (gmap bytes V) :=
  m ← acc;
  a ← parse_addr kv.1;
  match a with
  | None => mret m
  | Some dh => v ← de kv.1 kv.2; mret (match v with Some v => <[dh := v]> m | None => m end)
  end.
Definition load_dict {V} (de : bytes → bytes → res (option V)) (d : Dict) : res (gmap bytes V) :=
  fold_left (load_one de) (iter d) (Ok ∅).

Definition persist_pending := persist_list serialize_pending.
Definition delete_pending (dh : bytes) (d : Dict) : Dict := delete (hex dh) d.
(** A list of records that is not empty. *)
Definition nonempty {R} (r : res (list R)) : res (option (list R)) :=
  l ← r; mret (if decide (length l = 0)%nat then None else Some l).
Definition load_held (d : Dict) : res (gmap bytes (list (bytes * Z * bytes))) :=
  load_dict (λ _ buf, nonempty (deserialize_pending W buf)) d.
(** The held messages, and the unread counts. *)
Definition load_pending (d : Dict) : res (gmap bytes (list (bytes * Z * bytes)) * gmap bytes Z) :=
  (λ m : gmap bytes (list (bytes * Z * bytes)), (m, (λ l : list (bytes * Z * bytes), len_of l mod 2 ^ 32) <$> m)) <$> load_held d.
Definition persist_delivery_updates := persist_list (flat_map update_record).
Definition delete_delivery_updates (dh : bytes) (d : Dict) : Dict := delete (hex dh) d.
Definition load_delivery_updates (d : Dict) : res (gmap bytes (list (Z * bytes * Z))) :=
  load_dict (λ _ buf, nonempty (read_updates W buf)) d.
Definition persist_ticket (dh : bytes) (expiry : Z) (ticket : bytes) : Dict → Dict := rewrite_key (hex dh) (ticket_value (expiry, ticket)).
(** An expired ticket is deleted from the dictionary. *)
Definition load_ticket (now : Z) (acc : res (gmap bytes (Z * bytes) * Dict)) (kv : bytes * bytes) : res (gmap bytes (Z * bytes) * Dict) :=
  '(m, d) ← acc;
  a ← parse_addr kv.1;
  match a with
  | None => mret (m, d)
  | Some dh =>
      t ← read_ticket kv.2;
      mret match t with
           | None => (m, d)
           | Some (e, t) => if e <=? now then (m, delete kv.1 d) else (<[dh := (e, t)]> m, d)
           end
  end.
Definition load_tickets (now : Z) (d : Dict) : res (gmap bytes (Z * bytes) * Dict) := fold_left (load_ticket now) (iter d) (Ok (∅, d)).
Definition persist_contact (dh name : bytes) (pk r : option bytes) : Dict → Dict :=
  rewrite_key (hex dh) (contact_value (name, (λ pk, (pk, r)) <$> pk)).
Definition persist_node (dh name : bytes) : Dict → Dict := rewrite_key (hex dh) name.
Definition load_nodes (d : Dict) : res (gmap bytes bytes) := load_dict (λ key buf, mret (Some (read_node key buf))) d.

(** The settings, the identity and the found addresses share a dictionary. *)
Definition KEY_IDENTITY : bytes := ascii "identity".
Definition KEY_FOUND_ADDRS : bytes := ascii "found_addrs".
Definition write_string (key value : bytes) : Dict → Dict := rewrite_key key value.
Definition read_string (key : bytes) (d : Dict) : option bytes :=
  match d !! key with Some buf => if negb (length buf =? 0)%nat && utf8_ok buf then Some buf else None | None => None end.
(** A read of [KEYSIZE] bytes, and a write over what the key holds; [id] is random. *)
Definition load_or_create_identity (id : bytes) (d : Dict) : bytes * Dict :=
  match d !! KEY_IDENTITY with
  | Some buf => if (KEYSIZE <=? length buf)%nat then (take KEYSIZE buf, d) else (id, <[KEY_IDENTITY := id ++ drop (length id) buf]> d)
  | None => (id, <[KEY_IDENTITY := id]> d)
  end.
Definition persist_found_addrs (l : list (bytes * bytes * Z)) (d : Dict) : Dict :=
  if decide (length l = 0)%nat then delete KEY_FOUND_ADDRS d else rewrite_key KEY_FOUND_ADDRS (flat_map found_record l) d.
Definition load_found_addrs (d : Dict) : res (list (bytes * bytes * Z)) :=
  match d !! KEY_FOUND_ADDRS with Some buf => read_found W buf | None => mret [] end.

(** Bookmarks, keyed by the hash of the page's address; [read_bookmarks] is [load_bookmarks]
    before it sorts them by label. *)
Definition persist_bookmark (label : bytes) (addr : bytes * bytes * list (bytes * bytes)) : Dict → Dict :=
  let '(node, path, vars) := addr in
  rewrite_key (hex (truncated_hash (node ++ path ++ vars_string vars))) (bookmark_value (label, addr)).
Definition read_bookmarks (d : Dict) : res (list (bytes * (bytes * (bytes * bytes * list (bytes * bytes))))) :=
  bs ← mapM (M := res) (λ kv : bytes * bytes, b ← read_bookmark kv.2; mret (pair kv.1 <$> option_list b)) (iter d);
  mret (concat bs).

(** [save_contact]: the contact, with the key material the transport knows. *)
Definition save_contact (t : Transport) (dh name : bytes) (contacts : gmap bytes bytes) (d : Dict) : gmap bytes bytes * Dict :=
  (<[dh := name]> contacts,
   match known t dh with
   | Some k => persist_contact dh name (Some (public_key (kd_identity k))) (kd_ratchet k) d
   | None => persist_contact dh name None None d
   end).
(** What [load_contacts] makes of a contact: its name is listed, its key remembered. *)
Definition load_contact (acc : res (Transport * gmap bytes bytes)) (dh : bytes) (c : bytes * option (bytes * option bytes)) : res (Transport * gmap bytes bytes) :=
  '(t, names) ← acc;
  match c.2 with
  | Some (pk, r) => i ← from_public_key pk; mret (remember dh (mkKnown i (replicate NAME_HASH_LENGTH 0) r c.1) t, <[dh := c.1]> names)
  | None => mret (t, <[dh := c.1]> names)
  end.
Definition load_contacts (d : Dict) (t : Transport) : res (Transport * gmap bytes bytes) :=
  fold_left (λ acc kv,
      a ← parse_addr kv.1;
      match a with
      | None => acc
      | Some dh => c ← read_contact kv.2; match c with Some c => load_contact acc dh c | None => acc end
      end) (iter d) (Ok (t, ∅)).
End dicts.
