(* ===== verification/StorageProps.v ===== *)
(** What is stored is read back: every dictionary, after any history of writes and deletions,
    loads to the map the application had; and the text functions it uses. *)
From S2P Require Import Prelude Constants Crypto Identity Msgpack Message Tables Transport Micron MicronPage Storage.

(** ** Hexadecimal keys *)
Definition address (a : bytes) : Prop := bytes_ok a ∧ length a = TRUNCATED_HASHLENGTH.
(** Between the digit zero and the letter f. *)
Definition hex_byte (c : Z) : Prop := 48 ≤ c ≤ 102.
Lemma hex_bytes h : bytes_ok h → Forall hex_byte (hex h).
Proof.
  induction 1 as [|b h Hb _ IH]; [constructor|]. change (hex (b :: h)) with (nibble (b / 16) :: nibble (b mod 16) :: hex h).
  assert (∀ n, 0 ≤ n < 16 → hex_byte (nibble n)) as Hn by (intros n Hn; unfold nibble, hex_byte; destruct (Z.ltb_spec n 10); lia).
  unfold is_byte in Hb. constructor; [|constructor; [|done]]; apply Hn.
  - split; [apply Z.div_pos; lia|apply Z.div_lt_upper_bound; lia].
  - apply Z.mod_pos_bound. lia.
Qed.

(** No white space starts, or ends, with such a byte. *)
Lemma strip_any_none ws c s : forallb (λ w, match w with x :: _ => (x <? 48) || (102 <? x) | [] => false end) ws = true → hex_byte c →
  strip_any ws (c :: s) = None.
Proof.
  intros Hw Hc. induction ws as [|w ws IH]; [done|]. cbn [forallb] in Hw. apply andb_true_iff in Hw as [Hw1 Hw2].
  cbn [strip_any]. destruct w as [|x w]; [done|]. cbn [strip_prefix].
  assert (x =? c = false) as ->; [|by apply IH]. apply Z.eqb_neq. unfold hex_byte in Hc. intros ->.
  apply orb_true_iff in Hw1 as [?%Z.ltb_lt|?%Z.ltb_lt]; lia.
Qed.
Lemma trim_front_id ws fuel s : forallb (λ w, match w with x :: _ => (x <? 48) || (102 <? x) | [] => false end) ws = true →
  Forall hex_byte s → trim_front ws fuel s = s.
Proof.
  intros Hw Hs. destruct fuel; [done|]. cbn [trim_front]. destruct Hs as [|c s Hc _].
  - assert (strip_any ws [] = None) as ->; [|done]. clear fuel. induction ws as [|w ws IH]; [done|]. cbn [forallb] in Hw.
    apply andb_true_iff in Hw as [Hw1 Hw2]. destruct w as [|x w]; [done|]. by apply IH.
  - by rewrite strip_any_none.
Qed.
Lemma trim_hex s : Forall hex_byte s → trim_str s = s.
Proof.
  intros Hs. unfold trim_str. rewrite (trim_front_id white) by done.
  rewrite (trim_front_id (@rev Z <$> white)) by (done || by apply Forall_rev). apply rev_involutive.
Qed.

Lemma boundary_hex s i : Forall hex_byte s → (i ≤ length s)%nat → is_boundary s i = true.
Proof.
  intros Hs Hi. unfold is_boundary. destruct (s !! i) as [b|] eqn:E.
  - pose proof (proj1 (Forall_lookup _ _) Hs i b E) as Hb. cbn beta in Hb. unfold hex_byte in Hb. unfold in_range.
    rewrite (proj2 (Z.leb_gt 0x80 b)) by lia. done.
  - apply lookup_ge_None in E. apply Nat.eqb_eq. lia.
Qed.
Lemma hex_pairs_hex h i a : bytes_ok h → Forall hex_byte a → length a = (i * 2)%nat → hex_pairs (length h) i (a ++ hex h) = Ok (Some h).
Proof.
  intros Hh. revert i a. induction Hh as [|b h Hb Hh IH]; intros i a Ha Hl; [done|].
  cbn [length hex_pairs]. change (hex (b :: h)) with ([nibble (b / 16); nibble (b mod 16)] ++ hex h).
  pose proof (hex_bytes [b] (Forall_cons_2 _ _ _ Hb (Forall_nil_2 _))) as Hb2. change (hex [b]) with [nibble (b / 16); nibble (b mod 16)] in Hb2.
  set (p := [nibble (b / 16); nibble (b mod 16)]) in *.
  assert (Forall hex_byte (a ++ p ++ hex h)) as Hs by (rewrite !Forall_app; split_and!; [done|done|by apply hex_bytes]).
  assert (length (a ++ p ++ hex h) = i * 2 + 2 + length (hex h))%nat as Hlen by (rewrite !length_app, Hl; cbn; lia).
  unfold slice_str. rewrite !boundary_hex by (done || lia). cbn [andb].
  rewrite (slice_at a p (hex h)) by (done || cbn; lia). rewrite bind_Ok. destruct (byte_hex b Hb) as (_ & _ & E). fold p in E. rewrite E.
  rewrite app_assoc, (IH (S i) (a ++ p)); [done| |rewrite length_app; cbn; lia]. by apply Forall_app.
Qed.
Lemma parse_addr_hex a : address a → parse_addr (hex a) = Ok (Some a).
Proof.
  intros [Ha Hl]. unfold parse_addr. rewrite trim_hex by (by apply hex_bytes). rewrite decide_False by (rewrite hex_length, Hl; auto).
  rewrite <-Hl. apply (hex_pairs_hex a 0 []); [done|constructor|done].
Qed.
Lemma unhex_hex a : bytes_ok a → unhex (hex a) = Ok (Some a).
Proof.
  intros Ha. unfold unhex. rewrite hex_length, (Nat.mul_comm 2), Nat.Div0.mod_mul. cbn [negb Nat.eqb].
  rewrite Nat.div_mul by lia. apply (hex_pairs_hex a 0 []); [done|constructor|done].
Qed.
Lemma hex_inj a b : address a → address b → hex a = hex b → a = b.
Proof. intros Ha Hb E. apply parse_addr_hex in Ha, Hb. rewrite E in Ha. congruence. Qed.

(** ** Lists of records *)
Section records.
Context (W : Z) {R : Type} (ser : R → bytes) (ok : R → Prop) (at_ : bytes → Z → res (option (R * Z))).
(** A record written is read back, and the reader stops at the end. *)
Context (Hat : ∀ buf pre r post, ok r → len_of buf + 32 < 2 ^ W → buf = pre ++ ser r ++ post →
  at_ buf (len_of pre) = Ok (Some (r, len_of pre + len_of (ser r)))).
Context (Hend : ∀ buf, len_of buf + 32 < 2 ^ W → at_ buf (len_of buf) = Ok None).
Context (Hpos : ∀ r, (0 < length (ser r))%nat).
Lemma read_records_at rs fuel buf pre : Forall ok rs → len_of buf + 32 < 2 ^ W → buf = pre ++ flat_map ser rs →
  (length (flat_map ser rs) < fuel)%nat → read_records (at_ buf) fuel (len_of pre) = Ok rs.
Proof.
  intros Hok Hl. revert fuel pre. induction Hok as [|r rs Hr _ IH]; intros fuel pre E Hf; (destruct fuel as [|fuel]; [lia|]); cbn [flat_map] in *.
  - cbn [read_records]. rewrite app_nil_r in E. subst pre. by rewrite Hend.
  - cbn [read_records]. rewrite (Hat buf pre r (flat_map ser rs)) by done. rewrite bind_Ok.
    replace (len_of pre + len_of (ser r)) with (len_of (pre ++ ser r)) by (unfold len_of; rewrite length_app; lia).
    rewrite IH; [done|by rewrite <-app_assoc|]. rewrite length_app in Hf. pose proof (Hpos r). lia.
Qed.
Lemma read_records_all rs : Forall ok rs → len_of (flat_map ser rs) + 32 < 2 ^ W →
  read_records (at_ (flat_map ser rs)) (S (length (flat_map ser rs))) 0 = Ok rs.
Proof. intros Hok Hl. apply (read_records_at rs _ _ []); [done|done|done|lia]. Qed.
End records.

Lemma usize_add_small W a b : 0 ≤ a → 0 ≤ b → a + b < 2 ^ W → usize_add W a b = a + b.
Proof. intros. unfold usize_add. apply Z.mod_small. lia. Qed.
Lemma slice_z_at buf a b c i j : buf = a ++ b ++ c → i = len_of a → j = len_of a + len_of b → slice_z buf i j = Ok b.
Proof. intros -> -> ->. unfold slice_z, len_of. rewrite Nat2Z.id. apply (slice_at a b c); [done|done|]. lia. Qed.
Lemma be_at_at buf a n v c i : buf = a ++ be_bytes n v ++ c → i = len_of a → 0 ≤ v < 256 ^ Z.of_nat n → be_at buf i n = Ok v.
Proof.
  intros E Hi Hv. unfold be_at. rewrite (slice_z_at buf a (be_bytes n v) c) by (done || unfold len_of in *; rewrite ?be_bytes_length; lia).
  rewrite bind_Ok. by rewrite be_val_be_bytes_small.
Qed.

Definition text_ok (s : bytes) : Prop := utf8_ok s = true ∧ len_of s < 2 ^ 32.
Definition held_ok (m : bytes * Z * bytes) : Prop := text_ok m.1.1 ∧ text_ok m.2 ∧ 0 ≤ m.1.2 < 2 ^ 64.
Definition update_ok (u : Z * bytes * Z) : Prop := 0 ≤ u.1.1 < 2 ^ 64 ∧ text_ok u.1.2.
Definition found_ok (f : bytes * bytes * Z) : Prop := length f.1.1 = TRUNCATED_HASHLENGTH ∧ text_ok f.1.2 ∧ 0 ≤ f.2 < 2 ^ 64.

Lemma be32_text s : text_ok s → be32_len s = be_bytes 4 (len_of s) ∧ 0 ≤ len_of s < 256 ^ Z.of_nat 4.
Proof. intros [_ H]. unfold be32_len. assert (0 ≤ len_of s) by (unfold len_of; lia). rewrite Z.mod_small by lia. split; [done|]. change (256 ^ Z.of_nat 4) with (2 ^ 32). lia. Qed.
Lemma len_of_app (a b : bytes) : len_of (a ++ b) = len_of a + len_of b.
Proof. unfold len_of. rewrite length_app. lia. Qed.
Lemma len_of_be n v : len_of (be_bytes n v) = Z.of_nat n.
Proof. unfold len_of. by rewrite be_bytes_length. Qed.
Lemma len_of_nonneg (a : bytes) : 0 ≤ len_of a.
Proof. unfold len_of. lia. Qed.

(** Splits the buffer's length, and closes the arithmetic of the readers. *)
Ltac buf_len := rewrite ?len_of_app, ?len_of_be in *; repeat match goal with |- context [len_of ?a] => lazymatch goal with H : 0 ≤ len_of a |- _ => fail | _ => pose proof (len_of_nonneg a) end end; lia.

Lemma pending_at_ok W buf pre m post : held_ok m → len_of buf + 32 < 2 ^ W → buf = pre ++ serialize_one m ++ post →
  pending_at W buf (len_of pre) = Ok (Some (m, len_of pre + len_of (serialize_one m))).
Proof.
  destruct m as [[author ts] text]. intros (Ha & Ht & Hts) Hl E. cbn [fst snd] in *.
  destruct (be32_text _ Ha) as [Ea Ba], (be32_text _ Ht) as [Et Bt]. unfold serialize_one in E |- *. rewrite Ea, Et in *.
  assert (len_of buf = len_of pre + 16 + len_of author + len_of text + len_of post) as HL by (rewrite E; buf_len).
  pose proof (len_of_nonneg pre). pose proof (len_of_nonneg post).
  unfold pending_at. rewrite usize_add_small by lia. rewrite (proj2 (Z.ltb_ge _ _)) by lia.
  rewrite (be_at_at buf pre 8 ts (be_bytes 4 (len_of author) ++ author ++ be_bytes 4 (len_of text) ++ text ++ post))
    by (done || (rewrite E, <-!app_assoc; done)). rewrite bind_Ok. cbv zeta.
  rewrite (be_at_at buf (pre ++ be_bytes 8 ts) 4 (len_of author) (author ++ be_bytes 4 (len_of text) ++ text ++ post))
    by (first [done | rewrite E, <-!app_assoc; done | buf_len]). rewrite bind_Ok.
  rewrite !(usize_add_small W (len_of pre + 8 + 4) (len_of author)) by lia. rewrite usize_add_small by lia. rewrite (proj2 (Z.ltb_ge _ _)) by lia.
  rewrite (slice_z_at buf (pre ++ be_bytes 8 ts ++ be_bytes 4 (len_of author)) author (be_bytes 4 (len_of text) ++ text ++ post))
    by (first [rewrite E, <-!app_assoc; done | buf_len]). rewrite bind_Ok.
  rewrite (be_at_at buf (pre ++ be_bytes 8 ts ++ be_bytes 4 (len_of author) ++ author) 4 (len_of text) (text ++ post))
    by (first [done | rewrite E, <-!app_assoc; done | buf_len]). rewrite bind_Ok.
  rewrite usize_add_small by lia. rewrite (proj2 (Z.ltb_ge _ _)) by lia.
  rewrite (slice_z_at buf (pre ++ be_bytes 8 ts ++ be_bytes 4 (len_of author) ++ author ++ be_bytes 4 (len_of text)) text post)
    by (first [rewrite E, <-!app_assoc; done | buf_len]). rewrite bind_Ok.
  rewrite !from_utf8_lossy_valid by (apply Ha || apply Ht). do 3 f_equal. buf_len.
Qed.
Lemma pending_roundtrip W msgs : Forall held_ok msgs → len_of (serialize_pending msgs) + 32 < 2 ^ W →
  deserialize_pending W (serialize_pending msgs) = Ok msgs.
Proof.
  apply (read_records_all W serialize_one held_ok (pending_at W)); [intros; by apply (pending_at_ok W buf pre r post)| |].
  - intros buf Hl. unfold pending_at. rewrite usize_add_small by (pose proof (len_of_nonneg buf); lia). by rewrite (proj2 (Z.ltb_lt _ _)) by lia.
  - intros [[a t] x]. unfold serialize_one. rewrite length_app, be_bytes_length. lia.
Qed.

Lemma update_at_ok W buf pre u post : update_ok u → len_of buf + 32 < 2 ^ W → buf = pre ++ update_record u ++ post →
  update_at W buf (len_of pre) = Ok (Some (u, len_of pre + len_of (update_record u))).
Proof.
  destruct u as [[ts text] status]. intros (Hts & Ht) Hl E. cbn [fst snd] in *. destruct (be32_text _ Ht) as [Et Bt].
  unfold update_record in E |- *. rewrite Et in *.
  assert (len_of [status] = 1) as H1 by done.
  assert (len_of buf = len_of pre + 13 + len_of text + len_of post) as HL by (rewrite E; buf_len).
  pose proof (len_of_nonneg pre). pose proof (len_of_nonneg post).
  unfold update_at. rewrite usize_add_small by lia. rewrite (proj2 (Z.ltb_ge _ _)) by lia.
  rewrite (be_at_at buf pre 8 ts ([status] ++ be_bytes 4 (len_of text) ++ text ++ post))
    by (done || (rewrite E, <-!app_assoc; done)). rewrite bind_Ok. cbv zeta.
  rewrite (index_at (pre ++ be_bytes 8 ts) (be_bytes 4 (len_of text) ++ text ++ post) buf status);
    [|rewrite E, <-!app_assoc; done|rewrite length_app, be_bytes_length; unfold len_of; lia]. rewrite bind_Ok.
  rewrite (be_at_at buf (pre ++ be_bytes 8 ts ++ [status]) 4 (len_of text) (text ++ post))
    by (first [done | rewrite E, <-!app_assoc; done | buf_len]). rewrite bind_Ok.
  rewrite usize_add_small by lia. rewrite (proj2 (Z.ltb_ge _ _)) by lia.
  rewrite (slice_z_at buf (pre ++ be_bytes 8 ts ++ [status] ++ be_bytes 4 (len_of text)) text post)
    by (first [rewrite E, <-!app_assoc; done | buf_len]). rewrite bind_Ok.
  rewrite from_utf8_lossy_valid by apply Ht. do 3 f_equal. buf_len.
Qed.
Lemma updates_roundtrip W us : Forall update_ok us → len_of (flat_map update_record us) + 32 < 2 ^ W →
  read_updates W (flat_map update_record us) = Ok us.
Proof.
  apply (read_records_all W update_record update_ok (update_at W)); [intros; by apply (update_at_ok W buf pre r post)| |].
  - intros buf Hl. unfold update_at. rewrite usize_add_small by (pose proof (len_of_nonneg buf); lia). by rewrite (proj2 (Z.ltb_lt _ _)) by lia.
  - intros [[a t] x]. unfold update_record. rewrite length_app, be_bytes_length. lia.
Qed.

Lemma found_at_ok W buf pre f post : found_ok f → len_of buf + 32 < 2 ^ W → buf = pre ++ found_record f ++ post →
  found_at W buf (len_of pre) = Ok (Some (f, len_of pre + len_of (found_record f))).
Proof.
  destruct f as [[addr from] ts]. intros (Hal & Hf & Hts) Hl E. cbn [fst snd] in *. destruct (be32_text _ Hf) as [Ef Bf].
  unfold found_record in E |- *. rewrite Ef in *.
  assert (len_of addr = Z.of_nat TRUNCATED_HASHLENGTH) as H1 by (unfold len_of; by rewrite Hal). set (k := Z.of_nat TRUNCATED_HASHLENGTH) in *.
  assert (k = 16) as Hk by done.
  assert (len_of buf = len_of pre + k + 12 + len_of from + len_of post) as HL by (rewrite E; buf_len).
  pose proof (len_of_nonneg pre). pose proof (len_of_nonneg post).
  unfold found_at. fold k. rewrite usize_add_small by lia. rewrite (proj2 (Z.ltb_ge _ _)) by lia.
  rewrite (slice_z_at buf pre addr (be_bytes 8 ts ++ be_bytes 4 (len_of from) ++ from ++ post)) by (first [rewrite E, <-!app_assoc; done | buf_len]).
  rewrite bind_Ok. cbv zeta.
  rewrite (be_at_at buf (pre ++ addr) 8 ts (be_bytes 4 (len_of from) ++ from ++ post))
    by (first [done | rewrite E, <-!app_assoc; done | buf_len]). rewrite bind_Ok.
  rewrite (be_at_at buf (pre ++ addr ++ be_bytes 8 ts) 4 (len_of from) (from ++ post))
    by (first [done | rewrite E, <-!app_assoc; done | buf_len]). rewrite bind_Ok.
  rewrite usize_add_small by lia. rewrite (proj2 (Z.ltb_ge _ _)) by lia.
  rewrite (slice_z_at buf (pre ++ addr ++ be_bytes 8 ts ++ be_bytes 4 (len_of from)) from post)
    by (first [rewrite E, <-!app_assoc; done | buf_len]). rewrite bind_Ok.
  rewrite from_utf8_lossy_valid by apply Hf. do 3 f_equal. buf_len.
Qed.
Lemma found_roundtrip W fs : Forall found_ok fs → len_of (flat_map found_record fs) + 32 < 2 ^ W →
  read_found W (flat_map found_record fs) = Ok fs.
Proof.
  apply (read_records_all W found_record found_ok (found_at W)); [intros; by apply (found_at_ok W buf pre r post)| |].
  - intros buf Hl. unfold found_at. change (Z.of_nat TRUNCATED_HASHLENGTH + 12) with 28.
    rewrite usize_add_small by (pose proof (len_of_nonneg buf); lia). by rewrite (proj2 (Z.ltb_lt _ _)) by lia.
  - intros [[a t] x]. unfold found_record. rewrite !length_app, be_bytes_length. lia.
Qed.

(** ** UTF-8 of concatenations *)
Lemma utf8_seq_app c l b k : utf8_seq c l = (true, k) → utf8_seq c (l ++ b) = (true, k) ∧ (k ≤ S (length l))%nat.
Proof.
  unfold utf8_seq. destruct l as [|x [|y [|z l]]]; cbn [lookup list_lookup app length cont];
    repeat match goal with |- context [if ?e then _ else _] => destruct e end; intros [=]; subst; split; first [done | lia].
Qed.
Lemma utf8_chunks_app fuel a b : (length a ≤ fuel)%nat → forallb fst (utf8_chunks fuel a) = true →
  ∀ fuel', (length (a ++ b) ≤ fuel')%nat → forallb fst (utf8_chunks fuel' (a ++ b)) = forallb fst (utf8_chunks (fuel' - length (utf8_chunks fuel a)) b).
Proof.
  revert a. induction fuel as [|fuel IH]; intros a Hl Ha fuel' Hf.
  { destruct a; [|cbn in Hl; lia]. cbn. by rewrite Nat.sub_0_r. }
  destruct a as [|c a]; [cbn; by rewrite Nat.sub_0_r|]. cbn [utf8_chunks] in Ha |- *.
  destruct (utf8_seq c a) as [ok k] eqn:E. cbn [forallb fst] in Ha. apply andb_true_iff in Ha as [-> Ha].
  destruct (utf8_seq_app c a b k E) as [E2 Hk]. pose proof (utf8_seq_pos c a) as Hpos. rewrite E in Hpos. cbn [snd] in Hpos.
  destruct fuel' as [|fuel']; [cbn in Hf; lia|]. cbn [app utf8_chunks length]. rewrite E2. cbn [forallb fst andb].
  change (c :: a ++ b) with ((c :: a) ++ b). rewrite drop_app_le by (cbn [length]; lia).
  rewrite (IH (drop k (c :: a))); [|rewrite length_drop; cbn [length] in *; lia|done|].
  - done.
  - rewrite length_app, length_drop in *. cbn [length app] in *. lia.
Qed.
Lemma utf8_fuel f l : (length l ≤ f)%nat → utf8_chunks f l = utf8_chunks (length l) l.
Proof.
  assert (∀ n f1 f2 l, (length l ≤ n)%nat → (length l ≤ f1)%nat → (length l ≤ f2)%nat → utf8_chunks f1 l = utf8_chunks f2 l) as H.
  { clear. induction n as [|n IH]; intros f1 f2 l Hn H1 H2; (destruct l as [|c l]; [by destruct f1, f2|]); cbn [length] in *; [lia|].
    destruct f1 as [|f1]; [lia|]. destruct f2 as [|f2]; [lia|]. cbn [utf8_chunks]. pose proof (utf8_seq_pos c l) as Hp.
    destruct (utf8_seq c l) as [ok k]. cbn [snd] in Hp. f_equal. apply IH; rewrite length_drop; cbn [length]; lia. }
  intros Hf. apply (H (length l)); lia.
Qed.
Lemma utf8_chunks_length f l : (length (utf8_chunks f l) ≤ length l)%nat.
Proof.
  revert l. induction f as [|f IH]; intros [|c l]; cbn [utf8_chunks]; [cbn; lia..|]. pose proof (utf8_seq_pos c l) as Hp.
  destruct (utf8_seq c l) as [ok k]. cbn [snd length] in *. specialize (IH (drop k (c :: l))). rewrite length_drop in IH. cbn [length] in IH. lia.
Qed.
Lemma utf8_ok_app a b : utf8_ok a = true → utf8_ok (a ++ b) = utf8_ok b.
Proof.
  intros Ha. unfold utf8_ok in *. rewrite (utf8_chunks_app (length a) a b) by (done || lia). f_equal. apply utf8_fuel.
  pose proof (utf8_chunks_length (length a) a). rewrite length_app. lia.
Qed.
Lemma utf8_ascii s : Forall (λ c, 0 ≤ c < 0x80) s → utf8_ok s = true.
Proof.
  induction 1 as [|c s Hc _ IH]; [done|]. change (c :: s) with ([c] ++ s). rewrite utf8_ok_app; [done|].
  unfold utf8_ok. cbn [length utf8_chunks]. unfold utf8_seq. rewrite (proj2 (Z.ltb_lt c 0x80)) by lia. done.
Qed.
Lemma utf8_hex h : bytes_ok h → utf8_ok (hex h) = true.
Proof. intros Hh. apply utf8_ascii. eapply Forall_impl; [by apply hex_bytes|]. unfold hex_byte. intros c Hc. cbn. lia. Qed.
Lemma zero_not_hex h : bytes_ok h → 0 ∉ hex h.
Proof. intros Hh Hin. pose proof (proj1 (Forall_forall _ _) (hex_bytes h Hh) 0 Hin) as H. unfold hex_byte in H. cbn beta in H. lia. Qed.
Lemma utf8_sep a s : utf8_ok a = true → utf8_ok (a ++ 0 :: s) = utf8_ok s.
Proof. intros Ha. rewrite utf8_ok_app by done. change (0 :: s) with ([0] ++ s). by rewrite utf8_ok_app. Qed.

(** ** Single values *)
Definition ticket_ok (t : Z * bytes) : Prop := 0 ≤ t.1 < 2 ^ 64 ∧ length t.2 = TRUNCATED_HASHLENGTH.
Lemma ticket_roundtrip t : ticket_ok t → read_ticket (ticket_value t) = Ok (Some t).
Proof.
  destruct t as [e tk]. intros [He Hl]. cbn [fst snd] in *. unfold read_ticket, ticket_value. cbn [fst snd].
  rewrite decide_False by (rewrite length_app, be_bytes_length, Hl; auto). rewrite slice_to_app by apply be_bytes_length. rewrite bind_Ok.
  rewrite slice_from_app by apply be_bytes_length. rewrite bind_Ok.
  by rewrite be_val_be_bytes_small by (change (256 ^ Z.of_nat 8) with (2 ^ 64); lia).
Qed.

Definition name_ok (s : bytes) : Prop := utf8_ok s = true ∧ 0 ∉ s.
Definition contact_ok (c : bytes * option (bytes * option bytes)) : Prop :=
  name_ok c.1 ∧ match c.2 with
                | Some (pk, r) => bytes_ok pk ∧ length pk = KEYSIZE ∧ match r with Some r => bytes_ok r ∧ length r = RATCHET_SIZE | None => True end
                | None => True
                end.
Lemma contact_roundtrip `{C : Crypto} c : contact_ok c → read_contact (contact_value c) = Ok (Some c).
Proof.
  destruct c as [name [[pk [r|]]|]]; unfold contact_ok, contact_value; cbn [fst snd]; intros [[Hu H0] Hc]; unfold read_contact.
  - destruct Hc as (Hp & Hpl & Hr & Hrl).
    rewrite from_utf8_lossy_valid by (rewrite utf8_sep, utf8_sep by (done || by apply utf8_hex); by apply utf8_hex).
    rewrite split_app by done. rewrite split_app by (by apply zero_not_hex). rewrite split_none by (by apply zero_not_hex).
    cbn [lookup list_lookup default unhex_part]. rewrite !unhex_hex by done. rewrite bind_Ok, Hpl. cbn [Nat.eqb]. rewrite Nat.eqb_refl, bind_Ok.
    rewrite from_public_key_ok by done. cbn [res_ok]. rewrite bind_Ok. cbn. by rewrite Hrl, Nat.eqb_refl.
  - destruct Hc as (Hp & Hpl & _). rewrite app_nil_r.
    rewrite from_utf8_lossy_valid by (rewrite utf8_sep by done; by apply utf8_hex).
    rewrite split_app by done. rewrite split_none by (by apply zero_not_hex).
    cbn [lookup list_lookup default unhex_part]. rewrite unhex_hex by done. rewrite bind_Ok, Hpl, Nat.eqb_refl. cbn.
    by rewrite from_public_key_ok by done.
  - rewrite app_nil_r, from_utf8_lossy_valid, split_none by done. done.
Qed.

Definition node_ok (name : bytes) : Prop := utf8_ok name = true ∧ trim_str name = name ∧ name ≠ [].
Lemma node_roundtrip key name : node_ok name → read_node key name = name.
Proof. intros (Hu & Ht & Hn). unfold read_node. rewrite from_utf8_lossy_valid by done. rewrite Ht. by rewrite decide_False. Qed.

Definition bookmark_ok (b : bytes * (bytes * bytes * list (bytes * bytes))) : Prop :=
  let '(label, (node, path, vars)) := b in
  name_ok label ∧ address node ∧ name_ok path ∧ utf8_ok (vars_string vars) = true ∧ 0 ∉ vars_string vars ∧
  Forall (λ kv : bytes * bytes, 61 ∉ kv.1 ∧ 124 ∉ kv.1 ∧ 124 ∉ kv.2) vars.
Lemma vars_roundtrip vars : Forall (λ kv : bytes * bytes, 61 ∉ kv.1 ∧ 124 ∉ kv.1 ∧ 124 ∉ kv.2) vars → parse_vars (vars_string vars) = vars.
Proof.
  intros Hv. unfold parse_vars, vars_string. destruct vars as [|kv vars]; [done|].
  rewrite split_join; [|done|].
  - induction Hv as [|[k v] l (H1 & _ & _) _ IH]; [done|]. cbn [fmap list_fmap omap list_omap fst snd]. rewrite split_once_app by done. f_equal. exact IH.
  - apply Forall_fmap. eapply Forall_impl; [exact Hv|]. intros [k v] (H1 & H2 & H3). cbn in *. rewrite not_elem_of_app, not_elem_of_cons. by split_and!.
Qed.
Lemma bookmark_roundtrip b : bookmark_ok b → read_bookmark (bookmark_value b) = Ok (Some b).
Proof.
  destruct b as [label [[node path] vars]]. intros ([Hl Hl0] & [Hn Hnl] & [Hp Hp0] & Hv & Hv0 & Hvars). unfold read_bookmark, bookmark_value.
  rewrite from_utf8_lossy_valid by (rewrite !utf8_sep by (done || by apply utf8_hex); done).
  rewrite split_app by done. rewrite split_app by (by apply zero_not_hex). rewrite split_app by done. rewrite split_none by done.
  cbn [lookup list_lookup default]. rewrite parse_addr_hex by done. rewrite bind_Ok. unfold from_option, id. by rewrite vars_roundtrip.
Qed.

(** ** Dictionaries *)

(** The dictionary holds exactly the entries of the map, under the addresses in hexadecimal. *)
Definition represents {V} (ser : V → bytes) (d : gmap bytes bytes) (m : gmap bytes V) : Prop :=
  (∀ dh v, m !! dh = Some v → address dh ∧ d !! hex dh = Some (ser v)) ∧
  (∀ key buf, d !! key = Some buf → ∃ dh v, key = hex dh ∧ m !! dh = Some v).
Section reps.
Context {V : Type} (ser : V → bytes).
Lemma represents_empty : represents ser ∅ ∅.
Proof. split; intros ? ? H; by rewrite lookup_empty in H. Qed.
Lemma represents_delete d m dh : represents ser d m → address dh → represents ser (delete (hex dh) d) (delete dh m).
Proof.
  intros [H1 H2] Hd. split.
  - intros a v [Hne Ha]%lookup_delete_Some. destruct (H1 a v Ha) as [Hadr E]. split; [done|].
    rewrite lookup_delete_ne; [done|]. intros Eh. apply Hne. by apply hex_inj.
  - intros key buf [Hne Hk]%lookup_delete_Some. destruct (H2 key buf Hk) as (a & v & -> & Ha). exists a, v. split; [done|].
    rewrite lookup_delete_ne by congruence. done.
Qed.
Lemma represents_write d m dh v : represents ser d m → address dh → represents ser (rewrite_key (hex dh) (ser v) d) (<[dh := v]> m).
Proof.
  intros [H1 H2] Hd. unfold rewrite_key. rewrite insert_delete_eq. split.
  - intros a w Ha. destruct (decide (a = dh)) as [->|Hne].
    + rewrite lookup_insert_eq in Ha. injection Ha as <-. split; [done|apply lookup_insert_eq].
    + rewrite lookup_insert_ne in Ha by done. destruct (H1 a w Ha) as [Hadr E]. split; [done|].
      rewrite lookup_insert_ne; [done|]. intros Eh. apply Hne. symmetry. by apply hex_inj.
  - intros key buf Hk. destruct (decide (key = hex dh)) as [->|Hne].
    + exists dh, v. split; [done|]. apply lookup_insert_eq.
    + rewrite lookup_insert_ne in Hk by done. destruct (H2 key buf Hk) as (a & w & -> & Ha). exists a, w. split; [done|].
      rewrite lookup_insert_ne by congruence. done.
Qed.
End reps.
Lemma represents_persist {R} (ser : list R → bytes) d m dh l : represents ser d m → address dh →
  represents ser (persist_list ser dh l d) (if decide (length l = 0)%nat then delete dh m else <[dh := l]> m).
Proof. intros. unfold persist_list. case_decide; [by apply represents_delete|by apply represents_write]. Qed.

Section loads.
Context `{I : HashIter} `{!HashIterOK}.
Lemma iter_keys {V} (m : gmap bytes V) : NoDup (iter m).*1.
Proof. rewrite (fmap_Permutation fst _ _ (iter_perm V m)). apply NoDup_fst_map_to_list. Qed.
Lemma elem_of_iter {V} (m : gmap bytes V) k v : (k, v) ∈ iter m ↔ m !! k = Some v.
Proof. rewrite (iter_perm V m). apply elem_of_map_to_list. Qed.

(** Loading goes through the entries one by one. *)
Lemma load_entries {V V'} (ser : V → bytes) (de : bytes → bytes → res (option V')) (f : V → option V') (m : gmap bytes V) l acc :
  (∀ dh v, m !! dh = Some v → address dh ∧ de (hex dh) (ser v) = Ok (f v)) →
  (∀ key buf, (key, buf) ∈ l → ∃ dh v, key = hex dh ∧ m !! dh = Some v ∧ buf = ser v) → NoDup l.*1 →
  ∃ acc', fold_left (load_one de) l (Ok acc) = Ok acc' ∧
    ∀ dh, acc' !! dh = match m !! dh with
                       | Some v => if decide (hex dh ∈ l.*1) then match f v with Some x => Some x | None => acc !! dh end else acc !! dh
                       | None => acc !! dh
                       end.
Proof.
  intros Hm. revert acc. induction l as [|[key buf] l IH]; intros acc Hl Hnd; cbn [fold_left fmap list_fmap fst].
  - exists acc. split; [done|]. intros dh. destruct (m !! dh); [|done]. by rewrite decide_False by apply not_elem_of_nil.
  - cbn in Hnd. apply NoDup_cons in Hnd as [Hni Hnd]. destruct (Hl key buf) as (dh & v & -> & Hv & ->); [left|].
    destruct (Hm dh v Hv) as [Ha Hde]. unfold load_one at 2. rewrite bind_Ok. cbn [fst snd]. rewrite parse_addr_hex by done. rewrite bind_Ok, Hde, bind_Ok.
    destruct (IH (match f v with Some x => <[dh := x]> acc | None => acc end)) as (acc' & E & Hacc);
      [intros key buf Hin; apply Hl; by right|done|].
    exists acc'. split; [exact E|]. intros a. rewrite Hacc. clear E Hacc IH. destruct (m !! a) as [w|] eqn:Ew.
    + destruct (Hm a w Ew) as [Haa _]. destruct (decide (a = dh)) as [->|Hne].
      * rewrite Hv in Ew. injection Ew as <-. rewrite (decide_False (P := hex dh ∈ l.*1)) by done.
        rewrite (decide_True (P := hex dh ∈ hex dh :: l.*1)) by left. destruct (f v); [apply lookup_insert_eq|done].
      * assert (hex a ≠ hex dh) as Hne2 by (intros Eh; apply Hne; by apply hex_inj).
        assert (match f v with Some x => <[dh := x]> acc | None => acc end !! a = acc !! a) as ->
          by (destruct (f v); [by rewrite lookup_insert_ne|done]).
        destruct (decide (hex a ∈ l.*1)) as [Hin|Hin]; [by rewrite decide_True by (by right)|].
        rewrite decide_False; [done|]. by intros [?|?]%elem_of_cons.
    + assert (a ≠ dh) by congruence. destruct (f v); [by rewrite lookup_insert_ne|done].
Qed.
Lemma load_dict_represents {V V'} (ser : V → bytes) (de : bytes → bytes → res (option V')) (f : V → option V') (d : gmap bytes bytes) (m : gmap bytes V) :
  represents ser d m → (∀ dh v, m !! dh = Some v → de (hex dh) (ser v) = Ok (f v)) → load_dict de d = Ok (omap f m).
Proof.
  intros [H1 H2] Hde. unfold load_dict. destruct (load_entries ser de f m (iter d) ∅) as (acc & -> & Hacc).
  - intros dh v Hv. split; [by apply (H1 dh v)|by apply Hde].
  - intros key buf Hin. apply elem_of_iter in Hin. destruct (H2 key buf Hin) as (dh & v & -> & Hv). exists dh, v. split_and!; [done|done|].
    destruct (H1 dh v Hv) as [_ E]. congruence.
  - apply iter_keys.
  - f_equal. apply map_eq. intros dh. rewrite Hacc, lookup_omap. destruct (m !! dh) as [v|] eqn:Ev; [|by rewrite lookup_empty].
    destruct (H1 dh v Ev) as [_ E]. rewrite decide_True.
    + cbn. destruct (f v); [done|by rewrite lookup_empty].
    + apply elem_of_iter in E. apply (list_elem_of_fmap_2 fst) in E. exact E.
Qed.
Lemma omap_some {V} (m : gmap bytes V) : omap Some m = m.
Proof. apply map_eq. intros i. rewrite lookup_omap. by destruct (m !! i). Qed.
End loads.

(** ** Contacts *)

(** A table with room keeps its other entries. *)
Lemma table_insert_room {V} cap k (v : V) t : (length (torder t) < cap)%nat →
  (∀ k', tmap (table_insert cap k v t) !! k' = if decide (k' = k) then Some v else tmap t !! k') ∧
  (length (torder (table_insert cap k v t)) ≤ S (length (torder t)))%nat.
Proof.
  intros Hr.
  assert (table_insert cap k v t = mkTable (<[k := v]> (tmap t)) (match tmap t !! k with Some _ => torder t | None => torder t ++ [k] end)) as ->.
  { unfold table_insert. destruct (tmap t !! k); [done|]. destruct (torder t ++ [k]) as [|o os] eqn:E; [by destruct (torder t)|].
    cbn [evict]. rewrite decide_False; [done|]. rewrite <-E, length_app. cbn. lia. }
  cbn [tmap torder]. split.
  - intros k'. case_decide as Hk; [subst; apply lookup_insert_eq|by rewrite lookup_insert_ne].
  - destruct (tmap t !! k); [lia|]. rewrite length_app. cbn. lia.
Qed.

Section contacts.
Context `{C : Crypto} `{I : HashIter} `{!HashIterOK}.
(** What the transport remembers of a contact with a key. *)
Definition remembered (c : bytes * option (bytes * option bytes)) : option KnownDest :=
  match c.2 with
  | Some (pk, r) => match from_public_key pk with Ok i => Some (mkKnown i (replicate NAME_HASH_LENGTH 0) r c.1) | _ => None end
  | None => None
  end.
Lemma load_contacts_entries (m : gmap bytes (bytes * option (bytes * option bytes))) l t names :
  (∀ dh c, m !! dh = Some c → address dh ∧ contact_ok c) →
  (∀ key buf, (key, buf) ∈ l → ∃ dh c, key = hex dh ∧ m !! dh = Some c ∧ buf = contact_value c) → NoDup l.*1 →
  (length (torder (known_t t)) + length l ≤ MAX_KNOWN)%nat →
  ∃ t' names', fold_left (λ acc kv,
      a ← parse_addr kv.1;
      match a with
      | None => acc
      | Some dh => c ← read_contact kv.2; match c with Some c => load_contact acc dh c | None => acc end
      end) l (Ok (t, names)) = Ok (t', names') ∧
    (∀ dh, names' !! dh = match m !! dh with Some c => if decide (hex dh ∈ l.*1) then Some c.1 else names !! dh | None => names !! dh end) ∧
    (∀ dh, known t' dh = match m !! dh with
                         | Some c => if decide (hex dh ∈ l.*1) then match remembered c with Some k => Some k | None => known t dh end else known t dh
                         | None => known t dh
                         end).
Proof.
  intros Hm. revert t names. induction l as [|[key buf] l IH]; intros t names Hl Hnd Hlen; cbn [fold_left].
  { exists t, names. split; [done|]. split; intros dh; (destruct (m !! dh); [|done]); by rewrite decide_False by apply not_elem_of_nil. }
  cbn in Hnd. apply NoDup_cons in Hnd as [Hni Hnd]. destruct (Hl key buf) as (dh & c & -> & Hc & ->); [left|].
  destruct (Hm dh c Hc) as [Ha Hok]. cbn [fst snd length] in *. rewrite parse_addr_hex by done. rewrite bind_Ok, contact_roundtrip by done. rewrite bind_Ok.
  assert (∃ t1, load_contact (Ok (t, names)) dh c = Ok (t1, <[dh := c.1]> names) ∧ (length (torder (known_t t1)) ≤ S (length (torder (known_t t))))%nat ∧
    ∀ a, known t1 a = if decide (a = dh) then match remembered c with Some k => Some k | None => known t dh end else known t a) as (t1 & -> & Hlen1 & Hk1).
  { unfold load_contact, remembered. rewrite bind_Ok. destruct Hok as [_ Hok]. destruct (c.2) as [[pk r]|].
    - destruct Hok as (_ & Hpl & _). rewrite from_public_key_ok by done. rewrite bind_Ok. eexists. split; [reflexivity|].
      unfold remember, insert_known, known. cbn [known_t set_known].
      match goal with |- context [table_insert ?cap ?k ?v ?tt] => destruct (table_insert_room cap k v tt) as [R1 R2]; [lia|] end.
      split; [exact R2|]. intros a. rewrite R1. done.
    - exists t. split; [done|]. split; [lia|]. intros a. by case_decide; subst. }
  destruct (IH t1 (<[dh := c.1]> names)) as (t' & names' & E & Hn & Hk); [intros key buf Hin; apply Hl; by right|done|lia|].
  exists t', names'. split; [exact E|]. clear E IH. cbn [fmap list_fmap fst].
  assert (∀ a, address a → a ≠ dh → (hex a ∈ hex dh :: l.*1 ↔ hex a ∈ l.*1)) as Hin.
  { intros a Haa Hne. rewrite elem_of_cons. split; [|by right]. intros [Eh|?]; [|done]. destruct Hne. by apply hex_inj. }
  split; intros a; [rewrite Hn|rewrite Hk]; (destruct (m !! a) as [w|] eqn:Ew;
    [destruct (Hm a w Ew) as [Haa _]|assert (a ≠ dh) as Hne by congruence]).
  - destruct (decide (a = dh)) as [->|Hne].
    + rewrite Hc in Ew. injection Ew as <-. rewrite (decide_False (P := hex dh ∈ l.*1)) by done.
      rewrite (decide_True (P := hex dh ∈ hex dh :: l.*1)) by left. apply lookup_insert_eq.
    + rewrite lookup_insert_ne by done. by rewrite (decide_ext _ _ _ _ (Hin a Haa Hne)).
  - by rewrite lookup_insert_ne.
  - destruct (decide (a = dh)) as [->|Hne].
    + rewrite Hc in Ew. injection Ew as <-. rewrite (decide_False (P := hex dh ∈ l.*1)) by done.
      rewrite (decide_True (P := hex dh ∈ hex dh :: l.*1)) by left. rewrite Hk1. by rewrite decide_True.
    + rewrite (decide_ext _ _ _ _ (Hin a Haa Hne)). assert (known t1 a = known t a) as -> by (rewrite Hk1; by rewrite decide_False). done.
  - rewrite Hk1. by rewrite decide_False.
Qed.
End contacts.

(** ** Histories of a dictionary *)

(** Any sequence of writes of lists of records (an empty one deletes) and deletions, and the map
    the application holds meanwhile. *)
Inductive list_history {R} (ser : list R → bytes) (ok : list R → Prop) : gmap bytes bytes → gmap bytes (list R) → Prop :=
  | lh_start : list_history ser ok ∅ ∅
  | lh_persist d m dh l : list_history ser ok d m → address dh → ok l →
      list_history ser ok (persist_list ser dh l d) (if decide (length l = 0)%nat then delete dh m else <[dh := l]> m)
  | lh_delete d m dh : list_history ser ok d m → address dh → list_history ser ok (delete (hex dh) d) (delete dh m).
(** Any sequence of writes of values. *)
Inductive value_history {V} (ser : V → bytes) (ok : V → Prop) : gmap bytes bytes → gmap bytes V → Prop :=
  | vh_start : value_history ser ok ∅ ∅
  | vh_write d m dh v : value_history ser ok d m → address dh → ok v → value_history ser ok (rewrite_key (hex dh) (ser v) d) (<[dh := v]> m).

Lemma list_history_represents {R} (ser : list R → bytes) ok d m : list_history ser ok d m →
  represents ser d m ∧ map_Forall (λ _ l, ok l ∧ length l ≠ 0%nat) m.
Proof.
  induction 1 as [|d m dh l _ [IH1 IH2] Ha Hl|d m dh _ [IH1 IH2] Ha].
  - split; [apply represents_empty|apply map_Forall_empty].
  - split; [by apply represents_persist|]. case_decide; [by apply map_Forall_delete|by apply map_Forall_insert_2].
  - split; [by apply represents_delete|by apply map_Forall_delete].
Qed.
Lemma value_history_represents {V} (ser : V → bytes) ok d m : value_history ser ok d m → represents ser d m ∧ map_Forall (λ _, ok) m.
Proof.
  induction 1 as [|d m dh v _ [IH1 IH2] Ha Hv]; [split; [apply represents_empty|apply map_Forall_empty]|].
  split; [by apply represents_write|by apply map_Forall_insert_2].
Qed.
(** A list that fits the machine. *)
Definition fits {R} (W : Z) (ok : R → Prop) (ser : list R → bytes) (l : list R) : Prop := Forall ok l ∧ len_of (ser l) + 32 < 2 ^ W.
Lemma nonempty_ok {R} (r : res (list R)) l : r = Ok l → length l ≠ 0%nat → nonempty r = Ok (Some l).
Proof. intros -> Hl. unfold nonempty. rewrite bind_Ok. by rewrite decide_False. Qed.

Section tickets.
Context `{I : HashIter} `{!HashIterOK}.
(** The loading of tickets, as that of the live ones, and what it deletes. *)
Definition live (now : Z) (t : Z * bytes) : option (Z * bytes) := if t.1 <=? now then None else Some t.
Definition live_ticket (now : Z) (_ buf : bytes) : res (option (Z * bytes)) := t ← read_ticket buf; mret (t ≫= live now).
Lemma load_tickets_entries (now : Z) (T : gmap bytes (Z * bytes)) l acc d :
  (∀ key buf, (key, buf) ∈ l → ∃ dh tk, key = hex dh ∧ address dh ∧ ticket_ok tk ∧ T !! dh = Some tk ∧ buf = ticket_value tk) →
  ∃ d', fold_left (load_ticket now) l (Ok (acc, d)) = (λ m, (m, d')) <$> fold_left (load_one (live_ticket now)) l (Ok acc) ∧
    ∀ dh, address dh → d' !! hex dh = (if decide (hex dh ∈ l.*1) then match T !! dh ≫= live now with Some _ => d !! hex dh | None => None end else d !! hex dh).
Proof.
  revert acc d. induction l as [|[key buf] l IH]; intros acc d Hl; cbn [fold_left].
  - exists d. split; [done|]. intros dh _. cbn. by rewrite decide_False by apply not_elem_of_nil.
  - destruct (Hl key buf) as (dh & tk & -> & Ha & Hok & HT & ->); [left|].
    unfold load_ticket at 2, load_one at 2, live_ticket. rewrite !bind_Ok. cbn [fst snd].
    rewrite parse_addr_hex by done. rewrite !bind_Ok, ticket_roundtrip by done. rewrite !bind_Ok.
    destruct tk as [e tk]. unfold live at 2. cbn [mbind option_bind fst].
    destruct (IH (if e <=? now then acc else <[dh := (e, tk)]> acc) (if e <=? now then delete (hex dh) d else d)) as (d' & E & Hd);
      [intros key buf Hin; apply Hl; by right|].
    exists d'. split; [by destruct (e <=? now)|]. intros a Haa. rewrite Hd by done. cbn [fmap list_fmap fst].
    destruct (decide (a = dh)) as [->|Hne].
    + rewrite (decide_True (P := hex dh ∈ hex dh :: l.*1)) by left. rewrite HT. unfold live. cbn [mbind option_bind fst].
      destruct (e <=? now); [rewrite lookup_delete_eq|]; by destruct (decide _).
    + assert (hex a ≠ hex dh) as Hne2 by (intros Eh; apply Hne; by apply hex_inj).
      assert ((if e <=? now then delete (hex dh) d else d) !! hex a = d !! hex a) as -> by (destruct (e <=? now); [by rewrite lookup_delete_ne|done]).
      destruct (decide (hex a ∈ l.*1)) as [Hin|Hin]; [by rewrite decide_True by (by right)|].
      rewrite decide_False; [done|]. by intros [?|?]%elem_of_cons.
Qed.

Lemma load_tickets_represents (now : Z) d T : represents ticket_value d T → map_Forall (λ _, ticket_ok) T →
  ∃ T' d', load_tickets now d = Ok (T', d') ∧ T' = omap (live now) T ∧ ∀ dh, address dh → d' !! hex dh = ticket_value <$> T' !! dh.
Proof.
  intros R OT. pose proof R as [R1 R2]. destruct (load_tickets_entries now T (iter d) ∅ d) as (d' & E & Hd).
  { intros key buf Hin. apply elem_of_iter in Hin. destruct (R2 key buf Hin) as (dh & tk & -> & Hk). exists dh, tk.
    destruct (R1 dh tk Hk) as [Ha E']. split_and!; [done|done|by apply (OT dh)|done|congruence]. }
  exists (omap (live now) T), d'. split_and!; [|done|].
  - unfold load_tickets. rewrite E. pose proof (load_dict_represents ticket_value (live_ticket now) (live now) d T R) as HL.
    unfold load_dict in HL. rewrite HL; [done|]. intros dh tk Hk. unfold live_ticket. by rewrite ticket_roundtrip by (by apply (OT dh)).
  - intros dh Ha. rewrite Hd by done. rewrite lookup_omap. destruct (T !! dh) as [tk|] eqn:Ek; cbn [mbind option_bind].
    + destruct (R1 dh tk Ek) as [_ Hh]. rewrite decide_True.
      * unfold live. by destruct (tk.1 <=? now).
      * apply elem_of_iter in Hh. apply (list_elem_of_fmap_2 fst) in Hh. exact Hh.
    + destruct (decide _) as [_|Hni]; [done|]. destruct (d !! hex dh) as [v|] eqn:Ev; [|done].
      exfalso. apply Hni. apply elem_of_iter in Ev. apply (list_elem_of_fmap_2 fst) in Ev. exact Ev.
Qed.

End tickets.

(** The dictionary of the settings: what is written is read, and the identity made at the first
    start is the one of every later start. *)
Lemma string_reload key v d : utf8_ok v = true → v ≠ [] → read_string key (write_string key v d) = Some v.
Proof.
  intros Hu Hn. unfold read_string, write_string, rewrite_key. rewrite lookup_insert_eq, Hu.
  by destruct v.
Qed.
Lemma found_reload W l d : Forall found_ok l → len_of (flat_map found_record l) + 32 < 2 ^ W →
  load_found_addrs W (persist_found_addrs l d) = Ok l.
Proof.
  intros Hl Hf. unfold load_found_addrs, persist_found_addrs. destruct (decide _) as [He|_].
  - rewrite lookup_delete_eq. by destruct l.
  - unfold rewrite_key. rewrite lookup_insert_eq. by apply found_roundtrip.
Qed.
Lemma identity_stable id id' d : length id = KEYSIZE →
  load_or_create_identity id' (load_or_create_identity id d).2 = load_or_create_identity id d.
Proof.
  intros Hl. unfold load_or_create_identity. destruct (d !! KEY_IDENTITY) as [buf|] eqn:E.
  - destruct (KEYSIZE <=? length buf)%nat eqn:Ek; cbn [snd]; [by rewrite E, Ek|].
    rewrite lookup_insert_eq. rewrite (proj2 (Nat.leb_le _ _)) by (rewrite length_app; lia). by rewrite take_app_length' by done.
  - cbn [snd]. rewrite lookup_insert_eq, Hl, Nat.leb_refl, <- Hl. by rewrite firstn_all.
Qed.
Lemma identity_kept id d key v l : key ≠ KEY_IDENTITY →
  (load_or_create_identity id (write_string key v d)).1 = (load_or_create_identity id d).1 ∧
  (load_or_create_identity id (persist_found_addrs l d)).1 = (load_or_create_identity id d).1.
Proof.
  intros Hk. unfold load_or_create_identity, write_string, persist_found_addrs, rewrite_key.
  split; [|destruct (decide _)]; rewrite ?lookup_insert_ne, ?lookup_delete_ne by done; by destruct (d !! KEY_IDENTITY) as [b|]; [destruct (_ <=? _)%nat|].
Qed.

(** ** Loading what represents a map *)
Section reload.
Context `{C : Crypto} `{I : HashIter} `{!HashIterOK} (W : Z).
Lemma load_pending_represents d P : represents serialize_pending d P → map_Forall (λ _ l, fits W held_ok serialize_pending l ∧ length l ≠ 0%nat) P →
  load_pending W d = Ok (P, (λ l, len_of l mod 2 ^ 32) <$> P).
Proof.
  intros RP OP. unfold load_pending, load_held. rewrite (load_dict_represents _ _ Some d P RP); [by rewrite omap_some|].
  intros dh l Hl. destruct (OP dh l Hl) as [[Hok Hlen] Hne]. apply nonempty_ok; [by apply pending_roundtrip|done].
Qed.
Lemma load_updates_represents d U : represents (flat_map update_record) d U → map_Forall (λ _ l, fits W update_ok (flat_map update_record) l ∧ length l ≠ 0%nat) U →
  load_delivery_updates W d = Ok U.
Proof.
  intros RU OU. unfold load_delivery_updates. rewrite (load_dict_represents _ _ Some d U RU); [by rewrite omap_some|].
  intros dh l Hl. destruct (OU dh l Hl) as [[Hok Hlen] Hne]. apply nonempty_ok; [by apply updates_roundtrip|done].
Qed.
Lemma load_nodes_represents d N : represents id d N → map_Forall (λ _, node_ok) N → load_nodes d = Ok N.
Proof.
  intros RN ON. unfold load_nodes. rewrite (load_dict_represents _ _ Some d N RN); [by rewrite omap_some|].
  intros dh name Hn. cbn. rewrite node_roundtrip by (by apply (ON dh)). done.
Qed.
Lemma load_contacts_represents d K t : represents contact_value d K → map_Forall (λ _, contact_ok) K → known_t t = table_new → (size d ≤ MAX_KNOWN)%nat →
  ∃ t', load_contacts d t = Ok (t', fst <$> K) ∧ ∀ dh c, K !! dh = Some c → known t' dh = remembered c.
Proof.
  intros [R1 R2] OC Ht HK. unfold load_contacts. destruct (load_contacts_entries K (iter d) t ∅) as (t' & names & -> & Hn & Hk).
  - intros dh c Hc. split; [by apply (R1 dh c)|by apply (OC dh)].
  - intros key buf Hin. apply elem_of_iter in Hin. destruct (R2 key buf Hin) as (dh & c & -> & Hc). exists dh, c.
    split_and!; [done|done|]. destruct (R1 dh c Hc) as [_ E]. congruence.
  - apply iter_keys.
  - rewrite Ht. cbn [torder table_new length]. rewrite (Permutation_length (iter_perm _ d)), length_map_to_list. lia.
  - assert (∀ dh c, K !! dh = Some c → hex dh ∈ (iter d).*1) as Hall.
    { intros dh c Hc. destruct (R1 dh c Hc) as [_ E]. apply elem_of_iter in E. apply (list_elem_of_fmap_2 fst) in E. exact E. }
    exists t'. split.
    + do 2 f_equal. apply map_eq. intros dh. rewrite Hn, lookup_fmap. destruct (K !! dh) as [c|] eqn:E; [|done].
      by rewrite decide_True by (by eapply Hall).
    + intros dh c Hc. rewrite Hk, Hc. rewrite decide_True by (by eapply Hall). unfold known. rewrite Ht. by destruct (remembered c).
Qed.
End reload.

(** ** Properties *)


(** [parse_addr] slices its text two bytes at a time without looking for character boundaries:
    a text of 32 bytes with a character across a boundary panics. *)
Lemma parse_addr_panics : let s := ascii "0" ++ [0xc3; 0xa9] ++ replicate 29 48 in utf8_ok s = true ∧ parse_addr s = Panic.
Proof. split; vm_compute; reflexivity. Qed.
(** It also reads a sign for a digit. *)
Lemma parse_addr_sign : parse_addr (ascii "+f" ++ replicate 30 48) = Ok (Some (15 :: replicate 15 0)).
Proof. vm_compute. reflexivity. Qed.

(** ** Witnesses *)
Import ToyInstances.
#[local] Instance storage_iter : HashIter := λ V m, map_to_list m.
#[local] Instance storage_iter_ok : HashIterOK.
Proof. by intros V m. Qed.

Definition wd_addr : bytes := replicate 16 0xab.
Lemma wd_address : address wd_addr.
Proof. split; [apply (bool_decide_unpack _); vm_compute; exact I|reflexivity]. Qed.
Definition wd_msgs : list (bytes * Z * bytes) := [(ascii "bob", 1700000000, ascii "hi"); ([], 5, [0xc3; 0xa9])].
Definition wd_updates : list (Z * bytes * Z) := [(7, ascii "sent", 1)].
Definition wd_contact : bytes * option (bytes * option bytes) := (ascii "bob", Some (replicate 64 9, Some (replicate 32 8))).

