(* ===== verification/Inbound.v ===== *)
(** The inbound message path of the application ([lxmfchat/src/net.rs]: [deliver_lxmf],
    [store_ticket], [verify_and_store_ticket], [inbound_resource], [outlink_resource],
    [update_mark], and the arms of [handle_frame] that lead to them) and what the user does to
    it ([activate_peer] and the clearing of a history, [lib.rs]).

    The state is [Shared], its fields in groups, with the dictionaries of [Storage] and the
    requests sent to the chat server, a process of its own.  Status lines and the vibration
    motor are left out.  [deliver_lxmf] is two steps: the user may switch conversations between
    its reading of the active one and its use. *)
From stdpp Require Import sorting.
From S2P Require Import Prelude Constants Crypto Packet Identity Link Msgpack Message ResourceWire Resource ResourceTransfer Tables Transport Outbox OutboxNet MicronPage Storage.

Definition MAX_IN_RESOURCES : nat := 4.
Definition MAX_FOUND_ADDRS : nat := 16.
Definition RECENT_IDS : nat := 64.
Definition MARK_DELIVERED : bytes := [0xe2; 0x9c; 0x93].
Definition MARK_QUEUED : bytes := [0xc2; 0xbb].
Definition MARK_SYNCED : bytes := [0xc2; 0xbb].
Definition MARK_FAILED : bytes := [0xc3; 0x97].
Definition MARK_UNVERIFIED : bytes := ascii "  " ++ [0xe2; 0x9a; 0xa0] ++ ascii "(unverified)".
Definition SELF_AUTHOR : bytes := ascii "me".
Definition KEY_PEER : bytes := ascii "peer".
Definition DIALOGUE_WELCOME : bytes := ascii "welcome".

Definition status_mark (status : Z) : bytes :=
  if status =? STATUS_DELIVERED then MARK_DELIVERED else if status =? STATUS_QUEUED then MARK_QUEUED else MARK_FAILED.
Definition bubble_text (text mark : bytes) : bytes := text ++ ascii "  " ++ mark.

(** ** The state *)
Abbreviation held := (bytes * Z * bytes)%type (only parsing).
Abbreviation update := (Z * bytes * Z)%type (only parsing).

(** What is sent to the chat server; [DialogueDrop] is the deletion of a stored dialogue, from
    under it. *)
Inductive ChatMsg :=
  | DialogueDrop (key : bytes)
  | DialogueSet (key : bytes)
  | PostAdd (author : bytes) (ts : Z) (text : bytes)
  | PostUpdate (author : bytes) (ts : Z) (text : bytes)
  | DialogueSave.

Record Book := mkBook { contacts : gmap bytes bytes; seen : gmap bytes (bytes * Z); nodes_seen : gmap bytes (bytes * Z); stamp_costs : gmap bytes Z }.
Record Mail := mkMail {
  recent_msg_ids : list bytes;
  found_addrs : list (bytes * bytes * Z);
  tickets : gmap bytes (Z * bytes);
  ticket_pending : gmap bytes bytes;
  pending : gmap bytes (list (bytes * Z * bytes));
  unread : gmap bytes Z;
  delivery_updates : gmap bytes (list (Z * bytes * Z));
}.
Record View := mkView { current_peer : option bytes; prev_peer : option bytes; last_ts : Z; chat_log : list ChatMsg }.
Record Store := mkStore {
  d_contacts : gmap bytes bytes; d_pending : gmap bytes bytes; d_tickets : gmap bytes bytes; d_delivery : gmap bytes bytes; d_state : gmap bytes bytes;
}.
Record Shared := mkShared {
  a_net : Net; book : Book; mail : Mail; view : View; store : Store;
  in_resources : gmap bytes ResourceReceiver; a_backchannels : gmap bytes (bytes * Z); a_outbox : list OutboundMsg;
}.

Definition with_net (n : Net) (s : Shared) : Shared := mkShared n (book s) (mail s) (view s) (store s) (in_resources s) (a_backchannels s) (a_outbox s).
Definition with_book (b : Book) (s : Shared) : Shared := mkShared (a_net s) b (mail s) (view s) (store s) (in_resources s) (a_backchannels s) (a_outbox s).
Definition with_mail (m : Mail) (s : Shared) : Shared := mkShared (a_net s) (book s) m (view s) (store s) (in_resources s) (a_backchannels s) (a_outbox s).
Definition with_view (v : View) (s : Shared) : Shared := mkShared (a_net s) (book s) (mail s) v (store s) (in_resources s) (a_backchannels s) (a_outbox s).
Definition with_store (d : Store) (s : Shared) : Shared := mkShared (a_net s) (book s) (mail s) (view s) d (in_resources s) (a_backchannels s) (a_outbox s).
Definition with_resources (r : gmap bytes ResourceReceiver) (s : Shared) : Shared := mkShared (a_net s) (book s) (mail s) (view s) (store s) r (a_backchannels s) (a_outbox s).
Definition with_backchannels (b : gmap bytes (bytes * Z)) (s : Shared) : Shared := mkShared (a_net s) (book s) (mail s) (view s) (store s) (in_resources s) b (a_outbox s).
Definition with_outbox (o : list OutboundMsg) (s : Shared) : Shared := mkShared (a_net s) (book s) (mail s) (view s) (store s) (in_resources s) (a_backchannels s) o.

Definition set_ids (l : list bytes) (m : Mail) : Mail := mkMail l (found_addrs m) (tickets m) (ticket_pending m) (pending m) (unread m) (delivery_updates m).
Definition set_found (l : list (bytes * bytes * Z)) (m : Mail) : Mail := mkMail (recent_msg_ids m) l (tickets m) (ticket_pending m) (pending m) (unread m) (delivery_updates m).
Definition set_tickets (t : gmap bytes (Z * bytes)) (m : Mail) : Mail := mkMail (recent_msg_ids m) (found_addrs m) t (ticket_pending m) (pending m) (unread m) (delivery_updates m).
Definition set_ticket_pending (t : gmap bytes bytes) (m : Mail) : Mail := mkMail (recent_msg_ids m) (found_addrs m) (tickets m) t (pending m) (unread m) (delivery_updates m).
Definition set_held (p : gmap bytes (list (bytes * Z * bytes))) (u : gmap bytes Z) (m : Mail) : Mail := mkMail (recent_msg_ids m) (found_addrs m) (tickets m) (ticket_pending m) p u (delivery_updates m).
Definition set_updates (u : gmap bytes (list (Z * bytes * Z))) (m : Mail) : Mail := mkMail (recent_msg_ids m) (found_addrs m) (tickets m) (ticket_pending m) (pending m) (unread m) u.

Definition set_d_contacts (d : gmap bytes bytes) (s : Store) : Store := mkStore d (d_pending s) (d_tickets s) (d_delivery s) (d_state s).
Definition set_d_pending (d : gmap bytes bytes) (s : Store) : Store := mkStore (d_contacts s) d (d_tickets s) (d_delivery s) (d_state s).
Definition set_d_tickets (d : gmap bytes bytes) (s : Store) : Store := mkStore (d_contacts s) (d_pending s) d (d_delivery s) (d_state s).
Definition set_d_delivery (d : gmap bytes bytes) (s : Store) : Store := mkStore (d_contacts s) (d_pending s) (d_tickets s) d (d_state s).
Definition set_d_state (d : gmap bytes bytes) (s : Store) : Store := mkStore (d_contacts s) (d_pending s) (d_tickets s) (d_delivery s) d.

Definition to_chat (l : list ChatMsg) (s : Shared) : Shared :=
  with_view (mkView (current_peer (view s)) (prev_peer (view s)) (last_ts (view s)) (chat_log (view s) ++ l)) s.
(** The highest timestamp shown. *)
Definition see_ts (ts : Z) (s : Shared) : Shared :=
  with_view (mkView (current_peer (view s)) (prev_peer (view s)) (Z.max (last_ts (view s)) ts) (chat_log (view s))) s.

(** ** Delivery marks of sent messages *)

(** [found] is the chat server's answer: whether the bubble is in the active dialogue. *)
Definition update_mark (found : bool) (p : bytes) (ts : Z) (text : bytes) (status : Z) (s : Shared) : Shared :=
  let s := to_chat [PostUpdate SELF_AUTHOR ts (bubble_text text (status_mark status))] s in
  if found then to_chat [DialogueSave] s
  else
    let l := default [] (delivery_updates (mail s) !! p) ++ [(ts, text, status)] in
    with_store (set_d_delivery (persist_delivery_updates p l (d_delivery (store s))) (store s))
      (with_mail (set_updates (<[p := l]> (delivery_updates (mail s))) (mail s)) s).
Definition apply_delivery_updates (p : bytes) (s : Shared) : Shared :=
  match delivery_updates (mail s) !! p with
  | None => s
  | Some us =>
      let s := with_mail (set_updates (delete p (delivery_updates (mail s))) (mail s)) s in
      let s := to_chat (((λ u : update, PostUpdate SELF_AUTHOR u.1.1 (bubble_text u.1.2 (status_mark u.2))) <$> us) ++ [DialogueSave]) s in
      with_store (set_d_delivery (delete_delivery_updates p (d_delivery (store s))) (store s)) s
  end.

(** ** Opening and clearing a conversation *)
Definition flush_posts (q : list (bytes * Z * bytes)) (s : Shared) : Shared :=
  fold_left (λ s (m : held), to_chat [PostAdd m.1.1 m.1.2 m.2] (see_ts m.1.2 s)) q s.
Definition activate_peer (addr : bytes) (s : Shared) : Shared :=
  let v := view s in
  let s := with_view (mkView (Some addr) (if bool_decide (current_peer v ≠ Some addr) then current_peer v else prev_peer v) (last_ts v) (chat_log v)) s in
  let s := with_store (set_d_state (write_string KEY_PEER (hex addr) (d_state (store s))) (store s)) s in
  let s := to_chat [DialogueSet (hex addr)] s in
  let queued := default [] (pending (mail s) !! addr) in
  let s := with_mail (set_held (delete addr (pending (mail s))) (unread (mail s)) (mail s)) s in
  let s := flush_posts queued s in
  let s := with_mail (set_held (pending (mail s)) (delete addr (unread (mail s))) (mail s)) s in
  let s := if bool_decide (queued = []) then s
           else to_chat [DialogueSave] (with_store (set_d_pending (delete_pending addr (d_pending (store s))) (store s)) s) in
  apply_delivery_updates addr s.
(** The keys of a [BTreeMap], in order. *)
Definition key_le (a b : bytes) : Prop := be_val a ≤ be_val b.
#[export] Instance key_le_dec : RelDecision key_le := λ a b, Z_le_dec (be_val a) (be_val b).
Definition sorted_keys {V} (m : gmap bytes V) : list bytes := merge_sort key_le (map_to_list m).*1.
(** [first_unread]: the conversation whose oldest held message is the earliest. *)
Definition oldest_held (s : Shared) (p : bytes) : Z :=
  match head (default [] (pending (mail s) !! p)) with Some m => m.1.2 | None => 2 ^ 64 - 1 end.
Definition first_unread (s : Shared) : option (bytes * Z) :=
  fold_left (λ best p,
      match unread (mail s) !! p with
      | Some n =>
          if n <=? 0 then best
          else match best with
               | Some (b, _) => if oldest_held s p <? oldest_held s b then Some (p, n) else best
               | None => Some (p, n)
               end
      | None => best
      end) (sorted_keys (unread (mail s))) None.
Definition jump_to_unread (s : Shared) : Shared :=
  match first_unread s with Some (p, _) => activate_peer p s | None => s end.
Definition jump_back (s : Shared) : Shared :=
  match prev_peer (view s) with
  | Some p => if bool_decide (current_peer (view s) ≠ Some p) then activate_peer p s else s
  | None => s
  end.
(** [clear_history_interactive], once confirmed. *)
Definition clear_history (s : Shared) : Shared :=
  match current_peer (view s) with
  | None => to_chat [DialogueDrop DIALOGUE_WELCOME; DialogueSet DIALOGUE_WELCOME] s
  | Some p =>
      let s := to_chat [DialogueDrop (hex p); DialogueSet (hex p)] s in
      let m := mail s in
      let s := with_mail (set_updates (delete p (delivery_updates m)) (set_held (delete p (pending m)) (delete p (unread m)) m)) s in
      let s := with_outbox (clear_peer p (a_outbox s)) s in
      with_store (set_d_delivery (delete_delivery_updates p (d_delivery (store s))) (set_d_pending (delete_pending p (d_pending (store s))) (store s))) s
  end.

(** ** Names *)
Definition name_of (s : Shared) (p : bytes) : bytes :=
  match contacts (book s) !! p with
  | Some n => n
  | None => match seen (book s) !! p with Some (n, _) => n | None => hex p end
  end.
Definition save_to_contacts `{C : Crypto} (p name : bytes) (s : Shared) : Shared :=
  let '(cs, d) := save_contact (tp (a_net s)) p name (contacts (book s)) (d_contacts (store s)) in
  with_store (set_d_contacts d (store s)) (with_book (mkBook cs (seen (book s)) (nodes_seen (book s)) (stamp_costs (book s))) s).

(** [as u64] of any double: what is not a positive number is 0. *)
Definition f64_to_u64 (bits : Z) : Z :=
  if 2 ^ 63 <=? bits then 0 else if Z.shiftl 0x7ff 52 <? bits then 0 else f64_as_u64 bits.

Section inbound.
Context `{C : Crypto} `{I : HashIter} `{B : Bz2} (W : Z).
Context (rand : nat → nat → bytes) (hub_ok auto_ok : nat → bool).
(** Our own address. *)
Context (our_dh : bytes).

Definition broadcast (raw : bytes) (s : Shared) : Shared := with_net (broadcast_out hub_ok auto_ok (a_net s) raw).2 s.
Definition request_key (p : bytes) (s : Shared) : res Shared :=
  '(_, n) ← request_peer_key rand hub_ok auto_ok (a_net s) p; mret (with_net n s).

(** ** Tickets *)
Definition store_ticket (now : Z) (src : bytes) (t : InboundTicket) (s : Shared) : Shared :=
  if expires t <=? now then s
  else if match tickets (mail s) !! src with Some (e, _) => e <=? expires t | None => true end then
    with_store (set_d_tickets (persist_ticket src (expires t) (ticket t) (d_tickets (store s))) (store s))
      (with_mail (set_tickets (<[src := (expires t, ticket t)]> (tickets (mail s))) (mail s)) s)
  else s.
Definition verify_and_store_ticket (now : Z) (src : bytes) (id : PublicIdentity) (blob : bytes) (s : Shared) : res Shared :=
  m ← res_ok (parse W blob (Some id));
  mret match m with
       | Some m => if p_signature_validated m then match extract_ticket (p_fields m) with Some t => store_ticket now src t s | None => s end else s
       | None => s
       end.
(** The ticket of a message: stored if the message is verified, kept for later otherwise. *)
Definition take_ticket (now : Z) (src blob : bytes) (m : ParsedMessage) (s : Shared) : Shared :=
  match extract_ticket (p_fields m) with
  | None => s
  | Some t =>
      if p_signature_validated m then store_ticket now src t s
      else with_mail (set_ticket_pending (<[src := blob]> (ticket_pending (mail s))) (mail s)) s
  end.

(** ** Addresses found in a message *)
Definition is_fresh (src : bytes) (s : Shared) (a : bytes) : bool :=
  negb (bool_decide (a = our_dh)) && negb (bool_decide (a = src)) && bool_decide (contacts (book s) !! a = None).
Definition add_found (author : bytes) (now : Z) (l : list (bytes * bytes * Z)) (a : bytes) : list (bytes * bytes * Z) :=
  if existsb (λ f, bool_decide (f.1.1 = a)) l then l else l ++ [(a, author, now)].
Definition note_addresses (now : Z) (src author text : bytes) (s : Shared) : res Shared :=
  addrs ← extract_addresses text;
  let fresh := List.filter (is_fresh src s) addrs in
  mret match fresh with
       | [] => s
       | _ =>
           let l := fold_left (add_found author now) fresh (found_addrs (mail s)) in
           let l := drop (length l - MAX_FOUND_ADDRS) l in
           with_store (set_d_state (persist_found_addrs l (d_state (store s))) (store s)) (with_mail (set_found l (mail s)) s)
       end.

(** ** The delivery of a message *)
Record Incoming := mkIncoming { i_src : bytes; i_author : bytes; i_ts : Z; i_text : bytes; i_active : option bytes }.

Definition remember_id (id : bytes) (ids : list bytes) : list bytes :=
  let ids := ids ++ [id] in if (RECENT_IDS <? length ids)%nat then drop 1 ids else ids.
Definition shown_text (live : bool) (m : ParsedMessage) : bytes :=
  let text := content_string m in
  let text := if p_signature_validated m then text else text ++ MARK_UNVERIFIED in
  if live then text else bubble_text text MARK_SYNCED.

(** Up to the reading of the active conversation. *)
Definition deliver_receive (now : Z) (live : bool) (blob : bytes) (s : Shared) : res (option Incoming * Shared) :=
  if decide (length blob < 2 * TRUNCATED_HASHLENGTH)%nat then mret (None, s)
  else
    src ← slice blob TRUNCATED_HASHLENGTH (2 * TRUNCATED_HASHLENGTH);
    let src_id := kd_identity <$> known (tp (a_net s)) src in
    s ← (if bool_decide (src_id = None) then request_key src s else mret s);
    m ← res_ok (parse W blob src_id);
    match m with
    | None => mret (None, s)
    | Some m =>
        let ids := recent_msg_ids (mail s) in
        if bool_decide (p_message_id m ∈ ids) then mret (None, s)
        else
          let s := with_mail (set_ids (remember_id (p_message_id m) ids) (mail s)) s in
          let author := name_of s src in
          let text := shown_text live m in
          let s := save_to_contacts src author s in
          s ← note_addresses now src author text s;
          let s := take_ticket now src blob m s in
          mret (Some (mkIncoming src author (f64_to_u64 (p_timestamp m)) text (current_peer (view s))), s)
    end.
(** The rest: shown, or held for the sender. *)
Definition deliver_show (i : Incoming) (s : Shared) : Shared :=
  if bool_decide (i_active i = Some (i_src i)) then
    to_chat [PostAdd (i_author i) (i_ts i) (i_text i); DialogueSave] (see_ts (i_ts i) s)
  else
    let l := default [] (pending (mail s) !! i_src i) ++ [(i_author i, i_ts i, i_text i)] in
    let u := (default 0 (unread (mail s) !! i_src i) + 1) mod 2 ^ 32 in
    with_store (set_d_pending (persist_pending (i_src i) l (d_pending (store s))) (store s))
      (with_mail (set_held (<[i_src i := l]> (pending (mail s))) (<[i_src i := u]> (unread (mail s))) (mail s)) s).
Definition deliver_lxmf (now : Z) (live : bool) (blob : bytes) (s : Shared) : res Shared :=
  '(i, s) ← deliver_receive now live blob s;
  mret match i with Some i => deliver_show i s | None => s end.

(** ** Resources on a link *)

(** The operations of the two ends of a link. *)
Record LinkEnd := mkEnd {
  e_context : Transport → bytes → Z → bytes → bytes → res bytes;
  e_decrypt : Transport → bytes → bytes → res bytes;
  e_proof : Transport → bytes → bytes → res bytes;
}.
Definition in_end : LinkEnd := mkEnd make_in_link_context decrypt_in_link make_in_link_resource_proof.
Definition out_end : LinkEnd := mkEnd make_out_link_context decrypt_out_link make_out_link_resource_proof.

Definition broadcast_made (made : res bytes) (s : Shared) : res Shared :=
  o ← res_ok made; mret match o with Some raw => broadcast raw s | None => s end.
Definition send_resource_request (e : LinkEnd) (lid : bytes) (req : option bytes) (s : Shared) : res Shared :=
  match req with
  | None => mret s
  | Some req =>
      let '(iv, n) := fill_random rand (a_net s) IV_LENGTH in
      broadcast_made (e_context e (tp n) lid CONTEXT_RESOURCE_REQ req iv) (with_net n s)
  end.

(** Whatever has the least keys makes room. *)
Fixpoint make_room {V} (fuel : nat) (lid : bytes) (m : gmap bytes V) : gmap bytes V :=
  match fuel with
  | O => m
  | S fuel =>
      if (MAX_IN_RESOURCES <=? size m)%nat && bool_decide (m !! lid = None) then
        make_room fuel lid match sorted_keys m with k :: _ => delete k m | [] => m end
      else m
  end.
Definition insert_receiver (lid : bytes) (rx : ResourceReceiver) (m : gmap bytes ResourceReceiver) : gmap bytes ResourceReceiver :=
  <[lid := rx]> (make_room (size m) lid m).

Definition resource_advertised (e : LinkEnd) (lid pt : bytes) (s : Shared) : res Shared :=
  rx ← res_ok (accept W pt);
  match rx with
  | None => mret s
  | Some rx =>
      '(req, rx) ← next_request rx;
      send_resource_request e lid req (with_resources (insert_receiver lid rx (in_resources s)) s)
  end.
(** The transfer is complete: taken out, decrypted, checked and proved.  The result of these
    steps is the message to deliver, if there is one. *)
Definition resource_complete (e : LinkEnd) (lid : bytes) (s : Shared) : res (option bytes * Shared) :=
  match in_resources s !! lid with
  | None => mret (None, s)
  | Some rx =>
      let s := with_resources (delete lid (in_resources s)) s in
      let stream := concat_parts rx in
      plain ← (if rr_encrypted rx then res_ok (e_decrypt e (tp (a_net s)) lid stream) else mret (Some stream));
      match plain with
      | None => mret (None, s)
      | Some plain =>
          r ← res_ok (finish rx plain);
          match r with
          | None => mret (None, s)
          | Some (payload, proof) => s ← broadcast_made (e_proof e (tp (a_net s)) lid proof) s; mret (Some payload, s)
          end
      end
  end.
Definition resource_part (e : LinkEnd) (lid pt : bytes) (s : Shared) : res (option bytes * Shared) :=
  match in_resources s !! lid with
  | None => mret (None, s)
  | Some rx =>
      '(req, rx) ← on_part rx pt;
      s ← send_resource_request e lid req (with_resources (<[lid := rx]> (in_resources s)) s);
      if is_complete rx then resource_complete e lid s else mret (None, s)
  end.
Definition resource_hmu (e : LinkEnd) (lid pt : bytes) (s : Shared) : res Shared :=
  match in_resources s !! lid with
  | None => mret s
  | Some rx =>
      '(req, rx) ← on_hmu W rx pt;
      send_resource_request e lid req (with_resources (<[lid := rx]> (in_resources s)) s)
  end.
Definition on_resource (e : LinkEnd) (lid : bytes) (context : Z) (pt : bytes) (s : Shared) : res (option bytes * Shared) :=
  if context =? CONTEXT_RESOURCE_ADV then pair None <$> resource_advertised e lid pt s
  else if context =? CONTEXT_RESOURCE then resource_part e lid pt s
  else if context =? CONTEXT_RESOURCE_HMU then pair None <$> resource_hmu e lid pt s
  else mret (None, s).
Definition deliver_payload (now : Z) (r : res (option bytes * Shared)) : res Shared :=
  '(payload, s) ← r;
  match payload with Some payload => deliver_lxmf now true payload s | None => mret s end.
Definition outlink_resource (now : Z) (lid : bytes) (context : Z) (pt : bytes) (s : Shared) : res Shared :=
  deliver_payload now (on_resource out_end lid context pt s).
(** The peer downloads a resource we send. *)
Definition serve_resource (lid pt : bytes) (s : Shared) : res Shared :=
  let '(iv, n) := fill_random rand (a_net s) IV_LENGTH in
  packets ← serve_link_resource (tp n) lid pt iv;
  mret (fold_left (λ s p, broadcast p s) packets (with_net n s)).
Definition inbound_resource (now : Z) (lid : bytes) (context : Z) (pt : bytes) (s : Shared) : res Shared :=
  if context =? CONTEXT_RESOURCE_REQ then serve_resource lid pt s
  else deliver_payload now (on_resource in_end lid context pt s).

(** ** Events *)

(** The propagation node configured, if any, and whether the chat server finds our bubble of a
    time in its active dialogue. *)
Context (pn : option bytes) (chat_has : list ChatMsg → Z → bool).

(** The marks of what failed. *)
Definition fail_marks (failures : list (OutboundMsg * string)) (s : Shared) : Shared :=
  fold_left (λ s f, update_mark (chat_has (chat_log (view s)) (display_ts f.1)) (peer f.1) (display_ts f.1) (msg_text f.1) STATUS_FAILED s) failures s.
#[local] Instance ops : NetOps := net_ops rand hub_ok auto_ok.
Definition pump (now : Z) (s : Shared) : res Shared :=
  '(kept, failures, p) ← pump_outbox pn now (a_outbox s) (mkPump (N := ops) (a_net s) (a_backchannels s));
  mret (fail_marks failures (with_outbox kept (with_backchannels (backchannels p) (with_net (p_net (N := ops) p) s)))).

Definition touch_link (now : Z) (lid : bytes) (s : Shared) : Shared :=
  with_backchannels ((λ b : bytes * Z, if bool_decide (b.1 = lid) then (lid, now) else b) <$> a_backchannels s) s.

Definition on_data (now : Z) (dest pt proof : bytes) (s : Shared) : res Shared := deliver_lxmf now true (dest ++ pt) (broadcast proof s).
Definition on_link_data (now : Z) (lid pt proof : bytes) (s : Shared) : res Shared := deliver_lxmf now true pt (touch_link now lid (broadcast proof s)).
Definition on_keepalive (now : Z) (lid reply : bytes) (s : Shared) : Shared := touch_link now lid (broadcast reply s).
Definition on_in_link_closed (lid : bytes) (s : Shared) : Shared :=
  with_resources (delete lid (in_resources s)) (with_backchannels (filter (λ kb : bytes * (bytes * Z), kb.2.1 ≠ lid) (a_backchannels s)) s).
(** The connection manager, on losing the hub: the transfers and the peers' links are gone. *)
Definition links_lost (s : Shared) : Shared := with_backchannels ∅ (with_resources ∅ s).
Definition lxmf_delivery_name_hash : bytes := name_hash (ascii "lxmf") [ascii "delivery"].
Definition nomad_node_name_hash : bytes := name_hash (ascii "nomadnetwork") [ascii "node"].
Definition on_link_identified (now : Z) (lid : bytes) (id : PublicIdentity) (s : Shared) : res Shared :=
  let dest := single_destination_hash (ascii "lxmf") [ascii "delivery"] (id_hash id) in
  let t := tp (a_net s) in
  let s := match known t dest with
           | Some _ => s
           | None => with_net (with_tp (a_net s) (remember dest (mkKnown id lxmf_delivery_name_hash None []) t)) s
           end in
  pump now (with_backchannels (<[dest := (lid, now)]> (a_backchannels s)) s).
Definition on_delivered (packet_hash : bytes) (s : Shared) : Shared :=
  let '(m, o) := mark_delivered packet_hash (a_outbox s) in
  let s := with_outbox o s in
  match m with
  | Some (m, status) => update_mark (chat_has (chat_log (view s)) (display_ts m)) (peer m) (display_ts m) (msg_text m) status s
  | None => s
  end.

(** A saved name that is only the address gives way to an announced one. *)
Definition is_placeholder (dest name : bytes) : bool :=
  bool_decide (name = hex dest) || bool_decide (name = take 8 (hex dest) ++ [0xe2; 0x80; 0xa6]).
Definition learn_peer (now : Z) (dest name : bytes) (cost : option Z) (s : Shared) : Shared :=
  let b := book s in
  with_book (mkBook (contacts b) (<[dest := (name, now)]> (seen b)) (nodes_seen b)
    match cost with Some c => <[dest := c]> (stamp_costs b) | None => delete dest (stamp_costs b) end) s.
Definition on_announce (now : Z) (dest : bytes) (info : KnownDest) (s : Shared) : res Shared :=
  if bool_decide (dest = our_dh) then mret s
  else if bool_decide (kd_name_hash info = nomad_node_name_hash) then
    let b := book s in
    mret (with_book (mkBook (contacts b) (seen b) (<[dest := (read_node (hex dest) (kd_app_data info), now)]> (nodes_seen b)) (stamp_costs b)) s)
  else if bool_decide (kd_name_hash info ≠ lxmf_delivery_name_hash) then mret s
  else
    shown ← lxmf_display_name W (kd_app_data info);
    let name := default (hex dest) shown in
    cost ← lxmf_stamp_cost W (kd_app_data info);
    let s := learn_peer now dest name cost s in
    let s := match contacts (book s) !! dest with
             | Some existing => save_to_contacts dest (if is_placeholder dest existing then name else existing) s
             | None => s
             end in
    let cached := ticket_pending (mail s) !! dest in
    let s := with_mail (set_ticket_pending (delete dest (ticket_pending (mail s))) (mail s)) s in
    s ← match cached with Some blob => verify_and_store_ticket now dest (kd_identity info) blob s | None => mret s end;
    let waiting := existsb (λ m, bool_decide (peer m = dest) && (attempts m =? 0) && bool_decide (in_flight m = None)) (a_outbox s) in
    let s := with_outbox (announce_outbox dest (stamp_costs (book s) !! dest) (a_outbox s)) s in
    if waiting : bool then pump now s else mret s.

(** ** Sending *)

(** [LxmfChat::post]; [*lt + 1] wraps. *)
Definition MARK_PENDING : bytes := [0xe2; 0x97; 0x8b].
Definition echo_ts (now : Z) (s : Shared) : Z := Z.max now ((last_ts (view s) + 1) mod 2 ^ 64).
Definition post (now : Z) (text : bytes) (s : Shared) : Shared :=
  match current_peer (view s) with
  | None => s
  | Some p =>
      let ts := echo_ts now s in
      let v := view s in
      let s := with_view (mkView (current_peer v) (prev_peer v) ts (chat_log v)) s in
      let s := to_chat [PostAdd SELF_AUTHOR ts (bubble_text text MARK_PENDING); DialogueSave] s in
      let held_ticket := tickets (mail s) !! p in
      let expired := match held_ticket with Some (e, _) => e <=? now | None => false end in
      let s := if expired then with_mail (set_tickets (delete p (tickets (mail s))) (mail s)) s else s in
      let tk := if expired then None else snd <$> held_ticket in
      let needs := match tk with Some _ => None | None => stamp_costs (book s) !! p end in
      let pk := Message.packed (pack (Transport.identity (tp (a_net s))) p our_dh (i64_as_f64 now) [] text [] tk) in
      let s := save_to_contacts p (name_of s p) s in
      with_outbox (enqueue_outbound now p ts text pk needs (bool_decide (is_Some tk)) (a_outbox s)) s
  end.
End inbound.
