(* ===== verification/InboundProps.v ===== *)
(** What the inbound path guarantees: no message is lost or shown twice, what is kept in memory
    is what is stored, tickets come from verified senders, and a text sent by one client is
    shown as it was written by the other. *)
From stdpp Require Import sorting.
From S2P Require Import Prelude Constants Crypto Packet Identity Link Msgpack Message ResourceWire Resource ResourceTransfer Tables Transport Outbox OutboxProps OutboxNet MicronPage Storage StorageProps Inbound.

(** The fields of a state. *)
Ltac app_simpl :=
  cbn [a_net book mail view store in_resources a_backchannels a_outbox contacts seen nodes_seen stamp_costs
    recent_msg_ids found_addrs tickets ticket_pending pending unread delivery_updates current_peer prev_peer last_ts chat_log
    d_contacts d_pending d_tickets d_delivery d_state with_net with_book with_mail with_view with_store with_resources with_backchannels with_outbox
    set_ids set_found set_tickets set_ticket_pending set_held set_updates set_d_contacts set_d_pending set_d_tickets set_d_delivery set_d_state
    to_chat see_ts tp draws wire sync_link_id with_tp fst snd].

(** ** The ledger of messages *)

(** What was posted to the chat, in order, and what is held. *)
Definition posts (log : list ChatMsg) : list (bytes * Z * bytes) :=
  omap (λ c, match c with PostAdd a t x => Some (a, t, x) | _ => None end) log.
Definition held_in (m : gmap bytes (list (bytes * Z * bytes))) : list (bytes * Z * bytes) := concat (map_to_list m).*2.
Definition entry (i : Incoming) : bytes * Z * bytes := (i_author i, i_ts i, i_text i).

Lemma posts_app a b : posts (a ++ b) = posts a ++ posts b.
Proof. apply omap_app. Qed.
Lemma held_insert_new m p l : m !! p = None → held_in (<[p := l]> m) ≡ₚ l ++ held_in m.
Proof. intros Hp. unfold held_in. by rewrite map_to_list_insert by done. Qed.
Lemma held_delete m p : held_in m ≡ₚ default [] (m !! p) ++ held_in (delete p m).
Proof.
  destruct (m !! p) as [l|] eqn:E; cbn [default].
  - rewrite <- held_insert_new by apply lookup_delete_eq. by rewrite insert_delete_id.
  - by rewrite delete_id.
Qed.
Lemma held_push m p x : held_in (<[p := default [] (m !! p) ++ [x]]> m) ≡ₚ x :: held_in m.
Proof.
  rewrite (held_delete m p). rewrite <- insert_delete_eq. rewrite held_insert_new by apply lookup_delete_eq.
  rewrite <- app_assoc. cbn [app]. by rewrite <- Permutation_middle.
Qed.
Lemma flush_posts_spec q s :
  flush_posts q s = with_view (mkView (current_peer (view s)) (prev_peer (view s)) (fold_left Z.max (q.*1.*2) (last_ts (view s)))
    (chat_log (view s) ++ ((λ m : bytes * Z * bytes, PostAdd m.1.1 m.1.2 m.2) <$> q))) s.
Proof.
  revert s. unfold flush_posts. induction q as [|m q IH]; intros s; cbn [fold_left fmap list_fmap].
  - rewrite app_nil_r. by destruct s as [? ? ? []].
  - rewrite IH. unfold to_chat, see_ts, with_view. cbn. by rewrite <- app_assoc.
Qed.
Lemma posts_flush q : posts ((λ m : bytes * Z * bytes, PostAdd m.1.1 m.1.2 m.2) <$> q) = q.
Proof. induction q as [|[[a t] x] q IH]; [done|]. cbn. f_equal. exact IH. Qed.

(** ** The invariant *)
Definition count (l : list (bytes * Z * bytes)) : Z := len_of l mod 2 ^ 32.
Definition found_stored (l : list (bytes * bytes * Z)) (d : gmap bytes bytes) : Prop :=
  d !! KEY_FOUND_ADDRS = if decide (l = []) then None else Some (flat_map found_record l).
Record mail_ok (s : Shared) : Prop := {
  ok_ids : (length (recent_msg_ids (mail s)) ≤ RECENT_IDS)%nat ∧ NoDup (recent_msg_ids (mail s));
  ok_found : (length (found_addrs (mail s)) ≤ MAX_FOUND_ADDRS)%nat ∧ NoDup (found_addrs (mail s)).*1.*1;
  ok_found_stored : found_stored (found_addrs (mail s)) (d_state (store s));
  ok_pending : represents serialize_pending (d_pending (store s)) (pending (mail s));
  ok_nonempty : map_Forall (λ _ l, l ≠ []) (pending (mail s));
  ok_unread : unread (mail s) = count <$> pending (mail s);
  ok_updates : represents (flat_map update_record) (d_delivery (store s)) (delivery_updates (mail s));
  ok_tickets : ∀ p t, tickets (mail s) !! p = Some t → address p ∧ d_tickets (store s) !! hex p = Some (ticket_value t);
  ok_contacts : ∀ p n, contacts (book s) !! p = Some n → address p ∧ ∃ k, d_contacts (store s) !! hex p = Some (contact_value (n, k));
  ok_cached : ∀ p blob, ticket_pending (mail s) !! p = Some blob → slice blob TRUNCATED_HASHLENGTH (2 * TRUNCATED_HASHLENGTH) = Ok p;
  ok_resources : (size (in_resources s) ≤ MAX_IN_RESOURCES)%nat;
  ok_peers : Forall (λ m, address (peer m)) (a_outbox s);
}.

(** What only touches the network, the book of announces or the order of the chat. *)
Definition same_mail (s s' : Shared) : Prop :=
  mail s' = mail s ∧ store s' = store s ∧ contacts (book s') = contacts (book s).
Lemma mail_ok_same s s' : same_mail s s' → (size (in_resources s') ≤ MAX_IN_RESOURCES)%nat → Forall (λ m, address (peer m)) (a_outbox s') →
  mail_ok s → mail_ok s'.
Proof. intros (E1 & E2 & E3) Hr Ho []. split; rewrite ?E1, ?E2, ?E3; auto. Qed.

Lemma store_other d s p q buf : address p → address q → p ≠ q → (d : gmap bytes bytes) !! hex p = s → rewrite_key (hex q) buf d !! hex p = s.
Proof.
  intros Hp Hq Hne E. unfold rewrite_key. assert (hex q ≠ hex p) by (intros Eh; apply Hne; symmetry; by apply hex_inj).
  by rewrite lookup_insert_ne, lookup_delete_ne.
Qed.
Lemma store_same d q buf : rewrite_key (hex q) buf d !! hex q = Some buf.
Proof. apply lookup_insert_eq. Qed.

Lemma update_mark_ok found p ts text st s : address p → mail_ok s → mail_ok (update_mark found p ts text st s).
Proof.
  intros Hp Hs. unfold update_mark. destruct found; [apply (mail_ok_same s); [done|apply Hs|apply Hs|done]|].
  destruct Hs. split; app_simpl; auto.
  pose proof (represents_persist (flat_map update_record) _ _ p (default [] (delivery_updates (mail s) !! p) ++ [(ts, text, st)]) ok_updates0 Hp) as HR.
  by destruct (default [] (delivery_updates (mail s) !! p)).
Qed.
Lemma apply_updates_ok p s : address p → mail_ok s → mail_ok (apply_delivery_updates p s).
Proof.
  intros Hp Hs. unfold apply_delivery_updates. destruct (delivery_updates (mail s) !! p) as [us|] eqn:E; [|done].
  destruct Hs. split; app_simpl; auto. by apply represents_delete.
Qed.
Lemma save_contact_ok `{C : Crypto} p n s : address p → mail_ok s → mail_ok (save_to_contacts p n s).
Proof.
  intros Hp Hs. unfold save_to_contacts, save_contact. destruct Hs.
  assert (∀ k q m, (<[p := n]> (contacts (book s))) !! q = Some m →
    address q ∧ ∃ k', rewrite_key (hex p) (contact_value (n, k)) (d_contacts (store s)) !! hex q = Some (contact_value (m, k'))) as HC.
  { intros k q m Hq. destruct (decide (q = p)) as [->|Hne].
    - rewrite lookup_insert_eq in Hq. injection Hq as <-. split; [done|]. exists k. apply store_same.
    - rewrite lookup_insert_ne in Hq by done. destruct (ok_contacts0 q m Hq) as (Ha & k' & E). split; [done|]. exists k'. by apply store_other. }
  destruct (known (tp (a_net s)) p); split; app_simpl; eauto; apply HC.
Qed.

(** ** The user's steps *)
Lemma represents_gone {V} (ser : V → bytes) d m p : represents ser d m → address p → m !! p = None → delete (hex p) d = d ∧ delete p m = m.
Proof.
  intros [H1 H2] Hp E. split; [|by apply delete_id]. apply delete_id. destruct (d !! hex p) as [b|] eqn:Eb; [|done].
  destruct (H2 _ _ Eb) as (q & v & Eh & Hq). destruct (H1 q v Hq) as [Ha _]. apply hex_inj in Eh; [|done|done]. congruence.
Qed.
Lemma found_other l key v d : key ≠ KEY_FOUND_ADDRS → found_stored l d → found_stored l (write_string key v d).
Proof. intros Hk E. unfold found_stored, write_string, rewrite_key in *. by rewrite lookup_insert_ne, lookup_delete_ne. Qed.
Lemma activate_spec addr s : ∃ v d,
  activate_peer addr s = apply_delivery_updates addr (mkShared (a_net s) (book s)
    (set_held (delete addr (pending (mail s))) (delete addr (unread (mail s))) (mail s)) v
    (mkStore (d_contacts (store s)) d (d_tickets (store s)) (d_delivery (store s)) (write_string KEY_PEER (hex addr) (d_state (store s))))
    (in_resources s) (a_backchannels s) (a_outbox s)) ∧
  d = (if bool_decide (default [] (pending (mail s) !! addr) = []) then d_pending (store s) else delete_pending addr (d_pending (store s))) ∧
  current_peer v = Some addr ∧ (prev_peer v = current_peer (view s) ∨ prev_peer v = prev_peer (view s)) ∧
  posts (chat_log v) = posts (chat_log (view s)) ++ default [] (pending (mail s) !! addr).
Proof.
  unfold activate_peer. cbv zeta. rewrite flush_posts_spec. app_simpl. generalize (apply_delivery_updates addr) as f. intros f.
  generalize (write_string KEY_PEER (hex addr)) as w. intros w. generalize (delete_pending addr) as dp. intros dp. generalize (hex addr) as h. intros h.
  destruct s as [n b m v st r bc o]. destruct v as [cur prev lt log]. destruct st as [st1 st2 st3 st4 st5]. destruct m as [m1 m2 m3 m4 m5 m6 m7].
  app_simpl. generalize (default [] (m5 !! addr)) as q. intros q.
  case_bool_decide as Hq; eexists _, _; (split; [reflexivity|]); (split; [reflexivity|]); (split; [reflexivity|]);
    (split; [app_simpl; destruct (bool_decide _); [by left|by right]|]); app_simpl;
    rewrite !posts_app, posts_flush; cbn [posts omap list_omap app]; rewrite ?app_nil_r; done.
Qed.
Lemma apply_updates_posts p s : posts (chat_log (view (apply_delivery_updates p s))) = posts (chat_log (view s)) ∧
  pending (mail (apply_delivery_updates p s)) = pending (mail s) ∧ current_peer (view (apply_delivery_updates p s)) = current_peer (view s) ∧
  prev_peer (view (apply_delivery_updates p s)) = prev_peer (view s).
Proof.
  unfold apply_delivery_updates. destruct (_ !! p) as [us|]; [|done]. app_simpl. rewrite !posts_app. cbn [posts omap list_omap app]. rewrite app_nil_r. split; [|done].
  assert (posts ((λ u : Z * bytes * Z, PostUpdate SELF_AUTHOR u.1.1 (bubble_text u.1.2 (status_mark u.2))) <$> us) = []) as ->; [|by rewrite app_nil_r].
  induction us; [done|]. done.
Qed.
Lemma activate_ok addr s : address addr → mail_ok s → mail_ok (activate_peer addr s).
Proof.
  intros Ha Hs. destruct (activate_spec addr s) as (v & d & -> & -> & _). apply apply_updates_ok; [done|]. destruct Hs. split; app_simpl; auto.
  - by apply found_other.
  - destruct (pending (mail s) !! addr) as [l|] eqn:E.
    + change (default [] (Some l)) with l. rewrite bool_decide_eq_false_2 by (by apply (ok_nonempty0 addr)). by apply represents_delete.
    + change (default [] None) with (@nil (bytes * Z * bytes)). rewrite bool_decide_eq_true_2 by done. by rewrite delete_id.
  - by apply map_Forall_delete.
  - rewrite ok_unread0. by rewrite fmap_delete.
Qed.
Lemma clear_ok s : (∀ p, current_peer (view s) = Some p → address p) → mail_ok s → mail_ok (clear_history s).
Proof.
  intros Hc Hs. unfold clear_history. destruct (current_peer (view s)) as [p|] eqn:E; [|by apply (mail_ok_same s); [..|apply Hs|apply Hs|]].
  pose proof (Hc p eq_refl) as Hp. destruct Hs. split; app_simpl; auto.
  - by apply represents_delete.
  - by apply map_Forall_delete.
  - rewrite ok_unread0. by rewrite fmap_delete.
  - by apply represents_delete.
  - unfold clear_peer. rewrite Forall_forall in *. intros m [_ Hm]%list_elem_of_filter. auto.
Qed.

(** ** The delivery of a message *)

(** What leaves the conversations as they are. *)
Definition same_inbox (s s' : Shared) : Prop := view s' = view s ∧ pending (mail s') = pending (mail s).
Lemma same_inbox_trans s1 s2 s3 : same_inbox s1 s2 → same_inbox s2 s3 → same_inbox s1 s3.
Proof. intros [E1 E2] [E3 E4]. split; congruence. Qed.

Lemma store_ticket_ok now src t s : address src → mail_ok s → mail_ok (store_ticket now src t s) ∧ same_inbox s (store_ticket now src t s).
Proof.
  intros Ha Hs. unfold store_ticket. destruct (expires t <=? now); [done|]. destruct (match _ with Some _ => _ | None => _ end); [|done].
  split; [|done]. destruct Hs. split; app_simpl; auto.
  intros q tk Hq. destruct (decide (q = src)) as [->|Hne].
  - rewrite lookup_insert_eq in Hq. injection Hq as <-. split; [done|]. apply store_same.
  - rewrite lookup_insert_ne in Hq by done. destruct (ok_tickets0 q tk Hq) as [Hq1 Hq2]. split; [done|]. by apply store_other.
Qed.
Lemma set_ticket_pending_ok m s : (∀ p blob, m !! p = Some blob → slice blob TRUNCATED_HASHLENGTH (2 * TRUNCATED_HASHLENGTH) = Ok p) →
  mail_ok s → mail_ok (with_mail (set_ticket_pending m (mail s)) s) ∧ same_inbox s (with_mail (set_ticket_pending m (mail s)) s).
Proof. intros Hm Hs. split; [|done]. destruct Hs. split; app_simpl; auto. Qed.
Lemma take_ticket_ok now src blob m s : address src → slice blob TRUNCATED_HASHLENGTH (2 * TRUNCATED_HASHLENGTH) = Ok src → mail_ok s → mail_ok (take_ticket now src blob m s) ∧ same_inbox s (take_ticket now src blob m s).
Proof.
  intros Ha Hb Hs. unfold take_ticket. destruct (extract_ticket _) as [t|]; [|done].
  destruct (p_signature_validated m); [by apply store_ticket_ok|]. apply set_ticket_pending_ok; [|done].
  intros q b [[<- <-]|[_ Hq]]%lookup_insert_Some; [done|by apply Hs].
Qed.

Lemma add_found_nodup author now l a : NoDup l.*1.*1 → NoDup (add_found author now l a).*1.*1.
Proof.
  intros Hl. unfold add_found. destruct (existsb _ l) eqn:E; [done|]. rewrite !fmap_app. cbn [fmap list_fmap fst]. apply NoDup_app. split; [done|].
  split; [|apply NoDup_singleton]. intros b Hb ->%list_elem_of_singleton.
  apply list_elem_of_fmap in Hb as ([b c] & -> & Hb). apply list_elem_of_fmap in Hb as ([[b' c'] t] & Eb & Hb). cbn in Eb. injection Eb as -> ->.
  assert (existsb (λ f : bytes * bytes * Z, bool_decide (f.1.1 = b')) l = true) as Ht; [|cbn in E; congruence].
  apply existsb_exists. exists (b', c', t). split; [by apply list_elem_of_In|]. by apply bool_decide_eq_true.
Qed.
Lemma add_all_nodup author now fresh l : NoDup l.*1.*1 → NoDup (fold_left (add_found author now) fresh l).*1.*1.
Proof. revert l. induction fresh as [|a fresh IH]; intros l Hl; [done|]. apply IH. by apply add_found_nodup. Qed.
Lemma NoDup_drop {A} n (l : list A) : NoDup l → NoDup (drop n l).
Proof. intros Hl. rewrite <- (take_drop n l) in Hl. by apply NoDup_app in Hl as (_ & _ & ?). Qed.
Lemma found_persisted l d : found_stored l (persist_found_addrs l d).
Proof.
  unfold found_stored, persist_found_addrs. destruct l as [|f l]; [by rewrite decide_True, decide_True, lookup_delete_eq|].
  rewrite !decide_False by done. apply lookup_insert_eq.
Qed.
Lemma note_addresses_ok our now src author text s s' : note_addresses our now src author text s = Ok s' → mail_ok s → mail_ok s' ∧ same_inbox s s'.
Proof.
  intros H Hs. apply res_bind_ok in H as (addrs & _ & H). apply Ok_inj in H as <-. destruct (List.filter _ addrs) as [|a fresh]; [done|].
  split; [|done]. destruct Hs. split; app_simpl; auto.
  - split; [rewrite length_drop; lia|]. rewrite !fmap_drop. apply NoDup_drop. by apply add_all_nodup, ok_found0.
  - apply found_persisted.
Qed.
Lemma remember_id_ok id ids : (length ids ≤ RECENT_IDS)%nat → NoDup ids → id ∉ ids →
  (length (remember_id id ids) ≤ RECENT_IDS)%nat ∧ NoDup (remember_id id ids) ∧ id ∈ remember_id id ids.
Proof.
  intros Hl Hn Hi. unfold remember_id. assert (NoDup (ids ++ [id])) as Hn'.
  { apply NoDup_app. split; [done|]. split; [|apply NoDup_singleton]. by intros x Hx ->%list_elem_of_singleton. }
  destruct (Nat.ltb_spec RECENT_IDS (length (ids ++ [id]))) as [Hlt|Hge].
  - rewrite length_drop. rewrite length_app in Hlt |- *. cbn [length] in Hlt |- *. split; [lia|]. split; [by apply NoDup_drop|].
    destruct ids as [|i ids]; [unfold RECENT_IDS in Hlt; cbn in Hlt; lia|]. cbn [app drop]. rewrite drop_0. apply elem_of_app. right. by apply list_elem_of_singleton.
  - split; [done|]. split; [done|]. apply elem_of_app. right. by apply list_elem_of_singleton.
Qed.
Lemma save_contact_inbox `{C : Crypto} p n s : same_inbox s (save_to_contacts p n s).
Proof. unfold save_to_contacts, save_contact. by destruct (known _ p). Qed.
Lemma blob_source blob src : bytes_ok blob → slice blob TRUNCATED_HASHLENGTH (2 * TRUNCATED_HASHLENGTH) = Ok src → address src.
Proof.
  intros Hb H. unfold slice in H. case_decide as Hd; [|done]. apply Ok_inj in H as <-. split.
  - apply bytes_ok_take. by apply bytes_ok_drop.
  - rewrite length_take, length_drop. unfold TRUNCATED_HASHLENGTH in *. lia.
Qed.

Section delivery.
Context `{C : Crypto} (W : Z).
Context (rand : nat → nat → bytes) (hub_ok auto_ok : nat → bool) (our_dh : bytes).
Abbreviation receive := (deliver_receive W rand hub_ok auto_ok our_dh).

Lemma net_ok_same n s : mail_ok s → mail_ok (with_net n s).
Proof. intros Hs. apply (mail_ok_same s); [done|apply Hs|apply Hs|done]. Qed.
Lemma request_key_spec p s s' : request_key rand hub_ok auto_ok p s = Ok s' → ∃ n, s' = with_net n s ∧ tp n = tp (a_net s).
Proof.
  intros H. apply res_bind_ok in H as ([b n] & H & E). apply Ok_inj in E as <-. exists n. split; [done|].
  unfold request_peer_key in H. cbn [fill_random] in H. apply res_bind_ok in H as (raw & _ & H). apply Ok_inj in H. by injection H as _ <-.
Qed.
(** The steps of the reception, when there is a message to show. *)
Lemma receive_spec now live blob s o s' : receive now live blob s = Ok (o, s') →
  (o = None ∧ ∃ n, s' = with_net n s) ∨
  ∃ src n m s1, slice blob TRUNCATED_HASHLENGTH (2 * TRUNCATED_HASHLENGTH) = Ok src ∧ tp n = tp (a_net s) ∧
    parse W blob (kd_identity <$> known (tp (a_net s)) src) = Ok m ∧ p_message_id m ∉ recent_msg_ids (mail s) ∧
    let s0 := with_mail (set_ids (remember_id (p_message_id m) (recent_msg_ids (mail s))) (mail s)) (with_net n s) in
    note_addresses our_dh now src (name_of s src) (shown_text live m) (save_to_contacts src (name_of s src) s0) = Ok s1 ∧
    s' = take_ticket now src blob m s1 ∧
    o = Some (mkIncoming src (name_of s src) (f64_to_u64 (p_timestamp m)) (shown_text live m) (current_peer (view s'))).
Proof.
  unfold deliver_receive. case_decide as Hd; [intros H; apply Ok_inj in H; injection H as <- <-; left; split; [done|]; exists (a_net s); by destruct s|].
  intros (src & Hsrc & H)%res_bind_ok. apply res_bind_ok in H as (s0 & H0 & H).
  assert (∃ n, s0 = with_net n s ∧ tp n = tp (a_net s)) as (n & -> & Hn).
  { case_bool_decide; [by eapply request_key_spec|]. apply Ok_inj in H0 as <-. exists (a_net s). by destruct s. }
  apply res_bind_ok in H as (om & Hm & H). destruct om as [m|]; [|apply Ok_inj in H; injection H as <- <-; left; split; [done|by eexists]].
  destruct (bool_decide (p_message_id m ∈ _)) eqn:Hid; [apply Ok_inj in H; injection H as <- <-; left; split; [done|by eexists]|].
  apply bool_decide_eq_false in Hid.
  apply res_bind_ok in H as (s1 & H1 & H). apply Ok_inj in H. injection H as <- <-. right. exists src, n, m, s1.
  split; [done|]. split; [done|]. split; [by destruct (parse W blob _); [injection Hm as ->| |]|]. by split.
Qed.
Lemma receive_ok now live blob s o s' : bytes_ok blob → receive now live blob s = Ok (o, s') → mail_ok s →
  mail_ok s' ∧ same_inbox s s' ∧ a_outbox s' = a_outbox s ∧ ∀ i, o = Some i → address (i_src i) ∧ i_active i = current_peer (view s').
Proof.
  intros Hb H Hs. apply receive_spec in H as [(-> & n & ->)|(src & n & m & s1 & Hsrc & _ & _ & Hid & H1 & -> & ->)].
  - split; [by apply net_ok_same|]. by split_and!.
  - pose proof (blob_source _ _ Hb Hsrc) as Ha. set (s0 := with_mail _ (with_net n s)) in *.
    assert (mail_ok s0) as K0.
    { apply (net_ok_same n) in Hs. destruct Hs as [[]]. destruct (remember_id_ok (p_message_id m) (recent_msg_ids (mail s))) as (L1 & L2 & _); [done..|].
      split; app_simpl; auto. }
    apply (save_contact_ok src (name_of s src)) in K0; [|done].
    destruct (note_addresses_ok _ _ _ _ _ _ _ H1 K0) as [K1 E1]. destruct (take_ticket_ok now src blob m s1 Ha Hsrc K1) as [K2 E2].
    split; [done|]. split.
    { eapply same_inbox_trans; [|exact E2]. eapply same_inbox_trans; [|exact E1]. eapply same_inbox_trans; [|apply save_contact_inbox]. done. }
    split; [|intros i [= <-]; done].
    assert (a_outbox s1 = a_outbox s) as <-.
    { apply res_bind_ok in H1 as (ad & _ & H1). apply Ok_inj in H1 as <-. unfold save_to_contacts, save_contact.
      destruct (known _ src); by destruct (List.filter _ ad). }
    unfold take_ticket, store_ticket. destruct (extract_ticket _); [|done]. destruct (p_signature_validated m); [|done].
    destruct (_ <=? _); [done|]. by destruct (match _ with Some _ => _ | None => _ end).
Qed.
Lemma show_ok i s : address (i_src i) → mail_ok s → mail_ok (deliver_show i s) ∧ a_outbox (deliver_show i s) = a_outbox s ∧
  posts (chat_log (view (deliver_show i s))) ++ held_in (pending (mail (deliver_show i s))) ≡ₚ
    entry i :: posts (chat_log (view s)) ++ held_in (pending (mail s)).
Proof.
  intros Ha Hs. unfold deliver_show. case_bool_decide as Hact.
  - split; [apply (mail_ok_same s); [done|apply Hs|apply Hs|done]|]. split; [done|]. app_simpl. rewrite posts_app. cbn [posts omap list_omap app].
    rewrite <- app_assoc. cbn [app]. by rewrite <- Permutation_middle.
  - split; [|split; [done|]]; app_simpl; [|rewrite held_push; by rewrite <- Permutation_middle].
    destruct Hs. split; app_simpl; auto.
    + pose proof (represents_persist serialize_pending _ _ (i_src i) (default [] (pending (mail s) !! i_src i) ++ [(i_author i, i_ts i, i_text i)]) ok_pending0 Ha) as HR.
      by destruct (default [] (pending (mail s) !! i_src i)).
    + apply map_Forall_insert_2; [|done]. by intros [_ ?]%app_eq_nil.
    + rewrite ok_unread0, fmap_insert. f_equal. rewrite lookup_fmap. unfold count, len_of. rewrite length_app. cbn [length].
      destruct (pending (mail s) !! i_src i) as [l|]; [|done].
      change (default [] (Some l)) with l. cbn [fmap option_fmap option_map from_option]. unfold id. rewrite Zplus_mod_idemp_l. f_equal. lia.
Qed.
End delivery.

(** ** Steps that neither receive nor show a message *)
Definition still (s s' : Shared) : Prop :=
  (mail_ok s → mail_ok s') ∧ posts (chat_log (view s')) = posts (chat_log (view s)) ∧ pending (mail s') = pending (mail s) ∧
  current_peer (view s') = current_peer (view s) ∧ prev_peer (view s') = prev_peer (view s) ∧
  tickets (mail s') = tickets (mail s) ∧ contacts (book s') = contacts (book s).
Lemma still_refl s : still s s.
Proof. done. Qed.
Lemma still_trans s1 s2 s3 : still s1 s2 → still s2 s3 → still s1 s3.
Proof. intros (A1 & A2 & A3 & A4 & A5 & A6 & A7) (B1 & B2 & B3 & B4 & B5 & B6 & B7). split; [auto|]. split_and!; congruence. Qed.
Lemma still_net n s : still s (with_net n s).
Proof. split; [apply net_ok_same|done]. Qed.
Lemma still_backchannels b s : still s (with_backchannels b s).
Proof. split; [|done]. intros Hs. apply (mail_ok_same s); [done|apply Hs|apply Hs|done]. Qed.
Lemma still_resources r s : (size (in_resources s) ≤ MAX_IN_RESOURCES → size r ≤ MAX_IN_RESOURCES)%nat → still s (with_resources r s).
Proof. intros Hr. split; [|done]. intros Hs. apply (mail_ok_same s); [done|apply Hr, Hs|apply Hs|done]. Qed.
Lemma still_outbox o s : (Forall (λ m, address (peer m)) (a_outbox s) → Forall (λ m, address (peer m)) o) → still s (with_outbox o s).
Proof. intros Ho. split; [|done]. intros Hs. apply (mail_ok_same s); [done|apply Hs|apply Ho, Hs|done]. Qed.
Lemma still_update_mark found p ts text st s : address p → still s (update_mark found p ts text st s).
Proof.
  intros Hp. split; [by apply update_mark_ok|]. unfold update_mark. destruct found; app_simpl; rewrite !posts_app; cbn [posts omap list_omap app]; by rewrite !app_nil_r.
Qed.

(** The same, where tickets may be learnt. *)
Definition calm (s s' : Shared) : Prop :=
  (mail_ok s → mail_ok s') ∧ posts (chat_log (view s')) = posts (chat_log (view s)) ∧ pending (mail s') = pending (mail s) ∧
  current_peer (view s') = current_peer (view s) ∧ prev_peer (view s') = prev_peer (view s).
Lemma calm_trans s1 s2 s3 : calm s1 s2 → calm s2 s3 → calm s1 s3.
Proof. intros (A1 & A2 & A3 & A4 & A5) (B1 & B2 & B3 & B4 & B5). split; [auto|]. split_and!; congruence. Qed.
Lemma still_calm s s' : still s s' → calm s s'.
Proof. intros (A1 & A2 & A3 & A4 & A5 & _). by split_and!. Qed.
Lemma calm_refl s : calm s s.
Proof. apply still_calm, still_refl. Qed.
Lemma calm_inbox s s' : (mail_ok s → mail_ok s') → same_inbox s s' → calm s s'.
Proof. intros Hm [E1 E2]. split; [done|]. by rewrite E1, E2. Qed.

(** A receiver more: room is made for it. *)
Lemma sorted_keys_nil {V} (m : gmap bytes V) : sorted_keys m = [] → m = ∅.
Proof.
  intros E. apply map_to_list_empty_iff. assert ((map_to_list m).*1 = []) as E2; [|by destruct (map_to_list m)].
  apply Permutation_nil. rewrite <- E. apply merge_sort_Permutation.
Qed.
Lemma make_room_size {V} (fuel : nat) (lid : bytes) (m : gmap bytes V) : m !! lid = None → (size m ≤ MAX_IN_RESOURCES)%nat → (size m ≤ fuel)%nat →
  (size (make_room fuel lid m) < MAX_IN_RESOURCES)%nat.
Proof.
  revert m. induction fuel as [|fuel IH]; intros m Hl Hm Hf; cbn [make_room]; [unfold MAX_IN_RESOURCES; lia|].
  rewrite (bool_decide_eq_true_2 _ Hl), andb_true_r. destruct (Nat.leb_spec MAX_IN_RESOURCES (size m)) as [Hle|Hlt]; [|done].
  destruct (sorted_keys m) as [|k ks] eqn:E.
  - apply sorted_keys_nil in E as ->. rewrite map_size_empty in Hle. unfold MAX_IN_RESOURCES in Hle. lia.
  - assert (k ∈ (map_to_list m).*1) as Hk by (rewrite <- (merge_sort_Permutation key_le); change (k ∈ sorted_keys m); rewrite E; left).
    apply list_elem_of_fmap in Hk as ([k' v] & -> & Hk). apply elem_of_map_to_list in Hk. cbn [fst].
    assert (size (delete k' m) = size m - 1)%nat as Hs by (rewrite map_size_delete; rewrite Hk; lia).
    apply IH; [by rewrite lookup_delete_None; right|lia|lia].
Qed.
Lemma insert_receiver_size (lid : bytes) rx m : (size m ≤ MAX_IN_RESOURCES)%nat → (size (insert_receiver lid rx m) ≤ MAX_IN_RESOURCES)%nat.
Proof.
  intros Hm. unfold insert_receiver. destruct (m !! lid) as [r|] eqn:E.
  - assert (make_room (size m) lid m = m) as -> by (destruct (size m); [done|]; cbn [make_room]; rewrite E; by rewrite andb_false_r).
    rewrite map_size_insert_Some; [done|by eexists].
  - pose proof (make_room_size (size m) lid m E Hm (le_n _)) as Hr. rewrite map_size_insert. destruct (make_room _ _ _ !! lid); unfold id; lia.
Qed.

(** The pump never changes whose message it is. *)
Definition verdict_msg (v : verdict) : OutboundMsg := match v with Keep m | Failed m _ | Again m => m end.
Ltac outcome_cases H :=
  repeat match type of H with
  | Ok _ = Ok _ => apply Ok_inj in H; injection H as <- <-
  | mret _ = Ok _ => rewrite mret_Ok in H
  | (_ ≫= _) = Ok _ => let r := fresh "r" in let E := fresh "E" in apply res_bind_ok in H as (r & E & H); destruct r
  | (let '(_, _) := ?e in _) = Ok _ => destruct e
  | (match ?e with _ => _ end) = Ok _ => destruct e
  | Err _ = Ok _ => discriminate H
  | Panic = Ok _ => discriminate H
  end; cbv beta iota zeta in *.
Section peers.
Context `{N : NetOps}.
Lemma pump_send_peer pn now m s v s' : pump_send pn now m s = Ok (v, s') → peer (verdict_msg v) = peer m.
Proof.
  unfold pump_send, pump_pn, pump_direct, pump_establish. intros H. outcome_cases H; try done; cbn [verdict_msg]; repeat case_match; done.
Qed.
Lemma pump_one_peer pn now m s v s' : pump_one pn now m s = Ok (v, s') → peer (verdict_msg v) = peer m.
Proof.
  unfold pump_one. intros H. outcome_cases H; try done; apply pump_send_peer in H; done.
Qed.
Lemma pump_msg_peer fuel pn now m s v s' : pump_msg fuel pn now m s = Ok (v, s') → peer (verdict_msg v) = peer m.
Proof.
  revert m s. induction fuel as [|fuel IH]; intros m s H; [done|]. cbn [pump_msg] in H. apply res_bind_ok in H as ([v1 s1] & H1 & H).
  apply pump_one_peer in H1. destruct v1 as [m1|m1 w|m1]; [by apply Ok_inj in H; injection H as <- <-..|]. apply IH in H. cbn in H1. congruence.
Qed.
Lemma pump_outbox_peers (P : bytes → Prop) pn now o s kept failures s' : pump_outbox pn now o s = Ok (kept, failures, s') →
  Forall (λ m, P (peer m)) o → Forall (λ m, P (peer m)) kept ∧ Forall (λ f, P (peer f.1)) failures.
Proof.
  revert s kept failures s'. induction o as [|m o IH]; intros s kept failures s' H Ho; cbn [pump_outbox] in H.
  - apply Ok_inj in H. injection H as <- <- <-. by split.
  - apply Forall_cons in Ho as [Hm Ho]. apply res_bind_ok in H as ([v s1] & H1 & H). apply res_bind_ok in H as ([[k f] s2] & H2 & H).
    apply pump_msg_peer in H1. destruct (IH _ _ _ _ H2 Ho) as [Hk Hf].
    destruct v as [m1|m1 w|m1]; [..|done]; apply Ok_inj in H; injection H as <- <- <-; cbn in H1; (split; [|]); try done; constructor; cbn; congruence.
Qed.
End peers.

Section handlers.
Context `{C : Crypto} `{I : HashIter} `{B : Bz2} (W : Z).
Context (rand : nat → nat → bytes) (hub_ok auto_ok : nat → bool) (our_dh : bytes) (pn : option bytes) (chat_has : list ChatMsg → Z → bool).

Lemma broadcast_made_still made s s' : broadcast_made hub_ok auto_ok made s = Ok s' → still s s' ∧ in_resources s' = in_resources s.
Proof. intros (o & _ & H)%res_bind_ok. apply Ok_inj in H as <-. destruct o; [|done]. split; [apply still_net|done]. Qed.
Lemma request_still e lid req s s' : send_resource_request rand hub_ok auto_ok e lid req s = Ok s' → still s s' ∧ in_resources s' = in_resources s.
Proof.
  unfold send_resource_request. destruct req as [req|]; [|intros H; by apply Ok_inj in H as <-]. cbn [fill_random].
  intros H. apply broadcast_made_still in H as [H E]. split; [|exact E]. eapply still_trans; [|exact H]. apply still_net.
Qed.
Lemma complete_still e lid s o s' : resource_complete hub_ok auto_ok e lid s = Ok (o, s') → still s s'.
Proof.
  unfold resource_complete. destruct (in_resources s !! lid) as [rx|]; [|intros H; apply Ok_inj in H; by injection H as _ <-].
  assert (still s (with_resources (delete lid (in_resources s)) s)) as Hc.
  { apply still_resources. intros Hr. etrans; [|exact Hr]. apply map_subseteq_size, delete_subseteq. }
  intros (plain & _ & H)%res_bind_ok. destruct plain as [plain|]; [|apply Ok_inj in H; by injection H as _ <-].
  apply res_bind_ok in H as (r & _ & H). destruct r as [[payload proof]|]; [|apply Ok_inj in H; by injection H as _ <-].
  apply res_bind_ok in H as (s1 & H1 & H). apply Ok_inj in H. injection H as _ <-. eapply still_trans; [exact Hc|]. by eapply broadcast_made_still.
Qed.
Lemma on_resource_still e lid ctx pt s o s' : on_resource W rand hub_ok auto_ok e lid ctx pt s = Ok (o, s') → still s s'.
Proof.
  unfold on_resource. destruct (ctx =? _); [|destruct (ctx =? _); [|destruct (ctx =? _); [|intros H; apply Ok_inj in H; by injection H as _ <-]]].
  - unfold resource_advertised. intros H. destruct (res_ok (accept W pt)) as [[rx|]| |]; cbn [mbind res_bind] in H; [|apply Ok_inj in H; by injection H as _ <-|done..].
    destruct (next_request rx) as [[req rx']| |]; [|done..]. cbn [mbind res_bind] in H.
    destruct (send_resource_request _ _ _ _ _ _ _) as [s1| |] eqn:E; [|done..]. apply Ok_inj in H. injection H as _ <-.
    apply request_still in E as [E _]. eapply still_trans; [|exact E]. apply still_resources. apply insert_receiver_size.
  - unfold resource_part. destruct (in_resources s !! lid) as [rx|] eqn:Er; [|intros H; apply Ok_inj in H; by injection H as _ <-].
    intros ([req rx'] & _ & H)%res_bind_ok. apply res_bind_ok in H as (s1 & H1 & H). apply request_still in H1 as [H1 _].
    assert (still s s1) as Hc.
    { eapply still_trans; [|exact H1]. apply still_resources. rewrite map_size_insert_Some; [done|by eexists]. }
    destruct (is_complete rx'); [eapply still_trans; [exact Hc|by eapply complete_still]|]. apply Ok_inj in H. by injection H as _ <-.
  - unfold resource_hmu. destruct (in_resources s !! lid) as [rx|] eqn:Er; [|intros H; apply Ok_inj in H; by injection H as _ <-].
    intros H. destruct (on_hmu W rx pt) as [[req rx']| |]; [|done..]. cbn [mbind res_bind] in H.
    destruct (send_resource_request _ _ _ _ _ _ _) as [s1| |] eqn:E; [|done..]. apply Ok_inj in H. injection H as _ <-.
    apply request_still in E as [E _]. eapply still_trans; [|exact E]. apply still_resources. rewrite map_size_insert_Some; [done|by eexists].
Qed.
Lemma serve_still lid pt s s' : serve_resource rand hub_ok auto_ok lid pt s = Ok s' → still s s'.
Proof.
  unfold serve_resource. cbn [fill_random]. intros (ps & _ & H)%res_bind_ok. apply Ok_inj in H as <-.
  match goal with |- still s (fold_left _ _ (with_net ?n s)) => eapply still_trans; [apply (still_net n)|]; generalize (with_net n s) end.
  clear s. induction ps as [|p ps IH]; intros s; [apply still_refl|]. cbn [fold_left]. eapply still_trans; [apply still_net|apply IH].
Qed.
Lemma closed_still lid s : still s (on_in_link_closed lid s).
Proof.
  unfold on_in_link_closed. eapply still_trans; [apply still_backchannels|]. apply still_resources. intros Hr. etrans; [|exact Hr].
  apply map_subseteq_size, delete_subseteq.
Qed.
Lemma lost_still s : still s (links_lost s).
Proof. eapply still_trans; [|apply still_backchannels]. apply still_resources. rewrite map_size_empty. lia. Qed.
Lemma keepalive_still now lid reply s : still s (on_keepalive hub_ok auto_ok now lid reply s).
Proof. eapply still_trans; [apply still_net|apply still_backchannels]. Qed.
Lemma fail_marks_still failures s : Forall (λ f, address (peer f.1)) failures → still s (fail_marks chat_has failures s).
Proof.
  revert s. induction failures as [|f fs IH]; intros s Hf; [apply still_refl|]. apply Forall_cons in Hf as [Hf Hfs].
  cbn [fail_marks fold_left]. eapply still_trans; [by apply still_update_mark|]. by apply IH.
Qed.
Lemma pump_still now s s' : pump rand hub_ok auto_ok pn chat_has now s = Ok s' → mail_ok s → still s s'.
Proof.
  intros H Hs. apply res_bind_ok in H as ([[kept failures] p] & H & E). apply Ok_inj in E as <-.
  destruct (pump_outbox_peers address _ _ _ _ _ _ _ H) as [Hk Hf]; [apply Hs|].
  eapply still_trans; [|by apply fail_marks_still]. eapply still_trans; [|by apply still_outbox]. eapply still_trans; [|apply still_backchannels]. apply still_net.
Qed.
Lemma identified_still now lid id s s' : on_link_identified rand hub_ok auto_ok pn chat_has now lid id s = Ok s' → mail_ok s → still s s'.
Proof.
  unfold on_link_identified. intros H Hs. cbv zeta in H. match type of H with pump _ _ _ _ _ _ (with_backchannels ?b ?s1) = _ => assert (still s (with_backchannels b s1)) as Hc2 end.
  { eapply still_trans; [|apply still_backchannels]. destruct (known _ _); [apply still_refl|apply still_net]. }
  eapply still_trans; [exact Hc2|]. eapply pump_still; [exact H|]. by apply Hc2.
Qed.
Lemma delivered_still h s : mail_ok s → still s (on_delivered chat_has h s).
Proof.
  intros Hs. unfold on_delivered. pose proof (ok_peers _ Hs) as Hp.
  assert (∀ o, Forall (λ m, address (peer m)) o → Forall (λ m, address (peer m)) (mark_delivered h o).2 ∧
    match (mark_delivered h o).1 with Some (m, _) => address (peer m) | None => True end) as HM.
  { induction o as [|m o IH]; intros Ho; [done|]. apply Forall_cons in Ho as [Hm Ho]. cbn [mark_delivered]. case_bool_decide; [done|].
    destruct (IH Ho) as [I1 I2]. destruct (mark_delivered h o) as [r o']. cbn in *. split; [by constructor|done]. }
  destruct (HM _ Hp) as [H1 H2]. destruct (mark_delivered h (a_outbox s)) as [[[m st]|] o]; cbn in H1, H2.
  - eapply still_trans; [by apply (still_outbox o)|]. by apply still_update_mark.
  - by apply still_outbox.
Qed.
Lemma verify_ticket_calm now src id blob s s' : address src → verify_and_store_ticket W now src id blob s = Ok s' → mail_ok s → calm s s'.
Proof.
  intros Ha (m & _ & H)%res_bind_ok Hs. apply Ok_inj in H as <-. destruct m as [m|]; [|apply calm_refl]. destruct (p_signature_validated m); [|apply calm_refl].
  destruct (extract_ticket _) as [t|]; [|apply calm_refl]. destruct (store_ticket_ok now src t s Ha Hs). by apply calm_inbox.
Qed.
Lemma announce_calm now dest info s s' : address dest → on_announce W rand hub_ok auto_ok our_dh pn chat_has now dest info s = Ok s' →
  mail_ok s → calm s s'.
Proof.
  intros Ha H Hs. unfold on_announce in H. destruct (bool_decide _); [apply Ok_inj in H as <-; apply calm_refl|].
  assert (∀ b, contacts b = contacts (book s) → calm s (with_book b s)) as Hb.
  { intros b Eb. split; [|done]. intros K. by apply (mail_ok_same s); [..|apply K|apply K|]. }
  destruct (bool_decide _); [apply Ok_inj in H as <-; by apply Hb|]. destruct (bool_decide _); [apply Ok_inj in H as <-; apply calm_refl|].
  apply res_bind_ok in H as (shown & _ & H). apply res_bind_ok in H as (cost & _ & H). cbv zeta in H. set (s1 := learn_peer _ _ _ _ s) in *.
  assert (calm s s1) as C1 by (by apply Hb).
  match type of H with context [ticket_pending (mail ?x) !! dest] => set (s2 := x) in * end.
  assert (calm s s2) as C2.
  { eapply calm_trans; [exact C1|]. unfold s2. destruct (contacts (book s1) !! dest); [|apply calm_refl].
    apply calm_inbox; [by apply save_contact_ok|apply save_contact_inbox]. }
  apply res_bind_ok in H as (s4 & H4 & H). set (s3 := with_mail _ s2) in *.
  assert (calm s s3) as C3 by (eapply calm_trans; [exact C2|]; apply calm_inbox; [|done]; intros K; apply set_ticket_pending_ok; [|done]; intros q b [_ Hq]%lookup_delete_Some; by apply K).
  assert (calm s s4) as C4.
  { eapply calm_trans; [exact C3|]. destruct (ticket_pending _ !! dest); [|apply Ok_inj in H4 as <-; apply calm_refl].
    eapply verify_ticket_calm; [exact Ha|exact H4|by apply C3]. }
  assert (∀ c, calm s (with_outbox (announce_outbox dest c (a_outbox s4)) s4)) as C5.
  { intros c. eapply calm_trans; [exact C4|]. apply still_calm, still_outbox. intros Ho. unfold announce_outbox. apply Forall_fmap. eapply Forall_impl; [exact Ho|].
    intros m Hm. unfold announce_msg. cbn. repeat case_match; done. }
  destruct (existsb _ _); [|apply Ok_inj in H as <-; apply C5]. eapply calm_trans; [apply C5|]. eapply still_calm, pump_still; [exact H|by apply C5].
Qed.
End handlers.

(** ** The whole path, with its interleavings *)

(** The state, the messages received and not yet shown, every message ever accepted or sent,
    and those cleared before they were shown. *)
Record Sys := mkSys { sh : Shared; flight : list Incoming; ledger : list (bytes * Z * bytes); cleared : list (bytes * Z * bytes) }.
Definition started (s : Shared) : Sys := mkSys s [] (posts (chat_log (view s)) ++ held_in (pending (mail s))) [].
Definition peers_ok (s : Shared) : Prop := ∀ p, current_peer (view s) = Some p ∨ prev_peer (view s) = Some p → address p.
Definition balanced (σ : Sys) : Prop :=
  ledger σ ≡ₚ posts (chat_log (view (sh σ))) ++ held_in (pending (mail (sh σ))) ++ (entry <$> flight σ) ++ cleared σ.

Section system.
Context `{C : Crypto} `{I : HashIter} `{B : Bz2} (W : Z).
Context (rand : nat → nat → bytes) (hub_ok auto_ok : nat → bool) (our_dh : bytes) (pn : option bytes) (chat_has : list ChatMsg → Z → bool).

Inductive sys_step : Sys → Sys → Prop :=
  | st_receive now live blob s i s' f l c : bytes_ok blob → deliver_receive W rand hub_ok auto_ok our_dh now live blob s = Ok (Some i, s') →
      sys_step (mkSys s f l c) (mkSys s' (i :: f) (l ++ [entry i]) c)
  | st_ignore now live blob s s' f l c : bytes_ok blob → deliver_receive W rand hub_ok auto_ok our_dh now live blob s = Ok (None, s') →
      sys_step (mkSys s f l c) (mkSys s' f l c)
  | st_show i s f1 f2 l c : sys_step (mkSys s (f1 ++ i :: f2) l c) (mkSys (deliver_show i s) (f1 ++ f2) l c)
  | st_activate addr s f l c : address addr → sys_step (mkSys s f l c) (mkSys (activate_peer addr s) f l c)
  | st_unread s f l c : sys_step (mkSys s f l c) (mkSys (jump_to_unread s) f l c)
  | st_back s f l c : sys_step (mkSys s f l c) (mkSys (jump_back s) f l c)
  | st_clear s f l c : sys_step (mkSys s f l c)
      (mkSys (clear_history s) f l (c ++ match current_peer (view s) with Some p => default [] (pending (mail s) !! p) | None => [] end))
  | st_post now text p s f l c : current_peer (view s) = Some p → sys_step (mkSys s f l c)
      (mkSys (post our_dh now text s) f (l ++ [(SELF_AUTHOR, echo_ts now s, bubble_text text MARK_PENDING)]) c)
  | st_resource e lid ctx pt o s s' f l c : on_resource W rand hub_ok auto_ok e lid ctx pt s = Ok (o, s') → sys_step (mkSys s f l c) (mkSys s' f l c)
  | st_serve lid pt s s' f l c : serve_resource rand hub_ok auto_ok lid pt s = Ok s' → sys_step (mkSys s f l c) (mkSys s' f l c)
  | st_announce now dest info s s' f l c : address dest → on_announce W rand hub_ok auto_ok our_dh pn chat_has now dest info s = Ok s' →
      sys_step (mkSys s f l c) (mkSys s' f l c)
  | st_identified now lid id s s' f l c : on_link_identified rand hub_ok auto_ok pn chat_has now lid id s = Ok s' → sys_step (mkSys s f l c) (mkSys s' f l c)
  | st_delivered h s f l c : sys_step (mkSys s f l c) (mkSys (on_delivered chat_has h s) f l c)
  | st_pump now s s' f l c : pump rand hub_ok auto_ok pn chat_has now s = Ok s' → sys_step (mkSys s f l c) (mkSys s' f l c)
  | st_closed lid s f l c : sys_step (mkSys s f l c) (mkSys (on_in_link_closed lid s) f l c)
  | st_touch now lid s f l c : sys_step (mkSys s f l c) (mkSys (touch_link now lid s) f l c)
  | st_lost s f l c : sys_step (mkSys s f l c) (mkSys (links_lost s) f l c)
  | st_net n s f l c : sys_step (mkSys s f l c) (mkSys (with_net n s) f l c).

Record sys_ok (σ : Sys) : Prop := {
  so_mail : mail_ok (sh σ);
  so_peers : peers_ok (sh σ);
  so_flight : Forall (λ i, address (i_src i)) (flight σ);
  so_balanced : balanced σ;
}.
Lemma calm_sys s s' f l c : calm s s' → sys_ok (mkSys s f l c) → sys_ok (mkSys s' f l c).
Proof.
  intros (E1 & E2 & E3 & E4 & E5) []. split; cbn [sh flight] in *; auto.
  - intros p. rewrite E4, E5. apply so_peers0.
  - unfold balanced in *. cbn [sh flight ledger cleared] in *. by rewrite E2, E3.
Qed.
Lemma activate_sys addr s f l c : address addr → sys_ok (mkSys s f l c) → sys_ok (mkSys (activate_peer addr s) f l c).
Proof.
  intros Ha []. cbn [sh flight] in *. pose proof (activate_ok addr s Ha so_mail0) as Hm.
  destruct (activate_spec addr s) as (v & d & E & _ & Ec & Ep & Epost).
  match type of E with _ = apply_delivery_updates addr ?x => destruct (apply_updates_posts addr x) as (F1 & F2 & F3 & F4) end.
  rewrite <- E in F1, F2, F3, F4. cbn [view mail] in F1, F2, F3, F4. split; cbn [sh flight]; auto.
  - intros p. rewrite F3, F4, Ec. intros [[= <-]|Hp]; [done|]. destruct Ep as [Ep|Ep]; apply so_peers0; [left|right]; congruence.
  - unfold balanced in *. cbn [sh flight ledger cleared] in *. rewrite F1, F2, Epost. app_simpl. rewrite so_balanced0.
    rewrite (held_delete (pending (mail s)) addr) at 1. by rewrite <- !app_assoc.
Qed.
Lemma first_unread_address s p n : mail_ok s → first_unread s = Some (p, n) → address p.
Proof.
  intros Hs. unfold first_unread. match goal with |- fold_left ?g _ _ = _ → _ => set (f := g) end.
  assert (∀ ks best, (∀ q k, best = Some (q, k) → address q) → ∀ q k, fold_left f ks best = Some (q, k) → address q) as HF.
  { induction ks as [|k ks IH]; intros best Hb; [exact Hb|]. cbn [fold_left]. apply IH. intros q m. unfold f.
    destruct (unread (mail s) !! k) as [u|] eqn:Eu; [|apply Hb]. destruct (u <=? 0); [apply Hb|].
    assert (address k) as Hk.
    { rewrite (ok_unread _ Hs), lookup_fmap in Eu. apply fmap_Some in Eu as (x & Ex & _). by eapply (ok_pending _ Hs). }
    destruct best as [[b j]|]; [|by intros [= <- _]]. destruct (_ <? _); [by intros [= <- _]|apply Hb]. }
  apply HF. done.
Qed.
Lemma clear_sys s f l c : sys_ok (mkSys s f l c) → sys_ok (mkSys (clear_history s) f l
  (c ++ match current_peer (view s) with Some p => default [] (pending (mail s) !! p) | None => [] end)).
Proof.
  intros []. cbn [sh flight] in *. unfold balanced in *. cbn [sh flight ledger cleared] in *.
  assert (mail_ok (clear_history s)) as Hm by (apply clear_ok; [|done]; intros p Hp; apply so_peers0; by left).
  split; cbn [sh flight]; auto; unfold peers_ok, balanced, clear_history in *; cbn [sh flight ledger cleared].
  - destruct (current_peer (view s)) as [p|] eqn:E; app_simpl; rewrite E; done.
  - destruct (current_peer (view s)) as [p|] eqn:E; app_simpl; rewrite posts_app; cbn [posts omap list_omap app]; rewrite ?app_nil_r; [|done].
    rewrite so_balanced0, (held_delete (pending (mail s)) p). solve_Permutation.
Qed.
Lemma post_sys now text p s f l c : current_peer (view s) = Some p → sys_ok (mkSys s f l c) →
  sys_ok (mkSys (post our_dh now text s) f (l ++ [(SELF_AUTHOR, echo_ts now s, bubble_text text MARK_PENDING)]) c).
Proof.
  intros Hp []. cbn [sh flight] in *. assert (address p) as Ha by (apply so_peers0; by left).
  unfold post. rewrite Hp. cbv zeta. set (v := mkView _ _ _ _). set (s1 := to_chat _ _). match goal with |- context [name_of ?x p] => set (s2 := x) end.
  assert (mail_ok s2 ∧ view s2 = view s1 ∧ pending (mail s2) = pending (mail s) ∧ Forall (λ m, address (peer m)) (a_outbox s2)) as (K2 & V2 & E2 & O2).
  { assert (mail_ok s1) as K1 by (by apply (mail_ok_same s); [..|apply so_mail0|apply so_mail0|]).
    unfold s2. destruct (match tickets _ !! p with Some _ => _ | None => _ end); [|by split; [|split; [|split; [|apply so_mail0]]]].
    split; [|by split; [|split; [|apply so_mail0]]]. destruct K1. split; app_simpl; auto. intros q t [_ Hq]%lookup_delete_Some. auto. }
  match goal with |- sys_ok (mkSys (with_outbox (enqueue_outbound _ _ _ _ ?pk ?ns ?st (a_outbox ?s3)) _) _ _ _) => set (s3' := s3); generalize pk, ns, st end.
  intros pk ns st. pose proof (save_contact_ok p (name_of s2 p) s2 Ha K2) as K3. fold s3' in K3. destruct (save_contact_inbox p (name_of s2 p) s2) as [V3 E3]. fold s3' in V3, E3.
  split; cbn [sh flight]; auto.
  - apply (mail_ok_same s3'); [done|apply K3| |done]. unfold enqueue_outbound. app_simpl. apply Forall_app. split; [apply K3|]. by constructor.
  - unfold peers_ok. app_simpl. rewrite V3, V2. unfold s1, v. app_simpl. rewrite <- Hp. exact so_peers0.
  - unfold balanced in *. cbn [sh flight ledger cleared] in *. app_simpl. rewrite V3, V2, E3, E2. unfold s1, v. app_simpl. rewrite posts_app. cbn [posts omap list_omap].
    rewrite so_balanced0. solve_Permutation.
Qed.
Lemma sys_step_ok σ σ' : sys_step σ σ' → sys_ok σ → sys_ok σ'.
Proof.
  destruct 1 as [now live blob s i s' f l c Hb H|now live blob s s' f l c Hb H|i s f1 f2 l c|addr s f l c Ha|s f l c|s f l c|s f l c|now text p s f l c Hp
    |e lid ctx pt o s s' f l c H|lid pt s s' f l c H|now dest info s s' f l c Ha H|now lid id s s' f l c H|h s f l c|now s s' f l c H|lid s f l c|now lid s f l c|s f l c|n s f l c];
    intros K; pose proof (so_mail _ K) as Km; cbn [sh] in Km.
  - destruct (receive_ok W rand hub_ok auto_ok our_dh _ _ _ _ _ _ Hb H Km) as (K1 & [V E] & _ & Hi). destruct (Hi i eq_refl) as [Ha _]. destruct K. split; cbn [sh flight]; auto.
    + unfold peers_ok. by rewrite V.
    + unfold balanced in *. cbn [sh flight ledger cleared fmap list_fmap] in *. rewrite V, E, so_balanced0. solve_Permutation.
  - destruct (receive_ok W rand hub_ok auto_ok our_dh _ _ _ _ _ _ Hb H Km) as (K1 & S & _ & _). apply (calm_sys s); [by apply calm_inbox|done].
  - destruct K. cbn [sh flight] in *. apply Forall_app in so_flight0 as [F1 [F2 F3]%Forall_cons]. destruct (show_ok i s F2 Km) as (K1 & _ & K2).
    split; cbn [sh flight]; auto.
    + unfold peers_ok, deliver_show in *. by destruct (bool_decide _).
    + by apply Forall_app.
    + unfold balanced in *. cbn [sh flight ledger cleared] in *. rewrite so_balanced0, !(app_assoc (posts _)), K2, !fmap_app. cbn [fmap list_fmap].
      rewrite <- (Permutation_middle (entry <$> f1)). cbn [app]. by rewrite <- Permutation_middle.
  - by apply activate_sys.
  - unfold jump_to_unread. destruct (first_unread s) as [[p n]|] eqn:E; [|done]. apply activate_sys; [|done]. by eapply first_unread_address.
  - unfold jump_back. destruct (prev_peer (view s)) as [p|] eqn:E; [|done]. destruct (bool_decide _); [|done]. apply activate_sys; [|done].
    apply (so_peers _ K). by right.
  - by apply clear_sys.
  - by eapply post_sys.
  - apply (calm_sys s); [by eapply still_calm, on_resource_still|done].
  - apply (calm_sys s); [by eapply still_calm, serve_still|done].
  - apply (calm_sys s); [by eapply announce_calm|done].
  - apply (calm_sys s); [by eapply still_calm, identified_still|done].
  - apply (calm_sys s); [by apply still_calm, delivered_still|done].
  - apply (calm_sys s); [by eapply still_calm, pump_still|done].
  - apply (calm_sys s); [apply still_calm, closed_still|done].
  - apply (calm_sys s); [apply still_calm, still_backchannels|done].
  - apply (calm_sys s); [apply still_calm, lost_still|done].
  - apply (calm_sys s); [apply still_calm, still_net|done].
Qed.
Lemma started_ok s : mail_ok s → peers_ok s → sys_ok (started s).
Proof. intros Hm Hp. split; cbn; auto. unfold balanced. cbn. by rewrite app_nil_r. Qed.
Lemma sys_reachable_ok s σ : rtc sys_step (started s) σ → mail_ok s → peers_ok s → sys_ok σ.
Proof.
  intros Hr Hm Hp. pose proof (started_ok s Hm Hp) as K. induction Hr as [|σ1 σ2 σ3 Hs _ IH]; [done|]. apply IH. by eapply sys_step_ok.
Qed.
End system.

(** ** Where tickets come from *)

(** [t] is the ticket of the message [blob] of [p], signed with the key of [id] and good after
    [now]. *)
Definition ticket_of `{C : Crypto} (W now : Z) (p : bytes) (id : PublicIdentity) (blob : bytes) (t : Z * bytes) : Prop :=
  ∃ m tk, slice blob TRUNCATED_HASHLENGTH (2 * TRUNCATED_HASHLENGTH) = Ok p ∧ parse W blob (Some id) = Ok m ∧ p_signature_validated m = true ∧
    extract_ticket (p_fields m) = Some tk ∧ t = (expires tk, ticket tk) ∧ now < expires tk.

Section tickets.
Context `{C : Crypto} `{I : HashIter} `{B : Bz2} (W : Z).
Context (rand : nat → nat → bytes) (hub_ok auto_ok : nat → bool) (our_dh : bytes) (pn : option bytes) (chat_has : list ChatMsg → Z → bool).

Lemma parse_unsigned blob m : parse W blob None = Ok m → p_signature_validated m = false.
Proof.
  unfold parse. case_decide as Hd; [done|]. clear Hd. cbv zeta. intros H. repeat (apply res_bind_ok in H as (? & _ & H)). by apply Ok_inj in H as <-.
Qed.
Lemma store_ticket_tickets now src tk s p t : tickets (mail (store_ticket now src tk s)) !! p = Some t →
  tickets (mail s) !! p = Some t ∨ (p = src ∧ t = (expires tk, ticket tk) ∧ now < expires tk).
Proof.
  unfold store_ticket. destruct (Z.leb_spec (expires tk) now); [by left|]. destruct (match _ with Some _ => _ | None => _ end); [|by left].
  app_simpl. intros [[<- <-]|[_ Ht]]%lookup_insert_Some; [by right|by left].
Qed.
Lemma receive_tickets now live blob s o s' p t : deliver_receive W rand hub_ok auto_ok our_dh now live blob s = Ok (o, s') →
  tickets (mail s') !! p = Some t → tickets (mail s) !! p = Some t ∨
  ∃ k, known (tp (a_net s)) p = Some k ∧ ticket_of W now p (kd_identity k) blob t.
Proof.
  intros [(-> & n & ->)|(src & n & m & s1 & Hsrc & _ & Hm & _ & H1 & -> & _)]%receive_spec; [by left|]. intros Ht.
  assert (tickets (mail s1) = tickets (mail s)) as Es.
  { apply res_bind_ok in H1 as (ad & _ & H1). apply Ok_inj in H1 as <-. unfold save_to_contacts, save_contact. destruct (known _ src); by destruct (List.filter _ ad). }
  unfold take_ticket in Ht. destruct (extract_ticket (p_fields m)) as [tk|] eqn:Etk; [|left; congruence].
  destruct (p_signature_validated m) eqn:Ev; [|left; by rewrite <- Es].
  apply store_ticket_tickets in Ht as [Ht|(-> & -> & Hlt)]; [left; congruence|right].
  destruct (known (tp (a_net s)) src) as [k|]; cbn [fmap option_fmap option_map] in Hm.
  - exists k. split; [done|]. by exists m, tk.
  - apply parse_unsigned in Hm. congruence.
Qed.
Lemma announce_tickets now dest info s s' p t : mail_ok s → address dest → on_announce W rand hub_ok auto_ok our_dh pn chat_has now dest info s = Ok s' →
  tickets (mail s') !! p = Some t → tickets (mail s) !! p = Some t ∨ (p = dest ∧ ∃ blob, ticket_of W now p (kd_identity info) blob t).
Proof.
  intros Hs Ha H Ht.
  unfold on_announce in H. destruct (bool_decide _); [apply Ok_inj in H as <-; by left|].
  destruct (bool_decide _); [apply Ok_inj in H as <-; by left|]. destruct (bool_decide _); [apply Ok_inj in H as <-; by left|].
  apply res_bind_ok in H as (shown & _ & H). apply res_bind_ok in H as (cost & _ & H). cbv zeta in H.
  match type of H with context [ticket_pending (mail ?x) !! dest] => set (s2 := x) in * end.
  assert (tickets (mail s2) = tickets (mail s) ∧ ticket_pending (mail s2) = ticket_pending (mail s) ∧ mail_ok s2) as (E2 & P2 & K2).
  { assert (mail_ok (learn_peer now dest (default (hex dest) shown) cost s)) as K1 by (by apply (mail_ok_same s); [..|apply Hs|apply Hs|]).
    unfold s2. destruct (contacts _ !! dest); [|done]. split; [|split; [|by apply save_contact_ok]]; unfold save_to_contacts, save_contact; by destruct (known _ dest). }
  apply res_bind_ok in H as (s4 & H4 & H). set (s3 := with_mail _ s2) in *.
  assert (mail_ok s3) as K3 by (apply set_ticket_pending_ok; [|done]; intros q b [_ Hq]%lookup_delete_Some; by apply K2).
  assert (∀ p t, tickets (mail s4) !! p = Some t → tickets (mail s) !! p = Some t ∨ (p = dest ∧ ∃ blob, ticket_of W now p (kd_identity info) blob t)) as H5.
  { clear H Ht p t. intros p t Ht. destruct (ticket_pending (mail s2) !! dest) as [blob|] eqn:Eb; [|apply Ok_inj in H4 as <-; left; by rewrite <- E2].
    apply res_bind_ok in H4 as (om & Hm & H4). apply Ok_inj in H4 as <-. destruct om as [m|]; [|left; by rewrite <- E2].
    destruct (p_signature_validated m) eqn:Ev; [|left; by rewrite <- E2]. destruct (extract_ticket (p_fields m)) as [tk|] eqn:Etk; [|left; by rewrite <- E2].
    apply store_ticket_tickets in Ht as [Ht|(-> & -> & Hlt)]; [left; by rewrite <- E2|right]. split; [done|]. exists blob, m, tk.
    split; [by apply K2|]. split; [by destruct (parse W blob _); [injection Hm as ->| |]|]. by split. }
  assert (mail_ok s4) as K4.
  { destruct (ticket_pending (mail s2) !! dest); [|by apply Ok_inj in H4 as <-]. by eapply verify_ticket_calm in H4; [apply H4|..]. }
  destruct (existsb _ _); [|apply Ok_inj in H as <-; by apply H5]. apply H5.
  set (s5 := with_outbox _ s4) in H. assert (still s4 s5) as S5.
  { apply still_outbox. intros Ho. unfold announce_outbox. apply Forall_fmap. eapply Forall_impl; [exact Ho|].
    intros x Hx. unfold announce_msg. cbn. repeat case_match; done. }
  apply pump_still in H; [|by apply S5]. destruct H as (_ & _ & _ & _ & _ & E & _). rewrite E in Ht. exact Ht.
Qed.
Lemma activate_tickets addr s : tickets (mail (activate_peer addr s)) = tickets (mail s).
Proof.
  destruct (activate_spec addr s) as (v & d & -> & _). unfold apply_delivery_updates. by destruct (_ !! addr).
Qed.
End tickets.

(** ** Names of contacts *)

(** A contact keeps its name, unless it is only the address. *)
Definition keeps_name (s s' : Shared) : Prop :=
  ∀ p n, contacts (book s) !! p = Some n → is_placeholder p n = false → contacts (book s') !! p = Some n.
Lemma keeps_same s s' : contacts (book s') = contacts (book s) → keeps_name s s'.
Proof. intros E p n. by rewrite E. Qed.
Lemma keeps_trans s1 s2 s3 : keeps_name s1 s2 → keeps_name s2 s3 → keeps_name s1 s3.
Proof. unfold keeps_name. auto. Qed.
Section names.
Context `{C : Crypto} `{I : HashIter} `{B : Bz2} (W : Z).
Context (rand : nat → nat → bytes) (hub_ok auto_ok : nat → bool) (our_dh : bytes) (pn : option bytes) (chat_has : list ChatMsg → Z → bool).
Lemma contacts_saved p n s : contacts (book (save_to_contacts p n s)) = <[p := n]> (contacts (book s)).
Proof. done. Qed.
Lemma save_keeps p n s : (∀ m, contacts (book s) !! p = Some m → is_placeholder p m = false → n = m) → keeps_name s (save_to_contacts p n s).
Proof.
  intros Hn q m Hq Hm. rewrite contacts_saved. destruct (decide (q = p)) as [->|Hne]; [|by rewrite lookup_insert_ne].
  rewrite lookup_insert_eq. f_equal. by apply Hn.
Qed.
Lemma save_name_keeps p s : keeps_name s (save_to_contacts p (name_of s p) s).
Proof. apply save_keeps. intros m Hm _. unfold name_of. by rewrite Hm. Qed.
Lemma store_ticket_contacts now src t s : contacts (book (store_ticket now src t s)) = contacts (book s).
Proof. unfold store_ticket. destruct (_ <=? _); [done|]. by destruct (match _ with Some _ => _ | None => _ end). Qed.
Lemma take_ticket_contacts now src blob m s : contacts (book (take_ticket now src blob m s)) = contacts (book s).
Proof. unfold take_ticket. destruct (extract_ticket _); [|done]. destruct (p_signature_validated m); [apply store_ticket_contacts|done]. Qed.
Lemma receive_keeps now live blob s o s' : deliver_receive W rand hub_ok auto_ok our_dh now live blob s = Ok (o, s') → keeps_name s s'.
Proof.
  intros [(-> & n & ->)|(src & n & m & s1 & _ & _ & _ & _ & H1 & -> & _)]%receive_spec; [by apply keeps_same|].
  apply (keeps_trans s s1); [|apply keeps_same, take_ticket_contacts].
  apply res_bind_ok in H1 as (ad & _ & H1). apply Ok_inj in H1 as <-.
  match goal with |- context [save_to_contacts src ?a ?x] => apply (keeps_trans s (save_to_contacts src a x)); [apply (save_name_keeps src x)|] end.
  apply keeps_same. by destruct (List.filter _ ad).
Qed.
Lemma activate_contacts addr s : contacts (book (activate_peer addr s)) = contacts (book s).
Proof. destruct (activate_spec addr s) as (v & d & -> & _). unfold apply_delivery_updates. by destruct (_ !! addr). Qed.
Lemma announce_keeps now dest info s s' : mail_ok s → address dest → on_announce W rand hub_ok auto_ok our_dh pn chat_has now dest info s = Ok s' → keeps_name s s'.
Proof.
  intros Hs Ha H. unfold on_announce in H. destruct (bool_decide _); [apply Ok_inj in H as <-; by apply keeps_same|].
  destruct (bool_decide _); [apply Ok_inj in H as <-; by apply keeps_same|]. destruct (bool_decide _); [apply Ok_inj in H as <-; by apply keeps_same|].
  apply res_bind_ok in H as (shown & _ & H). apply res_bind_ok in H as (cost & _ & H). cbv zeta in H.
  match type of H with context [ticket_pending (mail ?x) !! dest] => set (s2 := x) in * end.
  assert (keeps_name s s2 ∧ mail_ok s2) as [E2 K2].
  { assert (mail_ok (learn_peer now dest (default (hex dest) shown) cost s)) as K1 by (by apply (mail_ok_same s); [..|apply Hs|apply Hs|]).
    unfold s2. change (contacts (book (learn_peer now dest (default (hex dest) shown) cost s))) with (contacts (book s)).
    destruct (contacts (book s) !! dest) as [ex|] eqn:Ex; [|by split; [apply keeps_same|]].
    split; [|by apply save_contact_ok]. apply (keeps_trans s (learn_peer now dest (default (hex dest) shown) cost s)); [by apply keeps_same|].
    apply save_keeps. intros m Hm Hp. change (contacts (book s) !! dest = Some m) in Hm. rewrite Ex in Hm. injection Hm as ->. by rewrite Hp. }
  apply res_bind_ok in H as (s4 & H4 & H). set (s3 := with_mail _ s2) in *.
  assert (mail_ok s3) as K3 by (apply set_ticket_pending_ok; [|done]; intros q b [_ Hq]%lookup_delete_Some; by apply K2).
  assert (keeps_name s s4 ∧ mail_ok s4) as [E4 K4].
  { destruct (ticket_pending (mail s2) !! dest) as [blob|]; [|apply Ok_inj in H4 as <-; by split]. split; [|by eapply verify_ticket_calm in H4; [apply H4|..]].
    apply (keeps_trans s s2); [done|]. apply keeps_same. apply res_bind_ok in H4 as (om & _ & H4). apply Ok_inj in H4 as <-.
    destruct om as [m|]; [|done]. destruct (p_signature_validated m); [|done]. destruct (extract_ticket _); [|done]. apply (store_ticket_contacts _ _ _ s3). }
  destruct (existsb _ _); [|apply Ok_inj in H as <-; exact E4]. set (s5 := with_outbox _ s4) in H. assert (still s4 s5) as S5.
  { apply still_outbox. intros Ho. unfold announce_outbox. apply Forall_fmap. eapply Forall_impl; [exact Ho|].
    intros x Hx. unfold announce_msg. cbn. repeat case_match; done. }
  apply pump_still in H; [|by apply S5]. apply (keeps_trans s s4); [done|]. apply keeps_same. apply H.
Qed.
Lemma sys_step_keeps σ σ' : sys_step W rand hub_ok auto_ok our_dh pn chat_has σ σ' → sys_ok σ → keeps_name (sh σ) (sh σ').
Proof.
  intros Hs [K _ _ _].
  destruct Hs as [now live blob s i s' f l c Hb H|now live blob s s' f l c Hb H|i s f1 f2 l c|addr s f l c Ha|s f l c|s f l c|s f l c|now text q s f l c Hq
    |e lid ctx pt o s s' f l c H|lid pt s s' f l c H|now dest info s s' f l c Ha H|now lid id s s' f l c H|h s f l c|now s s' f l c H|lid s f l c|now lid s f l c|s f l c|n s f l c];
    cbn [sh] in *.
  - by eapply receive_keeps.
  - by eapply receive_keeps.
  - apply keeps_same. unfold deliver_show. by destruct (bool_decide _).
  - apply keeps_same, activate_contacts.
  - apply keeps_same. unfold jump_to_unread. destruct (first_unread s) as [[]|]; [apply activate_contacts|done].
  - apply keeps_same. unfold jump_back. destruct (prev_peer (view s)); [|done]. destruct (bool_decide _); [apply activate_contacts|done].
  - apply keeps_same. unfold clear_history. by destruct (current_peer (view s)).
  - unfold post. rewrite Hq. cbv zeta. match goal with |- keeps_name s (with_outbox _ (save_to_contacts q _ ?x)) => apply (keeps_trans s x) end.
    + apply keeps_same. by destruct (match _ with Some _ => _ | None => _ end).
    + apply save_name_keeps.
  - apply keeps_same. by eapply on_resource_still in H as (_ & _ & _ & _ & _ & _ & E).
  - apply keeps_same. by eapply serve_still in H as (_ & _ & _ & _ & _ & _ & E).
  - by eapply announce_keeps.
  - apply keeps_same. by eapply identified_still in H as (_ & _ & _ & _ & _ & _ & E).
  - apply keeps_same. by destruct (delivered_still chat_has h s K) as (_ & _ & _ & _ & _ & _ & E).
  - apply keeps_same. by eapply pump_still in H as (_ & _ & _ & _ & _ & _ & E).
  - by apply keeps_same.
  - by apply keeps_same.
  - by apply keeps_same.
  - by apply keeps_same.
Qed.
Lemma sys_steps_keep σ σ' : rtc (sys_step W rand hub_ok auto_ok our_dh pn chat_has) σ σ' → sys_ok σ → keeps_name (sh σ) (sh σ').
Proof.
  induction 1 as [σ|σ1 σ2 σ3 Hs Hr IH]; intros Hok; [by apply keeps_same|]. eapply keeps_trans; [by apply sys_step_keeps|]. apply IH. by eapply sys_step_ok.
Qed.
End names.

(** ** Properties *)

(** No message is lost or doubled on its way to the user.  Whatever arrives, and however the
    user's switching of conversations falls between the steps of a delivery, every message
    accepted or sent is exactly once among those posted to the chat, those held for a
    conversation not open, those just being delivered and those whose history was cleared.
    In every such state the unread counts are the numbers held, what is held and marked is
    what is stored under the peer's key, and the tables are within their bounds. *)
Theorem inbox_conserves `{C : Crypto} `{I : HashIter} `{B : Bz2} (W : Z) (rand : nat → nat → bytes) (hub_ok auto_ok : nat → bool)
  (our_dh : bytes) (pn : option bytes) (chat_has : list ChatMsg → Z → bool) (s : Shared) (σ : Sys)
  (Hm : mail_ok s) (Hp : peers_ok s) (Hr : rtc (sys_step W rand hub_ok auto_ok our_dh pn chat_has) (started s) σ) :
  ledger σ ≡ₚ posts (chat_log (view (sh σ))) ++ held_in (pending (mail (sh σ))) ++ (entry <$> flight σ) ++ cleared σ ∧
  unread (mail (sh σ)) = (λ l, len_of l mod 2 ^ 32) <$> pending (mail (sh σ)) ∧
  represents serialize_pending (d_pending (store (sh σ))) (pending (mail (sh σ))) ∧
  represents (flat_map update_record) (d_delivery (store (sh σ))) (delivery_updates (mail (sh σ))) ∧
  (length (recent_msg_ids (mail (sh σ))) ≤ RECENT_IDS)%nat ∧ (length (found_addrs (mail (sh σ))) ≤ MAX_FOUND_ADDRS)%nat ∧
  (size (in_resources (sh σ)) ≤ MAX_IN_RESOURCES)%nat.
Proof.
  pose proof (sys_reachable_ok W rand hub_ok auto_ok our_dh pn chat_has s σ Hr Hm Hp) as [K _ _ Hb].
  split; [exact Hb|]. split; [apply K|]. split; [apply K|]. split; [apply K|]. split; [apply K|]. split; apply K.
Qed.

(** C23: Tickets are only taken from those who signed them.  A step stores a ticket for a peer
    only when it comes from a message of that peer whose signature is valid under the key the
    transport knows for the peer when the message arrives, or under the key the peer's own
    announce has just brought. *)
Theorem ticket_authentic `{C : Crypto} `{I : HashIter} `{B : Bz2} (W : Z) (rand : nat → nat → bytes) (hub_ok auto_ok : nat → bool)
  (our_dh : bytes) (pn : option bytes) (chat_has : list ChatMsg → Z → bool) (s : Shared) (σ σ' : Sys) (p : bytes) (t : Z * bytes)
  (Hm : mail_ok s) (Hp : peers_ok s) (Hr : rtc (sys_step W rand hub_ok auto_ok our_dh pn chat_has) (started s) σ)
  (Hs : sys_step W rand hub_ok auto_ok our_dh pn chat_has σ σ') (Ht : tickets (mail (sh σ')) !! p = Some t) :
  tickets (mail (sh σ)) !! p = Some t ∨
  (∃ now live blob o k, deliver_receive W rand hub_ok auto_ok our_dh now live blob (sh σ) = Ok (o, sh σ') ∧
     known (tp (a_net (sh σ))) p = Some k ∧ ticket_of W now p (kd_identity k) blob t) ∨
  (∃ now info blob, on_announce W rand hub_ok auto_ok our_dh pn chat_has now p info (sh σ) = Ok (sh σ') ∧ ticket_of W now p (kd_identity info) blob t).
Proof.
  pose proof (sys_reachable_ok W rand hub_ok auto_ok our_dh pn chat_has s σ Hr Hm Hp) as [K _ _ _]. clear Hr Hm Hp s.
  destruct Hs as [now live blob s i s' f l c Hb H|now live blob s s' f l c Hb H|i s f1 f2 l c|addr s f l c Ha|s f l c|s f l c|s f l c|now text q s f l c Hq
    |e lid ctx pt o s s' f l c H|lid pt s s' f l c H|now dest info s s' f l c Ha H|now lid id s s' f l c H|h s f l c|now s s' f l c H|lid s f l c|now lid s f l c|s f l c|n s f l c];
    cbn [sh] in *.
  - pose proof H as H2. eapply receive_tickets in H as [H|(k & Hk & Ho)]; [by left| |exact Ht]. right; left. by exists now, live, blob, (Some i), k.
  - pose proof H as H2. eapply receive_tickets in H as [H|(k & Hk & Ho)]; [by left| |exact Ht]. right; left. by exists now, live, blob, None, k.
  - left. unfold deliver_show in Ht. by destruct (bool_decide _).
  - left. by rewrite activate_tickets in Ht.
  - left. unfold jump_to_unread in Ht. destruct (first_unread s) as [[]|]; [by rewrite activate_tickets in Ht|done].
  - left. unfold jump_back in Ht. destruct (prev_peer (view s)); [|done]. destruct (bool_decide _); [by rewrite activate_tickets in Ht|done].
  - left. unfold clear_history in Ht. by destruct (current_peer (view s)).
  - left. unfold post in Ht. rewrite Hq in Ht. cbv zeta in Ht. unfold save_to_contacts, save_contact in Ht.
    destruct (known _ q); cbv beta iota zeta in Ht; app_simpl; unfold with_outbox, with_store, with_book in Ht; cbn [mail] in Ht;
      (destruct (match tickets _ !! q with Some _ => _ | None => _ end); [|done]); cbn in Ht; by apply lookup_delete_Some in Ht as [_ Ht].
  - left. eapply on_resource_still in H as (_ & _ & _ & _ & _ & E & _). congruence.
  - left. eapply serve_still in H as (_ & _ & _ & _ & _ & E & _). congruence.
  - pose proof H as H2. eapply announce_tickets in H as [H|(-> & blob & Ho)]; [by left| |done|done|exact Ht]. right; right. by exists now, info, blob.
  - left. eapply identified_still in H as (_ & _ & _ & _ & _ & E & _); [congruence|done].
  - left. destruct (delivered_still chat_has h s K) as (_ & _ & _ & _ & _ & E & _). congruence.
  - left. eapply pump_still in H as (_ & _ & _ & _ & _ & E & _); [congruence|done].
  - by left.
  - by left.
  - by left.
  - by left.
Qed.
