(* ===== verification/InboundChat.v ===== *)
(** From the text one user types to the bubble another one sees: [post] on one device and
    [deliver_lxmf] on another. *)
From S2P Require Import Micron MicronPage Prelude Constants Crypto Packet Identity Link Msgpack Message ResourceWire Resource Tables Transport Outbox OutboxProps OutboxNet Storage StorageProps Inbound InboundProps.

(** ** The scan for addresses returns on every text *)
Lemma hexdigit_byte c : is_ascii_hexdigit c = true → hex_byte c.
Proof.
  unfold is_ascii_hexdigit, is_digit, hex_byte. rewrite !orb_true_iff, !andb_true_iff, !Z.leb_le. lia.
Qed.
Lemma hex_run_digits s : Forall hex_byte (hex_run s).1.
Proof.
  induction s as [|c s IH]; [constructor|]. cbn [hex_run]. destruct (is_ascii_hexdigit c) eqn:E; [|constructor].
  destruct (hex_run s). constructor; [by apply hexdigit_byte|done].
Qed.
Lemma hex_pairs_total n i s : Forall hex_byte s → ((i + n) * 2 ≤ length s)%nat → ∃ o, hex_pairs n i s = Ok o.
Proof.
  intros Hs. revert i. induction n as [|n IH]; intros i Hl; cbn [hex_pairs]; [by eexists|].
  unfold slice_str. rewrite !boundary_hex by (done || lia). cbn [andb]. rewrite slice_ok by lia. rewrite bind_Ok.
  destruct (u8_from_hex _) as [b|]; [|by eexists]. destruct (IH (S i)) as [o ->]; [lia|]. rewrite bind_Ok. by eexists.
Qed.
Lemma parse_addr_total s : Forall hex_byte s → ∃ o, parse_addr s = Ok o.
Proof.
  intros Hs. unfold parse_addr. rewrite trim_hex by done. case_decide as Hd; [by eexists|]. apply hex_pairs_total; [done|lia].
Qed.
Lemma extract_total fuel s : ∃ l, extract_from fuel s = Ok l.
Proof.
  revert s. induction fuel as [|fuel IH]; intros s; [by eexists|]. destruct s as [|c s]; [by eexists|]. cbn [extract_from].
  destruct (is_ascii_hexdigit c); [|apply IH]. pose proof (hex_run_digits (c :: s)) as Hr. destruct (hex_run (c :: s)) as [run rest]. cbn [fst] in Hr.
  assert (∃ o, (if (length run =? 2 * TRUNCATED_HASHLENGTH)%nat then parse_addr run else mret None) = Ok o) as [o ->]
    by (destruct (_ =? _)%nat; [by apply parse_addr_total|by eexists]).
  rewrite bind_Ok. destruct (IH rest) as [l ->]. rewrite bind_Ok. by eexists.
Qed.
Lemma note_total our now src author text s : ∃ s', note_addresses our now src author text s = Ok s'.
Proof. unfold note_addresses. destruct (extract_total (length text) text) as [l E]. unfold extract_addresses. rewrite E, bind_Ok. by eexists. Qed.

(** ** What the sender packs *)
Lemma text_payload now text : 0 < now < 2 ^ 53 → text_ok text → payload_ok (i64_as_f64 now) [] text [] = true.
Proof.
  intros Hn [_ Ht]. destruct (i64_f64_u64 now Hn) as [Hf _]. unfold f64_finite_pos in Hf. apply andb_true_iff in Hf as [F1 F2].
  apply Z.ltb_lt in F1, F2. change (Z.shiftl 2047 52) with (2047 * 2 ^ 52) in F2.
  unfold payload_ok, payload_elems. cbn [value_ok forallb]. unfold fits32 at 3. apply Z.ltb_lt in Ht. rewrite Ht.
  rewrite (proj2 (Z.leb_le 0 _)) by lia. rewrite (proj2 (Z.ltb_lt _ (2 ^ 64))) by lia. reflexivity.
Qed.
Lemma timestamp_back now : 0 < now < 2 ^ 53 → f64_to_u64 (i64_as_f64 now) = now.
Proof.
  intros Hn. destruct (i64_f64_u64 now Hn) as [Hf Hb]. unfold f64_finite_pos in Hf. apply andb_true_iff in Hf as [F1 F2]. apply Z.ltb_lt in F1, F2.
  unfold f64_to_u64. rewrite (proj2 (Z.leb_gt _ _)) by (change (Z.shiftl 2047 52) with (2047 * 2 ^ 52) in F2; lia).
  by rewrite (proj2 (Z.ltb_ge _ _)) by lia.
Qed.
Lemma packed_source `{C : Crypto} id dst src ts title content fields tk : length dst = TRUNCATED_HASHLENGTH → length src = TRUNCATED_HASHLENGTH →
  slice (Message.packed (pack id dst src ts title content fields tk)) TRUNCATED_HASHLENGTH (2 * TRUNCATED_HASHLENGTH) = Ok src.
Proof.
  intros Hd Hs. unfold pack. cbn [Message.packed]. apply slice_app_mid; [done|]. rewrite Hs. lia.
Qed.

(** ** What the receiver makes of it *)
Section receiver.
Context `{C : Crypto} (W : Z) (rand : nat → nat → bytes) (hub_ok auto_ok : nat → bool) (our_dh : bytes).

Lemma remembered_id id ids : id ∈ remember_id id ids.
Proof.
  unfold remember_id. destruct (Nat.ltb_spec RECENT_IDS (length (ids ++ [id]))) as [Hlt|Hge].
  - destruct ids as [|i ids]; [unfold RECENT_IDS in Hlt; cbn in Hlt; lia|]. cbn [app drop]. rewrite drop_0. apply elem_of_app. right. by apply list_elem_of_singleton.
  - apply elem_of_app. right. by apply list_elem_of_singleton.
Qed.
Lemma take_ticket_frame now src blob m s : let s' := take_ticket now src blob m s in
  view s' = view s ∧ pending (mail s') = pending (mail s) ∧ a_net s' = a_net s ∧ recent_msg_ids (mail s') = recent_msg_ids (mail s).
Proof.
  cbv zeta. unfold take_ticket, store_ticket. destruct (extract_ticket _); [|done]. destruct (p_signature_validated m); [|done].
  destruct (_ <=? _); [done|]. by destruct (match _ with Some _ => _ | None => _ end).
Qed.
(** A message from a peer we know, seen for the first time. *)
Lemma receive_known now live blob s src k m : (2 * TRUNCATED_HASHLENGTH ≤ length blob)%nat →
  slice blob TRUNCATED_HASHLENGTH (2 * TRUNCATED_HASHLENGTH) = Ok src → known (tp (a_net s)) src = Some k →
  parse W blob (Some (kd_identity k)) = Ok m → p_message_id m ∉ recent_msg_ids (mail s) →
  ∃ s', deliver_receive W rand hub_ok auto_ok our_dh now live blob s =
      Ok (Some (mkIncoming src (name_of s src) (f64_to_u64 (p_timestamp m)) (shown_text live m) (current_peer (view s))), s') ∧
    view s' = view s ∧ pending (mail s') = pending (mail s) ∧ a_net s' = a_net s ∧ p_message_id m ∈ recent_msg_ids (mail s').
Proof.
  intros Hl Hsrc Hk Hm Hid. unfold deliver_receive. rewrite decide_False by lia. rewrite Hsrc, bind_Ok. cbv zeta. rewrite Hk. cbn [fmap option_fmap option_map].
  rewrite (bool_decide_eq_false_2 _ (Some_ne_None _)), mret_Ok, bind_Ok, Hm. cbn [res_ok]. rewrite bind_Ok, bool_decide_eq_false_2 by done.
  set (s0 := with_mail _ s). set (s1 := save_to_contacts src (name_of s0 src) s0).
  assert (view s1 = view s ∧ pending (mail s1) = pending (mail s) ∧ a_net s1 = a_net s ∧ p_message_id m ∈ recent_msg_ids (mail s1)) as (A1 & A2 & A3 & A4).
  { unfold s1, save_to_contacts, save_contact. destruct (known _ src); app_simpl; (split_and!; [done..|apply remembered_id]). }
  destruct (note_total our_dh now src (name_of s0 src) (shown_text live m) s1) as [s2 E]. rewrite E, bind_Ok.
  assert (view s2 = view s1 ∧ pending (mail s2) = pending (mail s1) ∧ a_net s2 = a_net s1 ∧ recent_msg_ids (mail s2) = recent_msg_ids (mail s1)) as (B1 & B2 & B3 & B4).
  { apply res_bind_ok in E as (ad & _ & E). apply Ok_inj in E as <-. by destruct (List.filter _ ad). }
  destruct (take_ticket_frame now src blob m s2) as (D1 & D2 & D3 & D4).
  exists (take_ticket now src blob m s2). rewrite D1, B1, A1, D2, B2, D3, B3, D4, B4. split; [reflexivity|]. by split_and!.
Qed.
(** The same message again changes nothing. *)
Lemma receive_again now live blob s src k m : (2 * TRUNCATED_HASHLENGTH ≤ length blob)%nat →
  slice blob TRUNCATED_HASHLENGTH (2 * TRUNCATED_HASHLENGTH) = Ok src → known (tp (a_net s)) src = Some k →
  parse W blob (Some (kd_identity k)) = Ok m → p_message_id m ∈ recent_msg_ids (mail s) →
  deliver_lxmf W rand hub_ok auto_ok our_dh now live blob s = Ok s.
Proof.
  intros Hl Hsrc Hk Hm Hid. unfold deliver_lxmf, deliver_receive. rewrite decide_False by lia. rewrite Hsrc, bind_Ok. cbv zeta. rewrite Hk. cbn [fmap option_fmap option_map].
  rewrite (bool_decide_eq_false_2 _ (Some_ne_None _)), mret_Ok, bind_Ok, Hm. cbn [res_ok]. by rewrite bind_Ok, bool_decide_eq_true_2 by done.
Qed.
End receiver.

Lemma post_queues `{C : Crypto} our now text s p : current_peer (view s) = Some p →
  ∃ m tk, a_outbox (post our now text s) = a_outbox s ++ [m] ∧ peer m = p ∧
    Outbox.packed m = Message.packed (pack (Transport.identity (tp (a_net s))) p our (i64_as_f64 now) [] text [] tk).
Proof.
  intros Hp. unfold post. rewrite Hp. cbv zeta. set (v := mkView _ _ _ _). set (s1 := to_chat _ _).
  match goal with |- context [name_of ?x p] => set (s2 := x) end.
  assert (a_outbox s2 = a_outbox s ∧ a_net s2 = a_net s) as [E1 E2].
  { unfold s2, s1. by destruct (match tickets _ !! p with Some _ => _ | None => _ end). }
  assert (∀ n, a_outbox (save_to_contacts p n s2) = a_outbox s) as E3 by (intros n; unfold save_to_contacts, save_contact; destruct (known _ p); exact E1).
  unfold enqueue_outbound. app_simpl. rewrite E3. eexists _, _. split; [reflexivity|]. split; [reflexivity|]. cbn [Outbox.packed]. rewrite E2. reflexivity.
Qed.

(** ** Properties *)

(** C13: A text arrives as it was typed.  When a user posts a text to the peer whose conversation
    is open, the message queued for that peer, delivered to it, is verified and shown under
    the name the receiver has for the sender, with the text and the time of the sender:
    in the conversation if it is open, held for it otherwise.  Delivered again, it changes
    nothing. *)
Theorem chat_end_to_end `{C : Crypto} `{!HashOK, !SigOK} (W : Z) (rand : nat → nat → bytes) (hub_ok auto_ok : nat → bool)
  (dhA dhB : bytes) (sA sB : Shared) (now later : Z) (text : bytes) (k : KnownDest)
  (HA : private_ok (Transport.identity (tp (a_net sA)))) (Hpeer : current_peer (view sA) = Some dhB)
  (HlA : length dhA = TRUNCATED_HASHLENGTH) (HlB : length dhB = TRUNCATED_HASHLENGTH)
  (Hk : known (tp (a_net sB)) dhA = Some k) (Hid : kd_identity k = public (Transport.identity (tp (a_net sA))))
  (Hnow : 0 < now < 2 ^ 53) (Htext : text_ok text)
  (Hnew : message_id (pack (Transport.identity (tp (a_net sA))) dhB dhA (i64_as_f64 now) [] text [] None) ∉ recent_msg_ids (mail sB)) :
  ∃ m, a_outbox (post dhA now text sA) = a_outbox sA ++ [m] ∧ peer m = dhB ∧
    (len_of (Outbox.packed m) < 2 ^ W →
     ∃ sB', deliver_lxmf W rand hub_ok auto_ok dhB later true (Outbox.packed m) sB = Ok sB' ∧
       (if decide (current_peer (view sB) = Some dhA)
        then chat_log (view sB') = chat_log (view sB) ++ [PostAdd (name_of sB dhA) now text; DialogueSave] ∧ pending (mail sB') = pending (mail sB)
        else chat_log (view sB') = chat_log (view sB) ∧
             pending (mail sB') = <[dhA := default [] (pending (mail sB) !! dhA) ++ [(name_of sB dhA, now, text)]]> (pending (mail sB))) ∧
       deliver_lxmf W rand hub_ok auto_ok dhB later true (Outbox.packed m) sB' = Ok sB').
Proof.
  destruct (post_queues dhA now text sA dhB Hpeer) as (m & tk & E & Hm & Ep). exists m. split; [exact E|]. split; [exact Hm|]. rewrite Ep. intros HW.
  set (id := Transport.identity (tp (a_net sA))) in *. set (blob := Message.packed _) in *.
  pose proof (packed_source id dhB dhA (i64_as_f64 now) [] text [] tk HlB HlA) as Hsrc. fold blob in Hsrc.
  assert (2 * TRUNCATED_HASHLENGTH ≤ length blob)%nat as Hlen by (unfold slice in Hsrc; case_decide as Hd; [lia|done]).
  pose proof (pack_parse W id dhB dhA (i64_as_f64 now) [] text [] tk HA HlB HlA (text_payload now text Hnow Htext) HW) as Hparse. cbv zeta in Hparse. fold blob in Hparse.
  rewrite <- Hid in Hparse.
  destruct (receive_known W rand hub_ok auto_ok dhB later true blob sB dhA k _ Hlen Hsrc Hk Hparse Hnew) as (s1 & E1 & V1 & P1 & N1 & R1).
  unfold deliver_lxmf at 1. rewrite E1, bind_Ok. cbn [p_timestamp] in *. rewrite timestamp_back by done.
  assert (∀ id t f, shown_text true (mkParsed id dhB dhA (i64_as_f64 now) t text f true) = text) as Hshow
    by (intros; unfold shown_text, content_string; cbn; by apply from_utf8_lossy_valid, Htext).
  rewrite Hshow. eexists. split; [reflexivity|].
  assert (∀ i, let s2 := deliver_show i s1 in a_net s2 = a_net sB ∧ recent_msg_ids (mail s2) = recent_msg_ids (mail s1)) as Hshown
    by (intros i; unfold deliver_show; cbv zeta; destruct (bool_decide _); rewrite <- N1; done).
  split.
  - unfold deliver_show. cbn [i_active i_src i_author i_ts i_text]. destruct (decide (current_peer (view sB) = Some dhA)) as [Ha|Ha].
    + rewrite bool_decide_eq_true_2 by done. app_simpl. by rewrite V1, P1.
    + rewrite bool_decide_eq_false_2 by done. app_simpl. by rewrite V1, P1.
  - match goal with |- context [deliver_show ?i s1] => destruct (Hshown i) as [A1 A2]; eapply (receive_again _ _ _ _ _ _ _ _ _ dhA k) end;
      [exact Hlen|exact Hsrc|rewrite A1; exact Hk|exact Hparse|rewrite A2; exact R1].
Qed.

(** ** Two defects *)

(** A message dated beyond the range of the clock takes the last timestamp to its maximum: the
    next message sent is then shown at the present time, not after it. *)
Lemma future_message_buries_echo i now s : i_active i = Some (i_src i) → i_ts i = f64_to_u64 (Z.shiftl 0x7ff 52) →
  0 ≤ now < 2 ^ 64 - 1 → 0 ≤ last_ts (view s) < 2 ^ 64 → echo_ts now (deliver_show i s) < last_ts (view (deliver_show i s)).
Proof.
  intros Ha Ht Hn Hl. change (f64_to_u64 (Z.shiftl 0x7ff 52)) with (2 ^ 64 - 1) in Ht. unfold echo_ts, deliver_show. rewrite bool_decide_eq_true_2 by done.
  app_simpl. rewrite Ht. rewrite (Z.max_r (last_ts (view s)) (2 ^ 64 - 1)) by lia. change ((2 ^ 64 - 1 + 1) mod 2 ^ 64) with 0. lia.
Qed.
(** The user opens another conversation between the two steps of a delivery: the message is
    posted to that conversation. *)
Lemma switch_misfiles i q s : i_active i = Some (i_src i) → pending (mail s) !! q = None → delivery_updates (mail s) !! q = None →
  chat_log (view (deliver_show i (activate_peer q s))) =
    chat_log (view s) ++ [DialogueSet (hex q); PostAdd (i_author i) (i_ts i) (i_text i); DialogueSave].
Proof.
  intros Ha Hq Hu. unfold deliver_show. rewrite bool_decide_eq_true_2 by done. unfold activate_peer. cbv zeta. app_simpl. rewrite Hq.
  change (default [] None) with (@nil (bytes * Z * bytes)). cbn [flush_posts fold_left]. rewrite bool_decide_eq_true_2 by done.
  unfold apply_delivery_updates. app_simpl. rewrite Hu. app_simpl. by rewrite <- app_assoc.
Qed.

(** ** Witnesses *)
Definition fresh (n : Net) : Shared :=
  mkShared n (mkBook ∅ ∅ ∅ ∅) (mkMail [] [] ∅ ∅ ∅ ∅ ∅) (mkView None None 0 []) (mkStore ∅ ∅ ∅ ∅ ∅) ∅ ∅ [].
Lemma fresh_ok n : mail_ok (fresh n) ∧ peers_ok (fresh n).
Proof.
  split; [|by intros p [?|?]]. split; cbn; try (by apply represents_empty); try (by intros p t; rewrite lookup_empty); try done.
  - split; [unfold RECENT_IDS; lia|constructor].
  - split; [unfold MAX_FOUND_ADDRS; lia|constructor].
  - rewrite map_size_empty. unfold MAX_IN_RESOURCES. lia.
Qed.

Import ToyInstances.
#[local] Instance chat_iter : HashIter := λ V m, map_to_list m.
#[local] Instance chat_bz2 : Bz2 := λ _ _, None.
Definition wc_rand (d n : nat) : bytes := replicate n (Z.of_nat d mod 256).
Definition wc_ok (_ : nat) : bool := true.
Definition wc_has (_ : list ChatMsg) (_ : Z) : bool := false.
Definition wc_alice : PrivateIdentity := from_bytes (replicate 32 3) (replicate 32 4).
Definition wc_bob : PrivateIdentity := from_bytes (replicate 32 5) (replicate 32 6).
Definition wc_dhA : bytes := replicate 16 0xaa.
Definition wc_dhB : bytes := replicate 16 0xbb.
Definition wc_known : KnownDest := mkKnown (public wc_alice) [] None [].
Definition wc_sA : Shared := activate_peer wc_dhB (fresh (mkNet (transport_new wc_alice) 0 [] None)).
Definition wc_sB : Shared := fresh (mkNet (remember wc_dhA wc_known (transport_new wc_bob)) 0 [] None).
Definition wc_now : Z := 1700000000.

Lemma wc_dhB_address : address wc_dhB.
Proof. split; [apply (bool_decide_unpack _); vm_compute; exact I|reflexivity]. Qed.

Lemma chat_end_to_end_witness :
  ∃ m, a_outbox (post wc_dhA wc_now (ascii "hello") wc_sA) = a_outbox wc_sA ++ [m] ∧ peer m = wc_dhB ∧
    (len_of (Outbox.packed m) < 2 ^ 32 →
     ∃ sB', deliver_lxmf 32 wc_rand wc_ok wc_ok wc_dhB wc_now true (Outbox.packed m) wc_sB = Ok sB' ∧
       (if decide (current_peer (view wc_sB) = Some wc_dhA)
        then chat_log (view sB') = chat_log (view wc_sB) ++ [PostAdd (name_of wc_sB wc_dhA) wc_now (ascii "hello"); DialogueSave] ∧ pending (mail sB') = pending (mail wc_sB)
        else chat_log (view sB') = chat_log (view wc_sB) ∧
             pending (mail sB') = <[wc_dhA := default [] (pending (mail wc_sB) !! wc_dhA) ++ [(name_of wc_sB wc_dhA, wc_now, ascii "hello")]]> (pending (mail wc_sB))) ∧
       deliver_lxmf 32 wc_rand wc_ok wc_ok wc_dhB wc_now true (Outbox.packed m) sB' = Ok sB').
Proof.
  apply (chat_end_to_end 32 wc_rand wc_ok wc_ok wc_dhA wc_dhB wc_sA wc_sB wc_now wc_now (ascii "hello") wc_known).
  - by apply from_bytes_ok.
  - reflexivity.
  - reflexivity.
  - reflexivity.
  - vm_compute. reflexivity.
  - reflexivity.
  - unfold wc_now. lia.
  - split; vm_compute; reflexivity.
  - apply not_elem_of_nil.
Defined.

(** Alice's message, with a ticket, reaches Bob, who then opens the conversation. *)
Definition wc_blob : bytes := Message.packed (pack wc_alice wc_dhB wc_dhA (i64_as_f64 wc_now) [] (ascii "hi bob") w_fields None).
Definition wc_step := sys_step 32 wc_rand wc_ok wc_ok wc_dhB None wc_has.
Definition wc_received : option Incoming * Shared :=
  match deliver_receive 32 wc_rand wc_ok wc_ok wc_dhB wc_now true wc_blob wc_sB with Ok r => r | _ => (None, wc_sB) end.
Definition wc_in : Incoming := default (mkIncoming [] [] 0 [] None) wc_received.1.
Lemma wc_receives : deliver_receive 32 wc_rand wc_ok wc_ok wc_dhB wc_now true wc_blob wc_sB = Ok (Some wc_in, wc_received.2).
Proof. vm_compute. reflexivity. Qed.
Lemma wc_blob_ok : bytes_ok wc_blob.
Proof. apply (bool_decide_unpack _). vm_compute. exact I. Qed.
Lemma wc_dhA_address : address wc_dhA.
Proof. split; [apply (bool_decide_unpack _); vm_compute; exact I|reflexivity]. Qed.

Definition wc_end : Sys := mkSys (activate_peer wc_dhA (deliver_show wc_in wc_received.2)) [] [entry wc_in] [].
Lemma wc_runs : rtc wc_step (started wc_sB) wc_end.
Proof.
  eapply rtc_l; [by apply (st_receive _ _ _ _ _ _ _ wc_now true wc_blob wc_sB wc_in wc_received.2 [] [] [] wc_blob_ok wc_receives)|].
  eapply rtc_l; [apply (st_show _ _ _ _ _ _ _ wc_in wc_received.2 [] [])|].
  eapply rtc_l; [by apply (st_activate _ _ _ _ _ _ _ wc_dhA); apply wc_dhA_address|]. apply rtc_refl.
Qed.
Lemma inbox_conserves_witness :
  [entry wc_in] ≡ₚ posts (chat_log (view (sh wc_end))) ++ held_in (pending (mail (sh wc_end))) ++ [] ++ [] ∧
  i_text wc_in = ascii "hi bob" ∧ posts (chat_log (view (sh wc_end))) = [(hex wc_dhA, wc_now, ascii "hi bob")].
Proof.
  split; [|split; vm_compute; reflexivity].
  apply (inbox_conserves 32 wc_rand wc_ok wc_ok wc_dhB None wc_has wc_sB wc_end); [apply fresh_ok|apply fresh_ok|exact wc_runs].
Defined.

Lemma ticket_authentic_witness :
  tickets (mail wc_received.2) !! wc_dhA = Some (1800000000, replicate 16 3) ∧
  (tickets (mail wc_sB) !! wc_dhA = Some (1800000000, replicate 16 3) ∨
   (∃ now live blob o k, deliver_receive 32 wc_rand wc_ok wc_ok wc_dhB now live blob wc_sB = Ok (o, wc_received.2) ∧
      known (tp (a_net wc_sB)) wc_dhA = Some k ∧ ticket_of 32 now wc_dhA (kd_identity k) blob (1800000000, replicate 16 3)) ∨
   (∃ now info blob, on_announce 32 wc_rand wc_ok wc_ok wc_dhB None wc_has now wc_dhA info wc_sB = Ok wc_received.2 ∧
      ticket_of 32 now wc_dhA (kd_identity info) blob (1800000000, replicate 16 3))).
Proof.
  assert (tickets (mail wc_received.2) !! wc_dhA = Some (1800000000, replicate 16 3)) as Ht by (vm_compute; reflexivity).
  split; [exact Ht|].
  apply (ticket_authentic 32 wc_rand wc_ok wc_ok wc_dhB None wc_has wc_sB (started wc_sB) (mkSys wc_received.2 [wc_in] [entry wc_in] [])
    wc_dhA (1800000000, replicate 16 3)); [apply fresh_ok|apply fresh_ok|apply rtc_refl| |exact Ht].
  apply (st_receive _ _ _ _ _ _ _ wc_now true wc_blob wc_sB wc_in wc_received.2 [] [] [] wc_blob_ok wc_receives).
Defined.
