(* ===== verification/DocView.v ===== *)
(** The document view of the chat library ([chat/src/ui.rs], "document mode"; its requests are
    in [chat/src/lib.rs]): the page on screen, its scroll position and the selected link.

    A position is a pixel offset from the top of the document.  The natural height of a line,
    which the graphics server measures, is the parameter [measure]; the view measures a line
    once and keeps the height, so a line has one height here.  A [u32] offset does not overflow
    ([line_tops_bounded]). *)
From S2P Require Import Micron Prelude.

Definition DOC_STYLE_REGULAR : Z := 0.
Definition DOC_STYLE_BOLD : Z := 1.
Definition DOC_STYLE_MONO : Z := 2.
Definition DOC_STYLE_LARGE : Z := 3.
Definition DOC_ALIGN_LEFT : Z := 0.
Definition DOC_ALIGN_CENTER : Z := 1.
Definition DOC_ALIGN_RIGHT : Z := 2.
Definition DOC_KIND_TEXT : Z := 0.
Definition DOC_KIND_DIVIDER : Z := 1.
Definition DOC_KIND_LINK : Z := 2.
Definition DOC_MAX_LINES : nat := Z.to_nat 2048.
Definition DOC_DIVIDER_HEIGHT : Z := 12.

Record DocLine := mkDocLine { dl_text : str; dl_style : Z; dl_align : Z; dl_kind : Z; dl_link_id : Z }.
Record DocState := mkDocState { doc_title : bytes; dlines : list DocLine; scroll : Z; cursor : option nat }.
(** [input_visible]: the input box is shown. *)
Record Ui := mkUi { document : option DocState; doc_staging : option DocState; doc_suspended : option DocState; input_visible : bool }.

Definition with_scroll (s : Z) (d : DocState) : DocState := mkDocState (doc_title d) (dlines d) s (cursor d).
Definition with_cursor (c : option nat) (d : DocState) : DocState := mkDocState (doc_title d) (dlines d) (scroll d) c.

(** ** Staging, showing and parking a document *)
Definition doc_active (u : Ui) : bool := bool_decide (is_Some (document u)).
Definition doc_begin (title : bytes) (u : Ui) : Ui :=
  mkUi (document u) (Some (mkDocState title [] 0 None)) (doc_suspended u) (input_visible u).
Definition doc_append (ls : list DocLine) (u : Ui) : Ui :=
  match doc_staging u with
  | Some d =>
      let room := (DOC_MAX_LINES - length (dlines d))%nat in
      mkUi (document u) (Some (mkDocState (doc_title d) (dlines d ++ take room ls) (scroll d) (cursor d))) (doc_suspended u) (input_visible u)
  | None => u
  end.
Definition doc_show (u : Ui) : Ui :=
  match doc_staging u with
  | Some d => mkUi (Some d) None None (if doc_active u then input_visible u else false)
  | None => u
  end.
Definition doc_clear (u : Ui) : Ui := mkUi None None None (if doc_active u then true else input_visible u).
Definition doc_suspend (u : Ui) : Ui :=
  match document u with
  | Some d => mkUi None None (Some d) true
  | None => mkUi None None (doc_suspended u) (input_visible u)
  end.
Definition doc_resume (u : Ui) : bool * Ui :=
  match doc_suspended u with
  | Some d => (true, mkUi (Some d) (doc_staging u) None false)
  | None => (false, u)
  end.
Definition on_document (f : DocState → DocState) (u : Ui) : Ui :=
  mkUi (f <$> document u) (doc_staging u) (doc_suspended u) (input_visible u).

(** The lines go to the view 32 at a time. *)
Definition cf_document_lines (ls : list DocLine) (u : Ui) : Ui := foldl (λ u c, doc_append c u) u (chunks 32 ls).

Definition doc_is_link (d : DocState) (i : nat) : bool :=
  match dlines d !! i with Some l => dl_kind l =? DOC_KIND_LINK | None => false end.
Definition doc_selected_link (u : Ui) : option Z :=
  d ← document u;
  c ← cursor d;
  l ← dlines d !! c;
  if dl_kind l =? DOC_KIND_LINK then Some (dl_link_id l) else None.

(** ** Positions *)

(** What the layout depends on: the height of the canvas and of the status bar, the margin, the
    space between lines, and the glyph heights of the tray and of the text. *)
Record VisualProperties := mkVP { canvas_y : Z; status_height : Z; margin_y : Z; bubble_space : Z; tall_glyph : Z; regular_glyph : Z }.
(** The first row, the row below the last, and the number of rows. *)
Definition doc_metrics (vp : VisualProperties) : Z * Z * Z :=
  let y0 := status_height vp + margin_y vp in
  let tray := tall_glyph vp + 2 * margin_y vp in
  let bottom := Z.max (canvas_y vp - tray) (y0 + 1) in
  (y0, bottom, Z.max (bottom - y0) 0).
Definition budget (vp : VisualProperties) : Z := (doc_metrics vp).2.
Definition doc_row_step (vp : VisualProperties) : Z := regular_glyph vp + bubble_space vp.
Definition saturating_sub (a b : Z) : Z := Z.max (a - b) 0.

Section view.
Context (measure : DocLine → Z) (vp : VisualProperties).

Definition line_height (l : DocLine) : Z :=
  if (dl_kind l =? DOC_KIND_DIVIDER) || bool_decide (dl_text l = []) then DOC_DIVIDER_HEIGHT else measure l.
Definition doc_line_height (d : DocState) (i : nat) : Z :=
  match dlines d !! i with Some l => line_height l | None => 0 end.
Definition doc_line_top (d : DocState) (idx : nat) : Z :=
  foldl (λ y i, y + (doc_line_height d i + bubble_space vp)) 0 (seq 0 idx).
Definition doc_max_scroll (d : DocState) : Z := saturating_sub (doc_line_top d (length (dlines d))) (budget vp).
Definition doc_set_scroll (target : Z) (d : DocState) : DocState := with_scroll (Z.min target (doc_max_scroll d)) d.

Fixpoint first_visible (d : DocState) (n i : nat) (y : Z) : option nat :=
  match n with
  | O => None
  | S n =>
      let y := y + (doc_line_height d i + bubble_space vp) in
      if scroll d <? y then Some i else first_visible d n (S i) y
  end.
Definition doc_first_visible_line (d : DocState) : nat :=
  default (length (dlines d) - 1)%nat (first_visible d (length (dlines d)) 0 0).

(** ** Keys *)
Definition doc_scroll_into_view (i : nat) (d : DocState) : DocState :=
  let top := doc_line_top d i in
  let h := doc_line_height d i in
  let s := if top <? scroll d then top
           else if scroll d + budget vp <? top + h then saturating_sub (top + h) (budget vp)
           else scroll d in
  with_scroll (Z.min s (doc_max_scroll d)) d.
Definition doc_cursor (next : bool) (d : DocState) : DocState :=
  let total := length (dlines d) in
  if bool_decide (total = 0)%nat then d
  else
    let anchor := doc_first_visible_line d in
    let target :=
      match cursor d, next with
      | Some c, true => List.find (doc_is_link d) (seq (S c) (total - S c))
      | Some c, false => List.find (doc_is_link d) (rev (seq 0 c))
      | None, true => List.find (doc_is_link d) (seq anchor (total - anchor))
      | None, false => List.find (doc_is_link d) (rev (seq 0 (S anchor)))
      end in
    match target with Some i => doc_scroll_into_view i (with_cursor (Some i) d) | None => d end.

(** The last line that is fully on the page. *)
Fixpoint last_full (d : DocState) (n i last : nat) (y : Z) : nat :=
  match n with
  | O => last
  | S n =>
      let h := doc_line_height d i in
      let last := if (scroll d <=? y) && (y + h <=? scroll d + budget vp) then i else last in
      let y := y + (h + bubble_space vp) in
      if scroll d + budget vp <=? y then last else last_full d n (S i) last y
  end.
(** The first line of the page whose last line is the present top line. *)
Fixpoint pack_up (d : DocState) (top_line : nat) (used : Z) : nat :=
  match top_line with
  | O => O
  | S t =>
      let h := doc_line_height d t in
      if used + bubble_space vp + h <=? budget vp then pack_up d t (used + (bubble_space vp + h)) else S t
  end.
Definition doc_page (down : bool) (d : DocState) : DocState :=
  let total := length (dlines d) in
  if bool_decide (total = 0)%nat then d
  else
    let step := doc_row_step vp in
    let first := doc_first_visible_line d in
    let target :=
      if down then
        let last := last_full d (total - first) first first (doc_line_top d first) in
        if (first <? last)%nat then doc_line_top d last else scroll d + saturating_sub (budget vp) step
      else
        let top_line := pack_up d first (doc_line_height d first) in
        if (top_line <? first)%nat then doc_line_top d top_line else saturating_sub (scroll d) (saturating_sub (budget vp) step) in
    doc_set_scroll target d.

Definition doc_line (down : bool) (d : DocState) : DocState :=
  let total := length (dlines d) in
  if bool_decide (total = 0)%nat then d
  else
    let step := doc_row_step vp in
    let first := doc_first_visible_line d in
    let top := doc_line_top d first in
    let h := doc_line_height d first in
    let target :=
      if down then
        if (budget vp <? h) && (scroll d + budget vp <? top + h)
        then Z.min (scroll d + step) (saturating_sub (top + h) (budget vp))
        else doc_line_top d (Nat.min (S first) (total - 1))
      else if top <? scroll d then Z.max (saturating_sub (scroll d) step) top
      else doc_line_top d (first - 1) in
    doc_set_scroll target d.
Definition doc_edge (bottom : bool) (d : DocState) : DocState :=
  with_cursor None (doc_set_scroll (if bottom then doc_max_scroll d else 0) d).

(** ** Drawing *)
Fixpoint snap (d : DocState) (n i : nat) (y : Z) (first_link : option nat) (keep : bool) : option nat * bool :=
  match n with
  | O => (first_link, keep)
  | S n =>
      let h := doc_line_height d i in
      let hit := (scroll d <=? y) && (y + h <=? scroll d + budget vp) && doc_is_link d i in
      let first_link := if hit then match first_link with None => Some i | _ => first_link end else first_link in
      let keep := keep || (hit && bool_decide (cursor d = Some i)) in
      let y := y + (h + bubble_space vp) in
      if scroll d + budget vp <=? y then (first_link, keep) else snap d n (S i) y first_link keep
  end.
Definition doc_snap_cursor (d : DocState) : DocState :=
  let '(first_link, keep) := snap d (length (dlines d)) 0 0 None false in
  with_cursor (if keep then cursor d else first_link) d.
(** The lines drawn, with the row each starts at. *)
Fixpoint draw (d : DocState) (n i : nat) (doc_y : Z) : list (nat * Z) :=
  match n with
  | O => []
  | S n =>
      let line_bottom := doc_y + doc_line_height d i in
      let next_y := line_bottom + bubble_space vp in
      if line_bottom <=? scroll d then draw d n (S i) next_y
      else
        let '(y0, bottom, _) := doc_metrics vp in
        let screen_y := y0 + doc_y - scroll d in
        if bottom <=? screen_y then [] else (i, screen_y) :: draw d n (S i) next_y
  end.
Definition layout_document (d : DocState) : DocState * list (nat * Z) :=
  let d := doc_snap_cursor (with_scroll (Z.min (scroll d) (doc_max_scroll d)) d) in
  (d, draw d (length (dlines d)) 0 0).

(** A key of the viewer, then the redraw. *)
Inductive Key := Up | Down | PageUp | PageDown | LineUp | LineDown | Top | Bottom.
Definition key_op (k : Key) : DocState → DocState :=
  match k with
  | Up => doc_cursor false
  | Down => doc_cursor true
  | PageUp => doc_page false
  | PageDown => doc_page true
  | LineUp => doc_line false
  | LineDown => doc_line true
  | Top => doc_edge false
  | Bottom => doc_edge true
  end.
Definition redraw (u : Ui) : Ui := on_document (λ d, (layout_document d).1) u.
Definition press (k : Key) (u : Ui) : Ui := redraw (on_document (key_op k) u).
End view.
