(* ===== verification/DocViewProps.v ===== *)
(** What the document view promises its reader: paging down shows every row of every line,
    the cursor can be moved to every link, and it never stays on a link that is not shown. *)
From S2P Require Import Micron Prelude DocView.

Section props.
Context (measure : DocLine → Z) (vp : VisualProperties).
Context (Hm : ∀ l, 0 < measure l) (Hgap : 0 < bubble_space vp).

Notation height := (doc_line_height measure).
Notation top := (doc_line_top measure vp).
Notation max_scroll := (doc_max_scroll measure vp).
Notation gap := (bubble_space vp).

(** ** Positions *)
Lemma budget_pos : 1 ≤ budget vp.
Proof using Type. unfold budget, doc_metrics. cbn. lia. Qed.
Lemma height_pos d i : (i < length (dlines d))%nat → 0 < height d i.
Proof using Hm.
  intros Hi. unfold doc_line_height. destruct (lookup_lt_is_Some_2 _ _ Hi) as [l ->]. unfold line_height, DOC_DIVIDER_HEIGHT.
  destruct (_ || _); [lia|apply Hm].
Qed.
Lemma height_nonneg d i : 0 ≤ height d i.
Proof using Hm.
  destruct (decide (i < length (dlines d))%nat); [pose proof (height_pos d i); lia|].
  unfold doc_line_height. by rewrite lookup_ge_None_2 by lia.
Qed.
Lemma top_0 d : top d 0 = 0.
Proof using Type. done. Qed.
Lemma top_S d i : top d (S i) = top d i + (height d i + gap).
Proof using Type. unfold doc_line_top. rewrite seq_S, foldl_app. done. Qed.
Lemma top_mono d i j : (i ≤ j)%nat → top d i ≤ top d j.
Proof using Hm Hgap. induction 1 as [|j _ IH]; [lia|]. rewrite top_S. pose proof (height_nonneg d j). lia. Qed.
Lemma top_below d i j : (i < j)%nat → top d i + height d i + gap ≤ top d j.
Proof using Hm Hgap. intros H. pose proof (top_mono d (S i) j). rewrite top_S in *. lia. Qed.
Lemma top_nonneg d i : 0 ≤ top d i.
Proof using Hm Hgap. pose proof (top_mono d 0 i). rewrite top_0 in *. lia. Qed.

(** ** The state of the view *)
Record view_ok (d : DocState) : Prop := {
  v_scroll : 0 ≤ scroll d ≤ max_scroll d;
  v_cursor : ∀ c, cursor d = Some c → doc_is_link d c = true;
}.
(** Line [i] is a link that is wholly on the page. *)
Definition full (d : DocState) (i : nat) : Prop :=
  doc_is_link d i = true ∧ scroll d ≤ top d i ∧ top d i + height d i ≤ scroll d + budget vp.

Lemma is_link_lt d i : doc_is_link d i = true → (i < length (dlines d))%nat.
Proof using Type. unfold doc_is_link. destruct (dlines d !! i) eqn:E; [|done]. intros _. by eapply lookup_lt_Some. Qed.
Lemma max_nonneg d : 0 ≤ max_scroll d.
Proof using Type. unfold doc_max_scroll, saturating_sub. lia. Qed.
Lemma max_covers d i : (i < length (dlines d))%nat → top d i + height d i ≤ max_scroll d + budget vp.
Proof using Hm Hgap. intros Hi. pose proof (top_below d i _ Hi). unfold doc_max_scroll, saturating_sub. lia. Qed.
Lemma scroll_below_end d : view_ok d → (0 < length (dlines d))%nat → scroll d < top d (length (dlines d)).
Proof using Hm Hgap.
  intros [Hs _] Hl. pose proof budget_pos. pose proof (top_below d 0 _ Hl). pose proof (height_nonneg d 0). rewrite top_0 in *.
  unfold doc_max_scroll, saturating_sub in Hs. lia.
Qed.

Lemma first_visible_spec d n i y : y = top d i → y ≤ scroll d → scroll d < top d (i + n) →
  ∃ j, first_visible measure vp d n i y = Some j ∧ (i ≤ j < i + n)%nat ∧ top d j ≤ scroll d < top d (S j).
Proof using Type.
  revert i y. induction n as [|n IH]; intros i y -> Hy Hend; [rewrite Nat.add_0_r in Hend; lia|].
  cbn [first_visible]. rewrite <-top_S. destruct (Z.ltb_spec (scroll d) (top d (S i))) as [Hlt|Hge].
  - exists i. split_and!; [done|lia..].
  - destruct (IH (S i) (top d (S i))) as (j & -> & ? & ?); [done|lia|by rewrite Nat.add_succ_comm|]. exists j. split_and!; [done|lia..].
Qed.
Lemma first_line d : view_ok d → (0 < length (dlines d))%nat →
  let j := doc_first_visible_line measure vp d in (j < length (dlines d))%nat ∧ top d j ≤ scroll d < top d (S j).
Proof using Hm Hgap.
  intros Hd Hl. pose proof (scroll_below_end d Hd Hl) as He. destruct Hd as [Hs _].
  destruct (first_visible_spec d (length (dlines d)) 0 0) as (j & E & ? & ?); [done|lia|done|].
  unfold doc_first_visible_line. rewrite E. cbn. split; [lia|done].
Qed.

(** ** What is drawn *)
Lemma draw_spec d n i y j sy : y = top d i →
  (j, sy) ∈ draw measure vp d n i y ↔
  (i ≤ j < i + n)%nat ∧ scroll d < top d j + height d j ∧
  sy = (doc_metrics vp).1.1 + top d j - scroll d ∧ sy < (doc_metrics vp).1.2.
Proof using Hm Hgap.
  destruct (doc_metrics vp) as [[y0 bottom] b] eqn:Em. cbn [fst snd].
  revert i y. induction n as [|n IH]; intros i y ->; [cbn; rewrite elem_of_nil; lia|].
  cbn [draw]. rewrite Em. specialize (IH (S i) _ (eq_sym (eq_refl (top d (S i))))). rewrite top_S in IH at 1. rewrite Z.add_assoc in IH.
  destruct (Z.leb_spec (top d i + height d i) (scroll d)) as [Hle|Hgt].
  { rewrite IH. split; intros (? & ?); [split; [lia|done]|]. split; [|done].
    destruct (decide (j = i)) as [->|]; lia. }
  destruct (Z.leb_spec bottom (y0 + top d i - scroll d)) as [Hb|Hb].
  { rewrite elem_of_nil. split; [done|]. intros (Hj & Hv & -> & Hlt).
    pose proof (top_mono d i j). lia. }
  rewrite elem_of_cons, IH. split.
  - intros [[=-> ->]|(? & ?)]; [split_and!; lia|]. split; [lia|done].
  - intros (Hj & Hv & -> & Hlt). destruct (decide (j = i)) as [->|]; [by left|right]. split_and!; lia.
Qed.

(** ** The redraw *)
Lemma snap_spec d n i y fl keep : y = top d i → (i + n = length (dlines d))%nat →
  let r := snap measure vp d n i y fl keep in
  (r.2 = true ↔ keep = true ∨ ∃ j, (i ≤ j)%nat ∧ full d j ∧ cursor d = Some j) ∧
  match fl with
  | Some f => r.1 = Some f
  | None =>
      match r.1 with
      | Some j => (i ≤ j)%nat ∧ full d j ∧ ∀ k, (i ≤ k < j)%nat → ¬ full d k
      | None => ∀ k, (i ≤ k)%nat → ¬ full d k
      end
  end.
Proof using Hm Hgap.
  revert i y fl keep. induction n as [|n IH]; intros i y fl keep -> Hn; cbn [snap].
  { assert (∀ k, (i ≤ k)%nat → ¬ full d k) as Hno by (intros k ? [?%is_link_lt _]; lia).
    split; [|by destruct fl]. split; [by left|]. intros [?|(j & ? & ? & ?)]; [done|naive_solver]. }
  set (hit := (scroll d <=? top d i) && (top d i + height d i <=? scroll d + budget vp) && doc_is_link d i).
  assert (hit = true ↔ full d i) as Hhit by (unfold hit, full; rewrite !andb_true_iff, !Z.leb_le; tauto).
  assert (hit = false ↔ ¬ full d i) as Hmiss by (rewrite <-Hhit; destruct hit; naive_solver).
  rewrite <-top_S.
  assert (∀ P : nat → Prop, (∃ j, (i ≤ j)%nat ∧ P j) ↔ P i ∨ ∃ j, (S i ≤ j)%nat ∧ P j) as Hsplit.
  { intros P. split; [|intros [?|(j & ? & ?)]; [by exists i|exists j; split; [lia|done]]].
    intros (j & ? & ?). destruct (decide (j = i)) as [->|]; [by left|right; exists j; split; [lia|done]]. }
  destruct (Z.leb_spec (scroll d + budget vp) (top d (S i))) as [Hb|Hb].
  - assert (∀ k, (S i ≤ k)%nat → ¬ full d k) as Hno.
    { intros k Hk (Hl%is_link_lt%height_pos & _ & ?). pose proof (top_mono d (S i) k). lia. }
    cbn [fst snd]. split.
    + rewrite Hsplit, orb_true_iff, andb_true_iff, bool_decide_eq_true, Hhit. naive_solver.
    + destruct hit eqn:E; destruct fl as [f|]; [done| |done|].
      * split_and!; [lia|by apply Hhit|]. intros k Hk. lia.
      * intros k Hk. destruct (decide (k = i)) as [->|]; [by apply Hmiss|apply Hno; lia].
  - destruct (IH (S i) (top d (S i)) (if hit then match fl with None => Some i | _ => fl end else fl)
      (keep || (hit && bool_decide (cursor d = Some i))) eq_refl) as [H1 H2]; [lia|].
    split.
    + rewrite H1, Hsplit, orb_true_iff, andb_true_iff, bool_decide_eq_true, Hhit. tauto.
    + destruct fl as [f|]; [by destruct hit|]. destruct hit eqn:E.
      * rewrite H2. split_and!; [lia|by apply Hhit|lia].
      * destruct (snap _ _ _ _ _ _ _ _).1 as [j|].
        -- destruct H2 as (? & ? & H). split_and!; [lia|done|]. intros k Hk.
           destruct (decide (k = i)) as [->|]; [by apply Hmiss|apply H; lia].
        -- intros k Hk. destruct (decide (k = i)) as [->|]; [by apply Hmiss|apply H2; lia].
Qed.

(** The redraw of a document whose scroll position is valid only moves the cursor: it keeps a
    selected link that is wholly on the page, else takes the first such link. *)
Lemma layout_snaps d : 0 ≤ scroll d ≤ max_scroll d →
  ∃ c, (layout_document measure vp d).1 = with_cursor c d ∧
  (∀ i, c = Some i → full d i) ∧
  (∀ i, cursor d = Some i → full d i → c = Some i) ∧
  ((∀ i, cursor d = Some i → ¬ full d i) → match c with Some i => ∀ k, (k < i)%nat → ¬ full d k | None => ∀ k, ¬ full d k end).
Proof using Hm Hgap.
  intros Hs. unfold layout_document, doc_snap_cursor. rewrite Z.min_l by lia.
  replace (with_scroll (scroll d) d) with d by (by destruct d). cbn [fst].
  destruct (snap_spec d (length (dlines d)) 0 0 None false eq_refl eq_refl) as [H1 H2].
  destruct (snap _ _ _ _ _ _ _ _) as [fl keep]. cbn [fst snd] in *.
  assert (keep = true ↔ ∃ j, full d j ∧ cursor d = Some j) as Hk.
  { rewrite H1. split; [intros [|(j & _ & ?)]; [done|by exists j]|]. intros (j & ?). right. exists j. split; [lia|done]. }
  eexists. split; [done|]. destruct keep.
  - destruct (proj1 Hk eq_refl) as (j & Hf & ->). split_and!; naive_solver.
  - split_and!.
    + intros i ->. by destruct H2 as (_ & ? & _).
    + intros i Hc Hf. assert (false = true) by (apply Hk; eauto). done.
    + intros _. destruct fl as [j|]; [|intros k; apply H2; lia]. destruct H2 as (_ & _ & H). intros k ?. apply H. lia.
Qed.

Lemma max_with_scroll d s : max_scroll (with_scroll s d) = max_scroll d.
Proof using Type. done. Qed.
Lemma full_with_cursor d c i : full (with_cursor c d) i ↔ full d i.
Proof using Type. done. Qed.

(** ** Paging *)
Lemma last_full_spec d n i last y : y = top d i →
  let r := last_full measure vp d n i last y in
  r = last ∨ ((i ≤ r < i + n)%nat ∧ scroll d ≤ top d r ∧ top d r + height d r ≤ scroll d + budget vp).
Proof using Type.
  revert i last y. induction n as [|n IH]; intros i last y ->; cbn [last_full]; [by left|].
  rewrite <-top_S.
  destruct (_ && _) eqn:E; [apply andb_true_iff in E as [?%Z.leb_le ?%Z.leb_le]|];
    (destruct (Z.leb_spec (scroll d + budget vp) (top d (S i))); [first [right; split_and!; [lia..] | by left]|]);
    [destruct (IH (S i) i _ eq_refl) as [->|(? & ?)]|destruct (IH (S i) last _ eq_refl) as [->|(? & ?)]];
    first [by left | right; split_and!; [lia..]].
Qed.

(** A page down goes forward by at most a page, and forward unless the end is reached. *)
Lemma page_down d : view_ok d → 0 ≤ doc_row_step vp < budget vp →
  ∃ s, doc_page measure vp true d = with_scroll s d ∧ scroll d ≤ s ≤ scroll d + budget vp ∧ s ≤ max_scroll d ∧
  (scroll d < s ∨ s = max_scroll d).
Proof using Hm Hgap.
  intros Hd Hstep. pose proof Hd as [Hs _]. unfold doc_page. case_bool_decide as He.
  { exists (scroll d). split; [by destruct d|]. pose proof budget_pos.
    assert (max_scroll d = 0) by (unfold doc_max_scroll, saturating_sub; rewrite He, top_0; lia). split_and!; lia. }
  destruct (first_line d Hd ltac:(lia)) as (Hf & Hft). set (first := doc_first_visible_line measure vp d) in *.
  destruct (last_full_spec d (length (dlines d) - first) first first _ eq_refl) as [->|(Hr & Hlo & Hhi)].
  { rewrite (proj2 (Nat.ltb_ge _ _)) by lia. unfold doc_set_scroll, saturating_sub. eexists. split; [done|]. split_and!; lia. }
  set (r := last_full _ _ _ _ _ _ _) in *. destruct (Nat.ltb_spec first r) as [Hlt|Hge].
  - unfold doc_set_scroll. eexists. split; [done|]. pose proof (top_mono d (S first) r Hlt). pose proof (height_nonneg d r). split_and!; lia.
  - unfold doc_set_scroll, saturating_sub. eexists. split; [done|]. split_and!; lia.
Qed.

Definition strike (k : Key) (d : DocState) : DocState := (layout_document measure vp (key_op measure vp k d)).1.

Lemma strike_page_down d : view_ok d → 0 ≤ doc_row_step vp < budget vp →
  let d' := strike PageDown d in
  view_ok d' ∧ dlines d' = dlines d ∧ scroll d ≤ scroll d' ≤ scroll d + budget vp ∧ (scroll d < scroll d' ∨ scroll d' = max_scroll d).
Proof using Hm Hgap.
  intros Hd Hstep. destruct (page_down d Hd Hstep) as (s & E & H1 & H2 & H3). unfold strike. cbn [key_op]. rewrite E.
  destruct (layout_snaps (with_scroll s d)) as (c & -> & Hc & _); [cbn; rewrite max_with_scroll; destruct Hd; lia|].
  cbn [scroll with_cursor with_scroll dlines cursor]. split_and!; [|done|lia..|done]. split; [cbn; destruct Hd; split; [lia|done]|]. cbn. intros i Hi. destruct (Hc i Hi). done.
Qed.

(** ** Moving to a link *)
Lemma into_view d i : view_ok d → doc_is_link d i = true → height d i ≤ budget vp →
  ∃ s, doc_scroll_into_view measure vp i (with_cursor (Some i) d) = with_scroll s (with_cursor (Some i) d) ∧
  0 ≤ s ≤ max_scroll d ∧ full (with_scroll s d) i.
Proof using Hm Hgap.
  intros [Hs _] Hi Hh. pose proof (max_covers d i (is_link_lt d i Hi)). pose proof (top_nonneg d i). pose proof (height_nonneg d i). pose proof (max_nonneg d).
  unfold doc_scroll_into_view. eexists. split; [done|]. unfold full.
  change (doc_max_scroll measure vp (with_cursor (Some i) d)) with (max_scroll d).
  change (doc_line_top measure vp (with_cursor (Some i) d) i) with (top d i).
  change (doc_line_height measure (with_cursor (Some i) d) i) with (height d i).
  change (scroll (with_cursor (Some i) d)) with (scroll d).
  match goal with |- context [with_scroll ?s d] => change (top (with_scroll s d) i) with (top d i);
    change (height (with_scroll s d) i) with (height d i); change (scroll (with_scroll s d)) with s end.
  unfold saturating_sub. destruct (Z.ltb_spec (top d i) (scroll d)); [|destruct (Z.ltb_spec (scroll d + budget vp) (top d i + height d i))];
    (split; [lia|]); split_and!; first [done|lia].
Qed.
Lemma select_keeps d i : view_ok d → doc_is_link d i = true → height d i ≤ budget vp →
  let d' := (layout_document measure vp (doc_scroll_into_view measure vp i (with_cursor (Some i) d))).1 in
  view_ok d' ∧ dlines d' = dlines d ∧ cursor d' = Some i.
Proof using Hm Hgap.
  intros Hd Hi Hh. destruct (into_view d i Hd Hi Hh) as (s & -> & Hs & Hf).
  destruct (layout_snaps (with_scroll s (with_cursor (Some i) d))) as (c & -> & _ & Hc & _); [done|].
  rewrite (Hc i eq_refl Hf). cbn. split_and!; [|done..]. split; [done|]. cbn. by intros ? [= <-].
Qed.

Lemma find_seq (f : nat → bool) a n i : (a ≤ i < a + n)%nat → f i = true → (∀ k, (a ≤ k < i)%nat → f k = false) →
  List.find f (seq a n) = Some i.
Proof using Type.
  revert a. induction n as [|n IH]; intros a Hi Hf Hno; [lia|]. cbn. destruct (decide (a = i)) as [->|]; [by rewrite Hf|].
  rewrite (Hno a) by lia. apply IH; [lia|done|]. intros k ?. apply Hno. lia.
Qed.
(** From a link, the down key goes to the next one. *)
Lemma strike_down d c i : view_ok d → cursor d = Some c → doc_is_link d i = true → height d i ≤ budget vp →
  (c < i)%nat → (∀ k, (c < k < i)%nat → doc_is_link d k = false) →
  let d' := strike Down d in view_ok d' ∧ dlines d' = dlines d ∧ cursor d' = Some i.
Proof using Hm Hgap.
  intros Hd Hc Hi Hh Hlt Hno. pose proof (is_link_lt d i Hi). unfold strike. cbn [key_op]. unfold doc_cursor.
  rewrite bool_decide_false by lia. rewrite Hc, (find_seq _ _ _ i) by (first [lia|done|intros; apply Hno; lia]).
  by apply select_keeps.
Qed.
(** At the top without a selection, it goes to the first one. *)
Lemma strike_down_first d i : view_ok d → scroll d = 0 → cursor d = None → doc_is_link d i = true → height d i ≤ budget vp →
  (∀ k, (k < i)%nat → doc_is_link d k = false) →
  let d' := strike Down d in view_ok d' ∧ dlines d' = dlines d ∧ cursor d' = Some i.
Proof using Hm Hgap.
  intros Hd H0 Hc Hi Hh Hno. pose proof (is_link_lt d i Hi). unfold strike. cbn [key_op]. unfold doc_cursor.
  rewrite bool_decide_false by lia. destruct (first_line d Hd ltac:(lia)) as (Hf & Ht & _). rewrite Hc.
  assert (doc_first_visible_line measure vp d = 0%nat) as ->.
  { destruct (doc_first_visible_line measure vp d) as [|j]; [done|]. pose proof (top_below d 0 (S j) ltac:(lia)). rewrite top_0 in *.
    pose proof (height_nonneg d 0). lia. }
  rewrite (find_seq _ _ _ i) by (first [lia|done|intros; apply Hno; lia]). by apply select_keeps.
Qed.
(** The top of the page: nothing selected, or the first link. *)
Lemma strike_top d : let d' := strike Top d in
  view_ok d' ∧ dlines d' = dlines d ∧ scroll d' = 0 ∧
  match cursor d' with Some c => ∀ k, (k < c)%nat → doc_is_link d k = false | None => True end.
Proof using Hm Hgap.
  unfold strike. cbn [key_op]. unfold doc_edge, doc_set_scroll. pose proof (max_nonneg d). rewrite Z.min_l by lia.
  destruct (layout_snaps (with_cursor None (with_scroll 0 d))) as (c & -> & H1 & _ & H3); [by cbn; change (0 ≤ 0 ≤ max_scroll d); lia|].
  specialize (H3 ltac:(done)). cbn. split_and!; [|done|done|].
  - split; [cbn; change (0 ≤ 0 ≤ max_scroll d); lia|]. cbn. intros i Hi. by destruct (H1 i Hi).
  - destruct c as [c|]; [|done]. intros k Hk. specialize (H3 k Hk). destruct (H1 c eq_refl) as (Hl & _ & Hc).
    destruct (doc_is_link d k) eqn:E; [|done]. destruct H3. split; [done|]. cbn.
    change (0 ≤ top d k ∧ top d k + height d k ≤ 0 + budget vp). change (top d c + height d c ≤ 0 + budget vp) in Hc.
    pose proof (top_nonneg d k). pose proof (top_below d k c Hk). pose proof (height_nonneg d c). lia.
Qed.
End props.

(** ** What the reader can do *)
Lemma press_strike measure vp k u : document (press measure vp k u) = strike measure vp k <$> document u.
Proof. unfold press, redraw, on_document, strike. cbn [document]. by destruct (document u). Qed.
Lemma presses_strike measure vp k n u :
  document (Nat.iter n (press measure vp k) u) = Nat.iter n (strike measure vp k) <$> document u.
Proof. induction n as [|n IH]; [cbn; destruct (document u); done|]. rewrite Nat.iter_succ, press_strike, IH. by destruct (document u). Qed.

(** No key changes the lines. *)
Lemma strike_lines measure vp k d : dlines (strike measure vp k d) = dlines d.
Proof.
  unfold strike, layout_document, doc_snap_cursor. cbn [fst]. destruct (snap _ _ _ _ _ _ _ _) as [fl keep]. cbn [dlines with_cursor with_scroll].
  destruct k; cbn [key_op]; unfold doc_cursor, doc_page, doc_line, doc_edge, doc_scroll_into_view, doc_set_scroll;
    try destruct (bool_decide _); try destruct (match cursor d with Some _ => _ | None => _ end); done.
Qed.
Lemma press_keeps measure vp k u : doc_suspended (press measure vp k u) = doc_suspended u ∧
  (dlines <$> document (press measure vp k u)) = (dlines <$> document u).
Proof. split; [done|]. rewrite press_strike. destruct (document u); [|done]. cbn [fmap option_fmap option_map]. by rewrite strike_lines. Qed.

Section reader.
Context (measure : DocLine → Z) (vp : VisualProperties).
Context (Hm : ∀ l, 0 < measure l) (Hgap : 0 < bubble_space vp).

(** Paging from [d] shows row [y]. *)
Lemma pages_reach d y : view_ok measure vp d → 0 ≤ doc_row_step vp < budget vp → scroll d ≤ y →
  y < doc_max_scroll measure vp d + budget vp →
  ∃ n, let d' := Nat.iter n (strike measure vp PageDown) d in
  view_ok measure vp d' ∧ dlines d' = dlines d ∧ scroll d' ≤ y < scroll d' + budget vp.
Proof using Hm Hgap.
  intros Hd Hstep. remember (Z.to_nat (y - scroll d)) as fuel eqn:Ef. revert d Hd Ef.
  induction fuel as [fuel IH] using lt_wf_ind. intros d Hd -> Hy Hmax.
  destruct (decide (y < scroll d + budget vp)) as [Hlt|Hge]; [by exists 0%nat|].
  destruct (strike_page_down measure vp Hm Hgap d Hd Hstep) as (Hd' & El & Hb & Hp). set (d' := strike _ _ _ d) in *.
  assert (doc_max_scroll measure vp d' = doc_max_scroll measure vp d) as Em by (unfold doc_max_scroll, doc_line_top, doc_line_height; by rewrite El).
  pose proof (budget_pos vp). pose proof (v_scroll _ _ _ Hd').
  destruct (IH (Z.to_nat (y - scroll d')) ltac:(lia) d' Hd' eq_refl) as (n & H1 & H2 & H3); [lia..|].
  exists (S n). rewrite Nat.iter_succ_r. cbv zeta. rewrite El in H2. done.
Qed.

Lemma prev_true (f : nat → bool) i : (∀ k, (k < i)%nat → f k = false) ∨ ∃ p, (p < i)%nat ∧ f p = true ∧ ∀ k, (p < k < i)%nat → f k = false.
Proof using Type.
  induction i as [|i IH]; [left; lia|]. destruct (f i) eqn:E; [right; exists i; split_and!; [lia|done|lia]|].
  destruct IH as [H|(p & ? & ? & H)]; [left|right; exists p; split_and!; [lia|done|]];
    (intros k Hk; destruct (decide (k = i)) as [->|]; [done|apply H; lia]).
Qed.
(** Each press of the down key from the top of the page moves on by one link. *)
Lemma links_step d i : view_ok measure vp d → scroll d = 0 →
  match cursor d with Some c => ∀ k, (k < c)%nat → doc_is_link d k = false | None => True end →
  (∀ j, doc_is_link d j = true → doc_line_height measure d j ≤ budget vp) → doc_is_link d i = true →
  ∃ n, (n ≤ S i)%nat ∧ let d' := Nat.iter n (strike measure vp Down) d in
  view_ok measure vp d' ∧ dlines d' = dlines d ∧ cursor d' = Some i.
Proof using Hm Hgap.
  intros Hd H0 Hc Hh. induction i as [i IH] using lt_wf_ind. intros Hi.
  destruct (prev_true (doc_is_link d) i) as [Hno|(p & Hp & Hlp & Hno)].
  - destruct (cursor d) as [c|] eqn:Ec.
    + exists 0%nat. split; [lia|]. cbn. split_and!; [done..|]. rewrite Ec. f_equal.
      pose proof (v_cursor _ _ _ Hd c Ec) as Hlc.
      destruct (lt_eq_lt_dec c i) as [[Hlt|]|Hlt]; [|done|]; [rewrite (Hno c Hlt) in Hlc|rewrite (Hc i Hlt) in Hi]; done.
    + exists 1%nat. split; [lia|]. by apply strike_down_first; [..|apply Hh|].
  - destruct (IH p Hp Hlp) as (n & Hn & Hv & El & Ecu). exists (S n). split; [lia|]. rewrite Nat.iter_succ.
    set (d' := Nat.iter n _ d) in *. cbv zeta.
    assert (∀ k, doc_is_link d' k = doc_is_link d k) as Hl by (intros k; unfold doc_is_link; by rewrite El).
    assert (∀ k, doc_line_height measure d' k = doc_line_height measure d k) as Hhe by (intros k; unfold doc_line_height; by rewrite El).
    rewrite <-El. apply (strike_down measure vp Hm Hgap d' p i); [done..|by rewrite Hl|rewrite Hhe; by apply Hh|done|].
    intros k Hk. rewrite Hl. by apply Hno.
Qed.
End reader.

(** C20: Every row of every line of the page on screen can be read with the page-down key: from
    the top of the page, some number of presses draws the line with that row inside the
    visible area, whatever the heights of the lines, also of lines higher than the screen. *)
Theorem paging_reads_all (measure : DocLine → Z) (vp : VisualProperties) (u : Ui) (d : DocState) (i : nat) (r : Z)
  (Hm : ∀ l, 0 < measure l) (Hgap : 0 < bubble_space vp) (Hstep : 0 ≤ doc_row_step vp < budget vp)
  (Hu : document u = Some d) (Hi : (i < length (dlines d))%nat) (Hr : 0 ≤ r < doc_line_height measure d i) :
  ∃ n d' sy, document (Nat.iter n (press measure vp PageDown) (press measure vp Top u)) = Some d' ∧ dlines d' = dlines d ∧
  (i, sy) ∈ draw measure vp d' (length (dlines d')) 0 0 ∧
  (doc_metrics vp).1.1 ≤ sy + r < (doc_metrics vp).1.2.
Proof.
  destruct (strike_top measure vp Hm Hgap d) as (Hv & El & Hs & _). set (d0 := strike measure vp Top d) in *.
  assert (∀ d', dlines d' = dlines d → ∀ k, doc_line_height measure d' k = doc_line_height measure d k) as Hh
    by (intros d' E k; unfold doc_line_height; by rewrite E).
  pose proof (max_covers measure vp Hm Hgap d0 i ltac:(by rewrite El)) as Hc. rewrite (Hh d0 El) in Hc.
  pose proof (top_nonneg measure vp Hm Hgap d0 i) as Ht.
  destruct (pages_reach measure vp Hm Hgap d0 (doc_line_top measure vp d0 i + r) Hv Hstep) as (n & Hv' & El' & Hy); [lia..|].
  set (d' := Nat.iter n _ d0) in *. exists n, d', ((doc_metrics vp).1.1 + doc_line_top measure vp d' i - scroll d').
  assert (doc_line_top measure vp d' i = doc_line_top measure vp d0 i) as Et by (unfold doc_line_top, doc_line_height; by rewrite El').
  assert ((doc_metrics vp).1.2 = (doc_metrics vp).1.1 + budget vp) as Eb by (unfold budget, doc_metrics; cbn; lia).
  split_and!; [rewrite presses_strike, press_strike, Hu; done|by rewrite El'| |lia..].
  apply draw_spec; [done..|]. rewrite (Hh d' ltac:(by rewrite El')), El', El. split_and!; [lia..|done|lia].
Qed.

(** The cursor can be moved to every link of the page on screen: from the top of the page,
    some number of presses of the down key selects it, and the application is then given
    that link's number.  (The link's line must fit the screen.) *)
Lemma links_reachable (measure : DocLine → Z) (vp : VisualProperties) (u : Ui) (d : DocState) (i : nat) (l : DocLine)
  (Hm : ∀ l, 0 < measure l) (Hgap : 0 < bubble_space vp) (Hu : document u = Some d)
  (Hfit : ∀ j, doc_is_link d j = true → doc_line_height measure d j ≤ budget vp)
  (Hi : dlines d !! i = Some l) (Hl : dl_kind l = DOC_KIND_LINK) :
  ∃ n, (n ≤ S i)%nat ∧
  doc_selected_link (Nat.iter n (press measure vp Down) (press measure vp Top u)) = Some (dl_link_id l).
Proof.
  destruct (strike_top measure vp Hm Hgap d) as (Hv & El & Hs & Hc). set (d0 := strike measure vp Top d) in *.
  assert (∀ k, doc_is_link d0 k = doc_is_link d k) as Hlk by (intros k; unfold doc_is_link; by rewrite El).
  destruct (links_step measure vp Hm Hgap d0 i Hv Hs) as (n & Hn & Hv' & El' & Ec).
  { destruct (cursor d0); [|done]. intros. rewrite Hlk. by apply Hc. }
  { intros j. rewrite Hlk. unfold doc_line_height. rewrite El. apply Hfit. }
  { unfold doc_is_link. rewrite El, Hi, Hl. done. }
  exists n. split; [done|]. unfold doc_selected_link. rewrite presses_strike, press_strike, Hu. cbn [fmap option_fmap option_map mbind option_bind].
  fold d0. rewrite Ec. cbn [mbind option_bind]. rewrite El', El, Hi. cbn [mbind option_bind]. by rewrite Hl.
Qed.

(** ** A page on a screen of the device *)
Definition sample_vp : VisualProperties := mkVP 500 24 4 4 19 15.
(** A line of more than eight characters is higher than the screen. *)
Definition sample_measure (l : DocLine) : Z := if (8 <? length (dl_text l))%nat then 900 else 18.
Definition sample_line (t : string) (kind id : Z) : DocLine := mkDocLine (lit t) DOC_STYLE_REGULAR DOC_ALIGN_LEFT kind id.
Definition sample_lines : list DocLine :=
  [sample_line "title" DOC_KIND_TEXT 0; sample_line "a" DOC_KIND_LINK 0; sample_line "a very long line" DOC_KIND_TEXT 0;
   sample_line "" DOC_KIND_DIVIDER 0; sample_line "b" DOC_KIND_LINK 1; sample_line "c" DOC_KIND_LINK 2].
Definition sample_ui (ls : list DocLine) : Ui := mkUi (Some (mkDocState [] ls 0 None)) None None false.
Lemma sample_measure_pos l : 0 < sample_measure l.
Proof. unfold sample_measure. destruct (_ <? _)%nat; lia. Qed.

Lemma paging_reads_all_witness :
  ∃ n d' sy, document (Nat.iter n (press sample_measure sample_vp PageDown) (press sample_measure sample_vp Top (sample_ui sample_lines))) = Some d' ∧
  dlines d' = sample_lines ∧ (2%nat, sy) ∈ draw sample_measure sample_vp d' (length (dlines d')) 0 0 ∧
  (doc_metrics sample_vp).1.1 ≤ sy + 700 < (doc_metrics sample_vp).1.2.
Proof.
  apply (paging_reads_all sample_measure sample_vp (sample_ui sample_lines) (mkDocState [] sample_lines 0 None) 2 700 sample_measure_pos).
  - done.
  - by vm_compute.
  - done.
  - vm_compute. lia.
  - vm_compute. done.
Defined.

(** The offsets stay far below [u32::MAX]: lines are measured against a clip of 2^20 rows, and
    a document has at most [DOC_MAX_LINES]. *)
Lemma line_tops_bounded measure vp d i : (∀ l, 0 < measure l ≤ 2 ^ 20) → bubble_space vp = 4 → (length (dlines d) ≤ DOC_MAX_LINES)%nat →
  (i ≤ length (dlines d))%nat → budget vp ≤ 2 ^ 16 → 0 ≤ doc_line_top measure vp d i + budget vp < 2 ^ 32.
Proof.
  intros Hm Hg Hl Hi Hb. assert (∀ k, 0 ≤ doc_line_top measure vp d k ≤ Z.of_nat k * (2 ^ 20 + 4)) as H.
  { intros k. induction k as [|k IH]; [done|]. rewrite top_S, Hg. enough (0 ≤ doc_line_height measure d k ≤ 2 ^ 20) by lia.
    unfold doc_line_height, line_height, DOC_DIVIDER_HEIGHT. destruct (dlines d !! k) as [l|]; [|lia]. destruct (_ || _); [lia|]. specialize (Hm l). lia. }
  pose proof (H i). pose proof (budget_pos vp). unfold DOC_MAX_LINES in Hl. nia.
Qed.

(** On a last line that is higher than the screen, the line-down key at the end of the page
    goes back to the top of that line. *)
Lemma line_down_jumps_back :
  let u := sample_ui [sample_line "title" DOC_KIND_TEXT 0; sample_line "a very long line" DOC_KIND_TEXT 0] in
  let bottom := press sample_measure sample_vp Bottom u in
  scroll <$> document bottom = Some 481 ∧
  scroll <$> document (press sample_measure sample_vp LineDown bottom) = Some 22.
Proof. vm_compute. done. Qed.
