(* ===== verification/Browser.v ===== *)
(** The page browser ([lxmfchat/src/net.rs], from [request_page] to [browser_resume]): the fetch
    of a page from a node, over the modelled transport and resource receiver, and the history
    of the pages shown.

    The text of pages and paths is a list of Unicode scalar values, encoded where it goes to
    the wire or to storage; names are their UTF-8 bytes.
    A handler is one step; status lines are left out.  The pages are shown by the document
    view of [DocView]; its redraws are steps of the view.  [up] says whether an interface is
    up, [W] is the width of [usize]. *)
From S2P Require Import Micron MicronPage DocView Prelude Constants Crypto Packet Identity Link Msgpack Message ResourceWire Resource ResourceTransfer Tables Transport Outbox OutboxNet Storage Sync.

Definition PAGE_DEADLINE_SECS : Z := 60.
Definition BROWSER_ROUTE_RETRY_SECS : Z := 3.
Definition BROWSER_ROUTE_TRIES : Z := 40.
Definition BACK_STACK_MAX : nat := 16.
Definition DISPLAY_NAME_MAX : nat := 32.

(** ** Text and its encoding *)
Definition encode_char (c : Z) : bytes :=
  if c <? 0x80 then [c]
  else if c <? 0x800 then [0xc0 + c / 64; 0x80 + c mod 64]
  else if c <? 0x10000 then [0xe0 + c / 4096; 0x80 + c / 64 mod 64; 0x80 + c mod 64]
  else [0xf0 + c / 262144; 0x80 + c / 4096 mod 64; 0x80 + c / 64 mod 64; 0x80 + c mod 64].
Definition utf8 (s : str) : bytes := flat_map encode_char s.
Definition decode_char (l : bytes) : Z :=
  match l with
  | [a] => a
  | [a; b] => (a - 0xc0) * 64 + (b - 0x80)
  | [a; b; c] => (a - 0xe0) * 4096 + (b - 0x80) * 64 + (c - 0x80)
  | [a; b; c; d] => (a - 0xf0) * 262144 + (b - 0x80) * 4096 + (c - 0x80) * 64 + (d - 0x80)
  | _ => 0xfffd
  end.
(** [String::from_utf8_lossy], as characters. *)
Definition chars_lossy (l : bytes) : str :=
  (λ c : bool * bytes, if c.1 then decode_char c.2 else 0xfffd) <$> utf8_chunks (length l) l.
(** [String::truncate]. *)
Definition truncate (s : str) (n : nat) : res str := if (n <=? str_len s)%nat then expect (split_at_byte s n) else mret s.

(** ** The state *)
Inductive BrowserPhase := Idle | Linking | Fetching.
#[export] Instance BrowserPhase_eq_dec : EqDecision BrowserPhase.
Proof. solve_decision. Defined.

Definition PageAddr : Type := bytes * str * list (str * str).
Record BrowserState := mkBrowser {
  phase : BrowserPhase;
  node : option bytes;
  path : str;
  vars : list (str * str);
  link : option bytes;
  receiver : option ResourceReceiver;
  deadline : Z;
  requested : option PageAddr;
  next_attempt : Z;
  route_tries : Z;
  link_tries : Z;
  current : option PageAddr;
  pending_push : bool;
  pending_pop : bool;
  back : list PageAddr;
  page_links : list Micron.Link;
  current_title : option str;
  viewing : bool;
}.
Definition browser_new : BrowserState :=
  mkBrowser Idle None [] [] None None 0 None 0 0 0 None false false [] [] None false.

(** Field updates. *)
Definition set_phase (p : BrowserPhase) (b : BrowserState) : BrowserState :=
  mkBrowser p (node b) (path b) (vars b) (link b) (receiver b) (deadline b) (requested b) (next_attempt b) (route_tries b) (link_tries b)
    (current b) (pending_push b) (pending_pop b) (back b) (page_links b) (current_title b) (viewing b).
Definition set_link (l : option bytes) (b : BrowserState) : BrowserState :=
  mkBrowser (phase b) (node b) (path b) (vars b) l (receiver b) (deadline b) (requested b) (next_attempt b) (route_tries b) (link_tries b)
    (current b) (pending_push b) (pending_pop b) (back b) (page_links b) (current_title b) (viewing b).
Definition set_receiver (r : option ResourceReceiver) (b : BrowserState) : BrowserState :=
  mkBrowser (phase b) (node b) (path b) (vars b) (link b) r (deadline b) (requested b) (next_attempt b) (route_tries b) (link_tries b)
    (current b) (pending_push b) (pending_pop b) (back b) (page_links b) (current_title b) (viewing b).
Definition set_deadline (t : Z) (b : BrowserState) : BrowserState :=
  mkBrowser (phase b) (node b) (path b) (vars b) (link b) (receiver b) t (requested b) (next_attempt b) (route_tries b) (link_tries b)
    (current b) (pending_push b) (pending_pop b) (back b) (page_links b) (current_title b) (viewing b).
Definition set_route (r : option PageAddr) (t tries : Z) (b : BrowserState) : BrowserState :=
  mkBrowser (phase b) (node b) (path b) (vars b) (link b) (receiver b) (deadline b) r t tries (link_tries b)
    (current b) (pending_push b) (pending_pop b) (back b) (page_links b) (current_title b) (viewing b).
Definition set_link_tries (n : Z) (b : BrowserState) : BrowserState :=
  mkBrowser (phase b) (node b) (path b) (vars b) (link b) (receiver b) (deadline b) (requested b) (next_attempt b) (route_tries b) n
    (current b) (pending_push b) (pending_pop b) (back b) (page_links b) (current_title b) (viewing b).
Definition set_pending (push pop : bool) (b : BrowserState) : BrowserState :=
  mkBrowser (phase b) (node b) (path b) (vars b) (link b) (receiver b) (deadline b) (requested b) (next_attempt b) (route_tries b) (link_tries b)
    (current b) push pop (back b) (page_links b) (current_title b) (viewing b).
Definition set_viewing (v : bool) (b : BrowserState) : BrowserState :=
  mkBrowser (phase b) (node b) (path b) (vars b) (link b) (receiver b) (deadline b) (requested b) (next_attempt b) (route_tries b) (link_tries b)
    (current b) (pending_push b) (pending_pop b) (back b) (page_links b) (current_title b) v.
(** The fetch begins. *)
Definition begin_fetch (now hops : Z) (n : bytes) (p : str) (v : list (str * str)) (b : BrowserState) : BrowserState :=
  mkBrowser Linking (Some n) p v None None (now + PAGE_DEADLINE_SECS + 12 * hops) (requested b) 0 0 0
    (current b) (pending_push b) (pending_pop b) (back b) (page_links b) (current_title b) (viewing b).
(** The fetch is over, for [browser_finish] and [browser_suspend]; the link is dropped. *)
Definition reset (b : BrowserState) : BrowserState :=
  mkBrowser Idle None (path b) (vars b) None None (deadline b) None (next_attempt b) 0 (link_tries b)
    (current b) false false (back b) (page_links b) (current_title b) (viewing b).

(** The browser among the state it works on: the interfaces, the nodes and bookmarks that are
    kept, and the document view. *)
Record Site := mkSite { br : BrowserState; bnet : Net; saved_nodes : gmap bytes bytes; d_nodes : Dict; d_bookmarks : Dict; ui : Ui }.
Definition upd (f : BrowserState → BrowserState) (s : Site) : Site := mkSite (f (br s)) (bnet s) (saved_nodes s) (d_nodes s) (d_bookmarks s) (ui s).
Definition with_bnet (n : Net) (s : Site) : Site := mkSite (br s) n (saved_nodes s) (d_nodes s) (d_bookmarks s) (ui s).
Definition on_ui (f : Ui → Ui) (s : Site) : Site := mkSite (br s) (bnet s) (saved_nodes s) (d_nodes s) (d_bookmarks s) (f (ui s)).
Definition save_node (n name : bytes) (s : Site) : Site :=
  mkSite (br s) (bnet s) (<[n := name]> (saved_nodes s)) (persist_node n name (d_nodes s)) (d_bookmarks s) (ui s).

(** ** Requests of the user *)
Definition browser_targets (b : BrowserState) (target : bytes) : bool := bool_decide (phase b ≠ Idle) && bool_decide (node b = Some target).

Definition request_page (n : bytes) (p : str) (v : list (str * str)) (push : bool) (b : BrowserState) : bool * BrowserState :=
  if bool_decide (phase b ≠ Idle) then (false, b)
  else (true, set_pending push false (set_route (Some (n, p, v)) 0 0 b)).
Definition PAGE_INDEX : str := lit "/page/index.mu".
(** The link under the cursor of the document view. *)
Definition follow_link_to (l : Micron.Link) (b : BrowserState) : BrowserState :=
  match resolve_link (url l) with
  | SameNode p => match current b with Some (n, _, _) => (request_page n p (fields l) true b).2 | None => b end
  | OtherNode n p => (request_page n p (fields l) true b).2
  | NodeIndex n => (request_page n PAGE_INDEX (fields l) true b).2
  | Lxmf _ | Anchor | Unsupported => b
  end.
Definition follow_selected_link (s : Site) : Site :=
  match doc_selected_link (ui s) with
  | Some id => match page_links (br s) !! Z.to_nat id with Some l => upd (follow_link_to l) s | None => s end
  | None => s
  end.
Definition browser_back (b : BrowserState) : bool * BrowserState :=
  match last (back b) with
  | None => (false, b)
  | Some (n, p, v) =>
      let '(taken, b) := request_page n p v false b in
      (true, if taken : bool then set_pending (pending_push b) true b else b)
  end.

Section browser.
Context `{C : Crypto} `{I : HashIter} `{B : Bz2} (W : Z).
Context (rand : nat → nat → bytes) (hub_ok auto_ok : nat → bool).
(** The names of announced nodes. *)
Context (nodes_seen : gmap bytes (bytes * Z)).

Definition node_label (s : Site) (n : bytes) : bytes :=
  match saved_nodes s !! n with
  | Some l => l
  | None => match nodes_seen !! n with Some (l, _) => l | None => hex (take 4 n) end
  end.

Definition drop_link (l : option bytes) (s : Site) : Site :=
  match l with Some lid => with_bnet (with_tp (bnet s) (drop_out_link lid (tp (bnet s)))) s | None => s end.
Definition browser_finish (s : Site) : Site := drop_link (link (br s)) (upd reset s).
Definition browser_suspend (s : Site) : Site := on_ui doc_suspend (drop_link (link (br s)) (upd (λ b, set_viewing false (reset b)) s)).
Definition forget_page (b : BrowserState) : BrowserState :=
  mkBrowser (phase b) (node b) (path b) (vars b) (link b) (receiver b) (deadline b) (requested b) (next_attempt b) (route_tries b) (link_tries b)
    None (pending_push b) (pending_pop b) [] [] None (viewing b).
Definition browser_resume (s : Site) : bool * Site :=
  match current (br s) with
  | None => (false, s)
  | Some _ =>
      let '(resumed, u) := doc_resume (ui s) in
      let s := on_ui (λ _, u) s in
      if resumed : bool then (true, upd (set_viewing true) s) else (false, upd forget_page s)
  end.

Definition random (k : nat) (s : Site) : bytes * Site := let '(r, n) := fill_random rand (bnet s) k in (r, with_bnet n s).
Definition broadcast (raw : bytes) (s : Site) : bool * Site := let '(ok, n) := broadcast_out hub_ok auto_ok (bnet s) raw in (ok, with_bnet n s).

(** ** The fetch *)
Definition page_request (now : Z) (b : BrowserState) : Value :=
  Array [F64 (i64_as_f64 now); Bin (truncated_hash (utf8 (path b)));
    match vars b with [] => Nil | vs => StrMap ((λ kv : str * str, (utf8 (lit "var_" ++ kv.1), Str (utf8 kv.2))) <$> vs) end].
Definition browser_send_request (now : Z) (lid : bytes) (s : Site) : res Site :=
  let s := upd (set_phase Fetching) s in
  let '(iv, s) := random IV_LENGTH s in
  raw ← res_ok (make_out_link_context (tp (bnet s)) lid CONTEXT_REQUEST (encode (page_request now (br s))) iv);
  mret match raw with
       | Some raw => let '(ok, s) := broadcast raw s in if ok : bool then s else browser_finish s
       | None => browser_finish s
       end.

Definition rearm (now : Z) (a : PageAddr) (b : BrowserState) : bool * BrowserState :=
  let tries := u8_sat_add (route_tries b) 1 in
  if tries <=? BROWSER_ROUTE_TRIES then (true, set_route (Some a) (now + BROWSER_ROUTE_RETRY_SECS) tries b)
  else (false, set_route (requested b) (next_attempt b) tries b).
Definition start_fetch (up : bool) (now : Z) (a : PageAddr) (s : Site) : res Site :=
  let '(n, p, v) := a in
  let '(again, later) := rearm now a (br s) in
  if negb up then mret (if again : bool then upd (λ _, later) s else browser_finish (upd (λ _, later) s))
  else
    match known (tp (bnet s)) n, has_path (tp (bnet s)) n with
    | Some k, true =>
        let hops := Z.max (default 1 (path_hops (tp (bnet s)) n)) 1 in
        let s := upd (begin_fetch now hops n p v) s in
        let '(existing, t) := outbound_link_for (tp (bnet s)) n now in
        let s := with_bnet (with_tp (bnet s) t) s in
        match existing with
        | Some lid => browser_send_request now lid (upd (set_link (Some lid)) s)
        | None =>
            '(o, net) ← send_link_request rand hub_ok auto_ok (bnet s) n (kd_identity k) now;
            let s := with_bnet net s in
            mret match o with WriteFailed => browser_finish s | Sent | Pending => upd (set_link_tries 1) s end
        end
    | _, _ =>
        if again : bool then
          '(_, net) ← request_peer_key rand hub_ok auto_ok (bnet s) n;
          mret (with_bnet net (upd (λ _, later) s))
        else mret (browser_finish (upd (λ _, later) s))
    end.

Definition browser_tick (up : bool) (now : Z) (s : Site) : res Site :=
  let b := br s in
  if bool_decide (phase b ≠ Idle) && (deadline b <? now) then
    mret (browser_finish match phase b, node b with
                         | Linking, Some n => with_bnet (with_tp (bnet s) (expire_path n (tp (bnet s))).2) s
                         | _, _ => s
                         end)
  else
    match phase b, node b with
    | Linking, Some n =>
        match known (tp (bnet s)) n with
        | None => mret s
        | Some k =>
            '(o, net) ← send_link_request rand hub_ok auto_ok (bnet s) n (kd_identity k) now;
            let s := with_bnet net s in
            mret match o with
                 | Sent => upd (λ b, set_link_tries (u8_sat_add (link_tries b) 1) b) s
                 | WriteFailed => browser_finish s
                 | Pending => s
                 end
        end
    | Idle, _ =>
        match requested b with
        | Some a => if next_attempt b <=? now then start_fetch up now a (upd (λ b, set_route None (next_attempt b) (route_tries b) b) s) else mret s
        | None => mret s
        end
    | _, _ => mret s
    end.

Definition browser_on_link_up (now : Z) (lid target : bytes) (s : Site) : res Site :=
  if bool_decide (phase (br s) = Linking ∧ node (br s) = Some target) then browser_send_request now lid (upd (set_link (Some lid)) s) else mret s.

(** ** The page arrives *)

(** The new page takes its place in the history. *)
Definition push_back (b : BrowserState) : list PageAddr :=
  if pending_push b then
    match current b with
    | Some prev => let l := back b ++ [prev] in if (BACK_STACK_MAX <? length l)%nat then drop 1 l else l
    | None => back b
    end
  else back b.
Definition render (n : bytes) (doc : Document) (b : BrowserState) : BrowserState :=
  mkBrowser Idle None [] [] (link b) None (deadline b) (requested b) (next_attempt b) (route_tries b) (link_tries b)
    (Some (n, path b, vars b)) false false (if pending_pop b then removelast (push_back b) else push_back b) (Micron.links doc) (Micron.title doc) true.
(** A saved name that is only the address gives way to the title of the index page. *)
Definition name_node (n : bytes) (p : str) (t : option str) (s : Site) : res Site :=
  match (t ≫= λ t, match trim t with [] => None | t => Some t end), saved_nodes s !! n with
  | Some t, Some name =>
      if bool_decide (p = PAGE_INDEX) && (bool_decide (name = hex n) || bool_decide (name = take 8 (hex n) ++ [0xe2; 0x80; 0xa6])) then
        t ← truncate t DISPLAY_NAME_MAX;
        mret (save_node n (utf8 t) s)
      else mret s
  | _, _ => mret s
  end.
(** A line of the page as the document view has it. *)
Definition page_line (l : Line) : DocLine :=
  mkDocLine (text l)
    match style l with
    | Heading 1 => DOC_STYLE_LARGE
    | Heading _ | Bold => DOC_STYLE_BOLD
    | Mono => DOC_STYLE_MONO
    | Regular => DOC_STYLE_REGULAR
    end
    match align l with Center => DOC_ALIGN_CENTER | Right => DOC_ALIGN_RIGHT | Left => DOC_ALIGN_LEFT end
    match kind l with Divider => DOC_KIND_DIVIDER | KLink _ => DOC_KIND_LINK | Text => DOC_KIND_TEXT end
    match kind l with KLink id => id | _ => 0 end.
Definition show_page (title : bytes) (ls : list Line) (u : Ui) : Ui := doc_show (cf_document_lines (page_line <$> ls) (doc_begin title u)).
Definition page_bytes (resp : Value) : option bytes := match resp with Bin b => Some b | Str b => Some b | _ => None end.
Definition page_received (resp : Value) (s : Site) : res Site :=
  match page_bytes resp with
  | None => mret (browser_finish s)
  | Some b =>
      doc ← expect (Micron.parse (chars_lossy b));
      match node (br s) with
      | None => mret s
      | Some n =>
          let p := path (br s) in
          s ← name_node n p (Micron.title doc) (upd (render n doc) s);
          mret (on_ui (show_page (node_label s n ++ utf8 p) (Micron.doc_lines doc)) s)
      end
  end.
Definition response_opt (resp : option Value) (s : Site) : res Site :=
  match resp with Some resp => page_received resp s | None => mret s end.

Definition send_request_opt (lid : bytes) (req : option bytes) (s : Site) : res Site :=
  match req with
  | None => mret s
  | Some req =>
      let '(iv, s) := random IV_LENGTH s in
      raw ← res_ok (make_out_link_context (tp (bnet s)) lid CONTEXT_RESOURCE_REQ req iv);
      mret match raw with Some raw => (broadcast raw s).2 | None => s end
  end.
(** The resource is complete: decrypt, check, prove, and read the response it carries. *)
Definition page_resource_done (lid : bytes) (rx : ResourceReceiver) (s : Site) : res Site :=
  let stream := concat_parts rx in
  plain ← (if rr_encrypted rx then res_ok (decrypt_out_link (tp (bnet s)) lid stream) else mret (Some stream));
  match plain with
  | None => mret (browser_finish s)
  | Some plain =>
      r ← res_ok (finish rx plain);
      match r with
      | None => mret (browser_finish s)
      | Some (payload, proof) =>
          raw ← res_ok (make_out_link_resource_proof (tp (bnet s)) lid proof);
          let s := match raw with Some raw => (broadcast raw s).2 | None => s end in
          resp ← parse_rns_response W payload;
          response_opt resp (upd (set_receiver None) s)
      end
  end.
Definition browser_on_outlink_data (now : Z) (lid : bytes) (context : Z) (pt : bytes) (s : Site) : res Site :=
  if bool_decide (link (br s) ≠ Some lid ∨ phase (br s) ≠ Fetching) then mret s
  else
    let s := upd (set_deadline (now + PAGE_DEADLINE_SECS)) s in
    if context =? CONTEXT_RESPONSE then resp ← parse_rns_response W pt; response_opt resp s
    else if context =? CONTEXT_RESOURCE_ADV then
      rx ← res_ok (accept W pt);
      match rx with
      | None => mret (browser_finish s)
      | Some rx => '(req, rx) ← next_request rx; send_request_opt lid req (upd (set_receiver (Some rx)) s)
      end
    else if context =? CONTEXT_RESOURCE_HMU then
      match receiver (br s) with
      | None => mret s
      | Some rx => '(req, rx) ← on_hmu W rx pt; send_request_opt lid req (upd (set_receiver (Some rx)) s)
      end
    else if context =? CONTEXT_RESOURCE then
      match receiver (br s) with
      | None => mret s
      | Some rx =>
          '(req, rx) ← on_part rx pt;
          s ← send_request_opt lid req (upd (set_receiver (Some rx)) s);
          if is_complete rx then page_resource_done lid rx s else mret s
      end
    else mret s.

(** The node closed a link we opened; the connection was lost. *)
Definition browser_link_closed (lid : bytes) (s : Site) : Site :=
  if bool_decide (link (br s) = Some lid) then
    if bool_decide (phase (br s) ≠ Idle) then browser_finish s else upd (set_link None) s
  else s.
Definition browser_connection_lost (s : Site) : Site :=
  if bool_decide (phase (br s) ≠ Idle) then browser_finish s else upd (set_link None) s.

(** ** The menus and keys of the application ([lib.rs]) *)

(** A node is browsed: it is saved, and its index requested. *)
Definition start_browse (addr name : bytes) (s : Site) : Site :=
  upd (λ b, (request_page addr PAGE_INDEX [] false b).2) (save_node addr name s).
(** A page is opened by its URL: an unknown node is saved under its announced name, or under the
    start of its address. *)
Definition open_page (n : bytes) (p : str) (s : Site) : Site :=
  let '(p, vs) := match Micron.split_once 96 p with Some (p, fields) => (p, parse_vars fields) | None => (p, []) end in
  let s := match saved_nodes s !! n with
           | Some _ => s
           | None => save_node n (match nodes_seen !! n with Some (l, _) => l | None => take 8 (hex n) ++ [0xe2; 0x80; 0xa6] end) s
           end in
  upd (λ b, (request_page n p vs true b).2) s.
Definition enter_url (typed : str) (s : Site) : Site :=
  match trim typed with
  | [] => s
  | u =>
      match resolve_link u with
      | OtherNode n p => open_page n p s
      | NodeIndex n => open_page n PAGE_INDEX s
      | SameNode p => match current (br s) with Some (n, _, _) => open_page n p s | None => s end
      | Lxmf _ | Anchor | Unsupported => s
      end
  end.
Definition reload_page (b : BrowserState) : BrowserState :=
  match current b with Some (n, p, v) => (request_page n p v false b).2 | None => b end.
Definition node_index (b : BrowserState) : BrowserState :=
  match current b with Some (n, _, _) => (request_page n PAGE_INDEX [] true b).2 | None => b end.
(** The keys while a page is shown: follow, back, exit. *)
Definition follow_link (s : Site) : Site := if viewing (br s) then follow_selected_link s else s.
Definition key_back (s : Site) : Site := if viewing (br s) then upd (λ b, (browser_back b).2) s else s.

Definition page_label (s : Site) (a : PageAddr) : res str :=
  let '(n, p, v) := a in
  let name := match current_title (br s) with Some t => t | None => chars_lossy (node_label s n) end in
  truncate (name ++ 32 :: p ++ match v with [] => [] | _ => 32 :: vars_string v end) 60.
Definition utf8_addr (a : PageAddr) : bytes * bytes * list (bytes * bytes) :=
  let '(n, p, v) := a in (n, utf8 p, prod_map utf8 utf8 <$> v).
Definition bookmark_current_page (s : Site) : res Site :=
  match current (br s) with
  | None => mret s
  | Some a =>
      label ← page_label s a;
      mret (mkSite (br s) (bnet s) (saved_nodes s) (d_nodes s) (persist_bookmark (utf8 label) (utf8_addr a) (d_bookmarks s)) (ui s))
  end.
End browser.
