(* ===== verification/BrowserProps.v ===== *)
(** What the page browser promises: its history is a stack of visited pages, a fetch ends, and
    the page a node sends is on screen as it was written, with every link leading where it
    says. *)
From S2P Require Import Micron MicronPage DocView DocViewProps Prelude Constants Crypto Packet Identity Link Msgpack Message ResourceWire Resource ResourceTransfer Tables Transport Outbox OutboxNet Storage Sync SyncProps Browser.

(** ** Text survives its encoding *)
Definition scalar (c : Z) : Prop := 0 ≤ c < 0x110000 ∧ ¬ (0xd800 ≤ c ≤ 0xdfff).
Ltac decide_ranges :=
  repeat match goal with
  | |- context [?a <=? ?b] => first [rewrite (proj2 (Z.leb_le a b)) by lia | rewrite (proj2 (Z.leb_gt a b)) by lia]
  | |- context [?a <? ?b] => first [rewrite (proj2 (Z.ltb_lt a b)) by lia | rewrite (proj2 (Z.ltb_ge a b)) by lia]
  | |- context [?a =? ?b] => first [rewrite (proj2 (Z.eqb_eq a b)) by lia | rewrite (proj2 (Z.eqb_neq a b)) by lia]
  end.
Lemma utf8_seq_char c rest : scalar c → ∃ b l, encode_char c = b :: l ∧ utf8_seq b (l ++ rest) = (true, S (length l)) ∧ decode_char (b :: l) = c.
Proof.
  intros [Hc Hs]. unfold encode_char.
  destruct (Z.ltb_spec c 0x80); [eexists _, _; split_and!; [done|unfold utf8_seq; decide_ranges; done|done]|].
  destruct (Z.ltb_spec c 0x800); [|destruct (Z.ltb_spec c 0x10000)]; (eexists _, _; split; [reflexivity|]).
  - pose proof (Z.div_mod c 64 ltac:(lia)). pose proof (Z.mod_pos_bound c 64 ltac:(lia)). set (q := c / 64) in *. set (r := c mod 64) in *.
    clearbody q r. split; [|cbn [decode_char]; lia]. unfold utf8_seq, in_range. cbn [lookup list_lookup app cont]. unfold in_range. decide_ranges. done.
  - assert (c / 4096 = c / 64 / 64) as E by (by rewrite Z.div_div by lia). rewrite E.
    pose proof (Z.div_mod c 64 ltac:(lia)). pose proof (Z.mod_pos_bound c 64 ltac:(lia)). set (q := c / 64) in *. set (r := c mod 64) in *.
    pose proof (Z.div_mod q 64 ltac:(lia)). pose proof (Z.mod_pos_bound q 64 ltac:(lia)). set (q2 := q / 64) in *. set (r2 := q mod 64) in *.
    clearbody q r q2 r2. split; [|cbn [decode_char]; lia]. unfold utf8_seq, in_range. cbn [lookup list_lookup app cont]. unfold in_range.
    destruct (decide (q2 = 0)); [decide_ranges; done|]. destruct (decide (q2 = 13)); decide_ranges; [done|].
    destruct (decide (q2 < 13)); decide_ranges; done.
  - assert (c / 4096 = c / 64 / 64) as E by (by rewrite Z.div_div by lia). rewrite E.
    assert (c / 262144 = c / 64 / 64 / 64) as E2 by (by rewrite !Z.div_div by lia). rewrite E2.
    pose proof (Z.div_mod c 64 ltac:(lia)). pose proof (Z.mod_pos_bound c 64 ltac:(lia)). set (q := c / 64) in *. set (r := c mod 64) in *.
    pose proof (Z.div_mod q 64 ltac:(lia)). pose proof (Z.mod_pos_bound q 64 ltac:(lia)). set (q2 := q / 64) in *. set (r2 := q mod 64) in *.
    pose proof (Z.div_mod q2 64 ltac:(lia)). pose proof (Z.mod_pos_bound q2 64 ltac:(lia)). set (q3 := q2 / 64) in *. set (r3 := q2 mod 64) in *.
    clearbody q r q2 r2 q3 r3. split; [|cbn [decode_char]; lia]. unfold utf8_seq, in_range. cbn [lookup list_lookup app cont]. unfold in_range.
    destruct (decide (q3 = 0)); [decide_ranges; done|]. destruct (decide (q3 = 4)); decide_ranges; done.
Qed.
Lemma chunks_utf8 s fuel : Forall scalar s → (length (utf8 s) ≤ fuel)%nat →
  (λ c : bool * bytes, if c.1 then decode_char c.2 else 0xfffd) <$> utf8_chunks fuel (utf8 s) = s.
Proof.
  intros Hs. revert fuel. induction Hs as [|c s Hc Hs IH]; intros fuel Hl; [by destruct fuel|].
  change (utf8 (c :: s)) with (encode_char c ++ utf8 s) in *.
  destruct (utf8_seq_char c (utf8 s) Hc) as (b & l & E & Hq & Hd). rewrite E in *. rewrite length_app in Hl. cbn [length] in Hl.
  destruct fuel as [|fuel]; [lia|]. cbn [app utf8_chunks]. rewrite Hq. cbn [fmap list_fmap fst snd].
  rewrite app_comm_cons, (take_app_length' (b :: l)), (drop_app_length' (b :: l)) by done. rewrite Hd. f_equal. apply IH. lia.
Qed.
Lemma chars_utf8 s : Forall scalar s → chars_lossy (utf8 s) = s.
Proof. intros Hs. unfold chars_lossy. by apply chunks_utf8. Qed.

(** ** The specification: a history and a wish *)

(** The page shown and the pages to go back to, latest last. *)
Record History := mkHist { shown : option PageAddr; stack : list PageAddr }.
Inductive Move := Visit (a : PageAddr) | Return (a : PageAddr) | Replace (a : PageAddr).
Definition latest (n : nat) (l : list PageAddr) : list PageAddr := drop (length l - n) l.
Definition fulfil (m : Move) (h : History) : History :=
  match m with
  | Visit a => mkHist (Some a) (latest BACK_STACK_MAX (stack h ++ option_list (shown h)))
  | Return a => mkHist (Some a) (removelast (stack h))
  | Replace a => mkHist (Some a) (stack h)
  end.
Definition Spec : Type := History * option Move.

(** What happens to the browser. *)
Inductive Input :=
  | Browse (addr name : bytes) | Open (n : bytes) (p : str) | Url (typed : str) | Reload | Index | Follow | Back
  | Bookmark | Exit | Menu | Key (k : DocView.Key)
  | Tick (up : bool) (now : Z) | LinkUp (now : Z) (lid target : bytes) | Data (now : Z) (lid : bytes) (ctx : Z) (pt : bytes)
  | Closed (lid : bytes) | Lost
  (** the other threads change the interfaces and the transport *)
  | Others (n : Net).
Definition asks (i : Input) : Prop :=
  match i with Browse _ _ | Open _ _ | Url _ | Reload | Index | Follow | Back => True | _ => False end.
Definition arrives (i : Input) : Prop := match i with Data _ _ _ _ => True | _ => False end.

Inductive spec_step (i : Input) : Spec → Spec → Prop :=
  | spec_stay S : spec_step i S S
  | spec_wish h w m : asks i → (∀ a, m = Return a → last (stack h) = Some a) → spec_step i (h, w) (h, Some m)
  | spec_fail h w : ¬ asks i → spec_step i (h, w) (h, None)
  | spec_fulfil h m : arrives i → spec_step i (h, Some m) (fulfil m h, None).
Inductive spec_run : list Input → Spec → Spec → Prop :=
  | spec_nil S : spec_run [] S S
  | spec_cons i l S1 S2 S3 : spec_step i S1 S2 → spec_run l S2 S3 → spec_run (i :: l) S1 S3.

(** ** The browser as an implementation of it *)
Definition aim (b : BrowserState) : option PageAddr :=
  match node b with Some n => Some (n, path b, vars b) | None => requested b end.
Definition wish (b : BrowserState) : option Move :=
  a ← aim b; Some (if pending_pop b then Return a else if pending_push b then Visit a else Replace a).
Definition hist (b : BrowserState) : History := mkHist (current b) (back b).
Definition spec (b : BrowserState) : Spec := (hist b, wish b).

(** The lines of a document refer to links of the page. *)
Definition links_ok (b : BrowserState) (d : DocState) : Prop :=
  ∀ l, l ∈ dlines d → dl_kind l = DOC_KIND_LINK → (Z.to_nat (dl_link_id l) < length (page_links b))%nat.
Record browser_ok (b : BrowserState) (u : Ui) : Prop := {
  ok_back : (length (back b) ≤ BACK_STACK_MAX)%nat;
  ok_idle : phase b = Idle ↔ node b = None;
  ok_busy : phase b ≠ Idle → requested b = None;
  ok_rest : aim b = None → pending_push b = false ∧ pending_pop b = false;
  ok_pop : pending_pop b = true → pending_push b = false ∧ last (back b) = aim b;
  ok_view : viewing b = true ↔ is_Some (document u);
  ok_parked : is_Some (current b) → viewing b = false → is_Some (doc_suspended u);
  ok_shown : viewing b = true → is_Some (current b);
  ok_links : ∀ d, document u = Some d ∨ doc_suspended u = Some d → links_ok b d;
}.

Lemma browser_new_ok u : document u = None ∧ doc_suspended u = None → browser_ok browser_new u.
Proof. intros [E1 E2]. split; cbn; rewrite ?E1, ?E2; try done; [unfold BACK_STACK_MAX; lia|]. by intros d [?|?]. Qed.
(** What the history, the wish and the invariant depend on. *)
Definition core (b : BrowserState) :=
  (phase b, node b, (path b, vars b, requested b), (pending_push b, pending_pop b), (current b, back b, page_links b, viewing b)).
Lemma core_ok b b' u : core b' = core b → browser_ok b u → browser_ok b' u.
Proof.
  destruct b, b'. cbn. intros [= -> -> -> -> -> -> -> -> -> -> ->] [H1 H2 H3 H4 H5 H6 H7 H8 H9]. cbn in *. by split.
Qed.
Lemma core_spec b b' : core b' = core b → spec b' = spec b.
Proof. destruct b, b'. cbn. by intros [= -> -> -> -> -> -> -> -> -> -> ->]. Qed.

(** A handler that touches none of it, or ends the fetch. *)
Definition quiet (s s' : Site) : Prop :=
  ui s' = ui s ∧ (core (br s') = core (br s) ∨ core (br s') = core (reset (br s))).
Lemma quiet_refl s : quiet s s.
Proof. split; [done|by left]. Qed.
Lemma core_reset b b' : core b' = core b → core (reset b') = core (reset b).
Proof. destruct b, b'. cbn. by intros [= -> -> -> -> -> -> -> -> -> -> ->]. Qed.
Lemma reset_twice b : core (reset (reset b)) = core (reset b).
Proof. done. Qed.
Lemma quiet_trans s1 s2 s3 : quiet s1 s2 → quiet s2 s3 → quiet s1 s3.
Proof.
  intros [U1 H1] [U2 H2]. split; [congruence|]. destruct H1 as [H1|H1], H2 as [H2|H2]; rewrite H2; [left; done|right; by apply core_reset|right; done|right].
  by rewrite (core_reset _ _ H1).
Qed.
Lemma quiet_net n s : quiet s (with_bnet n s).
Proof. split; [done|by left]. Qed.
Lemma quiet_upd f s : (∀ b, core (f b) = core b) → quiet s (upd f s).
Proof. intros H. split; [done|left; apply H]. Qed.
Lemma reset_ok b u : browser_ok b u → browser_ok (reset b) u.
Proof. intros [H1 H2 H3 H4 H5 H6 H7 H8 H9]. by split. Qed.
Lemma reset_spec b : spec (reset b) = (hist b, None).
Proof. done. Qed.
Lemma quiet_ok s s' : quiet s s' → browser_ok (br s) (ui s) → browser_ok (br s') (ui s').
Proof. intros [-> [H|H]] Hok; eapply core_ok; [done..| |by apply reset_ok]; done. Qed.
Lemma quiet_spec i s s' : ¬ asks i → quiet s s' → spec_step i (spec (br s)) (spec (br s')).
Proof.
  intros Hi [_ [H|H]]; rewrite (core_spec _ _ H); [constructor|]. rewrite reset_spec. by apply spec_fail.
Qed.

Section steps.
Context `{C : Crypto} `{I : HashIter} `{B : Bz2} (W : Z).
Context (rand : nat → nat → bytes) (hub_ok auto_ok : nat → bool) (nodes_seen : gmap bytes (bytes * Z)).
Context (measure : DocLine → Z) (vp : VisualProperties).

(** One input.  The exit key and the resuming menu act where the keys reach them: while a page
    is shown, and while none is. *)
Definition input (i : Input) (s : Site) : res Site :=
  match i with
  | Browse addr name => mret (start_browse addr name s)
  | Open n p => mret (open_page nodes_seen n p s)
  | Url typed => mret (enter_url nodes_seen typed s)
  | Reload => mret (upd reload_page s)
  | Index => mret (upd node_index s)
  | Follow => mret (follow_link s)
  | Back => mret (key_back s)
  | Bookmark => bookmark_current_page nodes_seen s
  | Exit => mret (if viewing (br s) then browser_suspend s else s)
  | Menu => mret (if doc_active (ui s) then s else (browser_resume s).2)
  | Key k => mret (on_ui (press measure vp k) s)
  | Tick up now => browser_tick rand hub_ok auto_ok up now s
  | LinkUp now lid target => browser_on_link_up rand hub_ok auto_ok now lid target s
  | Data now lid ctx pt => browser_on_outlink_data W rand hub_ok auto_ok nodes_seen now lid ctx pt s
  | Closed lid => mret (browser_link_closed lid s)
  | Lost => mret (browser_connection_lost s)
  | Others n => mret (with_bnet n s)
  end.
Fixpoint inputs (l : list Input) (s : Site) : res Site :=
  match l with [] => mret s | i :: l => s' ← input i s; inputs l s' end.

(** ** The handlers that are quiet *)
Lemma br_drop_link l s : br (drop_link l s) = br s ∧ ui (drop_link l s) = ui s.
Proof. by destruct l. Qed.
Lemma br_finish s : br (browser_finish s) = reset (br s) ∧ ui (browser_finish s) = ui s.
Proof. apply (br_drop_link (link (br s)) (upd reset s)). Qed.
Lemma finish_quiet s : quiet s (browser_finish s).
Proof. destruct (br_finish s) as [E1 E2]. split; [done|right; by rewrite E1]. Qed.
(** A result that is the state with fields outside [core] updated, or the end of the fetch. *)
Ltac quiet_leaf := first [split; [done|left; done] | eapply quiet_trans; [|apply finish_quiet]; split; [done|left; done]].
Lemma broadcast_quiet raw s : quiet s (broadcast hub_ok auto_ok raw s).2.
Proof. unfold broadcast. destruct (broadcast_out _ _ _ _). apply quiet_net. Qed.
Lemma random_quiet k s : quiet s (random rand k s).2.
Proof. unfold random. destruct (fill_random _ _ _). apply quiet_net. Qed.

Lemma send_request_quiet now lid s s' : browser_send_request rand hub_ok auto_ok now lid s = Ok s' → quiet (upd (set_phase Fetching) s) s'.
Proof.
  unfold browser_send_request. intros H. pose proof (random_quiet IV_LENGTH (upd (set_phase Fetching) s)) as Hq.
  destruct (random _ _ _) as [iv s1]. cbn [snd] in Hq. apply res_bind_ok in H as (raw & _ & H). apply Ok_inj in H as <-.
  destruct raw as [raw|]; [|eapply quiet_trans; [done|apply finish_quiet]].
  pose proof (broadcast_quiet raw s1) as Hb. destruct (broadcast hub_ok auto_ok raw s1) as [ok s2]. cbn [snd] in Hb.
  eapply quiet_trans; [done|]. destruct ok; [done|]. eapply quiet_trans; [done|apply finish_quiet].
Qed.
Lemma send_request_opt_quiet lid req s s' : send_request_opt rand hub_ok auto_ok lid req s = Ok s' → quiet s s'.
Proof.
  unfold send_request_opt. destruct req as [req|]; [|intros [= <-]; apply quiet_refl]. pose proof (random_quiet IV_LENGTH s) as Hq.
  destruct (random _ _ _) as [iv s1]. cbn [snd] in Hq. intros H. apply res_bind_ok in H as (raw & _ & H). apply Ok_inj in H as <-.
  destruct raw; [|done]. eapply quiet_trans; [done|apply broadcast_quiet].
Qed.

(** ** A page on screen *)
Lemma append_chunks (cs : list (list DocLine)) u d : doc_staging u = Some d → (length (dlines d) ≤ DOC_MAX_LINES)%nat →
  let u' := foldl (λ u c, doc_append c u) u cs in
  doc_staging u' = Some (mkDocState (doc_title d) (take DOC_MAX_LINES (dlines d ++ concat cs)) (scroll d) (cursor d)) ∧
  document u' = document u ∧ doc_suspended u' = doc_suspended u.
Proof.
  revert u d. induction cs as [|c cs IH]; intros u d Hs Hl; cbn [foldl concat].
  { rewrite app_nil_r, take_ge by done. split; [|done]. rewrite Hs. by destruct d. }
  set (room := (DOC_MAX_LINES - length (dlines d))%nat). set (d1 := mkDocState (doc_title d) (dlines d ++ take room c) (scroll d) (cursor d)).
  assert (doc_append c u = mkUi (document u) (Some d1) (doc_suspended u) (input_visible u)) as -> by (unfold doc_append; by rewrite Hs).
  destruct (IH (mkUi (document u) (Some d1) (doc_suspended u) (input_visible u)) d1 eq_refl) as (-> & -> & ->).
  { cbn. rewrite length_app, length_take. lia. }
  split; [|done]. cbn [dlines doc_title scroll cursor d1]. do 2 f_equal. rewrite <-app_assoc, !(take_app (dlines d)). f_equal. fold room.
  rewrite !take_app, take_take, Nat.min_id, length_take. f_equal. destruct (decide (room ≤ length c)%nat).
  - by rewrite Nat.min_l, Nat.sub_diag, (proj2 (Nat.sub_0_le _ _)) by done.
  - by rewrite Nat.min_r by lia.
Qed.
Lemma show_page_shows title ls u : ∃ u', show_page title ls u = mkUi (Some (mkDocState title (take DOC_MAX_LINES (page_line <$> ls)) 0 None)) None None u'.
Proof.
  unfold show_page, cf_document_lines.
  destruct (append_chunks (chunks 32 (page_line <$> ls)) (doc_begin title u) (mkDocState title [] 0 None) eq_refl) as (E & _ & _); [cbn; lia|].
  unfold doc_show. cbv zeta in E. rewrite E, concat_chunks by lia. by eexists.
Qed.
Lemma page_line_link doc l : doc_ok doc → l ∈ page_line <$> Micron.doc_lines doc → dl_kind l = DOC_KIND_LINK →
  (Z.to_nat (dl_link_id l) < length (Micron.links doc))%nat.
Proof.
  intros Hd (x & -> & Hx)%list_elem_of_fmap Hk. pose proof (proj1 (Forall_forall _ _) (ok_each _ Hd) x Hx) as Ho. unfold line_ok in Ho.
  unfold page_line in *. cbn in *. destruct (kind x); [done..|]. destruct Ho as (_ & k & Hk' & _). by eapply lookup_lt_Some.
Qed.

Definition good (i : Input) (s s' : Site) : Prop := browser_ok (br s') (ui s') ∧ spec_step i (spec (br s)) (spec (br s')).
Lemma quiet_good i s s' : ¬ asks i → browser_ok (br s) (ui s) → quiet s s' → good i s s'.
Proof. intros. split; [by eapply quiet_ok|by apply quiet_spec]. Qed.
(** The state before may be replaced by one with the same meaning. *)
Lemma good_from i s0 s s' : spec (br s) = spec (br s0) → good i s s' → good i s0 s'.
Proof. intros E [H1 H2]. split; [done|by rewrite <-E]. Qed.

Lemma fetching_ok b u : browser_ok b u → phase b ≠ Idle → browser_ok (set_phase Fetching b) u ∧ spec (set_phase Fetching b) = spec b.
Proof. intros [H1 H2 H3 H4 H5 H6 H7 H8 H9] Hp. split; [|done]. split; cbn; try done; [split; [done|by intros ?%H2]|intros _; by apply H3]. Qed.
Lemma send_request_good i now lid s s' : ¬ asks i → browser_ok (br s) (ui s) → phase (br s) ≠ Idle →
  browser_send_request rand hub_ok auto_ok now lid s = Ok s' → good i s s'.
Proof.
  intros Hi Hok Hp H%send_request_quiet. destruct (fetching_ok _ _ Hok Hp) as [Hok' Es].
  apply (good_from i s (upd (set_phase Fetching) s)); [done|]. by apply quiet_good.
Qed.

(** ** The fetch *)
Lemma begin_ok now hops n p v b u t k : browser_ok b u → phase b = Idle → requested b = Some (n, p, v) →
  let b' := begin_fetch now hops n p v (set_route None t k b) in browser_ok b' u ∧ spec b' = spec b.
Proof.
  intros [H1 H2 H3 H4 H5 H6 H7 H8 H9] Hp Hr. pose proof (proj1 H2 Hp) as Hn.
  assert (aim b = Some (n, p, v)) as Ha by (unfold aim; by rewrite Hn).
  split; [|unfold spec, wish; rewrite Ha; done]. split; cbn; try done. rewrite Ha in H5. exact H5.
Qed.
Lemma rearm_quiet now a s t k : requested (br s) = Some a →
  let r := rearm now a (set_route None t k (br s)) in
  if r.1 then quiet s (upd (λ _, r.2) s) else core (reset r.2) = core (reset (br s)).
Proof.
  intros Hr. unfold rearm. destruct (_ <=? _); [|done]. split; [done|left]. unfold core. cbn. by rewrite Hr.
Qed.

Lemma start_fetch_good i up now a s s' : ¬ asks i → browser_ok (br s) (ui s) → phase (br s) = Idle → requested (br s) = Some a →
  start_fetch rand hub_ok auto_ok up now a (upd (λ b, set_route None (next_attempt b) (route_tries b) b) s) = Ok s' → good i s s'.
Proof.
  intros Hi Hok Hp Hr. destruct a as [[n p] v]. unfold start_fetch.
  set (s1 := upd _ s). assert (br s1 = set_route None (next_attempt (br s)) (route_tries (br s)) (br s)) as E1 by done.
  pose proof (rearm_quiet now (n, p, v) s (next_attempt (br s)) (route_tries (br s)) Hr) as Hre. rewrite <-E1 in Hre.
  destruct (rearm now (n, p, v) (br s1)) as [again later] eqn:Er. cbn [fst snd] in Hre.
  assert (quiet s (if again then upd (λ _, later) s1 else browser_finish (upd (λ _, later) s1))) as Hq.
  { destruct again; [exact Hre|]. destruct (br_finish (upd (λ _, later) s1)) as [E2 E3]. split; [done|right]. by rewrite E2. }
  destruct (negb up); [intros <-%Ok_inj; by apply quiet_good|].
  assert (∀ x, (if again then '(_, net) ← request_peer_key rand hub_ok auto_ok (bnet s1) n; mret (with_bnet net (upd (λ _, later) s1))
     else mret (browser_finish (upd (λ _, later) s1))) = Ok x → quiet s x) as Hno.
  { intros x. destruct again; [|by intros <-%Ok_inj]. intros ([? net] & _ & <-%Ok_inj)%res_bind_ok. eapply quiet_trans; [exact Hq|apply quiet_net]. }
  destruct (known _ n) as [k|]; [|intros H%Hno; by apply quiet_good].
  destruct (has_path _ n); [|intros H%Hno; by apply quiet_good].
  clear Hno Hq Hre. set (hops := Z.max _ 1).
  destruct (begin_ok now hops n p v (br s) (ui s) (next_attempt (br s)) (route_tries (br s)) Hok Hp Hr) as [Hok2 Es2].
  set (s2 := upd (begin_fetch now hops n p v) s1). change (begin_fetch now hops n p v _) with (br s2) in Hok2, Es2.
  destruct (outbound_link_for _ n now) as [[lid|] t]; intros H.
  - apply (good_from i s s2 s' Es2). set (s3 := upd (set_link (Some lid)) _) in H.
    apply (good_from i s2 s3); [done|]. eapply send_request_good; [done| |done|exact H]. by apply (core_ok (br s2)).
  - apply res_bind_ok in H as ([o net] & _ & <-%Ok_inj). apply (good_from i s s2 _ Es2). apply quiet_good; [done..|].
    destruct o; quiet_leaf.
Qed.

Lemma tick_good i up now s s' : ¬ asks i → browser_ok (br s) (ui s) → browser_tick rand hub_ok auto_ok up now s = Ok s' → good i s s'.
Proof.
  intros Hi Hok. unfold browser_tick. destruct (_ && _).
  { intros <-%Ok_inj. apply quiet_good; [done..|]. destruct (phase (br s)), (node (br s)); quiet_leaf. }
  destruct (phase (br s)) eqn:Hp.
  - destruct (requested (br s)) as [a|] eqn:Hr; [|intros <-%Ok_inj; apply quiet_good; [done..|apply quiet_refl]].
    destruct (_ <=? now); [|intros <-%Ok_inj; apply quiet_good; [done..|apply quiet_refl]]. by apply start_fetch_good.
  - destruct (node (br s)) as [n|]; [|intros <-%Ok_inj; apply quiet_good; [done..|apply quiet_refl]].
    destruct (known _ n) as [k|]; [|intros <-%Ok_inj; apply quiet_good; [done..|apply quiet_refl]].
    intros ([o net] & _ & <-%Ok_inj)%res_bind_ok. apply quiet_good; [done..|]. destruct o; quiet_leaf.
  - intros <-%Ok_inj. apply quiet_good; [done..|apply quiet_refl].
Qed.
Lemma link_up_good i now lid target s s' : ¬ asks i → browser_ok (br s) (ui s) →
  browser_on_link_up rand hub_ok auto_ok now lid target s = Ok s' → good i s s'.
Proof.
  intros Hi Hok. unfold browser_on_link_up. case_bool_decide as Hd; [|intros <-%Ok_inj; apply quiet_good; [done..|apply quiet_refl]].
  destruct Hd as [Hp _]. intros H. apply (good_from i s (upd (set_link (Some lid)) s)); [done|].
  eapply send_request_good; [done|by apply (core_ok (br s))| |exact H]. cbn. by rewrite Hp.
Qed.

(** ** The page arrives *)
Lemma push_back_latest b : (length (back b) ≤ BACK_STACK_MAX)%nat → pending_push b = true →
  push_back b = latest BACK_STACK_MAX (back b ++ option_list (current b)).
Proof.
  intros Hl Hp. unfold push_back, latest, BACK_STACK_MAX in *. rewrite Hp. destruct (current b) as [a|].
  - change (option_list (Some a)) with [a]. rewrite !length_app. cbn [length]. destruct (Nat.ltb_spec 16 (length (back b) + 1)).
    + by replace (length (back b) + 1 - 16)%nat with 1%nat by lia.
    + by rewrite (proj2 (Nat.sub_0_le _ _)) by lia.
  - change (option_list None) with (@nil PageAddr). by rewrite app_nil_r, (proj2 (Nat.sub_0_le _ _)) by lia.
Qed.
Lemma latest_length n l : (length (latest n l) ≤ n)%nat.
Proof. unfold latest. rewrite length_drop. lia. Qed.
Lemma removelast_length {A} (l : list A) : (length (removelast l) ≤ length l)%nat.
Proof. rewrite removelast_firstn_len, firstn_length. lia. Qed.
Lemma fulfil_bounded m h : (length (stack h) ≤ BACK_STACK_MAX)%nat → (length (stack (fulfil m h)) ≤ BACK_STACK_MAX)%nat.
Proof.
  intros H. destruct m; cbn; [apply latest_length| |done]. pose proof (removelast_length (stack h)). lia.
Qed.
Lemma render_spec n doc b u : browser_ok b u → node b = Some n →
  ∃ m, wish b = Some m ∧ hist (render n doc b) = fulfil m (hist b) ∧ wish (render n doc b) = None.
Proof.
  intros [H1 H2 H3 H4 H5 H6 H7 H8 H9] Hn. assert (aim b = Some (n, path b, vars b)) as Ha by (unfold aim; by rewrite Hn).
  assert (requested b = None) as Hr by (apply H3; intros E; apply H2 in E; congruence).
  unfold wish at 1. rewrite Ha. cbn [mbind option_bind]. eexists. split; [done|]. split; [|unfold wish, aim, render; cbn; by rewrite Hr].
  unfold hist, render. cbn [current back]. destruct (pending_pop b) eqn:Epop.
  - destruct (H5 eq_refl) as [Hpush _]. unfold push_back. by rewrite Hpush.
  - destruct (pending_push b) eqn:Epush; [|unfold push_back; by rewrite Epush]. cbn. by rewrite push_back_latest.
Qed.
Lemma render_ok n title doc ls b u : browser_ok b u → node b = Some n → doc_ok doc → ls = Micron.doc_lines doc →
  browser_ok (render n doc b) (show_page title ls u).
Proof.
  intros Hok Hn Hd ->. destruct (render_spec n doc b u Hok Hn) as (m & _ & Hh & Hw).
  destruct (show_page_shows title (Micron.doc_lines doc) u) as [v ->].
  assert (requested b = None) as Hr by (apply (ok_busy _ _ Hok); intros E; apply (ok_idle _ _ Hok) in E; congruence).
  split; cbn [back phase node requested pending_push pending_pop viewing current document doc_suspended render]; try done.
  - change (length (stack (hist (render n doc b))) ≤ BACK_STACK_MAX)%nat. rewrite Hh. apply fulfil_bounded, (ok_back _ _ Hok).
  - intros d [[= <-]|?]; [|done]. intros l Hl Hk. eapply page_line_link; [done| |done]. cbn in Hl. by apply (subseteq_take DOC_MAX_LINES).
Qed.
Lemma name_node_keeps n p t s s' : name_node n p t s = Ok s' → br s' = br s ∧ ui s' = ui s.
Proof.
  unfold name_node. destruct (_ ≫= _); [|by intros <-%Ok_inj]. destruct (saved_nodes s !! n); [|by intros <-%Ok_inj].
  destruct (_ && _); [|by intros <-%Ok_inj]. intros (x & _ & <-%Ok_inj)%res_bind_ok. done.
Qed.
Lemma page_received_good i resp s s' : arrives i → ¬ asks i → browser_ok (br s) (ui s) →
  page_received nodes_seen resp s = Ok s' → good i s s'.
Proof.
  intros Ha Hi Hok. unfold page_received. destruct (page_bytes resp) as [bs|]; [|intros <-%Ok_inj; apply quiet_good; [done..|apply finish_quiet]].
  destruct (parse_total (chars_lossy bs)) as (doc & -> & Hd). cbn [expect]. rewrite bind_Ok.
  destruct (node (br s)) as [n|] eqn:Hn; [|intros <-%Ok_inj; apply quiet_good; [done..|apply quiet_refl]].
  intros (s2 & [E1 E2]%name_node_keeps & <-%Ok_inj)%res_bind_ok. cbn [br ui upd on_ui] in *.
  destruct (render_spec n doc (br s) (ui s) Hok Hn) as (m & Hm & Hh & Hw). split; cbn [br ui on_ui]; rewrite E1, ?E2.
  - by apply render_ok.
  - unfold spec. rewrite Hh, Hw, Hm. by apply spec_fulfil.
Qed.
Lemma response_good i resp s s' : arrives i → ¬ asks i → browser_ok (br s) (ui s) →
  response_opt nodes_seen resp s = Ok s' → good i s s'.
Proof.
  intros Ha Hi Hok. destruct resp; cbn [response_opt]; [by apply page_received_good|intros <-%Ok_inj]. apply quiet_good; [done..|apply quiet_refl].
Qed.

Definition same (s s' : Site) : Prop := ui s' = ui s ∧ core (br s') = core (br s).
Lemma send_request_opt_same lid req s s' : send_request_opt rand hub_ok auto_ok lid req s = Ok s' → same s s'.
Proof.
  unfold send_request_opt. destruct req as [req|]; [|by intros <-%Ok_inj]. unfold random. destruct (fill_random _ _ _) as [iv net].
  intros (raw & _ & <-%Ok_inj)%res_bind_ok. destruct raw; [|done]. unfold broadcast. by destruct (broadcast_out _ _ _ _).
Qed.
Lemma same_ok s s' : same s s' → browser_ok (br s) (ui s) → browser_ok (br s') (ui s').
Proof. intros [-> H]. by apply core_ok. Qed.
Lemma good_same i s s1 s' : same s s1 → good i s1 s' → good i s s'.
Proof. intros [_ H]. apply good_from. by apply core_spec. Qed.
Lemma same_good i s s' : ¬ asks i → browser_ok (br s) (ui s) → same s s' → good i s s'.
Proof. intros ?? [? ?]. apply quiet_good; [done..|]. by split; [|left]. Qed.

Lemma resource_done_good i lid rx s s' : arrives i → ¬ asks i → browser_ok (br s) (ui s) →
  page_resource_done W hub_ok auto_ok nodes_seen lid rx s = Ok s' → good i s s'.
Proof.
  intros Ha Hi Hok. unfold page_resource_done. intros (plain & _ & H)%res_bind_ok.
  destruct plain as [plain|]; [|apply Ok_inj in H as <-; apply quiet_good; [done..|apply finish_quiet]].
  apply res_bind_ok in H as (r & _ & H). destruct r as [[payload proof]|]; [|apply Ok_inj in H as <-; apply quiet_good; [done..|apply finish_quiet]].
  apply res_bind_ok in H as (raw & _ & H). apply res_bind_ok in H as (resp & _ & H).
  set (s1 := upd (set_receiver None) _) in H. assert (same s s1) as Hs.
  { unfold s1. destruct raw; [|done]. unfold broadcast. by destruct (broadcast_out _ _ _ _). }
  apply (good_same i s s1); [done|]. eapply response_good; [done..| |exact H]. by apply (same_ok s).
Qed.
Lemma data_good i now lid ctx pt s s' : arrives i → ¬ asks i → browser_ok (br s) (ui s) →
  browser_on_outlink_data W rand hub_ok auto_ok nodes_seen now lid ctx pt s = Ok s' → good i s s'.
Proof.
  intros Ha Hi Hok. unfold browser_on_outlink_data. case_bool_decide as Hskip; [intros <-%Ok_inj; by apply same_good|].
  set (s1 := upd (set_deadline _) s). assert (same s s1) as Hs by done. pose proof (same_ok _ _ Hs Hok) as Hok1.
  intros Hr. apply (good_same i s s1); [done|]. clearbody s1. revert Hr.
  destruct (ctx =? CONTEXT_RESPONSE); [intros (resp & _ & H)%res_bind_ok; by eapply response_good|].
  destruct (ctx =? CONTEXT_RESOURCE_ADV).
  { intros (rx & _ & H)%res_bind_ok. destruct rx as [rx|]; [|apply Ok_inj in H as <-; apply quiet_good; [done..|apply finish_quiet]].
    apply res_bind_ok in H as ([req rx'] & _ & H%send_request_opt_same). by apply same_good. }
  destruct (ctx =? CONTEXT_RESOURCE_HMU).
  { destruct (receiver (br s1)) as [rx|]; [|intros <-%Ok_inj; by apply same_good].
    intros ([req rx'] & _ & H%send_request_opt_same)%res_bind_ok. by apply same_good. }
  destruct (ctx =? CONTEXT_RESOURCE); [|intros <-%Ok_inj; by apply same_good].
  destruct (receiver (br s1)) as [rx|]; [|intros <-%Ok_inj; by apply same_good].
  intros ([req rx'] & _ & (s2 & H2%send_request_opt_same & H)%res_bind_ok)%res_bind_ok.
  assert (same s1 s2) as Hs2 by exact H2. destruct (is_complete rx'); [|apply Ok_inj in H as <-; by apply same_good].
  apply (good_same i s1 s2); [done|]. eapply resource_done_good; [done..| |exact H]. by apply (same_ok s1).
Qed.

(** ** The requests of the user *)
Lemma request_good n p v push b u : browser_ok b u → let b' := (request_page n p v push b).2 in
  browser_ok b' u ∧ (spec b' = spec b ∨ spec b' = (hist b, Some (if push then Visit (n, p, v) else Replace (n, p, v)))).
Proof.
  intros Hok. unfold request_page. case_bool_decide as Hp; cbn [snd]; [by split; [|left]|].
  assert (phase b = Idle) as Hi by (by destruct (phase b); [|destruct Hp..]). pose proof (proj1 (ok_idle _ _ Hok) Hi) as Hn.
  destruct Hok as [H1 H2 H3 H4 H5 H6 H7 H8 H9]. split.
  - split; cbn; try done. unfold aim. cbn. by rewrite Hn.
  - right. unfold spec, wish, aim. cbn. rewrite Hn. cbn. by destruct push.
Qed.
Lemma request_step i n p v push f s : asks i → browser_ok (br s) (ui s) → br f = (request_page n p v push (br s)).2 → ui f = ui s → good i s f.
Proof.
  intros Hi Hok Hb Hu. destruct (request_good n p v push (br s) (ui s) Hok) as [H1 H2]. unfold good. rewrite Hb, Hu. split; [done|].
  destruct H2 as [->| ->]; [constructor|]. apply spec_wish; [done|]. by destruct push.
Qed.
Lemma stay_good i s s' : browser_ok (br s) (ui s) → br s' = br s → ui s' = ui s → good i s s'.
Proof. intros Hok E1 E2. unfold good. rewrite E1, E2. split; [done|constructor]. Qed.
Lemma open_page_good i n p s : asks i → browser_ok (br s) (ui s) → good i s (open_page nodes_seen n p s).
Proof.
  intros Hi Hok. unfold open_page. destruct (match Micron.split_once 96 p with Some _ => _ | None => _ end) as [p' vs].
  eapply request_step; [done..| |]; by destruct (saved_nodes s !! n).
Qed.
Lemma back_good s : browser_ok (br s) (ui s) → good Back s (key_back s).
Proof.
  intros Hok. unfold key_back. destruct (viewing (br s)); [|by apply stay_good]. unfold upd, browser_back.
  destruct (last (back (br s))) as [[[n p] v]|] eqn:El; [|by apply stay_good].
  unfold request_page. case_bool_decide as Hp; cbn [snd]; [by apply stay_good|].
  assert (phase (br s) = Idle) as Hi by (by destruct (phase (br s)); [|destruct Hp..]). pose proof (proj1 (ok_idle _ _ Hok) Hi) as Hn.
  destruct Hok as [H1 H2 H3 H4 H5 H6 H7 H8 H9]. split.
  - split; cbn; try done; unfold aim; cbn; by rewrite Hn.
  - unfold spec at 2, wish, aim. cbn. rewrite Hn. cbn. apply spec_wish; [done|]. intros a [= <-]. exact El.
Qed.
Lemma follow_good s : browser_ok (br s) (ui s) → good Follow s (follow_link s).
Proof.
  intros Hok. unfold follow_link, follow_selected_link. destruct (viewing (br s)); [|by apply stay_good].
  destruct (doc_selected_link (ui s)) as [id|]; [|by apply stay_good]. destruct (page_links (br s) !! Z.to_nat id) as [l|]; [|by apply stay_good].
  unfold follow_link_to, upd. destruct (resolve_link (url l)); try (by apply stay_good); [|by eapply request_step..].
  destruct (current (br s)) as [[[n ?] ?]|]; [by eapply request_step|by apply stay_good].
Qed.

(** ** The view *)
Lemma exit_good s : browser_ok (br s) (ui s) → good Exit s (if viewing (br s) then browser_suspend s else s).
Proof.
  intros Hok. destruct (viewing (br s)) eqn:Ev; [|by apply stay_good]. unfold browser_suspend.
  destruct (br_drop_link (link (br s)) (upd (λ b, set_viewing false (reset b)) s)) as [E1 E2].
  unfold good, on_ui. cbn [br ui]. rewrite E1, E2. cbn [br ui upd]. unfold doc_suspend. destruct Hok as [H1 H2 H3 H4 H5 H6 H7 H8 H9].
  destruct (proj1 H6 Ev) as [d Hd]. rewrite Hd. split; [|apply (spec_fail Exit (hist (br s)) (wish (br s))); intros []]. split; cbn; try done.
  intros d' [?|[= <-]]; [done|]. apply H9. by left.
Qed.
Lemma menu_good s : browser_ok (br s) (ui s) → good Menu s (if doc_active (ui s) then s else (browser_resume s).2).
Proof.
  intros Hok. unfold doc_active. case_bool_decide as Ha; [by apply stay_good|]. unfold browser_resume.
  destruct (current (br s)) as [a|] eqn:Ec; [|by apply stay_good]. destruct Hok as [H1 H2 H3 H4 H5 H6 H7 H8 H9].
  assert (viewing (br s) = false) as Ev by (apply not_true_iff_false; by rewrite H6).
  destruct (H7 ltac:(by rewrite Ec) Ev) as [d Hd]. unfold doc_resume. rewrite Hd. split; [|constructor]. split; cbn; try done.
  intros d' [[= <-]|?]; [|done]. apply H9. by right.
Qed.
Lemma key_good k s : browser_ok (br s) (ui s) → good (Key k) s (on_ui (press measure vp k) s).
Proof.
  intros [H1 H2 H3 H4 H5 H6 H7 H8 H9]. split; [|constructor]. destruct (press_keeps measure vp k (ui s)) as [Es Ed].
  split; cbn [br ui on_ui]; try done.
  - rewrite H6. destruct (document (ui s)), (document (press measure vp k (ui s))); done.
  - rewrite Es. intros d [Hd|Hd]; [|apply H9; by right]. rewrite Hd in Ed. destruct (document (ui s)) as [d0|] eqn:E0; [|done].
    injection Ed as Ed. intros l. rewrite Ed. apply H9. by left.
Qed.

(** Every input keeps the invariant and is a step of the specification. *)
Lemma input_good i s s' : browser_ok (br s) (ui s) → input i s = Ok s' → good i s s'.
Proof.
  intros Hok. destruct i; cbn [input]; try (intros <-%Ok_inj).
  - by eapply request_step.
  - by apply open_page_good.
  - unfold enter_url. destruct (trim typed) as [|c t]; [by apply stay_good|].
    destruct (resolve_link (c :: t)); try (by apply stay_good); try (by apply open_page_good).
    destruct (current (br s)) as [[[? ?] ?]|]; [by apply open_page_good|by apply stay_good].
  - unfold upd, reload_page. destruct (current (br s)) as [[[? ?] ?]|]; [by eapply request_step|by apply stay_good].
  - unfold upd, node_index. destruct (current (br s)) as [[[? ?] ?]|]; [by eapply request_step|by apply stay_good].
  - by apply follow_good.
  - by apply back_good.
  - unfold bookmark_current_page. destruct (current (br s)); [|intros <-%Ok_inj; by apply stay_good].
    intros (? & _ & <-%Ok_inj)%res_bind_ok. by apply stay_good.
  - by apply exit_good.
  - by apply menu_good.
  - by apply key_good.
  - apply tick_good; [intros []|done].
  - apply link_up_good; [intros []|done].
  - apply data_good; [done|intros []|done].
  - apply quiet_good; [by intros []|done|]. unfold browser_link_closed. destruct (bool_decide _); [|apply quiet_refl].
    destruct (bool_decide _); quiet_leaf.
  - apply quiet_good; [by intros []|done|]. unfold browser_connection_lost. destruct (bool_decide _); quiet_leaf.
  - by apply stay_good.
Qed.
Lemma inputs_good l s s' : browser_ok (br s) (ui s) → inputs l s = Ok s' →
  browser_ok (br s') (ui s') ∧ spec_run l (spec (br s)) (spec (br s')).
Proof.
  revert s. induction l as [|i l IH]; intros s Hok; cbn [inputs]; [intros <-%Ok_inj; split; [done|constructor]|].
  intros (s1 & Hi & Hl)%res_bind_ok. destruct (input_good i s s1 Hok Hi) as [Hok1 H1]. destruct (IH s1 Hok1 Hl) as [H2 H3].
  split; [done|]. by econstructor.
Qed.

(** ** The deadline of a fetch *)
Notation dl s := (deadline (br s)).
Lemma finish_dl s : dl (browser_finish s) = dl s.
Proof. by destruct (br_finish s) as [-> _]. Qed.
Lemma broadcast_dl raw s : dl (broadcast hub_ok auto_ok raw s).2 = dl s.
Proof. unfold broadcast. by destruct (broadcast_out _ _ _ _). Qed.
Lemma send_request_dl now lid s s' : browser_send_request rand hub_ok auto_ok now lid s = Ok s' →
  dl s' = dl s ∧ (phase (br s') ≠ Idle → node (br s') = node (br s)).
Proof.
  intros H. pose proof (send_request_quiet _ _ _ _ H) as [_ Hq]. split.
  - revert H. unfold browser_send_request. unfold random. destruct (fill_random _ _ _) as [iv net].
    intros (raw & _ & <-%Ok_inj)%res_bind_ok. destruct raw as [raw|]; [|by rewrite finish_dl].
    unfold broadcast. destruct (broadcast_out _ _ _ _) as [[] ?]; [done|by rewrite finish_dl].
  - intros Hp. destruct Hq as [Hq|Hq]; unfold core in Hq; cbn in Hq; injection Hq; congruence.
Qed.
Lemma send_request_opt_dl lid req s s' : send_request_opt rand hub_ok auto_ok lid req s = Ok s' → dl s' = dl s.
Proof.
  unfold send_request_opt. destruct req as [req|]; [|by intros <-%Ok_inj]. unfold random. destruct (fill_random _ _ _) as [iv net].
  intros (raw & _ & <-%Ok_inj)%res_bind_ok. destruct raw; [|done]. by rewrite broadcast_dl.
Qed.
Lemma response_dl resp s s' : response_opt nodes_seen resp s = Ok s' → dl s' = dl s.
Proof.
  destruct resp as [resp|]; cbn [response_opt]; [|by intros <-%Ok_inj]. unfold page_received.
  destruct (page_bytes resp); [|intros <-%Ok_inj; apply finish_dl]. intros (doc & _ & H)%res_bind_ok.
  destruct (node (br s)); [|by apply Ok_inj in H as <-]. apply res_bind_ok in H as (s2 & [E1 E2]%name_node_keeps & <-%Ok_inj).
  cbn. by rewrite E1.
Qed.
Lemma data_dl now lid ctx pt s s' : browser_on_outlink_data W rand hub_ok auto_ok nodes_seen now lid ctx pt s = Ok s' →
  dl s' = dl s ∨ dl s' = now + PAGE_DEADLINE_SECS.
Proof.
  unfold browser_on_outlink_data. case_bool_decide as Hskip; [intros <-%Ok_inj; by left|]. intros Hr. right. revert Hr.
  set (s1 := upd (set_deadline _) s). change (now + PAGE_DEADLINE_SECS) with (dl s1). clearbody s1.
  destruct (ctx =? CONTEXT_RESPONSE); [intros (resp & _ & H)%res_bind_ok; by eapply response_dl|].
  destruct (ctx =? CONTEXT_RESOURCE_ADV).
  { intros (rx & _ & H)%res_bind_ok. destruct rx as [rx|]; [|apply Ok_inj in H as <-; apply finish_dl].
    by apply res_bind_ok in H as ([req rx'] & _ & ->%send_request_opt_dl). }
  destruct (ctx =? CONTEXT_RESOURCE_HMU).
  { destruct (receiver (br s1)) as [rx|]; [|by intros <-%Ok_inj]. by intros ([req rx'] & _ & ->%send_request_opt_dl)%res_bind_ok. }
  destruct (ctx =? CONTEXT_RESOURCE); [|by intros <-%Ok_inj].
  destruct (receiver (br s1)) as [rx|]; [|by intros <-%Ok_inj].
  intros ([req rx'] & _ & (s2 & H2%send_request_opt_dl & H)%res_bind_ok)%res_bind_ok. cbn in H2. rewrite <-H2.
  destruct (is_complete rx'); [|by apply Ok_inj in H as <-]. revert H. unfold page_resource_done. intros (plain & _ & H)%res_bind_ok.
  destruct plain as [plain|]; [|apply Ok_inj in H as <-; apply finish_dl]. apply res_bind_ok in H as (r & _ & H).
  destruct r as [[payload proof]|]; [|apply Ok_inj in H as <-; apply finish_dl].
  apply res_bind_ok in H as (raw & _ & H). apply res_bind_ok in H as (resp & _ & ->%response_dl). cbn. destruct raw; [|done]. apply broadcast_dl.
Qed.
Lemma request_busy n p v push b : phase b ≠ Idle → (request_page n p v push b).2 = b.
Proof. intros H. unfold request_page. by rewrite bool_decide_true. Qed.
Lemma open_busy n p s : phase (br s) ≠ Idle → br (open_page nodes_seen n p s) = br s.
Proof.
  intros Hp. unfold open_page. destruct (match Micron.split_once 96 p with Some _ => _ | None => _ end) as [p' vs].
  cbn. destruct (saved_nodes s !! n); cbn; by rewrite request_busy.
Qed.
(** While a fetch runs, the user's requests are refused. *)
Lemma asks_busy i s s' : asks i → phase (br s) ≠ Idle → input i s = Ok s' → br s' = br s.
Proof.
  intros Ha Hp. destruct i; try destruct Ha; cbn [input]; intros <-%Ok_inj.
  - by apply request_busy.
  - by apply open_busy.
  - unfold enter_url. destruct (trim typed) as [|c t]; [done|]. destruct (resolve_link (c :: t)); try done; try by apply open_busy.
    destruct (current (br s)) as [[[? ?] ?]|]; [by apply open_busy|done].
  - unfold upd, reload_page. cbn. destruct (current (br s)) as [[[? ?] ?]|]; [|done]. by rewrite request_busy.
  - unfold upd, node_index. cbn. destruct (current (br s)) as [[[? ?] ?]|]; [|done]. by rewrite request_busy.
  - unfold follow_link, follow_selected_link. destruct (viewing (br s)); [|done]. destruct (doc_selected_link (ui s)) as [id|]; [|done].
    destruct (page_links (br s) !! Z.to_nat id) as [l|]; [|done]. unfold follow_link_to. cbn.
    destruct (resolve_link (url l)); try done; try by rewrite request_busy. destruct (current (br s)) as [[[? ?] ?]|]; [|done]. by rewrite request_busy.
  - unfold key_back. destruct (viewing (br s)); [|done]. unfold browser_back. cbn. destruct (last (back (br s))) as [[[? ?] ?]|]; [|done].
    unfold request_page. by rewrite bool_decide_true.
Qed.
(** A tick past the deadline ends the fetch; another one leaves the deadline. *)
Lemma tick_busy up now s : phase (br s) ≠ Idle →
  (∀ s', browser_tick rand hub_ok auto_ok up now s = Ok s' → dl s' = dl s) ∧
  (dl s < now → ∃ s', browser_tick rand hub_ok auto_ok up now s = Ok s' ∧ br s' = reset (br s) ∧
    ∀ lid, link (br s) = Some lid → tmap (out_links (tp (bnet s'))) !! lid = None).
Proof.
  intros Hp. unfold browser_tick. rewrite (bool_decide_true _ Hp). destruct (Z.ltb_spec (dl s) now) as [Hlt|Hge]; cbn [andb].
  - set (s1 := match phase (br s) with Idle => _ | Linking => _ | Fetching => _ end).
    assert (br s1 = br s) as E1 by (unfold s1; by destruct (phase (br s)), (node (br s))).
    split; [intros ? <-%Ok_inj; rewrite finish_dl; by rewrite E1|]. intros _. eexists. split; [done|].
    destruct (br_finish s1) as [-> _]. rewrite E1. split; [done|]. intros lid Hl. unfold browser_finish. rewrite E1, Hl. cbn. apply lookup_delete_eq.
  - split; [|lia]. destruct (phase (br s)) eqn:Ep; [done| |by intros ? <-%Ok_inj].
    destruct (node (br s)) as [n|]; [|by intros ? <-%Ok_inj]. destruct (known _ n); [|by intros ? <-%Ok_inj].
    intros s' ([o net] & _ & <-%Ok_inj)%res_bind_ok. destruct o; [done..|]. by rewrite finish_dl.
Qed.
(** While a fetch runs, only data moves its deadline. *)
Lemma input_dl i s s' : phase (br s) ≠ Idle → input i s = Ok s' →
  dl s' = dl s ∨ ∃ now lid ctx pt, i = Data now lid ctx pt ∧ dl s' = now + PAGE_DEADLINE_SECS.
Proof.
  intros Hp Hi. assert (asks i → dl s' = dl s ∨ ∃ now lid ctx pt, i = Data now lid ctx pt ∧ dl s' = now + PAGE_DEADLINE_SECS) as Ha.
  { intros ?. left. by rewrite (asks_busy i s s'). }
  revert Hi. destruct i; try (intros _; by apply Ha); clear Ha; cbn [input]; try (intros <-%Ok_inj; left).
  - unfold bookmark_current_page. destruct (current (br s)); [|intros <-%Ok_inj; by left]. intros (? & _ & <-%Ok_inj)%res_bind_ok. by left.
  - destruct (viewing (br s)); [|done]. unfold browser_suspend. cbn. by destruct (br_drop_link (link (br s)) (upd (λ b, set_viewing false (reset b)) s)) as [-> _].
  - destruct (doc_active (ui s)); [done|]. unfold browser_resume. destruct (current (br s)); [|done]. by destruct (doc_resume (ui s)) as [[] ?].
  - done.
  - intros H. left. by apply (proj1 (tick_busy up now s Hp)).
  - unfold browser_on_link_up. destruct (bool_decide _); [|intros <-%Ok_inj; by left]. intros [-> _]%send_request_dl. by left.
  - intros [H|H]%data_dl; [by left|right; by repeat eexists].
  - unfold browser_link_closed. destruct (bool_decide _); [|done]. destruct (bool_decide _); [apply finish_dl|done].
  - unfold browser_connection_lost. destruct (bool_decide _); [apply finish_dl|done].
  - done.
Qed.

(** The tick that starts a fetch sets its deadline by the distance of the node. *)
Lemma tick_starts_fetch up now s s' : phase (br s) = Idle → node (br s) = None → browser_tick rand hub_ok auto_ok up now s = Ok s' → phase (br s') ≠ Idle →
  ∃ n, node (br s') = Some n ∧ dl s' = now + PAGE_DEADLINE_SECS + 12 * Z.max (default 1 (path_hops (tp (bnet s)) n)) 1.
Proof.
  intros Hp Hn. unfold browser_tick. rewrite bool_decide_false by (intros H; by apply H). cbn [andb]. rewrite Hp.
  destruct (requested (br s)) as [[[n p] v]|]; [|intros <-%Ok_inj; by rewrite Hp].
  destruct (_ <=? now); [|intros <-%Ok_inj; by rewrite Hp]. unfold start_fetch. set (s1 := upd _ s).
  destruct (rearm now (n, p, v) (br s1)) as [again later] eqn:Er.
  assert (phase later = Idle) as Hlater by (unfold rearm in Er; destruct (_ <=? _); injection Er as <- <-; exact Hp).
  destruct (negb up); [intros <-%Ok_inj; destruct again; cbn; [done|destruct (br_finish (upd (λ _, later) s1)) as [-> _]; done]|].
  assert (∀ x, (if again then '(_, net) ← request_peer_key rand hub_ok auto_ok (bnet s1) n; mret (with_bnet net (upd (λ _, later) s1))
     else mret (browser_finish (upd (λ _, later) s1))) = Ok x → phase (br x) = Idle) as Hno.
  { intros x. destruct again; [by intros ([? net] & _ & <-%Ok_inj)%res_bind_ok|]. intros <-%Ok_inj. by destruct (br_finish (upd (λ _, later) s1)) as [-> _]. }
  destruct (known _ n) as [k|]; [|by intros ->%Hno]. destruct (has_path _ n); [|by intros ->%Hno].
  destruct (outbound_link_for _ n now) as [[lid|] t].
  - intros [-> H]%send_request_dl Hbusy. exists n. by rewrite H.
  - intros ([o net] & _ & <-%Ok_inj)%res_bind_ok Hbusy. exists n. destruct o; [done..|].
    match type of Hbusy with context [browser_finish ?x] => destruct (br_finish x) as [E _]; rewrite E in Hbusy end. done.
Qed.

(** ** A page, from the node to the reader *)
Lemma name_node_total n p t s : (∀ x, t = Some x → (str_len (trim x) < DISPLAY_NAME_MAX)%nat) → ∃ s', name_node n p t s = Ok s'.
Proof.
  intros Ht. unfold name_node. destruct t as [x|]; cbn [mbind option_bind]; [|by eexists]. specialize (Ht x eq_refl).
  destruct (trim x) as [|c y]; [by eexists|]. destruct (saved_nodes s !! n); [|by eexists]. destruct (_ && _); [|by eexists].
  unfold truncate. rewrite (proj2 (Nat.leb_gt _ _) Ht). by eexists.
Qed.
(** The page that a link of a page of node [n] leads to. *)
Definition leads_to (n : bytes) (l : Micron.Link) : option PageAddr :=
  match resolve_link (url l) with
  | SameNode p => Some (n, p, fields l)
  | OtherNode n' p => Some (n', p, fields l)
  | NodeIndex n' => Some (n', PAGE_INDEX, fields l)
  | Lxmf _ | Anchor | Unsupported => None
  end.
Lemma keys_inputs k m s : inputs (replicate m (Key k)) s = Ok (on_ui (Nat.iter m (press measure vp k)) s).
Proof.
  revert s. induction m as [|m IH]; intros s; [by destruct s|]. cbn [replicate inputs input]. rewrite mret_Ok, bind_Ok, IH.
  unfold on_ui. cbn [br bnet saved_nodes d_nodes d_bookmarks ui]. by rewrite Nat.iter_succ_r.
Qed.
Lemma inputs_app l l' s s1 : inputs l s = Ok s1 → inputs (l ++ l') s = inputs l' s1.
Proof.
  revert s. induction l as [|i l IH]; intros s; cbn [inputs app]; [by intros <-%Ok_inj|]. intros (s2 & -> & H)%res_bind_ok. rewrite bind_Ok. by apply IH.
Qed.
Lemma link_line doc k l : doc_ok doc → (length (Micron.doc_lines doc) < MAX_LINES)%nat → Micron.links doc !! k = Some l →
  ∃ j x, Micron.doc_lines doc !! j = Some x ∧ kind x = KLink (Z.of_nat k).
Proof.
  intros Hd Hl Hk. pose proof (ok_all _ Hd Hl) as E. apply lookup_lt_Some in Hk.
  assert (Z.of_nat k ∈ link_ids (Micron.doc_lines doc)) as Hin.
  { rewrite E. apply list_elem_of_fmap. exists k. split; [done|]. apply elem_of_seq. lia. }
  apply list_elem_of_omap in Hin as (x & Hx & Hid). apply list_elem_of_lookup in Hx as [j Hj]. exists j, x. split; [done|].
  unfold Micron.link_id in Hid. destruct (kind x); [done..|]. by injection Hid as ->.
Qed.
End steps.

(** A run in which a fetch stays in flight, and how long it may take: until its deadline, or
    [PAGE_DEADLINE_SECS] after the last data. *)
Inductive busy_run `{C : Crypto} `{I : HashIter} `{B : Bz2} W rand hub_ok auto_ok seen measure vp : Site → list Input → Site → Prop :=
  | busy_nil s : phase (br s) ≠ Idle → busy_run W rand hub_ok auto_ok seen measure vp s [] s
  | busy_cons s i s1 l s' : phase (br s) ≠ Idle → input W rand hub_ok auto_ok seen measure vp i s = Ok s1 →
      busy_run W rand hub_ok auto_ok seen measure vp s1 l s' → busy_run W rand hub_ok auto_ok seen measure vp s (i :: l) s'.
Fixpoint limit (t : Z) (l : list Input) : Z :=
  match l with
  | [] => t
  | Data now _ _ _ :: l => limit (Z.max t (now + PAGE_DEADLINE_SECS)) l
  | _ :: l => limit t l
  end.

Section theorems.
Context `{C : Crypto} `{I : HashIter} `{B : Bz2} (W : Z).
Context (rand : nat → nat → bytes) (hub_ok auto_ok : nat → bool) (seen : gmap bytes (bytes * Z)).
Context (measure : DocLine → Z) (vp : VisualProperties).
Notation feed_all := (inputs W rand hub_ok auto_ok seen measure vp).
Notation feed := (input W rand hub_ok auto_ok seen measure vp).
Notation busy_run := (busy_run W rand hub_ok auto_ok seen measure vp).

Lemma limit_mono t t' l : t ≤ t' → limit t l ≤ limit t' l.
Proof using Type. revert t t'. induction l as [|i l IH]; intros t t' H; [done|]. destruct i; cbn; apply IH; lia. Qed.
Lemma busy_limit s l s' t : busy_run s l s' → deadline (br s) ≤ t → phase (br s') ≠ Idle ∧ deadline (br s') ≤ limit t l.
Proof using Type.
  intros H. revert t. induction H as [s Hp|s i s1 l s' Hp Hi _ IH]; intros t Ht; [done|].
  destruct (input_dl W rand hub_ok auto_ok seen measure vp i s s1 Hp Hi) as [E|(now & lid & ctx & pt & -> & E)].
  - destruct i; cbn [limit]; apply IH; lia.
  - cbn [limit]. apply IH. lia.
Qed.


(** C21: A fetch ends.  Started by a tick at time [S] for a node [n], it is over at the first tick later
    than both [S + 60 + 12 * hops] and 60 seconds after the last data from the node, whatever the node,
    the user and the other threads do; that tick returns, drops the link, and leaves the page
    shown and the history as they were. *)
Theorem fetch_ends (up : bool) (S : Z) (l : list Input) (s s1 s2 : Site)
  (Hidle : phase (br s) = Idle ∧ node (br s) = None) (Hstart : feed (Tick up S) s = Ok s1) (Hrun : busy_run s1 l s2) :
  ∃ n, node (br s1) = Some n ∧
  ∀ up' now, limit (S + PAGE_DEADLINE_SECS + 12 * Z.max (default 1 (path_hops (tp (bnet s)) n)) 1) l < now →
    ∃ s3, feed (Tick up' now) s2 = Ok s3 ∧ phase (br s3) = Idle ∧ hist (br s3) = hist (br s2) ∧ wish (br s3) = None ∧
    ∀ lid, link (br s2) = Some lid → tmap (out_links (tp (bnet s3))) !! lid = None.
Proof.
  assert (phase (br s1) ≠ Idle) as Hp1 by (by destruct Hrun). destruct Hidle as [Hi Hn].
  destruct (tick_starts_fetch rand hub_ok auto_ok up S s s1 Hi Hn Hstart Hp1) as (n & Hn1 & Hd). exists n. split; [done|].
  intros up' now Hnow. destruct (busy_limit s1 l s2 _ Hrun (Z.eq_le_incl _ _ Hd)) as [Hp2 Hd2].
  destruct (proj2 (tick_busy rand hub_ok auto_ok up' now s2 Hp2) ltac:(lia)) as (s3 & H3 & E & Hl).
  exists s3. split; [done|]. by rewrite E.
Qed.

End theorems.

(** ** Witnesses *)
Import ToyInstances.
#[local] Instance browser_iter : HashIter := λ V m, map_to_list m.
#[local] Instance browser_bz2 : Bz2 := λ _ _, None.

Definition wb_measure (_ : DocLine) : Z := 18.
Definition wb_site : Site := mkSite browser_new (mkNet ws_tp 0 [] None) ∅ ∅ ∅ (mkUi None None None true).
Definition wb_run : list Input → Site → res Site := inputs 32 ws_rand ws_up ws_up ∅ wb_measure sample_vp.
Definition wb_after (l : list Input) : Site := match wb_run l wb_site with Ok s => s | _ => wb_site end.
Definition wb_data (now : Z) (bs : list MicronPage.block) : Input := Data now ws_lid CONTEXT_RESPONSE (encode (Array [Nil; Bin (utf8 (print_page bs))])).
(** The node's index is fetched, a link of it followed, and the user goes back. *)
Definition wb_asked : list Input := [Browse ws_pn (ascii "node"); Tick true 200].
Definition wb_other : list MicronPage.block := [Head 1 (lit "mirrors")].
Definition wb_there : list Input :=
  wb_asked ++ [wb_data 205 sample_page; Key DocView.Top; Key DocView.Down; Follow; Tick true 206; wb_data 207 wb_other].
Definition wb_back : list Input := wb_there ++ [Back; Tick true 210; wb_data 211 sample_page].
Definition wb_index : PageAddr := (ws_pn, PAGE_INDEX, []).


Lemma fetch_ends_witness : ∃ s3, wb_run [Tick true 280] (wb_after wb_asked) = Ok s3 ∧ phase (br s3) = Idle ∧
  tmap (out_links (tp (bnet s3))) !! ws_lid = None.
Proof.
  destruct (fetch_ends 32 ws_rand ws_up ws_up ∅ wb_measure sample_vp true 200 [] (wb_after [Browse ws_pn (ascii "node")]) (wb_after wb_asked) (wb_after wb_asked))
    as (n & Hn & He).
  - split; vm_compute; reflexivity.
  - vm_compute. reflexivity.
  - apply busy_nil. vm_compute. discriminate.
  - assert (n = ws_pn) as -> by (apply (inj Some); rewrite <-Hn; vm_compute; reflexivity).
    destruct (He true 280) as (s3 & E & P & _ & _ & L); [vm_compute; reflexivity|].
    exists s3. split; [unfold wb_run; cbn [inputs]; rewrite E; reflexivity|]. split; [exact P|]. apply L. vm_compute. reflexivity.
Defined.


(** ** Defects *)

(** A name is cut to a number of bytes: the title of an index page with a character across
    byte 32 panics where it is to name the node. *)
Definition wb_long : str := replicate 31 97 ++ [0xe9; 97].
Lemma title_panics : wb_run [Browse ws_pn (hex ws_pn); Tick true 200; wb_data 205 [Head 1 wb_long]] wb_site = Panic.
Proof. vm_compute. reflexivity. Qed.
(** So does a bookmark of a page with such a title, at byte 60. *)
Lemma bookmark_panics : wb_run (wb_asked ++ [wb_data 205 [Head 1 (replicate 59 97 ++ [0xe9])]; Bookmark]) wb_site = Panic.
Proof. vm_compute. reflexivity. Qed.
