(* ===== verification/Dialogue.v ===== *)
(** The conversations of the chat server ([chat/src/dialogue.rs], with the requests of
    [chat/src/lib.rs] and [chat/src/ui.rs] that change or store them): the posts of a dialogue,
    its stored form, and the dialogue that is open.

    Text is UTF-8 bytes.  The archive format of a dialogue ([rkyv]) is the interface [Rkyv]; the
    dictionary of the PDDB is a map.  What only the drawing of a post uses (its bounding box,
    icons, attachments) is left out. *)
From S2P Require Import Prelude Msgpack Storage Inbound.

Definition MAX_BYTES : Z := 65536.
Definition MAX_POSTS : nat := Z.to_nat 256.
Definition BYTE_BUDGET : Z := 56 * 1024.
Definition PER_POST_OVERHEAD : Z := 128.
Definition ENVELOPE_MAGIC : bytes := ascii "CHd1".
Definition ENVELOPE_HEADER : Z := 12.

(** [right]: the flag of the author whose posts are on the right, the only one that is set. *)
Record Author := mkAuthor { au_name : bytes; right : bool }.
Record Post := mkPost { po_author : Z; po_ts : Z; po_text : bytes }.
Record Dialogue := mkDialogue {
  d_title : bytes;
  d_posts : list Post;
  authors : gmap Z Author;
  author_lookup : gmap bytes Z;
  last_timestamp : Z;
  last_author_id : Z;
}.
Definition with_posts (l : list Post) (d : Dialogue) : Dialogue :=
  mkDialogue (d_title d) l (authors d) (author_lookup d) (last_timestamp d) (last_author_id d).
Definition dialogue_new (now : Z) (title : bytes) : Dialogue :=
  mkDialogue title [] {[0 := mkAuthor (ascii "me") false]} ∅ now 1.

(** ** Authors *)
Definition author_id_next (d : Dialogue) : option (Z * Dialogue) :=
  if last_author_id d <? 65535 then
    let id := last_author_id d + 1 in
    Some (id, mkDialogue (d_title d) (d_posts d) (authors d) (author_lookup d) (last_timestamp d) id)
  else None.
Definition set_authors (a : gmap Z Author) (l : gmap bytes Z) (d : Dialogue) : Dialogue :=
  mkDialogue (d_title d) (d_posts d) a l (last_timestamp d) (last_author_id d).
Definition author_id (name : bytes) (d : Dialogue) : option (Z * Dialogue) :=
  '(id, d) ← match author_lookup d !! name with
             | Some id => Some (id, d)
             | None => '(id, d) ← author_id_next d; Some (id, set_authors (<[id := mkAuthor name false]> (authors d)) (<[name := id]> (author_lookup d)) d)
             end;
  Some (id, if bool_decide (name = SELF_AUTHOR)
            then set_authors (alter (λ a, mkAuthor (au_name a) true) id (authors d)) (author_lookup d) d
            else d).

(** ** Posts *)

(** [partition_point]: the length of the prefix that satisfies [f]. *)
Fixpoint partition_point (f : Post → bool) (l : list Post) : nat :=
  match l with p :: l => if f p then S (partition_point f l) else 0%nat | [] => 0%nat end.
Definition post_size (p : Post) : Z := len_of (po_text p) + PER_POST_OVERHEAD.
Fixpoint cap_posts (l : list Post) : list Post :=
  match l with _ :: l' => if (MAX_POSTS <? length l)%nat then cap_posts l' else l | [] => [] end.
Fixpoint drop_oldest (total : Z) (l : list Post) : list Post :=
  match l with
  | p :: l' => if (BYTE_BUDGET <? total) && (1 <? length l)%nat then drop_oldest (total - post_size p) l' else l
  | [] => []
  end.
Definition total_size (title : bytes) (l : list Post) : Z := fold_left (λ t p, t + post_size p) l (len_of title + 512).
Definition enforce_byte_budget (d : Dialogue) : Dialogue := with_posts (drop_oldest (total_size (d_title d) (d_posts d)) (d_posts d)) d.
(** [None]: no author id is left. *)
Definition post_add (author : bytes) (ts : Z) (text : bytes) (d : Dialogue) : option Dialogue :=
  '(id, d) ← author_id author d;
  let new := mkPost id ts text in
  if bool_decide (length (d_posts d) = 0)%nat then Some (with_posts [new] d)
  else
    let i := partition_point (λ p, po_ts p <=? ts) (d_posts d) in
    let l := take i (d_posts d) ++ new :: drop i (d_posts d) in
    Some (enforce_byte_budget (with_posts (cap_posts l) d)).

Fixpoint scan_posts (id ts : Z) (n : nat) (l : list Post) : option nat :=
  match l with
  | p :: l => if negb (po_ts p =? ts) then None else if po_author p =? id then Some n else scan_posts id ts (S n) l
  | [] => None
  end.
Definition post_find (author : bytes) (ts : Z) (d : Dialogue) : option nat :=
  id ← author_lookup d !! author;
  let i := partition_point (λ p, po_ts p <? ts) (d_posts d) in
  scan_posts id ts i (drop i (d_posts d)).
Definition post_update (author : bytes) (ts : Z) (text : bytes) (d : Dialogue) : bool * Dialogue :=
  match post_find author ts d with
  | None => (false, d)
  | Some i => (true, with_posts (alter (λ p, mkPost (po_author p) ts text) i (d_posts d)) d)
  end.
Definition post_del (i : nat) (d : Dialogue) : option Dialogue :=
  if (i <? length (d_posts d))%nat then Some (with_posts (delete i (d_posts d)) d) else None.

(** ** The stored form *)
Definition checksum (l : bytes) : Z := fold_left (λ h b, (Z.lxor h b * 0x01000193) mod 2 ^ 32) l 0x811c9dc5.

(** The archive of a dialogue; [None]: it does not deserialize. *)
Class Rkyv := { to_bytes : Dialogue → bytes; deserialize : bytes → option Dialogue }.
Inductive DecodeError := Envelope | Deserialize.

Section stored.
Context `{R : Rkyv} (W : Z).
Definition envelope_valid (buf : bytes) : res bool :=
  if negb ((ENVELOPE_HEADER <=? len_of buf) && bool_decide (take 4 buf = ENVELOPE_MAGIC)) then mret false
  else
    let len := be_val (take 4 (drop 4 buf)) in
    let crc := be_val (take 4 (drop 8 buf)) in
    let stop := usize_add W ENVELOPE_HEADER len in
    if negb ((stop <=? len_of buf) && (len <=? MAX_BYTES)) then mret false
    else body ← slice buf 12 (Z.to_nat stop); mret (checksum body =? crc).
Definition decode (buf : bytes) : res (DecodeError + Dialogue) :=
  valid ← envelope_valid buf;
  if negb valid then mret (inl Envelope)
  else
    let len := be_val (take 4 (drop 4 buf)) in
    body ← slice buf 12 (Z.to_nat (usize_add W ENVELOPE_HEADER len));
    mret match deserialize body with Some d => inr d | None => inl Deserialize end.
Definition stored_value (d : Dialogue) : bytes :=
  let body := to_bytes d in ENVELOPE_MAGIC ++ be_bytes 4 (len_of body) ++ be_bytes 4 (checksum body) ++ body.

(** ** The chat server *)

(** The open dialogue under its key, and the dictionary of the dialogues. *)
Record Chat := mkChat { pddb_key : option bytes; dialogue : option Dialogue; disk : gmap bytes bytes }.
(** Whether the read succeeded. *)
Definition dialogue_read (c : Chat) : res (bool * Chat) :=
  match pddb_key c with
  | None => mret (false, c)
  | Some k =>
      match disk c !! k with
      | None => mret (false, c)
      | Some v =>
          r ← decode (take (Z.to_nat (MAX_BYTES + ENVELOPE_HEADER + 2)) v);
          mret match r with
               | inl Envelope => (false, c)
               | inl Deserialize => (true, mkChat (pddb_key c) None (disk c))
               | inr d => (true, mkChat (pddb_key c) (Some d) (disk c))
               end
      end
  end.
Definition dialogue_save (c : Chat) : Chat :=
  match dialogue c, pddb_key c with
  | Some d, Some k => mkChat (pddb_key c) (dialogue c) (<[k := stored_value d]> (disk c))
  | _, _ => c
  end.
Definition dialogue_set (now : Z) (key : bytes) (c : Chat) : res Chat :=
  '(ok, c) ← dialogue_read (mkChat (Some key) (dialogue c) (disk c));
  mret (if ok : bool then c else dialogue_save (mkChat (pddb_key c) (Some (dialogue_new now key)) (disk c))).
(** The open dialogue is the one that posts are sent to; a post that cannot be added panics. *)
Definition chat_post_add (author : bytes) (ts : Z) (text : bytes) (c : Chat) : res Chat :=
  match pddb_key c, dialogue c with
  | Some _, Some d => d ← expect (post_add author ts text d); mret (mkChat (pddb_key c) (Some d) (disk c))
  | _, _ => mret c
  end.
Definition chat_post_update (author : bytes) (ts : Z) (text : bytes) (c : Chat) : bool * Chat :=
  match dialogue c with
  | Some d => let '(found, d) := post_update author ts text d in (found, mkChat (pddb_key c) (Some d) (disk c))
  | None => (false, c)
  end.
(** A request of the application. *)
Definition chat_op (now : Z) (m : ChatMsg) (c : Chat) : res Chat :=
  match m with
  | DialogueDrop k => mret (mkChat (pddb_key c) (dialogue c) (delete k (disk c)))
  | DialogueSet k => dialogue_set now k c
  | PostAdd a ts t => chat_post_add a ts t c
  | PostUpdate a ts t => mret (chat_post_update a ts t c).2
  | DialogueSave => '(_, c) ← dialogue_read (dialogue_save c); mret c
  end.
(** The requests, each with the time it is handled. *)
Fixpoint chat_ops (l : list (Z * ChatMsg)) (c : Chat) : res Chat :=
  match l with [] => mret c | (now, m) :: l => c ← chat_op now m c; chat_ops l c end.
End stored.
