(* ===== verification/DialogueProps.v ===== *)
(** What the chat server promises: posts in the order of time with only the oldest dropped, an
    update that meets its post, and conversations that are read back as they were saved. *)
From stdpp Require Import sorting.
From S2P Require Import MicronPage Prelude Msgpack Crypto OutboxNet Sync SyncProps Storage Inbound InboundProps Dialogue.

(** ** The posts of a dialogue *)
Definition earlier (p q : Post) : Prop := po_ts p ≤ po_ts q.
Definition time_ordered (l : list Post) : Prop := StronglySorted earlier l.
(** The limits of a dialogue; the latest post is kept whatever its size. *)
Definition fits (title : bytes) (l : list Post) : Prop :=
  (length l ≤ MAX_POSTS)%nat ∧ (total_size title l ≤ BYTE_BUDGET ∨ (length l ≤ 1)%nat).
(** A post after those of its second or earlier. *)
Definition in_order (new : Post) (l : list Post) : list Post :=
  filter (λ p, po_ts p ≤ po_ts new) l ++ new :: filter (λ p, po_ts new < po_ts p) l.
(** The longest end of [l] within the limits. *)
Definition latest_fitting (title : bytes) (l kept : list Post) : Prop :=
  kept `suffix_of` l ∧ fits title kept ∧ ∀ s, s `suffix_of` l → fits title s → (length s ≤ length kept)%nat.

Lemma filter_none {A} (P : A → Prop) `{∀ x, Decision (P x)} l : Forall (λ x, ¬ P x) l → filter P l = [].
Proof. induction 1 as [|x l Hx _ IH]; [done|]. by rewrite filter_cons_False. Qed.
Lemma filter_every {A} (P : A → Prop) `{∀ x, Decision (P x)} l : Forall P l → filter P l = l.
Proof. induction 1 as [|x l Hx _ IH]; [done|]. rewrite filter_cons_True by done. by rewrite IH. Qed.

(** In a dialogue in order, [partition_point] splits by time. *)
Lemma partition_le ts l : time_ordered l → let i := partition_point (λ p, po_ts p <=? ts) l in
  take i l = filter (λ p, po_ts p ≤ ts) l ∧ drop i l = filter (λ p, ts < po_ts p) l.
Proof.
  intros Hs. induction Hs as [|p l Hs IH Hp]; [done|]. cbn [partition_point]. destruct (Z.leb_spec (po_ts p) ts).
  - cbn [take drop]. destruct IH as [-> ->]. rewrite filter_cons_True, filter_cons_False by lia. done.
  - cbn [take drop]. assert (Forall (λ q, ts < po_ts q) (p :: l)) as Hl.
    { constructor; [done|]. eapply Forall_impl; [exact Hp|]. unfold earlier. cbn. lia. }
    rewrite filter_none by (eapply Forall_impl; [exact Hl|]; cbn; lia). by rewrite filter_every.
Qed.
Lemma partition_ext f g l : (∀ p, f p = g p) → partition_point f l = partition_point g l.
Proof. intros H. induction l as [|p l IH]; [done|]. cbn. rewrite H. by destruct (g p); [rewrite IH|]. Qed.
Lemma partition_lt ts l : time_ordered l → let i := partition_point (λ p, po_ts p <? ts) l in
  take i l = filter (λ p, po_ts p < ts) l ∧ drop i l = filter (λ p, ts ≤ po_ts p) l.
Proof.
  intros Hs. cbv zeta. rewrite (partition_ext _ (λ p, po_ts p <=? ts - 1)) by (intros p; destruct (Z.ltb_spec (po_ts p) ts), (Z.leb_spec (po_ts p) (ts - 1)); lia).
  destruct (partition_le (ts - 1) l Hs) as [E1 E2]. rewrite E1, E2. split; apply list_filter_iff; lia.
Qed.
Lemma sorted_app a b : time_ordered (a ++ b) ↔ time_ordered a ∧ time_ordered b ∧ ∀ p q, p ∈ a → q ∈ b → po_ts p ≤ po_ts q.
Proof.
  unfold time_ordered. induction a as [|x a IH]; cbn [app].
  - split; [intros; split_and!; [constructor|done|by intros ?? ?%elem_of_nil]|by intros (_ & ? & _)].
  - split.
    + intros [H1 H2]%StronglySorted_inv. apply IH in H1 as (? & ? & H3). apply Forall_app in H2 as [H2 H4]. split_and!; [by constructor|done|].
      intros p q [->|Hp]%elem_of_cons Hq; [|by apply H3]. by apply (proj1 (Forall_forall _ _) H4).
    + intros ([H1 H2]%StronglySorted_inv & H3 & H4). constructor; [apply IH; split_and!; [done..|intros; apply H4; [by right|done]]|].
      apply Forall_app. split; [done|]. apply Forall_forall. intros q Hq. apply H4; [by left|done].
Qed.
Lemma posts_sorted_filter (P : Post → Prop) `{∀ x, Decision (P x)} l : time_ordered l → time_ordered (filter P l).
Proof.
  induction 1 as [|p l Hs IH Hp]; [constructor|]. rewrite filter_cons. case_decide; [|done]. constructor; [done|].
  apply Forall_forall. intros q [_ Hq]%list_elem_of_filter. by apply (proj1 (Forall_forall _ _) Hp).
Qed.
Lemma in_order_sorted new l : time_ordered l → time_ordered (in_order new l).
Proof.
  intros Hs. unfold in_order. rewrite cons_middle, app_assoc. apply sorted_app. split_and!.
  - apply sorted_app. split_and!; [by apply posts_sorted_filter|repeat constructor|]. intros p q [? _]%list_elem_of_filter ->%list_elem_of_singleton. done.
  - by apply posts_sorted_filter.
  - intros p q [[? _]%list_elem_of_filter| ->%list_elem_of_singleton]%elem_of_app [? _]%list_elem_of_filter; lia.
Qed.
Lemma sorted_suffix s l : s `suffix_of` l → time_ordered l → time_ordered s.
Proof. intros [k ->] H%sorted_app. by destruct H as (_ & ? & _). Qed.

(** ** The limits *)
Lemma total_size_cons title p l : total_size title (p :: l) = total_size title l + post_size p.
Proof.
  unfold total_size. cbn [fold_left]. generalize (len_of title + 512). induction l as [|q l IH]; intros t; cbn [fold_left]; [lia|].
  rewrite <-IH. f_equal. lia.
Qed.
Lemma suffix_cons_case {A} (s : list A) x l : s `suffix_of` x :: l → s = x :: l ∨ s `suffix_of` l.
Proof. intros [[|y k] E]; [left; by subst|]. injection E as -> ->. right. by exists k. Qed.
Lemma suffix_of_both {A} (s k l : list A) : s `suffix_of` l → k `suffix_of` l → (length s ≤ length k)%nat → s `suffix_of` k.
Proof.
  intros Hs Hk Hl. destruct (suffix_weak_total s k l Hs Hk) as [H|H]; [done|].
  by rewrite (suffix_length_eq _ _ H Hl).
Qed.
Lemma cap_spec l : cap_posts l `suffix_of` l ∧ (length (cap_posts l) ≤ MAX_POSTS)%nat ∧ (length (cap_posts l) = Nat.min (length l) MAX_POSTS)%nat.
Proof.
  induction l as [|p l (I1 & I2 & I3)]; [split_and!; [done|cbn; lia..]|]. cbn [cap_posts].
  destruct (Nat.ltb_spec MAX_POSTS (length (p :: l))) as [H|H]; cbn [length] in *.
  - split_and!; [by apply suffix_cons_r|done|lia].
  - split_and!; [done|done|lia].
Qed.
Lemma drop_spec title l : let k := drop_oldest (total_size title l) l in
  k `suffix_of` l ∧ (total_size title k ≤ BYTE_BUDGET ∨ (length k ≤ 1)%nat) ∧
  ∀ s, s `suffix_of` l → total_size title s ≤ BYTE_BUDGET ∨ (length s ≤ 1)%nat → (length s ≤ length k)%nat.
Proof.
  induction l as [|p l (I1 & I2 & I3)]; cbn [drop_oldest].
  { split_and!; [done|right; cbn; lia|]. by intros s ->%suffix_nil_inv. }
  rewrite total_size_cons. destruct (Z.ltb_spec BYTE_BUDGET (total_size title l + post_size p)) as [Hb|Hb]; cbn [andb].
  - destruct (Nat.ltb_spec 1 (length (p :: l))) as [Hl|Hl].
    + rewrite Z.add_simpl_r. split_and!; [by apply suffix_cons_r|done|]. intros s [->|Hs]%suffix_cons_case Hf; [|by apply I3].
      rewrite total_size_cons in Hf. lia.
    + split_and!; [done|by right|]. intros s Hs _. by apply suffix_length.
  - split_and!; [done|left; by rewrite total_size_cons|]. intros s Hs _. by apply suffix_length.
Qed.
(** What the two trims keep is the longest end within the limits. *)
Lemma trims_latest title l : latest_fitting title l (drop_oldest (total_size title (cap_posts l)) (cap_posts l)).
Proof.
  destruct (cap_spec l) as (C1 & C2 & C3). destruct (drop_spec title (cap_posts l)) as (D1 & D2 & D3). cbv zeta in *. split_and!.
  - by trans (cap_posts l).
  - split; [|done]. pose proof (suffix_length _ _ D1). lia.
  - intros s Hs [F1 F2]. apply D3; [|done]. apply (suffix_of_both s _ l); [done..|]. pose proof (suffix_length _ _ Hs). lia.
Qed.

(** ** The authors *)
Record dialogue_ok (d : Dialogue) : Prop := {
  ok_sorted : time_ordered (d_posts d);
  ok_count : (length (d_posts d) ≤ MAX_POSTS)%nat;
  ok_ids : 1 ≤ last_author_id d ≤ 65535;
  ok_names : ∀ n i, author_lookup d !! n = Some i → 2 ≤ i ≤ last_author_id d ∧ ∃ r, authors d !! i = Some (mkAuthor n r);
  ok_authors : ∀ p, p ∈ d_posts d → ∃ n, author_lookup d !! n = Some (po_author p);
}.
Lemma dialogue_new_ok now title : dialogue_ok (dialogue_new now title).
Proof. split; cbn; [constructor|lia|lia|done|by intros p ?%elem_of_nil]. Qed.
Lemma with_posts_ok l d : dialogue_ok d → time_ordered l → (length l ≤ MAX_POSTS)%nat →
  (∀ p, p ∈ l → ∃ n, author_lookup d !! n = Some (po_author p)) → dialogue_ok (with_posts l d).
Proof. intros [H1 H2 H3 H4 H5] ???. by split. Qed.

(** The author has an id, and nothing else changes for the others. *)
Lemma author_id_spec a d : dialogue_ok d → is_Some (author_lookup d !! a) ∨ last_author_id d < 65535 →
  ∃ id d', author_id a d = Some (id, d') ∧ dialogue_ok d' ∧ d_posts d' = d_posts d ∧ d_title d' = d_title d ∧
  author_lookup d' !! a = Some id ∧ (∀ n i, author_lookup d !! n = Some i → author_lookup d' !! n = Some i) ∧ last_author_id d' ≤ last_author_id d + 1.
Proof.
  intros Hok Hroom. unfold author_id.
  assert (∃ id d1, match author_lookup d !! a with Some id => Some (id, d)
      | None => '(id, d) ← author_id_next d; Some (id, set_authors (<[id := mkAuthor a false]> (authors d)) (<[a := id]> (author_lookup d)) d) end = Some (id, d1) ∧
    dialogue_ok d1 ∧ d_posts d1 = d_posts d ∧ d_title d1 = d_title d ∧ author_lookup d1 !! a = Some id ∧
    (∀ n i, author_lookup d !! n = Some i → author_lookup d1 !! n = Some i) ∧ last_author_id d1 ≤ last_author_id d + 1) as (id & d1 & -> & Hok1 & Hp & Ht & Hl & Hk & Hlast).
  { destruct (author_lookup d !! a) as [id|] eqn:E; [exists id, d; split_and!; [done..|lia]|]. destruct Hroom as [[? ?]|Hlt]; [done|].
    unfold author_id_next. rewrite (proj2 (Z.ltb_lt _ _) Hlt). cbn [mbind option_bind]. eexists _, _. split; [done|].
    destruct Hok as [H1 H2 H3 H4 H5]. cbn. split_and!; [|done|done|apply lookup_insert_eq| |lia].
    - split; cbn; [done|done|lia| |].
      + intros n i. destruct (decide (n = a)) as [->|].
        * rewrite lookup_insert_eq. intros [= <-]. split; [lia|]. rewrite lookup_insert_eq. by eexists.
        * rewrite lookup_insert_ne by done. intros Hn. destruct (H4 n i Hn) as [? [r Hr]]. split; [lia|]. rewrite lookup_insert_ne by lia. by exists r.
      + intros p Hp. destruct (H5 p Hp) as [n Hn]. exists n. rewrite lookup_insert_ne; [done|]. intros ->. congruence.
    - intros n i Hn. rewrite lookup_insert_ne; [done|]. intros ->. congruence. }
  cbn [mbind option_bind]. case_bool_decide as Hs; (eexists id, _; split; [done|]; split_and!; [|done..]); [|done].
  destruct Hok1 as [H1 H2 H3 H4 H5]. split; cbn; [done|done|done| |done]. intros n i Hn. destruct (H4 n i Hn) as [? [r Hr]]. split; [done|].
  destruct (decide (i = id)) as [->|]; [rewrite lookup_alter_eq, Hr; by eexists|rewrite lookup_alter_ne by done; by exists r].
Qed.

(** ** Adding a post *)
Lemma in_order_nil new : in_order new [] = [new].
Proof. done. Qed.
Lemma in_order_elem new l p : p ∈ in_order new l → p = new ∨ p ∈ l.
Proof.
  unfold in_order. rewrite elem_of_app, elem_of_cons, !list_elem_of_filter. naive_solver.
Qed.
Lemma post_add_spec a ts t d : dialogue_ok d → is_Some (author_lookup d !! a) ∨ last_author_id d < 65535 →
  ∃ id d', post_add a ts t d = Some d' ∧ dialogue_ok d' ∧ d_title d' = d_title d ∧ author_lookup d' !! a = Some id ∧
  (∀ n i, author_lookup d !! n = Some i → author_lookup d' !! n = Some i) ∧ last_author_id d' ≤ last_author_id d + 1 ∧
  latest_fitting (d_title d) (in_order (mkPost id ts t) (d_posts d)) (d_posts d').
Proof.
  intros Hok Hroom. destruct (author_id_spec a d Hok Hroom) as (id & d1 & E & Hok1 & Hp & Ht & Hl & Hk & Hlast). unfold post_add. rewrite E. cbn [mbind option_bind].
  exists id. set (new := mkPost id ts t). case_bool_decide as He.
  - rewrite Hp in He. apply length_zero_iff_nil in He. eexists. split; [done|]. rewrite He, in_order_nil. split_and!; try done.
    + apply with_posts_ok; [done|repeat constructor|unfold MAX_POSTS; cbn; lia|]. intros p ->%list_elem_of_singleton. by exists a.
    + split; [done|]. split; [split; [unfold MAX_POSTS; cbn; lia|right; cbn; lia]|]. intros s Hs _. by apply suffix_length.
  - set (i := partition_point _ _). eexists. split; [done|].
    destruct (partition_le ts (d_posts d1) (ok_sorted _ Hok1)) as [E1 E2]. fold i in E1, E2.
    assert (take i (d_posts d1) ++ new :: drop i (d_posts d1) = in_order new (d_posts d)) as -> by (rewrite E1, E2, Hp; done).
    unfold enforce_byte_budget. cbn [d_posts d_title with_posts]. rewrite Ht.
    pose proof (trims_latest (d_title d) (in_order new (d_posts d))) as Hlat. set (kept := drop_oldest _ _) in *. clearbody kept.
    split_and!; try done. change (with_posts kept (with_posts _ d1)) with (with_posts kept d1). destruct Hlat as (Hs & [Hc _] & _).
    apply with_posts_ok; [done|eapply sorted_suffix; [done|]; apply in_order_sorted, (ok_sorted _ Hok)|done|].
    intros p Hin. assert (p ∈ in_order new (d_posts d)) as [->|Hin']%in_order_elem.
    { destruct Hs as [k ->]. apply elem_of_app. by right. }
    + by exists a.
    + rewrite <-Hp in Hin'. by apply (ok_authors _ Hok1).
Qed.

(** ** Updating a post *)
Definition mine (d : Dialogue) (a : bytes) (ts : Z) (p : Post) : Prop := author_lookup d !! a = Some (po_author p) ∧ po_ts p = ts.
Lemma scan_spec id ts n l : time_ordered l → Forall (λ p, ts ≤ po_ts p) l →
  match scan_posts id ts n l with
  | Some k => ∃ pre p rest, l = pre ++ p :: rest ∧ k = (n + length pre)%nat ∧ po_ts p = ts ∧ po_author p = id ∧
      Forall (λ q, ¬ (po_author q = id ∧ po_ts q = ts)) pre
  | None => Forall (λ q, ¬ (po_author q = id ∧ po_ts q = ts)) l
  end.
Proof.
  intros Hs Hge. revert n. induction Hs as [|p l Hs IH Hp]; intros n; cbn [scan_posts]; [constructor|].
  apply Forall_cons in Hge as [Hpt Hge]. destruct (Z.eqb_spec (po_ts p) ts) as [Ets|Hne]; cbn [negb].
  - destruct (Z.eqb_spec (po_author p) id) as [Ea|Ha].
    + exists [], p, l. split_and!; [done|cbn; lia|done|done|constructor].
    + specialize (IH Hge (S n)). destruct (scan_posts id ts (S n) l) as [k|].
      * destruct IH as (pre & q & rest & -> & -> & ? & ? & Hf). exists (p :: pre), q, rest. split_and!; [done|cbn; lia|done|done|]. constructor; [|done]. by intros [? _].
      * constructor; [|done]. by intros [? _].
  - constructor; [by intros [_ ?]|]. eapply Forall_impl; [exact Hp|]. unfold earlier. cbn. intros q Hq [_ ?]. lia.
Qed.
Lemma alter_post {A} (f : A → A) pre p rest : alter f (length pre) (pre ++ p :: rest) = pre ++ f p :: rest.
Proof. induction pre as [|x pre IH]; [done|]. cbn. f_equal. exact IH. Qed.
Lemma post_find_spec a ts d : dialogue_ok d →
  match post_find a ts d with
  | Some k => ∃ pre p rest, d_posts d = pre ++ p :: rest ∧ k = length pre ∧ mine d a ts p ∧ Forall (λ q, ¬ mine d a ts q) pre
  | None => Forall (λ q, ¬ mine d a ts q) (d_posts d)
  end.
Proof.
  intros Hok. unfold post_find, mine. destruct (author_lookup d !! a) as [id|]; cbn [mbind option_bind].
  2: { apply Forall_forall. by intros p _ [? _]. }
  set (i := partition_point _ _). destruct (partition_lt ts (d_posts d) (ok_sorted _ Hok)) as [E1 E2]. fold i in E1, E2.
  assert (Forall (λ q, ¬ (Some id = Some (po_author q) ∧ po_ts q = ts)) (take i (d_posts d))) as Hpre.
  { rewrite E1. apply Forall_forall. intros q [? _]%list_elem_of_filter [_ ?]. lia. }
  assert (∀ (l : list Post), Forall (λ q, ¬ (po_author q = id ∧ po_ts q = ts)) l → Forall (λ q, ¬ (Some id = Some (po_author q) ∧ po_ts q = ts)) l) as Himp.
  { intros l Hl. eapply Forall_impl; [exact Hl|]. intros q Hq [[= ->] ?]. by apply Hq. }
  pose proof (scan_spec id ts i (drop i (d_posts d))) as Hscan.
  specialize (Hscan ltac:(rewrite E2; apply posts_sorted_filter, (ok_sorted _ Hok))).
  specialize (Hscan ltac:(rewrite E2; apply Forall_forall; by intros q [? _]%list_elem_of_filter)).
  destruct (scan_posts id ts i (drop i (d_posts d))) as [k|].
  - destruct Hscan as (pre & p & rest & E & -> & Ht & <- & Hf). exists (take i (d_posts d) ++ pre), p, rest.
    split_and!; [by rewrite <-app_assoc, <-E, take_drop| |done|done|apply Forall_app; split; [done|by apply Himp]].
    rewrite length_app, length_take. apply (f_equal length) in E. rewrite length_drop, length_app in E. cbn in E. lia.
  - rewrite <-(take_drop i (d_posts d)). apply Forall_app. split; [done|by apply Himp].
Qed.

(** ** The stored form *)
Class RkyvOK `{R : Rkyv} : Prop := rkyv_roundtrip : ∀ d, deserialize (to_bytes d) = Some d.
Definition small `{R : Rkyv} (d : Dialogue) : Prop := len_of (to_bytes d) ≤ MAX_BYTES.
#[export] Instance small_dec `{R : Rkyv} d : Decision (small d) := Z_le_dec _ _.

Section stored.
Context `{R : Rkyv} (W : Z) (HW : 17 ≤ W).

Lemma checksum_range l : 0 ≤ checksum l < 2 ^ 32.
Proof using Type.
  unfold checksum. assert (∀ h, 0 ≤ h < 2 ^ 32 → 0 ≤ fold_left (λ h b, (Z.lxor h b * 0x01000193) mod 2 ^ 32) l h < 2 ^ 32) as H; [|by apply H].
  induction l as [|b l IH]; intros h Hh; [done|]. cbn [fold_left]. apply IH, Z.mod_pos_bound. lia.
Qed.
Lemma stored_parts d tail : let buf := stored_value d ++ tail in
  take 4 buf = ENVELOPE_MAGIC ∧ take 4 (drop 4 buf) = be_bytes 4 (len_of (to_bytes d)) ∧ take 4 (drop 8 buf) = be_bytes 4 (checksum (to_bytes d)) ∧
  drop 12 buf = to_bytes d ++ tail.
Proof using Type.
  cbv zeta. unfold stored_value. rewrite <-!app_assoc. assert (length ENVELOPE_MAGIC = 4%nat) as Hm by done.
  pose proof (be_bytes_length 4 (len_of (to_bytes d))) as H1. pose proof (be_bytes_length 4 (checksum (to_bytes d))) as H2.
  split_and!; [by rewrite take_app_length'|by rewrite drop_app_length', take_app_length'| |].
  - rewrite (app_assoc ENVELOPE_MAGIC), drop_app_length' by (rewrite length_app; lia). by rewrite take_app_length'.
  - rewrite (app_assoc ENVELOPE_MAGIC), (app_assoc (ENVELOPE_MAGIC ++ _)), drop_app_length' by (rewrite !length_app; lia). done.
Qed.
(** A value that was saved is read back, whatever follows it. *)
Lemma decode_stored `{!RkyvOK} d tail : small d → decode W (stored_value d ++ tail) = Ok (inr d).
Proof using HW.
  intros Hs. unfold small, MAX_BYTES in Hs. destruct (stored_parts d tail) as (P1 & P2 & P3 & P4). set (buf := stored_value d ++ tail) in *.
  pose proof (f_equal length P4) as Hlen. rewrite length_drop, length_app in Hlen. pose proof (f_equal length P1) as Hl4. rewrite length_take in Hl4. cbn in Hl4.
  assert (12 + length (to_bytes d) ≤ length buf)%nat as Hbuf.
  { assert (length buf = 12 + length (to_bytes d) + length tail)%nat; [|lia]. unfold buf, stored_value. rewrite !length_app, !be_bytes_length. cbn. lia. }
  assert (be_val (take 4 (drop 4 buf)) = len_of (to_bytes d)) as Elen by (rewrite P2; apply be_val_be_bytes_small; unfold len_of in *; lia).
  assert (be_val (take 4 (drop 8 buf)) = checksum (to_bytes d)) as Ecrc by (rewrite P3; apply be_val_be_bytes_small, checksum_range).
  assert (usize_add W ENVELOPE_HEADER (len_of (to_bytes d)) = 12 + len_of (to_bytes d)) as Eend.
  { unfold usize_add, ENVELOPE_HEADER. apply Z.mod_small. pose proof (Z.pow_le_mono_r 2 17 W). unfold len_of in *. lia. }
  assert (slice buf 12 (Z.to_nat (12 + len_of (to_bytes d))) = Ok (to_bytes d)) as Eslice.
  { apply (slice_at (take 12 buf) (to_bytes d) tail); [by rewrite <-P4, take_drop|rewrite length_take; lia|unfold len_of; lia]. }
  unfold decode, envelope_valid. rewrite Elen, Ecrc, Eend, P1.
  rewrite (proj2 (Z.leb_le ENVELOPE_HEADER (len_of buf))) by (unfold ENVELOPE_HEADER, len_of; lia). rewrite bool_decide_true by done. cbn [negb andb].
  rewrite !(proj2 (Z.leb_le _ _)) by (unfold MAX_BYTES, len_of in *; lia). cbn [negb andb]. rewrite Eslice, !bind_Ok, Z.eqb_refl. cbn. by rewrite rkyv_roundtrip.
Qed.
End stored.

(** ** The specification: a store of conversations *)
Record Books := mkBooks { opened : option (bytes * Dialogue); kept : gmap bytes Dialogue }.
Definition keep `{R : Rkyv} (k : bytes) (d : Dialogue) (b : Books) : option Books :=
  if decide (small d) then Some (mkBooks (Some (k, d)) (<[k := d]> (kept b))) else None.
(** [None]: a conversation to be saved is too large, or a post has no author id. *)
Definition books_op `{R : Rkyv} (now : Z) (m : ChatMsg) (b : Books) : option Books :=
  match m with
  | DialogueDrop k => Some (mkBooks (opened b) (delete k (kept b)))
  | DialogueSet k => match kept b !! k with Some d => Some (mkBooks (Some (k, d)) (kept b)) | None => keep k (dialogue_new now k) b end
  | PostAdd a ts t => match opened b with Some (k, d) => d ← post_add a ts t d; Some (mkBooks (Some (k, d)) (kept b)) | None => Some b end
  | PostUpdate a ts t => Some (match opened b with Some (k, d) => mkBooks (Some (k, (post_update a ts t d).2)) (kept b) | None => b end)
  | DialogueSave => match opened b with Some (k, d) => keep k d b | None => Some b end
  end.
Fixpoint books_ops `{R : Rkyv} (l : list (Z * ChatMsg)) (b : Books) : option Books :=
  match l with [] => Some b | (now, m) :: l => b ← books_op now m b; books_ops l b end.
(** The chat server that holds these conversations. *)
Definition server `{R : Rkyv} (b : Books) : Chat := mkChat (fst <$> opened b) (snd <$> opened b) (stored_value <$> kept b).
Definition books_ok `{R : Rkyv} (b : Books) : Prop := ∀ k d, kept b !! k = Some d → small d.

Section server.
Context `{R : Rkyv} `{!RkyvOK} (W : Z) (HW : 17 ≤ W).
Lemma keep_ok k d b b' : books_ok b → keep k d b = Some b' → books_ok b' ∧ b' = mkBooks (Some (k, d)) (<[k := d]> (kept b)) ∧ small d.
Proof using Type.
  unfold keep. intros Hb. case_decide; [|done]. intros [= <-]. split; [|done]. intros k' d'. cbn. rewrite lookup_insert_Some. intros [[_ <-]|[_ H']]; [done|by apply (Hb k')].
Qed.
Lemma read_stored k d dlg m : small d → dialogue_read W (mkChat (Some k) dlg (stored_value <$> (<[k := d]> m))) = Ok (true, mkChat (Some k) (Some d) (stored_value <$> (<[k := d]> m))).
Proof using All.
  intros Hs. unfold dialogue_read. cbn [pddb_key disk]. rewrite lookup_fmap, lookup_insert_eq. cbn [fmap option_fmap option_map].
  rewrite take_ge.
  - rewrite <-(app_nil_r (stored_value d)), decode_stored by done. done.
  - unfold small, stored_value, len_of in *. rewrite !length_app, !be_bytes_length. unfold MAX_BYTES, ENVELOPE_HEADER in *. cbn [length ENVELOPE_MAGIC ascii]. cbn. lia.
Qed.
Lemma server_step now m b b' : books_ok b → books_op now m b = Some b' → chat_op W now m (server b) = Ok (server b') ∧ books_ok b'.
Proof using All.
  intros Hb. destruct m as [k|k|a ts t|a ts t|]; cbn [books_op chat_op].
  - intros [= <-]. split; [unfold server; cbn; by rewrite fmap_delete|]. intros k' d'. cbn. rewrite lookup_delete_Some. intros [_ ?]. by apply (Hb k').
  - unfold dialogue_set. destruct (kept b !! k) as [d|] eqn:E.
    + intros [= <-]. split; [|done]. cbn [server pddb_key disk]. rewrite <-(insert_id (kept b) k d E), read_stored by (by apply (Hb k)). done.
    + intros Hkeep. destruct (keep_ok _ _ _ _ Hb Hkeep) as (Hb' & -> & Hs). split; [|done]. unfold dialogue_read. cbn. rewrite lookup_fmap, E. cbn.
      unfold dialogue_save, server. cbn. by rewrite fmap_insert.
  - unfold chat_post_add, server. destruct (opened b) as [[k d]|] eqn:E; cbn; [|intros [= <-]; rewrite E; done].
    destruct (post_add a ts t d) as [d'|]; [|done]. cbn. intros [= <-]. done.
  - intros [= <-]. unfold chat_post_update, server. destruct (opened b) as [[k d]|] eqn:E; cbn; [|by rewrite E].
    destruct (post_update a ts t d) as [f d']. done.
  - unfold dialogue_save. destruct (opened b) as [[k d]|] eqn:E; unfold server; rewrite E; cbn [dialogue pddb_key disk fmap option_fmap option_map fst snd].
    + intros Hkeep. destruct (keep_ok _ _ _ _ Hb Hkeep) as (Hb' & -> & Hs). rewrite <-fmap_insert, read_stored by done. done.
    + intros [= <-]. rewrite E. done.
Qed.
End server.

(** ** What a conversation says *)
Definition entry_of (d : Dialogue) (p : Post) : bytes * Z * bytes := (default [] (au_name <$> authors d !! po_author p), po_ts p, po_text p).
Definition entries (d : Dialogue) : list (bytes * Z * bytes) := entry_of d <$> d_posts d.
Lemma entry_named d n p : dialogue_ok d → author_lookup d !! n = Some (po_author p) → entry_of d p = (n, po_ts p, po_text p).
Proof. intros Hok Hn. destruct (ok_names _ Hok _ _ Hn) as [_ [r Hr]]. unfold entry_of. by rewrite Hr. Qed.
Lemma in_order_perm new l : in_order new l ≡ₚ new :: l.
Proof.
  unfold in_order. rewrite <-Permutation_middle. constructor. induction l as [|p l IH]; [done|].
  destruct (decide (po_ts p ≤ po_ts new)).
  - rewrite filter_cons_True, filter_cons_False by lia. cbn. by rewrite IH.
  - rewrite filter_cons_False, filter_cons_True by lia. rewrite <-Permutation_middle. by rewrite IH.
Qed.
Lemma total_size_perm title l k : l ≡ₚ k → total_size title l = total_size title k.
Proof. induction 1; rewrite ?total_size_cons in *; lia. Qed.
Lemma fitting_whole title l k : latest_fitting title l k → fits title l → k = l.
Proof.
  intros (Hs & _ & Hmax) Hf. pose proof (Hmax l (reflexivity l) Hf) as Hl. pose proof (suffix_length _ _ Hs). by apply suffix_length_eq.
Qed.
(** While the limits are not reached, every post is kept. *)
Lemma post_add_all a ts t d : dialogue_ok d → last_author_id d < 65535 → (S (length (d_posts d)) ≤ MAX_POSTS)%nat →
  total_size (d_title d) (d_posts d) + (len_of t + PER_POST_OVERHEAD) ≤ BYTE_BUDGET →
  ∃ d', post_add a ts t d = Some d' ∧ dialogue_ok d' ∧ d_title d' = d_title d ∧ last_author_id d' ≤ last_author_id d + 1 ∧
  length (d_posts d') = S (length (d_posts d)) ∧
  total_size (d_title d) (d_posts d') = total_size (d_title d) (d_posts d) + (len_of t + PER_POST_OVERHEAD) ∧
  entries d' ≡ₚ entries d ++ [(a, ts, t)].
Proof.
  intros Hok Hroom Hc Hsz. destruct (post_add_spec a ts t d Hok (or_intror Hroom)) as (id & d' & E & Hok' & Ht & Hl & Hk & Hlast & Hlat).
  set (new := mkPost id ts t) in *. pose proof (in_order_perm new (d_posts d)) as Hp.
  assert (total_size (d_title d) (in_order new (d_posts d)) = total_size (d_title d) (d_posts d) + (len_of t + PER_POST_OVERHEAD)) as Et.
  { rewrite (total_size_perm _ _ _ Hp), total_size_cons. done. }
  apply fitting_whole in Hlat as Ew; [|split; [rewrite Hp; cbn; lia|left; lia]].
  exists d'. split; [done|]. rewrite Ew. split_and!; [done|done|done|rewrite Hp; done|done|].
  unfold entries. rewrite Ew, Hp. cbn [fmap list_fmap]. rewrite (entry_named d' a new Hok' Hl), Permutation_app_comm. cbn. constructor.
  erewrite list_fmap_ext; [done|]. intros i p Hip. destruct (ok_authors _ Hok p (list_elem_of_lookup_2 _ _ _ Hip)) as [n Hn].
  rewrite (entry_named d n p Hok Hn). apply (entry_named d' n p Hok'). by apply Hk.
Qed.

(** A list of posts. *)
Definition post_msg (m : bytes * Z * bytes) : ChatMsg := PostAdd m.1.1 m.1.2 m.2.
Definition posts_size (q : list (bytes * Z * bytes)) : Z := Z.of_nat (sum_list_with (λ m : bytes * Z * bytes, length m.2) q) + len_of q * PER_POST_OVERHEAD.
Lemma posts_size_cons m q : posts_size (m :: q) = posts_size q + (len_of m.2 + PER_POST_OVERHEAD).
Proof. unfold posts_size, len_of. cbn [sum_list_with length]. lia. Qed.
Lemma posts_add_all `{R : Rkyv} l q b k d : l.*2 = post_msg <$> q → opened b = Some (k, d) → dialogue_ok d →
  last_author_id d + len_of q ≤ 65535 → (length (d_posts d) + length q ≤ MAX_POSTS)%nat →
  total_size (d_title d) (d_posts d) + posts_size q ≤ BYTE_BUDGET →
  ∃ d', books_ops l b = Some (mkBooks (Some (k, d')) (kept b)) ∧ dialogue_ok d' ∧ entries d' ≡ₚ entries d ++ q.
Proof.
  revert l b d. induction q as [|[[a ts] t] q IH]; intros l b d El Ho Hok Hr Hc Hsz.
  { apply fmap_nil_inv in El as ->. exists d. split_and!; [by destruct b; cbn in *; subst|done|by rewrite app_nil_r]. }
  destruct l as [|[now m] l]; [done|]. injection El as -> El. rewrite posts_size_cons in Hsz. unfold len_of in Hr. cbn [length snd] in *.
  assert (0 ≤ posts_size q) by (unfold posts_size, len_of, PER_POST_OVERHEAD; lia).
  destruct (post_add_all a ts t d Hok) as (d1 & E & Hok1 & Ht & Hl & Hn & Hs & He); [lia..|].
  cbn [books_ops books_op post_msg fst snd]. rewrite Ho, E. cbn [mbind option_bind].
  destruct (IH l (mkBooks (Some (k, d1)) (kept b)) d1 El eq_refl Hok1) as (d' & E' & Hok' & He'); [unfold len_of; lia|lia|rewrite Ht; lia|].
  exists d'. split_and!; [done|done|]. rewrite He', He. by rewrite <-app_assoc.
Qed.
Lemma books_ops_app `{R : Rkyv} l1 l2 b : books_ops (l1 ++ l2) b = books_ops l1 b ≫= books_ops l2.
Proof. revert b. induction l1 as [|[now m] l1 IH]; intros b; [done|]. cbn. destruct (books_op now m b); [apply IH|done]. Qed.

Lemma activate_log p s : delivery_updates (mail s) !! p = None →
  let q := default [] (pending (mail s) !! p) in
  chat_log (view (activate_peer p s)) = chat_log (view s) ++ DialogueSet (hex p) :: (post_msg <$> q) ++ (if bool_decide (q = []) then [] else [DialogueSave]).
Proof.
  intros Hu. unfold activate_peer. cbv zeta. rewrite flush_posts_spec. app_simpl. destruct s as [n b m v st r bc o].
  destruct v as [cur prev lt log]. destruct st as [st1 st2 st3 st4 st5]. destruct m as [m1 m2 m3 m4 m5 m6 m7]. app_simpl. cbn [delivery_updates mail] in Hu.
  generalize (default [] (m5 !! p)) as q. intros q. case_bool_decide as Hq; unfold apply_delivery_updates; app_simpl; rewrite Hu; app_simpl;
    unfold post_msg; rewrite <-!app_assoc, ?app_nil_r; done.
Qed.

(** Opening a conversation that is kept, or a new one. *)
Lemma open_book `{R : Rkyv} now k b : (∀ d, kept b !! k = Some d → dialogue_ok d) → (kept b !! k = None → small (dialogue_new now k)) →
  ∃ d b', books_op now (DialogueSet k) b = Some b' ∧ opened b' = Some (k, d) ∧ kept b' !! k = Some d ∧ dialogue_ok d ∧
  (kept b !! k = Some d ∨ kept b !! k = None ∧ d = dialogue_new now k).
Proof.
  intros Hok Hnew. cbn [books_op]. destruct (kept b !! k) as [d|] eqn:E.
  - exists d. eexists. split; [done|]. split_and!; [done|done|by apply Hok|by left].
  - unfold keep. rewrite decide_True by (by apply Hnew). eexists _, _. split; [done|]. split_and!; [done|apply lookup_insert_eq|apply dialogue_new_ok|by right].
Qed.

Definition said (b : Books) (k : bytes) : list (bytes * Z * bytes) := match kept b !! k with Some d => entries d | None => [] end.
(** The limits leave room for more posts. *)
Definition room_for (q : list (bytes * Z * bytes)) (d : Dialogue) : Prop :=
  last_author_id d + len_of q ≤ 65535 ∧ (length (d_posts d) + length q ≤ MAX_POSTS)%nat ∧
  total_size (d_title d) (d_posts d) + posts_size q ≤ BYTE_BUDGET.
Lemma server_run `{R : Rkyv} `{!RkyvOK} W l b b' : 17 ≤ W → books_ok b → books_ops l b = Some b' → chat_ops W l (server b) = Ok (server b').
Proof.
  intros HW. revert b. induction l as [|[now m] l IH]; intros b Hb; cbn [books_ops chat_ops]; [by intros [= <-]|].
  destruct (books_op now m b) as [b1|] eqn:E; [|done]. cbn [mbind option_bind]. intros Hrun.
  destruct (server_step W HW now m b b1 Hb E) as [-> Hb1]. rewrite bind_Ok. by apply IH.
Qed.

(** A post goes after those of its second or earlier and before the later ones, and of the result
    the dialogue keeps the longest end that is within 256 posts and the byte budget, and at
    least the latest post: only the oldest posts are dropped, and only when they must be.  The
    dialogue stays in the order of time with every post under a known author. *)
Theorem post_add_latest (a : bytes) (ts : Z) (t : bytes) (d : Dialogue) (Hok : dialogue_ok d)
  (Hroom : is_Some (author_lookup d !! a) ∨ last_author_id d < 65535) :
  ∃ id d', post_add a ts t d = Some d' ∧ dialogue_ok d' ∧ author_lookup d' !! a = Some id ∧
  latest_fitting (d_title d) (in_order (mkPost id ts t) (d_posts d)) (d_posts d').
Proof.
  destruct (post_add_spec a ts t d Hok Hroom) as (id & d' & E & Hok' & _ & Hl & _ & _ & Hlat). by exists id, d'.
Qed.

(** An update replaces the text of the first post of its author and second, and nothing else; it
    says it found none exactly when there is none. *)
Theorem post_update_exact (a : bytes) (ts : Z) (t : bytes) (d : Dialogue) (Hok : dialogue_ok d) :
  if (post_update a ts t d).1
  then ∃ pre p rest, d_posts d = pre ++ p :: rest ∧ mine d a ts p ∧ Forall (λ q, ¬ mine d a ts q) pre ∧
         (post_update a ts t d).2 = with_posts (pre ++ mkPost (po_author p) ts t :: rest) d
  else Forall (λ q, ¬ mine d a ts q) (d_posts d) ∧ (post_update a ts t d).2 = d.
Proof.
  unfold post_update. pose proof (post_find_spec a ts d Hok) as H. destruct (post_find a ts d) as [k|]; cbn [fst snd]; [|done].
  destruct H as (pre & p & rest & E & -> & Hm & Hf). exists pre, p, rest. split_and!; [done..|]. rewrite E. by rewrite alter_post.
Qed.

(** C14: The chat server is a store of conversations: whatever the application asks of it, it opens,
    changes and saves the dialogues as the store does, each saved dialogue being the framed and
    checksummed archive that is read back as it was, as long as the archives fit the read
    buffer. *)
Theorem chat_store_refines `{R : Rkyv} `{!RkyvOK} (W : Z) (l : list (Z * ChatMsg)) (b b' : Books)
  (HW : 17 ≤ W) (Hb : books_ok b) (Hrun : books_ops l b = Some b') :
  chat_ops W l (server b) = Ok (server b').
Proof. by apply server_run. Qed.


(** ** Witnesses: an archive format, and a conversation *)
#[export] Instance Author_eq_dec : EqDecision Author.
Proof. solve_decision. Defined.
#[export] Instance Post_eq_dec : EqDecision Post.
Proof. solve_decision. Defined.
#[export] Instance Dialogue_eq_dec : EqDecision Dialogue.
Proof. solve_decision. Defined.
#[export] Instance Author_countable : Countable Author.
Proof. refine (inj_countable' (λ a, (au_name a, right a)) (λ x, mkAuthor x.1 x.2) _). by intros []. Defined.
#[export] Instance Post_countable : Countable Post.
Proof. refine (inj_countable' (λ p, (po_author p, po_ts p, po_text p)) (λ x, mkPost x.1.1 x.1.2 x.2) _). by intros []. Defined.
#[export] Instance Dialogue_countable : Countable Dialogue.
Proof.
  refine (inj_countable' (λ d, (d_title d, d_posts d, authors d, author_lookup d, last_timestamp d, last_author_id d))
    (λ '(t, p, a, l, ts, i), mkDialogue t p a l ts i) _). by intros [].
Defined.
Module ToyArchive.
Fixpoint pos_bits (p : positive) : bytes := match p with xH => [] | xO p => 0 :: pos_bits p | xI p => 1 :: pos_bits p end.
Definition bits_pos (l : bytes) : positive := foldr (λ b p, if b =? 0 then xO p else xI p) xH l.
Lemma bits_back p : bits_pos (pos_bits p) = p.
Proof. induction p as [p IH|p IH|]; [..|done]; unfold bits_pos in *; cbn [pos_bits foldr]; rewrite IH; done. Qed.
#[export] Instance toy_rkyv : Rkyv :=
  {| to_bytes d := pos_bits (countable.encode d); deserialize l := countable.decode (bits_pos l) |}.
#[export] Instance toy_rkyv_ok : RkyvOK.
Proof. intros d. cbn. rewrite bits_back. apply decode_encode. Qed.
End ToyArchive.
Import ToyArchive.

Definition wd_new : Dialogue := dialogue_new 0 (ascii "k").
Definition wd_add (a t : string) (ts : Z) (d : Dialogue) : Dialogue := default d (post_add (ascii a) ts (ascii t) d).
Definition wd_talk : Dialogue := wd_add "bob" "yes" 30 (wd_add "me" "lunch?" 20 wd_new).
Lemma wd_talk_ok : dialogue_ok wd_talk.
Proof.
  unfold wd_talk, wd_add. destruct (post_add_spec (ascii "me") 20 (ascii "lunch?") wd_new (dialogue_new_ok _ _)) as (? & d1 & -> & H1 & _ & _ & _ & L1 & _); [right; reflexivity|].
  cbn [from_option id]. destruct (post_add_spec (ascii "bob") 30 (ascii "yes") d1 H1) as (? & d2 & -> & H2 & _); [right; cbn in L1; lia|]. exact H2.
Qed.

Lemma post_add_latest_witness : ∃ id d', post_add (ascii "bob") 20 (ascii "hi") wd_talk = Some d' ∧
  latest_fitting (ascii "k") (in_order (mkPost id 20 (ascii "hi")) (d_posts wd_talk)) (d_posts d') ∧ entries d' = [(ascii "me", 20, ascii "lunch?"); (ascii "bob", 20, ascii "hi"); (ascii "bob", 30, ascii "yes")].
Proof.
  destruct (post_add_latest (ascii "bob") 20 (ascii "hi") wd_talk wd_talk_ok) as (id & d' & E & _ & _ & H).
  - right. vm_compute. reflexivity.
  - exists id, d'. split; [exact E|]. split; [exact H|]. revert E. vm_compute. intros [= <-]. reflexivity.
Defined.
Lemma post_update_exact_witness : ∃ pre p rest, d_posts wd_talk = pre ++ p :: rest ∧ mine wd_talk (ascii "me") 20 p ∧
  (post_update (ascii "me") 20 (ascii "lunch!") wd_talk).2 = with_posts (pre ++ mkPost (po_author p) 20 (ascii "lunch!") :: rest) wd_talk ∧
  entries (post_update (ascii "me") 20 (ascii "lunch!") wd_talk).2 = [(ascii "me", 20, ascii "lunch!"); (ascii "bob", 30, ascii "yes")].
Proof.
  pose proof (post_update_exact (ascii "me") 20 (ascii "lunch!") wd_talk wd_talk_ok) as H.
  assert ((post_update (ascii "me") 20 (ascii "lunch!") wd_talk).1 = true) as E by (vm_compute; reflexivity). rewrite E in H.
  destruct H as (pre & p & rest & H1 & H2 & _ & H4). exists pre, p, rest. split; [exact H1|]. split; [exact H2|]. split; [exact H4|]. vm_compute. reflexivity.
Defined.

Definition wd_books : Books := mkBooks None {[ascii "k" := wd_talk]}.
Definition wd_requests : list (Z * ChatMsg) :=
  [(40, DialogueSet (ascii "k")); (41, PostAdd (ascii "bob") 40 (ascii "where?")); (42, DialogueSave); (43, DialogueSet (ascii "j"));
   (44, PostAdd (ascii "me") 44 (ascii "x")); (45, DialogueSave); (46, DialogueSet (ascii "k"))].
Definition wd_books' : Books := default wd_books (books_ops wd_requests wd_books).
Lemma wd_books_ok : books_ok wd_books.
Proof. intros k d. unfold wd_books. cbn [kept]. rewrite lookup_singleton_Some. intros [_ <-]. apply (bool_decide_unpack _). vm_compute. exact I. Qed.
Lemma chat_store_refines_witness : chat_ops 32 wd_requests (server wd_books) = Ok (server wd_books') ∧
  entries <$> dialogue (server wd_books') = Some [(ascii "me", 20, ascii "lunch?"); (ascii "bob", 30, ascii "yes"); (ascii "bob", 40, ascii "where?")].
Proof.
  split; [|vm_compute; reflexivity]. apply chat_store_refines.
  - lia.
  - exact wd_books_ok.
  - vm_compute. reflexivity.
Defined.

Definition wd_peer : bytes := replicate 16 0x6b.
Definition wd_held : list (bytes * Z * bytes) := [(ascii "bob", 40, ascii "where?"); (ascii "bob", 25, ascii "no")].
Definition wd_shared : Shared :=
  mkShared (mkNet ws_tp 0 [] None) (mkBook ∅ ∅ ∅ ∅) (mkMail [] [] ∅ ∅ {[wd_peer := wd_held]} {[wd_peer := 2]} ∅) (mkView None None 0 [])
    (mkStore ∅ ∅ ∅ ∅ ∅) ∅ ∅ [].
Definition wd_shelf : Books := mkBooks None {[hex wd_peer := wd_talk]}.

(** ** Defects *)

(** The byte budget keeps the latest post whatever its size, so a conversation can outgrow the
    read buffer: when it is next opened, its stored form is refused and it is replaced by an
    empty one. *)
Lemma oversized_lost `{R : Rkyv} W now k d m : MAX_BYTES < len_of (to_bytes d) < 2 ^ 32 →
  ∃ c, dialogue_set W now k (mkChat (Some k) (Some d) (<[k := stored_value d]> m)) = Ok c ∧ dialogue c = Some (dialogue_new now k) ∧
  disk c !! k = Some (stored_value (dialogue_new now k)).
Proof.
  intros Hbig. set (v := take (Z.to_nat (MAX_BYTES + ENVELOPE_HEADER + 2)) (stored_value d)).
  assert (envelope_valid W v = Ok false) as Hv.
  { destruct (stored_parts d []) as (_ & P2 & _). cbv zeta in P2. rewrite app_nil_r in P2. unfold envelope_valid.
    assert (take 4 (drop 4 v) = take 4 (drop 4 (stored_value d))) as E.
    { unfold v. rewrite skipn_firstn_comm, take_take. f_equal. }
    rewrite E, P2, be_val_be_bytes_small by (unfold len_of in *; cbn; lia). destruct (negb _); [done|].
    rewrite (proj2 (Z.leb_gt (len_of (to_bytes d)) MAX_BYTES)) by lia. by rewrite andb_false_r. }
  unfold dialogue_set, dialogue_read. cbn [pddb_key disk]. rewrite lookup_insert_eq. fold v. unfold Dialogue.decode. rewrite Hv. res_simpl. cbn [negb]. res_simpl.
  eexists. split; [reflexivity|]. unfold dialogue_save. cbn [dialogue pddb_key disk]. split; [done|apply lookup_insert_eq].
Qed.
(** A peer whose name is [me] is the author of our own posts: its messages are put on our side
    of the conversation. *)
Lemma me_impersonates : ∃ d, post_add SELF_AUTHOR 50 (ascii "send 5") wd_talk = Some d ∧
  entries d = entries wd_talk ++ [(ascii "me", 50, ascii "send 5")] ∧ au_name <$> filter (λ a, right a = true) (map_to_list (authors d)).*2 = [SELF_AUTHOR].
Proof. eexists. split; [vm_compute; reflexivity|]. split; vm_compute; reflexivity. Qed.
