(* ===== verification/Dispatch.v ===== *)
(** The application as a whole ([lxmfchat/src/net.rs], [handle_frame] and the connection
    manager): the state the components share, and the dispatch of every event of the transport
    to them.

    The network state is the one of [Shared]; the other components work on it in turn.  A
    handler is one step here, though messages a synchronisation hands over are delivered when
    its handler has returned, so that what their delivery sends comes after what it sends.
    Status lines, buzzes and logs are left out. *)
From S2P Require Import Micron MicronPage DocView Prelude Constants Crypto Packet Identity Link Msgpack Message ResourceWire Resource ResourceTransfer Tables Transport Outbox OutboxNet Storage Sync Browser Inbound.

Record App := mkApp {
  shared : Shared; app_sync : SyncState; app_browser : BrowserState;
  app_nodes : gmap bytes bytes; app_d_nodes : gmap bytes bytes; app_d_bookmarks : gmap bytes bytes; app_ui : Ui;
}.
Definition with_shared (s : Shared) (a : App) : App :=
  mkApp s (app_sync a) (app_browser a) (app_nodes a) (app_d_nodes a) (app_d_bookmarks a) (app_ui a).
(** The outbox reads the link of the synchronisation. *)
Definition mirror (l : option bytes) (n : Net) : Net := mkNet (tp n) (draws n) (wire n) l.
Definition app_shared (a : App) : Shared := with_net (mirror (Sync.link (app_sync a)) (a_net (shared a))) (shared a).
Definition site (a : App) : Site := mkSite (app_browser a) (a_net (shared a)) (app_nodes a) (app_d_nodes a) (app_d_bookmarks a) (app_ui a).
Definition with_site (x : Site) (a : App) : App :=
  mkApp (with_net (bnet x) (shared a)) (app_sync a) (br x) (Browser.saved_nodes x) (Browser.d_nodes x) (d_bookmarks x) (ui x).
Definition world (a : App) : World := mkWorld (app_sync a) (a_net (shared a)) [] [].
Definition with_world (w : World) (a : App) : App :=
  mkApp (with_net (nt w) (shared a)) (sync w) (app_browser a) (app_nodes a) (app_d_nodes a) (app_d_bookmarks a) (app_ui a).

Section dispatch.
Context `{C : Crypto} `{I : HashIter} `{B : Bz2} (W : Z).
Context (rand : nat → nat → bytes) (hub_ok auto_ok : nat → bool).
Context (our_dh : bytes) (pn : option bytes) (chat_has : list ChatMsg → Z → bool).

Definition on_shared (f : Shared → res Shared) (a : App) : res App := s ← f (app_shared a); mret (with_shared s a).
Definition on_site (f : Site → res Site) (a : App) : res App := x ← f (site a); mret (with_site x a).
(** A step of the synchronisation, and the delivery of what it hands over. *)
Definition on_sync (now : Z) (m : M ()) (a : App) : res App :=
  '(_, w) ← m (world a);
  foldl (λ r blob, a ← r; on_shared (deliver_lxmf W rand hub_ok auto_ok our_dh now false blob) a) (mret (with_world w a)) (delivered w).
Definition app_broadcast (raw : res bytes) (a : App) : res App :=
  raw ← res_ok raw;
  mret match raw with Some raw => with_shared (Inbound.broadcast hub_ok auto_ok raw (shared a)) a | None => a end.
Definition app_random (k : nat) (a : App) : bytes * App :=
  let '(r, n) := fill_random rand (a_net (shared a)) k in (r, with_shared (with_net n (shared a)) a).
Definition app_tp (a : App) : Transport := tp (a_net (shared a)).

(** A link we opened is up: it is activated, and we identify ourselves on it to a peer. *)
Definition on_outbound_link_up (now : Z) (lid target : bytes) (a : App) : res App :=
  let '(iv, a) := app_random IV_LENGTH a in
  a ← app_broadcast (make_link_rtt (app_tp a) lid iv) a;
  a ← (if bool_decide (pn ≠ Some target) && negb (browser_targets (app_browser a) target)
       then let '(iv, a) := app_random IV_LENGTH a in app_broadcast (make_out_link_identify (app_tp a) lid iv) a
       else mret a);
  a ← on_sync now (sync_on_link_up rand hub_ok auto_ok pn now lid target) a;
  a ← on_site (browser_on_link_up rand hub_ok auto_ok now lid target) a;
  on_shared (pump rand hub_ok auto_ok pn chat_has now) a.
(** Data on a link we opened: a request for a resource we send, else for whoever uses the link. *)
Definition route_out_link (now : Z) (lid : bytes) (context : Z) (pt : bytes) (a : App) : res App :=
  if bool_decide (Sync.link (app_sync a) = Some lid) then on_sync now (sync_on_outlink_data W rand hub_ok auto_ok now lid context pt) a
  else if bool_decide (Browser.link (app_browser a) = Some lid) then
    on_site (browser_on_outlink_data W rand hub_ok auto_ok (nodes_seen (book (shared a))) now lid context pt) a
  else on_shared (outlink_resource W rand hub_ok auto_ok our_dh now lid context pt) a.
Definition on_out_link_data (now : Z) (lid : bytes) (context : Z) (pt : bytes) (a : App) : res App :=
  if context =? CONTEXT_RESOURCE_REQ then
    let '(iv, a) := app_random IV_LENGTH a in
    packets ← serve_link_resource (app_tp a) lid pt iv;
    match packets with
    | [] => route_out_link now lid context pt a
    | _ => mret (with_shared (fold_left (λ s p, Inbound.broadcast hub_ok auto_ok p s) packets (shared a)) a)
    end
  else route_out_link now lid context pt a.
Definition on_out_link_closed (now : Z) (lid : bytes) (a : App) : res App :=
  a ← on_sync now (out_link_closed lid) a;
  on_site (λ x, mret (browser_link_closed lid x)) a.
(** Someone asks for a route to us: our announce, on the interface it came from. *)
Definition on_path_request (now : Z) (name : bytes) (a : App) : res App :=
  let '(r5, a) := app_random 5 a in
  raw ← make_path_response_with (app_tp a) (ascii "lxmf") [ascii "delivery"] name r5 now;
  let n := a_net (shared a) in
  mret (with_shared (with_net (mkNet (tp n) (draws n) (wire n ++ [raw]) (sync_link_id n)) (shared a)) a).

Definition on_event (now : Z) (name : bytes) (e : Event) (a : App) : res App :=
  match e with
  | EvAnnounce dest info => on_shared (on_announce W rand hub_ok auto_ok our_dh pn chat_has now dest info) a
  | EvData dest pt proof => on_shared (on_data W rand hub_ok auto_ok our_dh now dest pt proof) a
  | EvLinkEstablished lid proof => on_shared (λ s, mret (Inbound.broadcast hub_ok auto_ok proof s)) a
  | EvLinkData lid pt proof => on_shared (on_link_data W rand hub_ok auto_ok our_dh now lid pt proof) a
  | EvInLinkData lid context pt => on_shared (inbound_resource W rand hub_ok auto_ok our_dh now lid context pt) a
  | EvLinkIdentified lid id => on_shared (on_link_identified rand hub_ok auto_ok pn chat_has now lid id) a
  | EvLinkKeepalive lid reply => on_shared (λ s, mret (on_keepalive hub_ok auto_ok now lid reply s)) a
  | EvInLinkClosed lid => on_shared (λ s, mret (on_in_link_closed lid s)) a
  | EvOutboundLinkUp lid target => on_outbound_link_up now lid target a
  | EvDelivered h => on_shared (λ s, mret (on_delivered chat_has h s)) a
  | EvOutLinkData lid context pt => on_out_link_data now lid context pt a
  | EvOutLinkClosed lid => on_out_link_closed now lid a
  | EvPathRequest _ => on_path_request now name a
  | EvDataUndecryptable _ _ | EvAddressedUnhandled _ _ _ | EvUnhandled _ _ _ | EvDropped _ => mret a
  end.
(** [name] is the display name we announce. *)
Definition app_handle_frame (now : Z) (name raw : bytes) (iface : PathIface) (a : App) : res App :=
  let '(eph, a) := app_random KEY_HALF a in
  '(e, t) ← Transport.handle_frame (app_tp a) raw eph iface;
  on_event now name e (with_shared (with_net (with_tp (a_net (shared a)) t) (shared a)) a).

(** The connection manager, on losing the hub. *)
Definition app_connection_lost (now : Z) (a : App) : res App :=
  let s := shared a in
  let s := with_net (with_tp (a_net s) (connection_reset (tp (a_net s)))) s in
  let a := with_shared (links_lost s) a in
  a ← on_sync now (s ← get_sync; if bool_decide (Sync.phase s ≠ Sync.Idle) then sync_finish "connection lost" else mret tt) a;
  on_site (λ x, mret (browser_connection_lost x)) a.
(** A typed line; while a page is on screen nothing is sent. *)
Definition app_post (now : Z) (text : bytes) (a : App) : res App :=
  if viewing (app_browser a) then mret a else on_shared (λ s, mret (post our_dh now text s)) a.
End dispatch.
