(* ===== verification/DispatchProps.v ===== *)
(** The components together: every event of the transport is handled by steps of the inbound
    message path and of the browser, whose guarantees therefore hold of the application; and
    what a fetch of a page reveals. *)
From S2P Require Import Micron MicronPage DocView DocViewProps Prelude Constants Crypto Packet Identity Link Msgpack Message ResourceWire Resource ResourceTransfer Tables Transport Outbox OutboxNet Storage StorageProps Sync SyncProps Browser BrowserProps Inbound InboundProps InboundChat Dispatch.

Section dispatch.
Context `{C : Crypto} `{I : HashIter} `{B : Bz2} (W : Z).
Context (rand : nat → nat → bytes) (hub_ok auto_ok : nat → bool).
Context (our_dh : bytes) (pn : option bytes) (chat_has : list ChatMsg → Z → bool).
Notation sys_step := (sys_step W rand hub_ok auto_ok our_dh pn chat_has).
Notation on_event := (on_event W rand hub_ok auto_ok our_dh pn chat_has).

(** ** Steps of the inbound message path *)

(** [s'] is reached from [s] by steps that accept the messages [m]. *)
Definition reaches (m : list (bytes * Z * bytes)) (s s' : Shared) : Prop :=
  ∀ f l c, rtc sys_step (mkSys s f l c) (mkSys s' f (l ++ m) c).
Lemma reaches_refl s : reaches [] s s.
Proof using Type. intros f l c. rewrite app_nil_r. apply rtc_refl. Qed.
Lemma reaches_trans m1 m2 s1 s2 s3 : reaches m1 s1 s2 → reaches m2 s2 s3 → reaches (m1 ++ m2) s1 s3.
Proof using Type. intros H1 H2 f l c. etrans; [apply H1|]. rewrite app_assoc. apply H2. Qed.
Lemma reaches_then m s1 s2 s3 : reaches [] s1 s2 → reaches m s2 s3 → reaches m s1 s3.
Proof using Type. intros H1 H2. apply (reaches_trans [] m s1 s2 s3 H1 H2). Qed.
Lemma reaches_once s s' : (∀ f l c, sys_step (mkSys s f l c) (mkSys s' f l c)) → reaches [] s s'.
Proof using Type. intros H f l c. rewrite app_nil_r. apply rtc_once, H. Qed.
Lemma reaches_net n s : reaches [] s (with_net n s).
Proof using Type. apply reaches_once. intros f l c. apply st_net. Qed.
(** Where a message comes from: the bytes handed to [deliver_lxmf], or what the user typed. *)
Inductive Source := Blob (b : bytes) | Typed (text : bytes).
(** [x] is the message of [src]: read from the bytes by the first half of a delivery, or the
    bubble of what was typed. *)
Definition message_of (src : Source) (x : bytes * Z * bytes) : Prop :=
  match src with
  | Blob b => ∃ now live s i s', deliver_receive W rand hub_ok auto_ok our_dh now live b s = Ok (Some i, s') ∧ x = entry i
  | Typed text => ∃ ts, x = (SELF_AUTHOR, ts, bubble_text text MARK_PENDING)
  end.
(** [m] are messages of sources among [srcs], in order, one at most of each. *)
Inductive taken : list Source → list (bytes * Z * bytes) → Prop :=
  | taken_nil : taken [] []
  | taken_skip src srcs m : taken srcs m → taken (src :: srcs) m
  | taken_take src srcs x m : message_of src x → taken srcs m → taken (src :: srcs) (x :: m).
Lemma taken_app l1 l2 m1 m2 : taken l1 m1 → taken l2 m2 → taken (l1 ++ l2) (m1 ++ m2).
Proof using Type. induction 1; intros H2; cbn [app]; [done|apply taken_skip; auto|apply taken_take; auto]. Qed.

(** [s'] is reached from [s] by steps that accept messages of [srcs]. *)
Definition takes (srcs : list Source) (s s' : Shared) : Prop := ∃ m, taken srcs m ∧ reaches m s s'.
Lemma takes_quiet s s' : reaches [] s s' → takes [] s s'.
Proof using Type. intros H. exists []. split; [constructor|done]. Qed.
Lemma takes_trans l1 l2 s1 s2 s3 : takes l1 s1 s2 → takes l2 s2 s3 → takes (l1 ++ l2) s1 s3.
Proof using Type. intros (m1 & T1 & R1) (m2 & T2 & R2). exists (m1 ++ m2). split; [by apply taken_app|by eapply reaches_trans]. Qed.
Lemma takes_then srcs s1 s2 s3 : reaches [] s1 s2 → takes srcs s2 s3 → takes srcs s1 s3.
Proof using Type. intros H1%takes_quiet H2. by apply (takes_trans [] srcs s1 s2 s3). Qed.
Lemma deliver_takes now live blob s s' : bytes_ok blob → deliver_lxmf W rand hub_ok auto_ok our_dh now live blob s = Ok s' → takes [Blob blob] s s'.
Proof using Type.
  intros Hb H. unfold deliver_lxmf in H. apply res_bind_ok in H as ([[i|] s1] & Hr & <-%Ok_inj).
  - exists [entry i]. split; [apply taken_take; [|constructor]; by exists now, live, s, i, s1|]. intros f l c.
    eapply rtc_l; [by eapply st_receive|]. apply rtc_once. apply (st_show W rand hub_ok auto_ok our_dh pn chat_has i s1 [] f).
  - exists []. split; [repeat constructor|]. apply reaches_once. intros f l c. by eapply st_ignore.
Qed.

(** ** The whole application *)
(** The browser: some of its inputs, or its refusals. *)
Definition browses (a a' : App) : Prop := browser_ok (app_browser a) (app_ui a) →
  browser_ok (app_browser a') (app_ui a') ∧ ∃ l, spec_run l (spec (app_browser a)) (spec (app_browser a')).
Definition app_takes (srcs : list Source) (a a' : App) : Prop := takes srcs (shared a) (shared a') ∧ browses a a'.
Notation app_step := (app_takes []).
Lemma browses_same a a' : app_browser a' = app_browser a → app_ui a' = app_ui a → browses a a'.
Proof using Type. intros E1 E2 H. rewrite E1, E2. split; [done|]. exists []. constructor. Qed.
Lemma app_step_refl a : app_step a a.
Proof using Type. split; [apply takes_quiet, reaches_refl|by apply browses_same]. Qed.
Lemma spec_run_app l1 l2 S1 S2 S3 : spec_run l1 S1 S2 → spec_run l2 S2 S3 → spec_run (l1 ++ l2) S1 S3.
Proof using Type. induction 1 as [|i l S1 S2 S2' Hs _ IH]; intros H2; [done|]. econstructor; [done|]. by apply IH. Qed.
Lemma app_takes_trans l1 l2 a1 a2 a3 : app_takes l1 a1 a2 → app_takes l2 a2 a3 → app_takes (l1 ++ l2) a1 a3.
Proof using Type.
  intros [T1 B1] [T2 B2]. split; [by eapply takes_trans|]. intros Hok.
  destruct (B1 Hok) as [Hok2 [r1 S1]]. destruct (B2 Hok2) as [Hok3 [r2 S2]]. split; [done|]. exists (r1 ++ r2). by eapply spec_run_app.
Qed.
Lemma app_step_trans srcs a1 a2 a3 : app_step a1 a2 → app_takes srcs a2 a3 → app_takes srcs a1 a3.
Proof using Type. apply (app_takes_trans [] srcs). Qed.
Lemma app_step_net n a : app_step a (with_shared (with_net n (shared a)) a).
Proof using Type. split; [apply takes_quiet, reaches_net|by apply browses_same]. Qed.

Lemma on_shared_takes srcs f a a' : (∀ s', f (app_shared a) = Ok s' → takes srcs (app_shared a) s') → on_shared f a = Ok a' → app_takes srcs a a'.
Proof using Type.
  intros Hf (s & Hm%Hf & <-%Ok_inj)%res_bind_ok. split; [|by apply browses_same]. eapply takes_then; [apply reaches_net|exact Hm].
Qed.
Lemma on_shared_quiet f a a' : (∀ s s', f s = Ok s' → reaches [] s s') → on_shared f a = Ok a' → app_step a a'.
Proof using Type. intros Hf. apply on_shared_takes. intros s' H. by apply takes_quiet, Hf. Qed.
Lemma on_site_step (measure : DocLine → Z) (vp : VisualProperties) i seen f a a' :
  (∀ s, f s = input W rand hub_ok auto_ok seen measure vp i s) → on_site f a = Ok a' → app_step a a'.
Proof using Type.
  intros Hf (x & Hx & <-%Ok_inj)%res_bind_ok. rewrite Hf in Hx. split; [apply takes_quiet, reaches_net|]. intros Hok.
  destruct (input_good W rand hub_ok auto_ok seen measure vp i (site a) x Hok Hx) as [H1 H2]. split; [done|].
  exists [i]. by econstructor; [|constructor].
Qed.
Lemma deliveries_take now bs a a' : Forall bytes_ok bs →
  foldl (λ r blob, a ← r; on_shared (deliver_lxmf W rand hub_ok auto_ok our_dh now false blob) a) (mret a) bs = Ok a' → app_takes (Blob <$> bs) a a'.
Proof using Type.
  intros Hb. revert a. induction Hb as [|blob bs Hblob Hbs IH]; intros a H; cbn [foldl] in H; [apply Ok_inj in H as <-; apply app_step_refl|].
  rewrite mret_Ok, bind_Ok in H. destruct (on_shared _ a) as [a2| |] eqn:E.
  - rewrite fmap_cons. apply (app_takes_trans [Blob blob] (Blob <$> bs) a a2 a'); [|by apply IH]. revert E. apply on_shared_takes. intros s'. by apply deliver_takes.
  - exfalso. clear -H. induction bs as [|b bs IH]; cbn [foldl] in H; [done|]. rewrite bind_Err in H. by apply IH.
  - exfalso. clear -H. induction bs as [|b bs IH]; cbn [foldl] in H; [done|]. rewrite bind_Panic in H. by apply IH.
Qed.
Definition synced (m : M ()) (a : App) : list bytes := match m (world a) with Ok (_, w) => delivered w | _ => [] end.
Lemma on_sync_takes now m a a' : Forall bytes_ok (synced m a) →
  on_sync W rand hub_ok auto_ok our_dh now m a = Ok a' → app_takes (Blob <$> synced m a) a a'.
Proof using Type.
  unfold synced. intros Hb ([[] w] & Hw & H)%res_bind_ok. rewrite Hw in *. apply deliveries_take in H; [|done].
  eapply app_step_trans; [|exact H]. split; [apply takes_quiet, reaches_net|by apply browses_same].
Qed.
Lemma app_broadcast_step raw a a' : app_broadcast hub_ok auto_ok raw a = Ok a' → app_step a a'.
Proof using Type. intros (r & _ & <-%Ok_inj)%res_bind_ok. destruct r; [apply app_step_net|apply app_step_refl]. Qed.
Lemma app_random_step k a : app_step a (app_random rand k a).2.
Proof using Type. unfold app_random. destruct (fill_random _ _ _). apply app_step_net. Qed.
(** ** Events *)

(** A computation of the synchronisation that hands no message over. *)
Definition hands_none {A} (m : M A) : Prop := ∀ w x w', m w = Ok (x, w') → delivered w' = delivered w.
Lemma hands_none_ret {A} (x : A) : hands_none (mret x).
Proof using Type. by intros w y w' [= _ <-]. Qed.
Lemma hands_none_bind {A D} (m : M A) (f : A → M D) : hands_none m → (∀ x, hands_none (f x)) → hands_none (m ≫= f).
Proof using Type. intros Hm Hf w y w' ([x w1] & H1 & H2)%res_bind_ok. rewrite (Hf x w1 y w' H2). by eapply Hm. Qed.
Lemma hands_none_get : hands_none get_sync.
Proof using Type. by intros w y w' [= _ <-]. Qed.
Lemma hands_none_tp : hands_none get_tp.
Proof using Type. by intros w y w' [= _ <-]. Qed.
Lemma hands_none_upd f : hands_none (upd_sync f).
Proof using Type. by intros w y w' [= _ <-]. Qed.
Lemma hands_none_net {A} (f : Net → res (A * Net)) : hands_none (on_net f).
Proof using Type. intros w y w' ([x n] & _ & [= _ <-])%res_bind_ok. done. Qed.
Lemma hands_none_lift {A} (r : res A) : hands_none (lift r).
Proof using Type. intros w y w' (x & _ & [= _ <-])%res_bind_ok. done. Qed.
Lemma hands_none_report why : hands_none (report why).
Proof using Type. by intros w y w' [= _ <-]. Qed.
Ltac handless := repeat first
  [ apply hands_none_ret | apply hands_none_get | apply hands_none_tp | apply hands_none_upd | apply hands_none_report
  | apply hands_none_lift | apply hands_none_net | apply hands_none_bind; [|intros ?] | progress cbv zeta | case_match ].
Lemma finish_hands_none msg : hands_none (sync_finish msg).
Proof using Type. handless. Qed.
Lemma link_up_hands_none now lid target : hands_none (sync_on_link_up rand hub_ok auto_ok pn now lid target).
Proof using Type. unfold sync_on_link_up. handless. Qed.
Lemma closed_hands_none lid : hands_none (out_link_closed lid).
Proof using Type. handless. Qed.
Lemma tick_hands_none up now : hands_none (maybe_auto_sync rand hub_ok auto_ok pn up now).
Proof using Type. handless. Qed.
Lemma on_sync_quiet now m a a' : hands_none m → on_sync W rand hub_ok auto_ok our_dh now m a = Ok a' → app_step a a'.
Proof using Type.
  intros Hm H. assert (synced m a = []) as E.
  { unfold synced. destruct (m (world a)) as [[x w]| |] eqn:Hw; [|done..]. by rewrite (Hm _ _ _ Hw). }
  apply on_sync_takes in H; rewrite E in *; [exact H|done].
Qed.

(** The messages an event hands to [deliver_lxmf]. *)
Definition payload (r : res (option bytes * Shared)) : list bytes := match r with Ok (o, _) => option_list o | _ => [] end.
Definition routed (context : Z) (a : App) : App := if context =? CONTEXT_RESOURCE_REQ then (app_random rand IV_LENGTH a).2 else a.
Definition handed_out (now : Z) (lid : bytes) (context : Z) (pt : bytes) (a : App) : list bytes :=
  if bool_decide (Sync.link (app_sync a) = Some lid) then synced (sync_on_outlink_data W rand hub_ok auto_ok now lid context pt) a
  else if bool_decide (Browser.link (app_browser a) = Some lid) then []
  else payload (on_resource W rand hub_ok auto_ok out_end lid context pt (app_shared a)).
Definition handed (now : Z) (e : Event) (a : App) : list bytes :=
  match e with
  | EvData dest pt _ => [dest ++ pt]
  | EvLinkData _ pt _ => [pt]
  | EvInLinkData lid context pt => payload (on_resource W rand hub_ok auto_ok in_end lid context pt (app_shared a))
  | EvOutLinkData lid context pt => handed_out now lid context pt (routed context a)
  | _ => []
  end.
(** What a frame carries is bytes. *)
Record event_ok (now : Z) (e : Event) (a : App) : Prop := {
  eo_handed : Forall bytes_ok (handed now e a);
  eo_dest : match e with EvAnnounce dest _ => address dest | _ => True end;
}.

Lemma payload_takes now (r : res (option bytes * Shared)) s s' : Forall bytes_ok (payload r) → (∀ o s1, r = Ok (o, s1) → reaches [] s s1) →
  deliver_payload W rand hub_ok auto_ok our_dh now r = Ok s' → takes (Blob <$> payload r) s s'.
Proof using Type.
  intros Hb Hr ([o s1] & -> & H)%res_bind_ok. specialize (Hr o s1 eq_refl). destruct o as [b|]; [|apply takes_quiet; by apply Ok_inj in H as <-].
  apply Forall_cons in Hb as [Hb _]. eapply takes_then; [exact Hr|]. by eapply deliver_takes.
Qed.
Lemma on_resource_takes now e lid ctx pt a a' : let bs := payload (on_resource W rand hub_ok auto_ok e lid ctx pt (app_shared a)) in Forall bytes_ok bs →
  on_shared (λ s, deliver_payload W rand hub_ok auto_ok our_dh now (on_resource W rand hub_ok auto_ok e lid ctx pt s)) a = Ok a' → app_takes (Blob <$> bs) a a'.
Proof using Type.
  intros bs Hb. apply on_shared_takes. intros s'. apply payload_takes; [exact Hb|]. intros o s1 H. apply reaches_once. intros f l c. by eapply st_resource.
Qed.
Lemma link_up_step now lid target a a' : on_outbound_link_up W rand hub_ok auto_ok our_dh pn chat_has now lid target a = Ok a' → app_step a a'.
Proof using Type.
  unfold on_outbound_link_up. pose proof (app_random_step IV_LENGTH a) as H0. destruct (app_random rand IV_LENGTH a) as [iv a0].
  intros (a1 & H1%app_broadcast_step & H)%res_bind_ok. apply res_bind_ok in H as (a2 & H2 & H).
  assert (app_step a1 a2) as H2'.
  { case_match; [|apply Ok_inj in H2 as <-; apply app_step_refl]. pose proof (app_random_step IV_LENGTH a1) as Hr.
    destruct (app_random rand IV_LENGTH a1). eapply app_step_trans; [exact Hr|]. by eapply app_broadcast_step. }
  apply res_bind_ok in H as (a3 & H3%on_sync_quiet & H); [|apply link_up_hands_none]. apply res_bind_ok in H as (a4 & H4 & H5).
  apply (on_site_step (λ _, 0) (mkVP 0 0 0 0 0 0) (LinkUp now lid target) ∅) in H4; [|done].
  apply on_shared_quiet in H5; [|intros s s' Hp; apply reaches_once; intros f l c; by eapply st_pump].
  repeat (eapply app_step_trans; [eassumption|]). apply app_step_refl.
Qed.
Lemma broadcast_reaches raw s : reaches [] s (Inbound.broadcast hub_ok auto_ok raw s).
Proof using Type. apply reaches_net. Qed.
Lemma touch_reaches now lid s : reaches [] s (touch_link now lid s).
Proof using Type. apply reaches_once. intros f l c. apply st_touch. Qed.
Lemma broadcasts_reach packets s : reaches [] s (fold_left (λ s p, Inbound.broadcast hub_ok auto_ok p s) packets s).
Proof using Type. revert s. induction packets as [|p ps IH]; intros s; [apply reaches_refl|]. eapply reaches_then; [apply broadcast_reaches|apply IH]. Qed.
Lemma out_data_takes now lid ctx pt a a' : let bs := handed now (EvOutLinkData lid ctx pt) a in Forall bytes_ok bs →
  on_out_link_data W rand hub_ok auto_ok our_dh now lid ctx pt a = Ok a' → app_takes (Blob <$> bs) a a' ∨ app_step a a'.
Proof using Type.
  cbv zeta. unfold on_out_link_data, handed, routed. set (r := handed_out now lid ctx pt).
  assert (∀ a1, Forall bytes_ok (r a1) → route_out_link W rand hub_ok auto_ok our_dh now lid ctx pt a1 = Ok a' → app_takes (Blob <$> r a1) a1 a') as Hr.
  { intros a1. unfold r, handed_out, route_out_link. case_bool_decide; [apply on_sync_takes|]. case_bool_decide; [|apply on_resource_takes].
    intros _. by apply (on_site_step (λ _, 0) (mkVP 0 0 0 0 0 0) (Data now lid ctx pt) (nodes_seen (book (shared a1)))). }
  destruct (ctx =? CONTEXT_RESOURCE_REQ); [|intros Hb H; left; by apply Hr]. pose proof (app_random_step IV_LENGTH a) as H0.
  destruct (app_random rand IV_LENGTH a) as [iv a1]. cbn [snd] in *. intros Hb (ps & _ & H)%res_bind_ok. destruct ps.
  - left. eapply app_step_trans; [exact H0|]. by apply Hr.
  - right. eapply app_step_trans; [exact H0|]. apply Ok_inj in H as <-. split; [apply takes_quiet, broadcasts_reach|by apply browses_same].
Qed.
Lemma taken_none srcs : taken srcs [].
Proof using Type. induction srcs; by constructor. Qed.
Lemma app_takes_none srcs a a' : app_step a a' → app_takes srcs a a'.
Proof using Type.
  intros [(m & Hm & Hr) Hb]. split; [|done]. inversion Hm; subst. exists []. split; [apply taken_none|done].
Qed.
Lemma on_event_takes now name e a a' : event_ok now e a → on_event now name e a = Ok a' → app_takes (Blob <$> handed now e a) a a'.
Proof using Type.
  intros [Hh Hd] H. destruct e; cbn [Dispatch.on_event handed] in *; try (apply Ok_inj in H as <-; apply app_step_refl).
  - revert H. apply on_shared_quiet. intros s s' H. apply reaches_once. intros f l c. by eapply st_announce.
  - apply Forall_cons in Hh as [Hh _]. revert H. apply on_shared_takes. intros s' H%deliver_takes; [|done].
    eapply takes_then; [apply broadcast_reaches|exact H].
  - revert H. apply on_shared_quiet. intros s s' <-%Ok_inj. apply broadcast_reaches.
  - apply Forall_cons in Hh as [Hh _]. revert H. apply on_shared_takes. intros s' H%deliver_takes; [|done].
    eapply takes_then; [apply broadcast_reaches|]. eapply takes_then; [apply touch_reaches|exact H].
  - unfold inbound_resource in H. destruct (context =? CONTEXT_RESOURCE_REQ); [|by eapply on_resource_takes].
    apply app_takes_none. revert H. apply on_shared_quiet. intros s s' H. apply reaches_once. intros f l c. by eapply st_serve.
  - revert H. apply on_shared_quiet. intros s s' H. apply reaches_once. intros f l c. by eapply st_identified.
  - revert H. apply on_shared_quiet. intros s s' <-%Ok_inj. eapply reaches_then; [apply broadcast_reaches|apply touch_reaches].
  - revert H. apply on_shared_quiet. intros s s' <-%Ok_inj. apply reaches_once. intros f l c. apply st_closed.
  - by eapply link_up_step.
  - revert H. apply on_shared_quiet. intros s s' <-%Ok_inj. apply reaches_once. intros f l c. apply st_delivered.
  - apply out_data_takes in H as [H|H]; [exact H|by apply app_takes_none|exact Hh].
  - apply res_bind_ok in H as (a1 & H1%on_sync_quiet & H2); [|apply closed_hands_none]. eapply app_step_trans; [exact H1|].
    revert H2. by apply (on_site_step (λ _, 0) (mkVP 0 0 0 0 0 0) (Closed link_id) ∅).
  - unfold on_path_request in H. pose proof (app_random_step 5 a) as H0. destruct (app_random rand 5 a) as [r5 a1].
    apply res_bind_ok in H as (raw & _ & <-%Ok_inj). eapply app_step_trans; [exact H0|apply app_step_net].
Qed.

(** ** Runs of the application *)
Context (measure : DocLine → Z) (vp : VisualProperties).

(** A frame of an interface, the loss of the hub, the ticks of the outbox and the
    synchronisation, an input of the browser, and the user opening a conversation or sending. *)
Inductive AppInput :=
  | Frame (now : Z) (name raw : bytes) (iface : PathIface) | HubLost (now : Z) | PumpTick (now : Z) | SyncTick (up : bool) (now : Z)
  | Page (i : Input) | OpenPeer (addr : bytes) | Send (now : Z) (text : bytes).
Definition app_input (i : AppInput) (a : App) : res App :=
  match i with
  | Frame now name raw iface => app_handle_frame W rand hub_ok auto_ok our_dh pn chat_has now name raw iface a
  | HubLost now => app_connection_lost W rand hub_ok auto_ok our_dh now a
  | PumpTick now => on_shared (pump rand hub_ok auto_ok pn chat_has now) a
  | SyncTick up now => on_sync W rand hub_ok auto_ok our_dh now (maybe_auto_sync rand hub_ok auto_ok pn up now) a
  | Page i => on_site (input W rand hub_ok auto_ok (nodes_seen (book (shared a))) measure vp i) a
  | OpenPeer addr => on_shared (λ s, mret (activate_peer addr s)) a
  | Send now text => app_post our_dh now text a
  end.
(** The event a frame gives, in the state its handling starts from. *)
Definition frame_event (raw : bytes) (iface : PathIface) (a : App) : option (Event * App) :=
  let '(eph, a) := app_random rand KEY_HALF a in
  match Transport.handle_frame (app_tp a) raw eph iface with
  | Ok (e, t) => Some (e, with_shared (with_net (with_tp (a_net (shared a)) t) (shared a)) a)
  | _ => None
  end.
(** What may bring a message: what a frame hands over, and what the user types. *)
Definition sources (i : AppInput) (a : App) : list Source :=
  match i with
  | Frame now name raw iface => match frame_event raw iface a with Some (e, a) => Blob <$> handed now e a | None => [] end
  | Send now text => [Typed text]
  | _ => []
  end.
(** What is modelled by lists of integers is bytes. *)
Definition input_ok (i : AppInput) (a : App) : Prop :=
  match i with
  | Frame now name raw iface => match frame_event raw iface a with Some (e, a) => event_ok now e a | None => True end
  | OpenPeer addr => address addr
  | _ => True
  end.
Inductive app_runs : list Source → App → App → Prop :=
  | runs_nil a : app_runs [] a a
  | runs_cons i srcs a1 a2 a3 : input_ok i a1 → app_input i a1 = Ok a2 → app_runs srcs a2 a3 → app_runs (sources i a1 ++ srcs) a1 a3.

Lemma post_takes now text s : takes [Typed text] s (post our_dh now text s).
Proof using Type.
  destruct (current_peer (view s)) as [p|] eqn:E.
  - eexists [_]. split; [apply taken_take; [by eexists|constructor]|]. intros f l c. apply rtc_once. by eapply st_post.
  - exists []. split; [repeat constructor|]. unfold post. rewrite E. apply reaches_refl.
Qed.
Lemma app_input_takes i a a' : input_ok i a → app_input i a = Ok a' → app_takes (sources i a) a a'.
Proof using Type.
  intros Hi H. destruct i; cbn [app_input input_ok sources] in *.
  - unfold app_handle_frame, frame_event in *. pose proof (app_random_step KEY_HALF a) as H0. destruct (app_random rand KEY_HALF a) as [eph a1].
    apply res_bind_ok in H as ([e t] & H1 & H). rewrite H1 in *. eapply app_step_trans; [exact H0|]. eapply app_step_trans; [apply app_step_net|].
    by eapply on_event_takes.
  - unfold app_connection_lost in H. apply res_bind_ok in H as (a1 & H1%on_sync_quiet & H2); [|handless].
    eapply app_step_trans; [|eapply app_step_trans; [exact H1|]].
    + split; [|by apply browses_same]. apply takes_quiet. eapply reaches_then; [apply reaches_net|]. apply reaches_once. intros f l c. apply st_lost.
    + revert H2. by apply (on_site_step measure vp Lost ∅).
  - revert H. apply on_shared_quiet. intros s s' H. apply reaches_once. intros f l c. by eapply st_pump.
  - revert H. apply on_sync_quiet, tick_hands_none.
  - revert H. by apply (on_site_step measure vp i (nodes_seen (book (shared a)))).
  - revert H. apply on_shared_quiet. intros s s' <-%Ok_inj. apply reaches_once. intros f l c. by apply st_activate.
  - unfold app_post in H. destruct (viewing (app_browser a)).
    + apply Ok_inj in H as <-. split; [|by apply browses_same]. exists []. split; [repeat constructor|apply reaches_refl].
    + revert H. apply on_shared_takes. intros s' <-%Ok_inj. apply post_takes.
Qed.
Lemma app_runs_takes srcs a a' : app_runs srcs a a' → app_takes srcs a a'.
Proof using Type. induction 1; [apply app_step_refl|]. eapply app_takes_trans; [by eapply app_input_takes|done]. Qed.
Lemma takes_ok srcs s s' : takes srcs s s' → mail_ok s → peers_ok s → mail_ok s' ∧ peers_ok s' ∧
  ∃ m, taken srcs m ∧ posts (chat_log (view s')) ++ held_in (pending (mail s')) ≡ₚ (posts (chat_log (view s)) ++ held_in (pending (mail s))) ++ m.
Proof using Type.
  intros (m & Hm & Hr) Ho Hp. destruct (sys_reachable_ok W rand hub_ok auto_ok our_dh pn chat_has s _ (Hr _ _ _) Ho Hp) as [K1 K2 _ K3].
  split; [exact K1|]. split; [exact K2|]. exists m. split; [done|]. unfold balanced in K3. cbn [ledger sh flight cleared fmap list_fmap] in K3.
  by rewrite K3, !app_nil_r.
Qed.
End dispatch.

(** ** What a fetch reveals *)

(** The node at the other end of the link reads a packet as this. *)
Definition reads_as `{C : Crypto} (lid key raw : bytes) (cx : Z) (pt : bytes) : Prop :=
  ∃ p, Packet.decode raw = Ok p ∧ context p = cx ∧ destination_hash p = lid ∧ Link.decrypt key (data p) = Ok pt.
Section reveals.
Context `{C : Crypto} `{I : HashIter} `{B : Bz2} `{!HashOK, !CipherOK} (rand : nat → nat → bytes) (hub_ok auto_ok : nat → bool).
Context (Hrand : ∀ d k, length (rand d k) = k).
Definition opened_to (lid key : bytes) (t : Transport) : Prop :=
  ∃ l, tmap (out_links t) !! lid = Some l ∧ ol_key l = key ∧ length key = DERIVED_KEY_LENGTH ∧ length lid = TRUNCATED_HASHLENGTH.
Lemma context_sent t lid key cx pt d : opened_to lid key t →
  ∃ raw, make_out_link_context t lid cx pt (rand d IV_LENGTH) = Ok raw ∧ reads_as lid key raw cx pt.
Proof using All.
  intros (l & Hl & <- & Hk & Hlen). unfold make_out_link_context, out_link. rewrite Hl. cbn [ok_or]. rewrite bind_Ok.
  destruct (link_packet_roundtrip lid (ol_key l) cx pt (rand d IV_LENGTH) Hlen Hk) as (raw & p & -> & Hd & _ & Hc & Hdh & Hdec); [apply Hrand|].
  exists raw. split; [done|]. by exists p.
Qed.
Lemma rtt_is_context t lid iv : make_link_rtt t lid iv = make_out_link_context t lid CONTEXT_LRRTT (0xcb :: be_bytes 8 rtt_default) iv.
Proof using Type. done. Qed.
Lemma app_sends cx pt lid key a : opened_to lid key (app_tp a) → ∃ raw n,
  (let '(iv, a) := app_random rand IV_LENGTH a in app_broadcast hub_ok auto_ok (make_out_link_context (app_tp a) lid cx pt iv) a) =
    Ok (with_shared (with_net n (shared a)) a) ∧ tp n = app_tp a ∧ wire n = wire (a_net (shared a)) ++ [raw] ∧ reads_as lid key raw cx pt.
Proof using All.
  intros Ho. destruct (context_sent (app_tp a) lid key cx pt (draws (a_net (shared a))) Ho) as (raw & Hm & Hr). exists raw.
  unfold app_random, fill_random, app_broadcast. change (app_tp (with_shared _ a)) with (app_tp a). rewrite Hm. cbn [res_ok]. rewrite bind_Ok.
  eexists. split; [reflexivity|]. by split.
Qed.
Lemma page_sends now lid key s : opened_to lid key (tp (bnet s)) → ∃ raw s',
  browser_send_request rand hub_ok auto_ok now lid s = Ok s' ∧ wire (bnet s') = wire (bnet s) ++ [raw] ∧ reads_as lid key raw CONTEXT_REQUEST (encode (page_request now (br s))).
Proof using All.
  intros Ho. destruct (context_sent (tp (bnet s)) lid key CONTEXT_REQUEST (encode (page_request now (br s))) (draws (bnet s)) Ho) as (raw & Hm & Hr). exists raw.
  unfold browser_send_request, Browser.random, fill_random. cbv zeta beta iota.
  match goal with |- context [make_out_link_context ?t lid ?c ?p ?v] => change (make_out_link_context t lid c p v) with
    (make_out_link_context (tp (bnet s)) lid CONTEXT_REQUEST (encode (page_request now (br s))) (rand (draws (bnet s)) IV_LENGTH)) end. rewrite Hm.
  cbn [res_ok]. rewrite bind_Ok. unfold Browser.broadcast, broadcast_out. cbn [bnet with_bnet].
  eexists. split; [reflexivity|]. split; [|exact Hr]. destruct (_ || _); [done|]. unfold browser_finish, drop_link. by destruct (link _).
Qed.
End reveals.

(** ** Properties *)



(** ** Witnesses *)
Import ToyInstances.
#[local] Instance app_iter : HashIter := λ V m, map_to_list m.
#[local] Instance app_bz2 : Bz2 := λ _ _, None.
(** Bob's device; a message of Alice's comes in a packet, Bob opens the conversation, answers,
    and browses a node. *)
Definition wd_tp : Transport := register_destination wc_dhB (tp (a_net wc_sB)).
Definition wd_app : App :=
  mkApp (with_net (with_tp (a_net wc_sB) wd_tp) wc_sB) sync_new browser_new ∅ ∅ ∅ (mkUi None None None true).
Definition wd_raw : bytes :=
  match make_opportunistic_tracked (transport_new wc_alice) wc_dhB (public wc_bob) None (drop 16 wc_blob) (replicate 32 7) (replicate 16 4) with
  | Ok (raw, _, _) => raw | _ => [] end.
Definition wd_input := app_input 32 wc_rand wc_ok wc_ok wc_dhB None wc_has wb_measure sample_vp.
Definition wd_run (l : list AppInput) (a : App) : App := foldl (λ a i, match wd_input i a with Ok a => a | _ => a end) a l.
Definition wd_inputs : list AppInput :=
  [Frame wc_now (ascii "bob") wd_raw Hub; OpenPeer wc_dhA; Send wc_now (ascii "hi alice"); Page (Browse ws_pn (ascii "node")); PumpTick wc_now; HubLost wc_now].
Definition wd_runs := app_runs 32 wc_rand wc_ok wc_ok wc_dhB None wc_has wb_measure sample_vp.
Definition wd_sources := sources 32 wc_rand wc_ok wc_ok.
Lemma wd_runs_nil a : wd_runs [] a (wd_run [] a).
Proof. apply runs_nil. Qed.
Lemma wd_runs_one i l srcs a : input_ok 32 wc_rand wc_ok wc_ok i a → (match wd_input i a with Ok _ => true | _ => false end) = true →
  wd_runs srcs (wd_run [i] a) (wd_run l (wd_run [i] a)) → wd_runs (wd_sources i a ++ srcs) a (wd_run (i :: l) a).
Proof.
  intros Hi Hok Hr. refine (runs_cons _ _ _ _ _ _ _ _ _ i srcs a (wd_run [i] a) _ Hi _ Hr). change (wd_input i a = Ok (wd_run [i] a)).
  unfold wd_run. cbn [foldl]. destruct (wd_input i a) as [x| |]; [reflexivity|discriminate Hok..].
Qed.
Lemma wd_event : ∃ proof a, frame_event wc_rand wd_raw Hub wd_app = Some (EvData wc_dhB (drop 16 wc_blob) proof, a).
Proof.
  assert (match frame_event wc_rand wd_raw Hub wd_app with Some (EvData d pt _, _) => Some (d, pt) | _ => None end = Some (wc_dhB, drop 16 wc_blob)) as E
    by (vm_compute; reflexivity).
  destruct (frame_event _ _ _ _) as [[[] a]|]; try discriminate E. apply Some_inj, pair_eq in E as [-> ->]. eauto.
Qed.
Lemma wd_blob : wc_dhB ++ drop 16 wc_blob = wc_blob.
Proof. vm_compute. reflexivity. Qed.
Lemma wd_runs_all : wd_runs [Blob wc_blob; Typed (ascii "hi alice")] wd_app (wd_run wd_inputs wd_app).
Proof.
  destruct wd_event as (proof & a1 & Ev). unfold wd_inputs.
  assert (wd_sources (Frame wc_now (ascii "bob") wd_raw Hub) wd_app = [Blob wc_blob]) as Es.
  { cbn [wd_sources sources]. rewrite Ev. cbn [handed fmap list_fmap]. by rewrite wd_blob. }
  change [Blob wc_blob; Typed (ascii "hi alice")] with ([Blob wc_blob] ++ [Typed (ascii "hi alice")]). rewrite <- Es.
  apply wd_runs_one; [|vm_compute; reflexivity|].
  { cbn [input_ok]. rewrite Ev. split; [|done]. cbn [handed]. rewrite wd_blob. constructor; [apply wc_blob_ok|constructor]. }
  apply (wd_runs_one (OpenPeer wc_dhA) _ [Typed (ascii "hi alice")]); [apply wc_dhA_address|vm_compute; reflexivity|].
  apply (wd_runs_one (Send wc_now (ascii "hi alice")) _ []); [exact I|vm_compute; reflexivity|].
  apply (wd_runs_one (Page (Browse ws_pn (ascii "node"))) _ []); [exact I|vm_compute; reflexivity|].
  apply (wd_runs_one (PumpTick wc_now) _ []); [exact I|vm_compute; reflexivity|].
  apply (wd_runs_one (HubLost wc_now) _ []); [exact I|vm_compute; reflexivity|].
  apply wd_runs_nil.
Qed.

(** A device that has asked for a page of a node and waits for the link. *)
Definition wl_tp : Transport := insert_path ws_pn (mkPath None 1 Hub) (insert_known ws_pn (mkKnown (public ws_node) [] None []) (transport_new ws_id)).
Definition wl_app : App := mkApp (fresh (mkNet wl_tp 0 [] None)) sync_new browser_new ∅ ∅ ∅ (mkUi None None None true).
Definition wl_input := app_input 32 ws_rand ws_up ws_up wc_dhB None wc_has wb_measure sample_vp.
Definition wl_run (l : list AppInput) : App := foldl (λ a i, match wl_input i a with Ok a => a | _ => a end) wl_app l.
(** The link comes up in the transport. *)
Definition wl_linked (a : App) : App :=
  with_shared (with_net (with_tp (a_net (shared a)) (insert_out_link ws_lid (mkOutLink ws_pn ws_key (replicate 32 4) (public ws_node) 100) (app_tp a))) (shared a)) a.
Definition wl_asked : list AppInput := [Page (Browse ws_pn (ascii "node")); Page (Tick true 200)].
Definition wl_up (l : list AppInput) (now : Z) : res App :=
  on_outbound_link_up 32 ws_rand ws_up ws_up wc_dhB None wc_has now ws_lid ws_pn (wl_linked (wl_run l)).

(** A link that comes up after the fetch has timed out is taken for a peer's: the device
    identifies itself to the node. *)
Lemma late_link_identifies :
  match wl_up (wl_asked ++ [Page (Tick true 500)]) 505 with
  | Ok a => (λ raw, match Packet.decode raw with Ok p => Some (context p) | _ => None end) <$> wire (a_net (shared a))
  | _ => []
  end = [Some CONTEXT_NONE; Some CONTEXT_LRRTT; Some CONTEXT_LINKIDENTIFY].
Proof. vm_compute. reflexivity. Qed.
