(* ===== verification/Hub.v ===== *)
(** The connection to the hub ([lxmfchat/src/net.rs] and [lib.rs]): the connection manager with
    its read loop, the writes that any thread makes under the writer's lock, the watchdog of
    [keepalive_thread], and what a wake, a change of the wifi network and the user do to it.

    The sockets are part of the state: what was written to each, and whether it was shut down.
    The threads take the steps below in any order.  Dialling, reading, writing and the clock are
    inputs.  Status lines, heartbeats and logs are left out, and a reason for a disconnection is
    kept without the kind of error or the seconds that the source adds to it. *)
From S2P Require Import Prelude Msgpack Hdlc.

Definition WRITE_STUCK_SECS : Z := 20.
Definition KEEPALIVE_TICKS : Z := 2.
Definition SUSPEND_GAP_SECS : Z := 60.
Definition PROBE_AFTER_SECS : Z := 180.
Definition PROBE_MIN_INTERVAL_SECS : Z := 20.
Definition DEAD_AFTER_SECS : Z := 240.

(** [now as u32], and [u32::saturating_sub] of the clock. *)
Definition u32 (now : Z) : Z := now mod 2 ^ 32.
Definition since (now then_ : Z) : Z := Z.max (u32 now - then_) 0.

(** ** The address of the hub *)

(** [str::rsplit_once(':')]. *)
Fixpoint rsplit_colon (s : bytes) : option (bytes * bytes) :=
  match s with
  | [] => None
  | c :: s => match rsplit_colon s with
              | Some (h, p) => Some (c :: h, p)
              | None => if c =? 58 then Some ([], s) else None
              end
  end.
Definition is_digit (c : Z) : bool := (48 <=? c) && (c <=? 57).
(** [str::parse::<u16>]. *)
Fixpoint digits (acc : Z) (s : bytes) : option Z :=
  match s with
  | [] => Some acc
  | c :: s => if is_digit c then let n := acc * 10 + (c - 48) in if n <? 2 ^ 16 then digits n s else None else None
  end.
Definition parse_u16 (s : bytes) : option Z :=
  match s with
  | [] => None
  | c :: r => if c =? 43 then match r with [] => None | _ => digits 0 r end else digits 0 s
  end.
Definition parse_hub (hub : bytes) : option (bytes * Z) :=
  '(h, p) ← rsplit_colon hub; n ← parse_u16 p; Some (h, n).
(** What the two fields of "Set hub" make of the present address; they are trimmed. *)
Definition set_hub (hub host_in port_in : bytes) : option bytes :=
  let '(cur_host, cur_port) := default (hub, ascii "4242") (rsplit_colon hub) in
  let host_in := match host_in with [] => cur_host | _ => host_in end in
  let port_in := match port_in with [] => cur_port | _ => port_in end in
  let '(host, port) := default (host_in, port_in) (rsplit_colon host_in) in
  match host, parse_u16 port with
  | _ :: _, Some n => if 0 <? n then Some (host ++ 58 :: port) else None
  | _, _ => None
  end.

(** ** The state *)

(** A socket: where it leads, what was written to it, the packets whose write returned true, and
    whether it was shut down. *)
Record Socket := mkSocket { peer : bytes * Z; sent : bytes; taken : list bytes; shut : bool }.
(** What the threads share.  [writing] is the write that holds the writer's lock. *)
Record Conn := mkConn {
  hub : bytes; hub_enabled : bool; connected : bool;
  writer : option nat; ctl : option nat; writing : option (nat * bytes);
  last_inbound : Z; write_started : Z; disconnect_reason : option string;
  socks : list Socket;
}.
Definition set_hub_of (h : bytes) (e : bool) (c : Conn) : Conn :=
  mkConn h e (connected c) (writer c) (ctl c) (writing c) (last_inbound c) (write_started c) (disconnect_reason c) (socks c).
Definition set_connected (b : bool) (c : Conn) : Conn :=
  mkConn (hub c) (hub_enabled c) b (writer c) (ctl c) (writing c) (last_inbound c) (write_started c) (disconnect_reason c) (socks c).
Definition set_writer (w : option nat) (c : Conn) : Conn :=
  mkConn (hub c) (hub_enabled c) (connected c) w (ctl c) (writing c) (last_inbound c) (write_started c) (disconnect_reason c) (socks c).
Definition set_ctl (k : option nat) (c : Conn) : Conn :=
  mkConn (hub c) (hub_enabled c) (connected c) (writer c) k (writing c) (last_inbound c) (write_started c) (disconnect_reason c) (socks c).
Definition set_writing (w : option (nat * bytes)) (started : Z) (c : Conn) : Conn :=
  mkConn (hub c) (hub_enabled c) (connected c) (writer c) (ctl c) w (last_inbound c) started (disconnect_reason c) (socks c).
Definition set_inbound (t : Z) (c : Conn) : Conn :=
  mkConn (hub c) (hub_enabled c) (connected c) (writer c) (ctl c) (writing c) t (write_started c) (disconnect_reason c) (socks c).
Definition set_reason (r : option string) (c : Conn) : Conn :=
  mkConn (hub c) (hub_enabled c) (connected c) (writer c) (ctl c) (writing c) (last_inbound c) (write_started c) r (socks c).
Definition set_socks (l : list Socket) (c : Conn) : Conn :=
  mkConn (hub c) (hub_enabled c) (connected c) (writer c) (ctl c) (writing c) (last_inbound c) (write_started c) (disconnect_reason c) l.
Definition on_sock (s : nat) (f : Socket → Socket) (c : Conn) : Conn := set_socks (alter f s (socks c)) c.
Definition shutdown (s : nat) (c : Conn) : Conn := on_sock s (λ k, mkSocket (peer k) (sent k) (taken k) true) c.

(** The first cause is kept. *)
Definition note_disconnect (why : string) (c : Conn) : Conn :=
  match disconnect_reason c with None => set_reason (Some why) c | Some _ => c end.
Definition force_reconnect (why : string) (c : Conn) : Conn :=
  let c := set_connected false (note_disconnect why c) in
  match ctl c with Some s => shutdown s (set_ctl None c) | None => c end.

(** ** Writes ([hub_write]) *)

(** The lock is free and there is a connection: the write begins.  With no connection, or with
    the lock held for two seconds, the packet is refused and nothing changes. *)
Definition write_begins (now : Z) (raw : bytes) (c : Conn) : option Conn :=
  match writing c, writer c with None, Some s => Some (set_writing (Some (s, raw)) (u32 now) c) | _, _ => None end.
Definition write_done (c : Conn) : Conn :=
  match writing c with
  | Some (s, raw) => on_sock s (λ k, mkSocket (peer k) (sent k ++ frame raw) (taken k ++ [raw]) (shut k)) (set_writing None 0 c)
  | None => c
  end.
(** It fails after [k] bytes: the stream would be out of step, so the socket is shut down. *)
Definition write_failed (k : nat) (c : Conn) : Conn :=
  match writing c with
  | Some (s, raw) =>
      let c := on_sock s (λ x, mkSocket (peer x) (sent x ++ take k (frame raw)) (taken x) (shut x)) (set_writing None 0 c) in
      set_ctl None (set_connected false (set_writer None (shutdown s (note_disconnect "write failed" c))))
  | None => c
  end.

(** ** The connection manager *)

(** Where the manager is: at the top of its loop, asleep until a time, waiting for the wifi,
    dialling, setting up a socket (in three steps), about to look whether it is still
    connected, in a read, and clearing up after the read loop.  It carries its backoff until it
    connects. *)
Inductive Mgr :=
  | Top (backoff : Z) | Asleep (until backoff : Z) | AwaitWifi (host : bytes * Z) (backoff : Z) (waited : bool) | Dialing (host : bytes * Z) (backoff : Z)
  | Arming (s : nat) | Armed (s : nat) | Connecting (s : nat)
  | Looking (s : nat) (d : Deframer) | Blocked (s : nat) (d : Deframer) | Closing.
Definition sleep_backoff (now backoff : Z) : Mgr := Asleep (now + backoff) (Z.min (backoff * 2) 30).

Definition mgr_top (now : Z) (backoff : Z) (c : Conn) : Mgr :=
  if negb (hub_enabled c) then Asleep (now + 3) 2
  else match parse_hub (hub c) with
       | None => Asleep (now + 15) backoff
       | Some host => AwaitWifi host backoff false
       end.
(** A look at the wifi, every two seconds. *)
Definition mgr_wifi (up : bool) (host : bytes * Z) (backoff : Z) (waited : bool) : Mgr :=
  if up then Dialing host (if waited then 2 else backoff) else AwaitWifi host backoff true.
Inductive DialResult := Dialed | DialFailed | CloneFailed.
Definition mgr_dialed (now : Z) (r : DialResult) (host : bytes * Z) (backoff : Z) (c : Conn) : Mgr * Conn :=
  match r with
  | Dialed => (Arming (length (socks c)), set_socks (socks c ++ [mkSocket host [] [] false]) c)
  | DialFailed => (sleep_backoff now backoff, c)
  | CloneFailed => (sleep_backoff now backoff, set_connected false c)
  end.
(** The writer is set under its lock; then the control clone and the clock of the watchdog; then
    the connection counts as up. *)
Definition mgr_arm (s : nat) (c : Conn) : option (Mgr * Conn) :=
  match writing c with None => Some (Armed s, set_writer (Some s) c) | Some _ => None end.
Definition mgr_armed (now : Z) (s : nat) (c : Conn) : Mgr * Conn := (Connecting s, set_inbound (u32 now) (set_ctl (Some s) c)).
Definition mgr_connect (s : nat) (c : Conn) : Mgr * Conn := (Looking s Hdlc.new, set_reason None (set_connected true c)).

(** ** The read loop ([read_until_closed]) *)
Inductive ReadResult := Eof | Bytes (bs : bytes) | Quiet | Failed.
Definition leave (c : Conn) : Mgr * Conn := (Closing, set_ctl None (set_connected false c)).
Definition mgr_look (s : nat) (d : Deframer) (c : Conn) : Mgr * Conn :=
  if connected c then (Blocked s d, c) else leave c.
(** The frames read are handed to [handle_frame]. *)
Definition mgr_read (now : Z) (r : ReadResult) (s : nat) (d : Deframer) (c : Conn) : Mgr * Conn * list bytes :=
  match r with
  | Eof => (leave (note_disconnect "closed by hub (EOF)" c), [])
  | Bytes bs => let '(d, frames) := push d bs in (Looking s d, set_inbound (u32 now) c, frames)
  | Quiet => (Looking s d, c, [])
  | Failed => (leave (note_disconnect "read failed" c), [])
  end.
(** The writer is cleared, unless a write holds its lock for two seconds; then what depended on
    the session is dropped ([links_lost] of [Inbound]), the reason is taken for the status, and the manager sleeps two seconds (its backoff was reset when it
    connected). *)
Definition mgr_close (now : Z) (c : Conn) : Mgr * Conn :=
  (sleep_backoff now 2, set_reason None match writing c with None => set_writer None c | Some _ => c end).

(** ** The watchdog ([keepalive_thread]) *)
Record Watch := mkWatch { ticks : Z; last_wall : Z; last_probe : Z }.
Inductive WatchSend := Probe | Keepalive.
#[export] Instance WatchSend_eq_dec : EqDecision WatchSend.
Proof. solve_decision. Defined.
(** A tick, and what it sends: a path request for ourselves, an empty frame.  [trng]: the random
    generator is there. *)
Definition watch_tick (trng : bool) (now : Z) (k : Watch) (c : Conn) : Watch * Conn * list WatchSend :=
  let gap := Z.max (now - last_wall k) 0 in
  let k := mkWatch (ticks k + 1) now (last_probe k) in
  if (SUSPEND_GAP_SECS <? gap) && connected c then (k, force_reconnect "woke from sleep" c, [])
  else if negb (write_started c =? 0) && (WRITE_STUCK_SECS <? since now (write_started c)) then (k, force_reconnect "write stalled >20s" c, [])
  else if connected c then
    let silent := since now (last_inbound c) in
    if trng && (DEAD_AFTER_SECS <? silent) then (k, force_reconnect "no inbound, probes unanswered" c, [])
    else
      let '(k, probe) :=
        if trng && (PROBE_AFTER_SECS <? silent) && (PROBE_MIN_INTERVAL_SECS <=? since now (last_probe k))
        then (mkWatch (ticks k) now (u32 now), [Probe]) else (k, []) in
      (k, c, probe ++ if ticks k mod KEEPALIVE_TICKS =? 0 then [Keepalive] else [])
  else (k, c, []).

(** ** Wakes, the wifi and the user *)

(** On a wake; the local peers are forgotten too. *)
Definition on_wake (c : Conn) : Conn := if hub_enabled c then force_reconnect "resumed from suspend" c else c.
Record Wifi := mkWifi { last_up : option (bytes * bytes); ever_seen : bool; last_reaction : Z }.
(** A push of the net service: the network we are on, if the link is up.  The last component: the
    local peers are forgotten. *)
Definition wifi_update (now : Z) (cur : option (bytes * bytes)) (w : Wifi) (c : Conn) : Wifi * Conn * bool :=
  match cur with
  | None => (mkWifi None true (last_reaction w), c, false)
  | Some cur =>
      let transition := match last_up w with Some prev => negb (bool_decide (prev = cur)) | None => ever_seen w end in
      if transition && (10 <? Z.max (now - last_reaction w) 0) then
        (mkWifi (Some cur) true now, if hub_enabled c && connected c then force_reconnect "wifi network changed" c else c, true)
      else (mkWifi (Some cur) true (last_reaction w), c, false)
  end.
(** [connect], with the manager running, and [toggle_hub] turning the hub off, which also drops
    the routes through the hub ([drop_paths_on] of [Transport]). *)
Definition user_connect (address : bytes) (c : Conn) : Conn := force_reconnect "reconnect requested" (set_hub_of address true c).
Definition user_hub_off (c : Conn) : Conn := force_reconnect "hub disabled" (set_hub_of (hub c) false c).
