(* ===== verification/HubProps.v ===== *)
(** The connection to the hub: what the hub reads is what was written, a dead connection is
    dialled anew, a quiet one is kept; and what the races with a dial lose. *)
From S2P Require Import Prelude Msgpack Hdlc Hub.

(** ** The threads together *)

(** The state the threads share, where the manager is, the watchdog and the wifi watcher, and the
    times at which the hub was probed. *)
Record HubSys := mkHub { conn : Conn; mgr : Mgr; watch : Watch; wifi : Wifi; probes : list Z }.
Definition with_conn (f : Conn → Conn) (σ : HubSys) : HubSys := mkHub (f (conn σ)) (mgr σ) (watch σ) (wifi σ) (probes σ).
Definition with_mgr (r : Mgr * Conn) (σ : HubSys) : HubSys := mkHub r.2 r.1 (watch σ) (wifi σ) (probes σ).

(** A step of the manager at a time. *)
Inductive mgr_step (now : Z) (σ : HubSys) : HubSys → Prop :=
  | ms_top b : mgr σ = Top b → mgr_step now σ (with_mgr (mgr_top now b (conn σ), conn σ) σ)
  | ms_wake u b : mgr σ = Asleep u b → u ≤ now → mgr_step now σ (with_mgr (Top b, conn σ) σ)
  | ms_wifi h b w up : mgr σ = AwaitWifi h b w → mgr_step now σ (with_mgr (mgr_wifi up h b w, conn σ) σ)
  | ms_dial h b r : mgr σ = Dialing h b → mgr_step now σ (with_mgr (mgr_dialed now r h b (conn σ)) σ)
  | ms_arm s r : mgr σ = Arming s → mgr_arm s (conn σ) = Some r → mgr_step now σ (with_mgr r σ)
  | ms_armed s : mgr σ = Armed s → mgr_step now σ (with_mgr (mgr_armed now s (conn σ)) σ)
  | ms_connect s : mgr σ = Connecting s → mgr_step now σ (with_mgr (mgr_connect s (conn σ)) σ)
  | ms_look s d : mgr σ = Looking s d → mgr_step now σ (with_mgr (mgr_look s d (conn σ)) σ)
  | ms_read s d r : mgr σ = Blocked s d → mgr_step now σ (with_mgr (mgr_read now r s d (conn σ)).1 σ)
  | ms_close : mgr σ = Closing → mgr_step now σ (with_mgr (mgr_close now (conn σ)) σ).
(** A step of another thread: a write begins, ends or fails, the watchdog ticks, the device
    wakes, the wifi changes, the user connects or turns the hub off.  [trng]: the watchdog has its
    random generator. *)
Inductive other_step (trng : bool) (now : Z) (σ : HubSys) : HubSys → Prop :=
  | os_begin raw c : write_begins now raw (conn σ) = Some c → other_step trng now σ (with_conn (λ _, c) σ)
  | os_done : other_step trng now σ (with_conn write_done σ)
  | os_failed k : other_step trng now σ (with_conn (write_failed k) σ)
  | os_tick k c out : watch_tick trng now (watch σ) (conn σ) = (k, c, out) →
      other_step trng now σ (mkHub c (mgr σ) k (wifi σ) (probes σ ++ if bool_decide (Probe ∈ out) then [now] else []))
  | os_woken : other_step trng now σ (with_conn on_wake σ)
  | os_wifi cur w c b : wifi_update now cur (wifi σ) (conn σ) = (w, c, b) → other_step trng now σ (mkHub c (mgr σ) (watch σ) w (probes σ))
  | os_connect a : other_step trng now σ (with_conn (user_connect a) σ)
  | os_off : other_step trng now σ (with_conn user_hub_off σ).
Definition hub_step (trng : bool) (now : Z) (σ σ' : HubSys) : Prop := mgr_step now σ σ' ∨ other_step trng now σ σ'.
Definition any_step (trng : bool) (σ σ' : HubSys) : Prop := ∃ now, hub_step trng now σ σ'.
Definition hub_start (h : bytes) (enabled : bool) (now : Z) : HubSys :=
  mkHub (mkConn h enabled false None None None 0 0 None []) (Top 2) (mkWatch 0 now 0) (mkWifi None false 0) [].

(** ** What is written to a socket *)
Definition clean (k : Socket) : Prop := sent k = concat (frame <$> taken k).
(** Cut off by a write that failed. *)
Definition cut (k : Socket) : Prop := shut k = true ∧ ∃ n raw, sent k = concat (frame <$> taken k) ++ take n (frame raw).
Definition arming (m : Mgr) (s : nat) : Prop := m = Arming s.
(** Only a socket not cut off is written to, or will be. *)
Record streams_ok (σ : HubSys) : Prop := {
  st_socks : ∀ s k, socks (conn σ) !! s = Some k → clean k ∨ cut k;
  st_writer : ∀ s, writer (conn σ) = Some s ∨ arming (mgr σ) s → ∃ k, socks (conn σ) !! s = Some k ∧ clean k;
  st_writing : ∀ s raw, writing (conn σ) = Some (s, raw) → writer (conn σ) = Some s;
  st_new : ∀ s, arming (mgr σ) s → writer (conn σ) ≠ Some s;
}.

(** Nothing is written: sockets may be shut down. *)
Definition same_streams (c c' : Conn) : Prop :=
  writer c' = writer c ∧ writing c' = writing c ∧
  (∀ s k', socks c' !! s = Some k' → ∃ k, socks c !! s = Some k ∧ sent k' = sent k ∧ taken k' = taken k ∧ (shut k = true → shut k' = true)) ∧
  (∀ s k, socks c !! s = Some k → ∃ k', socks c' !! s = Some k' ∧ sent k' = sent k ∧ taken k' = taken k).
Lemma same_streams_trans c1 c2 c3 : same_streams c1 c2 → same_streams c2 c3 → same_streams c1 c3.
Proof.
  intros (W1 & I1 & S1 & T1) (W2 & I2 & S2 & T2). split; [congruence|]. split; [congruence|]. split.
  - intros s k3 H3. destruct (S2 s k3 H3) as (k2 & H2 & E1 & E2 & E3). destruct (S1 s k2 H2) as (k1 & H1 & F1 & F2 & F3).
    exists k1. split; [done|]. split; [congruence|]. split; [congruence|]. auto.
  - intros s k1 H1. destruct (T1 s k1 H1) as (k2 & H2 & E1 & E2). destruct (T2 s k2 H2) as (k3 & H3 & F1 & F2).
    exists k3. split; [done|]. split; congruence.
Qed.
Lemma same_streams_eq c c' : writer c' = writer c → writing c' = writing c → socks c' = socks c → same_streams c c'.
Proof. intros E1 E2 E3. split; [done|]. split; [done|]. rewrite E3. split; eauto 6. Qed.
Lemma same_streams_refl c : same_streams c c.
Proof. by apply same_streams_eq. Qed.
Lemma shutdown_same s c : same_streams c (shutdown s c).
Proof.
  split; [done|]. split; [done|]. cbn. split.
  - intros i k'. rewrite list_lookup_alter. destruct (decide (s = i)) as [->|]; [|eauto 6].
    destruct (socks c !! i) as [k|]; [|done]. cbn. intros [= <-]. exists k. cbn. auto.
  - intros i k Hk. rewrite list_lookup_alter. destruct (decide (s = i)) as [->|]; [|eauto 6].
    rewrite Hk. eexists. split; [reflexivity|]. done.
Qed.
Lemma note_same why c : same_streams c (note_disconnect why c).
Proof. unfold note_disconnect. destruct (disconnect_reason c); by apply same_streams_eq. Qed.
Lemma force_same why c : same_streams c (force_reconnect why c).
Proof.
  unfold force_reconnect. eapply same_streams_trans; [apply (note_same why)|]. cbn. destruct (ctl _); [|by apply same_streams_eq].
  eapply same_streams_trans; [|apply shutdown_same]. by apply same_streams_eq.
Qed.
Lemma tick_same trng now k c k' c' out : watch_tick trng now k c = (k', c', out) → same_streams c c'.
Proof.
  unfold watch_tick. intros H. repeat (case_match; try (simplify_eq; first [apply force_same|apply same_streams_refl])).
Qed.
Lemma wifi_same now cur w c w' c' b : wifi_update now cur w c = (w', c', b) → same_streams c c'.
Proof.
  unfold wifi_update. intros H. repeat (case_match; simplify_eq); first [apply force_same|apply same_streams_refl].
Qed.
Lemma leave_same c : same_streams c (leave c).2.
Proof. by apply same_streams_eq. Qed.

Lemma clean_same k k' : sent k' = sent k → taken k' = taken k → clean k → clean k'.
Proof. unfold clean. congruence. Qed.
Lemma streams_same σ σ' : same_streams (conn σ) (conn σ') → (∀ s, arming (mgr σ') s → arming (mgr σ) s) → streams_ok σ → streams_ok σ'.
Proof.
  intros (W & I & S & T) Ha [K1 K2 K3 K4]. split.
  - intros s k' Hk'. destruct (S s k' Hk') as (k & Hk & E1 & E2 & E3). destruct (K1 s k Hk) as [H|[H1 (n & raw & H2)]]; [left; by eapply clean_same|right].
    split; [auto|]. exists n, raw. congruence.
  - intros s Hs. destruct (K2 s) as (k & Hk & Hc); [rewrite <- W; destruct Hs; [by left|right; auto]|].
    destruct (T s k Hk) as (k' & Hk' & E1 & E2). exists k'. split; [done|]. by eapply clean_same.
  - intros s raw. rewrite I, W. apply K3.
  - intros s Hs. rewrite W. auto.
Qed.

(** The sockets after a change of one. *)
Lemma alter_socks (f : Socket → Socket) (s : nat) (l : list Socket) (i : nat) k' : alter f s l !! i = Some k' → (i ≠ s ∧ l !! i = Some k') ∨ (i = s ∧ ∃ k, l !! s = Some k ∧ k' = f k).
Proof.
  rewrite list_lookup_alter. destruct (decide (s = i)) as [->|Hne]; [|by left]. destruct (l !! i) as [k|] eqn:E; [|done]. cbn. intros [= <-]. right. eauto.
Qed.
Lemma alter_other (f : Socket → Socket) (s : nat) (l : list Socket) (i : nat) : i ≠ s → alter f s l !! i = l !! i.
Proof. intros H. rewrite list_lookup_alter. by destruct (decide (s = i)). Qed.
Lemma concat_snoc (l : list bytes) x : concat (frame <$> (l ++ [x])) = concat (frame <$> l) ++ frame x.
Proof. rewrite fmap_app, concat_app. cbn. by rewrite app_nil_r. Qed.
Lemma done_ok σ : streams_ok σ → streams_ok (with_conn write_done σ).
Proof.
  intros [K1 K2 K3 K4]. unfold with_conn, write_done. destruct (writing (conn σ)) as [[s raw]|] eqn:E; [|by split; cbn; rewrite ?E].
  - pose proof (K3 s raw eq_refl) as Hw. destruct (K2 s (or_introl Hw)) as (k & Hk & Hc). split; cbn.
    + intros i k' [[_ H]|(-> & k2 & H & ->)]%alter_socks; [by eapply K1|left]. simplify_eq. unfold clean in *. cbn. rewrite Hc. by rewrite concat_snoc.
    + intros i Hi. destruct (decide (i = s)) as [->|Hne].
      * eexists. rewrite list_lookup_alter, decide_True, Hk by done. split; [reflexivity|]. unfold clean in *. cbn. rewrite Hc. by rewrite concat_snoc.
      * rewrite alter_other by done. by apply K2.
    + done.
    + done.
Qed.
Lemma failed_ok n σ : streams_ok σ → streams_ok (with_conn (write_failed n) σ).
Proof.
  intros [K1 K2 K3 K4]. unfold with_conn, write_failed. destruct (writing (conn σ)) as [[s raw]|] eqn:E; [|by split; cbn; rewrite ?E].
  pose proof (K3 s raw eq_refl) as Hw. destruct (K2 s (or_introl Hw)) as (k & Hk & Hc).
  set (c1 := on_sock s _ _). assert (socks (note_disconnect "write failed" c1) = socks c1) as En by (unfold note_disconnect; by destruct (disconnect_reason c1)).
  split; cbn; rewrite ?En.
  - intros i k' [[Hne H]|(-> & k2 & H & ->)]%alter_socks; subst c1; cbn in H.
    + rewrite alter_other in H by done. by eapply K1.
    + rewrite list_lookup_alter, decide_True, Hk in H by done. cbn in H. simplify_eq. right. split; [done|]. exists n, raw. cbn. by rewrite <- Hc.
  - intros i [?|Hi]; [done|]. assert (i ≠ s) as Hne by (intros ->; by apply (K4 s Hi)). subst c1. cbn. rewrite !alter_other by done. by apply K2; right.
  - intros i r. unfold note_disconnect. by destruct (disconnect_reason c1).
  - done.
Qed.
Lemma other_ok trng now σ σ' : other_step trng now σ σ' → streams_ok σ → streams_ok σ'.
Proof.
  intros H K. destruct H as [raw c H| |k|k c out H| |cur w c b H|a|].
  - unfold write_begins in H. destruct K as [K1 K2 K3 K4]. destruct (writing (conn σ)) eqn:E1; [done|]. destruct (writer (conn σ)) as [s|] eqn:E2; [|done]. simplify_eq.
    split; cbn; auto; [by rewrite E2|by intros i r [= <- <-]|by rewrite E2].
  - by apply done_ok.
  - by apply failed_ok.
  - apply tick_same in H. by apply (streams_same σ).
  - apply (streams_same σ); [|done|exact K]. cbn. unfold on_wake. destruct (hub_enabled _); [apply force_same|apply same_streams_refl].
  - apply wifi_same in H. by apply (streams_same σ).
  - apply (streams_same σ); [|done|exact K]. cbn. unfold user_connect. eapply same_streams_trans; [|apply force_same]. by apply same_streams_eq.
  - apply (streams_same σ); [|done|exact K]. cbn. unfold user_hub_off. eapply same_streams_trans; [|apply force_same]. by apply same_streams_eq.
Qed.
Lemma mgr_quiet m c σ : same_streams (conn σ) c → (∀ s, m ≠ Arming s) → streams_ok σ → streams_ok (with_mgr (m, c) σ).
Proof. intros Hs Hm. apply streams_same; [done|]. intros s Ha. by destruct (Hm s). Qed.
Lemma writer_bound σ s : streams_ok σ → writer (conn σ) = Some s → (s < length (socks (conn σ)))%nat.
Proof. intros K Hw. destruct (st_writer _ K s (or_introl Hw)) as (k & Hk & _). by apply lookup_lt_Some in Hk. Qed.
Lemma manager_ok now σ σ' : mgr_step now σ σ' → streams_ok σ → streams_ok σ'.
Proof.
  intros H K. destruct H as [b E|u b E Hu|h b w up E|h b r E|s r E H|s E|s E|s d E|s d r E|E].
  - apply mgr_quiet; [apply same_streams_refl| |done]. intros s. unfold mgr_top. repeat case_match; done.
  - apply mgr_quiet; [apply same_streams_refl|done|done].
  - apply mgr_quiet; [apply same_streams_refl| |done]. intros s. unfold mgr_wifi. by destruct up.
  - destruct r; [|by apply mgr_quiet; [apply same_streams_refl|..]|by apply mgr_quiet; [apply same_streams_eq|..]].
    pose proof (writer_bound σ) as Hb. specialize (Hb). destruct K as [K1 K2 K3 K4]. split; cbn.
    + intros i k [Hk|(Hi & Hk)]%lookup_app_Some; [by eapply K1|]. left. destruct (i - _)%nat; cbn in Hk; [by simplify_eq|done].
    + intros i [Hi|[= <-]].
      * destruct (K2 i (or_introl Hi)) as (k & Hk & Hc). exists k. split; [by apply lookup_app_l_Some|done].
      * eexists. rewrite lookup_app_r by done. rewrite Nat.sub_diag. by split.
    + done.
    + intros i [= <-] Hw. pose proof (Hb (length (socks (conn σ))) ltac:(by split) Hw). lia.
  - unfold mgr_arm in H. destruct (writing (conn σ)) eqn:Ew; [done|]. simplify_eq. destruct K as [K1 K2 K3 K4]. split; cbn; [exact K1| |by rewrite Ew|done].
    intros i [[= <-]|Hi]; [apply K2; by right|done].
  - by apply mgr_quiet; [apply same_streams_eq|..].
  - by apply mgr_quiet; [apply same_streams_eq|..].
  - unfold mgr_look. destruct (connected _); [by apply mgr_quiet; [apply same_streams_refl|..]|]. by apply mgr_quiet; [apply leave_same|..].
  - unfold mgr_read. destruct r; cbn [fst].
    + apply mgr_quiet; [|done|done]. eapply same_streams_trans; [apply note_same|apply leave_same].
    + destruct (push d bs). by apply mgr_quiet; [apply same_streams_eq|..].
    + by apply mgr_quiet; [apply same_streams_refl|..].
    + apply mgr_quiet; [|done|done]. eapply same_streams_trans; [apply note_same|apply leave_same].
  - unfold mgr_close. destruct (writing (conn σ)) as [[s raw]|] eqn:Ew; [by apply mgr_quiet; [apply same_streams_eq|..]|].
    destruct K as [K1 K2 K3 K4]. split; cbn; [exact K1|by intros i [?|?]|by rewrite Ew|done].
Qed.
Lemma reachable_streams trng h e now σ : rtc (any_step trng) (hub_start h e now) σ → streams_ok σ.
Proof.
  intros Hr. assert (streams_ok (hub_start h e now)) as K by (by split; cbn; [intros ? ?; rewrite lookup_nil|intros ? [?|?]|..]).
  induction Hr as [|σ1 σ2 σ3 (t & [Hs|Hs]) _ IH]; [done|apply IH; by eapply manager_ok|apply IH; by eapply other_ok].
Qed.

(** ** What the hub reads *)
Notation synced := (mkDeframer [] true false).
Lemma no_flag_no_frame s pre e : FLAG ∉ s → (push (mkDeframer pre true e) s).2 = [].
Proof.
  revert pre e. induction s as [|b s IH]; intros pre e; [done|]. intros [Hb Hs]%not_elem_of_cons. rewrite push_cons. unfold push_byte. cbn [in_frame escaped buf].
  destruct (Z.eqb_spec b FLAG); [done|]. rewrite andb_true_r.
  destruct (b =? ESC); [|destruct e]; match goal with |- context [push (mkDeframer ?p true ?x) s] => specialize (IH p x Hs); destruct (push (mkDeframer p true x) s) end;
    cbn in *; by subst.
Qed.
Lemma escaped_no_flag raw : FLAG ∉ concat (escape_byte <$> raw).
Proof.
  intros (x & Hx & Hin)%list_elem_of_In%in_concat. apply list_elem_of_In in Hx. apply list_elem_of_fmap in Hx as (b & -> & _). apply list_elem_of_In in Hin.
  by apply (escape_byte_no_flag b).
Qed.
Definition ready (d : Deframer) : Prop := flushed d = [].
Lemma cut_frames d raw n : ready d → (push d (take n (frame raw))).2 = [] ∨ (push d (take n (frame raw))).2 = [raw].
Proof.
  intros Hd. destruct (decide (length (frame raw) ≤ n)%nat) as [Hn|Hn].
  - rewrite take_ge by done. rewrite push_frame, Hd. case_decide; [by left|by right].
  - left. unfold frame in *. cbn [length] in Hn. rewrite length_app in Hn. cbn in Hn. destruct n as [|n]; [done|]. cbn [take].
    rewrite take_app_le by lia. rewrite push_cons, push_flag, Hd. cbn [app].
    pose proof (no_flag_no_frame (take n (concat (escape_byte <$> raw))) [] false) as H.
    destruct (push synced _) as [d' f]. cbn in *. apply H. intros Hin. apply (escaped_no_flag raw).
    rewrite <- (take_drop n (concat _)). set_solver.
Qed.
Lemma whole_frames l d : ready d → ∃ d', push d (concat (frame <$> l)) = (d', filter (λ p, p ≠ []) l) ∧ ready d'.
Proof.
  revert d. induction l as [|p l IH]; intros d Hd; [by exists d|]. rewrite fmap_cons. cbn [concat]. rewrite push_app, push_frame, Hd. cbn [app].
  destruct (IH synced eq_refl) as (d' & -> & Hr). exists d'. split; [|done]. rewrite filter_cons. destruct (decide (p = [])), (decide (p ≠ [])); done.
Qed.

(** A socket cut off is not written to again. *)
Lemma cut_stays trng σ σ' s k : streams_ok σ → any_step trng σ σ' → socks (conn σ) !! s = Some k → ¬ clean k →
  ∃ k', socks (conn σ') !! s = Some k' ∧ sent k' = sent k ∧ taken k' = taken k.
Proof.
  intros K (now & Hs) Hk Hc.
  assert (∀ c', same_streams (conn σ) c' → ∃ k', socks c' !! s = Some k' ∧ sent k' = sent k ∧ taken k' = taken k) as Hq by (intros c' (_ & _ & _ & H); eauto).
  assert (∀ s0 raw, writing (conn σ) = Some (s0, raw) → s ≠ s0) as Hw.
  { intros s0 raw Ew. apply (st_writing _ K) in Ew. destruct (st_writer _ K s0 (or_introl Ew)) as (k0 & Hk0 & Hc0).
    intros ->. by simplify_eq. }
  destruct Hs as [H|H].
  - destruct H as [b E|u b E Hu|h b w up E|h b r E|s0 r E H|s0 E|s0 E|s0 d E|s0 d r E|E]; try (apply Hq; by apply same_streams_eq).
    + destruct r; try (apply Hq; by apply same_streams_eq). exists k. split; [|done]. cbn. by apply lookup_app_l_Some.
    + unfold mgr_arm in H. destruct (writing (conn σ)); [done|]. simplify_eq. by exists k.
    + unfold mgr_look. destruct (connected _); apply Hq; [apply same_streams_refl|apply leave_same].
    + unfold mgr_read. destruct r; cbn [fst]; try (apply Hq; eapply same_streams_trans; [apply note_same|apply leave_same]); [|apply Hq, same_streams_refl].
      destruct (push d bs). by exists k.
    + unfold mgr_close. cbn. destruct (writing (conn σ)); by exists k.
  - destruct H as [raw c H| |n|k0 c out H| |cur w c b H|a|].
    + unfold write_begins in H. destruct (writing (conn σ)); [done|]. destruct (writer (conn σ)); [|done]. simplify_eq. by exists k.
    + exists k. split; [|done]. cbn. unfold write_done. destruct (writing (conn σ)) as [[s0 raw]|] eqn:E; [|done]. cbn. rewrite alter_other; [done|by eapply Hw].
    + exists k. split; [|done]. cbn. unfold write_failed. destruct (writing (conn σ)) as [[s0 raw]|] eqn:E; [|done]. cbn. set (c1 := on_sock s0 _ _).
      assert (socks (note_disconnect "write failed" c1) = socks c1) as -> by (unfold note_disconnect; by destruct (disconnect_reason c1)).
      subst c1. cbn. rewrite !alter_other; [done|by eapply Hw..].
    + apply Hq. by eapply tick_same.
    + apply Hq. cbn. unfold on_wake. destruct (hub_enabled _); [apply force_same|apply same_streams_refl].
    + apply Hq. by eapply wifi_same.
    + apply Hq. cbn. unfold user_connect. eapply same_streams_trans; [|apply force_same]. by apply same_streams_eq.
    + apply Hq. cbn. unfold user_hub_off. eapply same_streams_trans; [|apply force_same]. by apply same_streams_eq.
Qed.

(** ** A connection that went down *)

(** Only the manager's connecting brings the connection up. *)
Lemma force_down why c : connected (force_reconnect why c) = false.
Proof. unfold force_reconnect, note_disconnect. destruct (disconnect_reason c); cbn; by destruct (ctl c). Qed.
Lemma tick_down trng now k c k' c' out : watch_tick trng now k c = (k', c', out) → c' = c ∨ connected c' = false.
Proof.
  unfold watch_tick. intros H. repeat (case_match; try (simplify_eq; first [right; apply force_down|by left])).
Qed.
Lemma other_down trng now σ σ' : other_step trng now σ σ' → connected (conn σ') = connected (conn σ) ∨ connected (conn σ') = false.
Proof.
  destruct 1 as [raw c H| |k|k c out H| |cur w c b H|a|]; cbn.
  - left. unfold write_begins in H. destruct (writing _); [done|]. destruct (writer _); [|done]. by simplify_eq.
  - left. unfold write_done. by destruct (writing _) as [[]|].
  - unfold write_failed. destruct (writing _) as [[]|]; [by right|by left].
  - apply tick_down in H as [->|H]; [by left|by right].
  - unfold on_wake. destruct (hub_enabled _); [right; apply force_down|by left].
  - unfold wifi_update in H. repeat (case_match; simplify_eq); first [right; apply force_down|by left].
  - right. apply force_down.
  - right. apply force_down.
Qed.
Lemma other_mgr trng now σ σ' : other_step trng now σ σ' → mgr σ' = mgr σ.
Proof. by destruct 1. Qed.
(** The steps the manager is from the top of its loop, once the connection is down. *)
Definition rank (m : Mgr) : option nat :=
  match m with Blocked _ _ => Some 4 | Looking _ _ => Some 3 | Closing => Some 2 | Asleep _ _ => Some 1 | Top _ => Some 0 | _ => None end%nat.
Lemma mgr_down now σ σ' n : mgr_step now σ σ' → connected (conn σ) = false → rank (mgr σ) = Some (S n) →
  connected (conn σ') = false ∧ ∃ m, rank (mgr σ') = Some m ∧ (m ≤ n)%nat.
Proof.
  intros H Hc Hr. destruct H as [b E|u b E Hu|h b w up E|h b r E|s r E H|s E|s E|s d E|s d r E|E]; rewrite E in Hr; simplify_eq/=.
  - split; [done|]. exists 0%nat. auto.
  - unfold mgr_look. rewrite Hc. split; [done|]. by exists 2%nat.
  - unfold mgr_read. destruct r; cbn [fst]; try (split; [done|]; by exists 2%nat; split; [|lia]).
    + destruct (push d bs). split; [done|]. exists 3%nat. auto.
    + split; [done|]. exists 3%nat. auto.
  - split; [by destruct (writing (conn σ))|]. exists 1%nat. auto.
Qed.
Lemma mgr_enabled σ n : rank (mgr σ) = Some n → ∃ now σ', mgr_step now σ σ'.
Proof.
  destruct (mgr σ) as [b|u b|h b w|h b|s|s|s|s d|s d|] eqn:E; try done; intros _.
  - exists 0. eexists. by eapply ms_top.
  - exists u. eexists. by eapply ms_wake.
  - exists 0. eexists. by eapply ms_look.
  - exists 0. eexists. by eapply (ms_read _ _ s d Quiet).
  - exists 0. eexists. by eapply ms_close.
Qed.
(** A run with [n] steps of the manager, up to the top of its loop. *)
Inductive going_down (trng : bool) : nat → HubSys → HubSys → Prop :=
  | gd_nil σ : going_down trng 0 σ σ
  | gd_mgr now n σ1 σ2 σ3 : (∀ b, mgr σ1 ≠ Top b) → mgr_step now σ1 σ2 → going_down trng n σ2 σ3 → going_down trng (S n) σ1 σ3
  | gd_other now n σ1 σ2 σ3 : other_step trng now σ1 σ2 → going_down trng n σ2 σ3 → going_down trng n σ1 σ3.
Lemma down_bounded trng n σ σ' r : going_down trng n σ σ' → connected (conn σ) = false → rank (mgr σ) = Some r →
  connected (conn σ') = false ∧ ∃ r', rank (mgr σ') = Some r' ∧ (n + r' ≤ r)%nat.
Proof.
  intros H. revert r. induction H as [σ|now n σ1 σ2 σ3 Ht Hm _ IH|now n σ1 σ2 σ3 Ho _ IH]; intros r Hc Hr.
  - split; [done|]. by exists r.
  - destruct r as [|r]; [destruct (mgr σ1) as [b| | | | | | | | |]; try done; by destruct (Ht b)|].
    destruct (mgr_down _ _ _ _ Hm Hc Hr) as (Hc2 & m & Hm2 & Hle). destruct (IH m Hc2 Hm2) as (Hc3 & r' & Hr' & Hle'). split; [done|]. exists r'. split; [done|]. lia.
  - apply IH; [|by rewrite (other_mgr _ _ _ _ Ho)]. destruct (other_down _ _ _ _ Ho) as [->|]; done.
Qed.

(** ** A hub that answers *)

(** What a prompt world does before a step at [now]: the watchdog ticks every [G] seconds, the
    hub has answered every probe older than [A] seconds, and the manager does not dwell
    between its last two steps of connecting. *)
Record prompt (G A now : Z) (σ : HubSys) : Prop := {
  pr_tick : now ≤ last_wall (watch σ) + G;
  pr_answer : connected (conn σ) = true → ∀ p, p ∈ probes σ → p + A < now → p ≤ last_inbound (conn σ);
  pr_connect : ∀ s, mgr σ = Connecting s → now ≤ last_inbound (conn σ) + G;
}.
Inductive prompt_run (G A : Z) : Z → HubSys → Z → HubSys → Prop :=
  | pr_nil t σ : prompt_run G A t σ t σ
  | pr_cons t now σ σ1 t' σ' : t ≤ now < 2 ^ 32 → prompt G A now σ → hub_step true now σ σ1 → prompt_run G A now σ1 t' σ' → prompt_run G A t σ t' σ'.

(** At [t]: a connection silent for long at the last tick has been probed soon after it fell
    silent. *)
Record watched (G t : Z) (σ : HubSys) : Prop := {
  wd_time : 0 ≤ last_wall (watch σ) ≤ t ∧ last_probe (watch σ) ≤ last_wall (watch σ) ∧ last_inbound (conn σ) ≤ t;
  wd_mgr : connected (conn σ) = true → match mgr σ with Looking _ _ | Blocked _ _ => True | _ => False end;
  wd_probe : connected (conn σ) = true ∨ (∃ s, mgr σ = Connecting s) → last_inbound (conn σ) < last_probe (watch σ) → PROBE_AFTER_SECS < last_probe (watch σ) - last_inbound (conn σ);
  wd_probed : connected (conn σ) = true → PROBE_AFTER_SECS < last_wall (watch σ) - last_inbound (conn σ) →
    ∃ p, p ∈ probes σ ∧ last_inbound (conn σ) < p ≤ last_inbound (conn σ) + PROBE_AFTER_SECS + G;
}.
Lemma u32_small now : 0 ≤ now < 2 ^ 32 → u32 now = now.
Proof. apply Z.mod_small. Qed.
Lemma watched_later G t t' σ : t ≤ t' → watched G t σ → watched G t' σ.
Proof. intros Ht [H1 H2 H3 H4]. split; [lia|done..]. Qed.
(** The connection is unchanged or down. *)
Lemma watched_down G t σ σ' : watched G t σ → watch σ' = watch σ → probes σ' = probes σ → mgr σ' = mgr σ →
  last_inbound (conn σ') = last_inbound (conn σ) → connected (conn σ') = connected (conn σ) ∨ connected (conn σ') = false → watched G t σ'.
Proof.
  intros [H1 H2 H3 H4] E1 E2 E3 E4 Hc. split; rewrite ?E1, ?E2, ?E3, ?E4; [done|..].
  - intros H. apply H2. destruct Hc as [<-|Hc]; congruence.
  - intros [H|H]; apply H3; [left; destruct Hc as [<-|Hc]; congruence|by right].
  - intros H. apply H4. destruct Hc as [<-|Hc]; congruence.
Qed.
Lemma force_inbound why c : last_inbound (force_reconnect why c) = last_inbound c.
Proof. unfold force_reconnect, note_disconnect. destruct (disconnect_reason c); cbn; by destruct (ctl c). Qed.
Lemma tick_keeps G A t now σ k c out : G + A ≤ 60 → 0 ≤ A → watched G t σ → t ≤ now < 2 ^ 32 → prompt G A now σ → connected (conn σ) = true →
  since now (last_inbound (conn σ)) ≤ DEAD_AFTER_SECS ∧
  (PROBE_AFTER_SECS < now - last_inbound (conn σ) → last_wall (watch σ) - last_inbound (conn σ) ≤ PROBE_AFTER_SECS →
     watch_tick true now (watch σ) (conn σ) = (k, c, out) → connected c = true → Probe ∈ out ∧ last_probe k = now).
Proof.
  intros HG HA [H1 H2 H3 H4] Ht [Hp1 Hp2 Hp3] Hc. unfold since, DEAD_AFTER_SECS, PROBE_AFTER_SECS in *. rewrite u32_small by lia. split.
  - destruct (decide (180 < last_wall (watch σ) - last_inbound (conn σ))) as [Hw|Hw]; [|lia].
    destruct (H4 Hc Hw) as (p & Hp & Hle). destruct (decide (p + A < now)) as [Ha|Ha]; [|lia]. specialize (Hp2 Hc p Hp Ha). lia.
  - intros Hs Hw. unfold watch_tick, since, SUSPEND_GAP_SECS, WRITE_STUCK_SECS, DEAD_AFTER_SECS, PROBE_AFTER_SECS, PROBE_MIN_INTERVAL_SECS. rewrite u32_small by lia. rewrite Hc.
    destruct (_ && true); [intros [= <- <- <-]; by rewrite force_down|]. destruct (_ && _); [intros [= <- <- <-]; by rewrite force_down|].
    destruct (_ && _); [intros [= <- <- <-]; by rewrite force_down|]. cbn [andb].
    assert (last_probe (watch σ) ≤ last_inbound (conn σ)) as Hlp.
    { destruct (decide (last_inbound (conn σ) < last_probe (watch σ))) as [Hl|Hl]; [|lia]. specialize (H3 (or_introl Hc) Hl). lia. }
    rewrite (proj2 (Z.ltb_lt 180 _)) by lia. cbn [last_probe]. rewrite (proj2 (Z.leb_le 20 _)) by lia. cbn [andb].
    intros [= <- <- <-] _. split; [set_solver|done].
Qed.
Lemma watched_tick G A t now σ k c out : G + A ≤ 60 → 0 ≤ A → watched G t σ → t ≤ now < 2 ^ 32 → prompt G A now σ →
  watch_tick true now (watch σ) (conn σ) = (k, c, out) →
  watched G now (mkHub c (mgr σ) k (wifi σ) (probes σ ++ if bool_decide (Probe ∈ out) then [now] else [])).
Proof.
  intros HG HA Hw Ht Hp H.
  assert (last_wall k = now ∧ last_inbound c = last_inbound (conn σ) ∧
    (last_probe k = last_probe (watch σ) ∨ (last_probe k = now ∧ connected (conn σ) = true ∧ PROBE_AFTER_SECS < since now (last_inbound (conn σ))))) as (E1 & E2 & E3).
  { clear -H Ht Hw. destruct Hw as [Hw _ _ _]. unfold watch_tick in H. rewrite u32_small in H by lia.
    repeat (case_match; simplify_eq/=; rewrite ?force_inbound; try (split; [done|]; split; [done|]; by left)).
    split; [done|]. split; [done|]. right. split; [done|]. split; [done|].
    match goal with X : _ && _ = true |- _ => apply andb_true_iff in X as [X _] end. by apply Z.ltb_lt. }
  pose proof (tick_down _ _ _ _ _ _ _ H) as Hc. pose proof (tick_keeps G A t now σ k c out HG HA Hw Ht Hp) as Hk. destruct Hw as [H1 H2 H3 H4].
  assert (since now (last_inbound (conn σ)) = Z.max (now - last_inbound (conn σ)) 0) as Es by (unfold since; by rewrite u32_small by lia).
  unfold PROBE_AFTER_SECS in *. split; unfold PROBE_AFTER_SECS; cbn; rewrite ?E1, ?E2.
  - destruct E3 as [->|[-> _]]; lia.
  - intros Hcc. apply H2. destruct Hc as [->|]; congruence.
  - intros Hcc Hl. destruct E3 as [E3|(-> & _ & Hl2)]; [|lia]. rewrite E3 in *. apply H3; [|lia].
    destruct Hcc as [Hcc|]; [left; destruct Hc as [->|]; congruence|by right].
  - intros Hcc Hl. assert (c = conn σ) as -> by (destruct Hc; [done|congruence]). destruct (Hk Hcc) as [_ Hpr].
    destruct (decide (180 < last_wall (watch σ) - last_inbound (conn σ))) as [Hold|Hold].
    + destruct (H4 Hcc Hold) as (p & Hin & Hle). exists p. split; [set_solver|done].
    + destruct (Hpr Hl ltac:(lia) H Hcc) as [Hin _]. rewrite bool_decide_eq_true_2 by done. exists now. split; [set_solver|]. destruct Hp as [Hp _ _]. lia.
Qed.
Lemma watched_other G A t now σ σ' : G + A ≤ 60 → 0 ≤ A → watched G t σ → t ≤ now < 2 ^ 32 → prompt G A now σ → other_step true now σ σ' → watched G now σ'.
Proof.
  intros HG HA Hw Ht Hp H. pose proof (other_down _ _ _ _ H) as Hc. destruct H as [raw c H| |k|k c out H| |cur w c b H|a|]; try (by eapply watched_tick);
    apply (watched_later G t); try lia; apply (watched_down G t σ); try done; cbn.
  - unfold write_begins in H. destruct (writing _); [done|]. destruct (writer _); [|done]. by simplify_eq.
  - unfold write_done. by destruct (writing _) as [[]|].
  - unfold write_failed. destruct (writing _) as [[s raw]|]; [|done]. cbn. unfold note_disconnect. by destruct (disconnect_reason _).
  - unfold on_wake. destruct (hub_enabled _); [apply force_inbound|done].
  - unfold wifi_update in H. repeat (case_match; simplify_eq); rewrite ?force_inbound; done.
  - unfold user_connect. by rewrite force_inbound.
  - unfold user_hub_off. by rewrite force_inbound.
Qed.
Lemma watched_mgr G A t now σ σ' : G + A ≤ 60 → 0 ≤ A → watched G t σ → t ≤ now < 2 ^ 32 → prompt G A now σ → mgr_step now σ σ' → watched G now σ'.
Proof.
  intros HG HA [H1 H2 H3 H4] Ht [Hp1 Hp2 Hp3] H. unfold PROBE_AFTER_SECS in *.
  assert (∀ m c, connected c = false → (∀ s, m ≠ Connecting s) → last_inbound c = last_inbound (conn σ) → watched G now (with_mgr (m, c) σ)) as Hdown.
  { intros m c Hc Hm Hi. split; cbn; rewrite ?Hi, ?Hc; [lia|done| |done]. intros [?|[s ?]]; [done|]. by destruct (Hm s). }
  assert (∀ m, mgr σ = m → (match m with Looking _ _ | Blocked _ _ => False | _ => True end) → connected (conn σ) = false) as Hf.
  { intros m <- Hm. destruct (connected (conn σ)) eqn:Ec; [|done]. specialize (H2 eq_refl). by destruct (mgr σ). }
  destruct H as [b E|u b E Hu|h b w up E|h b r E|s r E H|s E|s E|s d E|s d r E|E]; try (pose proof (Hf _ E I) as Hc).
  - apply Hdown; [done| |done]. intros s. unfold mgr_top. repeat case_match; done.
  - by apply Hdown.
  - apply Hdown; [done| |done]. by destruct up.
  - destruct r; by apply Hdown.
  - unfold mgr_arm in H. destruct (writing (conn σ)); [done|]. simplify_eq. by apply Hdown.
  - split; unfold PROBE_AFTER_SECS; cbn; rewrite ?u32_small by lia; [lia|congruence|intros _; lia|congruence].
  - specialize (Hp3 s E). split; unfold PROBE_AFTER_SECS; cbn; [lia|done|intros _; apply H3; right; by exists s|intros _; lia].
  - unfold mgr_look. destruct (connected (conn σ)) eqn:Ec; [|by apply Hdown]. split; unfold PROBE_AFTER_SECS; cbn; rewrite ?Ec; [lia|done|intros _; apply H3; by left|intros _; by apply H4].
  - unfold mgr_read. destruct r; cbn [fst].
    + unfold note_disconnect. apply Hdown; [done|done|]. by destruct (disconnect_reason _).
    + destruct (push d bs). split; unfold PROBE_AFTER_SECS; cbn; rewrite ?u32_small by lia; [lia|done|intros _; lia|intros _; lia].
    + split; cbn; [lia|done| |done]. intros [Hc|[s' ?]]; [apply H3; by left|done].
    + unfold note_disconnect. apply Hdown; [done|done|]. by destruct (disconnect_reason _).
  - apply Hdown; [by destruct (writing (conn σ))|done|by destruct (writing (conn σ))].
Qed.
Lemma prompt_watched G A t σ t' σ' : G + A ≤ 60 → 0 ≤ A → prompt_run G A t σ t' σ' → watched G t σ → watched G t' σ'.
Proof.
  intros HG HA H. induction H as [|t now σ σ1 t' σ' Ht Hp [Hs|Hs] _ IH]; intros Hw; [done|apply IH; by eapply watched_mgr|apply IH; by eapply watched_other].
Qed.

(** ** Properties *)

(** C24: The hub reads what was written.  Whatever the threads do, the packets the hub takes from
    the bytes of a connection, however they are split into reads, are those whose [hub_write]
    returned true, in order and without the empty keepalives, and after them at most one more,
    of a write that failed; that write shuts the connection down, and nothing is written to it
    again. *)
Theorem hub_reads_written (trng : bool) (h : bytes) (e : bool) (now : Z) (σ : HubSys) (s : nat) (k : Socket) (reads : list bytes)
  (Hr : rtc (any_step trng) (hub_start h e now) σ) (Hk : socks (conn σ) !! s = Some k) (Hreads : concat reads = sent k) :
  ∃ more, (push_reads Hdlc.new reads).2 = filter (λ p, p ≠ []) (taken k) ++ more ∧ (length more ≤ 1)%nat ∧
    (more ≠ [] → shut k = true ∧ writer (conn σ) ≠ Some s ∧
      ∀ σ', rtc (any_step trng) σ σ' → ∃ k', socks (conn σ') !! s = Some k' ∧ sent k' = sent k ∧ taken k' = taken k).
Proof.
  pose proof (reachable_streams trng h e now σ Hr) as K. rewrite push_reads_concat, Hreads.
  destruct (whole_frames (taken k) Hdlc.new eq_refl) as (d & Hd & Hrd). destruct (decide (sent k = concat (frame <$> taken k))) as [Hc|Hc].
  { exists []. rewrite Hc, Hd, app_nil_r. split; [done|]. split; [cbn; lia|done]. }
  destruct (st_socks _ K s k Hk) as [?|[Hsh (n & raw & Hs)]]; [done|]. rewrite Hs, push_app, Hd.
  pose proof (cut_frames d raw n Hrd) as Hm. destruct (push d (take n (frame raw))) as [d' more]. exists more. cbn in Hm |- *.
  split; [done|]. split; [destruct Hm as [->| ->]; cbn; lia|]. intros _. split; [done|]. split.
  - intros Hw. destruct (st_writer _ K s (or_introl Hw)) as (k0 & Hk0 & Hc0). by simplify_eq.
  - rewrite <- Hs. clear Hs Hsh Hd Hreads Hm Hr. intros σ' Hr. revert k Hk Hc. induction Hr as [σ|σ1 σ2 σ3 Hst _ IH]; intros k Hk Hc; [eauto|].
    destruct (cut_stays trng σ1 σ2 s k K Hst Hk Hc) as (k2 & Hk2 & E1 & E2).
    assert (streams_ok σ2) as K2 by (destruct Hst as (t & [Hst|Hst]); [by eapply manager_ok|by eapply other_ok]).
    destruct (IH K2 k2 Hk2) as (k3 & Hk3 & F1 & F2); [unfold clean in *; congruence|]. exists k3. split; [done|]. split; congruence.
Qed.


(** A quiet connection is kept.  If the watchdog ticks at most every [G] seconds, the hub answers
    its probes within [A] seconds and [G + A] is at most 60, then no tick ever takes the
    connection down, however long the hub has nothing to say, unless a write is stuck. *)
Theorem quiet_hub_kept (G A : Z) (h : bytes) (e : bool) (t0 t' now : Z) (σ' : HubSys) (k : Watch) (c : Conn) (out : list WatchSend)
  (HG : G + A ≤ 60) (HA : 0 ≤ A) (H0 : 0 ≤ t0) (Hr : prompt_run G A t0 (hub_start h e t0) t' σ') (Hn : t' ≤ now < 2 ^ 32) (Hp : prompt G A now σ')
  (Hw : write_started (conn σ') = 0 ∨ since now (write_started (conn σ')) ≤ WRITE_STUCK_SECS)
  (Ht : watch_tick true now (watch σ') (conn σ') = (k, c, out)) :
  c = conn σ'.
Proof.
  assert (watched G t0 (hub_start h e t0)) as W0 by (split; cbn; [lia|done|by intros [?|[? ?]]|done]).
  pose proof (prompt_watched G A t0 _ t' σ' HG HA Hr W0) as W. unfold watch_tick in Ht.
  assert (negb (write_started (conn σ') =? 0) && (WRITE_STUCK_SECS <? since now (write_started (conn σ'))) = false) as Es.
  { destruct Hw as [->|Hw]; [done|]. rewrite (proj2 (Z.ltb_ge _ _) Hw). apply andb_false_r. }
  rewrite Es in Ht. destruct (connected (conn σ')) eqn:Ec; [|rewrite andb_false_r in Ht; by simplify_eq].
  destruct (tick_keeps G A t' now σ' k c out HG HA W Hn Hp Ec) as [Hs _].
  rewrite (proj2 (Z.ltb_ge _ _) Hs) in Ht. destruct Hp as [Hp _ _].
  rewrite (proj2 (Z.ltb_ge SUSPEND_GAP_SECS _)) in Ht by (unfold SUSPEND_GAP_SECS; lia). cbn [andb] in Ht.
  destruct (_ && _) in Ht; by simplify_eq/=.
Qed.

(** ** Four defects *)

(** The watchdog shoots at a stuck write once: the control clone is gone after the first time. *)
Lemma second_shot_misses why why' c : socks (force_reconnect why' (force_reconnect why c)) = socks (force_reconnect why c).
Proof.
  assert (ctl (force_reconnect why c) = None) as E by (unfold force_reconnect, note_disconnect; destruct (disconnect_reason c); cbn; by destruct (ctl c) eqn:?).
  unfold force_reconnect at 1. destruct (disconnect_reason (force_reconnect why c)) eqn:Er; unfold note_disconnect; rewrite Er; cbn; by rewrite E.
Qed.
(** While a write hangs, a manager that has dialled cannot set the new connection up. *)
Lemma stuck_write_wedges now σ σ' s x : mgr σ = Arming s → writing (conn σ) = Some x → ¬ mgr_step now σ σ'.
Proof. intros Hm Hw H. destruct H; try congruence. assert (s0 = s) as -> by congruence. unfold mgr_arm in *. by rewrite Hw in *. Qed.

(** The manager dials the old hub while the user sets another, or turns the hub off: it connects,
    and stays connected, to the old one. *)
Definition dialling : HubSys := mkHub (mkConn (ascii "old:4242") true false None None None 0 0 None []) (Dialing (ascii "old", 4242) 2) (mkWatch 0 0 0) (mkWifi None false 0) [].
Definition finish_dial (σ : HubSys) : Mgr * Conn :=
  let '(m, c) := mgr_dialed 10 Dialed (ascii "old", 4242) 2 (conn σ) in
  match mgr_arm 0 c with Some (_, c) => mgr_connect 0 (mgr_armed 10 0 c).2 | None => (m, c) end.
Lemma hub_change_lost : let c := (finish_dial (with_conn (user_connect (ascii "new:4242")) dialling)).2 in
  connected c = true ∧ hub c = ascii "new:4242" ∧ disconnect_reason c = None ∧ peer <$> (writer c ≫= λ s, socks c !! s) = Some (ascii "old", 4242).
Proof. vm_compute. auto. Qed.
Lemma hub_off_connects : let c := (finish_dial (with_conn user_hub_off dialling)).2 in
  connected c = true ∧ hub_enabled c = false ∧ is_Some (writer c).
Proof. vm_compute. eauto. Qed.

(** ** Witnesses *)

(** A connection is made, a packet and a keepalive are written, and a third write fails. *)
Definition wh_start : HubSys := hub_start (ascii "hub.example:4242") true 1000.
Definition wh_at (m : Mgr) (c : Conn) : HubSys := mkHub c m (mkWatch 0 1000 0) (mkWifi None false 0) [].
Definition wh_conn (l : list Socket) (w : option nat) (up : bool) : Conn :=
  mkConn (ascii "hub.example:4242") true up w w None 1000 0 None l.
Definition wh_up : HubSys := wh_at (Looking 0 Hdlc.new) (wh_conn [mkSocket (ascii "hub.example", 4242) [] [] false] (Some 0%nat) true).
Lemma wh_connects trng : rtc (any_step trng) wh_start wh_up.
Proof.
  eapply rtc_l; [exists 1000; left; by eapply ms_top|]. eapply rtc_l; [exists 1000; left; by eapply (ms_wifi _ _ (ascii "hub.example", 4242) 2 false true)|].
  eapply rtc_l; [exists 1000; left; by eapply (ms_dial _ _ (ascii "hub.example", 4242) 2 Dialed)|]. eapply rtc_l; [exists 1000; left; by eapply (ms_arm _ _ 0%nat)|].
  eapply rtc_l; [exists 1000; left; by eapply (ms_armed _ _ 0%nat)|]. eapply rtc_l; [exists 1000; left; by eapply (ms_connect _ _ 0%nat)|]. apply rtc_refl.
Qed.
Definition wh_cut : HubSys :=
  with_conn (write_failed 3) (with_conn (set_writing (Some (0%nat, [5; 6; 7])) 1003)
    (with_conn write_done (with_conn (set_writing (Some (0%nat, [1; 0x7e])) 1002)
      (with_conn write_done (with_conn (set_writing (Some (0%nat, [])) 1001) wh_up))))).
Lemma wh_writes trng : rtc (any_step trng) wh_up wh_cut.
Proof.
  unfold wh_cut. eapply rtc_l; [exists 1001; right; by apply (os_begin _ _ _ [])|]. eapply rtc_l; [exists 1001; right; apply os_done|].
  eapply rtc_l; [exists 1002; right; by apply (os_begin _ _ _ [1; 0x7e])|]. eapply rtc_l; [exists 1002; right; apply os_done|].
  eapply rtc_l; [exists 1003; right; by apply (os_begin _ _ _ [5; 6; 7])|]. eapply rtc_l; [exists 1003; right; apply (os_failed _ _ _ 3)|]. apply rtc_refl.
Qed.
Lemma hub_reads_written_witness : ∃ more,
  (push_reads Hdlc.new [[0x7e; 0x7e; 0x7e; 1]; [0x7d; 0x5e; 0x7e; 0x7e; 5; 6]]).2 = filter (λ p, p ≠ []) [[]; [1; 0x7e]] ++ more ∧ (length more ≤ 1)%nat.
Proof.
  destruct (hub_reads_written true (ascii "hub.example:4242") true 1000 wh_cut 0
    (mkSocket (ascii "hub.example", 4242) [0x7e; 0x7e; 0x7e; 1; 0x7d; 0x5e; 0x7e; 0x7e; 5; 6] [[]; [1; 0x7e]] true)
    [[0x7e; 0x7e; 0x7e; 1]; [0x7d; 0x5e; 0x7e; 0x7e; 5; 6]]) as (more & E & Hl & _).
  - etrans; [apply wh_connects|apply wh_writes].
  - vm_compute. reflexivity.
  - reflexivity.
  - exists more. split; [exact E|exact Hl].
Defined.

(** The hub has been silent for 300 seconds; the manager looks, closes and wakes. *)
Definition wh_dead : Conn := (watch_tick true 1300 (mkWatch 59 1295 1290) (conn wh_up)).1.2.
Definition wh_sys : HubSys := mkHub (conn wh_up) (mgr wh_up) (mkWatch 59 1295 1290) (mkWifi None false 0) [1290].
Definition wh_tick : Watch := (watch_tick true 1300 (mkWatch 59 1295 1290) (conn wh_up)).1.1.
Definition wh_down : HubSys := mkHub wh_dead (mgr wh_up) wh_tick (mkWifi None false 0) [1290].
Definition wh_end : HubSys := with_mgr (Top 4, (mgr_close 1301 (leave wh_dead).2).2) wh_down.
Lemma wh_goes_down : going_down true 3 wh_down wh_end.
Proof.
  eapply (gd_mgr _ 1300); [done|by eapply ms_look|]. eapply (gd_mgr _ 1301); [done|by eapply ms_close|]. eapply (gd_mgr _ 1303); [done|by eapply ms_wake|]. apply gd_nil.
Qed.

(** Ticks at most 50 seconds apart; the one at 1200 probes the hub, which answers at 1205. *)
Definition wq_conn (t : Z) : Conn := mkConn (ascii "hub.example:4242") true true (Some 0%nat) (Some 0%nat) None t 0 None [mkSocket (ascii "hub.example", 4242) [] [] false].
Definition wq_sys (m : Mgr) (inbound n wall probe : Z) (ps : list Z) : HubSys := mkHub (wq_conn inbound) m (mkWatch n wall probe) (mkWifi None false 0) ps.
Lemma wq_prompt m i n wall probe ps now : now ≤ wall + 50 → (∀ s, m ≠ Connecting s) → Forall (λ p, p + 10 < now → p ≤ i) ps → prompt 50 10 now (wq_sys m i n wall probe ps).
Proof. intros H1 H2 H3. split; [done|intros _ p Hp; by apply (proj1 (Forall_forall _ _) H3)|]. intros s Hs. by destruct (H2 s). Qed.
Lemma wq_step m i n wall probe ps m' i' n' wall' probe' ps' t now t' σ' : t ≤ now < 2 ^ 32 → now ≤ wall + 50 → (∀ s, m ≠ Connecting s) → Forall (λ p, p + 10 < now → p ≤ i) ps →
  hub_step true now (wq_sys m i n wall probe ps) (wq_sys m' i' n' wall' probe' ps') → prompt_run 50 10 now (wq_sys m' i' n' wall' probe' ps') t' σ' →
  prompt_run 50 10 t (wq_sys m i n wall probe ps) t' σ'.
Proof. intros. eapply pr_cons; [done|by apply wq_prompt|done|done]. Qed.
Lemma wq_start : ∀ t' σ', prompt_run 50 10 1000 (wq_sys (Looking 0 Hdlc.new) 1000 0 1000 0 []) t' σ' → prompt_run 50 10 1000 wh_start t' σ'.
Proof.
  assert (∀ m c, (∀ s, m = Connecting s → last_inbound c = 1000) → prompt 50 10 1000 (wh_at m c)) as Hp.
  { intros m c Hm. split; cbn; [lia|intros _ p Hin; by apply not_elem_of_nil in Hin|]. intros s ->. rewrite (Hm s eq_refl). lia. }
  intros t' σ' H. eapply (pr_cons _ _ _ 1000); [lia|by apply Hp|left; by eapply ms_top|]. eapply (pr_cons _ _ _ 1000); [lia|by apply Hp|left; by eapply (ms_wifi _ _ (ascii "hub.example", 4242) 2 false true)|].
  eapply (pr_cons _ _ _ 1000); [lia|by apply Hp|left; by eapply (ms_dial _ _ (ascii "hub.example", 4242) 2 Dialed)|]. eapply (pr_cons _ _ _ 1000); [lia|by apply Hp|left; by eapply (ms_arm _ _ 0%nat)|].
  eapply (pr_cons _ _ _ 1000); [lia|by apply Hp|left; by eapply (ms_armed _ _ 0%nat)|]. eapply (pr_cons _ _ _ 1000); [lia|by apply Hp|left; by eapply (ms_connect _ _ 0%nat)|]. exact H.
Qed.
Definition wq_end : HubSys := wq_sys (Looking 0 (Hdlc.push Hdlc.new [0x7e; 9; 0x7e]).1) 1205 4 1200 1200 [1200].
Lemma wq_run : prompt_run 50 10 1000 wh_start 1205 wq_end.
Proof.
  apply wq_start. set (m := Looking 0 Hdlc.new).
  apply (wq_step m 1000 0 1000 0 [] m 1000 1 1050 0 [] _ 1050); [lia|lia|done|constructor|right; exact (os_tick true 1050 (wq_sys m 1000 0 1000 0 []) _ _ _ eq_refl)|].
  apply (wq_step m 1000 1 1050 0 [] m 1000 2 1100 0 [] _ 1100); [lia|lia|done|constructor|right; exact (os_tick true 1100 (wq_sys m 1000 1 1050 0 []) _ _ _ eq_refl)|].
  apply (wq_step m 1000 2 1100 0 [] m 1000 3 1150 0 [] _ 1150); [lia|lia|done|constructor|right; exact (os_tick true 1150 (wq_sys m 1000 2 1100 0 []) _ _ _ eq_refl)|].
  apply (wq_step m 1000 3 1150 0 [] m 1000 4 1200 1200 [1200] _ 1200); [lia|lia|done|constructor|right; exact (os_tick true 1200 (wq_sys m 1000 3 1150 0 []) _ _ _ eq_refl)|].
  apply (wq_step m 1000 4 1200 1200 [1200] (Blocked 0 Hdlc.new) 1000 4 1200 1200 [1200] _ 1201);
    [lia|lia|done|apply Forall_singleton; lia|left; by apply (ms_look 1201 (wq_sys m 1000 4 1200 1200 [1200]) 0 Hdlc.new)|].
  apply (wq_step (Blocked 0 Hdlc.new) 1000 4 1200 1200 [1200] (Looking 0 (Hdlc.push Hdlc.new [0x7e; 9; 0x7e]).1) 1205 4 1200 1200 [1200] _ 1205);
    [lia|lia|done|apply Forall_singleton; lia|left; by apply (ms_read 1205 (wq_sys (Blocked 0 Hdlc.new) 1000 4 1200 1200 [1200]) 0 Hdlc.new (Bytes [0x7e; 9; 0x7e]))|].
  apply pr_nil.
Qed.
Lemma quiet_hub_kept_witness : (watch_tick true 1250 (watch wq_end) (conn wq_end)).1.2 = conn wq_end.
Proof.
  apply (quiet_hub_kept 50 10 (ascii "hub.example:4242") true 1000 1205 1250 wq_end (watch_tick true 1250 (watch wq_end) (conn wq_end)).1.1 _ (watch_tick true 1250 (watch wq_end) (conn wq_end)).2).
  - lia.
  - lia.
  - lia.
  - exact wq_run.
  - lia.
  - apply wq_prompt; [lia|done|]. apply Forall_singleton. lia.
  - left. reflexivity.
  - vm_compute. reflexivity.
Defined.
