(* ===== verification/ChatView.v ===== *)
(** The conversation on screen ([chat/src/ui.rs]: [post_select] and [layout], with the keys of
    [chat/src/lib.rs]): which post is selected, which posts are laid out and where their bubbles
    are drawn.

    A post is here what the layout keeps of it, the height of its bubble once it was measured.
    What the graphics server measures or draws now, and the size of the canvas, which changes with
    the input box, are arguments. *)
From S2P Require Import Prelude.

(** The height of the area below the status bar, the height of the status bar, the vertical margin
    of a bubble and the space between bubbles. *)
Record Canvas := mkCanvas { layout_y : Z; status_y : Z; bubble_margin : Z; bubble_gap : Z }.
(** [boxes]: the measured height of each post of the open dialogue, if it was measured. *)
Record View := mkView { boxes : list (option Z); selected : option nat; range : list nat; topdown : bool }.

Definition post_last (v : View) : option nat := match length (boxes v) with O => None | S n => Some n end.
(** A dialogue of [n] posts is read; an empty one is made in the place of one that cannot be read,
    and then the selection and the range stay as they were. *)
Definition view_read (n : nat) : View := mkView (replicate n None) (match n with O => None | S k => Some k end) [] false.
Definition view_new (v : View) : View := mkView [] (selected v) (range v) (topdown v).
(** A post is added as the [i]-th, and the [k] oldest posts are dropped; the first one is not
    measured.  [h]: what is measured for it. *)
Definition view_post_add (i k : nat) (h : option Z) (v : View) : View :=
  let l := match boxes v with [] => [None] | l => drop k (take i l ++ h :: drop i l) end in
  mkView l (selected v) (range v) (topdown v).

(** ** The selection *)
Inductive Select := SelectNext | SelectPrev | SelectAt (i : nat).
Inductive EdgeEvent := EvTop | EvBottom.
(** The last component: what the application is told. *)
Definition post_select (k : Select) (v : View) : View * option EdgeEvent :=
  let '(s, ev) :=
    match post_last v with
    | None => (None, None)
    | Some last =>
        match k, selected v with
        | SelectNext, Some s => if (last <=? s)%nat then (Some last, Some EvBottom) else (Some (S s), None)
        | SelectPrev, Some s => match s with O => (Some O, Some EvTop) | S s' => (Some s', None) end
        | SelectAt i, _ => (Some (i `min` last)%nat, None)
        | _, None => (Some last, None)
        end
    end in
  (mkView (boxes v) s (range v) (topdown v), ev).

(** ** The range of posts to draw *)
Section layout.
Context (vp : Canvas) (measure : nat → option Z).

(** What a post takes of the screen: its height, measured now if it never was, and the space
    around it; nothing if it cannot be measured. *)
Definition next_height (l : list (option Z)) (i : nat) : Z :=
  match match mjoin (l !! i) with Some h => Some h | None => measure i end with
  | Some h => h + bubble_gap vp + bubble_margin vp
  | None => 0
  end.
(** The place in the window of the first post that is too much for the screen. *)
Fixpoint search (cost : nat → Z) (total : Z) (window : list nat) : option nat :=
  match window with
  | [] => None
  | i :: w => if layout_y vp mod 2 ^ 32 <? total + cost i then Some O else S <$> search cost (total + cost i) w
  end.
(** The posts that the search looked at are measured. *)
Definition measured (l : list (option Z)) (seen : list nat) : list (option Z) :=
  foldl (λ l i, alter (λ b, match b with Some h => Some h | None => measure i end) i l) l seen.
(** [collect] of the unbounded range [starting_at..] panics: its capacity overflows. *)
Definition collect_unbounded (start : nat) : res (list nat) := Panic.
Definition range_min (r : list nat) : nat := match r with [] => O | i :: r => foldr Nat.min i r end.

(** Steps 1 and 2: the range is kept while it has the selected post. *)
Definition search_required (v : View) : bool :=
  match selected v with Some s => negb (bool_decide (s ∈ range v)) | None => true end.
Definition layout_range (v : View) : res View :=
  if negb (search_required v) then mret v
  else
    let '(start, down) :=
      match selected v with
      | Some s => (s, match range v with [] => false | r => (s <=? range_min r)%nat end)
      | None => (default O (post_last v), false)
      end in
    let n := length (boxes v) in
    window ← (if down then if (start <=? n)%nat then mret (seq start (n - start)) else Panic
              else if (0 <? n)%nat then if (start <? n)%nat then mret (reverse (seq 0 (S start))) else Panic
              else mret []);
    let found := search (next_height (boxes v)) 0 window in
    let seen := match found with Some i => take (S i) window | None => window end in
    let r := match found with
             | Some i => if down then seq start i else reverse (seq (start - i) (S i))
             | None => []
             end in
    r ← match r with
        | _ :: _ => mret r
        | [] => if down then collect_unbounded start
                else mret (if (0 <? n)%nat then reverse (seq 0 (S start)) else [])
        end;
    mret (mkView (measured (boxes v) seen) (selected v) r down).

(** ** The bubbles (step 4) *)

(** A bubble on screen: its post, its first row and the row below it, and whether it is
    highlighted. *)
Record Bubble := mkBubble { b_post : nat; b_top : Z; b_bottom : Z; b_hilite : bool }.
(** [drawn]: the height that the graphics server drew; [None]: it drew nothing. *)
Fixpoint draw (drawn : nat → option Z) (v : View) (y : Z) (r : list nat) : res (list Bubble) :=
  match r with
  | [] => mret []
  | i :: r =>
      match boxes v !! i with
      | None => draw drawn v y r
      | Some box =>
          match drawn i with
          | None => draw drawn v y r
          | Some h =>
              _ ← expect box;
              let y' := if topdown v then y + h else y - h in
              let b := mkBubble i (Z.min y y') (Z.max y y') (bool_decide (selected v = Some i)) in
              if (layout_y vp + status_y vp <? y') || (y' <? status_y vp) then mret [b]
              else
                let gap := bubble_gap vp + bubble_margin vp in
                bs ← draw drawn v (if topdown v then y' + gap else y' - gap) r; mret (b :: bs)
          end
      end
  end.
Definition layout (drawn : nat → option Z) (v : View) : res (View * list Bubble) :=
  v ← layout_range v;
  _ ← (if (length (boxes v) =? 0)%nat || negb (length (range v) =? 0)%nat then mret () else Panic);
  let y := if topdown v then status_y vp + bubble_margin vp else status_y vp + layout_y vp - bubble_margin vp in
  bs ← draw drawn v y (range v);
  mret (v, bs).
(** A key of the conversation view: [↑], [↓] or a redraw. *)
Definition press (drawn : nat → option Z) (k : option Select) (v : View) : res (View * list Bubble) :=
  layout drawn (match k with Some k => (post_select k v).1 | None => v end).
End layout.
