(* ===== verification/ChatViewProps.v ===== *)
(** What scrolling through a conversation shows, and exactly when it panics. *)
From S2P Require Import Prelude ChatView.

(** The area for bubbles as the search compares with it. *)
Definition area (vp : Canvas) : Z := layout_y vp mod 2 ^ 32.

Section search.
Context (vp : Canvas) (cost : nat → Z) (Hc : ∀ i, 0 ≤ cost i).
Lemma search_none total w : total ≤ area vp → search vp cost total w = None ↔ total + zsum cost w ≤ area vp.
Proof.
  unfold area. revert total. induction w as [|i w IH]; intros total Ht; simpl; [split; [lia|done]|].
  destruct (Z.ltb_spec (layout_y vp mod 2 ^ 32) (total + cost i)).
  - split; [done|]. pose proof (zsum_nonneg cost w Hc). lia.
  - rewrite fmap_None, IH by lia. lia.
Qed.
(** The posts before the place found fit, and with its post they do not. *)
Lemma search_some total w k : total ≤ area vp → search vp cost total w = Some k →
  (k < length w)%nat ∧ total + zsum cost (take k w) ≤ area vp < total + zsum cost (take (S k) w).
Proof.
  unfold area. revert total k. induction w as [|i w IH]; intros total k Ht; [done|]. simpl.
  destruct (Z.ltb_spec (layout_y vp mod 2 ^ 32) (total + cost i)).
  - intros [= <-]. simpl. rewrite ?firstn_O. simpl. lia.
  - intros (k'&E&->)%fmap_Some. apply IH in E as (?&?&?); [|lia]. simpl. split; [lia|]. simpl in *. lia.
Qed.
Lemma search_first total i w : search vp cost total (i :: w) = Some O ↔ area vp < total + cost i.
Proof. unfold area. simpl. destruct (Z.ltb_spec (layout_y vp mod 2 ^ 32) (total + cost i)); [done|]. split; [by intros (?&?&?)%fmap_Some|lia]. Qed.
End search.

(** ** Measuring *)
Section measured.
Context (m : nat → Z).
Lemma length_measured l seen : length (measured (λ i, Some (m i)) l seen) = length l.
Proof. unfold measured. revert l. induction seen as [|i seen IH]; intros l; [done|]. simpl. rewrite IH. apply length_alter. Qed.
Lemma measured_kept l seen i h : l !! i = Some (Some h) → measured (λ i, Some (m i)) l seen !! i = Some (Some h).
Proof.
  unfold measured. revert l. induction seen as [|j seen IH]; intros l H; [done|]. simpl. apply IH.
  destruct (decide (i = j)) as [->|]; [by rewrite list_lookup_alter_eq, H|by rewrite list_lookup_alter_ne].
Qed.
Lemma measured_none l seen i : l !! i = Some None → measured (λ i, Some (m i)) l seen !! i = Some (if decide (i ∈ seen) then Some (m i) else None).
Proof.
  unfold measured. revert l. induction seen as [|j seen IH]; intros l H; [done|]. simpl.
  destruct (decide (i = j)) as [->|Hne].
  - rewrite decide_True by set_solver. apply measured_kept. by rewrite list_lookup_alter_eq, H.
  - rewrite IH by (by rewrite list_lookup_alter_ne). repeat case_decide; set_solver.
Qed.
(** A post that the search looked at has a height, its old one or the one measured. *)
Lemma measured_seen l seen i : (i < length l)%nat → i ∈ seen → ∃ h, measured (λ i, Some (m i)) l seen !! i = Some (Some h).
Proof.
  intros [b Hb]%lookup_lt_is_Some Hs. destruct b as [h|].
  - exists h. by apply measured_kept.
  - exists (m i). rewrite (measured_none _ _ _ Hb). by rewrite decide_True.
Qed.
Lemma measured_forall (P : Z → Prop) l seen : (∀ i, P (m i)) → Forall (λ b, ∀ h, b = Some h → P h) l →
  Forall (λ b, ∀ h, b = Some h → P h) (measured (λ i, Some (m i)) l seen).
Proof.
  intros Hm. unfold measured. revert l. induction seen as [|j seen IH]; intros l H; [done|]. simpl. apply IH.
  apply Forall_alter; [done|]. intros [h|] _ Hx; [done|]. naive_solver.
Qed.
End measured.

(** ** The state of a view *)

(** A canvas and what the graphics server measures and draws on it: no negative sizes. *)
Record Press := mkPress { p_vp : Canvas; p_measure : nat → Z; p_drawn : nat → option Z; p_key : option Select }.
Definition press_ok (p : Press) : Prop := 0 ≤ bubble_gap (p_vp p) ∧ 0 ≤ bubble_margin (p_vp p) ∧ ∀ i, 0 ≤ p_measure p i.
Definition do_press (p : Press) (v : View) : res (View * list Bubble) := press (p_vp p) (λ i, Some (p_measure p i)) (p_drawn p) (p_key p) v.
Fixpoint presses (ps : list Press) (v : View) : res View :=
  match ps with [] => mret v | p :: ps => '(v, _) ← do_press p v; presses ps v end.
Definition cost (p : Press) (v : View) (i : nat) : Z := next_height (p_vp p) (λ i, Some (p_measure p i)) (boxes v) i.

(** One of the posts is selected if there are any, and the posts of the range were measured. *)
Definition view_ok (n : nat) (v : View) : Prop :=
  length (boxes v) = n ∧ Forall (λ b, ∀ h, b = Some h → 0 ≤ h) (boxes v) ∧
  match selected v with Some s => (s < n)%nat | None => n = 0%nat end ∧
  ∀ i, i ∈ range v → ∃ h, boxes v !! i = Some (Some h).

Lemma view_read_ok n : view_ok n (view_read n).
Proof.
  split_and!; simpl; [apply length_replicate|by apply Forall_replicate|destruct n; simpl; lia|by intros i ?%elem_of_nil].
Qed.
Lemma post_select_ok n k v : view_ok n v → view_ok n (post_select k v).1.
Proof.
  intros (Hn&Hb&Hs&Hr). unfold post_select, post_last. rewrite Hn.
  destruct n as [|n]; [by split_and!|]. destruct (selected v) as [s|]; [|done].
  destruct k as [| |i]; repeat case_match; simplify_eq/=; split_and!; simpl; try done; rewrite ?Nat.leb_gt in *; lia.
Qed.
Lemma cost_nonneg p n v i : press_ok p → view_ok n v → 0 ≤ cost p v i.
Proof.
  intros (?&?&Hm) (Hn&Hb&_). unfold cost, next_height.
  destruct (boxes v !! i) as [[h|]|] eqn:E; simpl; [|specialize (Hm i); lia..].
  pose proof (Forall_lookup_1 _ _ _ _ Hb E h eq_refl). lia.
Qed.

(** What the search of a layout finds, and when it panics. *)
Lemma range_min_none r s : s ∉ r → r ≠ [] → (s ≤ range_min r)%nat ↔ ∀ i, i ∈ r → (s < i)%nat.
Proof.
  intros Hs Hr. destruct r as [|j r]; [done|]. simpl. clear Hr.
  induction r as [|k r IH]; simpl.
  - split; [intros ? i ->%list_elem_of_singleton; set_unfold; lia|intros H; specialize (H j); set_unfold; naive_solver lia].
  - split.
    + intros Hle i Hi. apply Nat.min_glb_iff in Hle as [??]. set_unfold.
      destruct (decide (i = k)) as [->|]; [naive_solver lia|]. apply IH; naive_solver.
    + intros H. apply Nat.min_glb; [specialize (H k); set_unfold; naive_solver lia|].
      apply IH; set_unfold; naive_solver.
Qed.

Section layout.
Context (p : Press) (n : nat) (v : View) (Hp : press_ok p) (Hv : view_ok n v).
Local Notation measure := (λ i, Some (p_measure p i)).
Local Notation lrange := (layout_range (p_vp p) measure).

Lemma take_downto s k : (k ≤ s)%nat → take (S k) (reverse (seq 0 (S s))) = reverse (seq (s - k) (S k)).
Proof. intros. rewrite take_reverse, length_seq, drop_seq. f_equal. f_equal; lia. Qed.

(** The selected post is below the range, or there is none: bottom up from it. *)
Lemma layout_range_up s : selected v = Some s → s ∉ range v → (range v = [] ∨ ¬ (s ≤ range_min (range v))%nat) →
  ∃ k, (k ≤ s)%nat ∧ lrange v = Ok (mkView (measured measure (boxes v) (reverse (seq (s - k) (S k)))) (Some s) (reverse (seq (s - k) (S k))) false) ∧
    match search (p_vp p) (cost p v) 0 (reverse (seq 0 (S s))) with Some i => k = i | None => k = s end.
Proof.
  intros Es Hs Hr. destruct Hv as (Hn&_&Hlt&_). rewrite Es in Hlt. unfold layout_range, search_required. rewrite Es, bool_decide_false by done. simpl negb. cbv iota.
  replace (match range v with [] => false | r => (s <=? range_min r)%nat end) with false
    by (destruct Hr as [->|?]; [done|]; destruct (range v); [done|]; symmetry; by apply Nat.leb_gt, Nat.nle_gt).
  rewrite Hn. replace (0 <? n)%nat with true by (symmetry; apply Nat.ltb_lt; lia).
  replace (s <? n)%nat with true by (symmetry; by apply Nat.ltb_lt). res_simpl.
  fold (cost p v). destruct (search _ _ _ _) as [i|] eqn:E.
  - assert (i ≤ s)%nat as Hi.
    { apply search_some in E as [Hi _]; [by rewrite length_reverse, length_seq in Hi; lia|unfold area; by apply Z.mod_pos_bound]. }
    exists i. split_and!; [done| |done]. rewrite take_downto by done.
    destruct (reverse (seq (s - i) (S i))) as [|x l] eqn:El; [|done].
    apply (f_equal length) in El. by rewrite length_reverse, length_seq in El.
  - exists s. split_and!; [done| |done]. by rewrite Nat.sub_diag.
Qed.
(** It is above the range: top down from it, unless that finds nothing or everything. *)
Lemma layout_range_down s : selected v = Some s → s ∉ range v → range v ≠ [] → (s ≤ range_min (range v))%nat →
  lrange v = match search (p_vp p) (cost p v) 0 (seq s (n - s)) with
             | Some (S i) => Ok (mkView (measured measure (boxes v) (seq s (S (S i)))) (Some s) (seq s (S i)) true)
             | _ => Panic
             end.
Proof.
  intros Es Hs Hr Hle. destruct Hv as (Hn&_&Hlt&_). rewrite Es in Hlt. unfold layout_range, search_required. rewrite Es, bool_decide_false by done. simpl negb. cbv iota.
  replace (match range v with [] => false | r => (s <=? range_min r)%nat end) with true
    by (destruct (range v); [done|]; symmetry; by apply Nat.leb_le).
  rewrite Hn. replace (s <=? n)%nat with true by (symmetry; apply Nat.leb_le; lia). res_simpl.
  fold (cost p v). destruct (search _ _ _ _) as [[|i]|] eqn:E; [done| |done].
  apply search_some in E as [Hi _]; [|unfold area; by apply Z.mod_pos_bound]. rewrite length_seq in Hi.
  rewrite take_seq, Nat.min_l by lia. done.
Qed.
(** The layout needs no search, or there are no posts. *)
Lemma layout_range_keep s : selected v = Some s → s ∈ range v → lrange v = Ok v.
Proof. intros Es Hs. unfold layout_range, search_required. by rewrite Es, bool_decide_true. Qed.
Lemma layout_range_empty : selected v = None → lrange v = Ok (mkView [] None [] false).
Proof.
  intros Es. destruct Hv as (Hn&_&H0&_). rewrite Es in H0. subst n. unfold layout_range, search_required. rewrite Es. simpl negb. cbv iota.
  apply nil_length_inv in H0. unfold post_last. by rewrite H0.
Qed.
End layout.

Lemma post_select_same k v : boxes (post_select k v).1 = boxes v ∧ range (post_select k v).1 = range v ∧ topdown (post_select k v).1 = topdown v.
Proof. unfold post_select. by destruct (match post_last v with Some _ => _ | None => _ end). Qed.
Lemma draw_total vp drawn v y r : (∀ i, i ∈ r → ∃ h, boxes v !! i = Some (Some h)) → ∃ bs, draw vp drawn v y r = Ok bs.
Proof.
  revert y. induction r as [|i r IH]; intros y Hr; [by eexists|]. simpl.
  destruct (Hr i) as [h ->]; [set_solver|]. specialize (λ y, IH y ltac:(set_solver)).
  destruct (drawn i); [|done]. res_simpl. case_match; [by eexists|].
  match goal with |- context [draw _ _ _ ?y r] => destruct (IH y) as [bs ->] end. by eexists.
Qed.
(** A layout keeps the state well formed and has the selected post in its range. *)
Lemma layout_range_ok p n v v' : press_ok p → view_ok n v → layout_range (p_vp p) (λ i, Some (p_measure p i)) v = Ok v' →
  view_ok n v' ∧ selected v' = selected v ∧ (∀ s, selected v = Some s → s ∈ range v').
Proof.
  intros Hp Hv. assert (∀ s r d, selected v = Some s → s ∈ r → (∀ i, i ∈ r → (i < n)%nat) → ∀ seen, (∀ i, i ∈ r → i ∈ seen) →
    view_ok n (mkView (measured (λ i, Some (p_measure p i)) (boxes v) seen) (Some s) r d)) as Hnew.
  { intros s r d Es Hsr Hr seen Hseen. destruct Hp as (_&_&Hm), Hv as (Hn&Hb&Hlt&_). rewrite Es in Hlt. split_and!; simpl.
    - by rewrite length_measured.
    - by apply measured_forall.
    - done.
    - intros i Hi. apply measured_seen; [rewrite Hn|]; auto. }
  assert (∀ s, selected v = Some s → (s < n)%nat) as Hlt by (intros s Es; destruct Hv as (_&_&H&_); by rewrite Es in H).
  destruct (selected v) as [s|] eqn:Es.
  2:{ rewrite (layout_range_empty p n v) by done. intros <-%Ok_inj. split_and!; [|done|done]. destruct Hv as (Hn&_&H0&_). rewrite Es in H0.
      split_and!; simpl; [done|done|done|by intros i ?%elem_of_nil]. }
  destruct (decide (s ∈ range v)) as [Hs|Hs]; [rewrite (layout_range_keep p v s) by done; intros [= <-]; naive_solver|].
  specialize (Hlt s eq_refl).
  destruct (decide (range v ≠ [] ∧ (s ≤ range_min (range v))%nat)) as [[Hr Hle]|Hup].
  - rewrite (layout_range_down p n v Hv s) by done. destruct (search _ _ _ _) as [[|i]|] eqn:E; [done| |done].
    apply search_some in E as [Hi _]; [|unfold area; by apply Z.mod_pos_bound]. rewrite length_seq in Hi. intros <-%Ok_inj.
    split_and!; [|done|intros ? [= <-]; cbn [range]; apply elem_of_seq; lia].
    apply Hnew; [done|apply elem_of_seq; lia|intros j ?%elem_of_seq; lia|intros j ?%elem_of_seq; cbn [range]; apply elem_of_seq; lia].
  - destruct (layout_range_up p n v Hv s) as (k&Hk&->&_); [done|done|destruct (decide (range v = [])); naive_solver|].
    intros <-%Ok_inj. split_and!; [|done|intros ? [= <-]; cbn [range]; apply elem_of_reverse, elem_of_seq; lia].
    apply Hnew; [done|apply elem_of_reverse, elem_of_seq; lia|intros j ?%elem_of_reverse%elem_of_seq; lia|done].
Qed.
Lemma layout_after_range p n v v1 : press_ok p → view_ok n v →
  layout_range (p_vp p) (λ i, Some (p_measure p i)) v = Ok v1 → ∃ bs, layout (p_vp p) (λ i, Some (p_measure p i)) (p_drawn p) v = Ok (v1, bs).
Proof.
  intros Hp Hv E. destruct (layout_range_ok _ _ _ _ Hp Hv E) as ((Hn&Hb&Hlt&Hr)&Es&Hin). unfold layout. rewrite E. res_simpl.
  replace (_ || _)%bool with true.
  { res_simpl. match goal with |- context [draw _ _ _ ?y _] => destruct (draw_total (p_vp p) (p_drawn p) v1 y (range v1) Hr) as [bs ->] end. by exists bs. }
  symmetry. apply orb_true_iff. rewrite Es in Hlt. destruct (selected v) as [s|]; [right|left; by rewrite Hn, Hlt].
  specialize (Hin s eq_refl). by destruct (range v1); [apply elem_of_nil in Hin|].
Qed.
Lemma do_press_ok p n v v' bs : press_ok p → view_ok n v → do_press p v = Ok (v', bs) → view_ok n v'.
Proof.
  intros Hp Hv. unfold do_press, press. set (v0 := match p_key p with Some _ => _ | None => _ end).
  assert (view_ok n v0) as Hv0 by (subst v0; destruct (p_key p); [by apply post_select_ok|done]).
  unfold layout. intros (v1&E&H)%res_bind_ok. apply res_bind_ok in H as (_&_&H). apply res_bind_ok in H as (?&_&[= -> _]).
  by destruct (layout_range_ok _ _ _ _ Hp Hv0 E).
Qed.
Lemma presses_ok ps n v v' : Forall press_ok ps → view_ok n v → presses ps v = Ok v' → view_ok n v'.
Proof.
  intros Hps. revert v. induction Hps as [|p ps Hp Hps IH]; intros v Hv; [by intros [= <-]|]. simpl.
  intros ([v1 bs]&E&H)%res_bind_ok. eauto using do_press_ok.
Qed.

(** ** When scrolling panics *)

(** The view in which a key of [p] has the layout look for a range. *)
Definition keyed (p : Press) (v : View) : View := match p_key p with Some k => (post_select k v).1 | None => v end.

(** C38: Scrolling through a conversation panics in exactly two cases.  After any keys, on canvases of any
    size, from the moment a conversation was read, a key makes the chat server panic if and only
    if it selects a post above all those laid out, and that post with the space around it is
    taller than the screen, or it and all newer posts together fit on the screen. *)
Theorem scroll_panics_iff (n : nat) (ps : list Press) (p : Press) (v : View) (Hps : Forall press_ok ps) (Hp : press_ok p)
  (Hrun : presses ps (view_read n) = Ok v) :
  do_press p v = Panic ↔
  ∃ s, selected (keyed p v) = Some s ∧ range v ≠ [] ∧ (∀ i, i ∈ range v → (s < i)%nat) ∧
       (area (p_vp p) < cost p v s ∨ zsum (cost p v) (seq s (n - s)) ≤ area (p_vp p)).
Proof.
  pose proof (presses_ok _ _ _ _ Hps (view_read_ok n) Hrun) as Hv.
  assert (view_ok n (keyed p v)) as Hk by (unfold keyed; destruct (p_key p); [by apply post_select_ok|done]).
  assert (range (keyed p v) = range v ∧ boxes (keyed p v) = boxes v) as [Er Eb]
    by (unfold keyed; destruct (p_key p) as [k|]; [split; apply (post_select_same k v)|done]).
  assert (cost p (keyed p v) = cost p v) as Ec by (unfold cost; by rewrite Eb).
  assert (do_press p v = Panic ↔ layout_range (p_vp p) (λ i, Some (p_measure p i)) (keyed p v) = Panic) as ->.
  { unfold do_press, press. fold (keyed p v). split; intros H.
    - destruct (layout_range (p_vp p) _ (keyed p v)) as [v1| |] eqn:E; [|unfold layout in H; rewrite E in H; by res_simpl|done].
      destruct (layout_after_range _ _ _ _ Hp Hk E) as [bs E']. by rewrite E' in H.
    - unfold layout. by rewrite H. }
  destruct (selected (keyed p v)) as [s|] eqn:Es; [|rewrite (layout_range_empty p n) by done; naive_solver].
  destruct (decide (s ∈ range v)) as [Hs|Hs].
  { rewrite (layout_range_keep p _ s) by (by rewrite ?Er). split; [done|]. intros (?&[= <-]&_&H&_). specialize (H s Hs). lia. }
  destruct (decide (range v ≠ [] ∧ (s ≤ range_min (range v))%nat)) as [[Hr Hle]|Hup].
  - rewrite (layout_range_down p n _ Hk s) by (by rewrite ?Er). rewrite Ec. rewrite range_min_none in Hle by done.
    assert (0 ≤ area (p_vp p)) as Ha by (unfold area; by apply Z.mod_pos_bound).
    pose proof (search_none (p_vp p) (cost p v) (λ i, cost_nonneg p n v i Hp Hv) 0 (seq s (n - s)) Ha) as Hnone.
    assert (s < n)%nat as Hlt by (destruct Hk as (_&_&H&_); by rewrite Es in H).
    destruct (n - s)%nat as [|len] eqn:En; [lia|]. pose proof (search_first (p_vp p) (cost p v) 0 s (seq (S s) len)) as Hfirst.
    change (seq s (S len)) with (s :: seq (S s) len) in *. destruct (search _ _ _ _) as [[|i]|]; split; try done; intros.
    + exists s. split_and!; [done..|left]. by apply Hfirst.
    + destruct H as (?&[= <-]&_&_&[Hx|Hx]); [by apply Hfirst in Hx|rewrite En in Hx; by apply Hnone in Hx].
    + exists s. split_and!; [done..|right]. rewrite En. by apply Hnone.
  - destruct (layout_range_up p n (keyed p v) Hk s) as (k&Hkk&->&_); [done|by rewrite Er|rewrite Er; destruct (decide (range v = [])); naive_solver|].
    split; [done|]. intros (?&[= <-]&Hr&H&_). destruct Hup. split; [done|]. by apply range_min_none.
Qed.
(** Four posts as high as two fifths of the screen and an old one higher than the screen: scrolling
    up to it. *)
Definition tall_first (i : nat) : Z := match i with O => 120 | _ => 40 end.
Definition small_canvas : Canvas := mkCanvas 100 20 4 4.
Definition key_on (vp : Canvas) (h : nat → Z) (k : option Select) : Press := mkPress vp h (λ i, Some (h i)) k.
Lemma scroll_panics_iff_witness :
  Forall press_ok (key_on small_canvas tall_first <$> [None; Some SelectPrev; Some SelectPrev; Some SelectPrev]) ∧
  ∃ v, presses (key_on small_canvas tall_first <$> [None; Some SelectPrev; Some SelectPrev; Some SelectPrev]) (view_read 5) = Ok v ∧
       do_press (key_on small_canvas tall_first (Some SelectPrev)) v = Panic.
Proof.
  assert (∀ k, press_ok (key_on small_canvas tall_first k)) as Hok by (intros k; split_and!; simpl; [lia..|]; intros [|i]; simpl; lia).
  split; [repeat constructor; apply Hok|]. eexists. split; [vm_compute; reflexivity|].
  apply (scroll_panics_iff 5 (key_on small_canvas tall_first <$> [None; Some SelectPrev; Some SelectPrev; Some SelectPrev])).
  - repeat constructor; apply Hok.
  - apply Hok.
  - vm_compute. reflexivity.
  - exists 0%nat. split_and!; [reflexivity|done|intros i Hi; set_unfold; lia|left; vm_compute; reflexivity].
Defined.

(** ** What scrolling shows *)

Section shown.
Context (vp : Canvas) (h : nat → Z) (n : nat).
Hypothesis Hvp : 0 ≤ bubble_gap vp ∧ 0 ≤ bubble_margin vp ∧ 0 ≤ layout_y vp < 2 ^ 32.
Hypothesis Hfit : ∀ i, 0 ≤ h i ∧ h i + bubble_gap vp + bubble_margin vp ≤ layout_y vp.
Definition room (i : nat) : Z := h i + bubble_gap vp + bubble_margin vp.
Definition inside (b : Bubble) : Prop := status_y vp ≤ b_top b ∧ b_bottom b ≤ status_y vp + layout_y vp.

Lemma area_small : area vp = layout_y vp.
Proof. unfold area. apply Z.mod_small. lia. Qed.
Lemma room_nonneg i : 0 ≤ room i.
Proof. unfold room. specialize (Hfit i). lia. Qed.

(** Bubbles of posts that fit together are drawn inside the area. *)
Lemma draw_down v y r : topdown v = true → (∀ i, i ∈ r → boxes v !! i = Some (Some (h i))) →
  status_y vp ≤ y → (r ≠ [] → y + zsum room r - (bubble_gap vp + bubble_margin vp) ≤ status_y vp + layout_y vp) →
  ∃ bs, draw vp (λ i, Some (h i)) v y r = Ok bs ∧ b_post <$> bs = r ∧ Forall inside bs ∧
        Forall (λ b, b_hilite b = bool_decide (selected v = Some (b_post b))) bs.
Proof.
  intros Hd. revert y. induction r as [|i r IH]; intros y Hr Hy Hs; [by exists []|]. simpl.
  rewrite Hr by set_solver. res_simpl. rewrite Hd. pose proof (zsum_nonneg room r room_nonneg). specialize (Hs ltac:(done)). simpl in Hs.
  pose proof (Hfit i). unfold room at 1 in Hs. rewrite (proj2 (orb_false_iff _ _)) by (split; apply Z.ltb_ge; lia).
  destruct (IH (y + h i + (bubble_gap vp + bubble_margin vp))) as (bs&->&Hp&Hin&Hh); [set_solver|lia|intros _; lia|].
  res_simpl. eexists. split_and!; [done|by simpl; f_equal| |by constructor].
  constructor; [|done]. split; simpl; lia.
Qed.
Lemma draw_up v y r i0 : topdown v = false → (∀ i, i ∈ r ++ [i0] → boxes v !! i = Some (Some (h i))) →
  y ≤ status_y vp + layout_y vp → (r ≠ [] → status_y vp ≤ y - zsum room r + (bubble_gap vp + bubble_margin vp)) →
  ∃ bs b0, draw vp (λ i, Some (h i)) v y (r ++ [i0]) = Ok (bs ++ [b0]) ∧ b_post <$> bs ++ [b0] = r ++ [i0] ∧ Forall inside bs ∧
        Forall (λ b, b_hilite b = bool_decide (selected v = Some (b_post b))) (bs ++ [b0]).
Proof.
  intros Hd. revert y. induction r as [|i r IH]; intros y Hr Hy Hs; simpl.
  - rewrite Hr by set_solver. res_simpl. rewrite Hd. exists []. case_match; eexists; simpl; split_and!; repeat constructor.
  - rewrite Hr by set_solver. res_simpl. rewrite Hd. pose proof (zsum_nonneg room r room_nonneg). specialize (Hs ltac:(done)). simpl in Hs.
    pose proof (Hfit i). unfold room at 1 in Hs. rewrite (proj2 (orb_false_iff _ _)) by (split; apply Z.ltb_ge; lia).
    destruct (IH (y - h i - (bubble_gap vp + bubble_margin vp))) as (bs&b0&->&Hp&Hin&Hh); [set_solver|lia|intros _; lia|].
    res_simpl. eexists (_ :: bs), b0. split_and!; [done|by simpl; f_equal| |by constructor].
    constructor; [|done]. split; simpl; lia.
Qed.

(** The range of a view: from a post down while the posts fit, or from a post up to the first that
    does not. *)
Definition shape (v : View) : Prop :=
  (∀ i x, boxes v !! i = Some (Some x) → x = h i) ∧
  (range v = [] ∨
   ∃ a k, (a + k < n)%nat ∧
     if topdown v then range v = seq a k ∧ zsum room (seq a k) ≤ layout_y vp < zsum room (seq a (S k))
     else range v = reverse (seq (S a) k) ++ [a] ∧ zsum room (seq (S a) k) ≤ layout_y vp ∧ (a = 0%nat ∨ layout_y vp < zsum room (seq a (S k)))).

Lemma measured_heights l seen : (∀ i x, l !! i = Some (Some x) → x = h i) → ∀ i x, measured (λ i, Some (h i)) l seen !! i = Some (Some x) → x = h i.
Proof.
  intros Hl i x Hx. destruct (l !! i) as [[y|]|] eqn:E.
  - rewrite (measured_kept h _ _ _ _ E) in Hx. simplify_eq. eauto.
  - rewrite (measured_none h _ _ _ E) in Hx. by case_decide; simplify_eq.
  - apply lookup_ge_None in E. rewrite lookup_ge_None_2 in Hx by (by rewrite length_measured). done.
Qed.
Lemma room_cost k v : shape v → ∀ i, cost (key_on vp h k) v i = room i.
Proof.
  intros [Hb _] i. unfold cost, next_height, room. simpl. destruct (boxes v !! i) as [[x|]|] eqn:E; simpl; [|done..].
  by rewrite (Hb _ _ E).
Qed.
Lemma search_ext f g total w : (∀ i, f i = g i) → search vp f total w = search vp g total w.
Proof. intros H. revert total. induction w as [|i w IH]; intros total; simpl; [done|]. by rewrite H, IH. Qed.
Lemma seq_split_zsum a s k m : (s ≤ a)%nat → (a + k ≤ s + m)%nat → zsum room (seq a k) ≤ zsum room (seq s m).
Proof.
  intros. replace m with ((a - s) + (k + (m - (a - s) - k)))%nat by lia. rewrite !seq_app, !zsum_app.
  replace (s + (a - s))%nat with a by lia. pose proof (zsum_nonneg room (seq s (a - s)) room_nonneg).
  pose proof (zsum_nonneg room (seq (a + k) (m - (a - s) - k)) room_nonneg). lia.
Qed.

(** A view of this shape always has a new layout, and it has the shape too. *)
Lemma layout_range_shape v : view_ok n v → shape v → (0 < n)%nat →
  ∃ v', layout_range vp (λ i, Some (h i)) v = Ok v' ∧ shape v' ∧ range v' ≠ [].
Proof.
  intros Hv Hsh Hn. pose proof Hsh as [Hb Hr]. pose proof (λ v, layout_range_up (key_on vp h None) n v) as Hup.
  pose proof (λ v, layout_range_down (key_on vp h None) n v) as Hdown. cbn [key_on p_vp p_measure] in Hup, Hdown.
  destruct (selected v) as [s|] eqn:Es; [|destruct Hv as (_&_&H0&_); rewrite Es in H0; lia].
  assert (s < n)%nat as Hlt by (destruct Hv as (_&_&H0&_); by rewrite Es in H0).
  destruct (decide (s ∈ range v)) as [Hs|Hs].
  { exists v. split_and!; [by apply (layout_range_keep (key_on vp h None) v s)|done|]. by intros E; rewrite E in Hs; apply elem_of_nil in Hs. }
  assert (0 ≤ area vp) as Ha by (rewrite area_small; lia).
  destruct (decide (range v ≠ [] ∧ (s ≤ range_min (range v))%nat)) as [[Hne Hle]|Hnot].
  - rewrite (Hdown v Hv s) by done. rewrite (search_ext _ room) by (by apply room_cost).
    destruct (search _ _ _ _) as [[|i]|] eqn:E.
    + destruct (n - s)%nat as [|d] eqn:En; [lia|]. simpl seq in E. rewrite search_first in E. rewrite area_small in E. specialize (Hfit s). unfold room in E. lia.
    + apply search_some in E as (Hi&Hsum); [|done]. rewrite length_seq in Hi. rewrite !take_seq, !Nat.min_l, area_small in Hsum by lia.
      eexists. split_and!; [done| |done]. split; [cbn [boxes]; by apply measured_heights|]. right. exists s, (S i). cbn [topdown range]. split_and!; [lia|done|lia..].
    + exfalso. apply (search_none vp room room_nonneg) in E; [|done]. rewrite area_small in E.
      rewrite range_min_none in Hle by done. destruct Hr as [|(a&m&Ham&Hr)]; [done|].
      assert (a ∈ range v ∧ a ≠ 0%nat ∧ layout_y vp < zsum room (seq a (S m))) as (Hin&_&Hgt).
      { destruct (topdown v); destruct Hr as (Er&?&Hr); rewrite Er in *.
        - split_and!; [destruct m; [done|apply elem_of_seq; lia]| |lia]. specialize (Hle a). destruct m; [done|].
          specialize (Hle ltac:(apply elem_of_seq; lia)). lia.
        - specialize (Hle a ltac:(set_solver)). split_and!; [set_solver|lia|]. destruct Hr; [lia|done]. }
      specialize (Hle a Hin). pose proof (seq_split_zsum a s (S m) (n - s) ltac:(lia) ltac:(lia)). lia.
  - destruct (Hup v Hv s) as (i&Hi&->&Hfound); [done|done|destruct (decide (range v = [])); naive_solver|].
    eexists. split_and!; [done| |cbn [range]; intros E; apply (f_equal length) in E; by rewrite length_reverse, length_seq in E].
    split; [cbn [boxes]; by apply measured_heights|]. right. exists (s - i)%nat, i. cbn [topdown range]. split; [lia|].
    rewrite (search_ext _ room) in Hfound by (by apply room_cost). split; [by rewrite <-reverse_cons|].
    destruct (search _ _ _ _) as [j|] eqn:E; subst i.
    + apply search_some in E as (_&Hsum); [|done]. rewrite take_downto, zsum_reverse, area_small in Hsum by done. destruct j as [|j].
      * split; [simpl; lia|]. right. lia.
      * rewrite take_downto, zsum_reverse in Hsum by lia. replace (S (s - S j)) with (s - j)%nat by lia. split; [lia|right; lia].
    + rewrite Nat.sub_diag. apply (search_none vp room room_nonneg) in E; [|done]. rewrite zsum_reverse, area_small in E. simpl in E. split; [pose proof (room_nonneg 0); lia|by left].
Qed.

(** The bubbles of a view: those of its range, in its order, all inside the area but possibly the
    topmost of a range that goes up. *)
Definition bubbles_shown (v : View) (bs : list Bubble) : Prop :=
  b_post <$> bs = range v ∧ Forall (λ b, b_hilite b = bool_decide (selected v = Some (b_post b))) bs ∧
  ∀ b, b ∈ bs → inside b ∨ topdown v = false ∧ last bs = Some b.
Lemma draw_shape v : view_ok n v → shape v → range v ≠ [] →
  ∃ bs, draw vp (λ i, Some (h i)) v (if topdown v then status_y vp + bubble_margin vp else status_y vp + layout_y vp - bubble_margin vp) (range v) = Ok bs ∧
        bubbles_shown v bs.
Proof.
  intros (_&_&_&Hm) [Hb Hr] Hne. destruct Hr as [|(a&k&Ha&Hr)]; [done|].
  assert (∀ i, i ∈ range v → boxes v !! i = Some (Some (h i))) as Hbox.
  { intros i Hi. destruct (Hm i Hi) as [x Hx]. by rewrite Hx, (Hb _ _ Hx). }
  unfold bubbles_shown. destruct (topdown v) eqn:Et; destruct Hr as (Er&Hr); rewrite Er in *.
  - destruct (draw_down v (status_y vp + bubble_margin vp) (seq a k)) as (bs&->&Hp&Hin&Hh); [done|done|lia|lia|].
    exists bs. split_and!; [done..|]. intros b Hbs. left. by apply (Forall_forall inside bs).
  - destruct (draw_up v (status_y vp + layout_y vp - bubble_margin vp) (reverse (seq (S a) k)) a) as (bs&b0&->&Hp&Hin&Hh);
      [done|done|lia|rewrite zsum_reverse; lia|].
    eexists. split_and!; [done..|]. intros b [Hbs| ->%list_elem_of_singleton]%elem_of_app; [left; by apply (Forall_forall inside bs)|right; by rewrite last_snoc].
Qed.
Lemma press_shown k v : view_ok n v → shape v → (0 < n)%nat →
  ∃ v' bs, do_press (key_on vp h k) v = Ok (v', bs) ∧ view_ok n v' ∧ shape v' ∧ selected v' = selected (keyed (key_on vp h k) v) ∧
           bubbles_shown v' bs ∧ ∀ s, selected v' = Some s → s ∈ range v'.
Proof.
  intros Hv Hsh Hn. assert (press_ok (key_on vp h k)) as Hp by (split_and!; simpl; [lia..|]; intros i; by destruct (Hfit i)).
  set (v0 := keyed (key_on vp h k) v).
  assert (view_ok n v0) as Hv0 by (subst v0; unfold keyed; destruct (p_key _); [by apply post_select_ok|done]).
  assert (shape v0) as Hsh0.
  { subst v0. unfold keyed. destruct (p_key _) as [k'|]; [|done]. destruct (post_select_same k' v) as (Eb&Er&Et). unfold shape. by rewrite Eb, Er, Et. }
  destruct (layout_range_shape v0 Hv0 Hsh0 Hn) as (v'&E&Hsh'&Hne).
  destruct (layout_range_ok (key_on vp h k) n v0 v' Hp Hv0 E) as (Hv'&Es&Hin).
  destruct (draw_shape v' Hv' Hsh' Hne) as (bs&Ed&Hbs). exists v', bs. split_and!; try done; [|intros s; rewrite Es; auto].
  unfold do_press, press. fold (keyed (key_on vp h k) v). fold v0. unfold layout. cbn [key_on p_vp p_measure p_drawn]. rewrite E. res_simpl.
  replace (_ || _)%bool with true by (destruct (range v'); [done|by rewrite orb_true_r]). res_simpl. by rewrite Ed.
Qed.
End shown.

(** The keys of a conversation, from the first layout on, and what the last one shows. *)
Fixpoint scroll (vp : Canvas) (h : nat → Z) (ks : list Select) (shown : View * list Bubble) : res (View * list Bubble) :=
  match ks with [] => mret shown | k :: ks => shown ← do_press (key_on vp h (Some k)) shown.1; scroll vp h ks shown end.
Definition scroll_from (vp : Canvas) (h : nat → Z) (n : nat) (ks : list Select) : res (View * list Bubble) :=
  shown ← do_press (key_on vp h None) (view_read n); scroll vp h ks shown.
(** Where the keys lead among [S last] posts. *)
Definition step_at (last at_ : nat) (k : Select) : nat :=
  match k with SelectNext => S at_ `min` last | SelectPrev => pred at_ | SelectAt i => i `min` last end%nat.
Definition place (last : nat) (ks : list Select) : nat := foldl (step_at last) last ks.

Lemma post_select_step last k v s : length (boxes v) = S last → selected v = Some s → (s ≤ last)%nat →
  selected (post_select k v).1 = Some (step_at last s k).
Proof.
  intros El Es Hs. unfold post_select, post_last, step_at. rewrite El, Es. destruct k as [| |i]; [|by destruct s|done].
  destruct (Nat.leb_spec last s); cbn [fst selected]; f_equal; lia.
Qed.
Lemma view_read_shape vp h n : shape vp h n (view_read n).
Proof. split; [|by left]. intros i x Hx. simpl in Hx. by apply lookup_replicate in Hx as [? ?]. Qed.
Lemma scroll_places vp h last ks v bs s :
  0 ≤ bubble_gap vp ∧ 0 ≤ bubble_margin vp ∧ 0 ≤ layout_y vp < 2 ^ 32 →
  (∀ i, 0 ≤ h i ∧ h i + bubble_gap vp + bubble_margin vp ≤ layout_y vp) →
  view_ok (S last) v → shape vp h (S last) v → selected v = Some s → s ∈ range v → bubbles_shown vp v bs →
  ∃ v' bs', scroll vp h ks (v, bs) = Ok (v', bs') ∧ selected v' = Some (foldl (step_at last) s ks) ∧
            foldl (step_at last) s ks ∈ range v' ∧ bubbles_shown vp v' bs'.
Proof.
  intros Hvp Hfit. revert v bs s. induction ks as [|k ks IH]; intros v bs s Hv Hsh Es Hin Hbs; [by exists v, bs|]. simpl.
  destruct (press_shown vp h (S last) Hvp Hfit (Some k) v Hv Hsh ltac:(lia)) as (v1&bs1&->&Hv1&Hsh1&Es1&Hbs1&Hin1). res_simpl.
  assert (selected v1 = Some (step_at last s k)) as E.
  { rewrite Es1. unfold keyed. simpl. apply post_select_step; [by destruct Hv|done|]. destruct Hv as (_&_&H&_). rewrite Es in H. lia. }
  apply (IH v1 bs1); auto.
Qed.


(** Where it falls short: a selected post that is cut is left cut (the second key of this scroll
    selects the topmost post, whose bubble is hidden behind the status bar, and nothing moves), *)
Lemma cut_post_stays_cut : ∃ v bs, scroll_from small_canvas (λ _, 40) 5 [SelectPrev; SelectPrev] = Ok (v, bs) ∧
  ∃ b, b ∈ bs ∧ b_hilite b = true ∧ ¬ inside small_canvas b.
Proof. do 2 eexists. split; [vm_compute; reflexivity|]. exists (mkBubble 2 (-20) 20 true). split_and!; [set_solver|done|]. vm_compute. naive_solver. Qed.
(** a canvas that grows lets a key panic although every post fits, *)
Lemma grown_canvas_panics : ∃ v, presses (key_on small_canvas (λ _, 40) <$> [None; Some SelectPrev; Some SelectPrev]) (view_read 5) = Ok v ∧
  do_press (key_on (mkCanvas 300 20 4 4) (λ _, 40) (Some SelectPrev)) v = Panic.
Proof. eexists. split; vm_compute; reflexivity. Qed.
(** and so does a redraw between the first post of a new conversation and its save, after a
    conversation with posts. *)
Lemma first_post_panics : ∃ v, presses [key_on small_canvas (λ _, 40) None] (view_read 2) = Ok v ∧
  do_press (key_on small_canvas (λ _, 40) None) (view_post_add 0 0 None (view_new v)) = Panic.
Proof. eexists. split; vm_compute; reflexivity. Qed.
