(* ===== verification/LocalTime.v ===== *)
(** The header of a bubble ([chat/src/lib.rs]: [tz_offset_secs], [civil_from_days], [format_when],
    [post_header]): when a post was written, in local time.

    Divisions truncate as in the source.  The clock and the answers of the time server are
    arguments; the statics of [tz_offset_secs] are the state [Tz]. *)
From S2P Require Import Prelude Msgpack AutoInterface Inbound.

(** ** The offset of local time *)
Definition I32_MIN : Z := - 2 ^ 31.
Record Tz := mkTz { cached : Z; last_try : Z }.
(** [local_ms]: the local time, if it is known; [now'], the time when it was asked for. *)
Definition tz_offset_secs (now now' : Z) (local_ms : option Z) (tz : Tz) : Z * Tz :=
  if negb (cached tz =? I32_MIN) then (cached tz, tz)
  else if Z.max (now - last_try tz) 0 <? 30 then (0, tz)
  else
    let tz := mkTz (cached tz) (now mod 2 ^ 32) in
    match local_ms with
    | Some local_ms =>
        let raw := Z.quot local_ms 1000 - now' in
        let off := Z.quot (raw + (if 0 <=? raw then 450 else -450)) 900 * 900 in
        (off, mkTz (as_signed 32 off) (last_try tz))
    | None => (0, tz)
    end.

(** ** The date of a day, counted from 1970-01-01 *)
Definition civil_from_days (z : Z) : Z * Z * Z :=
  let z := z + 719468 in
  let era := Z.quot (if 0 <=? z then z else z - 146096) 146097 in
  let doe := z - era * 146097 in
  let yoe := Z.quot (doe - Z.quot doe 1460 + Z.quot doe 36524 - Z.quot doe 146096) 365 in
  let y := yoe + era * 400 in
  let doy := doe - (365 * yoe + Z.quot yoe 4 - Z.quot yoe 100) in
  let mp := Z.quot (5 * doy + 2) 153 in
  let d := doy - Z.quot (153 * mp + 2) 5 + 1 in
  let m := if mp <? 10 then mp + 3 else mp - 9 in
  (if m <=? 2 then y + 1 else y, m, d).

(** ** The label of a time *)

(** [{}] of an [i64], and [{:02}] of a number that is not negative. *)
Definition fmt_int (n : Z) : bytes := if n <? 0 then 45 :: dec_digits 20 (- n) [] else dec_digits 20 n [].
Definition fmt_02 (n : Z) : bytes := let l := dec_digits 20 n [] in if (length l <? 2)%nat then 48 :: l else l.
Definition fmt_date (md : bytes) (s : Z) : bytes := md ++ fmt_02 (Z.quot s 3600) ++ 58 :: fmt_02 (Z.quot (Z.rem s 3600) 60).
Definition fmt_full (y m d s : Z) : bytes := fmt_date (fmt_int y ++ 45 :: fmt_02 m ++ 45 :: fmt_02 d ++ [32]) s.
(** [ready]: the time server is up, with the offset and the time it gives. *)
Definition format_when (ready : option (Z * Z)) (ts : Z) : bytes :=
  match ready with
  | None =>
      let ts := as_signed 64 ts in
      let '(y, m, d) := civil_from_days (ts / 86400) in fmt_full y m d (ts mod 86400)
  | Some (off, now) =>
      let t := as_signed 64 (as_signed 64 ts + off) in
      let '(y, m, d) := civil_from_days (t / 86400) in
      let s := t mod 86400 in
      let '(ny, nm, nd) := civil_from_days (as_signed 64 (as_signed 64 now + off) / 86400) in
      if (y =? ny) && (m =? nm) && (d =? nd) then fmt_date [] s
      else if y =? ny then fmt_date (fmt_02 m ++ 45 :: fmt_02 d ++ [32]) s
      else fmt_full y m d s
  end.
(** "name @ time" for a post of another author, the time for one of ours. *)
Definition post_header (ready : option (Z * Z)) (author : option bytes) (ts : Z) : bytes :=
  let when_ := format_when ready ts in
  match author with
  | Some name => if negb (bool_decide (name = SELF_AUTHOR)) && negb (bool_decide (name = [])) then name ++ [32; 64; 32] ++ when_ else when_
  | None => when_
  end.

Example header_ex : post_header (Some (-18000, 1700000000)) (Some (ascii "bob")) 1690000000 = ascii "bob @ 07-21 23:26".
Proof. vm_compute. reflexivity. Qed.
Example full_ex : format_when None 951782399 = ascii "2000-02-28 23:59".
Proof. vm_compute. reflexivity. Qed.

(** ** The calendar *)

(** The Gregorian calendar, one day after the other. *)
Definition leap (y : Z) : bool := (y mod 4 =? 0) && negb (y mod 100 =? 0) || (y mod 400 =? 0).
Definition month_days (y m : Z) : Z :=
  if m =? 2 then (if leap y then 29 else 28) else if (m =? 4) || (m =? 6) || (m =? 9) || (m =? 11) then 30 else 31.
Definition next_day (date : Z * Z * Z) : Z * Z * Z :=
  let '(y, m, d) := date in
  if d <? month_days y m then (y, m, d + 1) else if m <? 12 then (y, m + 1, 1) else (y + 1, 1, 1).

(** The first day of the year [y] that begins in March, and the date of its [doy]-th day. *)
Definition march (y : Z) : Z := 365 * y + y / 4 - y / 100 + y / 400.
Definition march_date (y doy : Z) : Z * Z * Z :=
  let mp := (5 * doy + 2) / 153 in
  let m := if mp <? 10 then mp + 3 else mp - 9 in
  (if m <=? 2 then y + 1 else y, m, doy - (153 * mp + 2) / 5 + 1).
Lemma civil_march z : ∃ y, march y ≤ z + 719468 < march (y + 1) ∧ civil_from_days z = march_date y (z + 719468 - march y).
Proof.
  unfold civil_from_days. set (z' := z + 719468).
  assert (Z.quot (if 0 <=? z' then z' else z' - 146096) 146097 = z' / 146097) as ->.
  { destruct (Z.leb_spec 0 z'); [by rewrite Z.quot_div_nonneg by lia|].
    replace (z' - 146096) with (- (146096 - z')) by lia. rewrite Z.quot_opp_l, Z.quot_div_nonneg by lia. Z.div_mod_to_equations; lia. }
  set (doe := z' - z' / 146097 * 146097). assert (0 ≤ doe < 146097) by (subst doe; Z.div_mod_to_equations; lia).
  rewrite !(Z.quot_div_nonneg doe) by lia. rewrite (Z.quot_div_nonneg (doe - _ + _ - _)) by (Z.div_mod_to_equations; lia).
  set (yoe := (doe - doe / 1460 + doe / 36524 - doe / 146096) / 365).
  assert (0 ≤ yoe < 400 ∧ 0 ≤ doe - (365 * yoe + yoe / 4 - yoe / 100)) as [??] by (subst yoe; Z.div_mod_to_equations; lia).
  assert (doe < 365 * (yoe + 1) + (yoe + 1) / 4 - (yoe + 1) / 100 + (yoe + 1) / 400) as Hlt by (subst yoe; Z.div_mod_to_equations; lia).
  rewrite !(Z.quot_div_nonneg yoe), !(Z.quot_div_nonneg (5 * _ + 2)) by (Z.div_mod_to_equations; lia).
  rewrite Z.quot_div_nonneg by (Z.div_mod_to_equations; lia).
  clearbody yoe. exists (yoe + z' / 146097 * 400). unfold march, march_date.
  split; [subst doe; Z.div_mod_to_equations; lia|].
  replace (z' - (365 * (yoe + z' / 146097 * 400) + (yoe + z' / 146097 * 400) / 4 - (yoe + z' / 146097 * 400) / 100 + (yoe + z' / 146097 * 400) / 400))
    with (doe - (365 * yoe + yoe / 4 - yoe / 100)) by (subst doe; Z.div_mod_to_equations; lia).
  done.
Qed.
Lemma march_length y : march (y + 1) - march y = if leap (y + 1) then 366 else 365.
Proof.
  unfold march, leap. destruct (Z.eqb_spec ((y + 1) mod 4) 0), (Z.eqb_spec ((y + 1) mod 100) 0), (Z.eqb_spec ((y + 1) mod 400) 0); simpl;
    Z.div_mod_to_equations; lia.
Qed.
Lemma march_mono a b : a ≤ b → march a ≤ march b.
Proof.
  intros H. unfold march. assert (a / 4 ≤ b / 4) by (apply Z.div_le_mono; lia). assert (a / 400 ≤ b / 400) by (apply Z.div_le_mono; lia).
  assert (b / 100 ≤ a / 100 + (b - a)) by (Z.div_mod_to_equations; lia). lia.
Qed.
Lemma march_unique y y' z : march y ≤ z < march (y + 1) → march y' ≤ z < march (y' + 1) → y = y'.
Proof.
  intros Hy Hy'. destruct (Z.lt_trichotomy y y') as [?|[?|?]]; [|done|].
  - pose proof (march_mono (y + 1) y'). lia.
  - pose proof (march_mono (y' + 1) y). lia.
Qed.
(** The same days for a year of which only is known whether its February has 29 days. *)
Definition next_in (b : bool) (date : Z * Z * Z) : Z * Z * Z :=
  let '(c, m, d) := date in
  let days := if m =? 2 then (if b then 29 else 28) else month_days 0 m in
  if d <? days then (c, m, d + 1) else if m <? 12 then (c, m + 1, 1) else (c + 1, 1, 1).
Definition add_years (y : Z) (date : Z * Z * Z) : Z * Z * Z := let '(c, m, d) := date in (y + c, m, d).
Lemma march_date_years y doy : march_date y doy = add_years y (march_date 0 doy).
Proof. unfold march_date, add_years. f_equal. f_equal. case_match; lia. Qed.
Lemma next_day_years y doy : next_day (add_years y (march_date 0 doy)) = add_years y (next_in (leap (y + 1)) (march_date 0 doy)).
Proof.
  unfold march_date, add_years, next_day, next_in. set (m := if _ <? 10 then _ else _). set (d := doy - _ + 1). clearbody m d.
  unfold month_days. change (0 + 1) with 1. destruct (Z.eqb_spec m 2) as [->|Hm].
  - simpl. by destruct (leap (y + 1)); case_match.
  - destruct (m <=? 2), (d <? _), (m <? 12); f_equal; f_equal; lia.
Qed.
Lemma days_of_a_year b : forallb (λ doy, bool_decide (march_date 0 (doy + 1) = next_in b (march_date 0 doy))) (seqZ 0 (if b then 365 else 364)) &&
  bool_decide (march_date 1 0 = next_in b (march_date 0 (if b then 365 else 364))) = true.
Proof. destruct b; vm_compute; reflexivity. Qed.

(** C40: The dates are those of the Gregorian calendar: day 0 is 1970-01-01, and each day has the date after that
    of the day before, for every day, before 1970 too. *)
Theorem civil_is_gregorian : civil_from_days 0 = (1970, 1, 1) ∧ ∀ z, civil_from_days (z + 1) = next_day (civil_from_days z).
Proof.
  split; [vm_compute; reflexivity|]. intros z.
  destruct (civil_march z) as (y&Hy&->), (civil_march (z + 1)) as (y'&Hy'&->).
  pose proof (march_length y) as Hl. pose proof (days_of_a_year (leap (y + 1))) as [Hin Hend]%andb_true_iff.
  rewrite (march_date_years y), next_day_years. set (doy := z + 719468 - march y).
  destruct (decide (doy + 1 < if leap (y + 1) then 366 else 365)) as [Hlt|Hge].
  - assert (y' = y) as -> by (apply (march_unique _ _ (z + 1 + 719468)); [done|]; subst doy; destruct (leap (y + 1)); lia).
    rewrite march_date_years. f_equal. rewrite forallb_forall in Hin.
    replace (z + 1 + 719468 - march y) with (doy + 1) by lia. apply (bool_decide_eq_true _), Hin, list_elem_of_In, elem_of_seqZ.
    subst doy. destruct (leap (y + 1)); lia.
  - pose proof (march_length (y + 1)) as Hl'.
    assert (y' = y + 1) as -> by (apply (march_unique _ _ (z + 1 + 719468)); [done|]; subst doy; destruct (leap (y + 1)), (leap (y + 1 + 1)); lia).
    assert (doy = if leap (y + 1) then 365 else 364) as Ed by (subst doy; destruct (leap (y + 1)); lia). rewrite Ed.
    apply bool_decide_eq_true in Hend. rewrite <-Hend, (march_date_years (y + 1)), (march_date_years 1).
    replace (z + 1 + 719468 - march (y + 1)) with 0 by (subst doy; destruct (leap (y + 1)); lia).
    unfold add_years. destruct (march_date 0 0) as [[c m] d]. by rewrite Z.add_assoc.
Qed.
(** An offset that is a multiple of a quarter of an hour is found exactly, if the answer took less
    than seven minutes. *)
Lemma tz_offset_exact now now' local_ms off : 30 ≤ now → (900 | off) → Z.abs (Z.quot local_ms 1000 - now' - off) < 450 →
  (tz_offset_secs now now' (Some local_ms) (mkTz I32_MIN 0)).1 = off.
Proof.
  intros Hn [k ->] Ha. unfold tz_offset_secs. cbn [cached last_try]. rewrite Z.eqb_refl. simpl negb. cbv iota.
  rewrite (proj2 (Z.ltb_ge _ _)) by lia. simpl fst. f_equal. set (raw := Z.quot local_ms 1000 - now') in *.
  destruct (Z.leb_spec 0 raw).
  - rewrite Z.quot_div_nonneg by lia. Z.div_mod_to_equations; lia.
  - replace (raw + -450) with (- (450 - raw)) by lia. rewrite Z.quot_opp_l, Z.quot_div_nonneg by lia. Z.div_mod_to_equations; lia.
Qed.
