(* ===== verification/Actions.v ===== *)
(** What the user does ([lxmfchat/src/main.rs], the loop of [wrapped_main], and the actions of
    [lib.rs] it calls): the pickers, the menus of contacts, of nodes and of bookmarks, the links
    of a conversation, the announced name, and the keys.

    A modal is its answer: the label a list returns or the text of a field, [None] where it is
    dismissed or fails.  [lower] is [str::to_lowercase], which only sorts: nothing is assumed of
    it.  [up] says whether an interface is up, [on] whether one is switched on.  Status lines,
    notifications and the labels of the keys are left out. *)
From S2P Require Import Micron MicronPage DocView Prelude Constants Crypto Packet Identity Link Msgpack Message ResourceWire Resource ResourceTransfer Tables Transport Outbox OutboxNet Storage Sync Browser Inbound Dispatch Dialogue LocalTime.

Definition ANNOUNCE_LIST_MAX : nat := 32.
Definition CANCEL_LABEL : bytes := ascii "[cancel]".
Definition KEY_NAME : bytes := ascii "name".
Definition LABEL_MAX : nat := 60.

(** ** Lists *)

(** [sort_by]: stable. *)
Section sort.
Context {A : Type} (le : A → A → bool).
Fixpoint insert_by (x : A) (l : list A) : list A :=
  match l with [] => [x] | y :: l' => if le x y then x :: l else y :: insert_by x l' end.
Definition sort_by (l : list A) : list A := foldr insert_by [] l.
End sort.
(** [str::cmp]: the bytes, in order. *)
Fixpoint str_le (a b : bytes) : bool :=
  match a, b with
  | [], _ => true
  | _ :: _, [] => false
  | x :: a, y :: b => if x =? y then str_le a b else x <? y
  end.
(** A [BTreeMap], in the order of its keys. *)
Definition entries_of {V} (m : gmap bytes V) : list (bytes * V) := omap (λ k, pair k <$> m !! k) (sorted_keys m).
(** [String::truncate], on the bytes of a text. *)
Definition truncate_str (s : bytes) (n : nat) : res bytes :=
  if (n <=? length s)%nat then (if is_boundary s n then mret (take n s) else Panic) else mret s.

(** ** The pickers: the label that comes back is looked for in the list *)
Definition pick_from_list (items : list bytes) (choice : option bytes) : option nat :=
  match items, choice with
  | [], _ | _, None => None
  | _, Some c =>
      if bool_decide (c = CANCEL_LABEL) then None
      else match list_find (c =.) (CANCEL_LABEL :: items) with Some (S i, _) => Some i | _ => None end
  end.
Definition peer_label (e : bytes * bytes) : bytes := e.2 ++ ascii " (" ++ hex (take 4 e.1) ++ ascii ")".
Definition pick_peer (entries : list (bytes * bytes)) (choice : option bytes) : option (bytes * bytes) :=
  i ← pick_from_list (peer_label <$> entries) choice; entries !! i.

(** The application and the name it announces. *)
Record Console := mkConsole { c_app : App; c_name : bytes }.
Definition with_app (a : App) (c : Console) : Console := mkConsole a (c_name c).

Section actions.
Context `{C : Crypto} `{I : HashIter} `{B : Bz2} `{R : Rkyv} (W : Z) (lower : bytes → bytes).
Context (rand : nat → nat → bytes) (hub_ok auto_ok : nat → bool) (our_dh : bytes) (measure : DocLine → Z) (vp : VisualProperties).

(** Both of the state that the components share and of the browser. *)
Definition do_shared (f : Shared → Shared) (a : App) : App := with_shared (f (app_shared a)) a.
Definition do_site (f : Site → Site) (a : App) : App := with_site (f (site a)) a.

(** ** The start ([LxmfChat::new]) *)

(** The dictionaries are read; [id] is the identity that is made if none is stored. *)
Definition boot (now : Z) (id : bytes) (d : Store) (nodes bookmarks : gmap bytes bytes) : res (bytes * Console) :=
  let '(key, d_st) := load_or_create_identity id (d_state d) in
  let identity := from_bytes (take KEY_HALF key) (drop KEY_HALF key) in
  let dh := single_destination_hash (ascii "lxmf") [ascii "delivery"] (id_hash (public identity)) in
  '(t, cs) ← load_contacts (d_contacts d) (register_destination dh (transport_new identity));
  '(held, counts) ← load_pending W (d_pending d);
  '(tks, d_tk) ← load_tickets now (d_tickets d);
  ups ← load_delivery_updates W (d_delivery d);
  saved ← load_nodes nodes;
  peer ← match read_string KEY_PEER d_st with Some s => parse_addr s | None => mret None end;
  let name := default (ascii "precursor") (read_string KEY_NAME d_st) in
  found ← load_found_addrs W d_st;
  let first := match peer with Some p => hex p | None => DIALOGUE_WELCOME end in
  let s := mkShared (mkNet t 0 [] None) (mkBook cs ∅ ∅ ∅) (mkMail [] found tks ∅ held counts ups) (mkView peer None 0 [DialogueSet first])
             (mkStore (d_contacts d) (d_pending d) d_tk (d_delivery d) d_st) ∅ ∅ [] in
  mret (dh, mkConsole (mkApp s sync_new browser_new saved nodes bookmarks (mkUi None None None true)) name).

(** ** Contacts *)
Definition name_le (x y : bytes * bytes) : bool := str_le (lower x.2) (lower y.2).
Definition unread_of (u : gmap bytes Z) (p : bytes) : Z := default 0 (u !! p).
Definition badge (u : gmap bytes Z) (e : bytes * bytes) : bytes * bytes :=
  if unread_of u e.1 =? 0 then e else (e.1, e.2 ++ ascii " [" ++ fmt_int (unread_of u e.1) ++ ascii "]").
Definition contact_le (u : gmap bytes Z) (x y : bytes * bytes) : bool :=
  (unread_of u y.1 <? unread_of u x.1) || ((unread_of u y.1 =? unread_of u x.1) && name_le x y).
Definition contact_entries (s : Shared) : list (bytes * bytes) :=
  badge (unread (mail s)) <$> sort_by (contact_le (unread (mail s))) (entries_of (contacts (book s))).
Definition message_contact (pick : option bytes) (a : App) : App :=
  match pick_peer (contact_entries (shared a)) pick with Some (p, _) => do_shared (activate_peer p) a | None => a end.

(** The latest of what was announced. *)
Definition latest_le (x y : bytes * (bytes * Z)) : bool := y.2.2 <=? x.2.2.
Definition latest (l : list (bytes * (bytes * Z))) : list (bytes * bytes) := (λ e : bytes * (bytes * Z), (e.1, e.2.1)) <$> sort_by latest_le l.
Definition show_announces (pick : option bytes) (a : App) : App :=
  match pick_peer (take ANNOUNCE_LIST_MAX (latest (entries_of (seen (book (shared a)))))) pick with
  | Some (p, name) => do_shared (λ s, save_to_contacts p name (activate_peer p s)) a
  | None => a
  end.

Definition found_entries (s : Shared) : list (bytes * bytes) :=
  (λ f : bytes * bytes * Z, (f.1.1, ascii "from " ++ f.1.2)) <$> rev (found_addrs (mail s)).
Definition import_name (p typed : bytes) : bytes := match trim_str typed with [] => hex p | n => n end.
Definition forget_found (p : bytes) (s : Shared) : Shared :=
  let l := filter (λ f : bytes * bytes * Z, f.1.1 ≠ p) (found_addrs (mail s)) in
  with_store (set_d_state (persist_found_addrs l (d_state (store s))) (store s)) (with_mail (set_found l (mail s)) s).
Definition import_contact (pick field : option bytes) (a : App) : App :=
  match pick_peer (found_entries (shared a)) pick, field with
  | Some (p, _), Some typed => do_shared (λ s, activate_peer p (forget_found p (save_to_contacts p (import_name p typed) s))) a
  | _, _ => a
  end.

Definition rename_contact (pick field : option bytes) (a : App) : App :=
  match pick_peer (sort_by name_le (entries_of (contacts (book (shared a))))) pick, field with
  | Some (p, current), Some typed =>
      let n := trim_str typed in
      if bool_decide (n = []) || bool_decide (n = current) then a else do_shared (save_to_contacts p n) a
  | _, _ => a
  end.
Definition set_peer (field : option bytes) (a : App) : res App :=
  match field with
  | None => mret a
  | Some typed => p ← parse_addr (trim_str typed); mret match p with Some p => do_shared (activate_peer p) a | None => a end
  end.
(** The history goes once the user confirms. *)
Definition clear_history_interactive (pick : option bytes) (a : App) : App :=
  if bool_decide (pick = Some (ascii "Clear history")) then do_shared clear_history a else a.

(** ** Nodes and pages *)
Definition node_entries (a : App) : list (bytes * bytes) :=
  let saved := entries_of (app_nodes a) in
  take ANNOUNCE_LIST_MAX (saved ++ latest (filter (λ e : bytes * (bytes * Z), e.1 ∉ saved.*1) (entries_of (nodes_seen (book (shared a)))))).
Definition browse_node (pick : option bytes) (a : App) : App :=
  match pick_peer (node_entries a) pick with Some (p, name) => do_site (start_browse p name) a | None => a end.
Definition browse_address (field : option bytes) (a : App) : res App :=
  match field with
  | None => mret a
  | Some typed =>
      let s := trim_str typed in
      p ← parse_addr s;
      match p with
      | None => mret a
      | Some p =>
          name ← match nodes_seen (book (shared a)) !! p with
                 | Some (n, _) => mret n
                 | None => head ← slice_str s 0 8; mret (head ++ [0xe2; 0x80; 0xa6])
                 end;
          mret (do_site (start_browse p name) a)
      end
  end.
Definition open_on (a : App) (n : bytes) (p : str) : App := do_site (open_page (nodes_seen (book (shared a))) n p) a.

(** The words of a text. *)
Fixpoint words (cur s : str) : list str :=
  match s with
  | [] => match cur with [] => [] | _ => [rev cur] end
  | c :: s => if is_whitespace c then match cur with [] => words [] s | _ => rev cur :: words [] s end else words (c :: cur) s
  end.
Definition in_punctuation (c : Z) : bool := existsb (Z.eqb c) (lit "()[]<>{}'.,;!?" ++ [34]).
Fixpoint drop_punctuation (s : str) : str := match s with c :: s' => if in_punctuation c then drop_punctuation s' else s | [] => [] end.
Definition trim_punctuation (s : str) : str := rev (drop_punctuation (rev (drop_punctuation s))).
Definition link_of (tok : str) : option (bytes * str) :=
  match resolve_link (trim_punctuation tok) with
  | OtherNode n p => Some (n, p)
  | NodeIndex n => Some (n, PAGE_INDEX)
  | _ => None
  end.
Definition scan_page_links (text : str) : list (bytes * str) := omap link_of (words [] text).
(** The first of equal ones is kept. *)
Definition add_new {A} `{EqDecision A} (l : list A) (x : A) : list A := if decide (x ∈ l) then l else l ++ [x].
Definition page_links (d : Dialogue) : list (bytes * str) :=
  fold_left add_new (flat_map (λ p, scan_page_links (chars_lossy (po_text p))) (rev (d_posts d))) [].
Definition link_label (a : App) (l : bytes * str) : res bytes :=
  utf8 <$> truncate (chars_lossy (node_label (nodes_seen (book (shared a))) (site a) l.1) ++ 32 :: l.2) LABEL_MAX.
(** The dialogue of the conversation, as the chat server stores it. *)
Definition read_dialogue (stored : option bytes) : res (option Dialogue) :=
  match stored with
  | Some buf => r ← Dialogue.decode W (take (Z.to_nat (MAX_BYTES + ENVELOPE_HEADER + 2)) buf); mret match r with inr d => Some d | inl _ => None end
  | None => mret None
  end.
Definition select_url (stored : option bytes) (pick : option bytes) (a : App) : res App :=
  d ← read_dialogue stored;
  let found := take ANNOUNCE_LIST_MAX (match d with Some d => page_links d | None => [] end) in
  labels ← mapM (M := res) (link_label a) found;
  mret match pick_from_list labels pick ≫= (found !!.) with Some (n, p) => open_on a n p | None => a end.

(** ** Bookmarks *)
Abbreviation bookmark := (bytes * (bytes * (bytes * bytes * list (bytes * bytes))))%type (only parsing).
Definition bookmark_le (x y : bookmark) : bool := str_le (lower x.2.1) (lower y.2.1).
Definition load_bookmarks (d : gmap bytes bytes) : res (list bookmark) := l ← read_bookmarks d; mret (sort_by bookmark_le l).
Definition pick_bookmark (pick : option bytes) (a : App) : res (option bookmark) :=
  l ← load_bookmarks (app_d_bookmarks a);
  mret (pick_from_list ((λ b : bookmark, b.2.1) <$> l) pick ≫= (l !!.)).
Definition with_bookmarks (d : gmap bytes bytes) (a : App) : App :=
  mkApp (shared a) (app_sync a) (app_browser a) (app_nodes a) (app_d_nodes a) d (app_ui a).
Definition open_bookmark (pick : option bytes) (a : App) : res App :=
  b ← pick_bookmark pick a;
  mret match b with
       | Some (_, (_, (n, p, v))) => do_site (upd (λ b, (request_page n (chars_lossy p) (prod_map chars_lossy chars_lossy <$> v) true b).2)) a
       | None => a
       end.
Definition remove_bookmark (pick : option bytes) (a : App) : res App :=
  b ← pick_bookmark pick a;
  mret match b with Some (key, _) => with_bookmarks (delete key (app_d_bookmarks a)) a | None => a end.
Definition rename_bookmark (pick field : option bytes) (a : App) : res App :=
  b ← pick_bookmark pick a;
  match b, field with
  | Some (_, (current, addr)), Some typed =>
      label ← truncate_str (trim_str typed) LABEL_MAX;
      mret (if bool_decide (label = []) || bool_decide (label = current) then a else with_bookmarks (persist_bookmark label addr (app_d_bookmarks a)) a)
  | _, _ => mret a
  end.

(** ** The menu of the browser *)
Inductive BrowserItem :=
  | ItBookmarks | ItBookmarkPage | ItReload | ItIndex | ItEnterUrl | ItBrowseNode | ItBrowseAddress | ItRenameBookmark | ItRemoveBookmark.
#[export] Instance BrowserItem_eq_dec : EqDecision BrowserItem.
Proof. solve_decision. Defined.
Definition item_label (i : BrowserItem) : bytes :=
  match i with
  | ItBookmarks => ascii "Bookmarks" | ItBookmarkPage => ascii "Bookmark this page" | ItReload => ascii "Reload page" | ItIndex => ascii "Node index"
  | ItEnterUrl => ascii "Enter URL" | ItBrowseNode => ascii "Browse node" | ItBrowseAddress => ascii "Browse address"
  | ItRenameBookmark => ascii "Rename bookmark" | ItRemoveBookmark => ascii "Remove bookmark"
  end.
Definition browser_items (viewing : bool) : list BrowserItem :=
  [ItBookmarks] ++ (if viewing then [ItBookmarkPage; ItReload; ItIndex] else []) ++
  [ItEnterUrl; ItBrowseNode; ItBrowseAddress; ItRenameBookmark; ItRemoveBookmark].
Definition browsing (a : App) : bool := viewing (app_browser a).
(** The answers are those of the menu, and of the list and the field that come after it. *)
Record Answers := mkAnswers { choice : option bytes; pick : option bytes; field : option bytes }.
Definition browser_menu (m : Answers) (a : App) : res App :=
  let items := browser_items (browsing a) in
  match pick_from_list (item_label <$> items) (choice m) ≫= (items !!.) with
  | None => mret a
  | Some ItBookmarks => open_bookmark (pick m) a
  | Some ItBookmarkPage => on_site (bookmark_current_page (nodes_seen (book (shared a)))) a
  | Some ItReload => mret (do_site (upd reload_page) a)
  | Some ItIndex => mret (do_site (upd node_index) a)
  | Some ItEnterUrl => mret match field m with Some typed => do_site (enter_url (nodes_seen (book (shared a))) (chars_lossy typed)) a | None => a end
  | Some ItBrowseNode => mret (browse_node (pick m) a)
  | Some ItBrowseAddress => browse_address (field m) a
  | Some ItRenameBookmark => rename_bookmark (pick m) (field m) a
  | Some ItRemoveBookmark => remove_bookmark (pick m) a
  end.
(** The page kept aside comes back, or the menu. *)
Definition browser_open (m : Answers) (a : App) : res App :=
  let '(resumed, s) := browser_resume (site a) in
  if resumed : bool then mret (with_site s a) else browser_menu m (with_site s a).

(** ** The announced name *)
Definition broadcast_announce (up : bool) (now : Z) (c : Console) : res (bool * Console) :=
  let '(r5, a) := app_random rand 5 (c_app c) in
  raw ← make_announce_with (app_tp a) (ascii "lxmf") [ascii "delivery"] (c_name c) r5 now;
  if up then let '(ok, n) := broadcast_out hub_ok auto_ok (a_net (shared a)) raw in mret (ok, with_app (with_shared (with_net n (shared a)) a) c)
  else mret (false, with_app a c).
Definition set_name (up : bool) (now : Z) (field : option bytes) (c : Console) : res Console :=
  match field with
  | None => mret c
  | Some typed =>
      name ← truncate_str (trim_str typed) DISPLAY_NAME_MAX;
      if bool_decide (name = []) || bool_decide (name = c_name c) then mret c
      else
        let s := shared (c_app c) in
        let s := with_store (set_d_state (write_string KEY_NAME name (d_state (store s))) (store s)) s in
        let c := mkConsole (with_shared s (c_app c)) name in
        if up then '(_, c) ← broadcast_announce up now c; mret c else mret c
  end.
Definition sync_now (on : bool) (now : Z) (a : App) : res App :=
  if on then on_sync W rand hub_ok auto_ok our_dh now request_sync a else mret a.

(** ** The loop of the application *)
Inductive AppEvent := EvF1 | EvF2 | EvF3 | EvF4 | EvLeft | EvRight.
Inductive MenuOp :=
  | Announces | Contacts | RenameContact | ImportContact | Connect | Interfaces | Announce | MyAddress | SetName | SetPeer | SyncMessages | BrowserOp | SelectUrl | ClearHistory | Noop.
Definition on_app (f : App → res App) (c : Console) : res Console := a ← f (c_app c); mret (with_app a c).
Definition on_key (on : bool) (now : Z) (m : Answers) (e : AppEvent) (a : App) : res App :=
  match e with
  | EvF1 => if browsing a then browser_menu m a else mret a
  | EvF2 => mret (if browsing a then do_site (on_ui (press measure vp PageUp)) a else do_shared jump_to_unread a)
  | EvF3 => mret (if browsing a then do_site (on_ui (press measure vp PageDown)) a else do_shared jump_back a)
  | EvF4 => if browsing a then mret (do_site browser_suspend a) else sync_now on now a
  | EvLeft => mret (do_site key_back a)
  | EvRight => mret (do_site follow_link a)
  end.
(** [Connect] and [Interfaces] are those of a device with its interfaces ([Interfaces.device_menu]). *)
Definition on_menu (up on : bool) (now : Z) (stored : option bytes) (m : Answers) (op : MenuOp) (c : Console) : res Console :=
  match op with
  | Announces => mret (with_app (show_announces (pick m) (c_app c)) c)
  | Contacts => mret (with_app (message_contact (pick m) (c_app c)) c)
  | RenameContact => mret (with_app (rename_contact (pick m) (field m) (c_app c)) c)
  | ImportContact => mret (with_app (import_contact (pick m) (field m) (c_app c)) c)
  | Announce => '(_, c) ← broadcast_announce up now c; mret c
  | SetName => set_name up now (field m) c
  | SetPeer => on_app (set_peer (field m)) c
  | SyncMessages => on_app (sync_now on now) c
  | BrowserOp => on_app (browser_open m) c
  | SelectUrl => on_app (select_url stored (pick m)) c
  | ClearHistory => mret (with_app (clear_history_interactive (pick m) (c_app c)) c)
  | Connect | Interfaces | MyAddress | Noop => mret c
  end.
(** A line is typed; an empty one is ignored. *)
Definition on_post (now : Z) (text : bytes) (a : App) : res App :=
  match text with [] => mret a | _ => app_post our_dh now text a end.
End actions.
