(* ===== verification/ActionsProps.v ===== *)
(** What the menus do: the pickers return the entry that was chosen, the contact that is chosen
    is the conversation that opens, and a contact's name stays as the user sets it. *)
From stdpp Require Import sorting.
From S2P Require Import Micron MicronPage DocView DocViewProps Prelude Constants Crypto Packet Identity Link Msgpack Message ResourceWire Resource ResourceTransfer Tables Transport Outbox OutboxNet Storage StorageProps Sync SyncProps Browser BrowserProps Inbound InboundProps InboundChat Dispatch DispatchProps Dialogue LocalTime Actions.

(** ** Sorting *)
Section sort.
Context {A : Type} (le : A → A → bool).
Lemma insert_by_perm x l : insert_by le x l ≡ₚ x :: l.
Proof. induction l as [|y l IH]; [done|]. cbn [insert_by]. destruct (le x y); [done|]. rewrite IH. apply Permutation_swap. Qed.
Lemma sort_by_perm l : sort_by le l ≡ₚ l.
Proof. induction l as [|x l IH]; [done|]. cbn [sort_by foldr]. rewrite insert_by_perm. by f_equiv. Qed.
(** It is sorted for every coarser order. *)
Context (R : A → A → Prop) `{!Transitive R} (Hle : ∀ x y, le x y = true → R x y) (Hgt : ∀ x y, le x y = false → R y x).
Lemma insert_by_sorted x l : StronglySorted R l → StronglySorted R (insert_by le x l).
Proof.
  induction 1 as [|y l Hs IH Hy]; [by repeat constructor|]. cbn [insert_by]. destruct (le x y) eqn:E.
  - constructor; [by constructor|]. constructor; [by apply Hle|]. eapply Forall_impl; [exact Hy|]. intros z Hz. etrans; [by apply Hle|done].
  - constructor; [done|]. rewrite insert_by_perm. constructor; [by apply Hgt|done].
Qed.
Lemma sort_by_sorted l : StronglySorted R (sort_by le l).
Proof. induction l as [|x l IH]; [constructor|]. by apply insert_by_sorted. Qed.
End sort.

Lemma entries_of_perm {V} (m : gmap bytes V) : entries_of m ≡ₚ map_to_list m.
Proof.
  unfold entries_of, sorted_keys. rewrite merge_sort_Permutation.
  assert (∀ l : list (bytes * V), (∀ kv, kv ∈ l → m !! kv.1 = Some kv.2) → omap (λ k, pair k <$> m !! k) l.*1 = l) as H.
  { induction l as [|[k v] l IH]; intros Hl; [done|]. cbn [fmap list_fmap omap list_omap fst]. pose proof (Hl (k, v) ltac:(by left)) as E. cbn [fst snd] in E. rewrite E.
    cbn. f_equal. apply IH. intros kv Hkv. apply Hl. by right. }
  rewrite H; [done|]. intros [k v]. by rewrite elem_of_map_to_list.
Qed.

(** ** The pickers *)

(** The entry chosen is the first of its label. *)
Lemma pick_first items x i : pick_from_list items (Some x) = Some i ↔ x ≠ CANCEL_LABEL ∧ items !! i = Some x ∧ ∀ j, (j < i)%nat → items !! j ≠ Some x.
Proof.
  unfold pick_from_list. destruct items as [|y items]; [naive_solver|]. generalize (y :: items) as l. clear y items. intros l.
  case_bool_decide as Hc; [naive_solver|]. cbn [list_find]. rewrite decide_False by done.
  destruct (list_find (x =.) l) as [[k z]|] eqn:E; cbn.
  - apply list_find_Some in E as (E1 & <- & E2). split; [intros [= <-]; naive_solver|]. intros (_ & Hi & Hf). f_equal.
    destruct (lt_eq_lt_dec k i) as [[Hk|Hk]|Hk]; [by destruct (Hf k Hk)|done|by destruct (E2 i x)].
  - apply list_find_None in E. split; [done|]. intros (_ & Hi & _). rewrite Forall_lookup in E. by destruct (E i x Hi).
Qed.
Lemma pick_only items i x : x ≠ CANCEL_LABEL → items !! i = Some x → (∀ j, items !! j = Some x → j = i) → pick_from_list items (Some x) = Some i.
Proof. intros Hc Hi Hu. apply pick_first. split; [done|]. split; [done|]. intros j Hj E. apply Hu in E. lia. Qed.

Lemma pick_found items x : x ≠ CANCEL_LABEL → x ∈ items → ∃ i, pick_from_list items (Some x) = Some i ∧ items !! i = Some x.
Proof.
  intros Hc [k Hk]%list_elem_of_lookup. destruct (list_find_elem_of (x =.) items x) as [[i y] E]; [by eapply list_elem_of_lookup_2|done|].
  exists i. apply list_find_Some in E as (E & <- & Hf). split; [|done]. apply pick_first. split; [done|]. split; [done|]. intros j Hj Ej. by eapply Hf.
Qed.
Lemma hex_inj_bytes a b : bytes_ok a → bytes_ok b → hex a = hex b → a = b.
Proof. intros Ha Hb E. apply unhex_hex in Ha, Hb. rewrite E in Ha. congruence. Qed.
(** The label tells the name and the first four bytes of the address. *)
Lemma peer_label_inj e1 e2 : address e1.1 → address e2.1 → peer_label e1 = peer_label e2 → e1.2 = e2.2 ∧ take 4 e1.1 = take 4 e2.1.
Proof.
  intros [B1 L1] [B2 L2] E. unfold peer_label in E. apply app_inj_2 in E as [-> E].
  - split; [done|]. apply app_inv_head in E. apply app_inv_tail in E. apply hex_inj_bytes in E; [done|by apply Forall_take..].
  - rewrite !length_app, !hex_length, !length_take, L1, L2. done.
Qed.
Lemma peer_label_cancel e : peer_label e ≠ CANCEL_LABEL.
Proof.
  intros E. unfold peer_label in E. change (ascii ")") with [41] in E. change CANCEL_LABEL with (ascii "[cancel" ++ [93]) in E.
  rewrite !app_assoc in E. by apply app_inj_tail in E as [_ E].
Qed.
(** The chosen entry is returned, if no other has its name and the start of its address. *)
Lemma pick_peer_only entries e : Forall (λ e, address e.1) entries → NoDup entries.*1 → e ∈ entries →
  (∀ e', e' ∈ entries → e'.2 = e.2 → take 4 e'.1 = take 4 e.1 → e'.1 = e.1) → pick_peer entries (Some (peer_label e)) = Some e.
Proof.
  intros Ha Hd [i Hi]%list_elem_of_lookup Hu. unfold pick_peer. rewrite Forall_lookup in Ha.
  rewrite (pick_only _ i); [done|apply peer_label_cancel|by rewrite list_lookup_fmap, Hi|].
  intros j. rewrite list_lookup_fmap. destruct (entries !! j) as [e'|] eqn:Hj; [|done]. cbn. intros [= [E1 E2]%peer_label_inj]; [|by eapply Ha..].
  assert (e'.1 = e.1) as E by (apply Hu; [by apply list_elem_of_lookup; exists j|done|done]).
  eapply NoDup_lookup; [exact Hd|by rewrite list_lookup_fmap, Hj|by rewrite list_lookup_fmap, Hi, E].
Qed.

(** ** The contacts *)
Lemma badge_addr u e : (badge u e).1 = e.1.
Proof. unfold badge. by destruct (_ =? 0). Qed.
Lemma badges_addr u l : (badge u <$> l).*1 = l.*1.
Proof. rewrite <-list_fmap_compose. apply list_fmap_ext. intros ? e _. apply badge_addr. Qed.
Definition more_unread (u : gmap bytes Z) (x y : bytes * bytes) : Prop := unread_of u y.1 ≤ unread_of u x.1.
#[local] Instance more_unread_trans u : Transitive (more_unread u).
Proof. intros x y z. unfold more_unread. lia. Qed.
Lemma badges_sorted u l : StronglySorted (more_unread u) l → StronglySorted (more_unread u) (badge u <$> l).
Proof.
  induction 1 as [|x l Hs IH Hx]; cbn [fmap list_fmap]; constructor; [done|]. apply Forall_fmap. eapply Forall_impl; [exact Hx|].
  intros y Hy. unfold more_unread, compose. by rewrite !badge_addr.
Qed.
Section contacts.
Context (lower : bytes → bytes).
Lemma contact_entries_perm s : contact_entries lower s ≡ₚ badge (unread (mail s)) <$> map_to_list (contacts (book s)).
Proof. unfold contact_entries. by rewrite sort_by_perm, entries_of_perm. Qed.
Lemma contact_entries_sorted s : StronglySorted (more_unread (unread (mail s))) (contact_entries lower s).
Proof.
  apply badges_sorted, sort_by_sorted; [apply _|..]; intros x y; unfold contact_le, more_unread; destruct (Z.ltb_spec (unread_of (unread (mail s)) y.1) (unread_of (unread (mail s)) x.1)); cbn [orb]; [lia| |done|lia].
  intros [E _]%andb_true_iff. lia.
Qed.
Lemma contact_pick s p n : mail_ok s → contacts (book s) !! p = Some n →
  let u := unread (mail s) in
  (∀ q m, contacts (book s) !! q = Some m → (badge u (q, m)).2 = (badge u (p, n)).2 → take 4 q = take 4 p → q = p) →
  pick_peer (contact_entries lower s) (Some (peer_label (badge u (p, n)))) = Some (badge u (p, n)).
Proof.
  intros Hm Hp u Hu. apply pick_peer_only.
  - rewrite contact_entries_perm. apply Forall_fmap, Forall_forall. intros [q m] Hq%elem_of_map_to_list. unfold compose. rewrite badge_addr. by eapply ok_contacts.
  - rewrite contact_entries_perm, badges_addr. apply NoDup_fst_map_to_list.
  - rewrite contact_entries_perm. apply list_elem_of_fmap. exists (p, n). split; [done|]. by apply elem_of_map_to_list.
  - intros e'. rewrite contact_entries_perm. intros ([q m] & -> & Hq%elem_of_map_to_list)%list_elem_of_fmap. rewrite !badge_addr. cbn [fst]. by apply Hu.
Qed.
End contacts.
Lemma rename_pick (lower : bytes → bytes) s p n : mail_ok s → contacts (book s) !! p = Some n →
  (∀ q, contacts (book s) !! q = Some n → take 4 q = take 4 p → q = p) →
  pick_peer (sort_by (name_le lower) (entries_of (contacts (book s)))) (Some (peer_label (p, n))) = Some (p, n).
Proof.
  intros Hm Hp Hu. apply pick_peer_only.
  - rewrite sort_by_perm, entries_of_perm. apply Forall_forall. intros [q m] Hq%elem_of_map_to_list. by eapply ok_contacts.
  - rewrite sort_by_perm, entries_of_perm. apply NoDup_fst_map_to_list.
  - rewrite sort_by_perm, entries_of_perm. by apply elem_of_map_to_list.
  - intros [q m]. rewrite sort_by_perm, entries_of_perm, elem_of_map_to_list. cbn [fst snd]. intros Hq -> Ht. by apply Hu.
Qed.
Lemma activated p s : current_peer (view (activate_peer p s)) = Some p ∧ pending (mail (activate_peer p s)) !! p = None ∧ unread (mail (activate_peer p s)) !! p = None.
Proof.
  destruct (activate_spec p s) as (v & d & -> & _ & Hc & _). unfold apply_delivery_updates. app_simpl.
  destruct (_ !! p); app_simpl; by rewrite Hc, !lookup_delete_eq.
Qed.

(** ** What the user does to the state *)
Lemma hex_digit_range c d : hex_digit c = Some d → 0 ≤ d < 16.
Proof. unfold hex_digit, Micron.is_digit. repeat case_match; intros; simplify_eq; match goal with H : _ && _ = true |- _ => apply andb_true_iff in H as [??] end; lia. Qed.
Lemma u8_from_hex_byte s b : u8_from_hex s = Some b → 0 ≤ b < 256.
Proof.
  unfold u8_from_hex. destruct s as [|x [|y []]]; try done. destruct (x =? 43); [intros ?%hex_digit_range; lia|].
  intros (h & Hh%hex_digit_range & (l & Hl%hex_digit_range & [= <-])%bind_Some)%bind_Some. lia.
Qed.
Lemma hex_pairs_bytes n i s b : hex_pairs n i s = Ok (Some b) → bytes_ok b ∧ length b = n.
Proof.
  revert i b. induction n as [|n IH]; intros i b; cbn [hex_pairs].
  - intros [= <-]%Ok_inj. split; [constructor|done].
  - intros (x & _ & H)%res_bind_ok. destruct (u8_from_hex x) as [c|] eqn:Hc; [|done]. apply u8_from_hex_byte in Hc.
    apply res_bind_ok in H as ([r|] & Hr & H); apply Ok_inj in H; [|done]. injection H as <-. apply IH in Hr as [H1 H2].
    split; [by constructor|]. cbn. by rewrite H2.
Qed.
Lemma parse_addr_address s p : parse_addr s = Ok (Some p) → address p.
Proof. unfold parse_addr. case_decide; [done|]. apply hex_pairs_bytes. Qed.

(** A step that keeps the state in order and the names of the contacts. *)
Definition mild (s s' : Shared) : Prop := mail_ok s → peers_ok s → mail_ok s' ∧ peers_ok s' ∧ keeps_name s s'.
Lemma mild_refl s : mild s s.
Proof. intros Hm Hp. split; [done|]. split; [done|]. by apply keeps_same. Qed.
Lemma mild_trans s1 s2 s3 : mild s1 s2 → mild s2 s3 → mild s1 s3.
Proof. intros H1 H2 Hm Hp. destruct (H1 Hm Hp) as (A1 & A2 & A3). destruct (H2 A1 A2) as (B1 & B2 & B3). split; [done|]. split; [done|]. by eapply keeps_trans. Qed.
Lemma mild_net n s : mild s (with_net n s).
Proof. intros Hm Hp. split; [by apply net_ok_same|]. split; [done|]. by apply keeps_same. Qed.

Section mild.
Context `{C : Crypto} `{I : HashIter} `{B : Bz2} `{R : Rkyv} (W : Z) (lower : bytes → bytes).
Context (rand : nat → nat → bytes) (hub_ok auto_ok : nat → bool) (our_dh : bytes) (pn : option bytes) (chat_has : list ChatMsg → Z → bool).
Context (measure : DocLine → Z) (vp : VisualProperties).
Notation sys_step := (sys_step W rand hub_ok auto_ok our_dh pn chat_has).
Lemma mild_steps s σ : rtc sys_step (started s) σ → mild s (sh σ).
Proof.
  intros Hr Hm Hp. destruct (sys_reachable_ok W rand hub_ok auto_ok our_dh pn chat_has s σ Hr Hm Hp) as [K1 K2 _ _]. split; [done|]. split; [done|].
  eapply (sys_steps_keep W rand hub_ok auto_ok our_dh pn chat_has (started s)); [done|by apply started_ok].
Qed.
Lemma mild_step s s' f l c : sys_step (started s) (mkSys s' f l c) → mild s s'.
Proof. intros H. apply (mild_steps s (mkSys s' f l c)). by apply rtc_once. Qed.
Lemma mild_takes srcs s s' : takes W rand hub_ok auto_ok our_dh pn chat_has srcs s s' → mild s s'.
Proof. intros (m & _ & Hr). eapply (mild_steps s (mkSys s' _ _ _)), Hr. Qed.
Lemma mild_activate p s : address p → mild s (activate_peer p s).
Proof. intros Hp. eapply mild_step. by apply st_activate. Qed.

Lemma mild_shared f a : (∀ s, mild s (f s)) → mild (shared a) (shared (do_shared f a)).
Proof. intros Hf. eapply mild_trans; [apply mild_net|apply Hf]. Qed.
Lemma mild_site f a : mild (shared a) (shared (do_site f a)).
Proof. apply mild_net. Qed.
Lemma mild_on_site f a a' : on_site f a = Ok a' → mild (shared a) (shared a').
Proof. intros (x & _ & <-%Ok_inj)%res_bind_ok. apply mild_net. Qed.
Lemma mild_same a a' : shared a' = shared a → mild (shared a) (shared a').
Proof. intros ->. apply mild_refl. Qed.
Lemma mild_message_contact pick a : mail_ok (shared a) → mild (shared a) (shared (message_contact lower pick a)).
Proof.
  intros Hm. unfold message_contact. destruct (pick_peer _ pick) as [[p l]|] eqn:E; [|apply mild_refl]. apply mild_shared. intros s. apply mild_activate.
  unfold pick_peer in E. apply bind_Some in E as (i & _ & He%list_elem_of_lookup_2). rewrite contact_entries_perm in He.
  apply list_elem_of_fmap in He as ([q m] & Eq & Hq%elem_of_map_to_list). apply (f_equal fst) in Eq. rewrite badge_addr in Eq. cbn in Eq. subst p. by eapply ok_contacts.
Qed.
Lemma mild_set_peer field a a' : set_peer field a = Ok a' → mild (shared a) (shared a').
Proof.
  unfold set_peer. destruct field as [typed|]; [|intros <-%Ok_inj; apply mild_refl].
  intros ([p|] & Hp & <-%Ok_inj)%res_bind_ok; [|apply mild_refl]. apply parse_addr_address in Hp. apply mild_shared. intros s. by apply mild_activate.
Qed.
Lemma mild_jump_unread s : mild s (jump_to_unread s).
Proof. eapply mild_step, st_unread. Qed.
Lemma mild_jump_back s : mild s (jump_back s).
Proof. eapply mild_step, st_back. Qed.
Lemma mild_clear s : mild s (clear_history s).
Proof. eapply mild_step, st_clear. Qed.
Lemma mild_sync_now on now a a' : sync_now W rand hub_ok auto_ok our_dh on now a = Ok a' → mild (shared a) (shared a').
Proof. unfold sync_now. destruct on; [|intros <-%Ok_inj; apply mild_refl]. intros <-%Ok_inj. apply mild_net. Qed.
(** The browser and the bookmarks leave the contacts alone. *)
Ltac mild_leaf := first [apply mild_refl | apply mild_site | by eapply mild_on_site].
Lemma mild_browser_menu m a a' : browser_menu lower m a = Ok a' → mild (shared a) (shared a').
Proof.
  unfold browser_menu. destruct (pick_from_list _ _ ≫= _) as [[]|]; intros H; try solve [apply Ok_inj in H as <-; mild_leaf | mild_leaf].
  - apply res_bind_ok in H as ([[k [l [[n p] v]]]|] & _ & <-%Ok_inj); mild_leaf.
  - apply Ok_inj in H as <-. destruct (field m); mild_leaf.
  - apply Ok_inj in H as <-. unfold browse_node. destruct (pick_peer _ _) as [[]|]; mild_leaf.
  - unfold browse_address in H. destruct (field m) as [typed|]; [|apply Ok_inj in H as <-; mild_leaf].
    apply res_bind_ok in H as ([p|] & _ & H); [|apply Ok_inj in H as <-; mild_leaf]. apply res_bind_ok in H as (name & _ & <-%Ok_inj). mild_leaf.
  - apply res_bind_ok in H as ([[k [l addr]]|] & _ & H); [|apply Ok_inj in H as <-; mild_leaf]. destruct (field m) as [typed|]; [|apply Ok_inj in H as <-; mild_leaf].
    apply res_bind_ok in H as (label & _ & <-%Ok_inj). destruct (_ || _); mild_leaf.
  - apply res_bind_ok in H as ([[k b]|] & _ & <-%Ok_inj); mild_leaf.
Qed.
Lemma mild_browser_open m a a' : browser_open lower m a = Ok a' → mild (shared a) (shared a').
Proof.
  unfold browser_open. destruct (browser_resume (site a)) as [r s]. destruct r; [intros <-%Ok_inj; apply mild_net|].
  intros H%mild_browser_menu. eapply mild_trans; [|exact H]. apply mild_net.
Qed.
Lemma mild_select_url stored pick a a' : select_url W stored pick a = Ok a' → mild (shared a) (shared a').
Proof.
  intros (d & _ & H)%res_bind_ok. apply res_bind_ok in H as (labels & _ & <-%Ok_inj). destruct (_ ≫= _) as [[n p]|]; mild_leaf.
Qed.
Lemma mild_announce up now c ok c' : broadcast_announce rand hub_ok auto_ok up now c = Ok (ok, c') → mild (shared (c_app c)) (shared (c_app c')).
Proof.
  unfold broadcast_announce, app_random. cbn [fill_random]. intros (raw & _ & H)%res_bind_ok.
  destruct up; [|apply Ok_inj in H; injection H as _ <-; apply mild_net]. destruct (broadcast_out _ _ _ _) as [r n]. apply Ok_inj in H. injection H as _ <-. 
  apply (mild_net n).
Qed.
Lemma mild_set_name up now field c c' : set_name rand hub_ok auto_ok up now field c = Ok c' → mild (shared (c_app c)) (shared (c_app c')).
Proof.
  unfold set_name. destruct field as [typed|]; [|intros <-%Ok_inj; apply mild_refl]. intros (name & _ & H)%res_bind_ok.
  destruct (_ || _); [apply Ok_inj in H as <-; apply mild_refl|]. cbv zeta in H. set (s1 := with_store _ _) in H.
  assert (mild (shared (c_app c)) s1) as H1.
  { intros Hm Hp. split; [|split; [done|by apply keeps_same]]. destruct Hm. split; unfold s1; app_simpl; auto. by apply found_other. }
  destruct up; [|apply Ok_inj in H as <-; exact H1]. apply res_bind_ok in H as ([ok c1] & H & <-%Ok_inj). apply mild_announce in H.
  by eapply mild_trans.
Qed.

(** ** Runs: what the network and the clock bring, and what the user does *)
Inductive UserInput :=
  | Brought (i : AppInput) | Pressed (on : bool) (now : Z) (m : Answers) (e : AppEvent)
  | Chosen (up on : bool) (now : Z) (stored : option bytes) (m : Answers) (op : MenuOp) | Line (now : Z) (text : bytes).
Definition user_input (i : UserInput) (c : Console) : res Console :=
  match i with
  | Brought i => on_app (app_input W rand hub_ok auto_ok our_dh pn chat_has measure vp i) c
  | Pressed on now m e => on_app (on_key W lower rand hub_ok auto_ok our_dh measure vp on now m e) c
  | Chosen up on now stored m op => on_menu W lower rand hub_ok auto_ok our_dh up on now stored m op c
  | Line now text => on_app (on_post our_dh now text) c
  end.
Definition user_input_ok (i : UserInput) (c : Console) : Prop :=
  match i with Brought i => input_ok W rand hub_ok auto_ok i (c_app c) | _ => True end.
(** The menus that give a contact a name. *)
Definition names_contact (i : UserInput) : bool :=
  match i with Chosen _ _ _ _ _ (Announces | RenameContact | ImportContact) => true | _ => false end.
Inductive user_runs : Console → Console → Prop :=
  | user_nil c : user_runs c c
  | user_cons i c1 c2 c3 : user_input_ok i c1 → names_contact i = false → user_input i c1 = Ok c2 → user_runs c2 c3 → user_runs c1 c3.
Lemma mild_key on now m e a a' : on_key W lower rand hub_ok auto_ok our_dh measure vp on now m e a = Ok a' → mild (shared a) (shared a').
Proof.
  unfold on_key. destruct e; try destruct (browsing a); intros H; try (apply Ok_inj in H as <-); try mild_leaf.
  - by eapply mild_browser_menu.
  - apply mild_shared, mild_jump_unread.
  - apply mild_shared, mild_jump_back.
  - by eapply mild_sync_now.
Qed.
Lemma mild_input i c c' : user_input_ok i c → names_contact i = false → user_input i c = Ok c' → mail_ok (shared (c_app c)) → mild (shared (c_app c)) (shared (c_app c')).
Proof.
  intros Hi Hn H Hm. destruct i as [i|on now m e|up on now stored m op|now text]; cbn [user_input user_input_ok] in *.
  - apply res_bind_ok in H as (a & H & <-%Ok_inj). apply app_input_takes in H as [H _]; [|done]. by eapply mild_takes.
  - apply res_bind_ok in H as (a & H & <-%Ok_inj). by eapply mild_key.
  - destruct op; try discriminate Hn; cbn [on_menu] in H; try (apply Ok_inj in H as <-; try mild_leaf).
    + by apply mild_message_contact.
    + apply res_bind_ok in H as ([ok c1] & H & <-%Ok_inj). by eapply mild_announce.
    + by eapply mild_set_name.
    + apply res_bind_ok in H as (a & H & <-%Ok_inj). by eapply mild_set_peer.
    + apply res_bind_ok in H as (a & H & <-%Ok_inj). by eapply mild_sync_now.
    + apply res_bind_ok in H as (a & H & <-%Ok_inj). by eapply mild_browser_open.
    + apply res_bind_ok in H as (a & H & <-%Ok_inj). by eapply mild_select_url.
    + unfold clear_history_interactive. cbn [with_app c_app]. case_bool_decide; [apply mild_shared, mild_clear|apply mild_refl].
  - apply res_bind_ok in H as (a & H & <-%Ok_inj). unfold on_post in H. destruct text; [apply Ok_inj in H as <-; apply mild_refl|].
    unfold app_post in H. destruct (viewing _); [apply Ok_inj in H as <-; apply mild_refl|]. apply (on_shared_takes W rand hub_ok auto_ok our_dh pn chat_has [Typed (z :: text)]) in H as [H _].
    + by eapply mild_takes.
    + intros s' <-%Ok_inj. apply post_takes.
Qed.
Lemma mild_runs c c' : user_runs c c' → mail_ok (shared (c_app c)) → peers_ok (shared (c_app c)) →
  mail_ok (shared (c_app c')) ∧ peers_ok (shared (c_app c')) ∧ keeps_name (shared (c_app c)) (shared (c_app c')).
Proof.
  induction 1 as [c|i c1 c2 c3 Hi Hn H Hr IH]; intros Hm Hp; [split; [done|]; split; [done|by apply keeps_same]|].
  destruct (mild_input i c1 c2 Hi Hn H Hm Hm Hp) as (M2 & P2 & N2). destruct (IH M2 P2) as (M3 & P3 & N3).
  split; [done|]. split; [done|]. by eapply keeps_trans.
Qed.
End mild.

(** ** Bookmarks *)

(** The key that the bookmark of a page is stored under. *)
Definition page_key `{C : Crypto} (a : PageAddr) : bytes :=
  let '(n, p, v) := utf8_addr a in hex (truncated_hash (n ++ p ++ vars_string v)).
Section bookmarks.
Context `{C : Crypto} `{I : HashIter} `{!HashIterOK} (lower : bytes → bytes).
Lemma read_bookmarks_spec d : (∀ k buf, d !! k = Some buf → ∃ b, read_bookmark buf = Ok b) →
  ∃ l, read_bookmarks d = Ok l ∧ ∀ k b, (k, b) ∈ l ↔ ∃ buf, d !! k = Some buf ∧ read_bookmark buf = Ok (Some b).
Proof.
  intros Hd. unfold read_bookmarks.
  assert (∀ l0, (∀ kv, kv ∈ l0 → ∃ b, read_bookmark kv.2 = Ok b) → ∃ bs, mapM (M := res) (λ kv : bytes * bytes, b ← read_bookmark kv.2; mret (pair kv.1 <$> option_list b)) l0 = Ok bs ∧
    ∀ k b, (k, b) ∈ concat bs ↔ ∃ buf, (k, buf) ∈ l0 ∧ read_bookmark buf = Ok (Some b)) as HM.
  { induction l0 as [|[k0 buf0] l0 IH]; intros Hl.
    - exists []. split; [done|]. intros k b. cbn. split; [by intros ?%elem_of_nil|by intros (? & ?%elem_of_nil & _)].
    - destruct IH as (bs & E & Hbs); [intros kv Hkv; apply Hl; by right|]. destruct (Hl (k0, buf0)) as [b0 E0]; [by left|]. cbn [snd] in E0.
      exists ((pair k0 <$> option_list b0) :: bs). cbn [mapM fst snd]. rewrite E0, bind_Ok, mret_Ok, bind_Ok, E, bind_Ok. split; [done|].
      intros k b. cbn [concat]. rewrite elem_of_app, Hbs. setoid_rewrite elem_of_cons. split.
      + intros [Hb|(buf & Hb & Hr)]; [|exists buf; by auto]. exists buf0. destruct b0 as [b0|]; cbn in Hb; [|by apply elem_of_nil in Hb].
        apply list_elem_of_singleton in Hb. injection Hb as -> ->. by auto.
      + intros (buf & [Eq|Hb] & Hr); [|right; by eauto]. injection Eq as -> ->. rewrite E0 in Hr. injection Hr as ->. left. by apply list_elem_of_singleton. }
  destruct (HM (iter d)) as (bs & E & Hbs).
  { intros [k buf] Hk%elem_of_iter. by eapply Hd. }
  rewrite E, bind_Ok. exists (concat bs). split; [done|]. intros k b. rewrite Hbs. by setoid_rewrite elem_of_iter.
Qed.
(** The bookmark of a label that no other bookmark has. *)
Lemma pick_bookmark_only a key label addr : (∀ k buf, app_d_bookmarks a !! k = Some buf → ∃ b, read_bookmark buf = Ok b) →
  app_d_bookmarks a !! key = Some (bookmark_value (label, addr)) → bookmark_ok (label, addr) → label ≠ CANCEL_LABEL →
  (∀ k buf b, app_d_bookmarks a !! k = Some buf → read_bookmark buf = Ok (Some b) → b.1 = label → k = key) →
  pick_bookmark lower (Some label) a = Ok (Some (key, (label, addr))).
Proof.
  intros Hd Hk Hok Hc Hu. unfold pick_bookmark, load_bookmarks. destruct (read_bookmarks_spec _ Hd) as (l & -> & Hl). rewrite bind_Ok, mret_Ok, bind_Ok, mret_Ok.
  assert ((key, (label, addr)) ∈ sort_by (bookmark_le lower) l) as Hin.
  { rewrite sort_by_perm. apply Hl. eexists. split; [exact Hk|]. by apply bookmark_roundtrip. }
  set (l' := sort_by _ l) in *. destruct (pick_found ((λ b : bytes * (bytes * (bytes * bytes * list (bytes * bytes))), b.2.1) <$> l') label) as (i & -> & Ei); [done|apply list_elem_of_fmap; by exists (key, (label, addr))|].
  rewrite list_lookup_fmap in Ei. destruct (l' !! i) as [[k b]|] eqn:Eb; [|done]. injection Ei as Eb1. cbn [mbind option_bind]. rewrite Eb. do 2 f_equal.
  apply list_elem_of_lookup_2 in Eb. unfold l' in Eb. rewrite sort_by_perm in Eb. apply Hl in Eb as (buf & Hb & Hr).
  pose proof (Hu k buf b Hb Hr Eb1) as ->. rewrite Hk in Hb. apply Some_inj in Hb as <-. rewrite bookmark_roundtrip in Hr by done. apply Ok_inj, Some_inj in Hr as <-. done.
Qed.
End bookmarks.

(** ** The start *)

(** What is stored for the state: the identity [key], the contacts [K] and the tickets [T] with
    what the dictionaries hold of them, and texts that fit their records. *)
Record stored_ok (W : Z) (key : bytes) (K : gmap bytes (bytes * option (bytes * option bytes))) (T : gmap bytes (Z * bytes)) (c : Console) : Prop := {
  sk_key : d_state (store (shared (c_app c))) !! KEY_IDENTITY = Some key ∧ length key = KEYSIZE;
  sk_pending : map_Forall (λ _ l, fits W held_ok serialize_pending l) (pending (mail (shared (c_app c))));
  sk_updates : map_Forall (λ _ l, fits W update_ok (flat_map update_record) l ∧ length l ≠ 0%nat) (delivery_updates (mail (shared (c_app c))));
  sk_found : Forall found_ok (found_addrs (mail (shared (c_app c)))) ∧ len_of (flat_map found_record (found_addrs (mail (shared (c_app c))))) + 32 < 2 ^ W;
  sk_contacts : represents contact_value (d_contacts (store (shared (c_app c)))) K ∧ map_Forall (λ _, contact_ok) K;
  sk_room : (size (d_contacts (store (shared (c_app c)))) ≤ MAX_KNOWN)%nat;
  sk_tickets : represents ticket_value (d_tickets (store (shared (c_app c)))) T ∧ map_Forall (λ _, ticket_ok) T;
  sk_nodes : represents id (app_d_nodes (c_app c)) (app_nodes (c_app c)) ∧ map_Forall (λ _, node_ok) (app_nodes (c_app c));
  sk_peer : d_state (store (shared (c_app c))) !! KEY_PEER = hex <$> current_peer (view (shared (c_app c)));
  sk_name : default (ascii "precursor") (read_string KEY_NAME (d_state (store (shared (c_app c))))) = c_name c;
}.
Lemma load_found_stored W l d : found_stored l d → Forall found_ok l → len_of (flat_map found_record l) + 32 < 2 ^ W → load_found_addrs W d = Ok l.
Proof. unfold found_stored, load_found_addrs. intros -> Hl Hf. destruct (decide (l = [])) as [->|_]; [done|by apply found_roundtrip]. Qed.
Lemma read_peer d p : d !! KEY_PEER = Some (hex p) → address p → read_string KEY_PEER d = Some (hex p).
Proof. intros E [Hb Hl]. unfold read_string. rewrite E, hex_length, Hl, utf8_hex by done. done. Qed.
Lemma represents_ok {V} (ser : V → bytes) (d : gmap bytes bytes) (m : gmap bytes V) (p : bytes) (v : V) : represents ser d m → m !! p = Some v → address p ∧ d !! hex p = Some (ser v).
Proof. intros [H _] Hv. by apply H. Qed.

(** ** Properties *)

(** The contact that is chosen is the conversation that opens.  The menu offers every
    contact once, those with unread messages first.  Choosing a contact makes it the peer that
    messages go to, and flushes and clears what was held for it, whenever no other contact is
    shown under the same name with the same first four bytes of its address. *)
Theorem contact_opened (lower : bytes → bytes) (a : App) (Hm : mail_ok (shared a)) :
  let s := shared a in let u := unread (mail s) in
  contact_entries lower s ≡ₚ badge u <$> map_to_list (contacts (book s)) ∧
  StronglySorted (λ x y, unread_of u y.1 ≤ unread_of u x.1) (contact_entries lower s) ∧
  ∀ p n, contacts (book s) !! p = Some n →
    (∀ q m, contacts (book s) !! q = Some m → (badge u (q, m)).2 = (badge u (p, n)).2 → take 4 q = take 4 p → q = p) →
    let a' := message_contact lower (Some (peer_label (badge u (p, n)))) a in
    a' = do_shared (activate_peer p) a ∧ current_peer (view (shared a')) = Some p ∧
    pending (mail (shared a')) !! p = None ∧ unread (mail (shared a')) !! p = None.
Proof.
  intros s u. split; [apply contact_entries_perm|]. split; [apply contact_entries_sorted|]. intros p n Hp Hu a'.
  assert (a' = do_shared (activate_peer p) a) as E.
  { pose proof (contact_pick lower s p n Hm Hp Hu) as Ep. cbv zeta in Ep. unfold a', message_contact. fold s. fold u in Ep. rewrite Ep. destruct (badge u (p, n)) as [q l] eqn:E.
    pose proof (badge_addr u (p, n)) as E1. rewrite E in E1. cbn [fst] in E1. by rewrite E1. }
  split; [exact E|]. rewrite E. apply (activated p (app_shared a)).
Qed.

(** C17: The name that the user gives a contact stays.  Once a contact is renamed, to a name that
    is not just its address, then whatever arrives and whatever the user does, short of naming
    contacts again in a menu, the contact has that name, in the list and in the stored record
    that a restart reads: announces of the peer under other names do not change it. *)
Theorem rename_sticks `{C : Crypto} `{I : HashIter} `{B : Bz2} `{R : Rkyv} (W : Z) (lower : bytes → bytes) (rand : nat → nat → bytes)
  (hub_ok auto_ok : nat → bool) (our_dh : bytes) (pn : option bytes) (chat_has : list ChatMsg → Z → bool) (measure : DocLine → Z) (vp : VisualProperties)
  (c c' : Console) (p n typed : bytes)
  (Hm : mail_ok (shared (c_app c))) (Hp : peers_ok (shared (c_app c))) (Hc : contacts (book (shared (c_app c))) !! p = Some n)
  (Hu : ∀ q, contacts (book (shared (c_app c))) !! q = Some n → take 4 q = take 4 p → q = p)
  (Ht : trim_str typed ≠ []) (Hh : is_placeholder p (trim_str typed) = false)
  (Hr : user_runs W lower rand hub_ok auto_ok our_dh pn chat_has measure vp
     (with_app (rename_contact lower (Some (peer_label (p, n))) (Some typed) (c_app c)) c) c') :
  contacts (book (shared (c_app c'))) !! p = Some (trim_str typed) ∧
  ∃ k, d_contacts (store (shared (c_app c'))) !! hex p = Some (contact_value (trim_str typed, k)).
Proof.
  set (a1 := rename_contact lower _ _ (c_app c)) in Hr.
  assert (mail_ok (shared a1) ∧ peers_ok (shared a1) ∧ contacts (book (shared a1)) !! p = Some (trim_str typed)) as (M1 & P1 & N1).
  { unfold a1, rename_contact. rewrite rename_pick by done. case_bool_decide; [done|]. cbn [orb]. case_bool_decide as E; [by subst n|].
    split; [apply save_contact_ok; [by eapply ok_contacts|by apply net_ok_same]|]. split; [done|]. apply lookup_insert_eq. }
  destruct (mild_runs _ _ _ _ _ _ _ _ _ _ _ _ Hr M1 P1) as (M2 & _ & N2). pose proof (N2 p _ N1 Hh) as N3. split; [exact N3|].
  by eapply ok_contacts in N3 as [_ N3].
Qed.

(** A bookmark leads back to its page.  Once the page on screen is bookmarked, choosing the
    bookmark's label, then or after any restart, asks for the same page of the same node with
    the same fields, whenever no other bookmark has the label. *)
Theorem bookmark_reopens `{C : Crypto} `{I : HashIter} `{!HashIterOK} (lower : bytes → bytes) (a a1 a2 : App) (n : bytes) (p : str) (v : list (str * str)) (label : str)
  (Hpage : current (app_browser a) = Some (n, p, v)) (Hlabel : page_label (nodes_seen (book (shared a))) (site a) (n, p, v) = Ok label)
  (Hok : bookmark_ok (utf8 label, utf8_addr (n, p, v))) (Hchars : Forall scalar p ∧ Forall (λ kv : str * str, Forall scalar kv.1 ∧ Forall scalar kv.2) v)
  (Hcancel : utf8 label ≠ CANCEL_LABEL) (Hread : ∀ k buf, app_d_bookmarks a !! k = Some buf → ∃ b, read_bookmark buf = Ok b ∧ ∀ l ad, b = Some (l, ad) → l = utf8 label → k = page_key (n, p, v))
  (H1 : on_site (bookmark_current_page (nodes_seen (book (shared a)))) a = Ok a1) (H2 : app_d_bookmarks a2 = app_d_bookmarks a1) :
  open_bookmark lower (Some (utf8 label)) a2 = Ok (do_site (upd (λ b, (request_page n p v true b).2)) a2).
Proof.
  assert (app_d_bookmarks a2 = <[page_key (n, p, v) := bookmark_value (utf8 label, utf8_addr (n, p, v))]> (delete (page_key (n, p, v)) (app_d_bookmarks a))) as E.
  { rewrite H2. apply res_bind_ok in H1 as (x & H1 & <-%Ok_inj). unfold bookmark_current_page in H1. cbn [site br] in H1. rewrite Hpage in H1.
    rewrite Hlabel, bind_Ok in H1. by apply Ok_inj in H1 as <-. }
  unfold open_bookmark. rewrite (pick_bookmark_only lower a2 (page_key (n, p, v)) (utf8 label) (utf8_addr (n, p, v))); [|..|done|done|].
  - rewrite bind_Ok. unfold utf8_addr. cbv beta iota. rewrite chars_utf8 by apply Hchars.
    assert (prod_map chars_lossy chars_lossy <$> (prod_map utf8 utf8 <$> v) = v) as ->; [|done].
    destruct Hchars as [_ Hv]. clear -Hv. induction Hv as [|[k x] l [Hk Hx] _ IH]; [done|]. rewrite !fmap_cons, IH. unfold prod_map. cbn [fst snd]. by rewrite !chars_utf8 by done.
  - intros k buf. rewrite E. intros [[<- <-]|[_ [_ Hk]%lookup_delete_Some]]%lookup_insert_Some; [eexists; by apply bookmark_roundtrip|].
    destruct (Hread k buf Hk) as (b & Hb & _). by eexists.
  - rewrite E. apply lookup_insert_eq.
  - intros k buf [l ad]. rewrite E. intros [[<- <-]|[_ [_ Hk]%lookup_delete_Some]]%lookup_insert_Some; [done|]. intros Hb El.
    destruct (Hread k buf Hk) as (b & Hb' & Hu). rewrite Hb in Hb'. injection Hb' as <-. by eapply Hu.
Qed.


(** ** Witnesses *)
(** The small instance of the cryptography, with a hash whose first bytes tell short names apart. *)
#[local] Instance menu_crypto : Crypto := {|
  sha256 := λ m, rev (Toy.sha m); hmac_raw := Toy.hmac; hkdf_raw := Toy.kdf;
  aes256_cbc_encrypt := λ _ _ m, Toy.pad m; aes256_cbc_decrypt := λ _ _ c, Toy.unpad c;
  ed25519_verifying_key := Toy.vk; x25519 := Toy.dh; ed25519_sign := λ _ p m, Toy.sig p m; ed25519_verify := λ p m s, bool_decide (s = Toy.sig p m);
|}.
#[local] Instance menu_iter : HashIter := λ V m, map_to_list m.
#[local] Instance menu_iter_ok : HashIterOK.
Proof. by intros V m. Qed.
#[local] Instance menu_bz2 : Bz2 := λ _ _, None.
#[local] Instance menu_rkyv : Rkyv := {| to_bytes := λ _, []; deserialize := λ _, None |}.
(** Bob's device, with Alice among the contacts; she announces herself under another name. *)
Definition wa_id : PrivateIdentity := from_bytes (replicate 32 3) (replicate 32 4).
Definition wa_bob : PrivateIdentity := from_bytes (replicate 32 5) (replicate 32 6).
Definition wa_alice : bytes := single_destination_hash (ascii "lxmf") [ascii "delivery"] (id_hash (public wa_id)).
Definition wa_shared : Shared := save_to_contacts wa_alice (ascii "alice") (fresh (mkNet (transport_new wa_bob) 0 [] None)).
Definition wa_app : App := mkApp wa_shared sync_new browser_new ∅ ∅ ∅ (mkUi None None None true).
Definition wa_console : Console := mkConsole wa_app (ascii "bob").
Definition wa_lower (s : bytes) : bytes := s.
Lemma wa_address : address wa_alice.
Proof. split; [apply (bool_decide_unpack _); vm_compute; exact I|reflexivity]. Qed.
Lemma wa_ok : mail_ok wa_shared ∧ peers_ok wa_shared.
Proof. destruct (fresh_ok (mkNet (transport_new wa_bob) 0 [] None)). split; [apply save_contact_ok; [apply wa_address|done]|done]. Qed.
Lemma wa_contact q n : contacts (book wa_shared) !! q = Some n → q = wa_alice ∧ n = ascii "alice".
Proof. change (contacts (book wa_shared)) with (<[wa_alice := ascii "alice"]> (∅ : gmap bytes bytes)). rewrite insert_empty. by intros [<- <-]%lookup_singleton_Some. Qed.
Lemma contact_opened_witness :
  current_peer (view (shared (message_contact wa_lower (Some (peer_label (wa_alice, ascii "alice"))) wa_app))) = Some wa_alice.
Proof.
  destruct (contact_opened wa_lower wa_app (proj1 wa_ok)) as (_ & _ & H). destruct (H wa_alice (ascii "alice")) as (_ & H2 & _).
  - apply lookup_insert_eq.
  - intros q m [-> _]%wa_contact _ _. reflexivity.
  - exact H2.
Defined.

Definition wa_announce : bytes :=
  match make_announce_with (transport_new wa_id) (ascii "lxmf") [ascii "delivery"] (ascii "mallory") (replicate 5 1) wc_now with Ok raw => raw | _ => [] end.
Definition wa_renamed : Console := with_app (rename_contact wa_lower (Some (peer_label (wa_alice, ascii "alice"))) (Some (ascii " Alice ")) wa_app) wa_console.
Definition wa_frame : UserInput := Brought (Frame wc_now (ascii "bob") wa_announce Hub).
Definition wa_input : UserInput → Console → res Console := user_input 32 wa_lower wc_rand wc_ok wc_ok wc_dhB None wc_has wb_measure sample_vp.
Definition wa_after : Console := match wa_input wa_frame wa_renamed with Ok c => c | _ => wa_renamed end.
Lemma wa_event : ∃ info a, frame_event wc_rand wa_announce Hub (c_app wa_renamed) = Some (EvAnnounce wa_alice info, a).
Proof.
  assert (match frame_event wc_rand wa_announce Hub (c_app wa_renamed) with Some (EvAnnounce d _, _) => d | _ => [] end = wa_alice) as E by (vm_compute; reflexivity).
  destruct (frame_event _ _ _ _) as [[[] a]|]; try (vm_compute in E; discriminate E). rewrite E. eauto.
Qed.
Lemma wa_runs : user_runs 32 wa_lower wc_rand wc_ok wc_ok wc_dhB None wc_has wb_measure sample_vp wa_renamed wa_after.
Proof.
  eapply (user_cons _ _ _ _ _ _ _ _ _ _ wa_frame _ wa_after).
  - cbn [user_input_ok wa_frame input_ok]. destruct wa_event as (info & a & ->). split; [constructor|apply wa_address].
  - reflexivity.
  - assert (match wa_input wa_frame wa_renamed with Ok _ => true | _ => false end = true) as E by (vm_compute; reflexivity).
    change (wa_input wa_frame wa_renamed = Ok wa_after). unfold wa_after. destruct (wa_input wa_frame wa_renamed); [reflexivity|discriminate E..].
  - apply user_nil.
Qed.
Lemma rename_sticks_witness :
  contacts (book (shared (c_app wa_after))) !! wa_alice = Some (ascii "Alice") ∧
  (∃ k, d_contacts (store (shared (c_app wa_after))) !! hex wa_alice = Some (contact_value (ascii "Alice", k))) ∧
  seen (book (shared (c_app wa_after))) !! wa_alice = Some (ascii "mallory", wc_now).
Proof.
  enough (contacts (book (shared (c_app wa_after))) !! wa_alice = Some (ascii "Alice") ∧
    ∃ k, d_contacts (store (shared (c_app wa_after))) !! hex wa_alice = Some (contact_value (ascii "Alice", k))) as [H1 H2]
    by (split; [exact H1|]; split; [exact H2|vm_compute; reflexivity]).
  refine (rename_sticks 32 wa_lower wc_rand wc_ok wc_ok wc_dhB None wc_has wb_measure sample_vp wa_console wa_after wa_alice (ascii "alice") (ascii " Alice ")
    (proj1 wa_ok) (proj2 wa_ok) _ _ _ _ wa_runs).
  - apply lookup_insert_eq.
  - intros q [-> _]%wa_contact _. reflexivity.
  - vm_compute. discriminate.
  - vm_compute. reflexivity.
Defined.
(** The menu of announces gives it the announced name again. *)
Lemma announces_rename :
  contacts (book (shared (show_announces (Some (peer_label (wa_alice, ascii "mallory"))) (c_app wa_after)))) !! wa_alice = Some (ascii "mallory").
Proof. vm_compute. reflexivity. Qed.

(** A page of a node, bookmarked. *)
Definition wa_page : PageAddr := (replicate 16 0xcc, lit "/page/a.mu", [(lit "g", lit "x")]).
Definition wa_viewing : App :=
  let b := browser_new in
  mkApp wa_shared sync_new (mkBrowser (phase b) (node b) (path b) (vars b) (link b) (receiver b) (deadline b) (requested b) (next_attempt b) (route_tries b) (link_tries b)
    (Some wa_page) (pending_push b) (pending_pop b) (back b) [] (Some (lit "News")) true) ∅ ∅ ∅ (mkUi None None None true).
Definition wa_label : str := lit "News /page/a.mu g=x".
Definition wa_marked : App := match on_site (bookmark_current_page ∅) wa_viewing with Ok a => a | _ => wa_viewing end.
Lemma bookmark_reopens_witness :
  let '(n, p, v) := wa_page in
  open_bookmark wa_lower (Some (utf8 wa_label)) wa_marked = Ok (do_site (upd (λ b, (request_page n p v true b).2)) wa_marked).
Proof.
  refine (bookmark_reopens wa_lower wa_viewing wa_marked wa_marked _ _ _ wa_label eq_refl _ _ _ _ _ _ eq_refl).
  - vm_compute. reflexivity.
  - split; [|split; [|split; [|split; [reflexivity|split]]]]; [split; [reflexivity|]|split; [|reflexivity]|split; [reflexivity|]|..]; apply (bool_decide_unpack _); vm_compute; exact I.
  - unfold scalar. split; apply (bool_decide_unpack _); vm_compute; exact I.
  - vm_compute. discriminate.
  - intros k buf H. change (app_d_bookmarks wa_viewing) with (∅ : gmap bytes bytes) in H. by rewrite lookup_empty in H.
  - assert (match on_site (bookmark_current_page ∅) wa_viewing with Ok _ => true | _ => false end = true) as E by (vm_compute; reflexivity).
    change (on_site (bookmark_current_page ∅) wa_viewing = Ok wa_marked). unfold wa_marked. destruct (on_site _ _); [reflexivity|discriminate E..].
Defined.

(** Bob's device in a conversation with Alice, before and after a restart. *)
Definition wr_key : bytes := replicate KEYSIZE 9.
Definition wr_before : Shared := let s := fresh (mkNet (transport_new wa_bob) 0 [] None) in
  with_store (set_d_state (write_string KEY_IDENTITY wr_key (d_state (store s))) (store s)) s.
Definition wr_console : Console :=
  mkConsole (mkApp (activate_peer wa_alice (save_to_contacts wa_alice (ascii "alice") wr_before)) sync_new browser_new ∅ ∅ ∅ (mkUi None None None true)) (ascii "precursor").
Definition wr_contacts : gmap bytes (bytes * option (bytes * option bytes)) := <[wa_alice := (ascii "alice", None)]> ∅.
Lemma wr_ok : mail_ok (shared (c_app wr_console)) ∧ peers_ok (shared (c_app wr_console)).
Proof.
  assert (mail_ok wr_before) as H.
  { destruct (fresh_ok (mkNet (transport_new wa_bob) 0 [] None)) as [[] _]. split; unfold wr_before; app_simpl; auto. }
  split; [apply activate_ok; [apply wa_address|]; apply save_contact_ok; [apply wa_address|done]|].
  intros p. change (Some wa_alice = Some p ∨ None = Some p → address p). intros [[= <-]|?]; [apply wa_address|done].
Qed.
Lemma wr_stored : stored_ok 32 wr_key wr_contacts ∅ wr_console.
Proof.
  split.
  - split; reflexivity.
  - assert (pending (mail (shared (c_app wr_console))) = ∅) as -> by (vm_compute; reflexivity). apply map_Forall_empty.
  - assert (delivery_updates (mail (shared (c_app wr_console))) = ∅) as -> by (vm_compute; reflexivity). apply map_Forall_empty.
  - split; [constructor|reflexivity].
  - split; [apply represents_write; [apply represents_empty|apply wa_address]|].
    apply map_Forall_insert_2; [|apply map_Forall_empty]. split; [split; [reflexivity|]|exact I]. apply (bool_decide_unpack _); vm_compute; exact I.
  - vm_compute. lia.
  - split; [apply represents_empty|apply map_Forall_empty].
  - split; [apply represents_empty|apply map_Forall_empty].
  - vm_compute. reflexivity.
  - vm_compute. reflexivity.
Qed.

(** ** Defects *)

(** Of two bookmarks with the same label, which for a long title and path is cut, the second
    can be neither opened nor removed: the first is. *)
Definition wa_twice : gmap bytes bytes :=
  persist_bookmark (ascii "News") (replicate 16 0xcc, ascii "/page/a.mu", []) (persist_bookmark (ascii "News") (replicate 16 0xcc, ascii "/page/b.mu", []) ∅).
Definition wa_pages (d : gmap bytes bytes) : list bytes := match read_bookmarks d with Ok l => (λ b, b.2.2.1.2) <$> l | _ => [] end.
Lemma second_of_label_kept : ∃ a, remove_bookmark wa_lower (Some (ascii "News")) (with_bookmarks wa_twice wa_app) = Ok a ∧
  (∃ x y, wa_pages wa_twice = [x; y] ∧ wa_pages (app_d_bookmarks a) = [y]) ∧
  ∀ pick a', remove_bookmark wa_lower pick (with_bookmarks wa_twice wa_app) = Ok a' → a' = a ∨ app_d_bookmarks a' = wa_twice.
Proof.
  assert (∃ k1 k2 b1 b2, load_bookmarks wa_lower wa_twice = Ok [(k1, (ascii "News", b1)); (k2, (ascii "News", b2))] ∧
    (∃ x y, wa_pages wa_twice = [x; y] ∧ wa_pages (delete k1 wa_twice) = [y])) as (k1 & k2 & b1 & b2 & E & Hp).
  { eexists _, _, _, _. split; [vm_compute; reflexivity|]. eexists _, _. split; vm_compute; reflexivity. }
  assert (∀ pick, remove_bookmark wa_lower pick (with_bookmarks wa_twice wa_app) =
    if bool_decide (pick = Some (ascii "News")) then Ok (with_bookmarks (delete k1 wa_twice) wa_app) else Ok (with_bookmarks wa_twice wa_app)) as H.
  { intros pick. unfold remove_bookmark, pick_bookmark. change (app_d_bookmarks (with_bookmarks wa_twice wa_app)) with wa_twice. rewrite E. res_simpl.
    case_bool_decide as Hn; [by subst pick|]. destruct pick as [c|]; [|done]. cbn [fmap list_fmap pick_from_list snd fst]. case_bool_decide; [done|].
    cbn [list_find]. assert (c ≠ ascii "News") by congruence. rewrite !decide_False by assumption. done. }
  exists (with_bookmarks (delete k1 wa_twice) wa_app). rewrite H, bool_decide_eq_true_2 by done. split; [done|]. split; [exact Hp|].
  intros pick a'. rewrite H. case_bool_decide; intros <-%Ok_inj; [by left|by right].
Qed.
(** With 32 nodes saved, announced nodes are not offered. *)
Lemma announced_nodes_hidden a : (ANNOUNCE_LIST_MAX ≤ length (entries_of (app_nodes a)))%nat → ∀ e, e ∈ node_entries a → app_nodes a !! e.1 = Some e.2.
Proof.
  intros Hl e. unfold node_entries. rewrite take_app_le by done. intros He%elem_of_take. destruct He as (i & Hi & _). apply list_elem_of_lookup_2 in Hi.
  rewrite entries_of_perm in Hi. destruct e. by apply elem_of_map_to_list in Hi.
Qed.
(** A name whose 32nd byte is inside a character ends the application. *)
Lemma set_name_panics : let typed := replicate 31 97 ++ [0xc3; 0xa9] in
  utf8_ok typed = true ∧ set_name wc_rand wc_ok wc_ok true wc_now (Some typed) wa_console = Panic.
Proof. split; vm_compute; reflexivity. Qed.
