(* ===== verification/Interfaces.v ===== *)
(** The interfaces and the user ([lxmfchat/src/lib.rs]: [connect], [interfaces_menu],
    [toggle_hub], [toggle_local_peers], [set_hub_interactive]; [net.rs]: [any_interface_up]): the
    connection to the hub, the local peers and the application that uses both.

    A device is the application with the two interfaces.  What the system answers when the local
    peers are started ([ll], [binds], [clone]) is an input, as are the answers of the modals. *)
From S2P Require Import Hub AutoInterface Prelude Constants Crypto Packet Identity Announce Msgpack Tables Transport TransportInv TransportFlow Outbox OutboxNet Storage StorageProps Inbound InboundProps InboundChat Dispatch Dialogue DocView ResourceWire Sync Browser BrowserProps DispatchProps LocalTime Actions.

Definition KEY_HUB : bytes := ascii "hub".
Definition KEY_AUTOIFACE : bytes := ascii "autoiface".
Definition KEY_HUB_ENABLED : bytes := ascii "hub_enabled".

(** [dv_hub] is the address as the user set it; the manager has its own copy. *)
Record Device := mkDevice { dv_console : Console; dv_hub : bytes; dv_conn : Hub.Conn; dv_auto : AutoInterface.AutoState }.
Definition dv_shared (d : Device) : Shared := shared (c_app (dv_console d)).
Definition dv_tp (d : Device) : Transport := app_tp (c_app (dv_console d)).
Definition with_console (c : Console) (d : Device) : Device := mkDevice c (dv_hub d) (dv_conn d) (dv_auto d).
Definition with_conn (n : Hub.Conn) (d : Device) : Device := mkDevice (dv_console d) (dv_hub d) n (dv_auto d).
Definition with_auto (s : AutoInterface.AutoState) (d : Device) : Device := mkDevice (dv_console d) (dv_hub d) (dv_conn d) s.
Definition on_dv_shared (f : Shared → Shared) (d : Device) : Device :=
  let a := c_app (dv_console d) in with_console (with_app (with_shared (f (shared a)) a) (dv_console d)) d.
(** A setting is written. *)
Definition save_setting (key value : bytes) (d : Device) : Device :=
  on_dv_shared (λ s, with_store (set_d_state (write_string key value (d_state (store s))) (store s)) s) d.
Definition any_interface_up (d : Device) : bool :=
  Hub.connected (dv_conn d) || (AutoInterface.enabled (dv_auto d) && negb (bool_decide (AutoInterface.peers (dv_auto d) = []))).

Section interfaces.
Context `{C : Crypto} (rand : nat → nat → bytes) (hub_ok auto_ok : nat → bool) (now : Z).

(** The routes learnt on an interface go. *)
Definition forget_routes (i : PathIface) (d : Device) : Device :=
  on_dv_shared (λ s, with_net (with_tp (a_net s) (drop_paths_on i (tp (a_net s)))) s) d.
(** Announced anew where an interface is left. *)
Definition re_announce (d : Device) : res Device :=
  if any_interface_up d then '(_, c) ← broadcast_announce rand hub_ok auto_ok true now (dv_console d); mret (with_console c d) else mret d.
Definition connect (d : Device) : Device :=
  let d := if Hub.hub_enabled (dv_conn d) then d else save_setting KEY_HUB_ENABLED (ascii "1") d in
  with_conn (Hub.user_connect (dv_hub d) (dv_conn d)) d.
Definition toggle_hub (d : Device) : res Device :=
  if Hub.hub_enabled (dv_conn d) then
    let d := save_setting KEY_HUB_ENABLED (ascii "0") d in
    let d := forget_routes Hub d in
    re_announce (with_conn (Hub.user_hub_off (dv_conn d)) d)
  else mret (connect d).
Definition toggle_local_peers (ll : option (Z * Z)) (binds clone : bool) (d : Device) : res Device :=
  if AutoInterface.enabled (dv_auto d) then
    let d := with_auto (AutoInterface.stop (dv_auto d)) d in
    re_announce (forget_routes Auto (save_setting KEY_AUTOIFACE (ascii "0") d))
  else
    let '(s, ok) := AutoInterface.start (dv_auto d) ll binds clone in
    mret (if ok : bool then save_setting KEY_AUTOIFACE (ascii "1") (with_auto s d) else with_auto s d).
Definition set_hub_interactive (fields : option (bytes * bytes)) (d : Device) : Device :=
  match fields with
  | None => d
  | Some (host, port) =>
      match Hub.set_hub (dv_hub d) (trim_str host) (trim_str port) with
      | Some h => save_setting KEY_HUB h (mkDevice (dv_console d) h (dv_conn d) (dv_auto d))
      | None => d
      end
  end.
(** A choice of the menu, which comes back until it is dismissed. *)
Inductive IfaceChoice := ToggleHub | ToggleLocal (ll : option (Z * Z)) (binds clone : bool) | SetHub (fields : option (bytes * bytes)).
Definition interfaces_choice (i : IfaceChoice) (d : Device) : res Device :=
  match i with
  | ToggleHub => toggle_hub d
  | ToggleLocal ll binds clone => toggle_local_peers ll binds clone d
  | SetHub fields => mret (set_hub_interactive fields d)
  end.
Fixpoint interfaces_menu (choices : list IfaceChoice) (d : Device) : res Device :=
  match choices with [] => mret d | i :: l => d ← interfaces_choice i d; interfaces_menu l d end.
(** The menu of the application, on a device. *)
Definition device_menu `{I : HashIter} `{B : Bz2} `{R : Rkyv} (W : Z) (lower : bytes → bytes) (our_dh : bytes) (choices : list IfaceChoice) (stored : option bytes)
    (m : Answers) (op : MenuOp) (d : Device) : res Device :=
  match op with
  | Connect => mret (connect d)
  | Interfaces => interfaces_menu choices d
  | _ =>
      let on := Hub.hub_enabled (dv_conn d) || AutoInterface.enabled (dv_auto d) in
      c ← on_menu W lower rand hub_ok auto_ok our_dh (any_interface_up d) on now stored m op (dv_console d);
      mret (with_console c d)
  end.
End interfaces.

(** ** What is left when an interface goes *)
Section left_over.
Context `{C : Crypto} `{I : HashIter} `{!HashOK, !DhOK, !SigOK} (rand : nat → nat → bytes) (hub_ok auto_ok : nat → bool) (now : Z).
Definition dv_dest (d : Device) : bytes := single_destination_hash (ascii "lxmf") [ascii "delivery"] (hash (Transport.identity (dv_tp d))).
Definition dv_info (d : Device) : KnownDest :=
  mkKnown (public (Transport.identity (dv_tp d))) (name_hash (ascii "lxmf") [ascii "delivery"]) None (c_name (dv_console d)).
Definition dv_wire (d : Device) : list bytes := wire (a_net (dv_shared d)).
(** No route leads through [i] any more and the others are kept; where another interface is up,
    one packet is sent on it, by which whoever hears it learns to reach us there. *)
Definition rerouted (i other : PathIface) (up : bool) (d d' : Device) : Prop :=
  (∀ dest e, tmap (paths (dv_tp d')) !! dest = Some e ↔ tmap (paths (dv_tp d)) !! dest = Some e ∧ pe_learned_on e ≠ i) ∧
  if up then ∃ raw, dv_wire d' = dv_wire d ++ [raw] ∧
    ∀ peer eph, tmap (links peer) !! dv_dest d = None → ∃ peer', handle_frame peer raw eph other = Ok (EvAnnounce (dv_dest d) (dv_info d), peer') ∧
      known peer' (dv_dest d) = Some (dv_info d) ∧ tmap (paths peer') !! dv_dest d = Some (mkPath None 1 other)
  else dv_wire d' = dv_wire d.
Lemma forget_routes_spec i d dest e : tmap (paths (dv_tp (forget_routes i d))) !! dest = Some e ↔ tmap (paths (dv_tp d)) !! dest = Some e ∧ pe_learned_on e ≠ i.
Proof. cbn. rewrite map_lookup_filter_Some. cbn. by rewrite bool_decide_eq_true. Qed.
Lemma re_announce_spec i other d d0 : (∀ k n, length (rand k n) = n) → private_ok (Transport.identity (dv_tp d)) →
  dv_wire d0 = dv_wire d → dv_dest d0 = dv_dest d → dv_info d0 = dv_info d → Transport.identity (dv_tp d0) = Transport.identity (dv_tp d) →
  (∀ dest e, tmap (paths (dv_tp d)) !! dest = Some e ↔ tmap (paths (dv_tp d0)) !! dest = Some e ∧ pe_learned_on e ≠ i) →
  ∃ d', re_announce rand hub_ok auto_ok now d = Ok d' ∧ dv_conn d' = dv_conn d ∧ dv_auto d' = dv_auto d ∧ store (dv_shared d') = store (dv_shared d) ∧
    rerouted i other (any_interface_up d) d0 d'.
Proof.
  intros Hr Hid Hw Hdest Hinfo Hi Hp. unfold re_announce. destruct (any_interface_up d); [|by exists d].
  set (r5 := rand (draws (a_net (dv_shared d))) 5%nat). assert (length r5 = 5%nat) as Hr5 by apply Hr.
  pose proof (λ ta eph, announce_discovers ta (dv_tp d) (ascii "lxmf") [ascii "delivery"] (c_name (dv_console d)) r5 eph now other Hid Hr5) as Ha.
  destruct (Ha (transport_new (Transport.identity (dv_tp d))) [] (lookup_empty _)) as (raw & _ & Hraw & _).
  eexists. split; [unfold broadcast_announce, app_random; cbn [fill_random]; change (app_tp _) with (dv_tp d) at 1; fold (dv_shared d) r5; rewrite Hraw; reflexivity|].
  do 3 (split; [done|]). split; [exact Hp|]. exists raw. split; [rewrite Hw; reflexivity|]. rewrite Hdest, Hinfo. intros peer eph Hl.
  destruct (Ha peer eph Hl) as (raw' & peer' & Hraw' & Hf & Hk & _ & Hpath). rewrite Hraw in Hraw'. injection Hraw' as <-. by exists peer'.
Qed.

Lemma hub_off_down c : hub_enabled (user_hub_off c) = false ∧ connected (user_hub_off c) = false.
Proof. unfold user_hub_off, force_reconnect, note_disconnect. cbn. destruct (disconnect_reason c); cbn; by destruct (ctl c). Qed.

End left_over.

(** C39: Switching an interface off leads around it.  It returns, the interface is off and stored
    as off; no route learnt on it is left and the others are kept; and if the other interface is
    up, exactly one packet goes out, by which every node that hears it there knows us under
    our present name and has a route to us on that interface.  If none is up, nothing is sent. *)
Theorem interface_off `{C : Crypto} `{I : HashIter} `{!HashOK, !DhOK, !SigOK} (rand : nat → nat → bytes) (hub_ok auto_ok : nat → bool) (now : Z)
  (Hrand : ∀ k n, length (rand k n) = n) (ll : option (Z * Z)) (binds clone : bool) (d : Device)
  (Hid : private_ok (Transport.identity (dv_tp d))) :
  (Hub.hub_enabled (dv_conn d) = true →
   ∃ d', toggle_hub rand hub_ok auto_ok now d = Ok d' ∧ Hub.hub_enabled (dv_conn d') = false ∧ Hub.connected (dv_conn d') = false ∧
     read_string KEY_HUB_ENABLED (d_state (store (dv_shared d'))) = Some (ascii "0") ∧
     rerouted Hub Auto (AutoInterface.enabled (dv_auto d) && negb (bool_decide (AutoInterface.peers (dv_auto d) = []))) d d') ∧
  (AutoInterface.enabled (dv_auto d) = true →
   ∃ d', toggle_local_peers rand hub_ok auto_ok now ll binds clone d = Ok d' ∧ AutoInterface.enabled (dv_auto d') = false ∧ AutoInterface.peers (dv_auto d') = [] ∧
     read_string KEY_AUTOIFACE (d_state (store (dv_shared d'))) = Some (ascii "0") ∧ rerouted Auto Hub (Hub.connected (dv_conn d)) d d').
Proof.
  split; intros Hon.
  - unfold toggle_hub. rewrite Hon. cbv zeta. match goal with |- context [re_announce _ _ _ _ ?x] => set (d1 := x) end.
    destruct (re_announce_spec rand hub_ok auto_ok now Hub Auto d1 d Hrand) as (d' & -> & Ec & Ea & Es & Hr); [exact Hid|done..|intros; apply (forget_routes_spec Hub (save_setting KEY_HUB_ENABLED [48] d))|].
    destruct (hub_off_down (dv_conn d)) as [Hoff Hdown]. exists d'. split; [done|]. rewrite Ec, Es. split; [exact Hoff|]. split; [exact Hdown|].
    split; [by apply string_reload|]. unfold any_interface_up in Hr. change (dv_conn d1) with (user_hub_off (dv_conn d)) in Hr. by rewrite Hdown in Hr.
  - unfold toggle_local_peers. rewrite Hon. cbv zeta. match goal with |- context [re_announce _ _ _ _ ?x] => set (d1 := x) end.
    destruct (re_announce_spec rand hub_ok auto_ok now Auto Hub d1 d Hrand) as (d' & -> & Ec & Ea & Es & Hr); [exact Hid|done..|intros; apply (forget_routes_spec Auto (save_setting KEY_AUTOIFACE [48] (with_auto (stop (dv_auto d)) d)))|].
    exists d'. split; [done|]. rewrite Ea, Es. split; [done|]. split; [done|]. split; [by apply string_reload|].
    unfold any_interface_up in Hr. cbn in Hr. by rewrite orb_false_r in Hr.
Qed.

(** ** Witnesses *)
Import ToyInstances.
#[local] Instance iface_iter : HashIter := λ V m, map_to_list m.
(** A device connected to the hub, with one local peer and a route over each. *)
Definition wi_tp : Transport :=
  insert_path (replicate 16 2) (mkPath None 1 Auto) (insert_path (replicate 16 1) (mkPath None 2 Hub) (transport_new wc_bob)).
Definition wi_app : App := mkApp (fresh (mkNet wi_tp 0 [] None)) sync_new browser_new ∅ ∅ ∅ (mkUi None None None true).
Definition wi_conn : Conn := mkConn (ascii "10.0.0.1:4242") true true (Some 0%nat) (Some 0%nat) None 0 0 None [mkSocket (ascii "10.0.0.1", 4242) [] [] false].
Definition wi_auto : AutoState := mkAuto true true (Some 7) 0 true [(8, mkPeer 0 0 0 true)].
Definition wi_device : Device := mkDevice (mkConsole wi_app (ascii "bob")) (ascii "10.0.0.1:4242") wi_conn wi_auto.
Definition wi_rand (i k : nat) : bytes := replicate k (Z.of_nat i mod 256).
Lemma interface_off_witness :
  (∃ d', toggle_hub wi_rand (λ _, true) (λ _, true) 1700000000 wi_device = Ok d' ∧ rerouted Hub Auto true wi_device d') ∧
  (∃ d', toggle_local_peers wi_rand (λ _, true) (λ _, true) 1700000000 None true true wi_device = Ok d' ∧ rerouted Auto Hub true wi_device d').
Proof.
  assert (∀ k n, length (wi_rand k n) = n) as Hr by (intros; apply length_replicate).
  assert (private_ok (Transport.identity (dv_tp wi_device))) as Hid by (by apply from_bytes_ok).
  destruct (interface_off wi_rand (λ _, true) (λ _, true) 1700000000 Hr None true true wi_device Hid) as [H1 H2].
  destruct (H1 eq_refl) as (d1 & E1 & _ & _ & _ & R1). destruct (H2 eq_refl) as (d2 & E2 & _ & _ & _ & R2).
  split; [exists d1|exists d2]; by split.
Defined.
