(* ===== verification/HostClient.v ===== *)
(** The host client ([host-client/src/main.rs]): a command-line driver of the same libraries for
    tests against a real hub.  It announces itself, and listens, sends a message (as one packet or
    over a link), fetches stored messages from a propagation node, or fetches a page.

    [main] is its start ([host_start]) and one step per packet that its reader thread hands over
    ([host_frame], within [host_loop]).  Text is UTF-8 bytes.  What is printed is kept for messages,
    pages and results; lines on progress are left out.  Random values are drawn by number of
    draw and length, [io] says which writes succeed, [W] is the width of [usize]. *)
From S2P Require Import Micron DocView Sync Browser Storage Prelude Constants Hdlc Crypto Packet Identity Link Msgpack Message ResourceWire Resource Tables Transport.

Inductive Mode := Listen | Send | SendDirect | SyncMode | Fetch | OtherMode.
#[export] Instance Mode_eq_dec : EqDecision Mode.
Proof. solve_decision. Defined.

Inductive Printed :=
  | PLxmf (source title content : bytes) (sig_valid : bool)
  | PLinkLxmf (content : bytes) (sig_valid : bool)
  | PResourceLxmf (size chars : Z) (head : str) (sig_valid : bool)
  | PSynced (source content : bytes) (sig_valid : bool)
  | PDelivered (packet_hash : bytes)
  | PPage (source : str) (doc : Document)
  | PErrorCode (code : Z)
  | PNote (what : string).

(** What [main] keeps between packets. *)
Record Host := mkHost {
  h_tp : Transport; h_sent : bool; h_done : bool; h_phase : Z;
  h_rx : option ResourceReceiver; h_rxs : gmap bytes ResourceReceiver; h_pending : option (bytes * bytes);
}.
Definition h_set_tp (t : Transport) (h : Host) : Host := mkHost t (h_sent h) (h_done h) (h_phase h) (h_rx h) (h_rxs h) (h_pending h).
Definition h_set_sent (h : Host) : Host := mkHost (h_tp h) true (h_done h) (h_phase h) (h_rx h) (h_rxs h) (h_pending h).
Definition h_set_done (h : Host) : Host := mkHost (h_tp h) (h_sent h) true (h_phase h) (h_rx h) (h_rxs h) (h_pending h).
Definition h_set_phase (p : Z) (h : Host) : Host := mkHost (h_tp h) (h_sent h) (h_done h) p (h_rx h) (h_rxs h) (h_pending h).
Definition h_set_rx (r : option ResourceReceiver) (h : Host) : Host := mkHost (h_tp h) (h_sent h) (h_done h) (h_phase h) r (h_rxs h) (h_pending h).
Definition h_set_rxs (r : gmap bytes ResourceReceiver) (h : Host) : Host := mkHost (h_tp h) (h_sent h) (h_done h) (h_phase h) (h_rx h) r (h_pending h).
Definition h_set_pending (p : option (bytes * bytes)) (h : Host) : Host := mkHost (h_tp h) (h_sent h) (h_done h) (h_phase h) (h_rx h) (h_rxs h) p.

(** ** Computations: the state, the draws made, the stream written and the lines printed *)
Record HostWorld := mkHW { hw_host : Host; hw_draws : nat; hw_wire : list bytes; hw_out : list Printed }.
Definition HM (A : Type) : Type := HostWorld → res (A * HostWorld).
#[export] Instance HM_ret : MRet HM := λ A a w, Ok (a, w).
#[export] Instance HM_bind : MBind HM := λ A B f m w, '(a, w) ← m w; f a w.
Definition h_get : HM Host := λ w, Ok (hw_host w, w).
Definition h_upd (f : Host → Host) : HM () := λ w, Ok (tt, mkHW (f (hw_host w)) (hw_draws w) (hw_wire w) (hw_out w)).
Definition h_lift {A} (r : res A) : HM A := λ w, a ← r; Ok (a, w).
Definition say (p : Printed) : HM () := λ w, Ok (tt, mkHW (hw_host w) (hw_draws w) (hw_wire w) (hw_out w ++ [p])).

Section host.
Context `{C : Crypto} `{I : HashIter} `{B : Bz2} (W : Z) (rand : nat → nat → bytes) (io : nat → bool).
Context (mode : Mode) (our_dh : bytes) (target : option bytes) (text fetch_path : bytes).

Definition draw_bytes (k : nat) : HM bytes := λ w, Ok (rand (hw_draws w) k, mkHW (hw_host w) (S (hw_draws w)) (hw_wire w) (hw_out w)).
(** A packet is framed and written; [.ok()] or [.expect(..)]. *)
Definition write (raw : bytes) : HM () := λ w, Ok (tt, mkHW (hw_host w) (hw_draws w) (hw_wire w ++ [frame raw]) (hw_out w)).
Definition write_expect (raw : bytes) : HM () := λ w, if io (length (hw_wire w)) then write raw w else Panic.
(** A packet is made on the transport and written; whether it could be made. *)
Definition write_made (made : res bytes) : HM bool :=
  o ← h_lift (res_ok made); match o with Some raw => write raw ;; mret true | None => mret false end.
(** The same for one that the transport keeps a receipt of. *)
Definition write_tracked (made : res (bytes * bytes * Transport)) : HM bool :=
  o ← h_lift (res_ok made);
  match o with Some (raw, _, t) => h_upd (h_set_tp t) ;; write raw ;; mret true | None => mret false end.

(** [unhex]: it panics on what is not pairs of digits. *)
Definition host_unhex (s : bytes) : res bytes := o ← hex_pairs (Nat.div2 (S (length s))) 0 s; expect o.
Definition host_target (arg : bytes) : res bytes := v ← host_unhex arg; copy_exact 16 v.
(** The identity of a seed. *)
Definition host_identity (seed : Z) : PrivateIdentity := from_bytes (replicate KEY_HALF seed) (replicate KEY_HALF ((seed + 1) mod 256)).

(** ** Messages *)

(** The identity we know for the source that a message names. *)
Definition source_of (t : Transport) (lxmf : bytes) : res (option PublicIdentity) :=
  if decide (32 ≤ length lxmf)%nat then h ← slice lxmf 16 32; mret (kd_identity <$> known t h) else mret None.
Definition read_message (lxmf : bytes) (show : ParsedMessage → Printed) : HM () :=
  h ← h_get;
  src ← h_lift (source_of (h_tp h) lxmf);
  m ← h_lift (res_ok (Message.parse W lxmf src));
  say (match m with Some m => show m | None => PNote "parse failed" end).

Definition send_backchannel_reply (now : Z) (link_id peer : bytes) : HM bool :=
  h ← h_get;
  let reply := pack (identity (h_tp h)) peer our_dh (i64_as_f64 now) [] (ascii "backchannel reply from host-client") [] None in
  iv ← draw_bytes IV_LENGTH;
  write_tracked (make_in_link_data (h_tp h) link_id (Message.packed reply) iv).
Definition send_message (now : Z) (t : bytes) : HM () :=
  h ← h_get;
  k ← h_lift (expect (known (h_tp h) t));
  let msg := pack (identity (h_tp h)) t our_dh (i64_as_f64 now) [] text [] None in
  pt ← h_lift (opportunistic_plaintext msg);
  eph ← draw_bytes KEY_HALF;
  iv ← draw_bytes IV_LENGTH;
  pkt ← h_lift (make_opportunistic_with (h_tp h) t (kd_identity k) (kd_ratchet k) pt eph iv);
  write_expect pkt.

(** ** Requests on a link we opened *)
Definition send_request (now : Z) (link_id path : bytes) (data : Value) : HM () :=
  h ← h_get;
  iv ← draw_bytes IV_LENGTH;
  write_made (make_out_link_context (h_tp h) link_id CONTEXT_REQUEST
    (encode (Array [F64 (i64_as_f64 now); Bin (truncated_hash path); data])) iv) ;; mret tt.
Definition sync_send_get (now : Z) (link_id : bytes) (data : Value) : HM () := send_request now link_id (ascii "/get") data.
Definition send_resource_req (link_id req : bytes) (inbound : bool) : HM () :=
  h ← h_get;
  iv ← draw_bytes IV_LENGTH;
  write_made (if inbound then make_in_link_context (h_tp h) link_id CONTEXT_RESOURCE_REQ req iv
              else make_out_link_context (h_tp h) link_id CONTEXT_RESOURCE_REQ req iv) ;; mret tt.
Definition resource_req_opt (link_id : bytes) (req : option bytes) (inbound : bool) : HM () :=
  match req with Some req => send_resource_req link_id req inbound | None => mret tt end.
Definition parse_resp (payload : bytes) : res (option Value) :=
  v ← res_ok (Msgpack.decode W payload);
  mret (v ← v; a ← as_array v; if decide (length a < 2)%nat then None else a !! 1%nat).

(** A part for a receiver: whether the resource is complete, the next request, and the receiver. *)
Definition take_part (r : ResourceReceiver) (part : bytes) : res (bool * option bytes * ResourceReceiver) :=
  let '(window_done, r) := receive_part r part in
  if is_complete r then mret (true, None, r)
  else if window_done then '(req, r) ← next_request r; mret (false, req, r)
  else mret (false, None, r).
(** A complete resource: its payload and the proof for it. *)
Definition finish_resource (r : ResourceReceiver) (decrypted : bytes → res bytes) : HM (option (bytes * bytes)) :=
  let stream := concat_parts r in
  plain ← (if rr_encrypted r then h_lift (res_ok (decrypted stream)) else mret (Some stream));
  match plain with
  | None => say (PNote "decrypt failed") ;; mret None
  | Some plain =>
      fin ← h_lift (res_ok (finish r plain));
      match fin with Some f => mret (Some f) | None => say (PNote "finish failed") ;; mret None end
  end.

Definition outlink_response (link_id : bytes) (context : Z) (plaintext : bytes) : HM (option bytes) :=
  h ← h_get;
  if context =? CONTEXT_RESPONSE then mret (Some plaintext)
  else if context =? CONTEXT_RESOURCE_ADV then
    r ← h_lift (res_ok (accept W plaintext));
    match r with
    | Some r => '(req, r) ← h_lift (next_request r); resource_req_opt link_id req false ;; h_upd (h_set_rx (Some r)) ;; mret None
    | None => say (PNote "resource advertisement rejected") ;; mret None
    end
  else if context =? CONTEXT_RESOURCE_HMU then
    match h_rx h with
    | None => mret None
    | Some r =>
        r ← h_lift (res_ok (receive_hashmap_update W r plaintext));
        match r with
        | Some r => '(req, r) ← h_lift (next_request r); h_upd (h_set_rx (Some r)) ;; resource_req_opt link_id req false ;; mret None
        | None => say (PNote "bad hashmap update") ;; mret None
        end
    end
  else if context =? CONTEXT_RESOURCE then
    match h_rx h with
    | None => mret None
    | Some r =>
        '(complete, req, r) ← h_lift (take_part r plaintext);
        h_upd (h_set_rx (Some r)) ;;
        resource_req_opt link_id req false ;;
        if negb complete then mret None
        else
          h_upd (h_set_rx None) ;;
          fin ← finish_resource r (decrypt_out_link (h_tp h) link_id);
          match fin with
          | Some (payload, proof) => write_made (make_out_link_resource_proof (h_tp h) link_id proof) ;; mret (Some payload)
          | None => mret None
          end
    end
  else mret None.

(** A page: its source and the lines and links it parses to. *)
Definition fetch_response (resp : Value) : HM () :=
  match resp with
  | Int code => say (PErrorCode code)
  | Bin b | Str b =>
      let src := chars_lossy b in
      doc ← h_lift (expect (Micron.parse src));
      say (PPage src doc)
  | _ => say (PNote "unexpected response shape")
  end.

(** ** Synchronisation *)
Definition sync_deliver (blob : bytes) : HM () :=
  if decide (length blob ≤ 16)%nat then mret tt
  else
    h ← h_get;
    rest ← h_lift (slice_from blob 16);
    plain ← h_lift (res_ok (Identity.decrypt (identity (h_tp h)) rest []));
    match plain with
    | Some plain => head ← h_lift (slice_to blob 16); read_message (head ++ plain) (λ m, PSynced (p_source_hash m) (content_string m) (p_signature_validated m))
    | None => say (PNote "decrypt failed")
    end.
Fixpoint sync_blobs (blobs : list Value) : HM (list Value) :=
  match blobs with
  | [] => mret []
  | b :: blobs =>
      match as_bin b with
      | Some bin => sync_deliver bin ;; haves ← sync_blobs blobs; mret (Bin (full_hash bin) :: haves)
      | None => sync_blobs blobs
      end
  end.
Definition sync_response (now : Z) (link_id : bytes) (resp : Value) : HM () :=
  match resp with
  | Int code => say (PErrorCode code) ;; h_upd (h_set_phase 0)
  | _ =>
      h ← h_get;
      if h_phase h =? 1 then
        let ids := default [] (as_array resp) in
        if bool_decide (ids = []) then h_upd (h_set_phase 0)
        else sync_send_get now link_id (Array [Array ids; Array []; Int 1000]) ;; h_upd (h_set_phase 2)
      else if h_phase h =? 2 then
        haves ← sync_blobs (default [] (as_array resp));
        (if bool_decide (haves = []) then mret tt else sync_send_get now link_id (Array [Nil; Array haves])) ;;
        h_upd (h_set_phase 0)
      else mret tt
  end.
Definition sync_handle_outlink (now : Z) (link_id : bytes) (context : Z) (plaintext : bytes) : HM () :=
  payload ← outlink_response link_id context plaintext;
  match payload with
  | Some payload => resp ← h_lift (parse_resp payload); match resp with Some resp => sync_response now link_id resp | None => mret tt end
  | None => mret tt
  end.

(** ** Resources from a peer, on a link of either side *)
Definition link_resource (link_id : bytes) (context : Z) (plaintext : bytes) (inbound : bool) : HM () :=
  h ← h_get;
  if context =? CONTEXT_RESOURCE_ADV then
    r ← h_lift (res_ok (accept W plaintext));
    match r with
    | Some r => '(req, r) ← h_lift (next_request r); resource_req_opt link_id req inbound ;; h_upd (h_set_rxs (<[link_id := r]> (h_rxs h)))
    | None => say (PNote "resource advertisement rejected")
    end
  else if context =? CONTEXT_RESOURCE_HMU then
    match h_rxs h !! link_id with
    | None => mret tt
    | Some r =>
        r ← h_lift (res_ok (receive_hashmap_update W r plaintext));
        match r with
        | Some r => '(req, r) ← h_lift (next_request r); h_upd (h_set_rxs (<[link_id := r]> (h_rxs h))) ;; resource_req_opt link_id req inbound
        | None => say (PNote "bad hashmap update")
        end
    end
  else if context =? CONTEXT_RESOURCE then
    match h_rxs h !! link_id with
    | None => mret tt
    | Some r =>
        '(complete, req, r) ← h_lift (take_part r plaintext);
        h_upd (h_set_rxs (<[link_id := r]> (h_rxs h))) ;;
        resource_req_opt link_id req inbound ;;
        if negb complete then mret tt
        else
          h_upd (h_set_rxs (delete link_id (h_rxs h))) ;;
          fin ← finish_resource r (if inbound then decrypt_in_link (h_tp h) link_id else decrypt_out_link (h_tp h) link_id);
          match fin with
          | Some (payload, proof) =>
              write_made (if inbound then make_in_link_resource_proof (h_tp h) link_id proof else make_out_link_resource_proof (h_tp h) link_id proof) ;;
              read_message payload (λ m, let content := chars_lossy (p_content m) in
                PResourceLxmf (len_of payload) (Z.of_nat (length content)) (take 60 content) (p_signature_validated m))
          | None => mret tt
          end
    end
  else say (PNote "context ignored").

(** ** Events *)

(** The target was announced: send, or open a link to it. *)
Definition on_target (now : Z) (t : bytes) : HM () :=
  h ← h_get;
  (if bool_decide (mode = SendDirect ∨ mode = SyncMode ∨ mode = Fetch) then
     k ← h_lift (expect (known (h_tp h) t));
     ex ← draw_bytes KEY_HALF;
     ed ← draw_bytes KEY_HALF;
     '(req, _, tp) ← h_lift (make_link_request (h_tp h) t (kd_identity k) ex ed now);
     h_upd (h_set_tp tp) ;; write req
   else send_message now t) ;;
  h_upd h_set_sent.
Definition host_identify (link_id : bytes) : HM () :=
  h ← h_get; iv ← draw_bytes IV_LENGTH; write_made (make_out_link_identify (h_tp h) link_id iv) ;; mret tt.
(** The request of a page; the fields after a backtick go as its data. *)
Definition page_request : bytes * Value :=
  match Micron.split_once 96 fetch_path with
  | Some (p, varstr) => (p, StrMap ((λ kv : bytes * bytes, (ascii "var_" ++ kv.1, Str kv.2)) <$> parse_vars varstr))
  | None => (fetch_path, Nil)
  end.
Definition on_link_up (now : Z) (link_id lt : bytes) : HM () :=
  h ← h_get;
  riv ← draw_bytes IV_LENGTH;
  write_made (make_link_rtt (h_tp h) link_id riv) ;;
  match mode with
  | SyncMode => host_identify link_id ;; sync_send_get now link_id (Array [Nil; Nil]) ;; h_upd (h_set_phase 1)
  | Fetch => let '(path, data) := page_request in send_request now link_id path data
  | _ =>
      host_identify link_id ;;
      let msg := Message.packed (pack (identity (h_tp h)) lt our_dh (i64_as_f64 now) [] text [] None) in
      if 431 <? len_of msg then
        r ← draw_bytes 4; pf ← draw_bytes 4; iv ← draw_bytes IV_LENGTH; aiv ← draw_bytes IV_LENGTH;
        write_tracked (make_link_resource (h_tp h) link_id msg r pf iv aiv) ;; mret tt
      else iv ← draw_bytes IV_LENGTH; write_tracked (make_link_data (h_tp h) link_id msg iv) ;; mret tt
  end.
Fixpoint write_all (packets : list bytes) : HM () :=
  match packets with [] => mret tt | p :: ps => write p ;; write_all ps end.
Definition on_out_link_data (now : Z) (link_id : bytes) (context : Z) (plaintext : bytes) : HM () :=
  served ← (if context =? CONTEXT_RESOURCE_REQ then
              h ← h_get;
              iv ← draw_bytes IV_LENGTH;
              packets ← h_lift (serve_link_resource (h_tp h) link_id plaintext iv);
              write_all packets ;; mret (negb (bool_decide (packets = [])))
            else mret false);
  if served : bool then mret tt
  else match mode with
  | SyncMode => sync_handle_outlink now link_id context plaintext
  | Fetch =>
      payload ← outlink_response link_id context plaintext;
      match payload with
      | Some payload => resp ← h_lift (parse_resp payload); match resp with Some resp => fetch_response resp ;; h_upd h_set_done | None => mret tt end
      | None => mret tt
      end
  | _ => link_resource link_id context plaintext false
  end.

Definition host_event (now : Z) (e : Event) : HM () :=
  match e with
  | EvLinkEstablished _ proof => write proof
  | EvLinkData link_id plaintext proof =>
      write proof ;;
      read_message plaintext (λ m, PLinkLxmf (content_string m) (p_signature_validated m)) ;;
      if bool_decide (mode = Listen) && bool_decide (32 ≤ length plaintext)%nat then
        peer ← h_lift (slice plaintext 16 32);
        sent ← send_backchannel_reply now link_id peer;
        if sent : bool then mret tt else h_upd (h_set_pending (Some (link_id, peer)))
      else mret tt
  | EvLinkIdentified link_id _ =>
      h ← h_get;
      match h_pending h with
      | Some (lid, peer) =>
          if bool_decide (lid = link_id) then
            sent ← send_backchannel_reply now lid peer;
            if sent : bool then h_upd (h_set_pending None) else mret tt
          else mret tt
      | None => mret tt
      end
  | EvLinkKeepalive _ reply => write reply
  | EvAnnounce destination_hash _ =>
      h ← h_get;
      if bool_decide (target = Some destination_hash) && negb (h_sent h) then on_target now destination_hash else mret tt
  | EvOutboundLinkUp link_id lt => on_link_up now link_id lt
  | EvDelivered packet_hash => say (PDelivered packet_hash)
  | EvData destination_hash plaintext proof =>
      write proof ;;
      read_message (destination_hash ++ plaintext) (λ m, PLxmf (p_source_hash m) (title_string m) (content_string m) (p_signature_validated m))
  | EvOutLinkData link_id context plaintext => on_out_link_data now link_id context plaintext
  | EvInLinkData link_id context plaintext => link_resource link_id context plaintext true
  | EvPathRequest _ =>
      h ← h_get;
      r5 ← draw_bytes 5;
      resp ← h_lift (make_path_response_with (h_tp h) (ascii "lxmf") [ascii "delivery"] (ascii "host-client") r5 now);
      write resp
  | EvInLinkClosed _ | EvDataUndecryptable _ _ | EvAddressedUnhandled _ _ _ | EvOutLinkClosed _ | EvUnhandled _ _ _ | EvDropped _ => mret tt
  end.

(** ** [main] *)
Definition host_start (now : Z) : HM () :=
  h ← h_get;
  r5 ← draw_bytes 5;
  ann ← h_lift (make_announce_with (h_tp h) (ascii "lxmf") [ascii "delivery"] (ascii "host-client") r5 now);
  write_expect ann ;;
  match target with
  | Some t =>
      tag ← draw_bytes 16;
      pr ← h_lift (make_path_request (h_tp h) t tag);
      write pr
  | None => mret tt
  end.
(** The reader thread: the packets of the stream of the hub, read by read. *)
Definition host_reader (reads : list bytes) : list bytes := (push_reads Hdlc.new reads).2.
(** A packet of the reader thread. *)
Definition host_frame (now : Z) (raw : bytes) : HM () :=
  h ← h_get;
  eph ← draw_bytes 32;
  '(e, t) ← h_lift (handle_frame (h_tp h) raw eph Hub);
  h_upd (h_set_tp t) ;;
  host_event now e.
(** The packets, each with the time it is taken from the channel. *)
Fixpoint host_loop (deadline : Z) (packets : list (Z * bytes)) : HM () :=
  match packets with
  | [] => mret tt
  | (now, raw) :: packets =>
      h ← h_get;
      if (deadline <=? now) || h_done h then mret tt else host_frame now raw ;; host_loop deadline packets
  end.
(** The exit code. *)
Definition exit_code (h : Host) : Z := if bool_decide (mode = Send) && negb (h_sent h) then 1 else 0.
End host.
Definition host_new `{C : Crypto} (seed : Z) : bytes * Host :=
  let id := host_identity seed in
  let our_dh := single_destination_hash (ascii "lxmf") [ascii "delivery"] (id_hash (public id)) in
  (our_dh, mkHost (register_destination our_dh (transport_new id)) false false 0 None ∅ None).
