(* ===== verification/HostClientProps.v ===== *)
(** What two host clients do with each other over a hub, and what a fetch tells of the one who
    fetches. *)
From S2P Require Import Micron DocView Sync Browser Storage StorageProps Prelude Constants Hdlc Crypto Packet Identity Announce Link Msgpack Message ResourceWire Resource Tables Transport TransportInv TransportFlow OutboxNet Inbound InboundProps InboundChat HostClient.

(** ** Streams *)
Lemma encode_nonempty p raw : packet_ok p → Packet.encode p = Ok raw → raw ≠ [].
Proof. intros Hp E ->. destruct (packet_roundtrip p Hp) as (raw & E' & Hd). rewrite E in E'. injection E' as <-. discriminate Hd. Qed.
Lemma reader_gets pkts reads : Forall (λ p, p ≠ []) pkts → concat reads = concat (frame <$> pkts) → host_reader reads = pkts.
Proof.
  intros Hp Hr. unfold host_reader. rewrite push_reads_concat, Hr. destruct Hp as [|p ps Hp Hps]; [done|].
  cbn [fmap list_fmap concat]. rewrite push_app, push_frame. change (flushed new) with (@nil bytes). rewrite decide_False by done.
  by rewrite push_frames_synced.
Qed.

(** ** Packets between two clients *)
Section heard.
Context `{C : Crypto} `{I : HashIter} `{!HashOK, !KdfOK, !CipherOK, !DhOK, !SigOK}.
Local Notation lxmf := (ascii "lxmf").
Local Notation aspects := [ascii "delivery"].

(** What a transport is after an announce from the hub. *)
Definition heard (dest : bytes) (info : KnownDest) (t : Transport) : Transport :=
  insert_path dest (mkPath None 1 Hub) (insert_known dest info t).
Definition host_dest (id : PrivateIdentity) : bytes := single_destination_hash lxmf aspects (hash id).
Definition host_info (id : PrivateIdentity) : KnownDest := mkKnown (public id) (name_hash lxmf aspects) None (ascii "host-client").

Lemma known_heard dest info t : known (heard dest info t) dest = Some info.
Proof. apply table_insert_lookup. Qed.
Lemma announce_heard ta tb r5 now : private_ok (identity tb) → length r5 = 5%nat → tmap (links ta) !! host_dest (identity tb) = None →
  ∃ raw, make_announce_with tb lxmf aspects (ascii "host-client") r5 now = Ok raw ∧ raw ≠ [] ∧
    ∀ eph, handle_frame ta raw eph Hub = Ok (EvAnnounce (host_dest (identity tb)) (host_info (identity tb)), heard (host_dest (identity tb)) (host_info (identity tb)) ta).
Proof.
  intros Hid Hr Hl.
  destruct (announce_parses (identity tb) lxmf aspects (ascii "host-client") (random_hash r5 now) None Hid) as [Hok Hp];
    [unfold random_hash; rewrite length_app, length_drop, be_bytes_length; lia|done|].
  destruct (packet_roundtrip _ Hok) as (raw & He & Hdec). exists raw. split_and!; [done|by eapply encode_nonempty|].
  intros eph. eapply handle_frame_packet; [done|]. rewrite handle_packet_announce by done. unfold handle_announce. by rewrite Hp.
Qed.
Lemma path_request_heard ta tb dest tag : length dest = TRUNCATED_HASHLENGTH → dest ∈ our_dests tb →
  tmap (links tb) !! path_request_dest = None → tmap (out_links tb) !! path_request_dest = None →
  ∃ raw, make_path_request ta dest tag = Ok raw ∧ raw ≠ [] ∧ ∀ eph, handle_frame tb raw eph Hub = Ok (EvPathRequest dest, tb).
Proof.
  intros Hd Hin Hl Ho. unfold make_path_request. set (p := header1 _ _ _ _ _).
  assert (packet_ok p) as Hok by (apply header1_ok; [set_solver|set_solver|apply plain_destination_hash_length]).
  destruct (packet_roundtrip p Hok) as (raw & He & Hdec). exists raw. split_and!; [done|by eapply encode_nonempty|].
  intros eph. eapply handle_frame_packet; [done|]. rewrite off_link_falls by done. unfold handle_rest.
  rewrite decide_False by done. rewrite decide_True by done. unfold handle_path_request. change (data p) with (dest ++ tag).
  rewrite decide_False by (rewrite length_app; lia). rewrite slice_to_app by done. res_simpl. by rewrite decide_True.
Qed.
Lemma opportunistic_heard ta tb dest pt es iv : private_ok (identity tb) → length dest = TRUNCATED_HASHLENGTH →
  length es = KEY_HALF → length iv = IV_LENGTH → dest ∈ our_dests tb → dest ≠ path_request_dest →
  tmap (links tb) !! dest = None → tmap (out_links tb) !! dest = None → tmap (paths ta) !! dest = Some (mkPath None 1 Hub) →
  ∃ raw, make_opportunistic_with ta dest (public (identity tb)) None pt es iv = Ok raw ∧ raw ≠ [] ∧
    ∀ eph, ∃ proof, handle_frame tb raw eph Hub = Ok (EvData dest pt proof, tb).
Proof.
  intros Hid Hd He Hiv Hin Hnp Hl Ho Hpath.
  destruct (encrypt_opens (identity tb) pt es iv None [] [] Hid He Hiv) as (ct & Hct & Hdec); [done|]. cbn [fmap option_fmap option_map] in Hct.
  set (p := header1 DEST_SINGLE PACKET_DATA CONTEXT_NONE dest ct).
  assert (packet_ok p) as Hok by (by apply header1_ok; [set_solver|set_solver|]).
  destruct (packet_roundtrip p Hok) as (raw & Henc & Hde).
  pose proof (packet_hash_ok p (header1_tid _ _ _ _ _)) as Hh. set (full := full_hash _) in Hh.
  pose proof (packet_hash_length _ _ Hh) as Hfl. exists raw. split_and!; [|by eapply encode_nonempty|].
  - unfold make_opportunistic_with. rewrite Hct. res_simpl. fold p. rewrite Henc. res_simpl. unfold apply_transport. by rewrite Hpath.
  - intros eph. destruct (packet_roundtrip (header1 DEST_SINGLE PACKET_PROOF CONTEXT_NONE (take TRUNCATED_HASHLENGTH full) (full ++ sign (identity tb) full)))
      as (proof & Hpe & _); [apply header1_ok; [set_solver|set_solver|wlen]|].
    exists proof. eapply handle_frame_packet; [done|]. rewrite handle_packet_opportunistic by done.
    unfold handle_opportunistic. change (data p) with ct. rewrite Hdec. cbn [res_case]. rewrite Hh. res_simpl.
    rewrite slice_to_ok by wlen. res_simpl. by rewrite Hpe.
Qed.
End heard.

(** ** Running the computations of a client *)
Section running.
Context (rand : nat → nat → bytes) {A B : Type}.
Implicit Types w : HostWorld.
Lemma hm_get (f : Host → HM B) w : (h_get ≫= f) w = f (hw_host w) w.
Proof. done. Qed.
Lemma hm_ret (a : A) (f : A → HM B) w : ((mret a : HM A) ≫= f) w = f a w.
Proof. done. Qed.
Lemma hm_upd (g : Host → Host) (f : () → HM B) w : (h_upd g ≫= f) w = f tt (mkHW (g (hw_host w)) (hw_draws w) (hw_wire w) (hw_out w)).
Proof. done. Qed.
Lemma hm_draw k (f : bytes → HM B) w : (draw_bytes rand k ≫= f) w = f (rand (hw_draws w) k) (mkHW (hw_host w) (S (hw_draws w)) (hw_wire w) (hw_out w)).
Proof. done. Qed.
Lemma hm_lift (a : A) (f : A → HM B) w : (h_lift (Ok a) ≫= f) w = f a w.
Proof. done. Qed.
Lemma hm_write raw (f : () → HM B) w : (write raw ≫= f) w = f tt (mkHW (hw_host w) (hw_draws w) (hw_wire w ++ [frame raw]) (hw_out w)).
Proof. done. Qed.
Lemma hm_expect raw (f : () → HM B) w : (write_expect (λ _, true) raw ≫= f) w = f tt (mkHW (hw_host w) (hw_draws w) (hw_wire w ++ [frame raw]) (hw_out w)).
Proof. done. Qed.
Lemma hm_run (m : HM A) (f : A → HM B) a w w' : m w = Ok (a, w') → (m ≫= f) w = f a w'.
Proof. unfold mbind, HM_bind. by intros ->. Qed.
Lemma hm_assoc {D} (m : HM A) (f : A → HM B) (g : B → HM D) w : ((m ≫= f) ≫= g) w = (m ≫= λ a, f a ≫= g) w.
Proof. unfold mbind, HM_bind. by destruct (m w) as [[a w']| |]. Qed.
End running.
(** One step of a computation on a state that is known. *)
Ltac hm_step :=
  first [rewrite hm_get | rewrite hm_ret | rewrite hm_upd | rewrite hm_draw | rewrite hm_lift | rewrite hm_write | rewrite hm_expect | rewrite hm_assoc];
  cbn [hw_host hw_draws hw_wire hw_out h_tp h_sent h_done h_phase h_rx h_rxs h_pending h_set_tp h_set_sent h_set_done h_set_pending app].

(** ** Two clients *)

(** The loop takes one packet. *)
Lemma loop_packet `{C : Crypto} `{I : HashIter} `{B : Bz2} W rand io mode our target text path deadline now raw ps h d wire out e t w' :
  now < deadline → h_done h = false → handle_frame (h_tp h) raw (rand d 32%nat) Hub = Ok (e, t) →
  host_event W rand io mode our target text path now e (mkHW (h_set_tp t h) (S d) wire out) = Ok (tt, w') →
  host_loop W rand io mode our target text path deadline ((now, raw) :: ps) (mkHW h d wire out) =
  host_loop W rand io mode our target text path deadline ps w'.
Proof.
  intros Hd Hh Hf He. cbn [host_loop]. hm_step. rewrite Hh, (proj2 (Z.leb_gt _ _)) by done. cbn [orb]. rewrite (hm_run _ _ tt _ w'); [done|].
  unfold host_frame. do 2 hm_step. rewrite Hf. by do 2 hm_step.
Qed.
(** A client with its identity, before [host_start]. *)
Definition host_world `{C : Crypto} (seed : Z) : HostWorld := mkHW (host_new seed).2 0 [] [].
Lemma host_identity_ok `{C : Crypto} seed : private_ok (host_identity seed).
Proof. by apply from_bytes_ok; rewrite length_replicate. Qed.


(** ** What a fetch tells of the client *)

(** The client with another identity in its transport. *)
Definition with_id (id : PrivateIdentity) (t : Transport) : Transport :=
  mkTransport id (our_dests t) (known_t t) (paths t) (links t) (pending_out t) (out_links t) (receipts t) (opp_receipts t) (out_resources t).
Definition host_with_id (id : PrivateIdentity) (h : Host) : Host := h_set_tp (with_id id (h_tp h)) h.
Definition world_with_id (id : PrivateIdentity) (w : HostWorld) : HostWorld := mkHW (host_with_id id (hw_host w)) (hw_draws w) (hw_wire w) (hw_out w).
(** A computation that does the same, and so writes the same, whatever the identity. *)
Definition blind {A} (m : HM A) : Prop := ∀ id w, m (world_with_id id w) = prod_map (λ a, a) (world_with_id id) <$> m w.

Section blind.
Context `{C : Crypto} `{I : HashIter} `{B : Bz2} (W : Z) (rand : nat → nat → bytes) (io : nat → bool).
Lemma blind_ret {A} (a : A) : blind (mret a).
Proof. done. Qed.
Lemma blind_bind {A D} (m : HM A) (f : A → HM D) : blind m → (∀ a, blind (f a)) → blind (m ≫= f).
Proof. intros Hm Hf id w. unfold mbind, HM_bind. rewrite Hm. destruct (m w) as [[a w']| |]; [|done|done]. apply (Hf a id w'). Qed.
(** A computation that looks at the state, but not at the identity in it. *)
Lemma blind_get {A} (f : Host → HM A) : (∀ h, blind (f h)) → (∀ id h, f (host_with_id id h) = f h) → blind (h_get ≫= f).
Proof. intros Hf He id w. rewrite !hm_get. change (hw_host (world_with_id id w)) with (host_with_id id (hw_host w)). rewrite He. apply Hf. Qed.
Lemma blind_lift {A} (r : res A) : blind (h_lift r).
Proof. intros id w. unfold h_lift. by destruct r. Qed.
Lemma blind_say p : blind (say p).
Proof. done. Qed.
Lemma blind_draw k : blind (draw_bytes rand k).
Proof. done. Qed.
Lemma blind_write raw : blind (write raw).
Proof. done. Qed.
Lemma blind_upd g : (∀ id h, g (host_with_id id h) = host_with_id id (g h)) → blind (h_upd g).
Proof. intros Hg id w. unfold h_upd. simpl. unfold world_with_id at 1. simpl. by rewrite Hg. Qed.
Hint Resolve blind_ret blind_lift blind_say blind_draw blind_write : blind.
Ltac blind_step :=
  repeat first [progress intros | solve [auto with blind] | apply blind_bind; [|intros []] | apply blind_bind; [|intros ?] | apply blind_upd; by intros ? [] | case_match].
Lemma blind_write_made made : blind (write_made made).
Proof. unfold write_made. blind_step. Qed.
#[local] Hint Resolve blind_write_made : blind.
Lemma blind_resource_req lid req : blind (resource_req_opt rand lid req false).
Proof. unfold resource_req_opt, send_resource_req. destruct req; [|apply blind_ret]. apply blind_get; [|done]. blind_step. Qed.
Lemma blind_request now lid path data : blind (send_request rand now lid path data).
Proof. unfold send_request. apply blind_get; [|done]. blind_step. Qed.
Lemma blind_finish r d : blind (finish_resource r d).
Proof. unfold finish_resource. blind_step. Qed.
Lemma blind_fetch_response resp : blind (fetch_response resp).
Proof. unfold fetch_response. destruct resp; blind_step. Qed.
Lemma blind_write_all ps : blind (write_all ps).
Proof. induction ps; simpl; blind_step. Qed.
Hint Resolve blind_resource_req blind_request blind_finish blind_fetch_response blind_write_all : blind.
Lemma blind_outlink_response lid context pt : blind (outlink_response W rand lid context pt).
Proof. unfold outlink_response. apply blind_get; [|done]. blind_step. Qed.
Hint Resolve blind_outlink_response : blind.
Lemma blind_read lxmf show : blind (read_message W lxmf show).
Proof. unfold read_message. apply blind_get; [|done]. blind_step. Qed.
Lemma blind_resource_req_in lid req inbound : blind (resource_req_opt rand lid req inbound).
Proof. unfold resource_req_opt, send_resource_req. destruct req; [|apply blind_ret]. apply blind_get; [|done]. blind_step. Qed.
Hint Resolve blind_read blind_resource_req_in : blind.
Lemma blind_link_resource lid context pt inbound : blind (link_resource W rand lid context pt inbound).
Proof. unfold link_resource. apply blind_get; [|done]. blind_step. Qed.
Lemma blind_out_link_data now lid context pt : blind (on_out_link_data W rand Fetch now lid context pt).
Proof.
  unfold on_out_link_data. apply blind_bind; [case_match; [|auto with blind]; apply blind_get; [|done]; blind_step|]. blind_step.
Qed.
Lemma blind_link_up our text path now lid lt : blind (on_link_up rand Fetch our text path now lid lt).
Proof. unfold on_link_up. apply blind_get; [|done]. blind_step. Qed.
(** The request of a link is made of fresh keys: it changes the table of requests only. *)
Lemma link_request_id id t target peer x e now :
  make_link_request (with_id id t) target peer x e now = prod_map (λ a, a) (with_id id) <$> make_link_request t target peer x e now.
Proof.
  unfold make_link_request. change (apply_transport (with_id id t) target) with (apply_transport t target).
  destruct (initiate_request target x e) as [[raw lid]| |]; [|done|done]. res_simpl. by destruct (apply_transport t target raw).
Qed.
Lemma blind_target our text now t : blind (on_target rand io Fetch our text now t).
Proof.
  intros id w. unfold on_target. rewrite !hm_get. rewrite bool_decide_eq_true_2 by tauto.
  change (known (h_tp (hw_host (world_with_id id w))) t) with (known (h_tp (hw_host w)) t).
  destruct (known (h_tp (hw_host w)) t) as [k|]; [|done]. unfold mbind, HM_bind, h_lift, draw_bytes. cbn [expect]. res_simpl.
  change (h_tp (hw_host (world_with_id id w))) with (with_id id (h_tp (hw_host w))). rewrite link_request_id.
  by destruct (make_link_request _ _ _ _ _ _) as [[[raw lid] t']| |].
Qed.
Lemma blind_event our target text path now e :
  (∀ d, e ≠ EvPathRequest d) → (∀ l i, e ≠ EvLinkIdentified l i) → blind (host_event W rand io Fetch our target text path now e).
Proof.
  intros Hp Hi. destruct e; try solve [destruct (Hp _ eq_refl) | destruct (Hi _ _ eq_refl)]. all: try solve [apply blind_ret | apply blind_write | apply blind_say].
  all: cbn [host_event]; try solve [apply blind_out_link_data | apply blind_link_up | apply blind_link_resource].
  all: try solve [blind_step].
  - apply blind_get; [|done]. intros h. case_match; [apply blind_target|apply blind_ret].
  - apply blind_bind; [apply blind_write|intros _]. apply blind_bind; [apply blind_read|intros _]. apply blind_ret.
Qed.
Lemma event_address our our' target text path now e :
  (∀ d, e ≠ EvPathRequest d) → (∀ l i, e ≠ EvLinkIdentified l i) →
  host_event W rand io Fetch our' target text path now e = host_event W rand io Fetch our target text path now e.
Proof. intros Hp Hi. destruct e; try solve [destruct (Hp _ eq_refl) | destruct (Hi _ _ eq_refl)]. all: reflexivity. Qed.
End blind.


(** ** Witnesses *)
Import ToyInstances.
#[local] Instance host_iter : HashIter := λ V m, map_to_list m.
#[local] Instance host_bz2 : Bz2 := λ _ _, None.
Definition wh_rand (i k : nat) : bytes := replicate k (Z.of_nat i mod 256).
Definition wh_text : bytes := ascii "hello".
Definition wh_node : bytes := (host_new 7).1.
Definition wh_fetching : HostWorld :=
  let h := (host_new 5).2 in mkHW (h_set_tp (heard wh_node (host_info (host_identity 7)) (h_tp h)) h) 0 [] [].
Definition wh_fetch (our : bytes) : HM () :=
  host_event 32 wh_rand (λ _, true) Fetch our (Some wh_node) [] (ascii "/page/index.mu") 1700000000 (EvAnnounce wh_node (host_info (host_identity 7))).
